(* ===== verification/_CoqProject ===== *)
-Q . S2P
Prelude.v
Cpp.v
Effects.v
Proto.v
Common.v
Threads.v
Trigger.v
TriggerSpec.v
TriggerClaims.v
Coordinator.v
FuncCall.v
FuncCallSpec.v
CallClaims.v
Notify.v
CoordLoop.v
CoordInv.v
CoordReg.v
CoordClaims.v
Sched.v
SchedLoop.v
Comm.v
Dispatch.v
Replica.v
LockStep.v
Waiting.v
Timers.v
Executor.v
Wire.v
Pipeline.v
Manager.v
Lattices.v
LatticeClaims.v
KvsClient.v
KvsClaims.v
Durable.v
DurableTrip.v
Interleave.v
Ring.v
RingInv.v
RingClaims.v
RingSingle.v
IdPool.v
Channel.v
ChannelClaims.v
ChannelStore.v
ChannelTrips.v
ChannelTry.v
Conversation.v
Shm.v
ShmClaims.v
EpheStore.v
Locks.v
PoolShared.v
Waiter.v
Alloc.v
AllocInv.v
AllocOps.v
AllocClaims.v
Broadcast.v
BroadcastClaims.v
BroadcastMulti.v
BroadcastMultiInv.v
BroadcastMultiClaims.v
ChanApi.v
ChanApiClaims.v
Buffer.v
SafePtr.v
SafeQueue.v
SharedMutex.v
MultiLock.v
SpinLocks.v
PartMap.v
WaiterClose.v
WaiterImpl.v
