(* ===== verification/Prelude.v ===== *)
(** * Verification of Pheromone

    Pheromone is a serverless platform in which functions are started by the
    data they wait for. Executors run user functions and send the objects they
    produce to the scheduler of their worker. Objects live in buckets; triggers
    attached to a bucket decide which functions an object starts, and with which
    objects. The scheduler keeps copies of the triggers and starts what it can on
    its own executors; it tells the bucket's coordinator of every object and of
    the triggers that fired, and the coordinator, which has the triggers too,
    starts the rest where there is room. A management server tells clients which
    coordinator serves their application. Durable objects go to an external
    key-value store as lattice values. Inside a worker, scheduler, executors and
    helper talk over channels in shared memory, and objects lie there too.

    ** Files

    - [Prelude]: faults and the error monad, unordered containers, automation.
      [Cpp]: machine integers, strings, [stoi] and [to_string], [rand_r].
      [Effects]: the monad of code that changes a state, sends messages and may
      fault, with its loop rules. [Proto]: the messages of [common/proto].
    - [Common], [Threads]: [common/include/common.hpp], and the addresses of
      [kvs_threads.hpp], [op_threads.hpp] and [anna_threads.hpp].
    - [Trigger]: the seven primitives of [common/include/trigger.hpp], one
      definition per method and a dispatch per virtual method. [TriggerSpec]:
      specifications of streams and invariants. [TriggerClaims]: theorems.
    - [Coordinator] (state, bucket, trigger, registration, query and status
      handlers), [FuncCall] (placing calls on workers), [Notify] (objects and
      triggers), [CoordLoop] (the poll loop): [src/coordinator/*.cpp]. The state
      record [coord] has the maps [run] declares. [FuncCallSpec], [CoordInv],
      [CoordReg] hold the invariants; [CallClaims], [CoordClaims] the theorems.
    - [Sched], [SchedLoop]: [src/scheduler/scheduler_server.cpp] and
      [object_handlers.cpp]; the record [sched] has the globals and the locals of
      [run], trigger pointers are addresses of a heap of triggers.
      [Comm]: [include/scheduler/comm_helper.hpp] and the whole worker, [node].
      [Dispatch], [Waiting], [Timers]: theorems on executors, on calls that wait
      for objects and on the loops of the timer. [Replica], [LockStep]: a
      worker's triggers against the coordinator's.
    - [common/include/safe_ptr.hpp]. [SafePtr]: objects behind a lock, access by
      access. [SafeQueue]: the queues and the map the helper's threads share.
      [SpinLocks], [SharedMutex]: the locks a [safe_ptr] can be used with.
      [MultiLock]: [lock_timed_any], several of them at once. [PartMap]: the partitioned map.
    - [Executor]: [src/executor/executor_server.cpp] and
      [include/executor/function_lib.hpp]. [EpheStore]: its objects and the
      scheduler's in the shared memory of [Shm], which implement the map of bytes
      [Sched] has for them. [Wire]: round trips of the messages
      between executor, scheduler and other workers. [Pipeline]: a many-to-one
      dependency from its registration to the invocation of its target.
    - [Manager]: [src/manager/manager_server.cpp].
    - [Lattices]: [common/include/lattices] and their encoding in [common.hpp];
      [LatticeClaims]: theorems.
    - [KvsClient]: [common/include/anna_client/kvs_client.hpp], the asynchronous
      client of the durable store, with the record [kvs] of its members, and the
      blocking receive of [common/include/requests.hpp]. [KvsClaims]: theorems.
      [Durable]: a worker of [Comm] with a client per thread; [DurableTrip]: an
      object through the store, which is the interface [Store].
    - The library below the worker, [common/shm-ipc]. [Interleave]: threads as
      schedules of steps, and counting of threads. [Ring]: the ring of many
      senders and many receivers ([circ/elem_array.h], [prod_cons.h]), one step
      per access to shared memory; [RingInv], [RingClaims]: its invariant and
      theorems. [RingSingle]: the rings of a single sender. [IdPool]: the pool of
      block numbers ([id_pool.h]). [Channel]: [ipc.cpp], connecting, sending and receiving over such a ring, fragments
      and blocks; [ChannelClaims], [ChannelStore], [ChannelTrips]: reassembly,
      the blocks, and whole channels; [ChannelTry]: sending without
      forcing. [Conversation]: the scheduler's and the executor's messages of
      [Sched] and [Executor] sent over two channels.
      [Shm]: named shared memory objects ([platform/shm_linux.cpp], [shm.cpp]);
      [ShmClaims]: theorems. [Locks]: the locks of [rw_lock.h]. [PoolShared]: the
      pool under its lock, access by access. [Waiter]: sleeping and waking
      ([waiter_helper.h], [wait_for] of [ipc.cpp]); [WaiterClose]: the same with
      the flags of a handle that is closed meanwhile; [WaiterImpl]: times, the
      robust mutex, semaphores and opening and closing
      ([platform/waiter_linux.h], [waiter_wrapper.h]). [Alloc] (with [AllocInv],
      [AllocOps], [AllocClaims]): the pools of [libipc/memory] over bytes of
      memory, [malloc] being the interface [Malloc]; operations are whole, and at
      most 32 threads end. [Broadcast], [BroadcastClaims]: the ring of one sender
      whose messages every receiver gets; [BroadcastMulti] (with
      [BroadcastMultiInv], [BroadcastMultiClaims]): the same with many senders,
      the ring of [ipc::channel]. [ChanApi], [ChanApiClaims]: the handles
      of channels of every kind ([elem_array.h], [elem_def.h], [queue.h],
      [ipc.cpp], [chan_wrapper] of [ipc.h]), as whole operations. [Buffer]:
      received memory ([buffer.cpp]).

    ** Conventions

    A C++ call that would not return normally (undefined behaviour, an uncaught
    exception, a loop without end) is a [Fault], so "does not fault" is a
    statement about memory safety, exceptions and termination. [map] and [set]
    are the unordered containers of [types.hpp]: code that walks one walks it in
    the order of a [Layout], over which every theorem quantifies. [m[k]] on a
    map is [at_or] with, where it can be observed, [touch]; an entry that only
    ever reads as the default of its type is not always created. Integers keep
    their width ([u8], [u32], [u64], [i32]) where the source's type matters.
    Time points are integers of nanoseconds, read once per phase of a loop body.
    Protobuf's classes are generated and not in the sources: handlers take
    decoded messages, and the encoding is the interface [Codec], whose one law is
    that parsing gives back what was serialized; [codec_countable] shows it can
    hold. [rand_r] is the interface [Rand]; that its numbers are not negative is
    all that is used.

    Code that shares memory between threads runs as a schedule: a list of
    choices of which thread makes its next access, over which the theorems
    quantify. Memory is sequentially consistent. What the schedule also chooses
    is what the code cannot control: a weak exchange that fails for no reason, a
    write of data another thread sees half done, a wait that times out. [Channel]
    is above [Ring] and takes a ring for what [ring_refines_queue] shows it to
    be, a queue of 255 places. Message numbers are taken to be less than [2^32]
    apart, the system to grant the memory it is asked for.

    Loops that are not structural have fuel. [next_avail] is given the number of
    nodes, [rr_loop] the number of requests, [rerun_check] the length of the
    queue, [init_executors] 256, the number of values of its counter; running
    out is a fault or [None], and the theorems show that it does not happen
    ([batch_split_complete], [coordinator_never_faults], [timer_loop_ends]) or
    exactly when it does ([scheduler_starts_iff]). The loops over arguments by
    threes have their length as fuel, which each round shortens.

    ** What is shown

    - Triggers: each primitive, fed any stream, makes the invocations it stands
      for, and survives its dump; what a re-execution check returns.
    - Coordinator: no well-formed message makes it fault; the registry of buckets
      stays consistent; calls are placed whole on the freest node or split
      without loss, or refused; triggers advance once per object; internal calls
      go to the data; what is notified can be queried.
    - Worker: no executor is sent more calls than it asked for; calls wait for
      exactly the objects the worker lacks and are released when they arrive;
      delayed calls and re-execution; its trigger copies equal the coordinator's
      and stay in step, so that no invocation is made twice.
    - Messages: what one component writes the next one reads, with the exact
      conditions; objects move between workers unchanged.
    - Management server: stable answers. Lattices: joins, convergence, encoding.
    - Durable store client: every request is answered, by the store or by a
      time-out, whatever is lost on the way; a worker awaits a durable object
      until it has it or hears that there is none; what one worker persists
      another reads.
    - Ring: whatever the interleaving, pushes and pops are those of one queue,
      and a ring at rest holds exactly what was pushed and not popped. Channels:
      messages of any length are put together from their fragments although
      those of several senders mix, and arrive in order (with [try_send] a channel
      is a bounded queue), so that a call and its
      answer cross two channels unchanged; blocks stay intact until they are
      read and no two owners share one. Shared memory objects live from the
      first handle to the last, and so do waiters. Locks exclude, no wake-up is
      lost, and closing a handle wakes who sleeps on it. Blocks of the pools are
      their owner's alone. A broadcast, of one sender or of many, reaches every
      receiver, in one order; below 2^32 and 2^26 messages, where the counters of
      the elements do not wrap. The handles of a channel count its receivers exactly; received memory is given
      back once.
    - Inside a worker: messages between the helper's threads are handled once, in
      order; a partitioned map is one map; locking several objects at once does not
      deadlock.
    - Some theorems and lemmas state where the code does less than it means to:
      the dropped object of an n-out-of-n trigger, re-execution entries that
      outlive their session, deletion of a trigger that was not replicated, the
      size of a remote object, port collisions, the 8-bit executor counter, a
      channel that a full ring cuts off, waits that time out and stay counted,
      shared memory opened while its last handle is released, blocks in use that a
      crowded recycler frees, a receiver overtaken while it connects, a closed
      handle whose sleeper is left asleep, locks that wait for themselves, a second
      sender on a channel of one, a full ring that looks empty,
      a place claimed by nobody, and places that shut when the commit index wraps.

    ** What is not modelled

    Logging, time stamps for logs, the configuration files and [main];
    ZeroMQ, whose messages are outputs with an address and whose deliveries are
    inputs, and likewise for the channels outside [Conversation]; of the IPC
    library thread-local storage, the demos, the stand-alone condition and semaphore classes,
    the Windows layer, and memory weaker than sequentially consistent;
    of [safe_ptr.hpp] [safe_obj] and the linking of mutexes;
    preemption inside an iteration of a worker's threads in [Comm] ([SafeQueue]
    shows the queues they share to be what [Comm] takes them for); the durable
    store and its routing tier, external services whose
    answers are inputs of [KvsClient] and [Durable] (in [Comm] alone the helper's
    requests to the client are outputs and the client's answers inputs); the test
    client and the
    Python client. *)
From stdpp Require Import prelude gmap strings list fin_maps fin_sets.
From Stdlib Require Import ZArith Lia Ascii.

(** * Strings

    [std::string] is a sequence of 8-bit characters, embedded zeros included:
    a list of [ascii]. *)
Abbreviation str := (list ascii).

Definition lit (s : string) : str := String.list_ascii_of_string s.
Arguments lit _%_string.

Definition nul : ascii := Ascii.zero.

(** * Faults

    Why a C++ computation does not return: undefined behaviour, an exception
    no caller of the modelled code catches, or a loop that does not end. *)
Inductive fault :=
  | NullDeref
  | IndexPastEnd
  | IterPastEnd
  | InvalidArgument
  | OutOfRange
  | DivByZero
  | DanglingPtr
  | Diverges.

#[export] Instance fault_eq_dec : EqDecision fault.
Proof. solve_decision. Defined.

Inductive res (A : Type) :=
  | Ok (a : A)
  | Fault (f : fault).
Arguments Ok {A} a.
Arguments Fault {A} f.

#[export] Instance res_ret : MRet res := fun A a => Ok a.
#[export] Instance res_bind : MBind res := fun A B k m =>
  match m with Ok a => k a | Fault f => Fault f end.
#[export] Instance res_fmap : FMap res := fun A B k m =>
  match m with Ok a => Ok (k a) | Fault f => Fault f end.

Definition res_of_option {A} (f : fault) (o : option A) : res A :=
  match o with Some a => Ok a | None => Fault f end.

Definition is_ok {A} (r : res A) : Prop := exists a, r = Ok a.

(** A loop over a sequence that threads a state and may fault. *)
Fixpoint foldM {S A} (body : S -> A -> res S) (s : S) (l : list A) : res S :=
  match l with
  | [] => Ok s
  | a :: l => s' ← body s a; foldM body s' l
  end.

(** A loop that threads a state and collects what each round emits. *)
Fixpoint mapAccum {S A B} (body : S -> A -> S * list B) (s : S) (l : list A)
  : S * list B :=
  match l with
  | [] => (s, [])
  | a :: l =>
      let '(s1, out1) := body s a in
      let '(s2, out2) := mapAccum body s1 l in
      (s2, out1 ++ out2)
  end.

(** * Unordered containers

    [types.hpp] makes [map] and [set] the unordered containers, whose
    iteration order the standard leaves open. A [Layout] is one such order;
    every theorem quantifies over it. *)
Class Layout := {
  order : forall {A : Type}, list A -> list A;
  order_perm : forall {A : Type} (l : list A), order l ≡ₚ l }.

Definition layout_id : Layout.
Proof. refine {| order := fun A l => l |}. done. Defined.

Definition layout_rev : Layout.
Proof. refine {| order := fun A l => reverse l |}. intros A l. apply reverse_Permutation. Defined.

Definition map_iter `{Layout} `{Countable K} {V} (m : gmap K V) : list (K * V) :=
  order (map_to_list m).
Definition set_iter `{Layout} `{Countable K} (X : gset K) : list K :=
  order (elements X).

(** [m[k]] on a map: the value, default-constructed when the key is absent,
    and the map with the key present. *)
Definition at_or `{Countable K} {V} (d : V) (k : K) (m : gmap K V) : V :=
  default d (m !! k).
Definition touch `{Countable K} {V} (d : V) (k : K) (m : gmap K V) : gmap K V :=
  match m !! k with Some _ => m | None => <[k := d]> m end.

(** * Automation *)
Create HintDb phero.
Create Rewrite HintDb phero.


(** Case analysis on whatever blocks the reduction of the goal or of a
    hypothesis, closing the contradictory branches. *)
Ltac step_match :=
  match goal with
  | |- context [match ?x with _ => _ end] => destruct x eqn:?; simplify_eq/=
  | H : context [match ?x with _ => _ end] |- _ => destruct x eqn:?; simplify_eq/=
  end.
Ltac go := repeat (case_decide || step_match); simplify_eq/=; try done.

Ltac bool_to_prop :=
  repeat match goal with
  | H : _ && _ = true |- _ => apply andb_true_iff in H as [? ?]
  | H : _ || _ = false |- _ => apply orb_false_iff in H as [? ?]
  | H : negb _ = true |- _ => apply negb_true_iff in H
  | H : negb _ = false |- _ => apply negb_false_iff in H
  | H : bool_decide _ = true |- _ => apply bool_decide_eq_true in H
  | H : bool_decide _ = false |- _ => apply bool_decide_eq_false in H
  | H : (_ =? _)%Z = true |- _ => apply Z.eqb_eq in H
  | H : (_ =? _)%Z = false |- _ => apply Z.eqb_neq in H
  | H : (_ <? _)%Z = true |- _ => apply Z.ltb_lt in H
  | H : (_ <? _)%Z = false |- _ => apply Z.ltb_ge in H
  | H : (_ <=? _)%Z = true |- _ => apply Z.leb_le in H
  | H : (_ <=? _)%Z = false |- _ => apply Z.leb_gt in H
  end.

(** * Lemmas on the monad and on loops *)
(** The number of elements with a property, after one of them changed. *)
Lemma filter_insert_length {A} (P : A -> Prop) `{!forall x, Decision (P x)} (l : list A) k x y : l !! k = Some y ->
  (length (filter P (<[k := x]> l)) + (if decide (P y) then 1 else 0) = length (filter P l) + (if decide (P x) then 1 else 0))%nat.
Proof.
  revert k. induction l as [|z l IH]; intros [|k] Hk; try done.
  - change (<[0%nat := x]> (z :: l)) with (x :: l). injection Hk as ->. rewrite !list.filter_cons. repeat case_decide; cbn [length]; lia.
  - change (<[S k := x]> (z :: l)) with (z :: <[k := x]> l). specialize (IH _ Hk). revert IH. rewrite !list.filter_cons. repeat case_decide; cbn [length]; lia.
Qed.
Lemma filter_positive {A} (P : A -> Prop) `{!forall x, Decision (P x)} (l : list A) : (0 < length (filter P l))%nat <-> exists x, x ∈ l /\ P x.
Proof.
  split.
  - destruct (filter P l) as [|x l'] eqn:E; [by intros ?%Nat.lt_irrefl|]. intros _. exists x.
    assert (x ∈ filter P l) as Hx by (rewrite E; left). apply list_elem_of_filter in Hx as [? ?]. done.
  - intros (x & Hx & HP). assert (x ∈ filter P l) as Hf by (by apply list_elem_of_filter). destruct (filter P l); [by apply elem_of_nil in Hf|cbn; lia].
Qed.

Lemma foldM_app {S A} (body : S -> A -> res S) s l1 l2 :
  foldM body s (l1 ++ l2) = s' ← foldM body s l1; foldM body s' l2.
Proof.
  revert s. induction l1 as [|a l1 IH]; intros s; [done|]. simpl.
  destruct (body s a); simpl; [apply IH|done].
Qed.

Lemma mapAccum_app {S A B} (body : S -> A -> S * list B) s l1 l2 :
  mapAccum body s (l1 ++ l2) =
  let '(s1, o1) := mapAccum body s l1 in
  let '(s2, o2) := mapAccum body s1 l2 in (s2, o1 ++ o2).
Proof.
  revert s. induction l1 as [|a l1 IH]; intros s; simpl.
  - by destruct (mapAccum body s l2).
  - destruct (body s a) as [s1 o1]. rewrite IH.
    destruct (mapAccum body s1 l1) as [s2 o2], (mapAccum body s2 l2) as [s3 o3].
    by rewrite app_assoc.
Qed.

(** An invariant of the body of a loop is one of the loop. *)
Lemma foldM_inv {S A} (P : S -> Prop) (body : S -> A -> res S) s l s' :
  (forall s a s', a ∈ l -> P s -> body s a = Ok s' -> P s') ->
  P s -> foldM body s l = Ok s' -> P s'.
Proof.
  revert s. induction l as [|a l IH]; intros s Hb Hs; simpl; [by inversion 1; simplify_eq|].
  destruct (body s a) as [s1|] eqn:E; simpl; [|done]. intros H. eapply IH; [| |done].
  - intros s2 b s3 ?. apply Hb. by right.
  - eapply Hb; [left|done|done].
Qed.

Lemma mapAccum_inv {S A B} (P : S -> Prop) (body : S -> A -> S * list B) s l :
  (forall s a, a ∈ l -> P s -> P (body s a).1) -> P s -> P (mapAccum body s l).1.
Proof.
  revert s. induction l as [|a l IH]; intros s Hb Hs; simpl; [done|].
  pose proof (Hb s a (list_elem_of_here _ _) Hs) as Ha. destruct (body s a) as [s1 o1].
  specialize (IH s1). destruct (mapAccum body s1 l). apply IH; [|done].
  intros s2 b ?. apply Hb. by right.
Qed.

(** * Lemmas on unordered containers *)
Section containers.
Context `{Layout} `{Countable K}.

Lemma elem_of_set_iter (X : gset K) x : x ∈ set_iter X <-> x ∈ X.
Proof. unfold set_iter. by rewrite order_perm, elem_of_elements. Qed.

Lemma NoDup_set_iter (X : gset K) : NoDup (set_iter X).
Proof. unfold set_iter. rewrite order_perm. apply NoDup_elements. Qed.

Lemma length_set_iter (X : gset K) : length (set_iter X) = size X.
Proof. unfold set_iter. by rewrite order_perm. Qed.

Lemma elem_of_map_iter {V} (m : gmap K V) k v : (k, v) ∈ map_iter m <-> m !! k = Some v.
Proof. unfold map_iter. by rewrite order_perm, elem_of_map_to_list. Qed.

Lemma NoDup_fst_map_iter {V} (m : gmap K V) : NoDup (map_iter m).*1.
Proof. unfold map_iter. rewrite order_perm. apply NoDup_fst_map_to_list. Qed.

Lemma length_map_iter {V} (m : gmap K V) : length (map_iter m) = size m.
Proof. unfold map_iter. rewrite order_perm. by rewrite length_map_to_list. Qed.

Lemma at_or_touch {V} (d : V) k k' (m : gmap K V) : at_or d k' (touch d k m) = at_or d k' m.
Proof.
  unfold at_or, touch. destruct (m !! k) eqn:E; [done|].
  destruct (decide (k = k')) as [->|]; by simplify_map_eq.
Qed.

Lemma lookup_touch {V} (d : V) k (m : gmap K V) : touch d k m !! k = Some (at_or d k m).
Proof. unfold at_or, touch. destruct (m !! k) eqn:E; by simplify_map_eq. Qed.

Lemma lookup_touch_ne {V} (d : V) k k' (m : gmap K V) : k <> k' -> touch d k m !! k' = m !! k'.
Proof. intros. unfold touch. destruct (m !! k) eqn:E; by simplify_map_eq. Qed.
End containers.

#[export] Hint Rewrite @at_or_touch @lookup_touch : phero.
#[export] Hint Resolve NoDup_set_iter NoDup_fst_map_iter : phero.
