(* ===== verification/Cpp.v ===== *)
(** What the sources use of C++ and of its standard library: fixed-width
    integers, [std::to_string], [std::stoi], [find], [substr], C strings,
    bounds-checked vector access and [rand_r]. *)
From stdpp Require Import prelude gmap strings list.
From Stdlib Require Import ZArith Lia Ascii.
From S2P Require Import Prelude.

Open Scope Z_scope.

Ltac Zify.zify_post_hook ::= Z.to_euclidean_division_equations.

(** * Fixed-width integers *)
Definition u8 (x : Z) : Z := x mod 2 ^ 8.
Definition u32 (x : Z) : Z := x mod 2 ^ 32.
Definition u64 (x : Z) : Z := x mod 2 ^ 64.
(** Conversion to a signed 32-bit integer (two's complement). *)
Definition i32 (x : Z) : Z := (x + 2 ^ 31) mod 2 ^ 32 - 2 ^ 31.

Definition is_u32 (x : Z) : Prop := 0 <= x < 2 ^ 32.
Definition is_i32 (x : Z) : Prop := - 2 ^ 31 <= x < 2 ^ 31.

(** A character as a number, and [push_back] of a number on a string. *)
Definition chr (x : Z) : ascii := ascii_of_N (Z.to_N (u8 x)).
Definition ord (c : ascii) : Z := Z.of_N (N_of_ascii c).

(** * Strings *)
(** [s.find(c)]: the first position of [c]; [None] stands for [npos]. *)
Fixpoint find (c : ascii) (s : str) : option nat :=
  match s with
  | [] => None
  | a :: s => if decide (a = c) then Some 0%nat else S <$> find c s
  end.

(** [s.find(c, pos)]. *)
Definition find_from (c : ascii) (pos : nat) (s : str) : option nat :=
  Nat.add pos <$> find c (drop pos s).

(** [s.substr(pos, len)]; [len = None] stands for [npos]. It throws
    [std::out_of_range] when [pos] is past the end. *)
Definition substr (pos : nat) (len : option nat) (s : str) : res str :=
  if decide (pos <= length s)%nat then
    Ok (match len with Some n => take n (drop pos s) | None => drop pos s end)
  else Fault OutOfRange.

(** [string(p)] for a [char*]: the characters up to the first zero. *)
Fixpoint c_str (s : str) : str :=
  match s with
  | [] => []
  | a :: s => if decide (a = nul) then [] else a :: c_str s
  end.

(** [v[i]]: reading past the end is undefined. *)
Definition vec_at {A} (l : list A) (i : nat) : res A :=
  res_of_option IndexPastEnd (l !! i).

(** [v.at(0)] and the like on a container that may be empty. *)
Definition deref_begin {A} (l : list A) : res A :=
  res_of_option IterPastEnd (head l).

(** Strings joined by a delimiter. *)
Fixpoint join (d : ascii) (l : list str) : str :=
  match l with
  | [] => []
  | [s] => s
  | s :: l => s ++ d :: join d l
  end.

(** * Numbers and decimal strings *)
Definition digit (n : Z) : ascii := chr (48 + n).
Definition digit_val (c : ascii) : option Z :=
  let n := ord c - 48 in
  if (0 <=? n) && (n <=? 9) then Some n else None.

Fixpoint to_dec (fuel : nat) (n : Z) : str :=
  match fuel with
  | O => []
  | S fuel => if n <? 10 then [digit n] else to_dec fuel (n / 10) ++ [digit (n mod 10)]
  end.

(** [std::to_string]; a number of [k] bits has at most [k] decimal digits. *)
Definition to_string (n : Z) : str :=
  if n <? 0 then "-"%char :: to_dec (S (Z.to_nat (Z.log2 (- n)))) (- n)
  else to_dec (S (Z.to_nat (Z.log2 n))) n.

(** The value of the longest prefix of digits, and how many there are. *)
Fixpoint digits_prefix (acc : Z) (s : str) : Z * nat :=
  match s with
  | [] => (acc, O)
  | c :: s =>
      match digit_val c with
      | Some d => let '(v, n) := digits_prefix (acc * 10 + d) s in (v, S n)
      | None => (acc, O)
      end
  end.

Definition is_space (c : ascii) : bool :=
  let n := ord c in (n =? 32) || ((9 <=? n) && (n <=? 13)).

Fixpoint skip_space (s : str) : str :=
  match s with
  | [] => []
  | c :: s' => if is_space c then skip_space s' else s
  end.

(** [std::stoi] in base ten: white space, an optional sign, digits; what
    follows the digits is ignored. *)
Definition stoi (s : str) : res Z :=
  let s := skip_space s in
  let '(sign, s) :=
    match s with
    | c :: s' =>
        if decide (c = "-"%char) then (-1, s')
        else if decide (c = "+"%char) then (1, s') else (1, s)
    | [] => (1, [])
    end in
  let '(v, n) := digits_prefix 0 s in
  if decide (n = O) then Fault InvalidArgument
  else
    let v := sign * v in
    if (- 2 ^ 31 <=? v) && (v <? 2 ^ 31) then Ok v else Fault OutOfRange.

(** * Memory *)
(** A [size_t] in memory, least significant byte first. *)
Fixpoint le_bytes (n : nat) (x : Z) : str :=
  match n with O => [] | S n => chr x :: le_bytes n (x / 256) end.
Fixpoint of_le_bytes (s : str) : Z :=
  match s with [] => 0 | c :: s => ord c + 256 * of_le_bytes s end.

(** [memcpy(dst, src, n)] into the front of a block. *)
Definition overwrite (dst src : str) : str := src ++ drop (length src) dst.

(** * Pseudo-random numbers

    [rand_r] returns a non-negative number and updates its seed; nothing else
    is assumed of it. *)
Class Rand := {
  rand_r : Z -> Z * Z;
  rand_r_nonneg : forall seed, 0 <= (rand_r seed).1 }.

(** [rand_r(&seed) % n] for a container of [n] elements: a remainder by zero
    is undefined. *)
Definition rand_below `{Rand} (seed : Z) (n : nat) : res (nat * Z) :=
  let '(r, seed') := rand_r seed in
  match n with
  | O => Fault DivByZero
  | _ => Ok (Z.to_nat (r mod Z.of_nat n), seed')
  end.

Definition rand_lcg : Rand.
Proof.
  refine {| rand_r := fun s => ((s * 1103515245 + 12345) mod 2 ^ 31, (s * 1103515245 + 12345) mod 2 ^ 32) |}.
  intros. simpl. apply Z.mod_pos_bound. lia.
Defined.
Definition rand_zero : Rand.
Proof. refine {| rand_r := fun s => (0, s) |}. done. Defined.

(** * Lemmas on integers *)
Lemma u8_range x : 0 <= u8 x < 256.
Proof. unfold u8. lia. Qed.
Lemma u32_range x : is_u32 (u32 x).
Proof. unfold is_u32, u32. lia. Qed.
Lemma u8_small x : 0 <= x < 256 -> u8 x = x.
Proof. unfold u8. intros. by apply Z.mod_small. Qed.
Lemma u32_small x : is_u32 x -> u32 x = x.
Proof. unfold is_u32, u32. intros. by apply Z.mod_small. Qed.
Lemma u64_small x : 0 <= x < 2 ^ 64 -> u64 x = x.
Proof. unfold u64. intros. by apply Z.mod_small. Qed.

(** A conversion to [int] and back leaves an [unsigned] as it was. *)
Lemma u32_i32 x : is_u32 x -> u32 (i32 x) = x.
Proof.
  unfold is_u32, u32, i32. intros.
  rewrite Zminus_mod, Zmod_mod, <- Zminus_mod. replace (x + 2 ^ 31 - 2 ^ 31) with x by lia.
  by apply Z.mod_small.
Qed.

Lemma ord_range c : 0 <= ord c < 256.
Proof. unfold ord. pose proof (N_ascii_bounded c). lia. Qed.

Lemma ord_chr x : 0 <= x < 256 -> ord (chr x) = x.
Proof.
  intros. unfold ord, chr. rewrite u8_small by done. rewrite N_ascii_embedding by lia. lia.
Qed.

Lemma chr_ord c : chr (ord c) = c.
Proof.
  unfold chr. rewrite u8_small by apply ord_range. unfold ord.
  by rewrite N2Z.id, ascii_N_embedding.
Qed.

Lemma rand_below_lt `{Rand} seed n i seed' : rand_below seed n = Ok (i, seed') -> (i < n)%nat.
Proof.
  unfold rand_below. destruct (rand_r seed) as [r s] eqn:E. destruct n; [done|].
  intros [=<- <-]. pose proof (Z.mod_pos_bound r (Z.of_nat (S n))). lia.
Qed.

Lemma rand_below_ok `{Rand} seed n : (0 < n)%nat -> exists i s, rand_below seed n = Ok (i, s).
Proof. intros. unfold rand_below. destruct (rand_r seed), n; [lia|eauto]. Qed.

(** * Lemmas on strings *)
Lemma find_app_stop c (s t : str) : c ∉ s -> find c (s ++ c :: t) = Some (length s).
Proof.
  induction s as [|a s IH]; simpl; intros Hc; [by rewrite decide_True|].
  rewrite not_elem_of_cons in Hc. rewrite decide_False, IH by naive_solver. done.
Qed.

Lemma find_none c (s : str) : c ∉ s -> find c s = None.
Proof.
  induction s as [|a s IH]; simpl; intros Hc; [done|].
  rewrite not_elem_of_cons in Hc. by rewrite decide_False, IH by naive_solver.
Qed.

Lemma c_str_id (s : str) : nul ∉ s -> c_str s = s.
Proof.
  induction s as [|a s IH]; simpl; intros Hc; [done|].
  rewrite not_elem_of_cons in Hc. rewrite decide_False, IH by naive_solver. done.
Qed.

Lemma c_str_app_nul (s t : str) : nul ∉ s -> c_str (s ++ nul :: t) = s.
Proof.
  induction s as [|a s IH]; simpl; intros Hc; [done|].
  rewrite not_elem_of_cons in Hc. rewrite decide_False, IH by naive_solver. done.
Qed.

(** * The decimal round trip *)
Lemma digit_val_digit n : 0 <= n < 10 -> digit_val (digit n) = Some n.
Proof.
  intros. unfold digit_val, digit. rewrite ord_chr by lia.
  replace (48 + n - 48) with n by lia.
  by rewrite (proj2 (Z.leb_le _ _)), (proj2 (Z.leb_le _ _)) by lia.
Qed.

Lemma digits_prefix_app acc (s t : str) :
  Forall (fun c => is_Some (digit_val c)) s ->
  digits_prefix acc (s ++ t) =
  let '(v, n) := digits_prefix acc s in
  let '(w, m) := digits_prefix v t in (w, (n + m)%nat).
Proof.
  revert acc. induction s as [|c s IH]; intros acc Hs; simpl.
  - by destruct (digits_prefix acc t).
  - inv Hs. destruct (digit_val c) as [d|]; [|by destruct H1].
    rewrite IH by done. destruct (digits_prefix (acc * 10 + d) s) as [v n].
    by destruct (digits_prefix v t).
Qed.

Lemma to_dec_digits fuel n : 0 <= n -> Forall (fun c => is_Some (digit_val c)) (to_dec fuel n).
Proof.
  revert n. induction fuel as [|fuel IH]; intros n Hn; simpl; [constructor|].
  destruct (n <? 10) eqn:E; bool_to_prop.
  - repeat constructor. rewrite digit_val_digit by lia. done.
  - apply Forall_app. split; [apply IH; lia|]. repeat constructor.
    rewrite digit_val_digit by lia. done.
Qed.

Lemma to_dec_value fuel n :
  0 <= n -> Z.log2 n < Z.of_nat fuel ->
  digits_prefix 0 (to_dec fuel n) = (n, length (to_dec fuel n)) /\ to_dec fuel n <> [].
Proof.
  revert n. induction fuel as [|fuel IH]; intros n Hn Hf; [pose proof (Z.log2_nonneg n); lia|].
  simpl. destruct (n <? 10) eqn:E; bool_to_prop.
  - simpl. rewrite digit_val_digit by lia. done.
  - destruct (IH (n / 10)) as [IH1 IH2]; [lia| |].
    { assert (n / 10 <= n / 2 ^ 1) by lia.
      assert (Z.log2 (n / 10) <= Z.log2 (n / 2 ^ 1)) by (apply Z.log2_le_mono; lia).
      rewrite <- Z.shiftr_div_pow2, Z.log2_shiftr in * by lia.
      assert (Z.log2 10 <= Z.log2 n) by (apply Z.log2_le_mono; lia).
      change (Z.log2 10) with 3 in *. lia. }
    split; [|by destruct (to_dec fuel (n / 10))].
    rewrite digits_prefix_app by (apply to_dec_digits; lia). rewrite IH1. simpl.
    rewrite digit_val_digit by lia. rewrite length_app. simpl. f_equal. lia.
Qed.

Lemma digit_val_head c : is_Some (digit_val c) ->
  is_space c = false /\ c <> "-"%char /\ c <> "+"%char.
Proof.
  unfold digit_val. intros [d Hd]. unfold is_space.
  destruct (_ && _) eqn:E in Hd; [|done]. bool_to_prop. clear Hd. split.
  - apply orb_false_iff. split; [apply Z.eqb_neq; lia|].
    apply andb_false_iff. right. apply Z.leb_gt. lia.
  - split; intros ->; revert H H0; vm_compute; congruence.
Qed.

Lemma to_dec_nonneg_digits n : 0 <= n -> Forall (fun c => is_Some (digit_val c)) (to_string n).
Proof. intros. unfold to_string. rewrite (proj2 (Z.ltb_ge _ _)) by lia. by apply to_dec_digits. Qed.

Lemma to_string_nonempty n : 0 <= n -> to_string n <> [].
Proof.
  intros. unfold to_string. rewrite (proj2 (Z.ltb_ge _ _)) by lia.
  apply to_dec_value; [done|]. pose proof (Z.log2_nonneg n). lia.
Qed.

(** [stoi] inverts [to_string] on the non-negative values of an [int]. *)
Lemma stoi_to_string n : 0 <= n < 2 ^ 31 -> stoi (to_string n) = Ok n.
Proof.
  intros Hn. pose proof (to_dec_nonneg_digits n ltac:(lia)) as Hd.
  pose proof (to_string_nonempty n ltac:(lia)) as Hne.
  assert (digits_prefix 0 (to_string n) = (n, length (to_string n))) as Hv.
  { unfold to_string. rewrite (proj2 (Z.ltb_ge _ _)) by lia.
    apply to_dec_value; [lia|]. pose proof (Z.log2_nonneg n). lia. }
  destruct (to_string n) as [|c s] eqn:E; [done|].
  inv Hd. destruct (digit_val_head c H1) as (Hs & Hm & Hp).
  unfold stoi. simpl skip_space. rewrite Hs. rewrite (decide_False _ _ Hm), (decide_False _ _ Hp), Hv.
  rewrite decide_False by done. rewrite Z.mul_1_l.
  by rewrite (proj2 (Z.leb_le _ _)), (proj2 (Z.ltb_lt _ _)) by lia.
Qed.

Lemma to_string_not_elem n c : 0 <= n -> digit_val c = None -> c ∉ to_string n.
Proof.
  intros Hn Hc Hin. pose proof (to_dec_nonneg_digits n Hn) as Hd.
  rewrite Forall_forall in Hd. destruct (Hd c Hin). congruence.
Qed.

Lemma to_string_inj n m : 0 <= n -> 0 <= m -> to_string n = to_string m -> n = m.
Proof.
  intros Hn Hm. unfold to_string. rewrite !(proj2 (Z.ltb_ge _ _)) by lia. intros E.
  pose proof (Z.log2_nonneg n). pose proof (Z.log2_nonneg m).
  destruct (to_dec_value (S (Z.to_nat (Z.log2 n))) n) as [E1 _]; [lia..|].
  destruct (to_dec_value (S (Z.to_nat (Z.log2 m))) m) as [E2 _]; [lia..|].
  rewrite E in E1. congruence.
Qed.

Lemma app_inj_len {A} (a b c d : list A) : length a = length c -> a ++ b = c ++ d -> a = c /\ b = d.
Proof. intros. by apply app_inj_1. Qed.

(** Two strings that end in the same separator-free way after their first
    separator are equal piecewise. *)
Lemma app_sep_inj c (a b a' b' : str) :
  c ∉ a -> c ∉ a' -> a ++ c :: b = a' ++ c :: b' -> a = a' /\ b = b'.
Proof.
  intros Ha Ha' E. pose proof (find_app_stop c a b Ha) as F1.
  pose proof (find_app_stop c a' b' Ha') as F2. rewrite E in F1. rewrite F1 in F2.
  apply app_inj_1 in E as [-> E]; [by simplify_eq|congruence].
Qed.

#[export] Hint Resolve u8_range u32_range ord_range to_string_nonempty : phero.

(** * Lemmas on memory *)
Lemma le_bytes_length n x : length (le_bytes n x) = n.
Proof. revert x. induction n as [|n IH]; intros x; [done|]. cbn [le_bytes length]. by rewrite IH. Qed.

Lemma ord_chr_u8 x : ord (chr x) = u8 x.
Proof.
  assert (chr x = chr (u8 x)) as -> by (unfold chr; by rewrite (u8_small (u8 x)) by apply u8_range). apply ord_chr, u8_range.
Qed.

Lemma le_bytes_roundtrip n x : 0 <= x < 256 ^ Z.of_nat n -> of_le_bytes (le_bytes n x) = x.
Proof.
  revert x. induction n as [|n IH]; intros x Hx; [simpl in *; lia|]. cbn [le_bytes of_le_bytes].
  assert (0 <= x / 256 < 256 ^ Z.of_nat n) as Hd.
  { rewrite Nat2Z.inj_succ, Z.pow_succ_r in Hx by lia. split; [apply Z.div_pos; lia|]. apply Z.div_lt_upper_bound; lia. }
  rewrite IH by done. rewrite ord_chr_u8. unfold u8. change (2 ^ 8) with 256. pose proof (Z.div_mod x 256). lia.
Qed.

Lemma overwrite_take dst src : take (length src) (overwrite dst src) = src.
Proof. unfold overwrite. by rewrite take_app_length. Qed.
Lemma overwrite_length dst src : (length src <= length dst)%nat -> length (overwrite dst src) = length dst.
Proof. intros. unfold overwrite. rewrite length_app, length_drop. lia. Qed.
