(* ===== verification/Effects.v ===== *)
(** Code that threads a state, sends messages and may fault: a state, writer
    and error monad. The worker's scheduler and communication layer are written
    in it. *)
From stdpp Require Import prelude gmap list.
From Stdlib Require Import ZArith Lia.
From S2P Require Import Prelude Cpp.

Definition M (S O A : Type) : Type := S -> res (A * S * list O).

#[export] Instance M_ret {S O} : MRet (M S O) := fun A a s => Ok (a, s, []).
#[export] Instance M_bind {S O} : MBind (M S O) := fun A B k m s =>
  match m s with
  | Ok (a, s, o) =>
      match k a s with
      | Ok (b, s, o') => Ok (b, s, o ++ o')
      | Fault f => Fault f
      end
  | Fault f => Fault f
  end.

Section operations.
Context {S O : Type}.
Definition gets {A} (f : S -> A) : M S O A := fun s => Ok (f s, s, []).
Definition modify (f : S -> S) : M S O () := fun s => Ok ((), f s, []).
Definition emit (o : O) : M S O () := fun s => Ok ((), s, [o]).
Definition lift {A} (r : res A) : M S O A := fun s => a ← r; Ok (a, s, []).
(** Run a pseudo-random draw below [n] on the seed field. *)
Definition draw `{Rand} (get : S -> Z) (put : Z -> S -> S) (n : nat) : M S O nat := fun s =>
  '(i, seed) ← rand_below (get s) n; Ok (i, put seed s, []).

(** [for (auto &a : l) body(a)] *)
Fixpoint for_each {A} (body : A -> M S O ()) (l : list A) : M S O () :=
  match l with
  | [] => mret ()
  | a :: l => _ ← body a; for_each body l
  end.
End operations.

Notation "m1 ;; m2" := (mbind (fun _ => m2) m1) (at level 100, right associativity) : stdpp_scope.

(** * Laws and rules *)
Section rules.
Context {S O : Type}.

Lemma bind_ok {A B} (m : M S O A) (k : A -> M S O B) s b s' o :
  mbind k m s = Ok (b, s', o) <->
  exists a s1 o1 o2, m s = Ok (a, s1, o1) /\ k a s1 = Ok (b, s', o2) /\ o = o1 ++ o2.
Proof.
  unfold mbind, M_bind. split.
  - destruct (m s) as [[[a s1] o1]|] eqn:E; [|done].
    destruct (k a s1) as [[[b' s2] o2]|] eqn:E2; [|done]. intros [= <- <- <-]. by exists a, s1, o1, o2.
  - intros (a & s1 & o1 & o2 & -> & -> & ->). done.
Qed.

Lemma bind_assoc {A B C} (m : M S O A) (k : A -> M S O B) (h : B -> M S O C) s :
  mbind h (mbind k m) s = mbind (fun a => mbind h (k a)) m s.
Proof.
  unfold mbind, M_bind. destruct (m s) as [[[a s1] o1]|]; [|done].
  destruct (k a s1) as [[[b s2] o2]|]; [|done]. destruct (h b s2) as [[[c s3] o3]|]; [|done].
  by rewrite app_assoc.
Qed.

(** Equations that run a computation on a state. *)
Lemma bind_quiet {A B} (m : M S O A) (k : A -> M S O B) s a s1 :
  m s = Ok (a, s1, []) -> mbind k m s = k a s1.
Proof. unfold mbind, M_bind. intros ->. by destruct (k a s1) as [[[b s2] o]|]. Qed.
Lemma bind_gets {A B} (f : S -> A) (k : A -> M S O B) s : mbind k (gets f) s = k (f s) s.
Proof. by apply bind_quiet. Qed.
Lemma bind_modify {B} (f : S -> S) (k : () -> M S O B) s : mbind k (modify f) s = k () (f s).
Proof. by apply bind_quiet. Qed.
Lemma bind_ret {A B} (a : A) (k : A -> M S O B) s : mbind k (mret a) s = k a s.
Proof. by apply bind_quiet. Qed.
Lemma bind_lift {A B} (a : A) (k : A -> M S O B) s : mbind k (lift (Ok a)) s = k a s.
Proof. by apply bind_quiet. Qed.
Lemma bind_emit {B} (o : O) (k : () -> M S O B) s b s' o' :
  k () s = Ok (b, s', o') -> mbind k (emit o) s = Ok (b, s', o :: o').
Proof. unfold mbind, M_bind, emit. by intros ->. Qed.
Lemma bind_ok_r {A B} (m : M S O A) (k : A -> M S O B) s a s1 o1 b s2 o2 :
  m s = Ok (a, s1, o1) -> k a s1 = Ok (b, s2, o2) -> mbind k m s = Ok (b, s2, o1 ++ o2).
Proof. unfold mbind, M_bind. by intros -> ->. Qed.

(** A property of states and of the messages sent so far that every round of a
    loop keeps is kept by the loop. *)
Lemma for_each_inv {A} (P : S -> list O -> Prop) (body : A -> M S O ()) l s s' o :
  (forall a s s' o o', a ∈ l -> P s o -> body a s = Ok ((), s', o') -> P s' (o ++ o')) ->
  P s [] -> for_each body l s = Ok ((), s', o) -> P s' o.
Proof.
  intros Hb Hs. enough (forall o0, P s o0 -> for_each body l s = Ok ((), s', o) -> P s' (o0 ++ o)) as Hg by (apply (Hg []), Hs).
  clear Hs. revert s o. induction l as [|a l IH]; intros s o o0 Hs.
  - intros [= <- <-]. by rewrite app_nil_r.
  - cbn [for_each]. intros ([] & s1 & o1 & o2 & E1 & E2 & ->)%bind_ok.
    rewrite app_assoc. eapply IH; [| |done].
    + intros. eapply Hb; [right|..]; done.
    + eapply Hb; [left|done|done].
Qed.

(** Total correctness: from any state with [P] the computation returns, and
    [Q] holds of what it returns. *)
Definition runs {A} (P : S -> Prop) (m : M S O A) (Q : A -> S -> list O -> Prop) : Prop :=
  forall s, P s -> exists a s' o, m s = Ok (a, s', o) /\ Q a s' o.

Lemma runs_bind {A B} P (m : M S O A) Q (k : A -> M S O B) R :
  runs P m Q -> (forall a o1, runs (fun s => Q a s o1) (k a) (fun b s o2 => R b s (o1 ++ o2))) ->
  runs P (mbind k m) R.
Proof.
  intros Hm Hk s Hs. destruct (Hm s Hs) as (a & s1 & o1 & E1 & HQ).
  destruct (Hk a o1 s1 HQ) as (b & s2 & o2 & E2 & HR). exists b, s2, (o1 ++ o2).
  split; [|done]. apply bind_ok. by exists a, s1, o1, o2.
Qed.

(** A loop whose body keeps [P], from states of [P], runs and keeps [P]. *)
Lemma for_each_runs {A} (P : S -> Prop) (body : A -> M S O ()) l :
  (forall a, a ∈ l -> runs P (body a) (fun _ s _ => P s)) -> runs P (for_each body l) (fun _ s _ => P s).
Proof.
  induction l as [|a l IH]; intros Hb s Hs; [by exists (), s, []|]. cbn [for_each].
  destruct (Hb a (list_elem_of_here _ _) s Hs) as ([] & s1 & o1 & E1 & H1).
  destruct (IH (fun a' Ha' => Hb a' (list_elem_of_further _ _ _ Ha')) s1 H1) as ([] & s2 & o2 & E2 & H2).
  exists (), s2, (o1 ++ o2). split; [|done]. apply bind_ok. by exists (), s1, o1, o2.
Qed.
End rules.

(** Run the silent steps of a computation. *)
Ltac run := repeat (rewrite bind_assoc || rewrite bind_gets || rewrite bind_modify || rewrite bind_ret || rewrite bind_lift).
