(* ===== verification/Proto.v ===== *)
(** The messages of [common/proto/*.proto] as records with the fields of the
    message types, and protobuf's encoding as an interface.

    The C++ classes protoc generates are not part of the sources. Handlers are
    modelled on decoded messages; where the code stores or forwards the encoded
    form of a message, the encoding is a [Codec]: the documented guarantee of
    [SerializeToString] and [ParseFromString] is that parsing what was
    serialized gives the message back. *)
From stdpp Require Import prelude gmap strings list countable.
From Stdlib Require Import ZArith Ascii.
From S2P Require Import Prelude Cpp.

Class Codec (M : Type) := {
  SerializeToString : M -> str;
  ParseFromString : str -> M;
  parse_serialize : forall m, ParseFromString (SerializeToString m) = m }.

(** Every countable, inhabited type has a codec: the bits of its code. *)
Fixpoint bits_of_pos (p : positive) : str :=
  match p with
  | xH => []
  | xO p => "0"%char :: bits_of_pos p
  | xI p => "1"%char :: bits_of_pos p
  end.
Fixpoint pos_of_bits (s : str) : positive :=
  match s with
  | [] => xH
  | c :: s => if decide (c = "0"%char) then xO (pos_of_bits s) else xI (pos_of_bits s)
  end.

Lemma pos_of_bits_of_pos p : pos_of_bits (bits_of_pos p) = p.
Proof. induction p; simpl; congruence. Qed.

Definition codec_countable {M} `{Countable M, Inhabited M} : Codec M.
Proof.
  refine {| SerializeToString m := bits_of_pos (encode m);
            ParseFromString s := default inhabitant (decode (pos_of_bits s)) |}.
  intros m. by rewrite pos_of_bits_of_pos, decode_encode.
Defined.

(** * common.proto *)
Inductive KVSError :=
  | SUCCESS | BUCKET_NE | KEY_NE | SESSION_NE | KVS_ND | TYPE_NM | BUCKET_EXIST | REQ_TIMEOUT.
#[export] Instance KVSError_eq_dec : EqDecision KVSError.
Proof. solve_decision. Defined.

Record BucketKeyTuple := mk_BucketKeyTuple {
  bkt_bucket : str; bkt_key : str; bkt_session : str; bkt_payload : str }.

Record BucketKeyAddress := mk_BucketKeyAddress {
  bka_bucket : str; bka_key : str; bka_session : str;
  bka_ips : list str; bka_payload : str }.
Definition empty_BucketKeyAddress := mk_BucketKeyAddress [] [] [] [] [].
Definition empty_BucketKeyTuple := mk_BucketKeyTuple [] [] [] [].

(** * kvs.proto *)
Record KeyQueryRequest := mk_KeyQueryRequest {
  kqr_response_address : str; kqr_addresses : list BucketKeyAddress; kqr_request_id : str }.

Record KeyQueryResponse := mk_KeyQueryResponse {
  kqp_addresses : list BucketKeyAddress; kqp_error : KVSError; kqp_response_id : str }.

Record KeyNotifyRequest := mk_KeyNotifyRequest {
  knr_response_address : str; knr_addresses : list BucketKeyAddress;
  knr_active_trigger_names : list str; knr_request_id : str }.

(** * operation.proto

    An enum field of a proto3 message holds any number the sender put there;
    [DT_OTHER] and its like stand for the numbers with no name. *)
Inductive DependencyType := DIRECT | MANY_TO_ONE | K_OUT_OF_N | PERIODIC | DT_OTHER.
#[export] Instance DependencyType_eq_dec : EqDecision DependencyType.
Proof. solve_decision. Defined.

Record DataDependency := mk_DataDependency {
  dd_type : DependencyType; dd_src_functions : list str; dd_tgt_functions : list str;
  dd_description : str }.

Record AppRegistration := mk_AppRegistration {
  ar_app_name : str; ar_functions : list str; ar_dependencies : list DataDependency }.

Record Argument := mk_Argument {
  arg_body : str; arg_arg_flag : Z; arg_data_address : str }.

Record FunctionRequest := mk_FunctionRequest {
  fr_name : str; fr_arguments : list Argument }.

Record FunctionCall := mk_FunctionCall {
  fc_app_name : str; fc_requests : list FunctionRequest; fc_source : str;
  fc_request_id : str; fc_resp_address : str; fc_session_id : str;
  fc_sync_data_status : bool }.
Definition empty_FunctionCall := mk_FunctionCall [] [] [] [] [] [] false.

Record FunctionCallResponse := mk_FunctionCallResponse {
  fcr_app_name : str; fcr_request_id : str; fcr_output : str; fcr_error_no : Z }.

Record CoordSync := mk_CoordSync {
  cs_public_ip : str; cs_private_ip : str; cs_thread_id : Z }.
Record CoordQuery := mk_CoordQuery { cq_application : str; cq_request_id : str }.
Record CoordResponse := mk_CoordResponse {
  cr_coord_ip : str; cr_thread_id : Z; cr_request_id : str }.

Inductive BucketOperationType := CREATE_BUCKET | DELETE_BUCKET | BOT_OTHER.
Inductive TriggerOperationType := ADD_TRIGGER | DELETE_TRIGGER | TOT_OTHER.
Inductive PrimitiveType :=
  | IMMEDIATE | BY_NAME | BY_BATCH_SIZE | BY_SET | DYNAMIC_GROUP | REDUNDANT | BY_TIME | PT_OTHER.
#[export] Instance PrimitiveType_eq_dec : EqDecision PrimitiveType.
Proof. solve_decision. Defined.

Record BucketOperationRequest := mk_BucketOperationRequest {
  bor_operation_type : BucketOperationType; bor_app_name : str; bor_bucket_name : str;
  bor_request_id : str; bor_response_address : str }.
Record BucketOperationResponse := mk_BucketOperationResponse {
  bop_bucket_name : str; bop_response_id : str; bop_error : KVSError }.

Record RerunHint := mk_RerunHint {
  rh_source_function : str; rh_source_key : str; rh_timeout : Z }.

Record TriggerOperationRequest := mk_TriggerOperationRequest {
  tor_operation_type : TriggerOperationType; tor_app_name : str; tor_bucket_name : str;
  tor_trigger_name : str; tor_trigger_option : Z; tor_primitive_type : PrimitiveType;
  tor_primitive : str; tor_request_id : str; tor_response_address : str;
  tor_hints : list RerunHint }.
Record TriggerOperationResponse := mk_TriggerOperationResponse {
  top_bucket_name : str; top_trigger_name : str; top_response_id : str; top_error : KVSError }.

Record ImmediatePrimitive := mk_ImmediatePrimitive { ip_function : str }.
Record ByNamePrimitive := mk_ByNamePrimitive { bnp_function : str; bnp_key_name : str }.
Record ByBatchSizePrimitive := mk_ByBatchSizePrimitive { bbp_function : str; bbp_count : Z }.
Record BySetPrimitive := mk_BySetPrimitive { bsp_function : str; bsp_key_set : list str }.
Record DynamicGroupPrimitive := mk_DynamicGroupPrimitive {
  dgp_function : str; dgp_control_group : list str }.
Record RedundantPrimitive := mk_RedundantPrimitive { rp_function : str; rp_k : Z; rp_n : Z }.
Record ByTimePrimitive := mk_ByTimePrimitive { btp_function : str; btp_time_window : Z }.

Record UpdateStatusMessage := mk_UpdateStatusMessage {
  usm_ip : str; usm_avail_executors : Z; usm_functions : list str }.

Record TriggerEntity := mk_TriggerEntity {
  te_bucket_name : str; te_trigger_name : str; te_trigger_option : Z;
  te_primitive_type : PrimitiveType; te_primitive : str; te_session : str;
  te_hints : list RerunHint }.
Definition empty_TriggerEntity := mk_TriggerEntity [] [] 0 IMMEDIATE [] [] [].

Record UpdateCoordMsg := mk_UpdateCoordMsg {
  ucm_ip : str; ucm_thread_id : Z; ucm_app_name : str; ucm_functions : list str;
  ucm_dependencies : list DataDependency; ucm_triggers : list TriggerEntity;
  ucm_msg_type : Z }.
Definition empty_UpdateCoordMsg := mk_UpdateCoordMsg [] 0 [] [] [] [] 0.

(** * anna.proto *)
Inductive RequestType := RT_UNSPECIFIED | GET | PUT.
Inductive LatticeType := NONE | LWW | SET | SINGLE_CAUSAL | MULTI_CAUSAL | ORDERED_SET | PRIORITY.
Inductive AnnaError := NO_ERROR | KEY_DNE | WRONG_THREAD | TIMEOUT | LATTICE | NO_SERVERS.
#[export] Instance RequestType_eq_dec : EqDecision RequestType.
Proof. solve_decision. Defined.
#[export] Instance AnnaError_eq_dec : EqDecision AnnaError.
Proof. solve_decision. Defined.

Record KeyTuple := mk_KeyTuple {
  kt_key : str; kt_lattice_type : LatticeType; kt_error : AnnaError; kt_payload : str;
  kt_address_cache_size : Z; kt_invalidate : bool }.
Definition empty_KeyTuple := mk_KeyTuple [] NONE NO_ERROR [] 0 false.

Record KeyRequest := mk_KeyRequest {
  kr_type : RequestType; kr_tuples : list KeyTuple; kr_response_address : str;
  kr_request_id : str }.
Definition empty_KeyRequest := mk_KeyRequest RT_UNSPECIFIED [] [] [].

Record KeyResponse := mk_KeyResponse {
  kp_type : RequestType; kp_tuples : list KeyTuple; kp_response_id : str; kp_error : AnnaError }.

Record KeyAddressRequest := mk_KeyAddressRequest {
  kar_response_address : str; kar_keys : list str; kar_request_id : str }.
Record KeyAddress := mk_KeyAddress { ka_key : str; ka_ips : list str }.
Record KeyAddressResponse := mk_KeyAddressResponse {
  kap_addresses : list KeyAddress; kap_error : AnnaError; kap_response_id : str }.

Record LWWValue := mk_LWWValue { lww_timestamp : Z; lww_value : str }.
Record SetValue := mk_SetValue { sv_values : list str }.
Record SingleKeyCausalValue := mk_SingleKeyCausalValue {
  skv_vector_clock : gmap str Z; skv_values : list str }.
Record KeyVersion := mk_KeyVersion { kv_key : str; kv_vector_clock : gmap str Z }.
Record MultiKeyCausalValue := mk_MultiKeyCausalValue {
  mkv_vector_clock : gmap str Z; mkv_dependencies : list KeyVersion; mkv_values : list str }.
Record PriorityValue (P : Type) := mk_PriorityValue { pv_priority : P; pv_value : str }.
Arguments mk_PriorityValue {P}.
Arguments pv_priority {P}.
Arguments pv_value {P}.
