(* ===== verification/Common.v ===== *)
(** [common/include/common.hpp]: object names, [BucketKey] and its conversions,
    [split], session identifiers and timestamps. *)
From stdpp Require Import prelude gmap strings list.
From Stdlib Require Import ZArith Lia Ascii.
From S2P Require Import Prelude Cpp Proto.

Open Scope Z_scope.

Definition kDelimiter : str := lit "|".
Definition kDelimiterChar : ascii := "|"%char.
Definition msgDataPackingThreshold : Z := 1024.
Definition bucketNameDirectInvoc : str := lit "direct_invoc".
Definition emptyString : str := [].
Definition kvsKeyPrefix : str := lit "KVS".

Definition get_key_session_name (key session : str) : str := key ++ session.

Definition get_local_object_name (bucket key session : str) : str :=
  bucket ++ kDelimiter ++ get_key_session_name key session.

(** * BucketKey *)
Record BucketKey := mk_BucketKey { bucket_ : str; key_ : str; session_ : str }.

#[export] Instance BucketKey_eq_dec : EqDecision BucketKey.
Proof. solve_decision. Defined.

(** The two-argument constructor: the last 16 characters are the session. A
    shorter name leaves both the key and the session empty. *)
Definition BucketKey_of_session_key (bucket session_key : str) : BucketKey :=
  let key_size := length session_key in
  if decide (16 < key_size)%nat then
    {| bucket_ := bucket;
       session_ := drop (key_size - 16) session_key;
       key_ := take (key_size - 16) session_key |}
  else {| bucket_ := bucket; session_ := []; key_ := [] |}.

Definition shm_key_name (bk : BucketKey) : str :=
  get_local_object_name (bucket_ bk) (key_ bk) (session_ bk).

(** With no delimiter [find] gives [npos], and [npos + 1] is zero. *)
Definition get_bucket_key_from_string (key_name : str) : res BucketKey :=
  let splitter_index := find kDelimiterChar key_name in
  bucket ← substr 0 splitter_index key_name;
  session_key ← substr (match splitter_index with Some i => S i | None => O end) None key_name;
  Ok (BucketKey_of_session_key bucket session_key).

Definition get_tuple_from_bucket_key (bk : BucketKey) (tp : BucketKeyTuple) : BucketKeyTuple :=
  mk_BucketKeyTuple (bucket_ bk) (key_ bk) (session_ bk) (bkt_payload tp).

Definition get_bucket_key_from_tuple (tp : BucketKeyTuple) : BucketKey :=
  {| bucket_ := bkt_bucket tp; key_ := bkt_key tp; session_ := bkt_session tp |}.

Definition get_addr_from_bucket_key (bk : BucketKey) (addr : BucketKeyAddress) : BucketKeyAddress :=
  mk_BucketKeyAddress (bucket_ bk) (key_ bk) (session_ bk) (bka_ips addr) (bka_payload addr).

Definition get_bucket_key_from_addr (addr : BucketKeyAddress) : BucketKey :=
  {| bucket_ := bka_bucket addr; key_ := bka_key addr; session_ := bka_session addr |}.

(** * split

    [std::getline] until it fails: an empty piece after the last delimiter is
    not produced. *)
Fixpoint split_go (delim : ascii) (item : str) (s : str) : list str :=
  match s with
  | [] => if decide (item = []) then [] else [item]
  | c :: s =>
      if decide (c = delim) then item :: split_go delim [] s
      else split_go delim (item ++ [c]) s
  end.
Definition split (s : str) (delim : ascii) : list str := split_go delim [] s.

(** * Session identifiers *)
Definition alpha_num : str :=
  lit "0123456789ABCDEFGHIJKLMNOPQRSTUVWXYZabcdefghijklmnopqrstuvwxyz".

Fixpoint gen_random `{Rand} (seed : Z) (len : nat) : str * Z :=
  match len with
  | O => ([], seed)
  | S len =>
      let '(r, seed) := rand_r seed in
      let c := nth (Z.to_nat (r mod 62)) alpha_num nul in
      let '(s, seed) := gen_random seed len in
      (c :: s, seed)
  end.

(** * Timestamps

    [pow] is a 32-bit [unsigned]; the loop multiplies it by ten until it
    exceeds the thread id. Its fuel is the number of decimal digits an
    [unsigned] can have. *)
Fixpoint pow_above (fuel : nat) (id pow : Z) : option Z :=
  if id <? pow then Some pow
  else match fuel with O => None | S fuel => pow_above fuel id (u32 (pow * 10)) end.

Definition generate_timestamp (time id : Z) : option Z :=
  pow ← pow_above 10 id 10;
  Some (u64 (u64 (time * pow) + id)).

(** * Lemmas *)
Lemma split_go_piece d item s :
  d ∉ s -> split_go d item s = if decide (item ++ s = []) then [] else [item ++ s].
Proof.
  revert item. induction s as [|c s IH]; intros item Hd; simpl.
  - rewrite app_nil_r. done.
  - rewrite not_elem_of_cons in Hd. destruct Hd as [Hc Hs].
    rewrite decide_False by done. rewrite IH by done. by rewrite <- app_assoc.
Qed.

Lemma split_go_delim d item s t :
  d ∉ s -> split_go d item (s ++ d :: t) = (item ++ s) :: split_go d [] t.
Proof.
  revert item. induction s as [|c s IH]; intros item Hd; simpl.
  - rewrite decide_True by done. by rewrite app_nil_r.
  - rewrite not_elem_of_cons in Hd. destruct Hd as [Hc Hs].
    rewrite decide_False by done. rewrite IH by done. by rewrite <- app_assoc.
Qed.

Lemma split_cons d (s t : str) : d ∉ s -> split (s ++ d :: t) d = s :: split t d.
Proof. intros. unfold split. by rewrite split_go_delim. Qed.

Lemma split_last d (s : str) : d ∉ s -> s <> [] -> split s d = [s].
Proof. intros. unfold split. rewrite split_go_piece by done. by rewrite decide_False. Qed.

(** [split] inverts [join] on pieces without the delimiter, the last of which
    is not empty. *)
Lemma split_join d (l : list str) :
  Forall (fun s => d ∉ s) l -> last l <> Some [] -> split (join d l) d = l.
Proof.
  induction l as [|s l IH]; intros Hl Hlast; [done|]. inv Hl.
  destruct l as [|s' l]; simpl.
  - apply split_last; [done|]. intros ->. by apply Hlast.
  - rewrite split_cons by done. f_equal. by apply IH.
Qed.

Lemma BucketKey_of_session_key_app bucket (key session : str) :
  length session = 16%nat -> key <> [] ->
  BucketKey_of_session_key bucket (key ++ session) =
  {| bucket_ := bucket; key_ := key; session_ := session |}.
Proof.
  intros Hs Hk. unfold BucketKey_of_session_key. rewrite length_app, Hs.
  destruct key as [|c key]; [done|]. rewrite decide_True by (simpl; lia).
  replace (length (c :: key) + 16 - 16)%nat with (length (c :: key)) by lia.
  by rewrite take_app_length, drop_app_length.
Qed.

Lemma length_gen_random `{Rand} seed len : length (gen_random seed len).1 = len.
Proof.
  revert seed. induction len as [|len IH]; intros seed; [done|]. simpl.
  destruct (rand_r seed) as [r s]. specialize (IH s). destruct (gen_random s len).
  simpl in *. by rewrite IH.
Qed.

Lemma alpha_num_pipe : Forall (fun c => c <> "|"%char /\ c <> nul) alpha_num.
Proof. vm_compute. repeat constructor; congruence. Qed.

Lemma gen_random_chars `{Rand} seed len : Forall (fun c => c ∈ alpha_num) (gen_random seed len).1.
Proof.
  revert seed. induction len as [|len IH]; intros seed; [constructor|].
  cbn [gen_random]. destruct (rand_r seed) as [r s] eqn:E. specialize (IH s).
  destruct (gen_random s len). cbn [fst] in *. constructor; [|done]. apply list_elem_of_In, nth_In.
  change (length alpha_num) with 62%nat.
  assert (0 <= r mod 62 < 62) by (apply Z.mod_pos_bound; lia). lia.
Qed.

Lemma pow_above_spec fuel id pow p :
  0 < pow -> pow_above fuel id pow = Some p -> id < p.
Proof.
  revert pow. induction fuel as [|fuel IH]; intros pow Hp; simpl; destruct (id <? pow) eqn:E;
    bool_to_prop; intros; simplify_eq; try done.
  destruct (decide (u32 (pow * 10) <= 0)) as [Hz|].
  - pose proof (u32_range (pow * 10)) as [? _]. assert (u32 (pow * 10) = 0) as E0 by lia.
    rewrite E0 in H. clear -H E Hp. exfalso.
    assert (forall f, pow_above f id 0 = None) as Hn.
    { intros f. induction f as [|f IHf]; simpl; rewrite (proj2 (Z.ltb_ge _ _)) by lia; [done|].
      replace (u32 (0 * 10)) with 0 by done. done. }
    by rewrite Hn in H.
  - eapply IH; [|done]. lia.
Qed.

#[export] Hint Resolve length_gen_random : phero.
