(* ===== verification/Threads.v ===== *)
(** The thread classes of [anna_threads.hpp], [kvs_threads.hpp] and
    [op_threads.hpp]: the addresses a thread binds and those its peers connect
    to, as functions of its IP and thread id. A class is a record of what its
    methods return; its constructor computes them. *)
From stdpp Require Import prelude strings list.
From Stdlib Require Import ZArith Lia Ascii.
From S2P Require Import Prelude Cpp.

Open Scope Z_scope.

(** * Ports *)
Definition kKeyAddressPort : Z := 6450.
Definition kUserResponsePort : Z := 6800.
Definition kUserKeyAddressPort : Z := 6850.
Definition kCacheUpdatePort : Z := 7150.
Definition funcExecPort : Z := 4300.
Definition internalFuncCallPort : Z := 4350.
Definition dataAccessServerPort : Z := 4400.
Definition dataAccessClientPort : Z := 4450.
Definition forwardFuncPort : Z := 4500.
Definition kRemoteResponsePort : Z := 7500.
Definition kRemoteGetPort : Z := 7550.
Definition kNotifyPort : Z := 7600.
Definition kQueryPort : Z := 7650.
Definition kNotifyHandlerPort : Z := 7350.
Definition kQueryHandlerPort : Z := 7400.
Definition TriggerUpdatePort : Z := 7700.
Definition updateStatusHandlerPort : Z := 7750.
Definition bucketQueryPort : Z := 8150.
Definition bucketUpdatePort : Z := 8250.
Definition funcCreatePort : Z := 5000.
Definition appRegistPort : Z := 5020.
Definition funcCallPort : Z := 5050.
Definition coordSyncPort : Z := 6001.
Definition coordQueryPort : Z := 6002.
Definition oBucketPort : Z := 7800.
Definition oTriggerPort : Z := 7900.

Definition kBindBase : str := lit "tcp://*:".
Definition ip_base (ip : str) : str := lit "tcp://" ++ ip ++ lit ":".
(** [std::to_string(tid_ + port)] on [unsigned]s. *)
Definition port (base tid : Z) : str := to_string (u32 (tid + base)).

(** * CacheThread ([anna_threads.hpp]) *)
Record CacheThread := mk_CacheThread {
  ct_ip : str;
  ct_tid : Z;
  ct_cache_get_bind_address : str;
  ct_cache_get_connect_address : str;
  ct_cache_put_bind_address : str;
  ct_cache_put_connect_address : str;
  ct_cache_update_bind_address : str;
  ct_cache_update_connect_address : str }.

Definition new_CacheThread (ip : str) (tid : Z) : CacheThread := {|
  ct_ip := ip;
  ct_tid := tid;
  ct_cache_get_bind_address := lit "ipc:///requests/get";
  ct_cache_get_connect_address := lit "ipc:///requests/get";
  ct_cache_put_bind_address := lit "ipc:///requests/put";
  ct_cache_put_connect_address := lit "ipc:///requests/put";
  ct_cache_update_bind_address := kBindBase ++ port kCacheUpdatePort tid;
  ct_cache_update_connect_address := ip_base ip ++ port kCacheUpdatePort tid |}.

(** * UserRoutingThread ([anna_threads.hpp]) *)
Record UserRoutingThread := mk_UserRoutingThread {
  urt_ip : str;
  urt_tid : Z;
  urt_key_address_connect_address : str;
  urt_key_address_bind_address : str }.

Definition new_UserRoutingThread (ip : str) (tid : Z) : UserRoutingThread := {|
  urt_ip := ip;
  urt_tid := tid;
  urt_key_address_connect_address := ip_base ip ++ port kKeyAddressPort tid;
  urt_key_address_bind_address := kBindBase ++ port kKeyAddressPort tid |}.

(** * UserThread ([anna_threads.hpp]) *)
Record UserThread := mk_UserThread {
  ut_ip : str;
  ut_tid : Z;
  ut_response_connect_address : str;
  ut_response_bind_address : str;
  ut_key_address_connect_address : str;
  ut_key_address_bind_address : str }.

Definition new_UserThread (ip : str) (tid : Z) : UserThread := {|
  ut_ip := ip;
  ut_tid := tid;
  ut_response_connect_address := ip_base ip ++ port kUserResponsePort tid;
  ut_response_bind_address := kBindBase ++ port kUserResponsePort tid;
  ut_key_address_connect_address := ip_base ip ++ port kUserKeyAddressPort tid;
  ut_key_address_bind_address := kBindBase ++ port kUserKeyAddressPort tid |}.

(** * KVSThread ([kvs_threads.hpp]) *)
Record KVSThread := mk_KVSThread {
  kvt_ip : str;
  kvt_tid : Z;
  kvt_local_get_bind_address : str;
  kvt_local_get_connect_address : str;
  kvt_local_put_bind_address : str;
  kvt_local_put_connect_address : str;
  kvt_remote_get_bind_address : str;
  kvt_remote_get_connect_address : str }.

Definition new_KVSThread (ip : str) (tid : Z) : KVSThread := {|
  kvt_ip := ip;
  kvt_tid := tid;
  kvt_local_get_bind_address := lit "ipc:///requests/get";
  kvt_local_get_connect_address := lit "ipc:///requests/get";
  kvt_local_put_bind_address := lit "ipc:///requests/put";
  kvt_local_put_connect_address := lit "ipc:///requests/put";
  kvt_remote_get_bind_address := kBindBase ++ port kRemoteGetPort tid;
  kvt_remote_get_connect_address := ip_base ip ++ port kRemoteGetPort tid |}.

(** * CommHelperThread ([kvs_threads.hpp]) *)
Record CommHelperThread := mk_CommHelperThread {
  cht_ip : str;
  cht_tid : Z;
  cht_remote_response_bind_address : str;
  cht_remote_response_connect_address : str;
  cht_key_query_bind_address : str;
  cht_key_query_connect_address : str;
  cht_notify_put_bind_address : str;
  cht_notify_put_connect_address : str;
  cht_trigger_update_bind_address : str;
  cht_trigger_update_connect_address : str;
  cht_data_access_server_bind_address : str;
  cht_data_access_server_connect_address : str;
  cht_data_access_client_bind_address : str;
  cht_data_access_client_connect_address : str }.

Definition new_CommHelperThread (ip : str) (tid : Z) : CommHelperThread := {|
  cht_ip := ip;
  cht_tid := tid;
  cht_remote_response_bind_address := kBindBase ++ port kRemoteResponsePort tid;
  cht_remote_response_connect_address := ip_base ip ++ port kRemoteResponsePort tid;
  cht_key_query_bind_address := kBindBase ++ port kQueryPort tid;
  cht_key_query_connect_address := ip_base ip ++ port kQueryPort tid;
  cht_notify_put_bind_address := kBindBase ++ port kNotifyPort tid;
  cht_notify_put_connect_address := ip_base ip ++ port kNotifyPort tid;
  cht_trigger_update_bind_address := kBindBase ++ port TriggerUpdatePort tid;
  cht_trigger_update_connect_address := ip_base ip ++ port TriggerUpdatePort tid;
  cht_data_access_server_bind_address := kBindBase ++ port dataAccessServerPort tid;
  cht_data_access_server_connect_address := ip_base ip ++ port dataAccessServerPort tid;
  cht_data_access_client_bind_address := kBindBase ++ port dataAccessClientPort tid;
  cht_data_access_client_connect_address := ip_base ip ++ port dataAccessClientPort tid |}.

(** * HandlerThread ([kvs_threads.hpp]) *)
Record HandlerThread := mk_HandlerThread {
  ht_ip : str;
  ht_tid : Z;
  ht_notify_handler_connect_address : str;
  ht_notify_handler_bind_address : str;
  ht_key_query_handler_connect_address : str;
  ht_key_query_handler_bind_address : str;
  ht_update_handler_bind_address : str;
  ht_update_handler_connect_address : str;
  ht_forward_func_bind_address : str;
  ht_forward_func_connect_address : str }.

Definition new_HandlerThread (ip : str) (tid : Z) : HandlerThread := {|
  ht_ip := ip;
  ht_tid := tid;
  ht_notify_handler_connect_address := ip_base ip ++ port kNotifyHandlerPort tid;
  ht_notify_handler_bind_address := kBindBase ++ port kNotifyHandlerPort tid;
  ht_key_query_handler_connect_address := ip_base ip ++ port kQueryHandlerPort tid;
  ht_key_query_handler_bind_address := kBindBase ++ port kQueryHandlerPort tid;
  ht_update_handler_bind_address := kBindBase ++ port updateStatusHandlerPort tid;
  ht_update_handler_connect_address := ip_base ip ++ port updateStatusHandlerPort tid;
  ht_forward_func_bind_address := kBindBase ++ port forwardFuncPort tid;
  ht_forward_func_connect_address := ip_base ip ++ port forwardFuncPort tid |}.

(** * ManagementServerThread ([kvs_threads.hpp]) *)
Record ManagementServerThread := mk_ManagementServerThread {
  mst_ip : str;
  mst_tid : Z;
  mst_bucket_query_connect_address : str;
  mst_bucket_query_bind_address : str;
  mst_bucket_update_connect_address : str;
  mst_bucket_update_bind_address : str }.

Definition new_ManagementServerThread (ip : str) (tid : Z) : ManagementServerThread := {|
  mst_ip := ip;
  mst_tid := tid;
  mst_bucket_query_connect_address := ip_base ip ++ port bucketQueryPort tid;
  mst_bucket_query_bind_address := kBindBase ++ port bucketQueryPort tid;
  mst_bucket_update_connect_address := ip_base ip ++ port bucketUpdatePort tid;
  mst_bucket_update_bind_address := kBindBase ++ port bucketUpdatePort tid |}.

(** * OperationThread ([op_threads.hpp]) *)
Record OperationThread := mk_OperationThread {
  ot_ip : str;
  ot_tid : Z;
  ot_bucket_op_bind_address : str;
  ot_bucket_op_connect_address : str;
  ot_trigger_op_bind_address : str;
  ot_trigger_op_connect_address : str;
  ot_func_create_bind_address : str;
  ot_app_regist_bind_address : str;
  ot_func_call_bind_address : str }.

Definition new_OperationThread (ip : str) (tid : Z) : OperationThread := {|
  ot_ip := ip;
  ot_tid := tid;
  ot_bucket_op_bind_address := kBindBase ++ port oBucketPort tid;
  ot_bucket_op_connect_address := ip_base ip ++ port oBucketPort tid;
  ot_trigger_op_bind_address := kBindBase ++ port oTriggerPort tid;
  ot_trigger_op_connect_address := ip_base ip ++ port oTriggerPort tid;
  ot_func_create_bind_address := kBindBase ++ port funcCreatePort tid;
  ot_app_regist_bind_address := kBindBase ++ port appRegistPort tid;
  ot_func_call_bind_address := kBindBase ++ port funcCallPort tid |}.

(** * Lemmas *)
Lemma port_inj p1 t1 p2 t2 :
  is_u32 (t1 + p1) -> is_u32 (t2 + p2) -> port p1 t1 = port p2 t2 -> t1 + p1 = t2 + p2.
Proof.
  unfold port. intros H1 H2. rewrite !u32_small by done. destruct H1, H2.
  by apply to_string_inj.
Qed.

Lemma port_no_colon p t : ":"%char ∉ port p t.
Proof. apply to_string_not_elem; [apply u32_range|done]. Qed.

(** Connect addresses determine the IP and the port. *)
Lemma connect_inj ip1 ip2 (p1 p2 : str) :
  ":"%char ∉ ip1 -> ":"%char ∉ ip2 ->
  ip_base ip1 ++ p1 = ip_base ip2 ++ p2 -> ip1 = ip2 /\ p1 = p2.
Proof.
  unfold ip_base. rewrite <- !app_assoc. intros H1 H2 E. apply app_inv_head in E.
  simpl in E. by apply (app_sep_inj ":"%char) in E.
Qed.
