(* ===== verification/Trigger.v ===== *)
(** [common/include/trigger.hpp]: the trigger primitives. A trigger is told of
    every new object of its bucket ([action_for_new_object]) and answers with
    the function invocations the object sets off. *)
From stdpp Require Import prelude gmap strings list fin_sets.
From Stdlib Require Import ZArith Lia Ascii.
From S2P Require Import Prelude Cpp Proto Common.

Open Scope Z_scope.

(** * Data *)
Record TriggerAction := mk_TriggerAction {
  function_ : str;
  session_keys_ : list (str * str) }.

Record TriggerFunctionMetadata := mk_TriggerFunctionMetadata {
  func_name_ : str;
  func_args_ : list str;
  arg_flag_ : Z }.

Record RerunMetadata := mk_RerunMetadata {
  source_func_ : str;
  source_key_ : str;
  timeout_ : Z }.

(** The fields every trigger has. *)
Record TriggerBase := mk_TriggerBase {
  target_function_ : str;
  trigger_name_ : str;
  type_ : PrimitiveType;
  trigger_option_ : Z }.

Abbreviation StatusCache := (gmap str TriggerFunctionMetadata).

(** The fields of each subclass. *)
Record ImmediateState := mk_ImmediateState { im_cache : StatusCache }.
Record ByNameState := mk_ByNameState { bn_key_name : str; bn_cache : StatusCache }.
Record ByBatchSizeState := mk_ByBatchSizeState {
  bb_count : Z; bb_buffer : list (str * str); bb_cache : StatusCache }.
Record BySetState := mk_BySetState {
  bs_key_set : gset str; bs_prepared : gmap str (gset str);
  bs_func_key_map : gmap str str; bs_cache : StatusCache }.
Record DynamicGroupState := mk_DynamicGroupState {
  dg_data : gmap str (gset str); dg_control_group : gset str; dg_cur_control : gset str }.
Record RedundantState := mk_RedundantState {
  rd_k : Z; rd_n : Z; rd_count : Z; rd_buffer : list (str * str) }.
(** Time points are nanoseconds since the epoch of the system clock. *)
Record ByTimeState := mk_ByTimeState {
  bt_time_window : Z; bt_buffer : list (str * str); bt_last_trigger_stamp : Z }.

Inductive Subclass :=
  | Immediate (t : ImmediateState)
  | ByName (t : ByNameState)
  | ByBatchSize (t : ByBatchSizeState)
  | BySet (t : BySetState)
  | DynamicGroup (t : DynamicGroupState)
  | Redundant (t : RedundantState)
  | ByTime (t : ByTimeState).

Record Trigger := mk_Trigger { base : TriggerBase; sub : Subclass }.

Definition get_trigger_name (t : Trigger) : str := trigger_name_ (base t).
Definition get_type (t : Trigger) : PrimitiveType := type_ (base t).
Definition get_trigger_option (t : Trigger) : Z := trigger_option_ (base t).
(** The option is an [int]; it comes from a [uint32] of a message. *)
Definition set_trigger_option (option : Z) (t : Trigger) : Trigger :=
  let b := base t in
  mk_Trigger (mk_TriggerBase (target_function_ b) (trigger_name_ b) (type_ b) (i32 option)) (sub t).

Definition mk_base (function_name trigger_name : str) (type : PrimitiveType) : TriggerBase :=
  mk_TriggerBase function_name trigger_name type 0.

(** * Serialized configurations

    The messages [dump_pritimive] serializes and [gen_trigger_pointer] parses. *)
Class PrimitiveCodecs := {
  codec_immediate :: Codec ImmediatePrimitive;
  codec_by_name :: Codec ByNamePrimitive;
  codec_by_batch_size :: Codec ByBatchSizePrimitive;
  codec_by_set :: Codec BySetPrimitive;
  codec_dynamic_group :: Codec DynamicGroupPrimitive;
  codec_redundant :: Codec RedundantPrimitive;
  codec_by_time :: Codec ByTimePrimitive }.

(** * The status cache of the re-execution support

    Immediate, by-name and by-batch triggers keep, per session, the last source
    call they were told of. *)
Definition cache_notify (func_name session_id : str) (func_args : list str) (arg_flag : Z)
    (c : StatusCache) : StatusCache :=
  <[session_id := mk_TriggerFunctionMetadata func_name func_args arg_flag]> c.
Definition cache_rerun (session_id : str) (c : StatusCache) : list TriggerFunctionMetadata :=
  match c !! session_id with Some m => [m] | None => [] end.

(** * ImmediateTrigger *)
Definition ImmediateTrigger_new (function_name trigger_name : str) : Trigger :=
  mk_Trigger (mk_base function_name trigger_name IMMEDIATE) (Immediate (mk_ImmediateState ∅)).

Definition ImmediateTrigger_action (b : TriggerBase) (t : ImmediateState) (bk : BucketKey)
    : list TriggerAction * ImmediateState :=
  ([mk_TriggerAction (target_function_ b) [(session_ bk, key_ bk)]],
   mk_ImmediateState (delete (session_ bk) (im_cache t))).

Definition ImmediateTrigger_notify_source_func (t : ImmediateState) (func_name session_id : str)
    (func_args : list str) (arg_flag : Z) : ImmediateState :=
  mk_ImmediateState (cache_notify func_name session_id func_args arg_flag (im_cache t)).

Definition ImmediateTrigger_action_for_rerun (t : ImmediateState) (session_id : str)
    : list TriggerFunctionMetadata := cache_rerun session_id (im_cache t).

Definition ImmediateTrigger_dump `{PrimitiveCodecs} (b : TriggerBase) : str :=
  SerializeToString (mk_ImmediatePrimitive (target_function_ b)).

(** * ByNameTrigger *)
Definition ByNameTrigger_new (function_name trigger_name key_name : str) : Trigger :=
  mk_Trigger (mk_base function_name trigger_name BY_NAME) (ByName (mk_ByNameState key_name ∅)).

Definition ByNameTrigger_action (b : TriggerBase) (t : ByNameState) (bk : BucketKey)
    : list TriggerAction * ByNameState :=
  (if decide (key_ bk = bn_key_name t)
   then [mk_TriggerAction (target_function_ b) [(session_ bk, key_ bk)]] else [],
   mk_ByNameState (bn_key_name t) (delete (session_ bk) (bn_cache t))).

Definition ByNameTrigger_notify_source_func (t : ByNameState) (func_name session_id : str)
    (func_args : list str) (arg_flag : Z) : ByNameState :=
  mk_ByNameState (bn_key_name t) (cache_notify func_name session_id func_args arg_flag (bn_cache t)).

Definition ByNameTrigger_action_for_rerun (t : ByNameState) (session_id : str)
    : list TriggerFunctionMetadata := cache_rerun session_id (bn_cache t).

Definition ByNameTrigger_dump `{PrimitiveCodecs} (b : TriggerBase) (t : ByNameState) : str :=
  SerializeToString (mk_ByNamePrimitive (target_function_ b) (bn_key_name t)).

(** * ByBatchSizeTrigger

    [buffer_.size() >= count_] compares a [size_t] with an [int], which is
    converted to 64 unsigned bits. *)
Definition ByBatchSizeTrigger_new (function_name trigger_name : str) (count : Z) : Trigger :=
  mk_Trigger (mk_base function_name trigger_name BY_BATCH_SIZE)
    (ByBatchSize (mk_ByBatchSizeState count [] ∅)).

Definition ByBatchSizeTrigger_action (b : TriggerBase) (t : ByBatchSizeState) (bk : BucketKey)
    : list TriggerAction * ByBatchSizeState :=
  let buffer := bb_buffer t ++ [(session_ bk, key_ bk)] in
  let cache := delete (session_ bk) (bb_cache t) in
  if u64 (bb_count t) <=? Z.of_nat (length buffer) then
    ([mk_TriggerAction (target_function_ b) buffer], mk_ByBatchSizeState (bb_count t) [] cache)
  else ([], mk_ByBatchSizeState (bb_count t) buffer cache).

Definition ByBatchSizeTrigger_notify_source_func (t : ByBatchSizeState) (func_name session_id : str)
    (func_args : list str) (arg_flag : Z) : ByBatchSizeState :=
  mk_ByBatchSizeState (bb_count t) (bb_buffer t)
    (cache_notify func_name session_id func_args arg_flag (bb_cache t)).

Definition ByBatchSizeTrigger_action_for_rerun (t : ByBatchSizeState) (session_id : str)
    : list TriggerFunctionMetadata := cache_rerun session_id (bb_cache t).

Definition ByBatchSizeTrigger_dump `{PrimitiveCodecs} (b : TriggerBase) (t : ByBatchSizeState) : str :=
  SerializeToString (mk_ByBatchSizePrimitive (target_function_ b) (u32 (bb_count t))).

Definition ByBatchSizeTrigger_clear (t : ByBatchSizeState) : ByBatchSizeState :=
  mk_ByBatchSizeState (bb_count t) [] ∅.

(** * BySetTrigger *)
Definition BySetTrigger_new (function_name trigger_name : str) (key_set : gset str) : Trigger :=
  mk_Trigger (mk_base function_name trigger_name BY_SET) (BySet (mk_BySetState key_set ∅ ∅ ∅)).

Definition BySetTrigger_action `{Layout} (b : TriggerBase) (t : BySetState) (bk : BucketKey)
    : list TriggerAction * BySetState :=
  if decide (key_ bk ∈ bs_key_set t) then
    let prepared := at_or ∅ (session_ bk) (bs_prepared t) ∪ {[key_ bk]} in
    let prepared_map := <[session_ bk := prepared]> (bs_prepared t) in
    let cache := delete (key_ bk ++ session_ bk) (bs_cache t) in
    if decide (size prepared = size (bs_key_set t)) then
      ([mk_TriggerAction (target_function_ b)
          ((fun key => (session_ bk, key)) <$> set_iter (bs_key_set t))],
       mk_BySetState (bs_key_set t) (delete (session_ bk) prepared_map)
         (bs_func_key_map t) cache)
    else ([], mk_BySetState (bs_key_set t) prepared_map (bs_func_key_map t) cache)
  else ([], t).

Definition BySetTrigger_notify_source_func (t : BySetState) (func_name session_id : str)
    (func_args : list str) (arg_flag : Z) : BySetState :=
  if decide (bs_func_key_map t = ∅) then t
  else
    let key := at_or [] func_name (bs_func_key_map t) in
    mk_BySetState (bs_key_set t) (bs_prepared t) (touch [] func_name (bs_func_key_map t))
      (<[key ++ session_id := mk_TriggerFunctionMetadata func_name func_args arg_flag]> (bs_cache t)).

Definition BySetTrigger_action_for_rerun `{Layout} (t : BySetState) (session_id : str)
    : list TriggerFunctionMetadata :=
  if decide (bs_func_key_map t = ∅) then []
  else omap (fun key => bs_cache t !! (key ++ session_id)) (set_iter (bs_key_set t)).

Definition BySetTrigger_set_rerun_metadata (t : BySetState) (metas : list RerunMetadata) : BySetState :=
  mk_BySetState (bs_key_set t) (bs_prepared t)
    (foldl (fun m meta => <[source_func_ meta := source_key_ meta]> m) (bs_func_key_map t) metas)
    (bs_cache t).

Definition BySetTrigger_clear (t : BySetState) (session : str) : BySetState :=
  mk_BySetState (bs_key_set t) (delete session (bs_prepared t)) (bs_func_key_map t)
    (delete session (bs_cache t)).

Definition BySetTrigger_dump `{Layout, PrimitiveCodecs} (b : TriggerBase) (t : BySetState) : str :=
  SerializeToString (mk_BySetPrimitive (target_function_ b) (set_iter (bs_key_set t))).

(** * DynamicGroupTrigger *)
Definition group_delimiter : ascii := ":"%char.
Definition control_group_prefix : str := lit "ctrl".

(** [key.substr(0, key.find(group_delimiter))]: the whole key when there is no
    delimiter. *)
Definition group_of (key : str) : str :=
  match find group_delimiter key with Some i => take i key | None => key end.

Definition DynamicGroupTrigger_new (function_name trigger_name : str) (control_group : gset str) : Trigger :=
  mk_Trigger (mk_base function_name trigger_name DYNAMIC_GROUP)
    (DynamicGroup (mk_DynamicGroupState ∅ control_group ∅)).

Definition DynamicGroupTrigger_action `{Layout} (b : TriggerBase) (t : DynamicGroupState) (bk : BucketKey)
    : list TriggerAction * DynamicGroupState :=
  let group := group_of (key_ bk) in
  if decide (group = control_group_prefix) then
    let cur := if decide (key_ bk ∈ dg_control_group t) then dg_cur_control t ∪ {[key_ bk]}
               else dg_cur_control t in
    if decide (size cur = size (dg_control_group t)) then
      ((fun '(_, keys) => mk_TriggerAction (target_function_ b)
          ((fun key => (session_ bk, key)) <$> set_iter keys)) <$> map_iter (dg_data t),
       mk_DynamicGroupState ∅ (dg_control_group t) ∅)
    else ([], mk_DynamicGroupState (dg_data t) (dg_control_group t) cur)
  else ([], mk_DynamicGroupState (<[group := at_or ∅ group (dg_data t) ∪ {[key_ bk]}]> (dg_data t))
              (dg_control_group t) (dg_cur_control t)).

Definition DynamicGroupTrigger_dump `{Layout, PrimitiveCodecs} (b : TriggerBase) (t : DynamicGroupState) : str :=
  SerializeToString (mk_DynamicGroupPrimitive (target_function_ b) (set_iter (dg_control_group t))).

Definition DynamicGroupTrigger_clear (t : DynamicGroupState) : DynamicGroupState :=
  mk_DynamicGroupState ∅ (dg_control_group t) ∅.

(** * RedundantTrigger *)
Definition RedundantTrigger_new (function_name trigger_name : str) (k n : Z) : Trigger :=
  mk_Trigger (mk_base function_name trigger_name REDUNDANT)
    (Redundant (mk_RedundantState k n 0 [])).

Definition RedundantTrigger_action (b : TriggerBase) (t : RedundantState) (bk : BucketKey)
    : list TriggerAction * RedundantState :=
  let count := u32 (rd_count t + 1) in
  if count <=? rd_k t then
    let buffer := rd_buffer t ++ [(session_ bk, key_ bk)] in
    if count =? rd_k t then
      ([mk_TriggerAction (target_function_ b) buffer], mk_RedundantState (rd_k t) (rd_n t) count [])
    else ([], mk_RedundantState (rd_k t) (rd_n t) count buffer)
  else if rd_n t <=? count then ([], mk_RedundantState (rd_k t) (rd_n t) 0 (rd_buffer t))
  else ([], mk_RedundantState (rd_k t) (rd_n t) count (rd_buffer t)).

Definition RedundantTrigger_clear (t : RedundantState) : RedundantState :=
  mk_RedundantState (rd_k t) (rd_n t) (u32 (rd_count t + rd_k t)) [].

Definition RedundantTrigger_dump `{PrimitiveCodecs} (b : TriggerBase) (t : RedundantState) : str :=
  SerializeToString (mk_RedundantPrimitive (target_function_ b) (rd_k t) (rd_n t)).

(** * ByTimeTrigger *)
Definition ByTimeTrigger_new (function_name trigger_name : str) (time_window now : Z) : Trigger :=
  mk_Trigger (mk_base function_name trigger_name BY_TIME)
    (ByTime (mk_ByTimeState time_window [] now)).

Definition ms : Z := 1000000.

Definition ByTimeTrigger_action (b : TriggerBase) (t : ByTimeState) (now : Z) (bk : BucketKey)
    : list TriggerAction * ByTimeState :=
  let buffer := bt_buffer t ++ [(session_ bk, key_ bk)] in
  if bt_time_window t <=? Z.quot (now - bt_last_trigger_stamp t) ms then
    ([mk_TriggerAction (target_function_ b) buffer], mk_ByTimeState (bt_time_window t) [] now)
  else ([], mk_ByTimeState (bt_time_window t) buffer (bt_last_trigger_stamp t)).

Definition ByTimeTrigger_dump `{PrimitiveCodecs} (b : TriggerBase) (t : ByTimeState) : str :=
  SerializeToString (mk_ByTimePrimitive (target_function_ b) (bt_time_window t)).

Definition ByTimeTrigger_clear (t : ByTimeState) : ByTimeState :=
  mk_ByTimeState (bt_time_window t) [] (bt_last_trigger_stamp t).

(** * Virtual dispatch *)
Definition action_for_new_object `{Layout} (now : Z) (t : Trigger) (bk : BucketKey)
    : list TriggerAction * Trigger :=
  let b := base t in
  match sub t with
  | Immediate s => let '(a, s) := ImmediateTrigger_action b s bk in (a, mk_Trigger b (Immediate s))
  | ByName s => let '(a, s) := ByNameTrigger_action b s bk in (a, mk_Trigger b (ByName s))
  | ByBatchSize s => let '(a, s) := ByBatchSizeTrigger_action b s bk in (a, mk_Trigger b (ByBatchSize s))
  | BySet s => let '(a, s) := BySetTrigger_action b s bk in (a, mk_Trigger b (BySet s))
  | DynamicGroup s => let '(a, s) := DynamicGroupTrigger_action b s bk in (a, mk_Trigger b (DynamicGroup s))
  | Redundant s => let '(a, s) := RedundantTrigger_action b s bk in (a, mk_Trigger b (Redundant s))
  | ByTime s => let '(a, s) := ByTimeTrigger_action b s now bk in (a, mk_Trigger b (ByTime s))
  end.

(** The base class's [notify_source_func] and [action_for_rerun] do nothing;
    dynamic groups, redundant and timed triggers inherit them. *)
Definition notify_source_func (func_name session_id : str) (func_args : list str) (arg_flag : Z)
    (t : Trigger) : Trigger :=
  mk_Trigger (base t)
    match sub t with
    | Immediate s => Immediate (ImmediateTrigger_notify_source_func s func_name session_id func_args arg_flag)
    | ByName s => ByName (ByNameTrigger_notify_source_func s func_name session_id func_args arg_flag)
    | ByBatchSize s => ByBatchSize (ByBatchSizeTrigger_notify_source_func s func_name session_id func_args arg_flag)
    | BySet s => BySet (BySetTrigger_notify_source_func s func_name session_id func_args arg_flag)
    | s => s
    end.

Definition action_for_rerun `{Layout} (session_id : str) (t : Trigger) : list TriggerFunctionMetadata :=
  match sub t with
  | Immediate s => ImmediateTrigger_action_for_rerun s session_id
  | ByName s => ByNameTrigger_action_for_rerun s session_id
  | ByBatchSize s => ByBatchSizeTrigger_action_for_rerun s session_id
  | BySet s => BySetTrigger_action_for_rerun s session_id
  | _ => []
  end.

Definition set_rerun_metadata (metas : list RerunMetadata) (t : Trigger) : Trigger :=
  match sub t with
  | BySet s => mk_Trigger (base t) (BySet (BySetTrigger_set_rerun_metadata s metas))
  | _ => t
  end.

Definition clear (session : str) (t : Trigger) : Trigger :=
  mk_Trigger (base t)
    match sub t with
    | Immediate s => Immediate s
    | ByName s => ByName s
    | ByBatchSize s => ByBatchSize (ByBatchSizeTrigger_clear s)
    | BySet s => BySet (BySetTrigger_clear s session)
    | DynamicGroup s => DynamicGroup (DynamicGroupTrigger_clear s)
    | Redundant s => Redundant (RedundantTrigger_clear s)
    | ByTime s => ByTime (ByTimeTrigger_clear s)
    end.

Definition dump_pritimive `{Layout, PrimitiveCodecs} (t : Trigger) : str :=
  let b := base t in
  match sub t with
  | Immediate _ => ImmediateTrigger_dump b
  | ByName s => ByNameTrigger_dump b s
  | ByBatchSize s => ByBatchSizeTrigger_dump b s
  | BySet s => BySetTrigger_dump b s
  | DynamicGroup s => DynamicGroupTrigger_dump b s
  | Redundant s => RedundantTrigger_dump b s
  | ByTime s => ByTimeTrigger_dump b s
  end.

(** [None] is the null pointer. *)
Definition gen_trigger_pointer `{PrimitiveCodecs} (now : Z) (type : PrimitiveType)
    (trigger_name serialized : str) : option Trigger :=
  match type with
  | IMMEDIATE =>
      let p : ImmediatePrimitive := ParseFromString serialized in
      Some (ImmediateTrigger_new (ip_function p) trigger_name)
  | BY_NAME =>
      let p : ByNamePrimitive := ParseFromString serialized in
      Some (ByNameTrigger_new (bnp_function p) trigger_name (bnp_key_name p))
  | BY_BATCH_SIZE =>
      let p : ByBatchSizePrimitive := ParseFromString serialized in
      Some (ByBatchSizeTrigger_new (bbp_function p) trigger_name (i32 (bbp_count p)))
  | BY_SET =>
      let p : BySetPrimitive := ParseFromString serialized in
      Some (BySetTrigger_new (bsp_function p) trigger_name (list_to_set (bsp_key_set p)))
  | DYNAMIC_GROUP =>
      let p : DynamicGroupPrimitive := ParseFromString serialized in
      Some (DynamicGroupTrigger_new (dgp_function p) trigger_name (list_to_set (dgp_control_group p)))
  | REDUNDANT =>
      let p : RedundantPrimitive := ParseFromString serialized in
      Some (RedundantTrigger_new (rp_function p) trigger_name (rp_k p) (rp_n p))
  | BY_TIME =>
      let p : ByTimePrimitive := ParseFromString serialized in
      Some (ByTimeTrigger_new (btp_function p) trigger_name (btp_time_window p) now)
  | PT_OTHER => None
  end.
