(* ===== verification/TriggerSpec.v ===== *)
(** What the trigger primitives promise, stated on sequences of arrivals. *)
From stdpp Require Import prelude gmap strings list fin_sets.
From Stdlib Require Import ZArith Lia Ascii.
From S2P Require Import Prelude Cpp Proto Common Trigger.

Open Scope Z_scope.

(** Objects arrive one at a time, each at some instant. *)
Abbreviation arrival := (Z * BucketKey)%type.

Definition trigger_step `{Layout} (t : Trigger) (a : arrival) : Trigger * list TriggerAction :=
  let '(acts, t') := action_for_new_object a.1 t a.2 in (t', acts).
Definition run_trigger `{Layout} (t : Trigger) (l : list arrival) : Trigger * list TriggerAction :=
  mapAccum trigger_step t l.

Definition obj_of (a : arrival) : str * str := (session_ a.2, key_ a.2).

(** * Specifications *)

(** What a [BySetTrigger] owes one session: the keys it has seen since it last
    fired; it fires when they are all there. *)
Fixpoint by_set_spec `{Layout} (f : str) (ks seen : gset str) (s : str) (keys : list str)
    : list TriggerAction :=
  match keys with
  | [] => []
  | k :: keys =>
      if decide (k ∈ ks) then
        if decide (seen ∪ {[k]} = ks)
        then mk_TriggerAction f ((fun key => (s, key)) <$> set_iter ks) :: by_set_spec f ks ∅ s keys
        else by_set_spec f ks (seen ∪ {[k]}) s keys
      else by_set_spec f ks seen s keys
  end.

(** The session an invocation belongs to. *)
Definition for_session (s : str) (a : TriggerAction) : Prop := head (session_keys_ a).*1 = Some s.
#[export] Instance for_session_dec s a : Decision (for_session s a).
Proof. unfold for_session. apply _. Defined.

(** The prepared keys of every session are keys of the set, and never all of
    them. *)
Definition by_set_inv (t : BySetState) : Prop :=
  forall s X, bs_prepared t !! s = Some X -> X ⊂ bs_key_set t.

(** A session's history as the re-execution support sees it. *)
Inductive cache_event :=
  | Notified (session : str) (m : TriggerFunctionMetadata)
  | Arrived (bk : BucketKey).

Definition cache_step `{Layout} (t : Trigger) (e : cache_event) : Trigger :=
  match e with
  | Notified s m => notify_source_func (func_name_ m) s (func_args_ m) (arg_flag_ m) t
  | Arrived bk => (action_for_new_object 0 t bk).2
  end.

(** The last source call of a session that no object of the session followed. *)
Definition pending_step (s : str) (p : option TriggerFunctionMetadata) (e : cache_event)
    : option TriggerFunctionMetadata :=
  match e with
  | Notified s' m => if decide (s' = s) then Some m else p
  | Arrived bk => if decide (session_ bk = s) then None else p
  end.

(** * Running a trigger *)
Lemma run_trigger_cons `{Layout} t now bk l :
  run_trigger t ((now, bk) :: l) =
  ((run_trigger (action_for_new_object now t bk).2 l).1,
   (action_for_new_object now t bk).1 ++ (run_trigger (action_for_new_object now t bk).2 l).2).
Proof.
  unfold run_trigger. cbn [mapAccum]. unfold trigger_step at 1. simpl.
  destruct (action_for_new_object now t bk) as [acts t1]. simpl.
  by destruct (mapAccum _ t1 l).
Qed.

Lemma run_trigger_app `{Layout} t l1 l2 :
  run_trigger t (l1 ++ l2) =
  ((run_trigger (run_trigger t l1).1 l2).1,
   (run_trigger t l1).2 ++ (run_trigger (run_trigger t l1).1 l2).2).
Proof.
  unfold run_trigger. rewrite mapAccum_app. destruct (mapAccum _ t l1) as [t1 o1]. simpl.
  by destruct (mapAccum _ t1 l2).
Qed.

(** * BySetTrigger *)
Lemma by_set_action_inv `{Layout} b t bk :
  by_set_inv t -> by_set_inv (BySetTrigger_action b t bk).2.
Proof.
  intros Hinv. unfold BySetTrigger_action. case_decide as Hk; [|done].
  assert (at_or ∅ (session_ bk) (bs_prepared t) ⊆ bs_key_set t) as Hsub.
  { unfold at_or. destruct (bs_prepared t !! session_ bk) as [X|] eqn:E; simpl; [|set_solver].
    apply Hinv in E. set_solver. }
  case_decide as Hsz; intros s X; simpl.
  - rewrite delete_insert_eq. rewrite lookup_delete_Some. intros [_ HX]. by eapply Hinv.
  - rewrite lookup_insert_Some. intros [[<- <-]|[_ HX]]; [|by eapply Hinv].
    assert (at_or ∅ (session_ bk) (bs_prepared t) ∪ {[key_ bk]} ⊆ bs_key_set t) as Hs by set_solver.
    split; [done|]. intros Hge. apply Hsz. f_equal. set_solver.
Qed.

(** Under the invariant the comparison of sizes is a comparison of sets. *)
Lemma by_set_complete (t : BySetState) s k :
  by_set_inv t -> k ∈ bs_key_set t ->
  size (at_or ∅ s (bs_prepared t) ∪ {[k]}) = size (bs_key_set t) <->
  at_or ∅ s (bs_prepared t) ∪ {[k]} = bs_key_set t.
Proof.
  intros Hinv Hk. split; [|by intros ->]. intros Hs.
  assert (at_or ∅ s (bs_prepared t) ⊆ bs_key_set t) as Hsub.
  { unfold at_or. destruct (bs_prepared t !! s) as [X|] eqn:E; simpl; [|set_solver].
    apply Hinv in E. set_solver. }
  apply set_subseteq_size_eq; [set_solver|lia].
Qed.

(** An invocation of a non-empty key set is of the session it was made for. *)
Lemma filter_for_session `{Layout} (f : str) (ks : gset str) (k s s' : str) :
  k ∈ ks ->
  filter (for_session s) [mk_TriggerAction f ((fun key => (s', key)) <$> set_iter ks)] =
  if decide (s' = s) then [mk_TriggerAction f ((fun key => (s', key)) <$> set_iter ks)] else [].
Proof.
  intros Hk%elem_of_set_iter. rewrite filter_cons, filter_nil. unfold for_session. simpl.
  destruct (set_iter ks) as [|x l]; [by apply not_elem_of_nil in Hk|]. simpl.
  repeat case_decide; congruence.
Qed.

Lemma by_set_run_spec `{Layout} b t l s :
  by_set_inv t ->
  filter (for_session s) (run_trigger (mk_Trigger b (BySet t)) l).2 =
  by_set_spec (target_function_ b) (bs_key_set t) (at_or ∅ s (bs_prepared t)) s
    (key_ ∘ snd <$> filter (fun a => session_ a.2 = s) l).
Proof.
  revert t. induction l as [|[now bk] l IH]; intros t Hinv; [done|].
  rewrite run_trigger_cons. unfold action_for_new_object. simpl.
  pose proof (by_set_action_inv b t bk Hinv) as Hinv'. revert Hinv'.
  pose proof (by_set_complete t (session_ bk) (key_ bk) Hinv) as Hcomp.
  rewrite filter_cons. unfold BySetTrigger_action.
  case_decide as Hk; [case_decide as Hsz|]; cbn [snd fst]; intros Hinv';
    rewrite filter_app, (IH _ Hinv'); cbn [bs_key_set bs_prepared].
  - rewrite (filter_for_session _ _ _ _ _ Hk), delete_insert_eq. case_decide as Hs; simpl.
    + subst s. rewrite decide_True by done. rewrite decide_True by (by apply Hcomp).
      unfold at_or at 1. by rewrite lookup_delete_eq.
    + unfold at_or at 1. by rewrite lookup_delete_ne.
  - case_decide as Hs; simpl.
    + subst s. rewrite decide_True by done. rewrite decide_False by (rewrite <- Hcomp; done).
      unfold at_or at 1. by rewrite lookup_insert_eq.
    + unfold at_or at 1. by rewrite lookup_insert_ne.
  - case_decide as Hs; simpl; [|done]. by rewrite decide_False.
Qed.

Lemma by_set_new_run `{Layout} (f name : str) (ks : gset str) l (s : str) :
  filter (for_session s) (run_trigger (BySetTrigger_new f name ks) l).2 =
  by_set_spec f ks ∅ s (key_ ∘ snd <$> filter (fun a => session_ a.2 = s) l).
Proof.
  unfold BySetTrigger_new. rewrite by_set_run_spec.
  - simpl. unfold at_or. by rewrite lookup_empty.
  - intros s' X. simpl. by rewrite lookup_empty.
Qed.

(** * ByBatchSizeTrigger *)
Lemma batch_run `{Layout} b count buf cache l :
  0 < count < 2 ^ 31 -> Z.of_nat (length buf) < count ->
  exists buf' cache' acts,
    run_trigger (mk_Trigger b (ByBatchSize (mk_ByBatchSizeState count buf cache))) l =
      (mk_Trigger b (ByBatchSize (mk_ByBatchSizeState count buf' cache')), acts) /\
    concat (session_keys_ <$> acts) ++ buf' = buf ++ (obj_of <$> l) /\
    Forall (fun a => function_ a = target_function_ b /\
                     Z.of_nat (length (session_keys_ a)) = count) acts /\
    Z.of_nat (length buf') < count.
Proof.
  intros Hc. revert buf cache. induction l as [|[now bk] l IH]; intros buf cache Hb.
  - exists buf, cache, []. csimpl. by rewrite app_nil_r.
  - rewrite run_trigger_cons. unfold action_for_new_object. csimpl.
    unfold ByBatchSizeTrigger_action. cbn [bb_count bb_buffer bb_cache].
    rewrite u64_small by lia. rewrite length_app. simpl length.
    destruct (count <=? _) eqn:E; bool_to_prop; csimpl.
    + edestruct (IH [] (delete (session_ bk) cache)) as (buf' & cache' & acts & -> & Hcat & Hall & Hlt);
        [simpl; lia|]. eexists buf', cache', _. split; [done|]. csimpl.
      split; [by rewrite <- (app_assoc _ _ buf'), Hcat, <- app_assoc|]. split; [|done]. constructor; [|done].
      csimpl. rewrite length_app. csimpl. split; [done|lia].
    + edestruct (IH (buf ++ [(session_ bk, key_ bk)]) (delete (session_ bk) cache))
        as (buf' & cache' & acts & -> & Hcat & Hall & Hlt); [rewrite length_app; simpl; lia|].
      exists buf', cache', acts. split; [done|]. csimpl. by rewrite Hcat, <- app_assoc.
Qed.

(** * RedundantTrigger

    The state of a cycle: how many objects it has seen, and those of them that
    are still in the buffer. *)
Section redundant.
Context `{Layout} (b : TriggerBase) (k n : Z).

Definition redundant (count : Z) (buf : list (str * str)) : Trigger :=
  mk_Trigger b (Redundant (mk_RedundantState k n count buf)).

Lemma redundant_fill c buf l :
  0 <= c -> c + Z.of_nat (length l) < k -> k < 2 ^ 32 ->
  run_trigger (redundant c buf) l = (redundant (c + Z.of_nat (length l)) (buf ++ (obj_of <$> l)), []).
Proof.
  revert c buf. induction l as [|[now bk] l IH]; intros c buf Hc Hk Hw.
  - csimpl. by rewrite Z.add_0_r, app_nil_r.
  - rewrite run_trigger_cons. unfold action_for_new_object. simpl in *.
    unfold RedundantTrigger_action. cbn [rd_k rd_n rd_count rd_buffer].
    rewrite u32_small by (unfold is_u32; lia).
    rewrite (proj2 (Z.leb_le _ _)), (proj2 (Z.eqb_neq _ _)) by lia. cbn [fst snd].
    fold (redundant (c + 1) (buf ++ [(session_ bk, key_ bk)])). rewrite IH by lia. csimpl.
    rewrite <- app_assoc. csimpl. f_equal. f_equal. lia.
Qed.

Lemma redundant_fire buf now bk :
  0 < k < 2 ^ 32 ->
  action_for_new_object now (redundant (k - 1) buf) bk =
  ([mk_TriggerAction (target_function_ b) (buf ++ [(session_ bk, key_ bk)])], redundant k []).
Proof.
  intros. unfold action_for_new_object, redundant. csimpl. unfold RedundantTrigger_action.
  cbn [rd_k rd_n rd_count rd_buffer]. rewrite u32_small by (unfold is_u32; lia).
  replace (k - 1 + 1) with k by lia. by rewrite Z.leb_refl, Z.eqb_refl.
Qed.

Lemma redundant_drop c l :
  0 <= k <= c -> c + Z.of_nat (length l) < Z.max n (c + 1) -> n < 2 ^ 32 ->
  run_trigger (redundant c []) l = (redundant (c + Z.of_nat (length l)) [], []).
Proof.
  revert c. induction l as [|[now bk] l IH]; intros c Hk Hn Hw.
  - csimpl. by rewrite Z.add_0_r.
  - rewrite run_trigger_cons. unfold action_for_new_object. simpl in *.
    unfold RedundantTrigger_action. cbn [rd_k rd_n rd_count rd_buffer].
    rewrite u32_small by (unfold is_u32; lia).
    rewrite (proj2 (Z.leb_gt _ _)), (proj2 (Z.leb_gt _ _)) by lia. cbn [fst snd].
    fold (redundant (c + 1) []). rewrite IH by lia. csimpl. f_equal. f_equal. lia.
Qed.

Lemma redundant_reset c now bk :
  0 <= k <= c -> n <= c + 1 -> c + 1 < 2 ^ 32 ->
  action_for_new_object now (redundant c []) bk = ([], redundant 0 []).
Proof.
  intros. unfold action_for_new_object, redundant. csimpl. unfold RedundantTrigger_action.
  cbn [rd_k rd_n rd_count rd_buffer]. rewrite u32_small by (unfold is_u32; lia).
  by rewrite (proj2 (Z.leb_gt _ _)), (proj2 (Z.leb_le _ _)) by lia.
Qed.

(** A cycle is the larger of [n] and [k + 1] objects long. *)
Lemma redundant_cycle l :
  0 < k -> Z.max n (k + 1) < 2 ^ 32 -> Z.of_nat (length l) = Z.max n (k + 1) ->
  run_trigger (redundant 0 []) l =
  (redundant 0 [], [mk_TriggerAction (target_function_ b) (take (Z.to_nat k) (obj_of <$> l))]).
Proof.
  intros Hk Hw Hl.
  pose proof (take_drop (Z.to_nat (k - 1)) l) as E1.
  assert (length (take (Z.to_nat (k - 1)) l) = Z.to_nat (k - 1)) as L1 by (rewrite length_take; lia).
  destruct (drop (Z.to_nat (k - 1)) l) as [|[now1 bk1] l2] eqn:E2.
  { apply (f_equal length) in E2. rewrite length_drop in E2. simpl in E2. lia. }
  assert (length l2 = length l - Z.to_nat k)%nat as L2.
  { apply (f_equal length) in E2. rewrite length_drop in E2. simpl in E2. lia. }
  destruct (exists_last (l := l2)) as (l3 & [now2 bk2] & ->).
  { intros ->. simpl in *. lia. }
  rewrite length_app in L2. simpl in L2.
  rewrite <- E1 at 1. rewrite run_trigger_app, redundant_fill by lia. cbn [fst snd].
  rewrite run_trigger_cons. replace (0 + Z.of_nat _) with (k - 1) by lia.
  rewrite redundant_fire by lia. cbn [fst snd].
  rewrite run_trigger_app, redundant_drop by lia. cbn [fst snd].
  rewrite run_trigger_cons, redundant_reset by lia. csimpl. f_equal. do 2 f_equal.
  rewrite <- E1 at 2. rewrite fmap_app. csimpl.
  replace (Z.to_nat k) with (length (obj_of <$> take (Z.to_nat (k - 1)) l) + 1)%nat
    by (rewrite length_fmap; lia).
  by rewrite take_app_add.
Qed.

Lemma redundant_cycles ls :
  0 < k -> Z.max n (k + 1) < 2 ^ 32 ->
  Forall (fun l => Z.of_nat (length l) = Z.max n (k + 1)) ls ->
  run_trigger (redundant 0 []) (concat ls) =
  (redundant 0 [],
   (fun l => mk_TriggerAction (target_function_ b) (take (Z.to_nat k) (obj_of <$> l))) <$> ls).
Proof.
  intros Hk Hw. induction 1 as [|l ls Hl _ IH]; [done|]. csimpl.
  rewrite run_trigger_app, (redundant_cycle l) by done. cbn [fst snd]. by rewrite IH.
Qed.
End redundant.

(** * DynamicGroupTrigger

    The keys of the current round, each under its own group. *)
Definition dg_inv (m : gmap str (gset str)) : Prop :=
  forall g X, m !! g = Some X -> X <> ∅ /\ forall k, k ∈ X -> group_of k = g.

Definition dg_stored (m : gmap str (gset str)) (k : str) : Prop := k ∈ at_or ∅ (group_of k) m.

Section dynamic_group.
Context `{Layout} (b : TriggerBase) (cg : gset str).

Definition dyn_group (data : gmap str (gset str)) (cur : gset str) : Trigger :=
  mk_Trigger b (DynamicGroup (mk_DynamicGroupState data cg cur)).

Lemma dg_inv_insert m k :
  dg_inv m -> dg_inv (<[group_of k := at_or ∅ (group_of k) m ∪ {[k]}]> m).
Proof.
  intros Hm g X. rewrite lookup_insert_Some. intros [[<- <-]|[_ HX]]; [|by apply Hm].
  split; [set_solver|]. intros k'. rewrite elem_of_union, elem_of_singleton.
  intros [Hk'| ->]; [|done]. unfold at_or in Hk'.
  destruct (m !! group_of k) as [Y|] eqn:E; simpl in Hk'; [|set_solver]. by apply (Hm _ Y).
Qed.

Lemma dg_stored_insert m k k' :
  dg_stored (<[group_of k := at_or ∅ (group_of k) m ∪ {[k]}]> m) k' <-> dg_stored m k' \/ k' = k.
Proof.
  unfold dg_stored. destruct (decide (group_of k = group_of k')) as [E|E].
  - rewrite <- E. unfold at_or at 1. rewrite lookup_insert_eq. simpl. set_solver.
  - unfold at_or at 1. rewrite lookup_insert_ne by done. fold (at_or ∅ (group_of k') m). set_solver.
Qed.

Lemma dg_data_run m cur l :
  Forall (fun a => group_of (key_ a.2) <> control_group_prefix) l -> dg_inv m ->
  exists m', run_trigger (dyn_group m cur) l = (dyn_group m' cur, []) /\ dg_inv m' /\
    forall k, dg_stored m' k <-> dg_stored m k \/ k ∈ key_ ∘ snd <$> l.
Proof.
  intros Hl. revert m. induction Hl as [|[now bk] l Hbk _ IH]; intros m Hm.
  - exists m. split; [done|]. split; [done|]. set_solver.
  - destruct (IH _ (dg_inv_insert m (key_ bk) Hm)) as (m' & Hrun & Hinv & Hst).
    exists m'. rewrite run_trigger_cons. unfold action_for_new_object. simpl.
    unfold DynamicGroupTrigger_action. simpl in Hbk. rewrite decide_False by done. cbn [fst snd dg_data dg_control_group dg_cur_control].
    unfold dyn_group in Hrun at 1. rewrite Hrun. split; [done|]. split; [done|].
    intros k. rewrite Hst, dg_stored_insert. csimpl. set_solver.
Qed.

Lemma dg_control_run m cur l :
  Forall (fun a => group_of (key_ a.2) = control_group_prefix /\ key_ a.2 ∈ cg) l ->
  NoDup (key_ ∘ snd <$> l) -> cur ## list_to_set (key_ ∘ snd <$> l) ->
  (size cur + length l < size cg)%nat ->
  run_trigger (dyn_group m cur) l = (dyn_group m (cur ∪ list_to_set (key_ ∘ snd <$> l)), []).
Proof.
  revert cur. induction l as [|[now bk] l IH]; intros cur Hl Hnd Hdisj Hsz.
  - simpl. by rewrite union_empty_r_L.
  - inv Hl. destruct H2 as [Hg Hin]. simpl in Hg, Hin. csimpl in *. inv Hnd.
    rewrite run_trigger_cons. unfold action_for_new_object. simpl.
    unfold DynamicGroupTrigger_action. cbn [dg_data dg_control_group dg_cur_control].
    rewrite (decide_True _ _ Hg), (decide_True _ _ Hin).
    assert (size (cur ∪ {[key_ bk]}) = S (size cur)) as Hs.
    { rewrite size_union, size_singleton by set_solver. lia. }
    rewrite decide_False by lia. cbn [fst snd].
    fold (dyn_group m (cur ∪ {[key_ bk]})). rewrite IH; [|done|done|set_solver|lia].
    simpl. f_equal. f_equal. set_solver.
Qed.

(** The control key that completes the control group flushes the groups. *)
Lemma dg_flush m cur now bk :
  group_of (key_ bk) = control_group_prefix -> key_ bk ∈ cg -> key_ bk ∉ cur ->
  S (size cur) = size cg ->
  action_for_new_object now (dyn_group m cur) bk =
  ((fun '(_, keys) => mk_TriggerAction (target_function_ b)
      ((fun key => (session_ bk, key)) <$> set_iter keys)) <$> map_iter m, dyn_group ∅ ∅).
Proof.
  intros Hg Hin Hcur Hsz. unfold action_for_new_object, dyn_group. simpl.
  unfold DynamicGroupTrigger_action. cbn [dg_data dg_control_group dg_cur_control].
  rewrite (decide_True _ _ Hg), (decide_True _ _ Hin), decide_True; [done|].
  rewrite size_union, size_singleton by set_solver. lia.
Qed.
End dynamic_group.

(** What a flush emits: every stored key once, one invocation per group. *)
Definition dg_flushed `{Layout} (f s : str) (m : gmap str (gset str)) : list TriggerAction :=
  (fun '(_, keys) => mk_TriggerAction f ((fun key => (s, key)) <$> set_iter keys)) <$> map_iter m.

Lemma elem_of_dg_flushed `{Layout} f s m k :
  dg_inv m -> k ∈ concat ((fun a => (session_keys_ a).*2) <$> dg_flushed f s m) <-> dg_stored m k.
Proof.
  intros Hm. unfold dg_stored. rewrite list_elem_of_In, in_concat. split.
  - intros (ks & Hks & Hk). rewrite <- list_elem_of_In in Hks. rewrite <- list_elem_of_In in Hk.
    unfold dg_flushed in Hks. rewrite <- list_fmap_compose in Hks.
    apply list_elem_of_fmap in Hks as ([g X] & -> & HgX). apply elem_of_map_iter in HgX.
    csimpl in Hk. rewrite <- list_fmap_compose in Hk. apply list_elem_of_fmap in Hk as (k' & -> & Hk').
    simpl. apply elem_of_set_iter in Hk'. destruct (Hm g X HgX) as [_ Hg].
    unfold at_or. rewrite (Hg _ Hk'), HgX. done.
  - unfold at_or. intros Hk. destruct (m !! group_of k) as [X|] eqn:E; simpl in Hk; [|set_solver].
    exists (set_iter X). rewrite <- !list_elem_of_In. split; [|by apply elem_of_set_iter].
    unfold dg_flushed. rewrite <- list_fmap_compose. apply list_elem_of_fmap.
    exists (group_of k, X). split; [|by apply elem_of_map_iter].
    csimpl. rewrite <- list_fmap_compose. symmetry. apply list_fmap_id.
Qed.

Lemma dg_flushed_groups `{Layout} f s m :
  dg_inv m -> Forall2 (fun g a => function_ a = f /\ session_keys_ a <> [] /\
      Forall (fun p => p.1 = s /\ group_of p.2 = g) (session_keys_ a))
    (map_iter m).*1 (dg_flushed f s m).
Proof.
  intros Hm. unfold dg_flushed. rewrite Forall2_fmap. apply Forall_Forall2_diag, Forall_forall.
  intros [g X] HgX. apply elem_of_map_iter in HgX. destruct (Hm g X HgX) as [Hne Hg]. simpl.
  split; [done|]. split.
  - intros E%fmap_nil_inv. apply Hne, leibniz_equiv, size_empty_inv. rewrite <- length_set_iter, E. done.
  - apply Forall_fmap, Forall_forall. intros k Hk%elem_of_set_iter. simpl. eauto.
Qed.

Lemma NoDup_dg_flushed `{Layout} f s m :
  dg_inv m -> NoDup (concat ((fun a => (session_keys_ a).*2) <$> dg_flushed f s m)).
Proof.
  intros Hm. unfold dg_flushed. rewrite <- list_fmap_compose.
  assert (forall g X, (g, X) ∈ map_iter m -> forall k, k ∈ X -> group_of k = g) as Hg.
  { intros g X HgX%elem_of_map_iter. by apply Hm. }
  pose proof (NoDup_fst_map_iter m) as Hnd. revert Hg Hnd. generalize (map_iter m) as l.
  induction l as [|[g X] l IH]; intros Hg Hnd; [constructor|]. csimpl in *. inv Hnd.
  rewrite <- list_fmap_compose. rewrite list_fmap_id. apply NoDup_app.
  split; [apply NoDup_set_iter|]. split; [|apply IH; [|done]; intros; eapply Hg; [by right|done]].
  intros k Hk%elem_of_set_iter Hin. apply list_elem_of_In, in_concat in Hin as (ks & Hks & Hk').
  apply list_elem_of_In, list_elem_of_fmap in Hks as ([g' X'] & -> & HgX').
  apply list_elem_of_In in Hk'. csimpl in Hk'. rewrite <- list_fmap_compose in Hk'.
  rewrite list_fmap_id in Hk'. apply elem_of_set_iter in Hk'.
  apply H2. apply list_elem_of_fmap. exists (g', X'). split; [|done]. simpl.
  rewrite <- (Hg g X (list_elem_of_here _ _) k Hk). eapply Hg; [by right|done].
Qed.

(** * ByTimeTrigger *)
Lemma by_time_run `{Layout} b w buf last l :
  0 < w ->
  exists buf' last' acts,
    run_trigger (mk_Trigger b (ByTime (mk_ByTimeState w buf last))) l =
      (mk_Trigger b (ByTime (mk_ByTimeState w buf' last')), acts) /\
    concat (session_keys_ <$> acts) ++ buf' = buf ++ (obj_of <$> l) /\
    Z.of_nat (length acts) * (w * ms) <= last' - last.
Proof.
  intros Hw. revert buf last. induction l as [|[now bk] l IH]; intros buf last.
  - exists buf, last, []. csimpl. rewrite app_nil_r. split; [done|]. split; [done|lia].
  - rewrite run_trigger_cons. unfold action_for_new_object. simpl.
    unfold ByTimeTrigger_action. cbn [bt_time_window bt_buffer bt_last_trigger_stamp].
    destruct (w <=? _) eqn:E; bool_to_prop; cbn [fst snd].
    + destruct (IH [] now) as (buf' & last' & acts & -> & Hcat & Hlen).
      eexists buf', last', _. split; [done|]. csimpl. split.
      { by rewrite <- (app_assoc _ _ buf'), Hcat, <- app_assoc. }
      assert (w * ms <= now - last).
      { unfold ms in *. pose proof (Z.quot_rem' (now - last) 1000000) as Hq.
        destruct (Z_le_gt_dec 0 (now - last)).
        - pose proof (Z.rem_bound_pos (now - last) 1000000). lia.
        - rewrite Z.quot_div in E by lia. assert (Z.sgn (now - last) = -1) as Hs by lia.
          rewrite Hs in E. simpl in E. lia. }
      lia.
    + destruct (IH (buf ++ [(session_ bk, key_ bk)]) last) as (buf' & last' & acts & -> & Hcat & Hlen).
      exists buf', last', acts. split; [done|]. csimpl. by rewrite Hcat, <- app_assoc.
Qed.

(** * The set specification on complete rounds *)
Lemma by_set_spec_round `{Layout} (f : str) (ks seen : gset str) (s : str) (keys : list str) :
  NoDup keys -> keys <> [] -> seen ## list_to_set keys -> seen ∪ list_to_set keys = ks ->
  by_set_spec f ks seen s keys = [mk_TriggerAction f ((fun key => (s, key)) <$> set_iter ks)].
Proof.
  revert seen. induction keys as [|k keys IH]; intros seen Hnd Hne Hdisj Hks; [done|].
  apply NoDup_cons in Hnd as [Hk Hnd]. csimpl in *. rewrite decide_True by set_solver.
  destruct keys as [|k' keys].
  - rewrite decide_True by set_solver. done.
  - rewrite decide_False.
    + apply IH; [done|done|set_solver|set_solver].
    + intros E. apply Hk. assert (k' ∈ seen ∪ {[k]}) as Hk' by (rewrite E; set_solver). set_solver.
Qed.

(** * Configurations *)
Definition fresh (now : Z) (t : Trigger) : Trigger :=
  let f := target_function_ (base t) in
  let name := trigger_name_ (base t) in
  match sub t with
  | Immediate _ => ImmediateTrigger_new f name
  | ByName s => ByNameTrigger_new f name (bn_key_name s)
  | ByBatchSize s => ByBatchSizeTrigger_new f name (bb_count s)
  | BySet s => BySetTrigger_new f name (bs_key_set s)
  | DynamicGroup s => DynamicGroupTrigger_new f name (dg_control_group s)
  | Redundant s => RedundantTrigger_new f name (rd_k s) (rd_n s)
  | ByTime s => ByTimeTrigger_new f name (bt_time_window s) now
  end.

(** The type tag the constructors set, and counts that are [int]s. *)
Definition well_typed (t : Trigger) : Prop :=
  match sub t with
  | Immediate _ => get_type t = IMMEDIATE
  | ByName _ => get_type t = BY_NAME
  | ByBatchSize s => get_type t = BY_BATCH_SIZE /\ is_i32 (bb_count s)
  | BySet _ => get_type t = BY_SET
  | DynamicGroup _ => get_type t = DYNAMIC_GROUP
  | Redundant _ => get_type t = REDUNDANT
  | ByTime _ => get_type t = BY_TIME
  end.

Lemma i32_u32 x : is_i32 x -> i32 (u32 x) = x.
Proof. unfold is_i32, i32, u32. lia. Qed.

Lemma list_to_set_iter `{Layout} (X : gset str) : list_to_set (set_iter X) = X.
Proof. apply set_eq. intros x. by rewrite elem_of_list_to_set, elem_of_set_iter. Qed.

(** A concrete codec for each primitive message, through tuples. *)
Definition codec_via {A M} `{Countable A, Inhabited A} (f : M -> A) (g : A -> M)
    (gf : forall m, g (f m) = m) : Codec M.
Proof.
  refine {| SerializeToString m := @SerializeToString A codec_countable (f m);
            ParseFromString s := g (@ParseFromString A codec_countable s) |}.
  intros m. by rewrite parse_serialize, gf.
Defined.

Definition test_codecs : PrimitiveCodecs.
Proof.
  refine {|
    codec_immediate := codec_via ip_function mk_ImmediatePrimitive _;
    codec_by_name := codec_via (fun m => (bnp_function m, bnp_key_name m)) (fun p => mk_ByNamePrimitive p.1 p.2) _;
    codec_by_batch_size := codec_via (fun m => (bbp_function m, bbp_count m)) (fun p => mk_ByBatchSizePrimitive p.1 p.2) _;
    codec_by_set := codec_via (fun m => (bsp_function m, bsp_key_set m)) (fun p => mk_BySetPrimitive p.1 p.2) _;
    codec_dynamic_group := codec_via (fun m => (dgp_function m, dgp_control_group m)) (fun p => mk_DynamicGroupPrimitive p.1 p.2) _;
    codec_redundant := codec_via (fun m => (rp_function m, rp_k m, rp_n m)) (fun p => mk_RedundantPrimitive p.1.1 p.1.2 p.2) _;
    codec_by_time := codec_via (fun m => (btp_function m, btp_time_window m)) (fun p => mk_ByTimePrimitive p.1 p.2) _ |};
  by intros [].
Defined.

(** * The status cache *)
Lemma cache_rerun_option (s : str) (c : StatusCache) : cache_rerun s c = option_list (c !! s).
Proof. unfold cache_rerun. by destruct (c !! s). Qed.

Lemma foldl_pending (s : str) p (evs : list cache_event) c :
  c !! s = p ->
  foldl (fun c e => match e with
      | Notified s' m => cache_notify (func_name_ m) s' (func_args_ m) (arg_flag_ m) c
      | Arrived bk => delete (session_ bk) c
      end) c evs !! s = foldl (pending_step s) p evs.
Proof.
  revert p c. induction evs as [|e evs IH]; intros p c Hp; [done|]. simpl. apply IH.
  destruct e as [s' [f a g]|bk]; unfold cache_notify; simpl; case_decide; subst; by simplify_map_eq.
Qed.

Lemma immediate_rerun `{Layout} f name s evs :
  action_for_rerun s (foldl cache_step (ImmediateTrigger_new f name) evs) =
  option_list (foldl (pending_step s) None evs).
Proof.
  rewrite <- (foldl_pending s None evs ∅) by apply lookup_empty.
  unfold ImmediateTrigger_new. generalize (∅ : StatusCache) as c.
  induction evs as [|e evs IH]; intros c.
  - unfold action_for_rerun. simpl. by apply cache_rerun_option.
  - destruct e; apply IH.
Qed.

Lemma by_name_rerun `{Layout} f name key s evs :
  action_for_rerun s (foldl cache_step (ByNameTrigger_new f name key) evs) =
  option_list (foldl (pending_step s) None evs).
Proof.
  rewrite <- (foldl_pending s None evs ∅) by apply lookup_empty.
  unfold ByNameTrigger_new. generalize (∅ : StatusCache) as c.
  induction evs as [|e evs IH]; intros c.
  - unfold action_for_rerun. simpl. by apply cache_rerun_option.
  - destruct e; apply IH.
Qed.

Lemma omap_ext_elem {A B} (g h : A -> option B) (l : list A) :
  (forall x, x ∈ l -> g x = h x) -> omap g l = omap h l.
Proof.
  induction l as [|x l IH]; intros Hgh; [done|]. csimpl. rewrite (Hgh x) by left.
  rewrite IH by (intros; apply Hgh; by right). done.
Qed.
