(* ===== verification/TriggerClaims.v ===== *)
(** The properties of the trigger primitives. *)
From stdpp Require Import prelude gmap strings list fin_sets.
From Stdlib Require Import ZArith Lia Ascii.
From S2P Require Import Prelude Cpp Proto Common Trigger TriggerSpec.

Open Scope Z_scope.

(** C20: whatever the interleaving of sessions in a bucket, the invocations a
    [BySetTrigger] makes for a session are those of the abstract specification
    run on the keys of that session alone: it fires exactly when the keys seen
    since it last fired are the whole key set, with every key of the set under
    the session. *)
Theorem by_set_refines_session_spec (L : Layout) (f name : str) (ks : gset str)
    (l : list arrival) (s : str) :
  filter (for_session s) (run_trigger (BySetTrigger_new f name ks) l).2 =
  by_set_spec f ks ∅ s (key_ ∘ snd <$> filter (fun a => session_ a.2 = s) l).
Proof. apply by_set_new_run. Qed.

(** When the objects of a session are the keys of the set, each once and in
    any order, the trigger invokes its function exactly once for the session,
    however many objects of other sessions are interleaved with them. *)
Theorem by_set_fires_once (L : Layout) (f name : str) (ks : gset str) (l : list arrival) (s : str)
    (Hne : ks <> ∅)
    (Hround : key_ ∘ snd <$> filter (fun a => session_ a.2 = s) l ≡ₚ elements ks) :
  filter (for_session s) (run_trigger (BySetTrigger_new f name ks) l).2 =
  [mk_TriggerAction f ((fun key => (s, key)) <$> set_iter ks)].
Proof.
  rewrite by_set_new_run. apply by_set_spec_round.
  - rewrite Hround. apply NoDup_elements.
  - intros E. rewrite E in Hround. apply Permutation_nil in Hround.
    by apply Hne, leibniz_equiv, elements_empty_inv.
  - set_solver.
  - apply set_eq. intros k. rewrite elem_of_union, elem_of_list_to_set, Hround, elem_of_elements. set_solver.
Qed.

Definition bk3 (k s : str) : arrival := (0, mk_BucketKey (lit "b") k s).

Lemma by_set_fires_once_witness :
  filter (for_session (lit "s"))
    (@run_trigger layout_rev (BySetTrigger_new (lit "f") (lit "t") {[lit "x"; lit "y"]})
      [bk3 (lit "y") (lit "s"); bk3 (lit "x") (lit "r"); bk3 (lit "x") (lit "s")]).2 =
  [mk_TriggerAction (lit "f") ((fun key => (lit "s", key)) <$> @set_iter layout_rev _ _ _ {[lit "x"; lit "y"]})].
Proof.
  apply (by_set_fires_once layout_rev).
  - intros E. assert (lit "x" ∈ (∅ : gset str)) as Hx by (rewrite <- E; set_solver). set_solver.
  - assert (elements ({[lit "x"; lit "y"]} : gset str) = [lit "x"; lit "y"]
            \/ elements ({[lit "x"; lit "y"]} : gset str) = [lit "y"; lit "x"]) as [-> | ->]
      by (vm_compute; first [by left | by right]);
    change (key_ ∘ snd <$> _) with [lit "y"; lit "x"]; [apply Permutation_swap | done].
Defined.

(** C34: a [ByBatchSizeTrigger] with a positive count cuts the stream of objects
    into consecutive batches of exactly [count] objects: nothing is lost,
    duplicated or reordered, and fewer than [count] objects wait in the
    buffer. *)
Theorem by_batch_partitions_stream (L : Layout) (f name : str) (count : Z) (l : list arrival)
    (Hcount : 0 < count < 2 ^ 31) :
  exists buf cache acts,
    run_trigger (ByBatchSizeTrigger_new f name count) l =
      (mk_Trigger (mk_base f name BY_BATCH_SIZE) (ByBatchSize (mk_ByBatchSizeState count buf cache)), acts) /\
    concat (session_keys_ <$> acts) ++ buf = obj_of <$> l /\
    Forall (fun a => function_ a = f /\ Z.of_nat (length (session_keys_ a)) = count) acts /\
    Z.of_nat (length buf) < count.
Proof. apply (batch_run (mk_base f name BY_BATCH_SIZE) count [] ∅ l Hcount). simpl. lia. Qed.

Lemma by_batch_partitions_stream_witness :
  exists buf cache acts,
    @run_trigger layout_id (ByBatchSizeTrigger_new (lit "f") (lit "t") 2)
      [bk3 (lit "a") (lit "s"); bk3 (lit "b") (lit "s"); bk3 (lit "c") (lit "s")] =
      (mk_Trigger (mk_base (lit "f") (lit "t") BY_BATCH_SIZE) (ByBatchSize (mk_ByBatchSizeState 2 buf cache)), acts) /\
    concat (session_keys_ <$> acts) ++ buf =
      obj_of <$> [bk3 (lit "a") (lit "s"); bk3 (lit "b") (lit "s"); bk3 (lit "c") (lit "s")] /\
    Forall (fun a => function_ a = lit "f" /\ Z.of_nat (length (session_keys_ a)) = 2) acts /\
    Z.of_nat (length buf) < 2.
Proof. apply (by_batch_partitions_stream layout_id). lia. Defined.

(** A k-out-of-n [RedundantTrigger] with [0 < k < n] treats the stream as
    consecutive cycles of [n] objects and makes one invocation per cycle, with
    the first [k] objects of the cycle; the other [n - k] are dropped. *)
Theorem redundant_k_of_n_cycles (L : Layout) (f name : str) (k n : Z) (cycles : list (list arrival))
    (Hkn : 0 < k < n) (Hn : n < 2 ^ 32)
    (Hlen : Forall (fun l => Z.of_nat (length l) = n) cycles) :
  run_trigger (RedundantTrigger_new f name k n) (concat cycles) =
  (RedundantTrigger_new f name k n,
   (fun l => mk_TriggerAction f (take (Z.to_nat k) (obj_of <$> l))) <$> cycles).
Proof.
  apply (redundant_cycles (mk_base f name REDUNDANT)); [lia|lia|].
  eapply Forall_impl; [done|]. simpl. intros. lia.
Qed.

Lemma redundant_k_of_n_cycles_witness :
  @run_trigger layout_id (RedundantTrigger_new (lit "f") (lit "t") 1 2)
    (concat [[bk3 (lit "a") (lit "s"); bk3 (lit "b") (lit "s")]; [bk3 (lit "c") (lit "s"); bk3 (lit "d") (lit "s")]]) =
  (RedundantTrigger_new (lit "f") (lit "t") 1 2,
   (fun l => mk_TriggerAction (lit "f") (take (Z.to_nat 1) (obj_of <$> l))) <$>
     [[bk3 (lit "a") (lit "s"); bk3 (lit "b") (lit "s")]; [bk3 (lit "c") (lit "s"); bk3 (lit "d") (lit "s")]]).
Proof. apply (redundant_k_of_n_cycles layout_id); [lia|lia|]. repeat constructor. Defined.

(** With [k = n] a cycle is one object longer than [n]: the object after
    the [n]-th only resets the counter and is dropped, although all [n] objects
    of the round have already been consumed. *)
Theorem redundant_n_of_n_loses_object (L : Layout) (f name : str) (n : Z) (cycles : list (list arrival))
    (Hn : 0 < n) (Hw : n + 1 < 2 ^ 32)
    (Hlen : Forall (fun l => Z.of_nat (length l) = n + 1) cycles) :
  run_trigger (RedundantTrigger_new f name n n) (concat cycles) =
  (RedundantTrigger_new f name n n,
   (fun l => mk_TriggerAction f (take (Z.to_nat n) (obj_of <$> l))) <$> cycles).
Proof.
  apply (redundant_cycles (mk_base f name REDUNDANT)); [lia|lia|].
  eapply Forall_impl; [done|]. simpl. intros. lia.
Qed.

Lemma redundant_n_of_n_loses_object_witness :
  @run_trigger layout_id (RedundantTrigger_new (lit "f") (lit "t") 1 1)
    (concat [[bk3 (lit "a") (lit "s"); bk3 (lit "b") (lit "s")]]) =
  (RedundantTrigger_new (lit "f") (lit "t") 1 1,
   (fun l => mk_TriggerAction (lit "f") (take (Z.to_nat 1) (obj_of <$> l))) <$>
     [[bk3 (lit "a") (lit "s"); bk3 (lit "b") (lit "s")]]).
Proof. apply (redundant_n_of_n_loses_object layout_id); [lia|lia|]. repeat constructor. Defined.

(** C35: a round of a [DynamicGroupTrigger], data objects followed by the
    control keys of its control group in any order, makes one invocation per
    data group, all under the session of the last control key; together they
    carry every distinct data key exactly once, and the trigger is back in its
    initial state. *)
Theorem dynamic_group_round (L : Layout) (f name : str) (cg : gset str)
    (data ctrl : list arrival) (now : Z) (bk : BucketKey)
    (Hdata : Forall (fun a => group_of (key_ a.2) <> control_group_prefix) data)
    (Hctrl : Forall (fun a => group_of (key_ a.2) = control_group_prefix) (ctrl ++ [(now, bk)]))
    (Hround : key_ ∘ snd <$> (ctrl ++ [(now, bk)]) ≡ₚ elements cg) :
  exists acts groups,
    run_trigger (DynamicGroupTrigger_new f name cg) (data ++ ctrl ++ [(now, bk)]) =
      (DynamicGroupTrigger_new f name cg, acts) /\
    concat ((fun a => (session_keys_ a).*2) <$> acts) ≡ₚ remove_dups (key_ ∘ snd <$> data) /\
    NoDup groups /\
    Forall2 (fun g a => function_ a = f /\ session_keys_ a <> [] /\
        Forall (fun p => p.1 = session_ bk /\ group_of p.2 = g) (session_keys_ a)) groups acts.
Proof.
  assert (forall k, k ∈ cg <-> k ∈ key_ ∘ snd <$> (ctrl ++ [(now, bk)])) as Hin
    by (intros k; by rewrite Hround, elem_of_elements).
  assert (length (ctrl ++ [(now, bk)]) = size cg) as Hlen
    by (rewrite <- (length_fmap (key_ ∘ snd)), Hround; done).
  assert (NoDup (key_ ∘ snd <$> (ctrl ++ [(now, bk)]))) as Hnd by (rewrite Hround; apply NoDup_elements).
  rewrite fmap_app in Hnd, Hin. rewrite length_app in Hlen. simpl in Hlen.
  apply NoDup_app in Hnd as (Hnd1 & Hnd2 & _). apply Forall_app in Hctrl as [Hc1 Hc2].
  rewrite Forall_singleton in Hc2. simpl in Hc2.
  destruct (dg_data_run (mk_base f name DYNAMIC_GROUP) cg ∅ ∅ data Hdata) as (m & Hm & Hinv & Hst);
    [by intros ???|].
  exists (dg_flushed f (session_ bk) m), (map_iter m).*1.
  unfold DynamicGroupTrigger_new. fold (dyn_group (mk_base f name DYNAMIC_GROUP) cg ∅ ∅).
  rewrite run_trigger_app, Hm. cbn [fst snd]. rewrite run_trigger_app, dg_control_run; cycle 1.
  { apply Forall_forall. intros a Ha. rewrite Forall_forall in Hc1. split; [by apply Hc1|].
    apply Hin, elem_of_app. left. apply list_elem_of_fmap. by exists a. }
  { done. }
  { set_solver. }
  { rewrite size_empty. lia. }
  cbn [fst snd]. rewrite run_trigger_cons, dg_flush; cycle 1.
  { done. }
  { apply Hin. set_solver. }
  { rewrite union_empty_l_L, elem_of_list_to_set. intros Hk. by apply (Hnd2 _ Hk), list_elem_of_here. }
  { rewrite union_empty_l_L, size_list_to_set, length_fmap by done. lia. }
  split; [unfold dg_flushed; simpl; by rewrite app_nil_r|]. split; [|split].
  - apply NoDup_Permutation; [by apply NoDup_dg_flushed|apply NoDup_remove_dups|].
    intros k. rewrite elem_of_dg_flushed by done. rewrite Hst, elem_of_remove_dups.
    unfold dg_stored, at_or. rewrite lookup_empty. set_solver.
  - apply NoDup_fst_map_iter.
  - by apply dg_flushed_groups.
Qed.

Lemma dynamic_group_round_witness :
  exists acts groups,
    @run_trigger layout_id (DynamicGroupTrigger_new (lit "f") (lit "t") {[lit "ctrl:1"]})
      ([bk3 (lit "g:1") (lit "s"); bk3 (lit "g:2") (lit "s"); bk3 (lit "h:1") (lit "s")] ++ [] ++
       [bk3 (lit "ctrl:1") (lit "s")]) =
      (DynamicGroupTrigger_new (lit "f") (lit "t") {[lit "ctrl:1"]}, acts) /\
    concat ((fun a => (session_keys_ a).*2) <$> acts) ≡ₚ
      remove_dups (key_ ∘ snd <$> [bk3 (lit "g:1") (lit "s"); bk3 (lit "g:2") (lit "s"); bk3 (lit "h:1") (lit "s")]) /\
    NoDup groups /\
    Forall2 (fun g a => function_ a = lit "f" /\ session_keys_ a <> [] /\
        Forall (fun p => p.1 = lit "s" /\ group_of p.2 = g) (session_keys_ a)) groups acts.
Proof.
  apply (dynamic_group_round layout_id (lit "f") (lit "t") {[lit "ctrl:1"]}
    [bk3 (lit "g:1") (lit "s"); bk3 (lit "g:2") (lit "s"); bk3 (lit "h:1") (lit "s")] []
    0 (mk_BucketKey (lit "b") (lit "ctrl:1") (lit "s"))).
  - repeat constructor; vm_compute; congruence.
  - repeat constructor.
  - rewrite elements_singleton. done.
Defined.



(** A scheduler that rebuilds a trigger from the type and the serialized
    primitive a coordinator sends gets the coordinator's trigger with empty
    state: the same function, name, keys, counts and windows. *)
Theorem dump_gen_roundtrip (L : Layout) (P : PrimitiveCodecs) (now : Z) (t : Trigger)
    (Hwt : well_typed t) :
  gen_trigger_pointer now (get_type t) (get_trigger_name t) (dump_pritimive t) = Some (fresh now t).
Proof.
  destruct t as [b [s|s|s|s|s|s|s]]; unfold well_typed, fresh, dump_pritimive in *; simpl in *;
    unfold ImmediateTrigger_dump, ByNameTrigger_dump, ByBatchSizeTrigger_dump, BySetTrigger_dump,
      DynamicGroupTrigger_dump, RedundantTrigger_dump, ByTimeTrigger_dump;
    destruct_and?; match goal with E : get_type _ = _ |- _ => rewrite E end;
    unfold gen_trigger_pointer, get_trigger_name; simpl;
    rewrite parse_serialize; simpl; rewrite ?list_to_set_iter, ?i32_u32 by done; done.
Qed.

Lemma dump_gen_roundtrip_witness :
  @gen_trigger_pointer test_codecs 7 BY_BATCH_SIZE (lit "t")
    (@dump_pritimive layout_id test_codecs (ByBatchSizeTrigger_new (lit "f") (lit "t") 3)) =
  Some (ByBatchSizeTrigger_new (lit "f") (lit "t") 3).
Proof.
  apply (dump_gen_roundtrip layout_id test_codecs 7 (ByBatchSizeTrigger_new (lit "f") (lit "t") 3)).
  split; [done|]. vm_compute. split; congruence.
Defined.


(** Clearing a session of a [BySetTrigger] does not forget the source
    calls of that session: the entries are stored under key and session, and
    [clear] erases the session alone. After the coordinator has fired and
    cleared a session, a re-execution check still reports its sources. *)
Theorem by_set_clear_keeps_rerun_entries (L : Layout) (t : BySetState) (s : str)
    (Hkeys : [] ∉ bs_key_set t) :
  BySetTrigger_action_for_rerun (BySetTrigger_clear t s) s = BySetTrigger_action_for_rerun t s.
Proof.
  unfold BySetTrigger_action_for_rerun, BySetTrigger_clear. cbn [bs_func_key_map bs_key_set bs_cache].
  case_decide; [done|]. apply omap_ext_elem. intros k Hk%elem_of_set_iter.
  rewrite lookup_delete_ne; [done|]. intros E. apply Hkeys.
  destruct k as [|c k]; [done|]. apply (f_equal length) in E. rewrite length_app in E. simpl in E. lia.
Qed.

Lemma by_set_clear_keeps_rerun_entries_witness :
  let t := mk_BySetState {[lit "k"]} ∅ {[lit "src" := lit "k"]}
             {[lit "ks" := mk_TriggerFunctionMetadata (lit "src") [] 0]} in
  @BySetTrigger_action_for_rerun layout_id (BySetTrigger_clear t (lit "s")) (lit "s") =
  @BySetTrigger_action_for_rerun layout_id t (lit "s").
Proof.
  intros t. apply (by_set_clear_keeps_rerun_entries layout_id).
  intros Hin. change ([] ∈ ({[lit "k"]} : gset str)) in Hin.
  apply elem_of_singleton in Hin. done.
Defined.
