(* ===== verification/Coordinator.v ===== *)
(** The coordinator: [include/coordinator/coord_handlers.hpp] and
    [src/coordinator/*.cpp] apart from notifications and function calls, which
    have files of their own. One record holds the maps the thread's [run] owns;
    a handler takes it with a decoded message and returns the new state and the
    messages it pushed, in order, or the fault that ended it. *)
From stdpp Require Import prelude gmap strings list fin_sets.
From Stdlib Require Import ZArith Lia Ascii.
From S2P Require Import Prelude Cpp Proto Common Threads Trigger.

Open Scope Z_scope.

(** * Data *)
Record NodeStatus := mk_NodeStatus {
  tp_ : Z;
  avail_executors_ : Z;
  functions_ : gset str }.

(** What [node_status_map[ip]] creates for an unknown node. *)
Definition empty_NodeStatus := mk_NodeStatus 0 0 ∅.

(** [NodeStatus::update_status] *)
Definition NodeStatus_update_status (now avail_executors : Z) (functions : gset str) : NodeStatus :=
  mk_NodeStatus now avail_executors functions.

Record GetAddressResult := mk_GetAddressResult {
  error_ : KVSError;
  addr_ : gset str }.

Definition get_func_exec_address (ip : str) (io_thread : Z) : str :=
  lit "tcp://" ++ ip ++ lit ":" ++ to_string (u32 (funcExecPort + io_thread)).

Record coord := mk_coord {
  bucket_key_address_map : gmap str (gmap str (gset str));
  bucket_key_val_map : gmap str str;
  bucket_node_map : gmap str (gset str);
  bucket_triggers_map : gmap str (list Trigger);
  app_buckets_map : gmap str (gset str);
  bucket_app_map : gmap str str;
  node_status_map : gmap str NodeStatus;
  seed : Z }.

Definition coord_init (seed : Z) : coord := mk_coord ∅ ∅ ∅ ∅ ∅ ∅ ∅ seed.

Definition set_addresses f (c : coord) := mk_coord (f (bucket_key_address_map c)) (bucket_key_val_map c)
  (bucket_node_map c) (bucket_triggers_map c) (app_buckets_map c) (bucket_app_map c) (node_status_map c) (seed c).
Definition set_vals f (c : coord) := mk_coord (bucket_key_address_map c) (f (bucket_key_val_map c))
  (bucket_node_map c) (bucket_triggers_map c) (app_buckets_map c) (bucket_app_map c) (node_status_map c) (seed c).
Definition set_bucket_nodes f (c : coord) := mk_coord (bucket_key_address_map c) (bucket_key_val_map c)
  (f (bucket_node_map c)) (bucket_triggers_map c) (app_buckets_map c) (bucket_app_map c) (node_status_map c) (seed c).
Definition set_triggers f (c : coord) := mk_coord (bucket_key_address_map c) (bucket_key_val_map c)
  (bucket_node_map c) (f (bucket_triggers_map c)) (app_buckets_map c) (bucket_app_map c) (node_status_map c) (seed c).
Definition set_app_buckets f (c : coord) := mk_coord (bucket_key_address_map c) (bucket_key_val_map c)
  (bucket_node_map c) (bucket_triggers_map c) (f (app_buckets_map c)) (bucket_app_map c) (node_status_map c) (seed c).
Definition set_bucket_app f (c : coord) := mk_coord (bucket_key_address_map c) (bucket_key_val_map c)
  (bucket_node_map c) (bucket_triggers_map c) (app_buckets_map c) (f (bucket_app_map c)) (node_status_map c) (seed c).
Definition set_nodes f (c : coord) := mk_coord (bucket_key_address_map c) (bucket_key_val_map c)
  (bucket_node_map c) (bucket_triggers_map c) (app_buckets_map c) (bucket_app_map c) (f (node_status_map c)) (seed c).
Definition set_seed s (c : coord) := mk_coord (bucket_key_address_map c) (bucket_key_val_map c)
  (bucket_node_map c) (bucket_triggers_map c) (app_buckets_map c) (bucket_app_map c) (node_status_map c) s.

(** What a coordinator thread knows of itself. *)
Record coord_conf := mk_coord_conf {
  private_ip : str;
  thread_id : Z;
  io_thread_num : Z }.

(** What a coordinator sends, and where to. *)
Inductive coord_msg :=
  | BucketOpResp (m : BucketOperationResponse)
  | TriggerOpResp (m : TriggerOperationResponse)
  | UpdateCoord (m : UpdateCoordMsg)
  | QueryResp (m : KeyQueryResponse)
  | Call (m : FunctionCall)
  | CallResp (m : FunctionCallResponse).
Abbreviation out := (str * coord_msg)%type.

Definition trigger_update_address (ip : str) : str :=
  lit "tcp://" ++ ip ++ lit ":" ++ to_string TriggerUpdatePort.

(** The message to every known node. *)
Definition broadcast `{Layout} (c : coord) (m : UpdateCoordMsg) : list out :=
  (fun '(ip, _) => (trigger_update_address ip, UpdateCoord m)) <$> map_iter (node_status_map c).

(** * Addresses of objects *)
Definition update_address (bk : BucketKey) (addr : str) (c : coord) : coord :=
  set_addresses (fun m =>
    let keys := at_or ∅ (bucket_ bk) m in
    <[bucket_ bk := <[key_ bk := at_or ∅ (key_ bk) keys ∪ {[addr]}]> keys]> m) c.

Definition get_address (bk : BucketKey) (c : coord) : GetAddressResult :=
  match bucket_key_address_map c !! bucket_ bk with
  | Some keys =>
      match keys !! key_ bk with
      | Some addrs => mk_GetAddressResult SUCCESS addrs
      | None => mk_GetAddressResult KEY_NE ∅
      end
  | None => mk_GetAddressResult KEY_NE ∅
  end.

(** * Bucket operations *)
Definition create_bucket (app_name bucket_name : str) (c : coord) : coord :=
  set_bucket_app <[bucket_name := app_name]>
    (set_app_buckets (fun m => <[app_name := at_or ∅ app_name m ∪ {[bucket_name]}]> m) c).

(** The bucket leaves the application the request names, which need not be the
    one it was created for. *)
Definition delete_bucket (app_name bucket_name : str) (c : coord) : coord :=
  set_triggers (delete bucket_name)
    (set_bucket_app (delete bucket_name)
      (set_app_buckets (fun m => <[app_name := at_or ∅ app_name m ∖ {[bucket_name]}]> m) c)).

Definition bucket_op_handler (c : coord) (request : BucketOperationRequest) : coord * list out :=
  let bucket_name := bor_bucket_name request in
  let app_name := bor_app_name request in
  let exists_ := bool_decide (is_Some (bucket_app_map c !! bucket_name)) in
  let '(c', error) :=
    match bor_operation_type request with
    | CREATE_BUCKET =>
        if exists_ then (c, BUCKET_EXIST) else (create_bucket app_name bucket_name c, SUCCESS)
    | DELETE_BUCKET =>
        if exists_ then (delete_bucket app_name bucket_name c, SUCCESS) else (c, BUCKET_NE)
    | BOT_OTHER => (c, SUCCESS)
    end in
  (c', [(bor_response_address request,
         BucketOpResp (mk_BucketOperationResponse bucket_name (bor_request_id request) error))]).

(** * Trigger operations *)
Definition add_trigger (bucket_name : str) (t : Trigger) (c : coord) : coord :=
  set_triggers (fun m => <[bucket_name := at_or [] bucket_name m ++ [t]]> m) c.

Definition trigger_entity `{Layout, PrimitiveCodecs} (request : TriggerOperationRequest) (t : Trigger)
    : TriggerEntity :=
  mk_TriggerEntity (tor_bucket_name request) (tor_trigger_name request) (tor_trigger_option request)
    (tor_primitive_type request) (dump_pritimive t) [] (tor_hints request).

(** After an unknown primitive type the handler still asks the null pointer
    for its type. *)
Definition trigger_op_add `{Layout, PrimitiveCodecs} (now : Z) (c : coord)
    (request : TriggerOperationRequest) : res (coord * KVSError * list TriggerEntity * Z) :=
  let bucket_name := tor_bucket_name request in
  if bool_decide (is_Some (bucket_app_map c !! bucket_name)) then
    match gen_trigger_pointer now (tor_primitive_type request) (tor_trigger_name request) (tor_primitive request) with
    | Some t =>
        let t := set_trigger_option (tor_trigger_option request) t in
        let entities := if decide (get_type t = BY_TIME) then [] else [trigger_entity request t] in
        Ok (add_trigger bucket_name t c, SUCCESS, entities, 0)
    | None => Fault NullDeref
    end
  else Ok (c, BUCKET_NE, [], 0).

Definition trigger_op_delete (c : coord) (request : TriggerOperationRequest)
    : coord * KVSError * list TriggerEntity * Z :=
  let bucket_name := tor_bucket_name request in
  let trigger_name := tor_trigger_name request in
  if bool_decide (is_Some (bucket_app_map c !! bucket_name)) then
    let ts := at_or [] bucket_name (bucket_triggers_map c) in
    let kept := filter (fun t => get_trigger_name t <> trigger_name) ts in
    let c' := set_triggers <[bucket_name := kept]> c in
    if decide (length kept = length ts) then (c', SUCCESS, [], 0)
    else (c', SUCCESS, [mk_TriggerEntity bucket_name trigger_name 0 IMMEDIATE [] [] []], 2)
  else (c, BUCKET_NE, [], 0).

Definition trigger_op_handler `{Layout, PrimitiveCodecs} (conf : coord_conf) (now : Z) (c : coord)
    (request : TriggerOperationRequest) : res (coord * list out) :=
  '(c', error, entities, msg_type) ←
    match tor_operation_type request with
    | ADD_TRIGGER => trigger_op_add now c request
    | DELETE_TRIGGER => Ok (trigger_op_delete c request)
    | TOT_OTHER => Ok (c, SUCCESS, [], 0)
    end;
  let response := mk_TriggerOperationResponse (tor_bucket_name request) (tor_trigger_name request)
                    (tor_request_id request) error in
  let trigger_msg := mk_UpdateCoordMsg (private_ip conf) (thread_id conf) (tor_app_name request)
                       [] [] entities msg_type in
  Ok (c', (tor_response_address request, TriggerOpResp response) :: broadcast c' trigger_msg).

(** * Application registration *)
Definition dependency_number (t : DependencyType) : Z :=
  match t with DIRECT => 0 | MANY_TO_ONE => 1 | K_OUT_OF_N => 2 | PERIODIC => 3 | DT_OTHER => 4 end.

(** The name of the trigger a dependency makes. *)
Definition dependency_trigger_name (t : DependencyType) (tgt_function : str) : str :=
  lit "t_" ++ to_string (dependency_number t) ++ lit "_" ++ tgt_function.

Definition register_entity `{Layout, PrimitiveCodecs} (bucket_name : str) (t : Trigger) : TriggerEntity :=
  mk_TriggerEntity bucket_name (get_trigger_name t) (get_trigger_option t) (get_type t)
    (dump_pritimive t) [] [].

(** One dependency: the state, the direct dependencies and the trigger
    entities gathered so far. *)
Definition register_dependency `{Layout, PrimitiveCodecs} (now : Z) (app_name : str)
    (acc : coord * list DataDependency * list TriggerEntity) (dependency : DataDependency)
    : res (coord * list DataDependency * list TriggerEntity) :=
  let '(c, deps, entities) := acc in
  if decide (dd_type dependency = DIRECT) then Ok (c, deps ++ [dependency], entities)
  else
    tgt_function ← vec_at (dd_tgt_functions dependency) 0;
    let bucket_name := lit "b_" ++ tgt_function in
    let c := create_bucket app_name bucket_name c in
    match dd_type dependency with
    | MANY_TO_ONE =>
        let key_names : gset str := list_to_set ((fun f => lit "k_" ++ f) <$> dd_src_functions dependency) in
        let t := BySetTrigger_new tgt_function (dependency_trigger_name MANY_TO_ONE tgt_function) key_names in
        Ok (add_trigger bucket_name t c, deps, entities ++ [register_entity bucket_name t])
    | K_OUT_OF_N =>
        let metadata := split (dd_description dependency) ","%char in
        k ← (m ← vec_at metadata 0; stoi m);
        n ← (m ← vec_at metadata 1; stoi m);
        let t := RedundantTrigger_new tgt_function (dependency_trigger_name K_OUT_OF_N tgt_function) (u32 k) (u32 n) in
        Ok (add_trigger bucket_name t c, deps, entities ++ [register_entity bucket_name t])
    | PERIODIC =>
        time_window ← stoi (dd_description dependency);
        let t := ByTimeTrigger_new tgt_function (dependency_trigger_name PERIODIC tgt_function) (u32 time_window) now in
        Ok (add_trigger bucket_name t c, deps,
            entities ++ [mk_TriggerEntity bucket_name [] 0 IMMEDIATE [] [] []])
    | _ => Ok (c, deps, entities ++ [mk_TriggerEntity bucket_name [] 0 IMMEDIATE [] [] []])
    end.

Definition app_register_handler `{Layout, PrimitiveCodecs} (conf : coord_conf) (now : Z) (c : coord)
    (appRegist : AppRegistration) : res (coord * list out) :=
  '(c', deps, entities) ← foldM (register_dependency now (ar_app_name appRegist)) (c, [], [])
                            (ar_dependencies appRegist);
  let coord_msg := mk_UpdateCoordMsg (private_ip conf) (thread_id conf) (ar_app_name appRegist)
                     (ar_functions appRegist) deps entities 0 in
  Ok (c', broadcast c' coord_msg).

(** * Queries *)
Fixpoint query_loop (c : coord) (addresses : list BucketKeyAddress)
    : list (BucketKey * GetAddressResult) * KVSError :=
  match addresses with
  | [] => ([], SUCCESS)
  | address :: rest =>
      let bk := get_bucket_key_from_addr address in
      if bool_decide (is_Some (bucket_key_address_map c !! bucket_ bk)) then
        let r := get_address bk c in
        if decide (error_ r = SUCCESS) then
          let '(results, err) := query_loop c rest in ((bk, r) :: results, err)
        else ([(bk, r)], error_ r)
      else ([(bk, mk_GetAddressResult BUCKET_NE ∅)], BUCKET_NE)
  end.

Definition query_handler `{Layout} (c : coord) (request : KeyQueryRequest) : coord * list out :=
  let '(results, reported_error) := query_loop c (kqr_addresses request) in
  let addrs := (fun '(bk, r) =>
      let a := get_addr_from_bucket_key bk empty_BucketKeyAddress in
      if decide (reported_error = SUCCESS)
      then mk_BucketKeyAddress (bka_bucket a) (bka_key a) (bka_session a) (set_iter (addr_ r)) []
      else a) <$> results in
  (c, [(kqr_response_address request,
        QueryResp (mk_KeyQueryResponse addrs reported_error (kqr_request_id request)))]).

(** * Status updates *)
Definition update_status_handler (now : Z) (c : coord) (msg : UpdateStatusMessage) : coord :=
  let functions : gset str := list_to_set (usm_functions msg) in
  let avail_executors := i32 (usm_avail_executors msg) in
  set_nodes (fun m =>
    match m !! usm_ip msg with
    | Some _ => <[usm_ip msg := NodeStatus_update_status now avail_executors functions]> m
    | None => <[usm_ip msg := mk_NodeStatus now avail_executors functions]> m
    end) c.
