(* ===== verification/FuncCall.v ===== *)
(** The coordinator's placement of function calls:
    [src/coordinator/func_call_handler.cpp]. *)
From stdpp Require Import prelude gmap strings list fin_sets.
From Stdlib Require Import ZArith Lia Ascii.
From S2P Require Import Prelude Cpp Proto Common Threads Trigger Coordinator.

Open Scope Z_scope.

(** * The scan of the node table

    The running values of the loop: executors seen in all, the nodes that have
    any, the largest number and the node that has it. Executor counts are
    [int]s and their sum is taken to fit in one. *)
Record scan := mk_scan {
  total_executors : Z;
  avail_nodes : list (str * Z);
  max_executors : Z;
  node_with_max_executors : str }.

Definition scan_init : scan := mk_scan 0 [] 0 [].

(** The node that forwarded the call is skipped. *)
Definition skips (source ip : str) : bool :=
  bool_decide (source <> []) && bool_decide (source = ip).

Definition scan_node (source : str) (s : scan) (node : str * NodeStatus) : scan :=
  let '(ip, status) := node in
  if skips source ip then s
  else
    let avail := avail_executors_ status in
    let s1 := if 0 <? avail
              then mk_scan (total_executors s + avail) (avail_nodes s ++ [(ip, avail)])
                     (max_executors s) (node_with_max_executors s)
              else s in
    if max_executors s1 <? avail
    then mk_scan (total_executors s1) (avail_nodes s1) avail ip
    else s1.

Definition scan_nodes (source : str) (nodes : list (str * NodeStatus)) : scan :=
  foldl (scan_node source) scan_init nodes.

(** * Round-robin loads

    [while (avail_nodes[node_idx].second <= 0) node_idx = (node_idx + 1) % size]:
    [None] when no node has an executor left, where the loop does not end. *)
Fixpoint next_avail (fuel : nat) (avail : list Z) (node_idx : nat) : option nat :=
  match fuel with
  | O => None
  | S fuel =>
      match avail !! node_idx with
      | Some a =>
          if a <=? 0 then next_avail fuel avail (S node_idx mod length avail)%nat else Some node_idx
      | None => None
      end
  end.

Record rr := mk_rr { rr_avail : list Z; rr_loads : list Z; rr_idx : nat }.

(** One round of [for (i = 0; i < req_num; i++)]. The fuel of the inner loop is
    one turn around the nodes. *)
Definition rr_step (s : rr) : option rr :=
  i ← next_avail (length (rr_avail s)) (rr_avail s) (rr_idx s);
  Some (mk_rr (alter Z.pred i (rr_avail s)) (alter Z.succ i (rr_loads s))
          (S i mod length (rr_avail s))%nat).

Fixpoint rr_loop (req_num : nat) (s : rr) : option rr :=
  match req_num with
  | O => Some s
  | S n => s' ← rr_step s; rr_loop n s'
  end.

Definition node_loads (req_num : nat) (avail : list Z) : option (list Z) :=
  rr_loads <$> rr_loop req_num (mk_rr avail (replicate (length avail) 0) 0).

(** * Splitting the call

    The loop over the requests: those gathered for the current node, its index
    and its load so far. The call for a node takes the application and the
    response address of the original one, and no session. *)
Definition routed_call (app_name resp_address : str) (requests : list FunctionRequest) : FunctionCall :=
  mk_FunctionCall app_name requests [] [] resp_address [] true.

Fixpoint split_requests (loads : list Z) (nodes : list (str * Z)) (idx : nat) (cur_load : Z)
    (gathered requests : list FunctionRequest) : res (list (str * list FunctionRequest)) :=
  match requests with
  | [] => Ok []
  | req :: requests =>
      let gathered := gathered ++ [req] in
      let cur_load := cur_load + 1 in
      load ← vec_at loads idx;
      if cur_load =? load then
        node ← vec_at nodes idx;
        rest ← split_requests loads nodes (S idx) 0 [] requests;
        Ok ((node.1, gathered) :: rest)
      else split_requests loads nodes idx cur_load gathered requests
  end.

(** * The schedule: which node gets which call *)
Definition schedule_batch `{Layout} (c : coord) (call : FunctionCall) : res (gmap str FunctionCall) :=
  let requests := fc_requests call in
  let req_num := Z.of_nat (length requests) in
  let s := scan_nodes (fc_source call) (map_iter (node_status_map c)) in
  if req_num <=? max_executors s then Ok {[node_with_max_executors s := call]}
  else if req_num <=? total_executors s then
    match node_loads (length requests) (avail_nodes s).*2 with
    | Some loads =>
        parts ← split_requests loads (avail_nodes s) 0 0 [] requests;
        Ok (foldl (fun m '(ip, reqs) =>
                     <[ip := routed_call (fc_app_name call) (fc_resp_address call) reqs]> m) ∅ parts)
    | None => Fault Diverges
    end
  else Ok ∅.

Definition schedule_single `{Layout, Rand} (c : coord) (call : FunctionCall)
    : res (gmap str FunctionCall * Z) :=
  let s := scan_nodes (fc_source call) (map_iter (node_status_map c)) in
  if 0 <? max_executors s then Ok ({[node_with_max_executors s := call]}, seed c)
  else if decide (node_status_map c = ∅) then Ok (∅, seed c)
  else
    '(i, seed') ← rand_below (seed c) (size (node_status_map c));
    node ← vec_at (map_iter (node_status_map c)) i;
    Ok ({[node.1 := call]}, seed').

(** A call without a session gets a random one of 16 characters. *)
Definition with_session `{Rand} (c : coord) (call : FunctionCall) : coord * FunctionCall :=
  if decide (fc_session_id call = []) then
    let '(sid, seed') := gen_random (seed c) 16 in
    (set_seed seed' c,
     mk_FunctionCall (fc_app_name call) (fc_requests call) (fc_source call) (fc_request_id call)
       (fc_resp_address call) sid (fc_sync_data_status call))
  else (c, call).

(** The calls go out one per node, each to a random I/O thread of the node. *)
Fixpoint send_calls `{Rand} (conf : coord_conf) (seed : Z) (calls : list (str * FunctionCall))
    : res (list out * Z) :=
  match calls with
  | [] => Ok ([], seed)
  | (ip, call) :: calls =>
      '(io, seed) ← rand_below seed (Z.to_nat (io_thread_num conf));
      '(outs, seed) ← send_calls conf seed calls;
      Ok ((get_func_exec_address ip (Z.of_nat io), Call call) :: outs, seed)
  end.

Definition func_call_handler `{Layout, Rand} (conf : coord_conf) (c : coord) (call_msg : FunctionCall)
    : res (coord * list out) :=
  let '(c, call) := with_session c call_msg in
  '(scheduled, seed') ←
    (if decide (1 < length (fc_requests call))%nat
     then m ← schedule_batch c call; Ok (m, seed c)
     else schedule_single c call);
  let c := set_seed seed' c in
  if decide (scheduled = ∅) then
    Ok (c, if decide (fc_resp_address call = []) then []
           else [(fc_resp_address call,
                  CallResp (mk_FunctionCallResponse (fc_app_name call) (fc_request_id call) [] 1))])
  else
    '(outs, seed') ← send_calls conf (seed c) (map_iter scheduled);
    Ok (set_seed seed' c, outs).

(** * The scan finds what it looks for *)
Definition scan_inv (source : str) (seen : list (str * NodeStatus)) (s : scan) : Prop :=
  total_executors s = foldr Z.add 0 (avail_nodes s).*2 /\
  avail_nodes s = omap (fun '(ip, st) =>
      if skips source ip then None
      else if 0 <? avail_executors_ st then Some (ip, avail_executors_ st) else None) seen /\
  0 <= max_executors s /\
  (forall ip a, (ip, a) ∈ avail_nodes s -> a <= max_executors s) /\
  (0 < max_executors s -> (node_with_max_executors s, max_executors s) ∈ avail_nodes s).

Lemma foldr_add_app (l : list Z) x : foldr Z.add 0 (l ++ [x]) = foldr Z.add 0 l + x.
Proof. induction l; simpl; lia. Qed.

Lemma scan_node_inv source seen s node :
  scan_inv source seen s -> scan_inv source (seen ++ [node]) (scan_node source s node).
Proof.
  intros (Ht & Ha & Hm & Hle & Hmax). destruct node as [ip st]. unfold scan_node, scan_inv.
  rewrite omap_app. csimpl. destruct (skips source ip) eqn:Es.
  { rewrite app_nil_r. repeat split; auto. }
  destruct (0 <? avail_executors_ st) eqn:E0; bool_to_prop; cbn [max_executors].
  - destruct (max_executors s <? avail_executors_ st) eqn:E1; bool_to_prop;
      cbn [total_executors avail_nodes max_executors node_with_max_executors];
      rewrite fmap_app; csimpl; rewrite foldr_add_app, <- Ht, <- Ha; (split; [done|]; split; [done|]; split; [lia|]).
    + split; [|intros _; apply elem_of_app; right; left].
      intros ip' a [Hin|Hin]%elem_of_app; [apply Hle in Hin; lia|].
      apply list_elem_of_singleton in Hin. simplify_eq. lia.
    + split; [|intros H; apply elem_of_app; left; by apply Hmax].
      intros ip' a [Hin|Hin]%elem_of_app; [by apply Hle in Hin|].
      apply list_elem_of_singleton in Hin. by simplify_eq.
  - rewrite (proj2 (Z.ltb_ge _ _)) by lia. rewrite app_nil_r. repeat split; auto.
Qed.

Lemma scan_nodes_inv source nodes : scan_inv source nodes (scan_nodes source nodes).
Proof.
  unfold scan_nodes. induction nodes as [|node nodes IH] using rev_ind.
  - unfold scan_inv. simpl. repeat split; [lia|set_solver|lia].
  - rewrite foldl_app. by apply scan_node_inv.
Qed.

Lemma scan_avail_NoDup `{Layout} (source : str) (m : gmap str NodeStatus) :
  NoDup (avail_nodes (scan_nodes source (map_iter m))).*1.
Proof.
  destruct (scan_nodes_inv source (map_iter m)) as (_ & -> & _).
  pose proof (NoDup_fst_map_iter m) as Hnd. revert Hnd. generalize (map_iter m) as l.
  induction l as [|[ip st] l IH]; intros Hnd; [constructor|]. csimpl in *. inv Hnd.
  destruct (skips source ip); [by apply IH|]. destruct (0 <? avail_executors_ st); [|by apply IH].
  csimpl. constructor; [|by apply IH]. intros Hin. apply H2.
  apply list_elem_of_fmap in Hin as ([ip' a] & -> & Hin). apply list_elem_of_omap in Hin as ([ip'' st'] & Hin & E).
  destruct (skips source ip''); [done|]. destruct (0 <? avail_executors_ st'); simplify_eq.
  apply list_elem_of_fmap. by exists (ip', st').
Qed.

Lemma scan_avail_elem `{Layout} (source : str) (m : gmap str NodeStatus) (ip : str) (a : Z) :
  (ip, a) ∈ avail_nodes (scan_nodes source (map_iter m)) ->
  0 < a /\ skips source ip = false /\ exists st, m !! ip = Some st /\ avail_executors_ st = a.
Proof.
  destruct (scan_nodes_inv source (map_iter m)) as (_ & -> & _).
  intros ([ip' st] & Hin & E)%list_elem_of_omap. apply elem_of_map_iter in Hin.
  destruct (skips source ip') eqn:Es; [done|].
  destruct (0 <? avail_executors_ st) eqn:E0; simplify_eq. bool_to_prop. eauto.
Qed.
