(* ===== verification/FuncCallSpec.v ===== *)
(** The placement of a batch of requests is complete and respects capacities. *)
From stdpp Require Import prelude gmap strings list fin_sets.
From Stdlib Require Import ZArith Lia Ascii.
From S2P Require Import Prelude Cpp Proto Common Threads Trigger Coordinator FuncCall.

Open Scope Z_scope.

Abbreviation sum := (foldr Z.add 0).

(** * The inner loop *)
Lemma next_avail_none fuel avail idx :
  (idx < length avail)%nat -> next_avail fuel avail idx = None ->
  forall t, (t < fuel)%nat -> exists a, avail !! ((idx + t) mod length avail)%nat = Some a /\ a <= 0.
Proof.
  revert idx. induction fuel as [|fuel IH]; intros idx Hidx Hnone t Ht; [lia|].
  cbn [next_avail] in Hnone. destruct (lookup_lt_is_Some_2 avail idx Hidx) as [a Ha].
  rewrite Ha in Hnone. destruct (a <=? 0) eqn:E; bool_to_prop; [|done].
  destruct t as [|t].
  - exists a. rewrite Nat.add_0_r, Nat.mod_small by done. done.
  - destruct (IH (S idx mod length avail)%nat) with (t := t) as (a' & Ha' & Hle);
      [apply Nat.mod_upper_bound; lia|done|lia|].
    rewrite Nat.Div0.add_mod_idemp_l in Ha'. exists a'.
    by replace (idx + S t)%nat with (S idx + t)%nat by lia.
Qed.

Lemma next_avail_some fuel avail idx i :
  (idx < length avail)%nat -> next_avail fuel avail idx = Some i ->
  exists a, avail !! i = Some a /\ 0 < a.
Proof.
  revert idx. induction fuel as [|fuel IH]; intros idx Hidx H; [done|]. simpl in H.
  destruct (avail !! idx) as [a|] eqn:Ha; [|done]. destruct (a <=? 0) eqn:E; bool_to_prop.
  - eapply IH; [|done]. apply Nat.mod_upper_bound. lia.
  - simplify_eq. eauto.
Qed.

(** A turn around the nodes finds an executor if there is one. *)
Lemma next_avail_total avail idx :
  (idx < length avail)%nat -> 0 < sum avail -> exists i, next_avail (length avail) avail idx = Some i.
Proof.
  intros Hidx Hsum. destruct (next_avail _ avail idx) eqn:E; [eauto|]. exfalso.
  assert (Forall (fun a => a <= 0) avail) as Hall.
  { apply Forall_lookup. intros j a Hj. pose proof (lookup_lt_Some _ _ _ Hj) as Hlt.
    set (t := ((j + length avail - idx) mod length avail)%nat).
    destruct (next_avail_none _ _ _ Hidx E t) as (a' & Ha' & Hle); [apply Nat.mod_upper_bound; lia|].
    unfold t in Ha'. rewrite Nat.Div0.add_mod_idemp_r in Ha'.
    replace (idx + (j + length avail - idx))%nat with (j + 1 * length avail)%nat in Ha' by lia.
    rewrite Nat.Div0.mod_add, Nat.mod_small in Ha' by done. congruence. }
  clear -Hall Hsum. induction Hall; simpl in *; lia.
Qed.

Lemma sum_alter (f : Z -> Z) (d : Z) l i :
  (forall x, f x = x + d) -> (i < length l)%nat -> sum (alter f i l) = sum l + d.
Proof.
  intros Hf. revert i. induction l as [|x l IH]; intros i Hi; simpl in Hi; [lia|].
  destruct i as [|i]; [simpl; rewrite Hf; lia|].
  change (alter f (S i) (x :: l)) with (x :: alter f i l). cbn [foldr]. rewrite IH by lia. lia.
Qed.

(** * The loads after [i] requests *)
Record rr_inv (cap : list Z) (i : nat) (s : rr) : Prop := {
  ri_len_avail : length (rr_avail s) = length cap;
  ri_len_loads : length (rr_loads s) = length cap;
  ri_idx : (rr_idx s < length cap)%nat;
  ri_split : forall j c, cap !! j = Some c ->
    exists a l, rr_avail s !! j = Some a /\ rr_loads s !! j = Some l /\ a + l = c /\ 0 <= a /\ 0 <= l;
  ri_sum_avail : sum (rr_avail s) = sum cap - Z.of_nat i;
  ri_sum_loads : sum (rr_loads s) = Z.of_nat i;
  ri_first_turn : (i <= length cap)%nat ->
    rr_loads s = replicate i 1 ++ replicate (length cap - i) 0 /\ rr_idx s = (i mod length cap)%nat;
  ri_later : (length cap <= i)%nat -> Forall (fun l => 1 <= l) (rr_loads s) }.

Lemma sum_replicate_0 n : sum (replicate n 0) = 0.
Proof. induction n; simpl; lia. Qed.

Lemma rr_inv_init cap :
  (0 < length cap)%nat -> Forall (fun c => 0 < c) cap ->
  rr_inv cap 0 (mk_rr cap (replicate (length cap) 0) 0).
Proof.
  intros Hne Hpos. rewrite Forall_lookup in Hpos. split; simpl; try done.
  - by rewrite length_replicate.
  - intros j c Hj. exists c, 0. split; [done|]. split.
    + apply lookup_replicate. split; [done|]. by eapply lookup_lt_Some.
    + apply Hpos in Hj. lia.
  - lia.
  - apply sum_replicate_0.
  - intros _. split; [by rewrite Nat.sub_0_r|]. symmetry. by apply Nat.mod_small.
  - intros. lia.
Qed.

(** In the first turn every node still has its executors, so the index moves
    from node to node. *)
Lemma rr_first_turn_next cap i s :
  Forall (fun c => 0 < c) cap -> rr_inv cap i s -> (i < length cap)%nat ->
  next_avail (length (rr_avail s)) (rr_avail s) (rr_idx s) = Some i.
Proof.
  intros Hpos [] Hi. destruct ri_first_turn0 as [Hl Hidx]; [lia|].
  rewrite Nat.mod_small in Hidx by done. rewrite Hidx, ri_len_avail0.
  destruct (length cap) as [|n] eqn:En; [lia|]. cbn [next_avail].
  destruct (lookup_lt_is_Some_2 cap i ltac:(lia)) as [c Hc].
  destruct (ri_split0 i c Hc) as (a & l & Ha & Hll & Hal & _). rewrite Ha.
  rewrite Hl, lookup_app_r in Hll by (rewrite length_replicate; lia).
  apply lookup_replicate in Hll as [-> _]. rewrite Forall_lookup in Hpos. apply Hpos in Hc.
  by rewrite (proj2 (Z.leb_gt _ _)) by lia.
Qed.

Lemma alter_replicate_first i n :
  (i < n)%nat ->
  alter Z.succ i (replicate i 1 ++ replicate (n - i) 0) = replicate (S i) 1 ++ replicate (n - S i) 0.
Proof.
  intros Hi. rewrite alter_app_r_alt by (rewrite length_replicate; lia).
  rewrite length_replicate, Nat.sub_diag. destruct (n - i)%nat as [|m] eqn:E; [lia|].
  replace (n - S i)%nat with m by lia. rewrite (replicate_S_end i), <- app_assoc. done.
Qed.

Lemma rr_inv_step cap i s :
  Forall (fun c => 0 < c) cap -> rr_inv cap i s -> Z.of_nat i < sum cap ->
  exists s', rr_step s = Some s' /\ rr_inv cap (S i) s'.
Proof.
  intros Hpos Hs Hi. pose proof Hs as []. 
  destruct (next_avail_total (rr_avail s) (rr_idx s)) as [k Hk]; [lia|lia|].
  edestruct next_avail_some as (a & Ha & Hapos); [|exact Hk|]; [lia|].
  pose proof (lookup_lt_Some _ _ _ Ha) as Hklt.
  unfold rr_step. rewrite Hk. simpl. eexists. split; [done|]. split; simpl.
  - by rewrite length_alter.
  - by rewrite length_alter.
  - rewrite ri_len_avail0. apply Nat.mod_upper_bound. lia.
  - intros j c Hj. destruct (ri_split0 j c Hj) as (a' & l & Ha' & Hl & Hc & H0a & H0l).
    destruct (decide (k = j)) as [->|Hne].
    + rewrite !list_lookup_alter_eq, Ha', Hl. simpl. do 2 eexists. split; [done|]. split; [done|].
      rewrite Ha in Ha'. simplify_eq. lia.
    + rewrite !list_lookup_alter_ne by done. eauto 10.
  - rewrite (sum_alter _ (-1)) by (done || lia). lia.
  - rewrite (sum_alter _ 1) by (done || lia). lia.
  - intros Hle. rewrite (rr_first_turn_next cap i s) in Hk by (done || lia). injection Hk as <-.
    destruct ri_first_turn0 as [Hl _]; [lia|]. rewrite Hl, ri_len_avail0. split; [|done].
    apply alter_replicate_first. lia.
  - intros Hge. apply Forall_lookup. intros j l Hj.
    destruct (decide (length cap <= i)%nat) as [Hle|Hgt].
    + specialize (ri_later0 Hle). rewrite Forall_lookup in ri_later0.
      destruct (decide (k = j)) as [->|Hne].
      * rewrite list_lookup_alter_eq in Hj. destruct (rr_loads s !! j) as [l'|] eqn:El; [|done].
        apply ri_later0 in El. simplify_eq/=. lia.
      * rewrite list_lookup_alter_ne in Hj by done. by eapply ri_later0.
    + rewrite (rr_first_turn_next cap i s) in Hk by (done || lia). injection Hk as <-.
      destruct ri_first_turn0 as [Hl _]; [lia|]. rewrite Hl, alter_replicate_first in Hj by lia.
      replace (length cap - S i)%nat with O in Hj by lia. rewrite app_nil_r in Hj.
      apply lookup_replicate in Hj as [-> _]. lia.
Qed.

Lemma rr_loop_inv cap n i s :
  Forall (fun c => 0 < c) cap -> rr_inv cap i s -> Z.of_nat (i + n) <= sum cap ->
  exists s', rr_loop n s = Some s' /\ rr_inv cap (i + n) s'.
Proof.
  intros Hpos. revert i s. induction n as [|n IH]; intros i s Hs Hn.
  - exists s. by rewrite Nat.add_0_r.
  - destruct (rr_inv_step cap i s Hpos Hs) as (s1 & E & Hs1); [lia|]. simpl. rewrite E. simpl.
    destruct (IH (S i) s1 Hs1) as (s2 & E2 & Hs2); [lia|]. exists s2.
    by replace (i + S n)%nat with (S i + n)%nat by lia.
Qed.

(** The loads of [n] requests: positive up to some node, zero after it, within
    capacity, and [n] in all. *)
Lemma node_loads_spec cap n :
  (0 < length cap)%nat -> Forall (fun c => 0 < c) cap -> Z.of_nat n <= sum cap ->
  exists pos zeros, node_loads n cap = Some (pos ++ replicate zeros 0) /\
    (length pos + zeros = length cap)%nat /\ Forall (fun l => 0 < l) pos /\ sum pos = Z.of_nat n /\
    (forall j l c, pos !! j = Some l -> cap !! j = Some c -> l <= c).
Proof.
  intros Hne Hpos Hn. destruct (rr_loop_inv cap n 0 _ Hpos (rr_inv_init cap Hne Hpos)) as (s & E & Hs);
    [done|]. simpl in Hs. destruct Hs. unfold node_loads. rewrite E. simpl.
  assert (forall j l c, rr_loads s !! j = Some l -> cap !! j = Some c -> l <= c) as Hcap.
  { intros j l c Hl Hc. destruct (ri_split0 j c Hc) as (a & l' & _ & Hl' & ? & ? & _).
    rewrite Hl in Hl'. simplify_eq. lia. }
  destruct (decide (n <= length cap)%nat) as [Hle|Hgt].
  - destruct ri_first_turn0 as [Hl _]; [done|]. rewrite Hl in *.
    exists (replicate n 1), (length cap - n)%nat. split; [done|]. rewrite length_replicate.
    split; [lia|]. split; [by apply Forall_replicate|]. split.
    + clear. induction n; simpl; lia.
    + intros j l c Hj Hc. eapply Hcap; [|done]. by apply lookup_app_l_Some.
  - exists (rr_loads s), O. rewrite app_nil_r. split; [done|]. split; [lia|].
    split; [|split; [done|exact Hcap]]. eapply Forall_impl; [apply ri_later0; lia|]. simpl. lia.
Qed.

(** * Splitting the requests by loads *)
Fixpoint chunks {A} (loads : list Z) (l : list A) : list (list A) :=
  match loads with
  | [] => []
  | n :: loads => take (Z.to_nat n) l :: chunks loads (drop (Z.to_nat n) l)
  end.

Lemma sum_nonneg loads : Forall (fun n => 0 < n) loads -> 0 <= sum loads.
Proof. induction 1; simpl; lia. Qed.

Lemma concat_chunks {A} loads (l : list A) :
  Forall (fun n => 0 < n) loads -> sum loads = Z.of_nat (length l) -> concat (chunks loads l) = l.
Proof.
  intros Hpos. revert l. induction Hpos as [|n loads Hn Hpos IH]; intros l Hs; simpl in *.
  - by destruct l.
  - rewrite IH; [apply take_drop|]. rewrite length_drop. pose proof (sum_nonneg _ Hpos). lia.
Qed.

Lemma length_chunks {A} loads (l : list A) : length (chunks loads l) = length loads.
Proof. revert l. induction loads; intros l; simpl; auto. Qed.

Lemma chunks_lengths {A} loads (l : list A) :
  Forall (fun n => 0 < n) loads -> sum loads = Z.of_nat (length l) ->
  Forall2 (fun n ch => Z.of_nat (length ch) = n) loads (chunks loads l).
Proof.
  intros Hpos. revert l. induction Hpos as [|n loads Hn Hpos IH]; intros l Hs; simpl in *; constructor.
  - rewrite length_take. pose proof (sum_nonneg _ Hpos). lia.
  - apply IH. rewrite length_drop. pose proof (sum_nonneg _ Hpos). lia.
Qed.

(** The requests of one node are gathered until its load is reached. *)
Lemma split_requests_gather loads nodes idx node l gathered requests :
  loads !! idx = Some l -> nodes !! idx = Some node ->
  Z.of_nat (length gathered) < l -> l <= Z.of_nat (length gathered + length requests) ->
  split_requests loads nodes idx (Z.of_nat (length gathered)) gathered requests =
  rest ← split_requests loads nodes (S idx) 0 [] (drop (Z.to_nat l - length gathered) requests);
  Ok ((node.1, gathered ++ take (Z.to_nat l - length gathered) requests) :: rest).
Proof.
  intros Hl Hnode. revert gathered. induction requests as [|r rs IH]; intros g Hlt Hle.
  - simpl in Hle. lia.
  - cbn [split_requests]. unfold vec_at. rewrite Hl. cbn [res_of_option mbind res_bind].
    destruct (_ =? l) eqn:E; bool_to_prop.
    + rewrite Hnode. cbn [res_of_option mbind res_bind].
      replace (Z.to_nat l - length g)%nat with 1%nat by lia. done.
    + replace (Z.of_nat (length g) + 1) with (Z.of_nat (length (g ++ [r])))
        by (rewrite length_app; simpl; lia).
      rewrite IH by (rewrite length_app; simpl in *; lia). rewrite length_app. simpl length.
      destruct (Z.to_nat l - length g)%nat as [|m] eqn:Em; [lia|].
      replace (Z.to_nat l - (length g + 1))%nat with m by lia. simpl.
      by rewrite <- app_assoc.
Qed.

Lemma split_requests_spec pre pos zeros nodes requests :
  (length nodes = length pre + length pos + zeros)%nat ->
  Forall (fun n => 0 < n) pos -> sum pos = Z.of_nat (length requests) ->
  split_requests (pre ++ pos ++ replicate zeros 0) nodes (length pre) 0 [] requests =
  Ok (zip (drop (length pre) nodes).*1 (chunks pos requests)).
Proof.
  intros Hlen Hpos. revert pre requests Hlen.
  induction Hpos as [|l pos Hl Hpos IH]; intros pre requests Hlen Hsum.
  - simpl in Hsum. destruct requests; [|simpl in Hsum; lia]. simpl. by rewrite zip_with_nil_r.
  - simpl in *. pose proof (sum_nonneg _ Hpos).
    destruct (lookup_lt_is_Some_2 nodes (length pre)) as [node Hnode]; [lia|].
    change 0 with (Z.of_nat (length (@nil FunctionRequest))) at 2.
    rewrite (split_requests_gather _ _ _ node l); [|by rewrite list_lookup_middle|done|done|simpl; lia].
    simpl length. rewrite Nat.sub_0_r. specialize (IH (pre ++ [l]) (drop (Z.to_nat l) requests)).
    rewrite length_app, <- app_assoc, Nat.add_1_r in IH. simpl in IH.
    rewrite IH by (rewrite ?length_drop; lia). simpl.
    by rewrite (drop_S _ _ _ Hnode).
Qed.

(** * The batch branch of the handler *)
Definition parts_of (s : scan) (pos : list Z) (requests : list FunctionRequest)
    : list (str * list FunctionRequest) :=
  zip (avail_nodes s).*1 (chunks pos requests).

Lemma schedule_batch_split `{Layout} c call :
  let s := scan_nodes (fc_source call) (map_iter (node_status_map c)) in
  let n := Z.of_nat (length (fc_requests call)) in
  max_executors s < n <= total_executors s ->
  exists pos zeros,
    schedule_batch c call =
      Ok (foldl (fun m '(ip, reqs) =>
             <[ip := routed_call (fc_app_name call) (fc_resp_address call) reqs]> m) ∅
            (parts_of s pos (fc_requests call))) /\
    (length pos + zeros = length (avail_nodes s))%nat /\ Forall (fun l => 0 < l) pos /\ sum pos = n /\
    (forall j l c, pos !! j = Some l -> (avail_nodes s).*2 !! j = Some c -> l <= c).
Proof.
  intros s n [Hmax Htot]. unfold schedule_batch. fold s. fold n.
  destruct (scan_nodes_inv (fc_source call) (map_iter (node_status_map c))) as (Ht & _ & Hm & _).
  fold s in Ht, Hm. rewrite (proj2 (Z.leb_gt _ _)), (proj2 (Z.leb_le _ _)) by lia.
  destruct (node_loads_spec (avail_nodes s).*2 (length (fc_requests call)))
    as (pos & zeros & -> & Hlen & Hpos & Hsum & Hcap).
  - destruct (avail_nodes s); simpl in *; lia.
  - apply Forall_forall. intros a Ha. apply list_elem_of_fmap in Ha as ([ip a'] & -> & Hin).
    by apply scan_avail_elem in Hin as [? _].
  - fold n. lia.
  - rewrite length_fmap in Hlen. pose proof (split_requests_spec [] pos zeros (avail_nodes s) (fc_requests call)) as Hs.
    simpl in Hs. rewrite Hs; [|lia|done|fold n; lia]. simpl. exists pos, zeros. split; [|done]. unfold parts_of. by rewrite drop_0.
Qed.

Lemma foldl_insert_list_to_map {A B} (f : A -> B) (l : list (str * A)) (m : gmap str B) :
  NoDup l.*1 ->
  foldl (fun m '(k, a) => <[k := f a]> m) m l = list_to_map (prod_map id f <$> l) ∪ m.
Proof.
  revert m. induction l as [|[k a] l IH]; intros m Hnd; csimpl; [by rewrite map_empty_union|].
  inv Hnd. rewrite IH by done. rewrite <- insert_union_r.
  - by rewrite insert_union_l.
  - apply not_elem_of_list_to_map_1. rewrite <- list_fmap_compose.
    by rewrite (list_fmap_ext _ fst) by (by intros i []).
Qed.
