(* ===== verification/CallClaims.v ===== *)
(** What the placement of function calls guarantees
    ([src/coordinator/func_call_handler.cpp]). *)
From stdpp Require Import prelude gmap strings list fin_sets.
From Stdlib Require Import ZArith Lia Ascii.
From S2P Require Import Prelude Cpp Proto Common Threads Trigger Coordinator FuncCall FuncCallSpec.

Open Scope Z_scope.

(** A message to one of the I/O threads of a node. *)
Definition sent_to (conf : coord_conf) (ip : str) (call : FunctionCall) (o : out) : Prop :=
  exists io, 0 <= io < io_thread_num conf /\ o = (get_func_exec_address ip io, Call call).

(** A node the scheduler may use for a call: not the one that forwarded it. *)
Definition eligible (c : coord) (call : FunctionCall) (ip : str) (avail : Z) : Prop :=
  skips (fc_source call) ip = false /\
  exists st, node_status_map c !! ip = Some st /\ avail_executors_ st = avail.

Lemma send_calls_spec `{Rand} conf s calls :
  0 < io_thread_num conf ->
  exists outs s', send_calls conf s calls = Ok (outs, s') /\
    Forall2 (fun '(ip, call) o => sent_to conf ip call o) calls outs.
Proof.
  intros Hio. revert s. induction calls as [|[ip call] calls IH]; intros s; [by do 2 eexists|].
  cbn [send_calls].
  destruct (rand_below_ok s (Z.to_nat (io_thread_num conf))) as (io & s1 & E); [lia|].
  pose proof (rand_below_lt _ _ _ _ E). rewrite E. cbn [mbind res_bind].
  destruct (IH s1) as (outs & s2 & -> & Hall). cbn [mbind res_bind]. do 2 eexists. split; [done|].
  constructor; [|done]. exists (Z.of_nat io). split; [lia|done].
Qed.

(** The call a handler works on: the received one, with a session. *)
Lemma with_session_spec `{Rand} c m :
  let '(c', call) := with_session c m in
  node_status_map c' = node_status_map c /\ fc_session_id call <> [] /\
  fc_requests call = fc_requests m /\ fc_source call = fc_source m /\ fc_app_name call = fc_app_name m /\
  fc_resp_address call = fc_resp_address m /\ fc_request_id call = fc_request_id m /\
  (fc_session_id m <> [] -> call = m).
Proof.
  unfold with_session. case_decide as Hs; [|done].
  pose proof (length_gen_random (seed c) 16) as Hl. destruct (gen_random (seed c) 16) as [sid s'].
  simpl in *. repeat split; try done. intros ->. done.
Qed.

Lemma map_iter_singleton `{Layout} {V} (k : str) (v : V) : map_iter {[k := v]} = [(k, v)].
Proof.
  unfold map_iter. apply Permutation_singleton_r. by rewrite order_perm, map_to_list_singleton.
Qed.

Lemma singleton_ne_empty {V} (k : str) (v : V) : ({[k := v]} : gmap str V) <> ∅.
Proof. intros E. pose proof (lookup_singleton_eq k v : ({[k := v]} : gmap str V) !! k = Some v) as H. by rewrite E, lookup_empty in H. Qed.

(** The best node of a scan is eligible and no eligible node beats it. *)
Lemma scan_best `{Layout} c (call : FunctionCall) :
  let s := scan_nodes (fc_source call) (map_iter (node_status_map c)) in
  (0 < max_executors s -> eligible c call (node_with_max_executors s) (max_executors s)) /\
  (forall ip a, eligible c call ip a -> a <= max_executors s).
Proof.
  intros s. pose proof (scan_nodes_inv (fc_source call) (map_iter (node_status_map c))) as (_ & Ha & Hm & Hle & Hmax).
  fold s in Ha, Hm, Hle, Hmax. split.
  - intros Hpos. apply Hmax, scan_avail_elem in Hpos as (_ & Hs & Hst). by split.
  - intros ip a (Hs & st & Hst & <-). destruct (Z.lt_ge_cases 0 (avail_executors_ st)); [|lia].
    apply (Hle ip). rewrite Ha. apply list_elem_of_omap. exists (ip, st).
    rewrite elem_of_map_iter, Hs. split; [done|]. by rewrite (proj2 (Z.ltb_lt _ _)).
Qed.

Lemma sum_elem_le (l : list Z) x : Forall (fun a => 0 <= a) l -> x ∈ l -> x <= foldr Z.add 0 l.
Proof.
  intros Hl. revert x. induction Hl as [|a l Ha Hl IH]; intros x; [by intros ?%not_elem_of_nil|].
  assert (0 <= foldr Z.add 0 l) by (clear -Hl; induction Hl; simpl; lia).
  intros [->|Hx]%elem_of_cons; simpl; [lia|]. apply IH in Hx. lia.
Qed.

(** * Splitting a batch *)
(** A part of a split batch fits in the free executors of its node. *)
Definition part_fits (c : coord) (call : FunctionCall) (part : str * list FunctionRequest) : Prop :=
  part.2 <> [] /\ exists avail, eligible c call part.1 avail /\ Z.of_nat (length part.2) <= avail.

Lemma eligible_session `{Rand} c m ip a :
  let '(c', call) := with_session c m in eligible c' call ip a <-> eligible c m ip a.
Proof.
  pose proof (with_session_spec c m) as Hs. destruct (with_session c m) as [c' call].
  destruct Hs as (Hn & _ & _ & Hsrc & _). unfold eligible. by rewrite Hn, Hsrc.
Qed.

Lemma parts_fit `{Layout} c (call : FunctionCall) pos zeros :
  let s := scan_nodes (fc_source call) (map_iter (node_status_map c)) in
  (length pos + zeros = length (avail_nodes s))%nat -> Forall (fun l => 0 < l) pos ->
  sum pos = Z.of_nat (length (fc_requests call)) ->
  (forall j l a, pos !! j = Some l -> (avail_nodes s).*2 !! j = Some a -> l <= a) ->
  Forall (part_fits c call) (parts_of s pos (fc_requests call)).
Proof.
  intros s Hlen Hpos Hsum Hcap. apply Forall_lookup. intros j [ip reqs] Hj. unfold parts_of in Hj.
  apply lookup_zip_with_Some in Hj as (ip' & reqs' & [= <- <-] & Hip & Hreqs).
  pose proof (chunks_lengths pos (fc_requests call) Hpos Hsum) as Hl.
  pose proof (Forall2_lookup_r _ _ _ _ _ Hl Hreqs) as (l & Hpl & Hlen').
  rewrite Forall_lookup in Hpos. specialize (Hpos _ _ Hpl).
  rewrite list_lookup_fmap in Hip. apply fmap_Some in Hip as ([ip2 a] & Ha & ->).
  split; simpl; [intros ->; simpl in *; lia|]. exists a.
  assert ((avail_nodes s).*2 !! j = Some a) as Ha2 by (by rewrite list_lookup_fmap, Ha).
  specialize (Hcap _ _ _ Hpl Ha2). apply list_elem_of_lookup_2, scan_avail_elem in Ha as (_ & Hs & Hst).
  split; [by split|lia].
Qed.

Lemma fst_zip_take {A B} (l : list A) (k : list B) : (zip l k).*1 = take (length k) l.
Proof. revert k. induction l as [|a l IH]; intros [|b k]; csimpl; [done..|]. by rewrite IH. Qed.

Lemma parts_NoDup `{Layout} c (call : FunctionCall) pos :
  NoDup (parts_of (scan_nodes (fc_source call) (map_iter (node_status_map c))) pos (fc_requests call)).*1.
Proof.
  unfold parts_of. rewrite fst_zip_take. eapply sublist_NoDup; [apply scan_avail_NoDup|apply sublist_take].
Qed.

Definition split_call (call : FunctionCall) (reqs : list FunctionRequest) : FunctionCall :=
  routed_call (fc_app_name call) (fc_resp_address call) reqs.

Lemma foldl_parts_iter `{Layout} (call : FunctionCall) (parts : list (str * list FunctionRequest)) :
  NoDup parts.*1 ->
  map_iter (foldl (fun m '(ip, reqs) =>
      <[ip := routed_call (fc_app_name call) (fc_resp_address call) reqs]> m) ∅ parts)
  ≡ₚ prod_map id (split_call call) <$> parts.
Proof.
  intros Hnd. unfold map_iter. rewrite order_perm.
  rewrite (foldl_insert_list_to_map (split_call call)) by done. rewrite map_union_empty.
  apply map_to_list_to_map. rewrite <- list_fmap_compose.
  by rewrite (list_fmap_ext _ fst) by (by intros i []).
Qed.

(** C2: a batch that no single node can take but all eligible nodes together can
    is cut into consecutive parts, one message per node: every request is
    sent exactly once and in order within its part, no node gets two parts, the
    node that forwarded the batch gets none, and no part exceeds the node's
    free executors. *)
Theorem batch_split_complete (L : Layout) (R : Rand) (conf : coord_conf) (c : coord) (m : FunctionCall)
    (Hio : 0 < io_thread_num conf)
    (Hmany : (1 < length (fc_requests m))%nat)
    (Hone : forall ip avail, eligible c m ip avail -> avail < Z.of_nat (length (fc_requests m)))
    (Htotal : Z.of_nat (length (fc_requests m)) <=
              total_executors (scan_nodes (fc_source m) (map_iter (node_status_map c)))) :
  exists c' outs parts order,
    func_call_handler conf c m = Ok (c', outs) /\
    concat parts.*2 = fc_requests m /\ NoDup parts.*1 /\ Forall (part_fits c m) parts /\
    order ≡ₚ parts /\
    Forall2 (fun '(ip, reqs) o => sent_to conf ip (split_call m reqs) o) order outs.
Proof.
  unfold func_call_handler. pose proof (with_session_spec c m) as Hs.
  destruct (with_session c m) as [c1 call]. destruct Hs as (Hn & _ & Hreq & Hsrc & Happ & Hresp & _).
  destruct (decide (1 < length (fc_requests call))%nat) as [_|Hn1]; [|rewrite Hreq in Hn1; lia].
  destruct (schedule_batch_split c1 call) as (pos & zeros & -> & Hlen & Hpos & Hsum & Hcap).
  { rewrite Hn, Hsrc, Hreq. split; [|done].
    destruct (scan_best c m) as [Hb _]. destruct (scan_nodes_inv (fc_source m) (map_iter (node_status_map c))) as (_ & _ & H0 & _).
    destruct (decide (0 < max_executors (scan_nodes (fc_source m) (map_iter (node_status_map c))))); [eauto|lia]. }
  cbn [mbind res_bind]. rewrite Hn, Hsrc, Hreq in *.
  set (s := scan_nodes (fc_source m) (map_iter (node_status_map c))) in *.
  set (parts := parts_of s pos (fc_requests m)).
  assert (NoDup parts.*1) as Hnd by apply parts_NoDup.
  assert (concat parts.*2 = fc_requests m) as Hcat.
  { unfold parts, parts_of. rewrite snd_zip by (rewrite length_chunks, length_fmap; lia).
    apply concat_chunks; [done|lia]. }
  pose proof (foldl_parts_iter call parts Hnd) as Hperm.
  rewrite decide_False; cycle 1.
  { intros E. rewrite E in Hperm. unfold map_iter in Hperm. rewrite order_perm, map_to_list_empty in Hperm.
    apply Permutation_nil in Hperm. destruct parts; [|done]. simpl in Hcat. rewrite <- Hcat in Hmany. simpl in Hmany. lia. }
  match goal with |- context [send_calls conf ?s ?l] => destruct (send_calls_spec conf s l Hio) as (outs & s' & -> & Hall) end.
  cbn [mbind res_bind].
  apply Permutation_map_inv in Hperm as (ord & Hord & Hp).
  exists (set_seed s' (set_seed (seed c1) c1)), outs, parts, ord. split; [done|].
  do 2 (split; [done|]). split; [|split; [done|]].
  - apply (parts_fit c m pos zeros); [done..|exact Hcap].
  - rewrite Hord in Hall. apply Forall2_fmap_l in Hall. eapply Forall2_impl; [exact Hall|].
    intros [ip reqs] o. unfold split_call. simpl. by rewrite Happ, Hresp.
Qed.

Definition two_nodes : coord :=
  set_nodes (fun _ => {[lit "n1" := mk_NodeStatus 0 2 ∅; lit "n2" := mk_NodeStatus 0 1 ∅]}) (coord_init 7).
Definition conf1 : coord_conf := mk_coord_conf (lit "10.0.0.1") 0 1.
Definition req (f : string) : FunctionRequest := mk_FunctionRequest (lit f) [].
Definition batch3 : FunctionCall :=
  mk_FunctionCall (lit "app") [req "f"; req "g"; req "h"] [] (lit "1") (lit "resp") [] true.

Lemma batch_split_complete_witness :
  exists c' outs parts order,
    @func_call_handler layout_id rand_lcg conf1 two_nodes batch3 = Ok (c', outs) /\
    concat parts.*2 = fc_requests batch3 /\ NoDup parts.*1 /\ Forall (part_fits two_nodes batch3) parts /\
    order ≡ₚ parts /\
    Forall2 (fun '(ip, reqs) o => sent_to conf1 ip (split_call batch3 reqs) o) order outs.
Proof.
  apply (batch_split_complete layout_id rand_lcg conf1 two_nodes batch3); [done|simpl; lia| |by vm_compute].
  intros ip avail (_ & st & Hst & <-). cbn in Hst.
  apply lookup_insert_Some in Hst as [[_ <-]|[_ [_ <-]%lookup_singleton_Some]]; simpl; lia.
Defined.

(** A call that fits in one node goes, whole and with a session, in one
    message to an eligible node with the most free executors: a batch whose
    size the best node can take, or a single request while any eligible node
    has a free executor. *)
Theorem call_goes_to_best_node (L : Layout) (R : Rand) (conf : coord_conf) (c : coord) (m : FunctionCall)
    (ip0 : str) (avail0 : Z)
    (Hio : 0 < io_thread_num conf)
    (Helig : eligible c m ip0 avail0)
    (Hfits : Z.max 1 (Z.of_nat (length (fc_requests m))) <= avail0) :
  exists c' o ip avail call,
    func_call_handler conf c m = Ok (c', [o]) /\ sent_to conf ip call o /\
    eligible c m ip avail /\ avail0 <= avail /\
    (forall ip' avail', eligible c m ip' avail' -> avail' <= avail) /\
    fc_requests call = fc_requests m /\ fc_session_id call <> [] /\ (fc_session_id m <> [] -> call = m).
Proof.
  unfold func_call_handler. pose proof (with_session_spec c m) as Hs. pose proof (eligible_session c m) as Hel.
  destruct (with_session c m) as [c1 call]. destruct Hs as (Hn & Hsid & Hreq & Hsrc & _ & _ & _ & Hsame).
  destruct (scan_best c1 call) as [Hbest Hle].
  set (s := scan_nodes (fc_source call) (map_iter (node_status_map c1))) in *.
  assert (avail0 <= max_executors s) as Hmax by (by apply (Hle ip0), Hel).
  assert ((if decide (1 < length (fc_requests call))%nat
           then m ← schedule_batch c1 call; Ok (m, seed c1) else schedule_single c1 call) =
          Ok ({[node_with_max_executors s := call]}, seed c1)) as ->.
  { case_decide.
    - unfold schedule_batch. fold s. by rewrite Hreq, (proj2 (Z.leb_le _ _)) by lia.
    - unfold schedule_single. fold s. by rewrite (proj2 (Z.ltb_lt _ _)) by lia. }
  cbn [mbind res_bind]. rewrite decide_False by apply singleton_ne_empty. rewrite map_iter_singleton.
  match goal with |- context [send_calls conf ?s ?l] => destruct (send_calls_spec conf s l Hio) as (outs & s' & -> & Hall) end.
  cbn [mbind res_bind]. apply Forall2_cons_inv_l in Hall as (o & outs' & Ho & Hnil & ->). inv Hnil.
  do 2 eexists. exists (node_with_max_executors s), (max_executors s), call. split; [done|]. split; [done|].
  split; [apply Hel, Hbest; lia|]. split; [done|]. split; [|done]. intros ip' a Ha. by apply (Hle ip'), Hel.
Qed.

Lemma call_goes_to_best_node_witness :
  exists c' o ip avail call,
    @func_call_handler layout_rev rand_lcg conf1 two_nodes
      (mk_FunctionCall (lit "app") [req "f"] (lit "n1") [] [] [] true) = Ok (c', [o]) /\
    sent_to conf1 ip call o /\
    eligible two_nodes (mk_FunctionCall (lit "app") [req "f"] (lit "n1") [] [] [] true) ip avail /\ 1 <= avail /\
    (forall ip' avail', eligible two_nodes (mk_FunctionCall (lit "app") [req "f"] (lit "n1") [] [] [] true) ip' avail' ->
       avail' <= avail) /\
    fc_requests call = [req "f"] /\ fc_session_id call <> [] /\
    (([] : str) <> [] -> call = mk_FunctionCall (lit "app") [req "f"] (lit "n1") [] [] [] true).
Proof.
  apply (call_goes_to_best_node layout_rev rand_lcg conf1 two_nodes
    (mk_FunctionCall (lit "app") [req "f"] (lit "n1") [] [] [] true) (lit "n2") 1); [done| |done].
  split; [done|]. exists (mk_NodeStatus 0 1 ∅). done.
Defined.

(** A batch larger than what all eligible nodes have free is not placed, in
    part or in whole: the handler answers the caller, if it left an address,
    with error 1 and the call's request id, and changes no node's status. *)
Theorem oversized_batch_refused (L : Layout) (R : Rand) (conf : coord_conf) (c : coord) (m : FunctionCall)
    (Hmany : (1 < length (fc_requests m))%nat)
    (Htotal : total_executors (scan_nodes (fc_source m) (map_iter (node_status_map c)))
              < Z.of_nat (length (fc_requests m))) :
  exists c', func_call_handler conf c m =
    Ok (c', if decide (fc_resp_address m = []) then []
            else [(fc_resp_address m,
                   CallResp (mk_FunctionCallResponse (fc_app_name m) (fc_request_id m) [] 1))]) /\
    node_status_map c' = node_status_map c.
Proof.
  unfold func_call_handler. pose proof (with_session_spec c m) as Hs.
  destruct (with_session c m) as [c1 call]. destruct Hs as (Hn & _ & Hreq & Hsrc & Happ & Hresp & Hid & _).
  destruct (decide (1 < length (fc_requests call))%nat) as [_|Hn1]; [|rewrite Hreq in Hn1; lia].
  destruct (scan_nodes_inv (fc_source m) (map_iter (node_status_map c))) as (Ht & _ & _ & _ & Hmax).
  assert (max_executors (scan_nodes (fc_source m) (map_iter (node_status_map c)))
          < Z.of_nat (length (fc_requests m))) as Hlt.
  { destruct (decide (0 < max_executors (scan_nodes (fc_source m) (map_iter (node_status_map c))))) as [Hp|]; [|lia].
    eapply Z.le_lt_trans; [|exact Htotal]. rewrite Ht. apply Hmax, list_elem_of_fmap_2 with (f := snd) in Hp. simpl in Hp.
    apply sum_elem_le; [|done]. apply Forall_forall. intros a Ha.
    apply list_elem_of_fmap in Ha as ([ip a'] & -> & Hin). apply scan_avail_elem in Hin as [? _]. simpl. lia. }
  unfold schedule_batch. rewrite Hn, Hsrc, Hreq, (proj2 (Z.leb_gt _ _)), (proj2 (Z.leb_gt _ _)) by done.
  cbn [mbind res_bind]. rewrite decide_True by done. rewrite Happ, Hresp, Hid. by eexists.
Qed.

Lemma oversized_batch_refused_witness :
  exists c', @func_call_handler layout_id rand_lcg conf1 (coord_init 3) batch3 =
    Ok (c', [(lit "resp", CallResp (mk_FunctionCallResponse (lit "app") (lit "1") [] 1))]) /\
    node_status_map c' = ∅.
Proof. apply (oversized_batch_refused layout_id rand_lcg conf1 (coord_init 3) batch3); [simpl; lia|done]. Defined.
