(* ===== verification/Notify.v ===== *)
(** The coordinator's handling of put notifications:
    [src/coordinator/notify_handler.cpp]. A worker reports a new object, where
    it is and which triggers already fired there; the coordinator records the
    location, runs its own copies of the triggers, and invokes what they
    request unless the worker has done so. *)
From stdpp Require Import prelude gmap strings list fin_sets.
From Stdlib Require Import ZArith Lia Ascii.
From S2P Require Import Prelude Cpp Proto Common Threads Trigger Coordinator.

Open Scope Z_scope.

Definition batchDelim : str := lit "|".

(** [ip.substr(6, ip.find(":", 6) - 6)]: the host of [tcp://host:port]. *)
Definition node_ip (addr : str) : res str :=
  substr 6 ((fun i => (i - 6)%nat) <$> find_from ":"%char 6 addr) addr.

(** * Where an object is *)
Definition record_location (bk : BucketKey) (addr : str) (c : coord) : res coord :=
  ip ← node_ip addr;
  Ok (update_address bk addr
       (set_bucket_nodes (fun m => <[bucket_ bk := at_or ∅ (bucket_ bk) m ∪ {[ip]}]> m) c)).

(** [None] when the object has no payload and its bucket is unknown: the
    handler stops at that object. *)
Definition record_object (bk : BucketKey) (addr payload : str) (c : coord) : res (option coord) :=
  if decide (payload = []) then
    if bool_decide (is_Some (bucket_app_map c !! bucket_ bk))
    then Some <$> record_location bk addr c
    else Ok None
  else
    c ← record_location bk addr c;
    Ok (Some (set_vals <[shm_key_name bk := payload]> c)).

(** * The call an action makes *)
Definition object_names (bk : BucketKey) (a : TriggerAction) : list str :=
  (fun '(session, key) => get_local_object_name (bucket_ bk) key session) <$> session_keys_ a.

(** The payloads of the action's objects, if the coordinator has all of them. *)
Definition batched_values (bk : BucketKey) (a : TriggerAction) (c : coord) : option (list str) :=
  mapM (fun name => bucket_key_val_map c !! name) (object_names bk a).

(** Each value followed by the delimiter. *)
Definition implode (vals : list str) : str := concat ((fun v => v ++ batchDelim) <$> vals).

(** One argument per object, located by one of its addresses, and the nodes
    that hold the objects. Looking an unknown key up creates it without
    addresses, and there is none to take. *)
Fixpoint located_args `{Layout} (bk : BucketKey) (arg_flag : Z) (sks : list (str * str)) (c : coord)
    : res (list Argument * gset str * coord) :=
  match sks with
  | [] => Ok ([], ∅, c)
  | (session, key) :: sks =>
      let c := set_addresses (fun m =>
                 <[bucket_ bk := touch ∅ key (at_or ∅ (bucket_ bk) m)]> m) c in
      data_address ← deref_begin (set_iter (at_or ∅ key (at_or ∅ (bucket_ bk) (bucket_key_address_map c))));
      ip ← node_ip data_address;
      '(args, nodes, c) ← located_args bk arg_flag sks c;
      Ok (mk_Argument (get_local_object_name (bucket_ bk) key session) (u32 arg_flag) data_address :: args,
          nodes ∪ {[ip]}, c)
  end.

Definition action_args `{Layout} (bk : BucketKey) (arg_flag : Z) (a : TriggerAction) (c : coord)
    : res (list Argument * gset str * coord) :=
  match batched_values bk a c with
  | Some vals => Ok ([mk_Argument (implode vals) 0 []], ∅, c)
  | None => located_args bk arg_flag (session_keys_ a) c
  end.

(** * Routing

    The node with the most free executors among those that hold data, then
    among all; a node is taken only if it has more than the best so far, which
    starts at zero. *)
Definition better (best : Z * str) (ip : str) (avail : Z) : Z * str :=
  if best.1 <? avail then (avail, ip) else best.

Definition route_to_data (nodes : list str) (m : gmap str NodeStatus) : (Z * str) * gmap str NodeStatus :=
  foldl (fun '(best, m) ip =>
           let m := touch empty_NodeStatus ip m in
           (better best ip (avail_executors_ (at_or empty_NodeStatus ip m)), m)) ((0, []), m) nodes.

Definition route `{Layout} (data_node : gset str) (m : gmap str NodeStatus) : str * gmap str NodeStatus :=
  let '(best, m) := route_to_data (set_iter data_node) m in
  if decide (best.2 = []) then
    ((foldl (fun best '(ip, st) => better best ip (avail_executors_ st)) best (map_iter m)).2, m)
  else (best.2, m).

Definition decr_avail (st : NodeStatus) : NodeStatus :=
  mk_NodeStatus (tp_ st) (avail_executors_ st - 1) (functions_ st).

(** One action of a trigger that fired. *)
Definition invoke_action `{Layout, Rand} (conf : coord_conf) (resp_address : str) (bk : BucketKey)
    (arg_flag : Z) (c : coord) (a : TriggerAction) : res (coord * list out) :=
  let app_name := at_or [] (bucket_ bk) (bucket_app_map c) in
  let c := set_bucket_app (touch [] (bucket_ bk)) c in
  '(args, data_node, c) ← action_args bk arg_flag a c;
  let internalCall := mk_FunctionCall app_name [mk_FunctionRequest (function_ a) args] [] []
                        resp_address (session_ bk) true in
  let '(routed_worker, nodes) := route data_node (node_status_map c) in
  let c := set_nodes (fun _ => nodes) c in
  if decide (routed_worker = []) then Ok (c, [])
  else
    '(io, seed') ← rand_below (seed c) (Z.to_nat (io_thread_num conf));
    Ok (set_seed seed' (set_nodes (alter decr_avail routed_worker) c),
        [(get_func_exec_address routed_worker (Z.of_nat io), Call internalCall)]).

Fixpoint invoke_actions `{Layout, Rand} (conf : coord_conf) (resp_address : str) (bk : BucketKey)
    (arg_flag : Z) (c : coord) (actions : list TriggerAction) : res (coord * list out) :=
  match actions with
  | [] => Ok (c, [])
  | a :: actions =>
      '(c, outs) ← invoke_action conf resp_address bk arg_flag c a;
      '(c, outs') ← invoke_actions conf resp_address bk arg_flag c actions;
      Ok (c, outs ++ outs')
  end.

(** * The triggers of the object's bucket

    Every trigger sees the object; one the worker reports as active is then
    skipped. The names of those that fired here are gathered. *)
Fixpoint check_triggers `{Layout, Rand} (conf : coord_conf) (now : Z) (resp_address : str)
    (active : gset str) (bk : BucketKey) (c : coord) (ts : list Trigger)
    : res (coord * list Trigger * list str * list out) :=
  match ts with
  | [] => Ok (c, [], [], [])
  | t :: ts =>
      let '(actions, t') := action_for_new_object now t bk in
      '(c, fired, outs) ←
        (if bool_decide (get_trigger_name t ∈ active) then Ok (c, [], [])
         else
           let arg_flag := get_trigger_option t + 1 in
           match actions with
           | [] => Ok (c, [], [])
           | _ =>
               '(c, outs) ← invoke_actions conf resp_address bk arg_flag c actions;
               Ok (c, if decide (get_type t = BY_TIME) then [] else [get_trigger_name t], outs)
           end);
      '(c, ts', fired', outs') ← check_triggers conf now resp_address active bk c ts;
      Ok (c, t' :: ts', fired ++ fired', outs ++ outs')
  end.

(** The nodes of the bucket are told to clear the triggers that fired. *)
Definition sync_msg (bk : BucketKey) (fired : list str) : UpdateCoordMsg :=
  mk_UpdateCoordMsg [] 0 [] [] []
    ((fun name => mk_TriggerEntity (bucket_ bk) name 0 IMMEDIATE [] (session_ bk) []) <$> fired) 1.

Definition sync_nodes `{Layout} (bk : BucketKey) (fired : list str) (c : coord) : list out :=
  match fired with
  | [] => []
  | _ => (fun ip => (trigger_update_address ip, UpdateCoord (sync_msg bk fired)))
           <$> set_iter (at_or ∅ (bucket_ bk) (bucket_node_map c))
  end.

(** * The handler *)
Fixpoint notify_objects `{Layout, Rand} (conf : coord_conf) (now : Z) (resp_address : str)
    (active : gset str) (c : coord) (addresses : list BucketKeyAddress) : res (coord * list out) :=
  match addresses with
  | [] => Ok (c, [])
  | address :: addresses =>
      let bk := get_bucket_key_from_addr address in
      ip ← vec_at (bka_ips address) 0;
      r ← record_object bk ip (bka_payload address) c;
      match r with
      | None => Ok (c, [])
      | Some c =>
          '(c, ts, fired, outs) ← check_triggers conf now resp_address active bk c
                                    (at_or [] (bucket_ bk) (bucket_triggers_map c));
          let c := set_triggers <[bucket_ bk := ts]> c in
          '(c', outs') ← notify_objects conf now resp_address active c addresses;
          Ok (c', outs ++ sync_nodes bk fired c ++ outs')
      end
  end.

Definition notify_handler `{Layout, Rand} (conf : coord_conf) (now : Z) (c : coord)
    (request : KeyNotifyRequest) : res (coord * list out) :=
  notify_objects conf now (knr_response_address request) (list_to_set (knr_active_trigger_names request))
    c (knr_addresses request).
