(* ===== verification/CoordLoop.v ===== *)
(** The coordinator's event loop ([run] of [src/coordinator/coordinator.cpp]):
    one iteration polls the sockets and serves at most one message of each, in
    a fixed order. *)
From stdpp Require Import prelude gmap strings list fin_sets.
From Stdlib Require Import ZArith Lia Ascii.
From S2P Require Import Prelude Cpp Proto Common Threads Trigger TriggerSpec Coordinator FuncCall Notify.

Open Scope Z_scope.

(** The addresses a coordinator thread binds. *)
Definition coord_binds (ip : str) (tid : Z) : list str :=
  let ht := new_HandlerThread ip tid in
  let ot := new_OperationThread ip tid in
  [ht_notify_handler_bind_address ht; ht_key_query_handler_bind_address ht;
   ot_bucket_op_bind_address ot; ot_trigger_op_bind_address ot;
   ht_update_handler_bind_address ht; ot_func_create_bind_address ot;
   ot_app_regist_bind_address ot; ot_func_call_bind_address ot; ht_forward_func_bind_address ht].

(** What the sockets hold when polled. The message of the function-creation
    socket is received and dropped. *)
Inductive coord_event :=
  | EvNotify (m : KeyNotifyRequest)
  | EvQuery (m : KeyQueryRequest)
  | EvBucketOp (m : BucketOperationRequest)
  | EvTriggerOp (m : TriggerOperationRequest)
  | EvUpdate (m : UpdateStatusMessage)
  | EvFuncCreate
  | EvAppRegist (m : AppRegistration)
  | EvCall (m : FunctionCall).

Definition coord_handle `{Layout, Rand, PrimitiveCodecs} (conf : coord_conf) (now : Z) (c : coord)
    (e : coord_event) : res (coord * list out) :=
  match e with
  | EvNotify m => notify_handler conf now c m
  | EvQuery m => Ok (query_handler c m)
  | EvBucketOp m => Ok (bucket_op_handler c m)
  | EvTriggerOp m => trigger_op_handler conf now c m
  | EvUpdate m => Ok (update_status_handler now c m, [])
  | EvFuncCreate => Ok (c, [])
  | EvAppRegist m => app_register_handler conf now c m
  | EvCall m => func_call_handler conf c m
  end.

Record polled := mk_polled {
  p_notify : option KeyNotifyRequest;
  p_query : option KeyQueryRequest;
  p_bucket_op : option BucketOperationRequest;
  p_trigger_op : option TriggerOperationRequest;
  p_update : option UpdateStatusMessage;
  p_func_create : option str;
  p_app_regist : option AppRegistration;
  p_call : option FunctionCall;
  p_forward : option FunctionCall }.

(** The messages of one iteration, in the order they are served. *)
Definition poll_events (p : polled) : list coord_event :=
  option_list (EvNotify <$> p_notify p) ++ option_list (EvQuery <$> p_query p) ++
  option_list (EvBucketOp <$> p_bucket_op p) ++ option_list (EvTriggerOp <$> p_trigger_op p) ++
  option_list (EvUpdate <$> p_update p) ++ option_list ((fun _ => EvFuncCreate) <$> p_func_create p) ++
  option_list (EvAppRegist <$> p_app_regist p) ++ option_list (EvCall <$> p_call p) ++
  option_list (EvCall <$> p_forward p).

Fixpoint coord_serve `{Layout, Rand, PrimitiveCodecs} (conf : coord_conf) (now : Z) (c : coord)
    (es : list coord_event) : res (coord * list out) :=
  match es with
  | [] => Ok (c, [])
  | e :: es =>
      '(c, outs) ← coord_handle conf now c e;
      '(c, outs') ← coord_serve conf now c es;
      Ok (c, outs ++ outs')
  end.

Definition coord_iteration `{Layout, Rand, PrimitiveCodecs} (conf : coord_conf) (now : Z) (c : coord)
    (p : polled) : res (coord * list out) :=
  coord_serve conf now c (poll_events p).

(** The loop, iteration by iteration: the time and the messages of each. *)
Fixpoint coord_run `{Layout, Rand, PrimitiveCodecs} (conf : coord_conf) (c : coord)
    (history : list (Z * polled)) : res (coord * list out) :=
  match history with
  | [] => Ok (c, [])
  | (now, p) :: history =>
      '(c, outs) ← coord_iteration conf now c p;
      '(c, outs') ← coord_run conf c history;
      Ok (c, outs ++ outs')
  end.

(** * Keys a trigger holds

    The keys of the objects a trigger has kept for a later invocation. *)
Definition held (t : Trigger) (k : str) : Prop :=
  match sub t with
  | Immediate _ | ByName _ => False
  | ByBatchSize s => k ∈ (bb_buffer s).*2
  | BySet s => exists sess X, bs_prepared s !! sess = Some X /\ k ∈ X
  | DynamicGroup s => exists g X, dg_data s !! g = Some X /\ k ∈ X
  | Redundant s => k ∈ (rd_buffer s).*2
  | ByTime s => k ∈ (bt_buffer s).*2
  end.

Definition trigger_wf (t : Trigger) : Prop :=
  match sub t with BySet s => by_set_inv s | _ => True end.

(** Membership in the short lists the triggers build. *)
Ltac solve_keys :=
  intros;
  repeat match goal with
  | H : _ ∈ [] |- _ => by apply not_elem_of_nil in H
  | H : _ ∈ [_] |- _ => apply list_elem_of_singleton in H; subst
  | H : context [(_ ++ _).*2] |- _ => rewrite fmap_app in H
  | H : _ ∈ _ ++ _ |- _ => apply elem_of_app in H as [H|H]
  | _ => progress csimpl in *
  end; tauto.

(** A trigger that is told of an object keeps and mentions only keys it held
    or the object's own. *)
Lemma action_keys `{Layout} now t bk :
  trigger_wf t ->
  let '(acts, t') := action_for_new_object now t bk in
  trigger_wf t' /\
  (forall k, held t' k -> held t k \/ k = key_ bk) /\
  (forall a k, a ∈ acts -> k ∈ (session_keys_ a).*2 -> held t k \/ k = key_ bk).
Proof.
  intros Hwf. destruct t as [b [s|s|s|s|s|s|s]]; unfold action_for_new_object, trigger_wf, held in *; simpl in *.
  - split; [done|]. split; [done|]. solve_keys.
  - split; [done|]. split; [done|]. unfold ByNameTrigger_action. case_decide; solve_keys.
  - unfold ByBatchSizeTrigger_action. destruct (_ <=? _); simpl; split; try done; split;
      solve_keys.
  - pose proof (by_set_action_inv b s bk Hwf) as Hwf'. revert Hwf'.
    pose proof (by_set_complete s (session_ bk) (key_ bk) Hwf) as Hc.
    unfold BySetTrigger_action. case_decide as Hk; [|simpl; intros; split; [done|]; split; solve_keys].
    case_decide as Hs; simpl; intros Hwf'; (split; [done|]; split).
    + intros k (sess & X & HX & HkX). rewrite delete_insert_eq in HX.
      apply lookup_delete_Some in HX as [_ HX]. left. eauto.
    + intros a k ->%list_elem_of_singleton Hin. simpl in Hin. rewrite <- list_fmap_compose in Hin.
      apply list_elem_of_fmap in Hin as (k' & -> & Hin). simpl. apply elem_of_set_iter in Hin.
      apply Hc in Hs; [|done]. rewrite <- Hs in Hin. apply elem_of_union in Hin as [Hin|Hin]; [|set_solver].
      unfold at_or in Hin. destruct (bs_prepared s !! session_ bk) as [X|] eqn:E; simpl in Hin; [eauto|set_solver].
    + intros k (sess & X & HX & HkX). apply lookup_insert_Some in HX as [[<- <-]|[_ HX]]; [|eauto].
      apply elem_of_union in HkX as [HkX|HkX]; [|set_solver].
      unfold at_or in HkX. destruct (bs_prepared s !! session_ bk) as [X|] eqn:E; simpl in HkX; [eauto|set_solver].
    + solve_keys.
  - unfold DynamicGroupTrigger_action. case_decide as Hg; [case_decide as Hs|]; simpl; (split; [done|]).
    + split; [intros k (g & X & HX & _); by rewrite lookup_empty in HX|].
      intros a k Ha Hk. apply list_elem_of_fmap in Ha as ([g X] & -> & HgX). simpl in Hk.
      rewrite <- list_fmap_compose in Hk. apply list_elem_of_fmap in Hk as (k' & -> & Hk').
      apply elem_of_map_iter in HgX. apply elem_of_set_iter in Hk'. eauto.
    + split; [eauto|solve_keys].
    + split; [|solve_keys]. intros k (g & X & HX & HkX).
      apply lookup_insert_Some in HX as [[<- <-]|[_ HX]]; [|eauto].
      apply elem_of_union in HkX as [HkX|HkX]; [|set_solver].
      unfold at_or in HkX. destruct (dg_data s !! _) as [X|] eqn:E; simpl in HkX; [eauto|set_solver].
  - unfold RedundantTrigger_action. destruct (_ <=? _); [destruct (_ =? _)|destruct (_ <=? _)]; simpl;
      split; try done; split; solve_keys.
  - unfold ByTimeTrigger_action. destruct (_ <=? _); simpl; split; try done; split;
      solve_keys.
Qed.
