(* ===== verification/CoordInv.v ===== *)
(** The coordinator's invariant: every key a trigger holds has a known
    location. It is what keeps the notification handler from dereferencing an
    empty set of addresses. *)
From stdpp Require Import prelude gmap strings list fin_sets.
From Stdlib Require Import ZArith Lia Ascii.
From S2P Require Import Prelude Cpp Proto Common Threads Trigger TriggerSpec Coordinator FuncCall FuncCallSpec Notify CoordLoop.

Open Scope Z_scope.

Definition located (c : coord) (b k : str) : Prop :=
  exists keys addrs, bucket_key_address_map c !! b = Some keys /\ keys !! k = Some addrs.

(** Recorded address sets are not empty, and a host can be read from each
    address. *)
Definition addresses_wf (c : coord) : Prop :=
  forall b keys k addrs, bucket_key_address_map c !! b = Some keys -> keys !! k = Some addrs ->
    addrs <> ∅ /\ forall a, a ∈ addrs -> is_ok (node_ip a).

Definition triggers_ok (c : coord) (b : str) (ts : list Trigger) : Prop :=
  Forall (fun t => trigger_wf t /\ forall k, held t k -> located c b k) ts.

Definition coord_inv (c : coord) : Prop :=
  addresses_wf c /\ forall b ts, bucket_triggers_map c !! b = Some ts -> triggers_ok c b ts.

(** The fields the invariant reads. *)
Definition same_view (c c' : coord) : Prop :=
  bucket_key_address_map c' = bucket_key_address_map c /\ bucket_triggers_map c' = bucket_triggers_map c.

#[export] Instance same_view_equiv : Equivalence same_view.
Proof.
  split.
  - by intros c.
  - by intros c c' [].
  - intros c1 c2 c3 [E1 E2] [E3 E4]. split; congruence.
Qed.

#[export] Instance located_proper : Proper (same_view ==> eq ==> eq ==> iff) located.
Proof. intros c c' [E _] b ? <- k ? <-. unfold located. by rewrite E. Qed.

#[export] Instance addresses_wf_proper : Proper (same_view ==> iff) addresses_wf.
Proof. intros c c' [E _]. unfold addresses_wf. by rewrite E. Qed.

#[export] Instance triggers_ok_proper : Proper (same_view ==> eq ==> eq ==> iff) triggers_ok.
Proof.
  intros c c' E b ? <- ts ? <-. unfold triggers_ok. rewrite !Forall_forall.
  split; intros Hx t Ht; destruct (Hx t Ht) as [Hwf Hh]; (split; [done|]); intros k Hk.
  - rewrite <- E. auto.
  - rewrite E. auto.
Qed.

#[export] Instance coord_inv_proper : Proper (same_view ==> iff) coord_inv.
Proof.
  intros c c' E. unfold coord_inv. rewrite E.
  pose proof E as [_ Et]. rewrite Et. split; intros [Ha Ht]; (split; [done|]); intros b ts Hb.
  - rewrite <- E. auto.
  - rewrite E. auto.
Qed.

(** * Recording a location *)
Lemma located_record bk addr c c' b k :
  record_location bk addr c = Ok c' ->
  located c' b k <-> located c b k \/ (b = bucket_ bk /\ k = key_ bk).
Proof.
  unfold record_location. destruct (node_ip addr) as [ip|]; [|done]. intros [=<-].
  unfold located, update_address, set_addresses, set_bucket_nodes. cbn [bucket_key_address_map].
  unfold at_or. split.
  - intros (keys & addrs & Hb & Hk). apply lookup_insert_Some in Hb as [[<- <-]|[Hne Hb]]; [|eauto 10].
    apply lookup_insert_Some in Hk as [[<- <-]|[Hne Hk]]; [by right|]. left.
    destruct (bucket_key_address_map c !! bucket_ bk) as [m|] eqn:E; simpl in Hk; [eauto|].
    by rewrite lookup_empty in Hk.
  - intros [(keys & addrs & Hb & Hk)|[-> ->]].
    + destruct (decide (bucket_ bk = b)) as [<-|Hne].
      * rewrite Hb. simpl. destruct (decide (key_ bk = k)) as [<-|Hne'].
        -- do 2 eexists. rewrite lookup_insert_eq. split; [done|]. by rewrite lookup_insert_eq.
        -- do 2 eexists. rewrite lookup_insert_eq. split; [done|]. by rewrite lookup_insert_ne.
      * exists keys, addrs. by rewrite lookup_insert_ne.
    + do 2 eexists. rewrite lookup_insert_eq. split; [done|]. by rewrite lookup_insert_eq.
Qed.

Lemma addresses_wf_record bk addr c c' :
  addresses_wf c -> record_location bk addr c = Ok c' -> addresses_wf c'.
Proof.
  unfold record_location. intros Hwf. destruct (node_ip addr) as [ip|] eqn:Eip; [|done]. intros [=<-].
  intros b keys k addrs. unfold update_address, set_addresses, set_bucket_nodes.
  cbn [bucket_key_address_map]. intros Hb Hk.
  apply lookup_insert_Some in Hb as [[<- <-]|[Hne Hb]]; [|by eapply Hwf].
  assert (forall k addrs, at_or ∅ (bucket_ bk) (bucket_key_address_map c) !! k = Some addrs ->
            addrs <> ∅ /\ forall a, a ∈ addrs -> is_ok (node_ip a)) as Hold.
  { unfold at_or. intros k' addrs' Hk'. destruct (bucket_key_address_map c !! bucket_ bk) as [m|] eqn:E;
      simpl in Hk'; [by eapply Hwf|]. by rewrite lookup_empty in Hk'. }
  apply lookup_insert_Some in Hk as [[<- <-]|[Hne Hk]]; [|by eapply Hold].
  split; [set_solver|]. intros a [Ha| ->%elem_of_singleton]%elem_of_union; [|by exists ip].
  unfold at_or at 1 in Ha. destruct (at_or ∅ (bucket_ bk) _ !! key_ bk) as [s|] eqn:E; simpl in Ha; [|set_solver].
  by eapply Hold.
Qed.

Lemma record_location_triggers bk addr c c' :
  record_location bk addr c = Ok c' -> bucket_triggers_map c' = bucket_triggers_map c.
Proof. unfold record_location. destruct (node_ip addr); [|done]. by intros [=<-]. Qed.

Lemma triggers_ok_mono (c c' : coord) b ts :
  (forall k, located c b k -> located c' b k) -> triggers_ok c b ts -> triggers_ok c' b ts.
Proof. intros Hl Hts. eapply Forall_impl; [exact Hts|]. naive_solver. Qed.

Lemma coord_inv_record bk addr c c' :
  coord_inv c -> record_location bk addr c = Ok c' -> coord_inv c'.
Proof.
  intros [Ha Ht] E. split; [by eapply addresses_wf_record|]. intros b ts.
  rewrite (record_location_triggers _ _ _ _ E). intros Hb. eapply triggers_ok_mono; [|by apply Ht].
  intros k Hk. rewrite located_record by done. by left.
Qed.

(** * Building a call *)
Lemma set_addresses_id f c : f (bucket_key_address_map c) = bucket_key_address_map c -> set_addresses f c = c.
Proof. destruct c. unfold set_addresses. simpl. congruence. Qed.

Lemma deref_begin_iter `{Layout} (X : gset str) :
  X <> ∅ -> exists a, deref_begin (set_iter X) = Ok a /\ a ∈ X.
Proof.
  intros Hne. destruct (set_iter X) as [|a l] eqn:E.
  - exfalso. apply Hne, leibniz_equiv, size_empty_inv. rewrite <- length_set_iter, E. done.
  - exists a. split; [done|]. rewrite <- elem_of_set_iter, E. left.
Qed.

Lemma located_args_ok `{Layout} bk arg_flag sks c :
  addresses_wf c -> (forall k, k ∈ sks.*2 -> located c (bucket_ bk) k) ->
  exists args nodes, located_args bk arg_flag sks c = Ok (args, nodes, c).
Proof.
  intros Hwf. induction sks as [|[s k] sks IH]; intros Hl; [by do 2 eexists|].
  cbn [located_args]. destruct (Hl k) as (keys & addrs & Hb & Hk); [left|].
  rewrite (set_addresses_id _ c); cycle 1.
  { unfold at_or. rewrite Hb. simpl. unfold touch. rewrite Hk. by rewrite insert_id. }
  unfold at_or at 1. unfold at_or at 1. rewrite Hb. simpl. rewrite Hk. simpl.
  destruct (Hwf _ _ _ _ Hb Hk) as [Hne Hok]. destruct (deref_begin_iter addrs Hne) as (a & -> & Ha). simpl.
  destruct (Hok a Ha) as [ip ->]. simpl.
  destruct IH as (args & nodes & ->); [|simpl; by do 2 eexists].
  intros k' Hk'. apply Hl. csimpl. by right.
Qed.

Lemma action_args_ok `{Layout} bk arg_flag a c :
  addresses_wf c -> (forall k, k ∈ (session_keys_ a).*2 -> located c (bucket_ bk) k) ->
  exists args nodes, action_args bk arg_flag a c = Ok (args, nodes, c).
Proof.
  intros Hwf Hl. unfold action_args. destruct (batched_values bk a c); [by do 2 eexists|].
  by apply located_args_ok.
Qed.

Lemma invoke_action_ok `{Layout, Rand} conf resp bk arg_flag c a :
  0 < io_thread_num conf -> addresses_wf c ->
  (forall k, k ∈ (session_keys_ a).*2 -> located c (bucket_ bk) k) ->
  exists c' outs, invoke_action conf resp bk arg_flag c a = Ok (c', outs) /\ same_view c c'.
Proof.
  intros Hio Hwf Hl. unfold invoke_action.
  assert (same_view c (set_bucket_app (touch [] (bucket_ bk)) c)) as Hv by done.
  edestruct action_args_ok as (args & nodes & ->); [by rewrite <- Hv|intros k Hk; rewrite <- Hv; by apply Hl|].
  simpl. destruct (route nodes _) as [w m]. case_decide; [by do 2 eexists|].
  match goal with |- context [rand_below ?s ?n] => destruct (rand_below_ok s n) as (io & s' & ->) end; [lia|].
  simpl. by do 2 eexists.
Qed.

Lemma invoke_actions_ok `{Layout, Rand} conf resp bk arg_flag c acts :
  0 < io_thread_num conf -> addresses_wf c ->
  (forall a k, a ∈ acts -> k ∈ (session_keys_ a).*2 -> located c (bucket_ bk) k) ->
  exists c' outs, invoke_actions conf resp bk arg_flag c acts = Ok (c', outs) /\ same_view c c'.
Proof.
  intros Hio. revert c. induction acts as [|a acts IH]; intros c Hwf Hl; [by do 2 eexists|].
  cbn [invoke_actions]. destruct (invoke_action_ok conf resp bk arg_flag c a) as (c1 & o1 & -> & Hv1);
    [done|done|intros; eapply Hl; [left|done]|]. simpl.
  destruct (IH c1) as (c2 & o2 & -> & Hv2).
  - by rewrite <- Hv1.
  - intros a' k Ha' Hk. rewrite <- Hv1. eapply Hl; [right|]; done.
  - simpl. do 2 eexists. split; [done|]. by etransitivity.
Qed.

(** * Checking the triggers *)
Lemma check_triggers_ok `{Layout, Rand} conf now resp active bk c ts :
  0 < io_thread_num conf -> addresses_wf c -> located c (bucket_ bk) (key_ bk) ->
  triggers_ok c (bucket_ bk) ts ->
  exists c' ts' fired outs,
    check_triggers conf now resp active bk c ts = Ok (c', ts', fired, outs) /\
    same_view c c' /\ triggers_ok c (bucket_ bk) ts'.
Proof.
  intros Hio. revert c. induction ts as [|t ts IH]; intros c Hwf Hloc Hts.
  { do 4 eexists. split; [done|]. split; [done|constructor]. }
  apply Forall_cons in Hts as [[Htwf Hheld] Hts]. cbn [check_triggers].
  pose proof (action_keys now t bk Htwf) as Hact.
  destruct (action_for_new_object now t bk) as [acts t']. destruct Hact as (Hwf' & Hheld' & Hkeys).
  assert (forall a k, a ∈ acts -> k ∈ (session_keys_ a).*2 -> located c (bucket_ bk) k) as Hl.
  { intros a k Ha Hk. destruct (Hkeys a k Ha Hk) as [Hk'| ->]; auto. }
  assert (exists c1 fired outs,
    (if bool_decide (get_trigger_name t ∈ active) then Ok (c, [], [])
     else match acts with
          | [] => Ok (c, [], [])
          | _ => '(c, outs) ← invoke_actions conf resp bk (get_trigger_option t + 1) c acts;
                 Ok (c, if decide (get_type t = BY_TIME) then [] else [get_trigger_name t], outs)
          end) = Ok (c1, fired, outs) /\ same_view c c1) as (c1 & fired & outs & E & Hv).
  { case_bool_decide; [by do 3 eexists|]. destruct acts as [|a acts]; [by do 3 eexists|].
    destruct (invoke_actions_ok conf resp bk (get_trigger_option t + 1) c (a :: acts)) as (c1 & o1 & -> & Hv);
      [done..|]. simpl. by do 3 eexists. }
  cbv zeta. rewrite E. simpl.
  destruct (IH c1) as (c2 & ts' & f2 & o2 & -> & Hv2 & Hts'); [by rewrite <- Hv..|].
  simpl. do 4 eexists. split; [done|]. split; [by etransitivity|].
  rewrite <- Hv in Hts'. constructor; [|done]. split; [done|]. intros k Hk. destruct (Hheld' k Hk) as [Hk'| ->]; auto.
Qed.

(** * The handler *)
Definition notification_wf (a : BucketKeyAddress) : Prop :=
  exists ip rest, bka_ips a = ip :: rest /\ is_ok (node_ip ip).

Lemma record_object_ok bk addr payload c :
  coord_inv c -> is_ok (node_ip addr) ->
  record_object bk addr payload c = Ok None \/
  exists c', record_object bk addr payload c = Ok (Some c') /\ coord_inv c' /\ located c' (bucket_ bk) (key_ bk).
Proof.
  intros Hinv [ip Hip]. unfold record_object.
  assert (exists c', record_location bk addr c = Ok c') as [c' E]
    by (unfold record_location; rewrite Hip; by eexists).
  assert (located c' (bucket_ bk) (key_ bk)) as Hl by (rewrite located_record by done; by right).
  pose proof (coord_inv_record _ _ _ _ Hinv E) as Hinv'. rewrite E.
  case_decide; [case_bool_decide|]; simpl; [right|by left|right]; eexists; (split; [done|]).
  - done.
  - split; [exact Hinv'|exact Hl].
Qed.

Lemma coord_inv_set_triggers (c1 c2 : coord) b ts :
  coord_inv c1 -> same_view c1 c2 -> triggers_ok c1 b ts -> coord_inv (set_triggers <[b := ts]> c2).
Proof.
  intros [Ha Ht] [Ea Et] Hts. split.
  - unfold addresses_wf. cbn. rewrite Ea. exact Ha.
  - intros b' ts'. cbn. rewrite Et. intros Hb.
    enough (triggers_ok c1 b' ts') as Hok.
    { revert Hok. apply triggers_ok_mono. intros k. unfold located. cbn. by rewrite Ea. }
    apply lookup_insert_Some in Hb as [[<- <-]|[_ Hb]]; auto.
Qed.

Lemma notify_objects_ok `{Layout, Rand} conf now resp active c addresses :
  0 < io_thread_num conf -> coord_inv c -> Forall notification_wf addresses ->
  exists c' outs, notify_objects conf now resp active c addresses = Ok (c', outs) /\ coord_inv c'.
Proof.
  intros Hio Hinv Hwf. revert c Hinv. induction Hwf as [|a l (ip & rest & Hips & Hip) _ IH]; intros c Hinv.
  { by do 2 eexists. }
  cbn [notify_objects]. rewrite Hips. simpl.
  destruct (record_object_ok (get_bucket_key_from_addr a) ip (bka_payload a) c Hinv Hip)
    as [-> | (c1 & -> & Hinv1 & Hloc)]; [by do 2 eexists|]. simpl.
  set (bk := get_bucket_key_from_addr a) in *. destruct Hinv1 as [Hawf Hts].
  assert (triggers_ok c1 (bucket_ bk) (at_or [] (bucket_ bk) (bucket_triggers_map c1))) as Hbts.
  { unfold at_or. destruct (bucket_triggers_map c1 !! bucket_ bk) as [ts|] eqn:E; [by apply Hts|constructor]. }
  edestruct (check_triggers_ok conf now resp active bk c1) as (c2 & ts' & fired & outs & -> & Hv & Hts');
    [done..|]. cbn [mbind res_bind].
  change (bka_bucket a) with (bucket_ bk).
  destruct (IH (set_triggers <[bucket_ bk := ts']> c2)) as (c3 & o3 & -> & Hinv3).
  - apply (coord_inv_set_triggers c1 c2); [by split|done..].
  - simpl. by do 2 eexists.
Qed.

Lemma notify_handler_ok `{Layout, Rand} conf now c request :
  0 < io_thread_num conf -> coord_inv c -> Forall notification_wf (knr_addresses request) ->
  exists c' outs, notify_handler conf now c request = Ok (c', outs) /\ coord_inv c'.
Proof. intros. by apply notify_objects_ok. Qed.

(** * New triggers hold nothing *)
Definition holds_nothing (t : Trigger) : Prop := trigger_wf t /\ forall k, ~ held t k.

Lemma gen_trigger_pointer_empty `{PrimitiveCodecs} now ty name ser t :
  gen_trigger_pointer now ty name ser = Some t -> holds_nothing t.
Proof.
  destruct ty; intros [=<-]; (split; [try done|unfold held; simpl; intros k]); try set_solver.
Qed.

Lemma by_set_new_empty f n ks : holds_nothing (BySetTrigger_new f n ks).
Proof.
  split; unfold held; cbn; [intros s X HX|intros k (s & X & HX & _)]; cbn in HX; by rewrite lookup_empty in HX.
Qed.

Lemma empty_option o t : holds_nothing t -> holds_nothing (set_trigger_option o t).
Proof. done. Qed.

Lemma coord_inv_add_trigger b t c : holds_nothing t -> coord_inv c -> coord_inv (add_trigger b t c).
Proof.
  intros [Hwf Hno] Hinv. unfold add_trigger.
  apply (coord_inv_set_triggers c c); [done..|]. apply Forall_app. split.
  - unfold at_or. destruct (bucket_triggers_map c !! b) as [ts|] eqn:E; [by apply Hinv|constructor].
  - repeat constructor; [done|]. intros k Hk. by destruct (Hno k).
Qed.

Lemma coord_inv_delete_bucket app b c : coord_inv c -> coord_inv (delete_bucket app b c).
Proof.
  intros [Ha Ht]. split; [exact Ha|]. intros b' ts. cbn. intros [_ Hb]%lookup_delete_Some. by apply Ht.
Qed.

Lemma bucket_op_inv c request : coord_inv c -> coord_inv (bucket_op_handler c request).1.
Proof.
  intros Hinv. unfold bucket_op_handler. destruct (bor_operation_type request); [| |done];
    case_bool_decide; simpl; try done. by apply coord_inv_delete_bucket.
Qed.

(** * Trigger operations *)
Lemma trigger_op_delete_inv c request : coord_inv c -> coord_inv (trigger_op_delete c request).1.1.1.
Proof.
  intros Hinv. unfold trigger_op_delete. case_bool_decide; [|done].
  assert (triggers_ok c (tor_bucket_name request)
    (filter (fun t => get_trigger_name t <> tor_trigger_name request)
       (at_or [] (tor_bucket_name request) (bucket_triggers_map c)))) as Hok.
  { unfold at_or. destruct (bucket_triggers_map c !! tor_bucket_name request) as [ts|] eqn:E; [|constructor].
    apply Hinv in E. unfold triggers_ok in *. rewrite Forall_forall in *.
    intros t [_ Ht]%list_elem_of_filter. auto. }
  case_decide; cbn; by apply (coord_inv_set_triggers c c).
Qed.

Definition trigger_request_wf (r : TriggerOperationRequest) : Prop :=
  tor_operation_type r = ADD_TRIGGER -> tor_primitive_type r <> PT_OTHER.

Lemma gen_trigger_pointer_known `{PrimitiveCodecs} now ty name ser :
  ty <> PT_OTHER -> exists t, gen_trigger_pointer now ty name ser = Some t.
Proof. destruct ty; simpl; eauto. done. Qed.

Lemma trigger_op_handler_ok `{Layout, PrimitiveCodecs} conf now c request :
  coord_inv c -> trigger_request_wf request ->
  exists c' outs, trigger_op_handler conf now c request = Ok (c', outs) /\ coord_inv c'.
Proof.
  intros Hinv Hwf. unfold trigger_op_handler. destruct (tor_operation_type request) eqn:E.
  - unfold trigger_op_add. case_bool_decide; [|by do 2 eexists].
    destruct (gen_trigger_pointer_known now (tor_primitive_type request) (tor_trigger_name request)
                (tor_primitive request)) as [t Ht]; [by apply Hwf|]. rewrite Ht. cbn [mbind res_bind].
    do 2 eexists. split; [done|]. apply coord_inv_add_trigger; [|done].
    by eapply empty_option, gen_trigger_pointer_empty.
  - pose proof (trigger_op_delete_inv c request Hinv) as Hd.
    destruct (trigger_op_delete c request) as [[[c' e] ents] mt]. simpl in *. by do 2 eexists.
  - by do 2 eexists.
Qed.

(** * Registration *)
Definition dependency_wf (d : DataDependency) : Prop :=
  dd_type d <> DIRECT ->
  dd_tgt_functions d <> [] /\
  (dd_type d = K_OUT_OF_N -> exists k n rest,
     split (dd_description d) ","%char = k :: n :: rest /\ is_ok (stoi k) /\ is_ok (stoi n)) /\
  (dd_type d = PERIODIC -> is_ok (stoi (dd_description d))).

Lemma register_dependency_ok `{Layout, PrimitiveCodecs} now app c deps ents d :
  coord_inv c -> dependency_wf d ->
  exists c' deps' ents', register_dependency now app (c, deps, ents) d = Ok (c', deps', ents') /\ coord_inv c'.
Proof.
  intros Hinv Hwf. unfold register_dependency. case_decide as Hd; [by do 3 eexists|].
  destruct (Hwf Hd) as (Htgt & Hk & Hp). destruct (dd_tgt_functions d) as [|tgt ?]; [done|].
  cbn [vec_at res_of_option lookup list_lookup mbind res_bind].
  assert (coord_inv (create_bucket app (lit "b_" ++ tgt) c)) as Hinv' by exact Hinv.
  destruct (dd_type d) eqn:Et; try done; cbv zeta.
  - do 3 eexists. split; [done|]. apply coord_inv_add_trigger; [|done].
    apply by_set_new_empty.
  - destruct (Hk eq_refl) as (k & n & rest & -> & [kz Ekz] & [nz Enz]). cbn. rewrite Ekz. cbn. rewrite Enz. cbn.
    do 3 eexists. split; [done|]. apply coord_inv_add_trigger; [|done].
    split; [done|]. intros k'. apply not_elem_of_nil.
  - destruct (Hp eq_refl) as [w Ew]. rewrite Ew. cbn. do 3 eexists. split; [done|].
    apply coord_inv_add_trigger; [|done]. split; [done|]. intros k'. apply not_elem_of_nil.
  - by do 3 eexists.
Qed.

Lemma app_register_handler_ok `{Layout, PrimitiveCodecs} conf now c m :
  coord_inv c -> Forall dependency_wf (ar_dependencies m) ->
  exists c' outs, app_register_handler conf now c m = Ok (c', outs) /\ coord_inv c'.
Proof.
  intros Hinv Hwf. unfold app_register_handler.
  assert (forall deps ents, exists c' deps' ents',
    foldM (register_dependency now (ar_app_name m)) (c, deps, ents) (ar_dependencies m) = Ok (c', deps', ents') /\
    coord_inv c') as Hloop.
  { revert c Hinv. induction Hwf as [|d l Hd _ IH]; intros c Hinv deps ents; [by do 3 eexists|].
    cbn [foldM]. destruct (register_dependency_ok now (ar_app_name m) c deps ents d) as (c1 & d1 & e1 & -> & H1);
      [done..|]. cbn [mbind res_bind]. by apply IH. }
  destruct (Hloop [] []) as (c' & deps & ents & -> & Hc'). simpl. by do 2 eexists.
Qed.

(** * Calls and the rest *)
Lemma schedule_batch_ok `{Layout} c call : is_ok (schedule_batch c call).
Proof.
  destruct (Z.le_gt_cases (Z.of_nat (length (fc_requests call)))
    (max_executors (scan_nodes (fc_source call) (map_iter (node_status_map c))))) as [Hm|Hm].
  { unfold schedule_batch. rewrite (proj2 (Z.leb_le _ _)) by done. by eexists. }
  destruct (Z.le_gt_cases (Z.of_nat (length (fc_requests call)))
    (total_executors (scan_nodes (fc_source call) (map_iter (node_status_map c))))) as [Ht|Ht].
  - destruct (schedule_batch_split c call) as (pos & zeros & E & _); [lia|]. rewrite E. by eexists.
  - unfold schedule_batch. rewrite (proj2 (Z.leb_gt _ _)), (proj2 (Z.leb_gt _ _)) by lia. by eexists.
Qed.

Lemma schedule_single_ok `{Layout, Rand} c call : is_ok (schedule_single c call).
Proof.
  unfold schedule_single. destruct (0 <? _); [by eexists|]. case_decide as Hne; [by eexists|].
  assert (0 < size (node_status_map c))%nat as Hs.
  { destruct (size (node_status_map c)) eqn:E; [|lia]. by apply map_size_empty_inv in E. }
  destruct (rand_below_ok (seed c) (size (node_status_map c)) Hs) as (i & s & E).
  pose proof (rand_below_lt _ _ _ _ E) as Hi. rewrite E. cbn [mbind res_bind]. unfold vec_at.
  rewrite <- length_map_iter in Hi. destruct (lookup_lt_is_Some_2 _ _ Hi) as [node ->]. by eexists.
Qed.

Lemma send_calls_ok `{Rand} conf s calls : 0 < io_thread_num conf -> is_ok (send_calls conf s calls).
Proof.
  intros Hio. revert s. induction calls as [|[ip call] calls IH]; intros s; [by eexists|]. cbn [send_calls].
  destruct (rand_below_ok s (Z.to_nat (io_thread_num conf))) as (io & s1 & ->); [lia|]. cbn [mbind res_bind].
  destruct (IH s1) as [[outs s2] ->]. by eexists.
Qed.

Lemma func_call_handler_ok `{Layout, Rand} conf c m :
  0 < io_thread_num conf ->
  exists c' outs, func_call_handler conf c m = Ok (c', outs) /\ same_view c c'.
Proof.
  intros Hio. unfold func_call_handler.
  assert (same_view c (with_session c m).1) as Hv.
  { unfold with_session. case_decide; [|done]. by destruct (gen_random _ _). }
  destruct (with_session c m) as [c1 call]. simpl in Hv.
  assert (exists sched s, (if decide (1 < length (fc_requests call))%nat
     then m ← schedule_batch c1 call; Ok (m, seed c1) else schedule_single c1 call) = Ok (sched, s)) as (sched & s & ->).
  { case_decide.
    - destruct (schedule_batch_ok c1 call) as [sched ->]. simpl. by do 2 eexists.
    - destruct (schedule_single_ok c1 call) as [[sched s] ->]. by do 2 eexists. }
  cbn [mbind res_bind]. case_decide; [by do 2 eexists|].
  destruct (send_calls_ok conf (seed (set_seed s c1)) (map_iter sched) Hio) as [[outs s'] ->].
  cbn [mbind res_bind]. by do 2 eexists.
Qed.

(** * The loop *)
Definition event_wf (e : coord_event) : Prop :=
  match e with
  | EvNotify m => Forall notification_wf (knr_addresses m)
  | EvTriggerOp m => trigger_request_wf m
  | EvAppRegist m => Forall dependency_wf (ar_dependencies m)
  | _ => True
  end.

Lemma coord_handle_ok `{Layout, Rand, PrimitiveCodecs} conf now c e :
  0 < io_thread_num conf -> coord_inv c -> event_wf e ->
  exists c' outs, coord_handle conf now c e = Ok (c', outs) /\ coord_inv c'.
Proof.
  intros Hio Hinv Hwf. destruct e; simpl in *.
  - by apply notify_handler_ok.
  - unfold query_handler. destruct (query_loop c _). by do 2 eexists.
  - pose proof (bucket_op_inv c m Hinv). destruct (bucket_op_handler c m). by do 2 eexists.
  - by apply trigger_op_handler_ok.
  - by do 2 eexists.
  - by do 2 eexists.
  - by apply app_register_handler_ok.
  - destruct (func_call_handler_ok conf c m Hio) as (c' & outs & -> & Hv). do 2 eexists. split; [done|].
    by rewrite <- Hv.
Qed.

Lemma coord_serve_ok `{Layout, Rand, PrimitiveCodecs} conf now c es :
  0 < io_thread_num conf -> coord_inv c -> Forall event_wf es ->
  exists c' outs, coord_serve conf now c es = Ok (c', outs) /\ coord_inv c'.
Proof.
  intros Hio Hinv Hwf. revert c Hinv. induction Hwf as [|e es He _ IH]; intros c Hinv; [by do 2 eexists|].
  cbn [coord_serve]. destruct (coord_handle_ok conf now c e) as (c1 & o1 & -> & Hc1); [done..|].
  cbn [mbind res_bind]. destruct (IH c1 Hc1) as (c2 & o2 & -> & Hc2). simpl. by do 2 eexists.
Qed.

Lemma coord_inv_init s : coord_inv (coord_init s).
Proof. split; intros b; cbn; [intros keys k addrs HX|intros ts HX]; by rewrite lookup_empty in HX. Qed.

Lemma coord_run_ok `{Layout, Rand, PrimitiveCodecs} conf c history :
  0 < io_thread_num conf -> coord_inv c -> Forall (fun '(_, p) => Forall event_wf (poll_events p)) history ->
  exists c' outs, coord_run conf c history = Ok (c', outs) /\ coord_inv c'.
Proof.
  intros Hio Hinv Hwf. revert c Hinv. induction Hwf as [|[now p] l Hp _ IH]; intros c Hinv; [by do 2 eexists|].
  cbn [coord_run]. destruct (coord_serve_ok conf now c (poll_events p)) as (c1 & o1 & E & Hc1); [done..|].
  unfold coord_iteration. rewrite E. cbn [mbind res_bind].
  destruct (IH c1 Hc1) as (c2 & o2 & -> & Hc2). simpl. by do 2 eexists.
Qed.
