(* ===== verification/CoordReg.v ===== *)
(** The coordinator's registry: buckets, the applications they belong to and
    the triggers they carry. *)
From stdpp Require Import prelude gmap strings list fin_sets.
From Stdlib Require Import ZArith Lia Ascii.
From S2P Require Import Prelude Cpp Proto Common Threads Trigger Coordinator FuncCall Notify CoordLoop.

Open Scope Z_scope.

(** Every registered bucket is listed under its application, and a bucket with
    triggers is registered. *)
Record registered (c : coord) : Prop := {
  reg_listed : forall b app, bucket_app_map c !! b = Some app -> b ∈ at_or ∅ app (app_buckets_map c);
  reg_triggers : forall b ts, bucket_triggers_map c !! b = Some ts -> ts <> [] -> is_Some (bucket_app_map c !! b) }.

Definition same_reg (c c' : coord) : Prop :=
  app_buckets_map c' = app_buckets_map c /\ bucket_app_map c' = bucket_app_map c /\
  bucket_triggers_map c' = bucket_triggers_map c.

#[export] Instance same_reg_equiv : Equivalence same_reg.
Proof.
  split.
  - by intros c.
  - by intros c c' (? & ? & ?).
  - intros c1 c2 c3 (E1 & E2 & E3) (E4 & E5 & E6). repeat split; congruence.
Qed.

#[export] Instance registered_proper : Proper (same_reg ==> iff) registered.
Proof.
  intros [] [] (E1 & E2 & E3). simpl in *. subst. split; intros [Hl Ht]; by split.
Qed.

Lemma located_args_reg `{Layout} bk flag sks c args nodes c' :
  located_args bk flag sks c = Ok (args, nodes, c') -> same_reg c c'.
Proof.
  revert c args nodes c'. induction sks as [|[s k] sks IH]; intros c args nodes c' E; cbn [located_args] in E.
  { by simplify_eq. }
  match type of E with context [deref_begin ?l] => destruct (deref_begin l) as [a|]; [|done] end.
  cbn [mbind res_bind] in E. destruct (node_ip a); [|done]. cbn [mbind res_bind] in E.
  match type of E with context [located_args _ _ _ ?c1] => destruct (located_args bk flag sks c1) as [[[args1 nodes1] c2]|] eqn:E1; [|done] end.
  cbn [mbind res_bind] in E. apply IH in E1. simplify_eq. by rewrite <- E1.
Qed.

Lemma invoke_action_reg `{Layout, Rand} conf resp bk flag c a c' outs :
  is_Some (bucket_app_map c !! bucket_ bk) ->
  invoke_action conf resp bk flag c a = Ok (c', outs) -> same_reg c c'.
Proof.
  intros [app Happ]. unfold invoke_action.
  assert (same_reg c (set_bucket_app (touch [] (bucket_ bk)) c)) as Hv.
  { split; [done|]. split; [|done]. cbn. unfold touch. by rewrite Happ. }
  unfold action_args. intros E.
  assert (exists args nodes c1, (match batched_values bk a (set_bucket_app (touch [] (bucket_ bk)) c) with
     | Some vals => Ok ([mk_Argument (implode vals) 0 []], ∅, set_bucket_app (touch [] (bucket_ bk)) c)
     | None => located_args bk flag (session_keys_ a) (set_bucket_app (touch [] (bucket_ bk)) c) end)
     = Ok (args, nodes, c1) /\ same_reg c c1) as (args & nodes & c1 & E1 & Hv1).
  { destruct (batched_values _ _ _); [by do 3 eexists|].
    destruct (located_args _ _ _ _) as [[[args nodes] c1]|] eqn:E1; [|done]. apply located_args_reg in E1.
    do 3 eexists. split; [done|]. by rewrite Hv. }
  rewrite E1 in E. cbn [mbind res_bind] in E. destruct (route nodes _) as [w m]. case_decide; [by simplify_eq|].
  destruct (rand_below _ _) as [[io s']|]; [|done]. cbn [mbind res_bind] in E. by simplify_eq.
Qed.

Lemma invoke_actions_reg `{Layout, Rand} conf resp bk flag c acts c' outs :
  is_Some (bucket_app_map c !! bucket_ bk) ->
  invoke_actions conf resp bk flag c acts = Ok (c', outs) -> same_reg c c'.
Proof.
  revert c outs. induction acts as [|a acts IH]; intros c outs Happ E; cbn [invoke_actions] in E; [by simplify_eq|].
  destruct (invoke_action _ _ _ _ c a) as [[c1 o1]|] eqn:E1; [|done]. cbn [mbind res_bind] in E.
  apply invoke_action_reg in E1; [|done].
  destruct (invoke_actions _ _ _ _ c1 acts) as [[c2 o2]|] eqn:E2; [|done]. simplify_eq/=.
  apply IH in E2; [by rewrite E1|]. destruct E1 as (_ & -> & _). done.
Qed.

Lemma check_triggers_reg `{Layout, Rand} conf now resp active bk c ts c' ts' fired outs :
  (ts <> [] -> is_Some (bucket_app_map c !! bucket_ bk)) ->
  check_triggers conf now resp active bk c ts = Ok (c', ts', fired, outs) ->
  same_reg c c' /\ length ts' = length ts.
Proof.
  revert c ts' fired outs. induction ts as [|t ts IH]; intros c ts' fired outs Happ E; cbn [check_triggers] in E.
  { by simplify_eq. }
  specialize (Happ ltac:(done)). destruct (action_for_new_object now t bk) as [acts t'].
  match type of E with mbind _ ?m = _ => destruct m as [[[c1 f1] o1]|] eqn:E1; [|done] end.
  cbn [mbind res_bind] in E.
  assert (same_reg c c1) as Hv.
  { case_bool_decide; [by simplify_eq|]. destruct acts as [|a acts]; [by simplify_eq|].
    destruct (invoke_actions _ _ _ _ c (a :: acts)) as [[c2 o2]|] eqn:E2; [|done].
    apply invoke_actions_reg in E2; [|done]. by simplify_eq/=. }
  destruct (check_triggers _ _ _ _ _ c1 ts) as [[[[c2 ts2] f2] o2]|] eqn:E2; [|done]. simplify_eq/=.
  apply IH in E2 as [Hv2 Hl]; [split; [by rewrite Hv|lia]|]. intros _. destruct Hv as (_ & -> & _). done.
Qed.

Lemma record_object_reg bk addr payload c c' :
  record_object bk addr payload c = Ok (Some c') -> same_reg c c'.
Proof.
  unfold record_object, record_location. case_decide; [case_bool_decide|];
    destruct (node_ip addr); simpl; intros; by simplify_eq.
Qed.

Lemma notify_objects_reg `{Layout, Rand} conf now resp active c addrs c' outs :
  registered c -> notify_objects conf now resp active c addrs = Ok (c', outs) -> registered c'.
Proof.
  revert c outs. induction addrs as [|a addrs IH]; intros c outs Hreg E; cbn [notify_objects] in E; [by simplify_eq|].
  destruct (vec_at (bka_ips a) 0) as [ip|]; [|done]. cbn [mbind res_bind] in E.
  set (bk := get_bucket_key_from_addr a) in *.
  destruct (record_object bk ip (bka_payload a) c) as [[c1|]|] eqn:E1; [|by simplify_eq/=|done]. cbn [mbind res_bind] in E.
  apply record_object_reg in E1. rewrite E1 in Hreg.
  destruct (check_triggers conf now resp active bk c1 _) as [[[[c2 ts] f] o]|] eqn:E2; [|done]. cbn [mbind res_bind] in E.
  destruct (notify_objects _ _ _ _ _ addrs) as [[c3 o3]|] eqn:E3; [|done]. simplify_eq/=. eapply IH; [|exact E3].
  assert (at_or [] (bucket_ bk) (bucket_triggers_map c1) <> [] -> is_Some (bucket_app_map c1 !! bucket_ bk)) as Happ.
  { unfold at_or. destruct (bucket_triggers_map c1 !! bucket_ bk) as [ts'|] eqn:Eb; simpl; [|done].
    by eapply reg_triggers. }
  apply check_triggers_reg in E2 as [(Ea & Eb & Et) Hlen]; [|done]. destruct Hreg as [Hl Ht]. split.
  - cbn. rewrite Ea, Eb. exact Hl.
  - intros b ts'. cbn. rewrite Eb, Et. intros Hb Hne.
    apply lookup_insert_Some in Hb as [[<- <-]|[_ Hb]]; [|by eapply Ht].
    apply Happ. intros E. change (bka_bucket a) with (bucket_ bk) in Hlen. rewrite E in Hlen. by destruct ts.
Qed.

(** * The operations that change the registry *)
Lemma create_bucket_reg app b c : registered c -> registered (create_bucket app b c).
Proof.
  intros [Hl Ht]. split.
  - intros b' app'. cbn. intros [[<- <-]|[Hne Hb]]%lookup_insert_Some; unfold at_or at 1.
    + rewrite lookup_insert_eq. set_solver.
    + destruct (decide (app = app')) as [<-|Hna].
      * rewrite lookup_insert_eq. simpl. apply Hl in Hb. set_solver.
      * rewrite lookup_insert_ne by done. by apply Hl.
  - intros b' ts. cbn. intros Hb Hne. destruct (Ht b' ts Hb Hne) as [app' Happ].
    destruct (decide (b = b')) as [<-|]; [rewrite lookup_insert_eq|rewrite lookup_insert_ne by done]; by eexists.
Qed.

Lemma delete_bucket_reg app b c : registered c -> registered (delete_bucket app b c).
Proof.
  intros [Hl Ht]. split.
  - intros b' app'. cbn. intros [Hne Hb]%lookup_delete_Some. unfold at_or at 1. apply Hl in Hb.
    destruct (decide (app = app')) as [<-|Hna].
    + rewrite lookup_insert_eq. simpl. set_solver.
    + by rewrite lookup_insert_ne.
  - intros b' ts. cbn. intros [Hne Hb]%lookup_delete_Some Hts. rewrite lookup_delete_ne by done. by eapply Ht.
Qed.

Lemma set_triggers_reg b ts c :
  (ts <> [] -> is_Some (bucket_app_map c !! b)) -> registered c -> registered (set_triggers <[b := ts]> c).
Proof.
  intros Hb [Hl Ht]. split; [exact Hl|]. intros b' ts'. cbn.
  intros [[<- <-]|[_ H]]%lookup_insert_Some Hne; [auto|by eapply Ht].
Qed.

Lemma create_bucket_known app b c : is_Some (bucket_app_map (create_bucket app b c) !! b).
Proof. cbn. rewrite lookup_insert_eq. by eexists. Qed.

Lemma add_trigger_reg b t c :
  is_Some (bucket_app_map c !! b) -> registered c -> registered (add_trigger b t c).
Proof. intros. by apply set_triggers_reg. Qed.

Lemma trigger_op_handler_reg `{Layout, PrimitiveCodecs} conf now c r c' outs :
  registered c -> trigger_op_handler conf now c r = Ok (c', outs) -> registered c'.
Proof.
  intros Hreg. unfold trigger_op_handler, trigger_op_add, trigger_op_delete.
  destruct (tor_operation_type r); repeat case_bool_decide; try (intros; by simplify_eq/=).
  - destruct (gen_trigger_pointer _ _ _ _); [|done]. intros [= <- <-]. by apply add_trigger_reg.
  - case_decide; intros [= <- <-]; by apply set_triggers_reg.
Qed.

Lemma register_dependency_reg `{Layout, PrimitiveCodecs} now app acc d acc' :
  registered acc.1.1 -> register_dependency now app acc d = Ok acc' -> registered acc'.1.1.
Proof.
  intros Hreg. destruct acc as [[c deps] ents]. unfold register_dependency. case_decide; [by intros [= <-]|].
  destruct (vec_at (dd_tgt_functions d) 0) as [tgt|]; [|done]. cbn [mbind res_bind].
  pose proof (create_bucket_known app (lit "b_" ++ tgt) c) as Hk.
  apply (create_bucket_reg app (lit "b_" ++ tgt)) in Hreg.
  destruct (dd_type d); try (intros [= <-]; simpl; done || by apply add_trigger_reg).
  - destruct (vec_at (split (dd_description d) ","%char) 0) as [x|]; [|done]; cbn [mbind res_bind].
    destruct (stoi x); [|done]; cbn [mbind res_bind].
    destruct (vec_at _ 1) as [y|]; [|done]; cbn [mbind res_bind]. destruct (stoi y); [|done]; cbn [mbind res_bind].
    intros [= <-]. by apply add_trigger_reg.
  - destruct (stoi _); [|done]. intros [= <-]. by apply add_trigger_reg.
Qed.

Lemma app_register_handler_reg `{Layout, PrimitiveCodecs} conf now c m c' outs :
  registered c -> app_register_handler conf now c m = Ok (c', outs) -> registered c'.
Proof.
  intros Hreg. unfold app_register_handler. destruct (foldM _ _ _) as [[[c1 deps] ents]|] eqn:E; [|done].
  intros [= <- <-]. eapply (foldM_inv (fun acc => registered acc.1.1)) in E; [exact E| |exact Hreg].
  intros s a s' _ Hs Es. by eapply register_dependency_reg.
Qed.

Lemma func_call_handler_reg `{Layout, Rand} conf c m c' outs :
  func_call_handler conf c m = Ok (c', outs) -> same_reg c c'.
Proof.
  unfold func_call_handler.
  assert (same_reg c (with_session c m).1) as Hv.
  { unfold with_session. case_decide; [|done]. by destruct (gen_random _ _). }
  destruct (with_session c m) as [c1 call]. simpl in Hv.
  match goal with |- mbind _ ?x = _ -> _ => destruct x as [[sched s]|]; [|done] end. cbn [mbind res_bind].
  case_decide; [intros [= <- _]; by rewrite Hv|].
  destruct (send_calls _ _ _) as [[o s']|]; [|done]. intros [= <- _]. by rewrite Hv.
Qed.

Lemma coord_handle_reg `{Layout, Rand, PrimitiveCodecs} conf now c e c' outs :
  registered c -> coord_handle conf now c e = Ok (c', outs) -> registered c'.
Proof.
  intros Hreg. destruct e; simpl.
  - by apply notify_objects_reg.
  - unfold query_handler. destruct (query_loop c _). by intros [= <- _].
  - unfold bucket_op_handler. destruct (bor_operation_type m); [| |by intros [= <- _]];
      case_bool_decide; intros [= <- _]; auto using create_bucket_reg, delete_bucket_reg.
  - by apply trigger_op_handler_reg.
  - intros [= <- _]. by apply (registered_proper c).
  - by intros [= <- _].
  - by apply app_register_handler_reg.
  - intros E. apply func_call_handler_reg in E. by rewrite <- E.
Qed.

Lemma coord_serve_reg `{Layout, Rand, PrimitiveCodecs} conf now c es c' outs :
  registered c -> coord_serve conf now c es = Ok (c', outs) -> registered c'.
Proof.
  revert c outs. induction es as [|e es IH]; intros c outs Hreg E; cbn [coord_serve] in E; [by simplify_eq|].
  destruct (coord_handle conf now c e) as [[c1 o1]|] eqn:E1; [|done]. cbn [mbind res_bind] in E.
  destruct (coord_serve conf now c1 es) as [[c2 o2]|] eqn:E2; [|done]. simplify_eq/=.
  eapply IH; [|done]. by eapply coord_handle_reg.
Qed.

Lemma coord_run_reg `{Layout, Rand, PrimitiveCodecs} conf c history c' outs :
  registered c -> coord_run conf c history = Ok (c', outs) -> registered c'.
Proof.
  revert c outs. induction history as [|[now p] h IH]; intros c outs Hreg E; cbn [coord_run] in E; [by simplify_eq|].
  unfold coord_iteration in E.
  destruct (coord_serve conf now c (poll_events p)) as [[c1 o1]|] eqn:E1; [|done]. cbn [mbind res_bind] in E.
  destruct (coord_run conf c1 h) as [[c2 o2]|] eqn:E2; [|done]. simplify_eq/=.
  eapply IH; [|done]. by eapply coord_serve_reg.
Qed.

Lemma registered_init s : registered (coord_init s).
Proof. split; intros b x; cbn; intros Hb; by rewrite lookup_empty in Hb. Qed.
