(* ===== verification/CoordClaims.v ===== *)
(** What the coordinator guarantees, whatever messages it serves. *)
From stdpp Require Import prelude gmap strings list fin_sets.
From Stdlib Require Import ZArith Lia Ascii.
From S2P Require Import Prelude Cpp Proto Common Threads Trigger TriggerSpec Coordinator FuncCall FuncCallSpec Notify CoordLoop CoordInv CoordReg.

Open Scope Z_scope.

Definition history_wf (h : list (Z * polled)) : Prop :=
  Forall (fun '(_, p) => Forall event_wf (poll_events p)) h.

(** The states of a coordinator that has only served well-formed messages. *)
Definition reachable `{Layout, Rand, PrimitiveCodecs} (conf : coord_conf) (c : coord) : Prop :=
  exists s h outs, history_wf h /\ coord_run conf (coord_init s) h = Ok (c, outs).

Lemma reachable_inv `{Layout, Rand, PrimitiveCodecs} conf c :
  0 < io_thread_num conf -> reachable conf c -> coord_inv c /\ registered c.
Proof.
  intros Hio (s & h & outs & Hwf & E). split; [|by eapply coord_run_reg; [apply registered_init|exact E]].
  destruct (coord_run_ok conf (coord_init s) h Hio (coord_inv_init s) Hwf) as (c' & o & E' & Hinv). congruence.
Qed.

(** C1: a coordinator thread survives any sequence of iterations: whatever
    well-formed messages arrive on its sockets, in whatever order and however
    the unordered containers are laid out, no handler dereferences an empty
    set of addresses or a null trigger, indexes past the end, divides by zero
    or loops for ever. *)
Theorem coordinator_never_faults (L : Layout) (R : Rand) (P : PrimitiveCodecs) (conf : coord_conf)
    (seed : Z) (h : list (Z * polled))
    (Hio : 0 < io_thread_num conf) (Hwf : history_wf h) :
  is_ok (coord_run conf (coord_init seed) h).
Proof.
  destruct (coord_run_ok conf (coord_init seed) h) as (c & outs & -> & _); auto using coord_inv_init. by eexists.
Qed.

(** C29: in every state a coordinator reaches, well-formed messages or not,
    every registered bucket is listed under its application and every bucket
    that has triggers is registered. *)
Theorem registry_invariant (L : Layout) (R : Rand) (P : PrimitiveCodecs) (conf : coord_conf)
    (seed : Z) (h : list (Z * polled)) (c : coord) (outs : list out)
    (Hrun : coord_run conf (coord_init seed) h = Ok (c, outs)) :
  (forall b app, bucket_app_map c !! b = Some app -> b ∈ at_or ∅ app (app_buckets_map c)) /\
  (forall b ts, bucket_triggers_map c !! b = Some ts -> ts <> [] -> is_Some (bucket_app_map c !! b)).
Proof.
  apply coord_run_reg in Hrun; [|apply registered_init]. split; [apply reg_listed|apply reg_triggers]; done.
Qed.

(** Deleting a bucket under the name of another application succeeds and
    unregisters the bucket, but leaves it listed under its owner. *)
Theorem foreign_delete_leaves_listing (c : coord) (r : BucketOperationRequest) (owner : str)
    (Hop : bor_operation_type r = DELETE_BUCKET)
    (Howner : bucket_app_map c !! bor_bucket_name r = Some owner)
    (Hlisted : bor_bucket_name r ∈ at_or ∅ owner (app_buckets_map c))
    (Hforeign : bor_app_name r <> owner) :
  let c' := (bucket_op_handler c r).1 in
  (bucket_op_handler c r).2 =
    [(bor_response_address r,
      BucketOpResp (mk_BucketOperationResponse (bor_bucket_name r) (bor_request_id r) SUCCESS))] /\
  bucket_app_map c' !! bor_bucket_name r = None /\
  bor_bucket_name r ∈ at_or ∅ owner (app_buckets_map c').
Proof.
  unfold bucket_op_handler. rewrite Hop, Howner. rewrite bool_decide_eq_true_2 by (by eexists). cbn.
  split; [done|]. split; [apply lookup_delete_eq|]. unfold at_or at 1. by rewrite lookup_insert_ne.
Qed.

(** * Ports *)
Definition coord_ports (tid : Z) : list Z :=
  (fun p => tid + p) <$> [kNotifyHandlerPort; kQueryHandlerPort; oBucketPort; oTriggerPort; updateStatusHandlerPort;
                          funcCreatePort; appRegistPort; funcCallPort; forwardFuncPort].

Lemma coord_binds_ports ip tid :
  coord_binds ip tid = (fun p => kBindBase ++ to_string (u32 p)) <$> coord_ports tid.
Proof. done. Qed.

Lemma all_binds_ports ip l :
  concat (coord_binds ip <$> l) =
  (fun p => kBindBase ++ to_string (u32 p)) <$> concat (coord_ports <$> l).
Proof. induction l as [|tid l IH]; [done|]. rewrite !fmap_cons. cbn [concat]. by rewrite IH, fmap_app, coord_binds_ports. Qed.

Lemma ports_NoDup_le n m : 0 <= n <= m ->
  NoDup (concat (coord_ports <$> seqZ 0 m)) -> NoDup (concat (coord_ports <$> seqZ 0 n)).
Proof.
  intros Hn. replace m with (n + (m - n)) by lia. rewrite seqZ_app by lia.
  rewrite fmap_app, concat_app. by intros [? _]%NoDup_app.
Qed.

Lemma bind_inj p q : is_u32 p -> is_u32 q ->
  kBindBase ++ to_string (u32 p) = kBindBase ++ to_string (u32 q) -> p = q.
Proof.
  intros Hp Hq E. rewrite !u32_small in E by done. apply app_inv_head in E.
  destruct Hp, Hq. by apply to_string_inj in E.
Qed.

(** The coordinator threads of one machine bind pairwise distinct addresses
    if and only if there are at most twenty of them: thread 20 would bind its
    function-creation socket to the registration port of thread 0. *)
Theorem coord_threads_bind_apart (ip : str) (n : Z) :
  NoDup (concat (coord_binds ip <$> seqZ 0 n)) <-> n <= 20.
Proof.
  rewrite all_binds_ports. split.
  - intros Hnd%NoDup_fmap_1. destruct (Z.le_gt_cases n 20) as [|Hgt]; [done|]. exfalso.
    apply (ports_NoDup_le 21 n) in Hnd; [|lia]. revert Hnd. apply (bool_decide_unpack (~ _)). by vm_compute.
  - intros Hn. destruct (Z.le_gt_cases 0 n) as [H0|H0]; [|by rewrite seqZ_nil by lia; constructor].
    assert (forall p, p ∈ concat (coord_ports <$> seqZ 0 n) -> is_u32 p) as Hrange.
    { intros p Hp. apply list_elem_of_In, in_concat in Hp as (l & Hl & Hp). apply list_elem_of_In in Hl, Hp. apply list_elem_of_fmap in Hl as (tid & -> & Ht).
      apply elem_of_seqZ in Ht. unfold is_u32.
      repeat (apply elem_of_cons in Hp as [->|Hp]; [unfold kNotifyHandlerPort, kQueryHandlerPort, oBucketPort, oTriggerPort, updateStatusHandlerPort, funcCreatePort, appRegistPort, funcCallPort, forwardFuncPort; lia|]). by apply not_elem_of_nil in Hp. }
    apply NoDup_fmap_2_strong; [intros; eapply bind_inj; eauto|].
    apply (ports_NoDup_le n 20); [lia|].
    apply (bool_decide_unpack _). by vm_compute.
Qed.

(** * Locations *)
Definition known_addr (c : coord) (b k addr : str) : Prop :=
  exists keys addrs, bucket_key_address_map c !! b = Some keys /\ keys !! k = Some addrs /\ addr ∈ addrs.

Lemma known_addr_update bk addr c :
  known_addr (update_address bk addr c) (bucket_ bk) (key_ bk) addr /\
  forall b k x, known_addr c b k x -> known_addr (update_address bk addr c) b k x.
Proof.
  unfold known_addr, update_address. cbn. unfold at_or. split.
  - do 2 eexists. rewrite lookup_insert_eq. split; [done|]. rewrite lookup_insert_eq. split; [done|]. set_solver.
  - intros b k x (keys & addrs & Hb & Hk & Hx). destruct (decide (bucket_ bk = b)) as [<-|Hne].
    + rewrite Hb. simpl. eexists. destruct (decide (key_ bk = k)) as [<-|Hne']; eexists;
        rewrite lookup_insert_eq; (split; [done|]).
      * rewrite lookup_insert_eq, Hk. simpl. split; [done|]. set_solver.
      * rewrite lookup_insert_ne by done. eauto.
    + do 2 eexists. rewrite lookup_insert_ne by done. eauto.
Qed.

Lemma record_object_known bk addr payload c :
  is_ok (node_ip addr) -> (payload = [] -> is_Some (bucket_app_map c !! bucket_ bk)) ->
  exists c', record_object bk addr payload c = Ok (Some c') /\
    known_addr c' (bucket_ bk) (key_ bk) addr /\ (forall b k x, known_addr c b k x -> known_addr c' b k x).
Proof.
  intros [ip Hip] Hb. unfold record_object, record_location. rewrite Hip. cbn [mbind res_bind].
  match goal with |- context [update_address bk addr ?c0] => destruct (known_addr_update bk addr c0) as [Hn Ho] end.
  case_decide as Hp; [rewrite bool_decide_eq_true_2 by auto|]; eexists; (split; [done|]); (split; [exact Hn|]);
    intros b k x Hx; by apply Ho.
Qed.

Lemma notify_objects_known `{Layout, Rand} conf now resp active c addresses :
  0 < io_thread_num conf -> coord_inv c -> registered c -> Forall notification_wf addresses ->
  Forall (fun a => bka_payload a = [] -> is_Some (bucket_app_map c !! bka_bucket a)) addresses ->
  exists c' outs, notify_objects conf now resp active c addresses = Ok (c', outs) /\
    (forall b k x, known_addr c b k x -> known_addr c' b k x) /\
    Forall (fun a => exists ip, head (bka_ips a) = Some ip /\ known_addr c' (bka_bucket a) (bka_key a) ip) addresses.
Proof.
  intros Hio Hinv Hreg Hwf. revert c Hinv Hreg.
  induction Hwf as [|a l (ip & rest & Hips & Hip) _ IH]; intros c Hinv Hreg Hb.
  { do 2 eexists. split; [done|]. by split. }
  apply Forall_cons in Hb as [Hba Hbl]. cbn [notify_objects]. rewrite Hips. cbn [vec_at lookup list_lookup res_of_option mbind res_bind].
  set (bk := get_bucket_key_from_addr a) in *.
  destruct (record_object_known bk ip (bka_payload a) c Hip Hba) as (c1 & E1 & Hnew & Hold).
  pose proof (record_object_reg _ _ _ _ _ E1) as Hs1.
  destruct (record_object_ok bk ip (bka_payload a) c Hinv Hip) as [E|(c1' & E & Hinv1 & Hloc)]; [congruence|].
  rewrite E1 in E. injection E as <-. rewrite E1. cbn [mbind res_bind].
  pose proof Hreg as Hreg1. rewrite Hs1 in Hreg1.
  pose proof Hinv1 as [Hawf Hts].
  assert (triggers_ok c1 (bucket_ bk) (at_or [] (bucket_ bk) (bucket_triggers_map c1))) as Hbts.
  { unfold at_or. destruct (bucket_triggers_map c1 !! bucket_ bk) as [ts|] eqn:E; [by apply Hts|constructor]. }
  edestruct (check_triggers_ok conf now resp active bk c1) as (c2 & ts' & fired & outs & E2 & Hv & Hts'); [done..|].
  change (bka_bucket a) with (bucket_ bk) in *. rewrite E2. cbn [mbind res_bind].
  assert (at_or [] (bucket_ bk) (bucket_triggers_map c1) <> [] -> is_Some (bucket_app_map c1 !! bucket_ bk)) as Happ.
  { unfold at_or. destruct (bucket_triggers_map c1 !! bucket_ bk) as [ts0|] eqn:Eb; simpl; [|done].
    by eapply reg_triggers. }
  apply check_triggers_reg in E2 as [Hs2 Hlen]; [|done].
  destruct (IH (set_triggers <[bucket_ bk := ts']> c2)) as (c3 & o3 & -> & Hk3 & Hall).
  - by apply (coord_inv_set_triggers c1 c2).
  - destruct Hs2 as (? & Eapp & ?). apply set_triggers_reg; [|by apply (registered_proper c1)].
    rewrite Eapp. intros Hne. apply Happ. intros E. rewrite E in Hlen. by destruct ts'.
  - destruct Hs1 as (_ & Ea1 & _), Hs2 as (_ & Ea2 & _). cbn. by rewrite Ea2, Ea1.
  - cbn [mbind res_bind]. do 2 eexists. split; [done|].
    assert (forall b k x, known_addr c1 b k x -> known_addr c3 b k x) as H13.
    { intros b k x Hx. apply Hk3. destruct Hv as [Ea _]. unfold known_addr. cbn. by rewrite Ea. }
    split; [auto|]. constructor; [|done]. exists ip. rewrite Hips. split; [done|]. apply H13. exact Hnew.
Qed.

(** After the coordinator has served a put notification, a query for any of
    the notified objects succeeds and its answer lists the address the object
    was reported at, with every address known before. *)
Theorem notify_then_query (L : Layout) (R : Rand) (P : PrimitiveCodecs) (conf : coord_conf) (now : Z) (c : coord)
    (m : KeyNotifyRequest) (a : BucketKeyAddress) (ip resp rid : str)
    (Hio : 0 < io_thread_num conf) (Hreach : reachable conf c)
    (Hwf : Forall notification_wf (knr_addresses m))
    (Hbuckets : Forall (fun x => bka_payload x = [] -> is_Some (bucket_app_map c !! bka_bucket x)) (knr_addresses m))
    (Ha : a ∈ knr_addresses m) (Hip : head (bka_ips a) = Some ip) :
  exists c' outs ips,
    notify_handler conf now c m = Ok (c', outs) /\
    query_handler c' (mk_KeyQueryRequest resp [a] rid) =
      (c', [(resp, QueryResp (mk_KeyQueryResponse
                     [mk_BucketKeyAddress (bka_bucket a) (bka_key a) (bka_session a) ips []] SUCCESS rid))]) /\
    ip ∈ ips /\ forall x, known_addr c (bka_bucket a) (bka_key a) x -> x ∈ ips.
Proof.
  destruct (reachable_inv conf c Hio Hreach) as [Hinv Hreg].
  destruct (notify_objects_known conf now (knr_response_address m) (list_to_set (knr_active_trigger_names m)) c
    (knr_addresses m)) as (c' & outs & E & Hold & Hall); [done..|].
  rewrite Forall_forall in Hall. destruct (Hall a Ha) as (ip' & Hip' & keys & addrs & Hb & Hk & Hin).
  assert (ip' = ip) as -> by congruence.
  exists c', outs, (set_iter addrs). split; [exact E|]. split.
  - unfold query_handler. cbn [kqr_addresses query_loop]. unfold get_address, get_bucket_key_from_addr.
    cbn [bucket_ key_]. rewrite Hb, bool_decide_eq_true_2 by (by eexists). rewrite Hk. done.
  - split; [by apply elem_of_set_iter|]. intros x Hx. apply Hold in Hx as (keys' & addrs' & Hb' & Hk' & Hx).
    apply elem_of_set_iter. congruence.
Qed.

(** * Triggers and their calls *)
(** The message an action turns into. *)
Definition call_for (bk : BucketKey) (a : TriggerAction) (o : out) : Prop :=
  exists app args resp, o.2 = Call (mk_FunctionCall app [mk_FunctionRequest (function_ a) args] [] [] resp (session_ bk) true).

Lemma invoke_action_calls `{Layout, Rand} conf resp bk flag c a c' outs :
  invoke_action conf resp bk flag c a = Ok (c', outs) ->
  exists invoked, invoked `sublist_of` [a] /\ Forall2 (call_for bk) invoked outs.
Proof.
  unfold invoke_action. destruct (action_args _ _ _ _) as [[[args nodes] c1]|]; [|done]. cbn [mbind res_bind].
  destruct (route nodes _) as [w m]. case_decide; [intros [= <- <-]; exists []; split; [apply sublist_nil_l|done]|].
  destruct (rand_below _ _) as [[io s']|]; [|done]. intros [= <- <-]. exists [a]. split; [done|].
  repeat constructor. by do 3 eexists.
Qed.

Lemma invoke_actions_calls `{Layout, Rand} conf resp bk flag c acts c' outs :
  invoke_actions conf resp bk flag c acts = Ok (c', outs) ->
  exists invoked, invoked `sublist_of` acts /\ Forall2 (call_for bk) invoked outs.
Proof.
  revert c outs. induction acts as [|a acts IH]; intros c outs E; cbn [invoke_actions] in E.
  { simplify_eq. exists []. done. }
  destruct (invoke_action _ _ _ _ c a) as [[c1 o1]|] eqn:E1; [|done]. cbn [mbind res_bind] in E.
  destruct (invoke_actions _ _ _ _ c1 acts) as [[c2 o2]|] eqn:E2; [|done]. simplify_eq/=.
  apply invoke_action_calls in E1 as (i1 & H1 & F1). apply IH in E2 as (i2 & H2 & F2).
  exists (i1 ++ i2). split; [|by apply Forall2_app]. by apply (sublist_app i1 [a] i2 acts).
Qed.

(** The actions of the triggers the worker has not already served. *)
Definition due (now : Z) (active : gset str) (bk : BucketKey) `{Layout} (ts : list Trigger) : list TriggerAction :=
  concat ((fun t => if bool_decide (get_trigger_name t ∈ active) then []
                    else (action_for_new_object now t bk).1) <$> ts).

Lemma check_triggers_spec `{Layout, Rand} conf now resp active bk c ts c' ts' fired outs :
  check_triggers conf now resp active bk c ts = Ok (c', ts', fired, outs) ->
  ts' = (fun t => (action_for_new_object now t bk).2) <$> ts /\
  fired = get_trigger_name <$> filter (fun t => (get_trigger_name t ∉ active) /\
            (action_for_new_object now t bk).1 <> [] /\ get_type t <> BY_TIME) ts /\
  exists invoked, invoked `sublist_of` (due now active bk ts) /\ Forall2 (call_for bk) invoked outs.
Proof.
  revert c ts' fired outs. induction ts as [|t ts IH]; intros c ts' fired outs E; cbn [check_triggers] in E.
  { simplify_eq. split; [done|]. split; [done|]. by exists []. }
  unfold due. rewrite filter_cons, !fmap_cons. cbn [concat].
  destruct (action_for_new_object now t bk) as [acts t'] eqn:Et. cbn [fst snd].
  match type of E with mbind _ ?m = _ => destruct m as [[[c1 f1] o1]|] eqn:E1; [|done] end.
  cbn [mbind res_bind] in E.
  destruct (check_triggers _ _ _ _ _ c1 ts) as [[[[c2 ts2] f2] o2]|] eqn:E2; [|done]. simplify_eq/=.
  apply IH in E2 as (-> & -> & i2 & H2 & F2). split; [done|].
  case_bool_decide as Hact; [|destruct acts as [|a acts]].
  - simplify_eq. rewrite decide_False by naive_solver. split; [done|]. by exists i2.
  - simplify_eq. rewrite decide_False by naive_solver. split; [done|]. by exists i2.
  - destruct (invoke_actions _ _ _ _ c (a :: acts)) as [[c3 o3]|] eqn:E3; [|done].
    apply invoke_actions_calls in E3 as (i1 & H1 & F1). cbn [mbind res_bind] in E1.
    injection E1 as <- <- <-. split.
    + case_decide as Hty; [rewrite decide_False|rewrite decide_True]; naive_solver.
    + exists (i1 ++ i2). split; [by apply sublist_app|by apply Forall2_app].
Qed.

(** C21: every trigger of the bucket, active or not, advances by exactly one
    object; the triggers reported as fired are those not active at the worker
    that had something to invoke, timed ones excepted; and the calls sent are
    for the actions of non-active triggers only, in order and at most once
    each, under the session of the object. *)
Theorem triggers_advance_once (L : Layout) (R : Rand) (conf : coord_conf) (now : Z) (resp : str)
    (active : gset str) (bk : BucketKey) (c : coord) (ts : list Trigger)
    (c' : coord) (ts' : list Trigger) (fired : list str) (outs : list out)
    (Hcheck : check_triggers conf now resp active bk c ts = Ok (c', ts', fired, outs)) :
  ts' = (fun t => (action_for_new_object now t bk).2) <$> ts /\
  fired = get_trigger_name <$> filter (fun t => (get_trigger_name t ∉ active) /\
            (action_for_new_object now t bk).1 <> [] /\ get_type t <> BY_TIME) ts /\
  exists invoked, invoked `sublist_of` (due now active bk ts) /\ Forall2 (call_for bk) invoked outs.
Proof. by eapply check_triggers_spec. Qed.

(** * Routing *)
Definition avail_of (m : gmap str NodeStatus) (ip : str) : Z := avail_executors_ (at_or empty_NodeStatus ip m).

Lemma avail_of_touch m ip ip' : avail_of (touch empty_NodeStatus ip m) ip' = avail_of m ip'.
Proof. unfold avail_of. by rewrite at_or_touch. Qed.

(** The best of a sequence of candidates, starting from none. *)
Definition best_of (m : gmap str NodeStatus) (seen : list str) (best : Z * str) : Prop :=
  0 <= best.1 /\ (forall ip, ip ∈ seen -> avail_of m ip <= best.1) /\
  ((best = (0, []) /\ forall ip, ip ∈ seen -> avail_of m ip <= 0) \/
   (best.2 ∈ seen /\ avail_of m best.2 = best.1 /\ 0 < best.1)).

Lemma best_of_step m seen best ip :
  best_of m seen best -> best_of m (seen ++ [ip]) (better best ip (avail_of m ip)).
Proof.
  intros (H0 & Hle & Hcase). unfold better, best_of.
  destruct (best.1 <? avail_of m ip) eqn:E; bool_to_prop; simpl.
  - split; [lia|]. split.
    + intros ip' [Hin| ->%list_elem_of_singleton]%elem_of_app; [|lia]. specialize (Hle _ Hin). lia.
    + right. split; [|split; [done|lia]]. apply elem_of_app. right. by apply list_elem_of_singleton.
  - split; [done|]. split.
    + intros ip' [Hin| ->%list_elem_of_singleton]%elem_of_app; [by apply Hle|done].
    + destruct Hcase as [[-> Hz]|(Hin & Ha & Hp)]; [left|right].
      * split; [done|]. intros ip' [Hin| ->%list_elem_of_singleton]%elem_of_app; [by apply Hz|done].
      * split; [|done]. apply elem_of_app. by left.
Qed.

Lemma route_to_data_best nodes m :
  let '(best, m') := route_to_data nodes m in
  best_of m nodes best /\ (forall ip, avail_of m' ip = avail_of m ip) /\
  (forall ip, is_Some (m' !! ip) <-> is_Some (m !! ip) \/ ip ∈ nodes).
Proof.
  unfold route_to_data. induction nodes as [|ip nodes IH] using rev_ind.
  { split; [|split; [done|set_solver]]. split; [done|]. split; [set_solver|]. left. split; [done|]. set_solver. }
  rewrite foldl_app. destruct (foldl _ _ nodes) as [best m1]. destruct IH as (Hb & Ha & Hd). cbn [foldl].
  split; [|split].
  - change (avail_executors_ (at_or empty_NodeStatus ip (touch empty_NodeStatus ip m1)))
      with (avail_of (touch empty_NodeStatus ip m1) ip).
    rewrite avail_of_touch, Ha. by apply best_of_step.
  - intros ip'. by rewrite avail_of_touch.
  - intros ip'. rewrite elem_of_app, list_elem_of_singleton. destruct (decide (ip = ip')) as [<-|Hne].
    + rewrite lookup_touch. split; [by right; right|by eexists].
    + rewrite lookup_touch_ne by done. rewrite Hd. naive_solver.
Qed.

Lemma best_over_all (m : gmap str NodeStatus) (l : list (str * NodeStatus)) :
  (forall ip st, (ip, st) ∈ l -> m !! ip = Some st) ->
  best_of m l.*1 (foldl (fun best '(ip, st) => better best ip (avail_executors_ st)) (0, []) l).
Proof.
  induction l as [|[ip st] l IH] using rev_ind; intros Hl.
  { split; [done|]. split; [set_solver|]. left. split; [done|]. set_solver. }
  rewrite foldl_app, fmap_app. cbn [foldl fmap list_fmap].
  assert (avail_executors_ st = avail_of m ip) as ->.
  { unfold avail_of, at_or. rewrite (Hl ip st); [done|]. apply elem_of_app. right. by apply list_elem_of_singleton. }
  apply best_of_step, IH. intros ip' st' Hin. apply Hl, elem_of_app. by left.
Qed.

(** An internal call goes to a node that holds some of its data and has the
    most free executors of those that do; if none of them has one free, to the
    node with the most free executors of all; and nowhere only if no node has
    any. *)
Theorem route_prefers_data (L : Layout) (data_node : gset str) (m : gmap str NodeStatus) (w : str)
    (Hnames : is_Some (m !! []) -> avail_of m [] <= 0) (Hdata : [] ∉ data_node)
    (Hw : (route data_node m).1 = w) :
  (w ∈ data_node /\ 0 < avail_of m w /\ forall ip, ip ∈ data_node -> avail_of m ip <= avail_of m w) \/
  ((forall ip, ip ∈ data_node -> avail_of m ip <= 0) /\
   ((w <> [] /\ 0 < avail_of m w /\ forall ip, avail_of m ip <= avail_of m w) \/
    (w = [] /\ forall ip, avail_of m ip <= 0))).
Proof.
  unfold route in Hw. pose proof (route_to_data_best (set_iter data_node) m) as Hr.
  destruct (route_to_data (set_iter data_node) m) as [best m']. destruct Hr as ((H0 & Hle & Hcase) & Ha & Hd).
  assert (forall ip, ip ∈ data_node -> avail_of m ip <= best.1) as Hle' by (intros; apply Hle; by apply elem_of_set_iter).
  case_decide as Hne.
  2:{ left. destruct Hcase as [[-> _]|(Hin & Ha' & Hp)]; [done|]. simpl in Hw. subst w.
      apply elem_of_set_iter in Hin. rewrite Ha'. done. }
  destruct Hcase as [[-> Hz]|(Hin & _)]; [|apply elem_of_set_iter in Hin; congruence]. right.
  split; [intros ip Hip; apply Hz; by apply elem_of_set_iter|].
  destruct (best_over_all m' (map_iter m')) as (G0 & Gle & Gcase); [intros ip st; apply elem_of_map_iter|].
  set (b := foldl _ (0, []) (map_iter m')) in *. simpl in Hw. subst w.
  assert (forall ip, avail_of m ip <= b.1) as Hall.
  { intros ip. rewrite <- Ha. destruct (m' !! ip) as [st|] eqn:E.
    - apply Gle. apply list_elem_of_fmap. exists (ip, st). by rewrite elem_of_map_iter.
    - unfold avail_of, at_or. rewrite E. simpl. lia. }
  destruct Gcase as [[E Hz']|(Hin & Hb & Hp)].
  - right. rewrite E in *. split; [done|]. intros ip. by apply Hall.
  - left. rewrite <- Ha, Hb. split; [|split; [done|]].
    + intros E. rewrite E, Ha in Hb. destruct (m !! []) as [st|] eqn:Em; [specialize (Hnames ltac:(by eexists)); lia|].
      unfold avail_of, at_or in Hb. rewrite Em in Hb. simpl in Hb. lia.
    + intros ip. by rewrite <- Hb, Ha, <- (Ha b.2), Hb.
Qed.

(** * A coordinator at work

    A bucket with one immediate trigger, and one node with two executors. *)
Definition demo_history : list (Z * polled) :=
  [(0, mk_polled None None
         (Some (mk_BucketOperationRequest CREATE_BUCKET (lit "app") (lit "b") (lit "1") (lit "r")))
         None (Some (mk_UpdateStatusMessage (lit "10.0.0.2") 2 [])) None None None None);
   (1, mk_polled None None None
         (Some (mk_TriggerOperationRequest ADD_TRIGGER (lit "app") (lit "b") (lit "t") 0 IMMEDIATE
                  (@ImmediateTrigger_dump test_codecs (mk_base (lit "f") (lit "t") IMMEDIATE)) (lit "2") (lit "r") []))
         None None None None None)].

Definition demo_run : res (coord * list out) :=
  @coord_run layout_id rand_lcg test_codecs (mk_coord_conf (lit "10.0.0.1") 0 2) (coord_init 7) demo_history.
Definition demo_coord : coord := match demo_run with Ok (c, _) => c | Fault _ => coord_init 0 end.
Definition demo_outs : list out := match demo_run with Ok (_, o) => o | Fault _ => [] end.

Lemma demo_wf : history_wf demo_history.
Proof. repeat constructor. by intros _. Qed.

Lemma demo_run_ok : demo_run = Ok (demo_coord, demo_outs).
Proof. by vm_compute. Qed.

Lemma demo_reachable :
  @reachable layout_id rand_lcg test_codecs (mk_coord_conf (lit "10.0.0.1") 0 2) demo_coord.
Proof. exists 7, demo_history, demo_outs. split; [apply demo_wf|apply demo_run_ok]. Qed.

Definition demo_addr : BucketKeyAddress :=
  mk_BucketKeyAddress (lit "b") (lit "k") (lit "s") [lit "tcp://10.0.0.2:4400"] [].
Definition demo_notify : KeyNotifyRequest := mk_KeyNotifyRequest (lit "r") [demo_addr] [] (lit "3").

Lemma coordinator_never_faults_witness :
  is_ok (@coord_run layout_id rand_lcg test_codecs (mk_coord_conf (lit "10.0.0.1") 0 2) (coord_init 7) demo_history).
Proof. apply (coordinator_never_faults layout_id rand_lcg test_codecs); [done|apply demo_wf]. Defined.

Lemma registry_invariant_witness :
  (forall b app, bucket_app_map demo_coord !! b = Some app -> b ∈ at_or ∅ app (app_buckets_map demo_coord)) /\
  (forall b ts, bucket_triggers_map demo_coord !! b = Some ts -> ts <> [] -> is_Some (bucket_app_map demo_coord !! b)).
Proof.
  apply (registry_invariant layout_id rand_lcg test_codecs (mk_coord_conf (lit "10.0.0.1") 0 2) 7 demo_history
    demo_coord demo_outs). apply demo_run_ok.
Defined.

Lemma foreign_delete_leaves_listing_witness :
  let r := mk_BucketOperationRequest DELETE_BUCKET (lit "other") (lit "b") (lit "4") (lit "r") in
  let c' := (bucket_op_handler demo_coord r).1 in
  (bucket_op_handler demo_coord r).2 =
    [(lit "r", BucketOpResp (mk_BucketOperationResponse (lit "b") (lit "4") SUCCESS))] /\
  bucket_app_map c' !! lit "b" = None /\ lit "b" ∈ at_or ∅ (lit "app") (app_buckets_map c').
Proof.
  apply (foreign_delete_leaves_listing demo_coord
    (mk_BucketOperationRequest DELETE_BUCKET (lit "other") (lit "b") (lit "4") (lit "r")) (lit "app"));
    [done|by vm_compute|apply (bool_decide_unpack _); by vm_compute|done].
Defined.

Lemma notify_then_query_witness :
  exists c' outs ips,
    @notify_handler layout_id rand_lcg (mk_coord_conf (lit "10.0.0.1") 0 2) 5 demo_coord demo_notify = Ok (c', outs) /\
    @query_handler layout_id c' (mk_KeyQueryRequest (lit "q") [demo_addr] (lit "9")) =
      (c', [(lit "q", QueryResp (mk_KeyQueryResponse
              [mk_BucketKeyAddress (lit "b") (lit "k") (lit "s") ips []] SUCCESS (lit "9")))]) /\
    lit "tcp://10.0.0.2:4400" ∈ ips /\ forall x, known_addr demo_coord (lit "b") (lit "k") x -> x ∈ ips.
Proof.
  apply (notify_then_query layout_id rand_lcg test_codecs (mk_coord_conf (lit "10.0.0.1") 0 2) 5 demo_coord
    demo_notify demo_addr (lit "tcp://10.0.0.2:4400") (lit "q") (lit "9")).
  - done.
  - apply demo_reachable.
  - repeat constructor. exists (lit "tcp://10.0.0.2:4400"), []. split; [done|]. by exists (lit "10.0.0.2").
  - repeat constructor. intros _. exists (lit "app"). by vm_compute.
  - left.
  - done.
Defined.

Definition demo_triggers : list Trigger :=
  [ImmediateTrigger_new (lit "f") (lit "t"); ImmediateTrigger_new (lit "g") (lit "u")].
Definition demo_check : res (coord * list Trigger * list str * list out) :=
  @check_triggers layout_id rand_lcg (mk_coord_conf (lit "10.0.0.1") 0 2) 5 [] {[lit "u"]}
    (get_bucket_key_from_addr demo_addr)
    (update_address (get_bucket_key_from_addr demo_addr) (lit "tcp://10.0.0.2:4400") demo_coord) demo_triggers.
Definition demo_check_coord : coord := match demo_check with Ok (c, _, _, _) => c | _ => coord_init 0 end.
Definition demo_check_outs : list out := match demo_check with Ok (_, _, _, o) => o | _ => [] end.

Lemma triggers_advance_once_witness :
  demo_triggers = (fun t => (@action_for_new_object layout_id 5 t (get_bucket_key_from_addr demo_addr)).2) <$> demo_triggers /\
  [lit "t"] = get_trigger_name <$> filter (fun t => (get_trigger_name t ∉ ({[lit "u"]} : gset str)) /\
      (@action_for_new_object layout_id 5 t (get_bucket_key_from_addr demo_addr)).1 <> [] /\ get_type t <> BY_TIME)
      demo_triggers /\
  exists invoked, invoked `sublist_of` (@due 5 {[lit "u"]} (get_bucket_key_from_addr demo_addr) layout_id demo_triggers) /\
    Forall2 (call_for (get_bucket_key_from_addr demo_addr)) invoked demo_check_outs.
Proof.
  apply (triggers_advance_once layout_id rand_lcg (mk_coord_conf (lit "10.0.0.1") 0 2) 5 [] {[lit "u"]}
    (get_bucket_key_from_addr demo_addr)
    (update_address (get_bucket_key_from_addr demo_addr) (lit "tcp://10.0.0.2:4400") demo_coord)
    demo_triggers demo_check_coord).
  by vm_compute.
Defined.

Lemma route_prefers_data_witness :
  let m := {[lit "a" := mk_NodeStatus 0 1 ∅; lit "b" := mk_NodeStatus 0 3 ∅]} in
  (lit "a" ∈ ({[lit "a"]} : gset str) /\ 0 < avail_of m (lit "a") /\
   forall ip, ip ∈ ({[lit "a"]} : gset str) -> avail_of m ip <= avail_of m (lit "a")) \/
  ((forall ip, ip ∈ ({[lit "a"]} : gset str) -> avail_of m ip <= 0) /\
   ((lit "a" <> [] /\ 0 < avail_of m (lit "a") /\ forall ip, avail_of m ip <= avail_of m (lit "a")) \/
    (lit "a" = [] /\ forall ip, avail_of m ip <= 0))).
Proof.
  apply (route_prefers_data layout_id {[lit "a"]} {[lit "a" := mk_NodeStatus 0 1 ∅; lit "b" := mk_NodeStatus 0 3 ∅]}).
  - by vm_compute.
  - set_solver.
  - by vm_compute.
Defined.

(** A trigger of an unknown primitive type ends the coordinator: the handler
    logs the error and then asks the null pointer for its type. *)
Lemma unknown_primitive_type_faults (L : Layout) (P : PrimitiveCodecs) conf now c r :
  tor_operation_type r = ADD_TRIGGER -> is_Some (bucket_app_map c !! tor_bucket_name r) ->
  tor_primitive_type r = PT_OTHER -> trigger_op_handler conf now c r = Fault NullDeref.
Proof.
  intros Hop Hb Ht. unfold trigger_op_handler, trigger_op_add. by rewrite Hop, bool_decide_eq_true_2, Ht by done.
Qed.

(** Deleting a trigger that does not exist is reported as a success. *)
Lemma delete_missing_trigger_succeeds (L : Layout) (P : PrimitiveCodecs) conf now c r :
  tor_operation_type r = DELETE_TRIGGER -> is_Some (bucket_app_map c !! tor_bucket_name r) ->
  bucket_triggers_map c !! tor_bucket_name r = None ->
  exists c' outs, trigger_op_handler conf now c r =
    Ok (c', (tor_response_address r, TriggerOpResp (mk_TriggerOperationResponse (tor_bucket_name r)
              (tor_trigger_name r) (tor_request_id r) SUCCESS)) :: outs).
Proof.
  intros Hop Hb Ht. unfold trigger_op_handler, trigger_op_delete.
  rewrite Hop, bool_decide_eq_true_2 by done. unfold at_or. rewrite Ht. by do 2 eexists.
Qed.
