(* ===== verification/Sched.v ===== *)
(** The worker's scheduler ([src/scheduler/scheduler_server.cpp] and
    [src/scheduler/object_handlers.cpp]). One record holds the globals and the
    locals of [run]; the operations of the communication helper that it calls
    return nothing, so a call is an output, as is a message to an executor. *)
From stdpp Require Import prelude gmap strings list fin_sets.
From Stdlib Require Import ZArith Lia Ascii.
From S2P Require Import Prelude Cpp Effects Proto Common Threads Trigger.

Open Scope Z_scope.

(** * Data *)
(** A [TriggerPointer]: several containers share the trigger it points to. *)
Abbreviation ptr := nat.

Record InflightIORequest := mk_InflightIORequest {
  executor_id_ : Z; req_id_ : Z; recv_time_ : Z }.

Record DelayFunctionCall := mk_DelayFunctionCall {
  d_session_id_ : str; d_app_name_ : str; d_func_name_ : str; d_func_args_ : list str;
  d_arg_flag_ : Z; trigger_time_ : Z }.

Record RerunTriggerTimeout := mk_RerunTriggerTimeout { trigger_ptr_ : ptr; rt_timeout_ : Z }.
Record RerunCheckQueueItem := mk_RerunCheckQueueItem {
  check_time_ : Z; rq_session_ : str; rq_trigger_ptr_ : ptr }.

Record InflightFuncArgs := mk_InflightFuncArgs {
  if_func_name_ : str; if_session_id_ : str; if_key_args_ : list str;
  if_inflight_args_ : gset str; if_arg_flag_ : Z }.
(** What [call_id_inflight_args_map[cid]] makes for an unknown id. The flag is
    left uninitialised there; zero is one of its values. *)
Definition empty_InflightFuncArgs := mk_InflightFuncArgs [] [] [] ∅ 0.

Record AppInfo := mk_AppInfo {
  ai_functions_ : gset str; direct_deps_ : gmap str (gset str); buckets_ : list str }.
Definition empty_AppInfo := mk_AppInfo ∅ ∅ [].

Inductive RecvMsgType := RM_Call | RM_DataResp | RM_KvsGetResp | RM_KvsPutResp.
Record RecvMsg := mk_RecvMsg {
  rm_msg_type_ : RecvMsgType; rm_app_name_ : str; rm_resp_address_ : str;
  rm_func_name_ : list str; rm_func_args_ : list (list str); rm_is_func_arg_keys_ : list Z;
  rm_session_id_ : str; rm_sync_data_status_ : bool; rm_data_key_ : str; rm_data_size_ : Z }.

(** The configuration [main] reads. *)
Record sched_conf := mk_sched_conf {
  schedDelayTime : Z; sharedExecutor : bool; rejectExtraReq : bool; executor_num : Z }.
Definition forwardDataPackingThreshold : Z := 10240.
Definition schedTimerThreshold : Z := 10.

(** What the scheduler asks of the communication helper. The data of a
    [PutKvsAsync] is what the pointer it passes points to. *)
Inductive helper_call :=
  | NotifyPut (bk : BucketKey) (active_triggers : list str) (resp_address payload : str)
  | UpdateStatus (avail_executors : Z) (function_cache : gset str)
  | ForwardFuncCall (resp_address app_name : str) (func_name_vec : list str)
      (func_args_vec : list (list str)) (arg_flag : Z) (session_id : str)
  | SendDataReq (key : str)
  | GetKvsAsync (key : str)
  | PutKvsAsync (key data : str)
  | ClientResponse (resp_address app_name output_data : str).

Inductive sched_out :=
  | ToExecutor (executor : Z) (msg : str)
  | Helper (call : helper_call).

(** * State *)
Record sched := mk_sched {
  s_key_len_map : gmap str Z;
  s_key_val_map : gmap str str;
  s_session_client_addr_map : gmap str str;
  s_delay_call_queue : list DelayFunctionCall;
  s_rerun_check_queue : list RerunCheckQueueItem;
  s_func_trigger_timeout_map : gmap str (list RerunTriggerTimeout);
  s_ramSeed : Z;
  s_call_id : Z;
  s_call_id_inflight_args_map : gmap Z InflightFuncArgs;
  s_key_call_id_map : gmap str (gset Z);
  s_key_remote_get_map : gmap str (list InflightIORequest);
  s_key_ksv_put_map : gmap str (list InflightIORequest);
  s_app_info_map : gmap str AppInfo;
  s_func_app_map : gmap str str;
  s_bucket_app_map : gmap str str;
  s_function_executor_map : gmap str (gset Z);
  s_executor_status_map : gmap Z Z;
  s_bucket_triggers_map : gmap str (list ptr);
  s_heap : gmap ptr Trigger;
  s_shm : gmap str str }.

Definition upd_key_len_map (f : gmap str Z -> gmap str Z) (s : sched) : sched := mk_sched (f (s_key_len_map
  s)) (s_key_val_map s) (s_session_client_addr_map s) (s_delay_call_queue s) (s_rerun_check_queue s)
  (s_func_trigger_timeout_map s) (s_ramSeed s) (s_call_id s) (s_call_id_inflight_args_map s)
  (s_key_call_id_map s) (s_key_remote_get_map s) (s_key_ksv_put_map s) (s_app_info_map s) (s_func_app_map s)
  (s_bucket_app_map s) (s_function_executor_map s) (s_executor_status_map s) (s_bucket_triggers_map s) (s_heap
  s) (s_shm s).
Definition upd_key_val_map (f : gmap str str -> gmap str str) (s : sched) : sched := mk_sched (s_key_len_map
  s) (f (s_key_val_map s)) (s_session_client_addr_map s) (s_delay_call_queue s) (s_rerun_check_queue s)
  (s_func_trigger_timeout_map s) (s_ramSeed s) (s_call_id s) (s_call_id_inflight_args_map s)
  (s_key_call_id_map s) (s_key_remote_get_map s) (s_key_ksv_put_map s) (s_app_info_map s) (s_func_app_map s)
  (s_bucket_app_map s) (s_function_executor_map s) (s_executor_status_map s) (s_bucket_triggers_map s) (s_heap
  s) (s_shm s).
Definition upd_session_client_addr_map (f : gmap str str -> gmap str str) (s : sched) : sched := mk_sched
  (s_key_len_map s) (s_key_val_map s) (f (s_session_client_addr_map s)) (s_delay_call_queue s)
  (s_rerun_check_queue s) (s_func_trigger_timeout_map s) (s_ramSeed s) (s_call_id s)
  (s_call_id_inflight_args_map s) (s_key_call_id_map s) (s_key_remote_get_map s) (s_key_ksv_put_map s)
  (s_app_info_map s) (s_func_app_map s) (s_bucket_app_map s) (s_function_executor_map s)
  (s_executor_status_map s) (s_bucket_triggers_map s) (s_heap s) (s_shm s).
Definition upd_delay_call_queue (f : list DelayFunctionCall -> list DelayFunctionCall) (s : sched) : sched :=
  mk_sched (s_key_len_map s) (s_key_val_map s) (s_session_client_addr_map s) (f (s_delay_call_queue s))
  (s_rerun_check_queue s) (s_func_trigger_timeout_map s) (s_ramSeed s) (s_call_id s)
  (s_call_id_inflight_args_map s) (s_key_call_id_map s) (s_key_remote_get_map s) (s_key_ksv_put_map s)
  (s_app_info_map s) (s_func_app_map s) (s_bucket_app_map s) (s_function_executor_map s)
  (s_executor_status_map s) (s_bucket_triggers_map s) (s_heap s) (s_shm s).
Definition upd_rerun_check_queue (f : list RerunCheckQueueItem -> list RerunCheckQueueItem) (s : sched) :
  sched := mk_sched (s_key_len_map s) (s_key_val_map s) (s_session_client_addr_map s) (s_delay_call_queue s)
  (f (s_rerun_check_queue s)) (s_func_trigger_timeout_map s) (s_ramSeed s) (s_call_id s)
  (s_call_id_inflight_args_map s) (s_key_call_id_map s) (s_key_remote_get_map s) (s_key_ksv_put_map s)
  (s_app_info_map s) (s_func_app_map s) (s_bucket_app_map s) (s_function_executor_map s)
  (s_executor_status_map s) (s_bucket_triggers_map s) (s_heap s) (s_shm s).
Definition upd_func_trigger_timeout_map (f : gmap str (list RerunTriggerTimeout) -> gmap str (list
  RerunTriggerTimeout)) (s : sched) : sched := mk_sched (s_key_len_map s) (s_key_val_map s)
  (s_session_client_addr_map s) (s_delay_call_queue s) (s_rerun_check_queue s) (f (s_func_trigger_timeout_map
  s)) (s_ramSeed s) (s_call_id s) (s_call_id_inflight_args_map s) (s_key_call_id_map s) (s_key_remote_get_map
  s) (s_key_ksv_put_map s) (s_app_info_map s) (s_func_app_map s) (s_bucket_app_map s) (s_function_executor_map
  s) (s_executor_status_map s) (s_bucket_triggers_map s) (s_heap s) (s_shm s).
Definition upd_ramSeed (f : Z -> Z) (s : sched) : sched := mk_sched (s_key_len_map s) (s_key_val_map s)
  (s_session_client_addr_map s) (s_delay_call_queue s) (s_rerun_check_queue s) (s_func_trigger_timeout_map s)
  (f (s_ramSeed s)) (s_call_id s) (s_call_id_inflight_args_map s) (s_key_call_id_map s) (s_key_remote_get_map
  s) (s_key_ksv_put_map s) (s_app_info_map s) (s_func_app_map s) (s_bucket_app_map s) (s_function_executor_map
  s) (s_executor_status_map s) (s_bucket_triggers_map s) (s_heap s) (s_shm s).
Definition upd_call_id (f : Z -> Z) (s : sched) : sched := mk_sched (s_key_len_map s) (s_key_val_map s)
  (s_session_client_addr_map s) (s_delay_call_queue s) (s_rerun_check_queue s) (s_func_trigger_timeout_map s)
  (s_ramSeed s) (f (s_call_id s)) (s_call_id_inflight_args_map s) (s_key_call_id_map s) (s_key_remote_get_map
  s) (s_key_ksv_put_map s) (s_app_info_map s) (s_func_app_map s) (s_bucket_app_map s) (s_function_executor_map
  s) (s_executor_status_map s) (s_bucket_triggers_map s) (s_heap s) (s_shm s).
Definition upd_call_id_inflight_args_map (f : gmap Z InflightFuncArgs -> gmap Z InflightFuncArgs) (s : sched)
  : sched := mk_sched (s_key_len_map s) (s_key_val_map s) (s_session_client_addr_map s) (s_delay_call_queue s)
  (s_rerun_check_queue s) (s_func_trigger_timeout_map s) (s_ramSeed s) (s_call_id s) (f
  (s_call_id_inflight_args_map s)) (s_key_call_id_map s) (s_key_remote_get_map s) (s_key_ksv_put_map s)
  (s_app_info_map s) (s_func_app_map s) (s_bucket_app_map s) (s_function_executor_map s)
  (s_executor_status_map s) (s_bucket_triggers_map s) (s_heap s) (s_shm s).
Definition upd_key_call_id_map (f : gmap str (gset Z) -> gmap str (gset Z)) (s : sched) : sched := mk_sched
  (s_key_len_map s) (s_key_val_map s) (s_session_client_addr_map s) (s_delay_call_queue s)
  (s_rerun_check_queue s) (s_func_trigger_timeout_map s) (s_ramSeed s) (s_call_id s)
  (s_call_id_inflight_args_map s) (f (s_key_call_id_map s)) (s_key_remote_get_map s) (s_key_ksv_put_map s)
  (s_app_info_map s) (s_func_app_map s) (s_bucket_app_map s) (s_function_executor_map s)
  (s_executor_status_map s) (s_bucket_triggers_map s) (s_heap s) (s_shm s).
Definition upd_key_remote_get_map (f : gmap str (list InflightIORequest) -> gmap str (list InflightIORequest))
  (s : sched) : sched := mk_sched (s_key_len_map s) (s_key_val_map s) (s_session_client_addr_map s)
  (s_delay_call_queue s) (s_rerun_check_queue s) (s_func_trigger_timeout_map s) (s_ramSeed s) (s_call_id s)
  (s_call_id_inflight_args_map s) (s_key_call_id_map s) (f (s_key_remote_get_map s)) (s_key_ksv_put_map s)
  (s_app_info_map s) (s_func_app_map s) (s_bucket_app_map s) (s_function_executor_map s)
  (s_executor_status_map s) (s_bucket_triggers_map s) (s_heap s) (s_shm s).
Definition upd_key_ksv_put_map (f : gmap str (list InflightIORequest) -> gmap str (list InflightIORequest)) (s
  : sched) : sched := mk_sched (s_key_len_map s) (s_key_val_map s) (s_session_client_addr_map s)
  (s_delay_call_queue s) (s_rerun_check_queue s) (s_func_trigger_timeout_map s) (s_ramSeed s) (s_call_id s)
  (s_call_id_inflight_args_map s) (s_key_call_id_map s) (s_key_remote_get_map s) (f (s_key_ksv_put_map s))
  (s_app_info_map s) (s_func_app_map s) (s_bucket_app_map s) (s_function_executor_map s)
  (s_executor_status_map s) (s_bucket_triggers_map s) (s_heap s) (s_shm s).
Definition upd_app_info_map (f : gmap str AppInfo -> gmap str AppInfo) (s : sched) : sched := mk_sched
  (s_key_len_map s) (s_key_val_map s) (s_session_client_addr_map s) (s_delay_call_queue s)
  (s_rerun_check_queue s) (s_func_trigger_timeout_map s) (s_ramSeed s) (s_call_id s)
  (s_call_id_inflight_args_map s) (s_key_call_id_map s) (s_key_remote_get_map s) (s_key_ksv_put_map s) (f
  (s_app_info_map s)) (s_func_app_map s) (s_bucket_app_map s) (s_function_executor_map s)
  (s_executor_status_map s) (s_bucket_triggers_map s) (s_heap s) (s_shm s).
Definition upd_func_app_map (f : gmap str str -> gmap str str) (s : sched) : sched := mk_sched (s_key_len_map
  s) (s_key_val_map s) (s_session_client_addr_map s) (s_delay_call_queue s) (s_rerun_check_queue s)
  (s_func_trigger_timeout_map s) (s_ramSeed s) (s_call_id s) (s_call_id_inflight_args_map s)
  (s_key_call_id_map s) (s_key_remote_get_map s) (s_key_ksv_put_map s) (s_app_info_map s) (f (s_func_app_map
  s)) (s_bucket_app_map s) (s_function_executor_map s) (s_executor_status_map s) (s_bucket_triggers_map s)
  (s_heap s) (s_shm s).
Definition upd_bucket_app_map (f : gmap str str -> gmap str str) (s : sched) : sched := mk_sched
  (s_key_len_map s) (s_key_val_map s) (s_session_client_addr_map s) (s_delay_call_queue s)
  (s_rerun_check_queue s) (s_func_trigger_timeout_map s) (s_ramSeed s) (s_call_id s)
  (s_call_id_inflight_args_map s) (s_key_call_id_map s) (s_key_remote_get_map s) (s_key_ksv_put_map s)
  (s_app_info_map s) (s_func_app_map s) (f (s_bucket_app_map s)) (s_function_executor_map s)
  (s_executor_status_map s) (s_bucket_triggers_map s) (s_heap s) (s_shm s).
Definition upd_function_executor_map (f : gmap str (gset Z) -> gmap str (gset Z)) (s : sched) : sched :=
  mk_sched (s_key_len_map s) (s_key_val_map s) (s_session_client_addr_map s) (s_delay_call_queue s)
  (s_rerun_check_queue s) (s_func_trigger_timeout_map s) (s_ramSeed s) (s_call_id s)
  (s_call_id_inflight_args_map s) (s_key_call_id_map s) (s_key_remote_get_map s) (s_key_ksv_put_map s)
  (s_app_info_map s) (s_func_app_map s) (s_bucket_app_map s) (f (s_function_executor_map s))
  (s_executor_status_map s) (s_bucket_triggers_map s) (s_heap s) (s_shm s).
Definition upd_executor_status_map (f : gmap Z Z -> gmap Z Z) (s : sched) : sched := mk_sched (s_key_len_map
  s) (s_key_val_map s) (s_session_client_addr_map s) (s_delay_call_queue s) (s_rerun_check_queue s)
  (s_func_trigger_timeout_map s) (s_ramSeed s) (s_call_id s) (s_call_id_inflight_args_map s)
  (s_key_call_id_map s) (s_key_remote_get_map s) (s_key_ksv_put_map s) (s_app_info_map s) (s_func_app_map s)
  (s_bucket_app_map s) (s_function_executor_map s) (f (s_executor_status_map s)) (s_bucket_triggers_map s)
  (s_heap s) (s_shm s).
Definition upd_bucket_triggers_map (f : gmap str (list ptr) -> gmap str (list ptr)) (s : sched) : sched :=
  mk_sched (s_key_len_map s) (s_key_val_map s) (s_session_client_addr_map s) (s_delay_call_queue s)
  (s_rerun_check_queue s) (s_func_trigger_timeout_map s) (s_ramSeed s) (s_call_id s)
  (s_call_id_inflight_args_map s) (s_key_call_id_map s) (s_key_remote_get_map s) (s_key_ksv_put_map s)
  (s_app_info_map s) (s_func_app_map s) (s_bucket_app_map s) (s_function_executor_map s)
  (s_executor_status_map s) (f (s_bucket_triggers_map s)) (s_heap s) (s_shm s).
Definition upd_heap (f : gmap ptr Trigger -> gmap ptr Trigger) (s : sched) : sched := mk_sched (s_key_len_map
  s) (s_key_val_map s) (s_session_client_addr_map s) (s_delay_call_queue s) (s_rerun_check_queue s)
  (s_func_trigger_timeout_map s) (s_ramSeed s) (s_call_id s) (s_call_id_inflight_args_map s)
  (s_key_call_id_map s) (s_key_remote_get_map s) (s_key_ksv_put_map s) (s_app_info_map s) (s_func_app_map s)
  (s_bucket_app_map s) (s_function_executor_map s) (s_executor_status_map s) (s_bucket_triggers_map s) (f
  (s_heap s)) (s_shm s).
Definition upd_shm (f : gmap str str -> gmap str str) (s : sched) : sched := mk_sched (s_key_len_map s)
  (s_key_val_map s) (s_session_client_addr_map s) (s_delay_call_queue s) (s_rerun_check_queue s)
  (s_func_trigger_timeout_map s) (s_ramSeed s) (s_call_id s) (s_call_id_inflight_args_map s)
  (s_key_call_id_map s) (s_key_remote_get_map s) (s_key_ksv_put_map s) (s_app_info_map s) (s_func_app_map s)
  (s_bucket_app_map s) (s_function_executor_map s) (s_executor_status_map s) (s_bucket_triggers_map s) (s_heap
  s) (f (s_shm s)).


Abbreviation SM := (M sched sched_out).

Definition helper (c : helper_call) : SM () := emit (Helper c).

(** * Executors *)
(** [for (uint8_t e_id = 0; e_id < executor; e_id++)]: with more than 255
    executors the counter wraps and the loop does not end. *)
Fixpoint init_executors (fuel : nat) (executor e_id : Z) (m : gmap Z Z) : res (gmap Z Z) :=
  if e_id <? executor then
    match fuel with
    | O => Fault Diverges
    | S fuel => init_executors fuel executor (u8 (e_id + 1)) (<[e_id := 2]> m)
    end
  else Ok m.

Definition sched_init (conf : sched_conf) (seed : Z) : res sched :=
  m ← init_executors 256 (executor_num conf) 0 ∅;
  Ok (mk_sched ∅ ∅ ∅ [] [] ∅ seed 0 ∅ ∅ ∅ ∅ ∅ ∅ ∅ ∅ m ∅ ∅ ∅).

Definition get_avail_executor_num `{Layout} (m : gmap Z Z) : Z :=
  Z.of_nat (length (filter (fun '(_, st) => st = 0 \/ st = 1) (map_iter m))).

(** The channel of an executor that was not created at the start is a null
    pointer. *)
Definition send_to_executer (conf : sched_conf) (executor : Z) (msg : str) : SM () :=
  if (0 <=? executor) && (executor <? executor_num conf) then emit (ToExecutor executor msg)
  else lift (Fault NullDeref).

(** * Shared memory

    [ipc::shm::acquire] of an object that does not exist gives no memory to
    read, and reading past its end is undefined. *)
Definition shm_read (name : str) (size : Z) (s : sched) : res str :=
  match s_shm s !! name with
  | None => Fault NullDeref
  | Some v => if size <=? Z.of_nat (length v) then Ok (take (Z.to_nat size) v) else Fault IndexPastEnd
  end.

Definition copy_to_shm_obj (name data : str) (s : sched) : sched := upd_shm <[name := data]> s.

(** The object's bytes; [None] when its length is unknown here. *)
Definition get_shm_obj (name : str) (s : sched) : res (option str) :=
  match s_key_len_map s !! name with
  | Some size => Some <$> shm_read name size s
  | None => Ok None
  end.

(** * Forwarding a call to the coordinator

    The arguments come in threes: bucket, key and size. *)
Fixpoint args_size (fuel : nat) (args : list str) : res Z :=
  match args, fuel with
  | [], _ => Ok 0
  | _, O => Ok 0
  | _, S fuel =>
      a ← vec_at args 2;
      n ← stoi a;
      rest ← args_size fuel (drop 3 args);
      Ok (n + rest)
  end.

Fixpoint total_data_size (func_args_vec : list (list str)) : res Z :=
  match func_args_vec with
  | [] => Ok 0
  | args :: l => n ← args_size (length args) args; rest ← total_data_size l; Ok (n + rest)
  end.

Fixpoint real_data_args (fuel : nat) (arg_flag : Z) (args : list str) : SM (list str) :=
  match args, fuel with
  | [], _ => mret []
  | _, O => mret []
  | _, S fuel =>
      a0 ← lift (vec_at args 0);
      a1 ← lift (vec_at args 1);
      let key_name := a0 ++ kDelimiter ++ a1 in
      size_len ← gets (fun s => at_or 0 key_name (s_key_len_map s));
      _ ← modify (upd_key_len_map (touch 0 key_name));
      s ← gets id;
      real_data ← lift (shm_read key_name size_len s);
      rest ← real_data_args fuel arg_flag (drop 3 args);
      mret ((if arg_flag =? 1 then [real_data]
             else if arg_flag =? 2 then [a1; real_data] else []) ++ rest)
  end.

Fixpoint data_args_vec (arg_flag : Z) (func_args_vec : list (list str)) : SM (list (list str)) :=
  match func_args_vec with
  | [] => mret []
  | args :: l =>
      d ← real_data_args (length args) arg_flag args;
      rest ← data_args_vec arg_flag l;
      mret (d :: rest)
  end.

Definition client_addr (session_id : str) (s : sched) : str := at_or [] session_id (s_session_client_addr_map s).

Definition forward_call_via_helper (session_id app_name : str) (func_name_vec : list str)
    (func_args_vec : list (list str)) (arg_flag : Z) : SM () :=
  resp_address ← gets (client_addr session_id);
  if 0 <? arg_flag then
    total ← lift (total_data_size func_args_vec);
    if u32 total <? forwardDataPackingThreshold then
      data ← data_args_vec arg_flag func_args_vec;
      helper (ForwardFuncCall resp_address app_name func_name_vec data 0 session_id)
    else helper (ForwardFuncCall resp_address app_name func_name_vec func_args_vec arg_flag session_id)
  else helper (ForwardFuncCall resp_address app_name func_name_vec func_args_vec arg_flag session_id).

(** * Scheduling a call *)
(** The loop over the executors: it stops at the first warm one. *)
Fixpoint find_executors (shared : bool) (warm_for : gset Z) (cold : list Z) (statuses : list (Z * Z))
    : list Z * list Z :=
  match statuses with
  | [] => ([], cold)
  | (id, st) :: statuses =>
      if bool_decide (st = 1) && bool_decide (id ∈ warm_for) then ([id], cold)
      else if bool_decide (st = 0) || (shared && bool_decide (st = 1))
           then find_executors shared warm_for (cold ++ [id]) statuses
           else find_executors shared warm_for cold statuses
  end.

Definition draw_seed `{Rand} (n : nat) : SM nat := draw s_ramSeed (fun x => upd_ramSeed (fun _ => x)) n.

(** The executor for a call of the function, if one is available. *)
Definition pick_executor `{Layout, Rand} (conf : sched_conf) (func_name : str) : SM (option Z) :=
  s ← gets id;
  let '(warm, cold) := find_executors (sharedExecutor conf) (at_or ∅ func_name (s_function_executor_map s)) []
                         (map_iter (s_executor_status_map s)) in
  if decide (0 < length warm)%nat then
    i ← draw_seed (length warm);
    id ← lift (vec_at warm i);
    mret (Some id)
  else if decide (0 < length cold)%nat then
    i ← draw_seed (length cold);
    id ← lift (vec_at cold i);
    _ ← modify (upd_function_executor_map (fun m => <[func_name := at_or ∅ func_name m ∪ {[id]}]> m));
    mret (Some id)
  else mret None.

(** The message that starts a function: type, argument flag, persistence flag,
    then the session, the function and its arguments. *)
Definition call_msg (session_id func_name : str) (func_args : list str) (arg_flag : Z) (resp_address : str) : str :=
  chr 1 :: chr (arg_flag + 1) :: chr (if decide (resp_address = []) then 1 else 2) ::
  session_id ++ lit "|" ++ func_name ++ concat ((fun a => lit "|" ++ a) <$> func_args).

(** The triggers that re-execute this function are told of the call, and
    checked when their time is out. *)
Definition note_for_rerun (now : Z) (session_id func_name : str) (func_args : list str) (arg_flag : Z)
    (meta : RerunTriggerTimeout) (s : sched) : sched :=
  upd_rerun_check_queue (fun q => q ++ [mk_RerunCheckQueueItem (now + rt_timeout_ meta * ms) session_id (trigger_ptr_ meta)])
    (upd_heap (alter (notify_source_func func_name session_id func_args arg_flag) (trigger_ptr_ meta)) s).

(** An argument that holds the delimiter is an object's name: it is cut. *)
Definition flatten_args (func_args : list str) : list str :=
  concat ((fun arg => match find kDelimiterChar arg with
                      | Some _ => split arg kDelimiterChar
                      | None => [arg]
                      end) <$> func_args).

Definition schedule_func_call `{Layout, Rand} (conf : sched_conf) (now : Z)
    (session_id app_name func_name : str) (func_args : list str) (arg_flag : Z) : SM () :=
  executor ← pick_executor conf func_name;
  match executor with
  | Some executor_id =>
      resp_address ← gets (client_addr session_id);
      _ ← send_to_executer conf executor_id (call_msg session_id func_name func_args arg_flag resp_address);
      _ ← modify (upd_executor_status_map <[executor_id := 2]>);
      metas ← gets (fun s => at_or [] func_name (s_func_trigger_timeout_map s));
      for_each (fun meta => modify (note_for_rerun now session_id func_name func_args arg_flag meta)) metas
  | None =>
      if 0 <? schedDelayTime conf then
        modify (upd_delay_call_queue (fun q =>
          q ++ [mk_DelayFunctionCall session_id app_name func_name func_args arg_flag now]))
      else if rejectExtraReq conf then mret ()
      else
        func_args' ← (if 0 <? arg_flag then
                        a0 ← lift (vec_at func_args 0);
                        mret (match find kDelimiterChar a0 with Some _ => flatten_args func_args | None => func_args end)
                      else mret func_args);
        forward_call_via_helper session_id app_name [func_name] [func_args'] arg_flag
  end.

(** * Triggers *)
(** The loop over the actions of one trigger: the argument flag is declared
    outside it, and stays zero once an action's objects were all cached. *)
Fixpoint action_metadata (bk : BucketKey) (arg_flag : Z) (actions : list TriggerAction) (s : sched)
    : list TriggerFunctionMetadata :=
  match actions with
  | [] => []
  | a :: actions =>
      let names := (fun '(session, key) => get_local_object_name (bucket_ bk) key session) <$> session_keys_ a in
      match mapM (fun name => s_key_val_map s !! name) names with
      | Some vals =>
          mk_TriggerFunctionMetadata (function_ a) vals 0 :: action_metadata bk 0 actions s
      | None =>
          mk_TriggerFunctionMetadata (function_ a)
            (concat ((fun name => [name; to_string (at_or 0 name (s_key_len_map s))]) <$> names)) arg_flag
          :: action_metadata bk arg_flag actions s
      end
  end.

(** The names whose length is looked up, and so created when unknown. *)
Definition touched_names (bk : BucketKey) (actions : list TriggerAction) (s : sched) : list str :=
  concat ((fun a =>
    let names := (fun '(session, key) => get_local_object_name (bucket_ bk) key session) <$> session_keys_ a in
    match mapM (fun name => s_key_val_map s !! name) names with Some _ => [] | None => names end) <$> actions).

(** The triggers of the bucket see the object. A pointer of the bucket always
    points to a trigger. *)
Fixpoint object_arrival `{Layout} (now : Z) (bk : BucketKey) (ptrs : list ptr)
    : SM (list str * list TriggerFunctionMetadata) :=
  match ptrs with
  | [] => mret ([], [])
  | p :: ptrs =>
      t ← (s ← gets id; lift (res_of_option DanglingPtr (s_heap s !! p)));
      let '(actions, t') := action_for_new_object now t bk in
      _ ← modify (upd_heap <[p := t']>);
      s ← gets id;
      let metas := action_metadata bk (get_trigger_option t + 1) actions s in
      _ ← modify (upd_key_len_map (fun m => foldl (fun m name => touch 0 name m) m (touched_names bk actions s)));
      '(active, metas') ← object_arrival now bk ptrs;
      mret ((match actions with [] => [] | _ => [get_trigger_name t] end) ++ active, metas ++ metas')
  end.

Definition check_object_arrival `{Layout} (now : Z) (bk : BucketKey)
    : SM (list str * list TriggerFunctionMetadata) :=
  ptrs ← gets (fun s => at_or [] (bucket_ bk) (s_bucket_triggers_map s));
  _ ← modify (upd_bucket_triggers_map (touch [] (bucket_ bk)));
  object_arrival now bk ptrs.

(** Returns the names of the triggers that fired. *)
Definition check_trigger `{Layout, Rand} (conf : sched_conf) (now : Z) (bk : BucketKey) (session_id : str)
    : SM (list str) :=
  '(active_triggers, metas) ← check_object_arrival now bk;
  _ ← for_each (fun meta =>
        app_name ← gets (fun s => at_or [] (bucket_ bk) (s_bucket_app_map s));
        _ ← modify (upd_bucket_app_map (touch [] (bucket_ bk)));
        schedule_func_call conf now session_id app_name (func_name_ meta) (func_args_ meta) (arg_flag_ meta)) metas;
  mret active_triggers.
