(* ===== verification/SchedLoop.v ===== *)
(** The scheduler's event loop ([run] of
    [src/scheduler/scheduler_server.cpp]): messages from executors, messages
    from the communication helper, delayed calls and re-execution. *)
From stdpp Require Import prelude gmap strings list fin_sets.
From Stdlib Require Import ZArith Lia Ascii.
From S2P Require Import Prelude Cpp Effects Proto Common Threads Trigger Sched.

Open Scope Z_scope.

(** * Messages from executors

    A message arrives with a terminating zero. *)
Definition byte_at (msg : str) (i : nat) : res Z := ord <$> vec_at (msg ++ [nul]) i.

(** [string(str + pos, len)] *)
Definition bytes_at (msg : str) (pos len : nat) : res str :=
  if decide (pos + len <= length (msg ++ [nul]))%nat then Ok (take len (drop pos (msg ++ [nul])))
  else Fault IndexPastEnd.

(** The answer to a request: type, request id, success, and the value. *)
Definition io_response (req_id : Z) (value : str) : str := chr 3 :: chr req_id :: chr 1 :: value.

Definition await_get (key_name : str) (r : InflightIORequest) (s : sched) : sched :=
  upd_key_remote_get_map (fun m => <[key_name := at_or [] key_name m ++ [r]]> m) s.

(** [str[1] == 1] *)
Definition handle_get (conf : sched_conf) (now : Z) (executor_id : Z) (msg : str) : SM () :=
  store ← lift (byte_at msg 2);
  req_id ← lift (byte_at msg 3);
  meta_data_len ← lift (byte_at msg 4);
  key_name ← lift (bytes_at msg 5 (Z.to_nat meta_data_len));
  let get_req := mk_InflightIORequest executor_id req_id now in
  if store =? 1 then
    len ← gets (fun s => s_key_len_map s !! key_name);
    match len with
    | Some size_len => send_to_executer conf executor_id (io_response req_id (to_string size_len))
    | None => _ ← helper (SendDataReq key_name); modify (await_get key_name get_req)
    end
  else
    key ← lift (vec_at (split key_name kDelimiterChar) 1);
    _ ← helper (GetKvsAsync key);
    modify (await_get key_name get_req).

(** What the sender of an object says of it. *)
Record object_info := mk_object_info {
  oi_session_id : str; oi_src_function : str; oi_tgt_function : str; oi_bucket : str;
  oi_session_key : str; oi_value : str }.
Definition obj_name (i : object_info) : str := oi_bucket i ++ kDelimiter ++ oi_session_key i.

(** Direct invocation of the functions that depend on the sender. *)
Definition invoke_targets `{Layout, Rand} (conf : sched_conf) (now : Z) (i : object_info) (app_name : str)
    (targets : gset str) (func_args : list str) (arg_flag : Z) : SM () :=
  let target_funcs := set_iter targets in
  avail_executors ← gets (fun s => get_avail_executor_num (s_executor_status_map s));
  let call func := schedule_func_call conf now (oi_session_id i) app_name func func_args arg_flag in
  if avail_executors <? Z.of_nat (length target_funcs) then
    let local_funcs := take (Z.to_nat avail_executors) target_funcs in
    let remote_funcs := drop (Z.to_nat avail_executors) target_funcs in
    _ ← for_each call local_funcs;
    if rejectExtraReq conf then mret ()
    else forward_call_via_helper (oi_session_id i) app_name remote_funcs
           (replicate (length remote_funcs) func_args) arg_flag
  else for_each call target_funcs.

Definition direct_invocation `{Layout, Rand} (conf : sched_conf) (now : Z) (i : object_info) (app_name : str)
    (is_data_packing : Z) (targets : gset str) : SM () :=
  value ← gets (fun s => at_or [] (obj_name i) (s_key_val_map s));
  let '(func_args, arg_flag) :=
    if is_data_packing =? 1 then ([value], 0)
    else if is_data_packing =? 2 then ([obj_name i; oi_value i], 1) else ([], 1) in
  if decide (oi_tgt_function i = []) then invoke_targets conf now i app_name targets func_args arg_flag
  else if bool_decide (oi_tgt_function i ∈ targets)
       then schedule_func_call conf now (oi_session_id i) app_name (oi_tgt_function i) func_args arg_flag
       else mret ().

(** Triggers are checked here first, and the coordinator is told of the object
    and of the triggers that fired. *)
Definition trigger_invocation `{Layout, Rand} (conf : sched_conf) (now : Z) (i : object_info)
    (is_data_packing : Z) : SM () :=
  let bk := BucketKey_of_session_key (oi_bucket i) (oi_session_key i) in
  active ← check_trigger conf now bk (oi_session_id i);
  resp_address ← gets (client_addr (oi_session_id i));
  value ← gets (fun s => at_or [] (obj_name i) (s_key_val_map s));
  _ ← (if is_data_packing =? 1 then helper (NotifyPut bk active resp_address value)
       else if is_data_packing =? 2 then helper (NotifyPut bk active resp_address emptyString)
       else mret ());
  modify (upd_call_id (fun c => u32 (c + Z.of_nat (length active)))).

(** [str[1] == 2]: an object for the local store. *)
Definition store_object (i : object_info) (is_data_packing : Z) : SM () :=
  if is_data_packing =? 1 then
    modify (fun s => upd_key_len_map <[obj_name i := u32 (Z.of_nat (length (oi_value i)))]>
                       (upd_key_val_map <[obj_name i := oi_value i]> s))
  else if is_data_packing =? 2 then
    size_int ← lift (stoi (oi_value i));
    modify (upd_key_len_map <[obj_name i := u32 size_int]>)
  else mret ().

Definition handle_ephemeral `{Layout, Rand} (conf : sched_conf) (now : Z) (i : object_info)
    (is_data_packing : Z) : SM () :=
  _ ← store_object i is_data_packing;
  app_name ← gets (fun s => at_or [] (oi_src_function i) (s_func_app_map s));
  deps ← gets (fun s => direct_deps_ (at_or empty_AppInfo app_name (s_app_info_map s)));
  match deps !! oi_src_function i with
  | Some targets => direct_invocation conf now i app_name is_data_packing targets
  | None =>
      if decide (oi_bucket i = bucketNameDirectInvoc) then mret ()
      else trigger_invocation conf now i is_data_packing
  end.

(** The value that came with the message, or the object in shared memory. *)
Definition object_data (i : object_info) (is_data_packing : Z) : SM str :=
  if is_data_packing =? 1 then mret (oi_value i)
  else if is_data_packing =? 2 then
    size_int ← lift (stoi (oi_value i));
    s ← gets id;
    lift (shm_read (obj_name i) size_int s)
  else mret [].

(** [str[1] == 3]: an object for the durable store. *)
Definition handle_durable (now : Z) (executor_id req_id : Z) (i : object_info) (is_data_packing : Z) : SM () :=
  data ← object_data i is_data_packing;
  _ ← (if (is_data_packing =? 1) || (is_data_packing =? 2) then helper (PutKvsAsync (oi_session_key i) data)
       else mret ());
  modify (upd_key_ksv_put_map (fun m =>
    <[oi_session_key i := at_or [] (oi_session_key i) m ++ [mk_InflightIORequest executor_id req_id now]]> m)).

(** [str[1] == 4]: the answer to the client. *)
Definition handle_client_response (i : object_info) (is_data_packing : Z) : SM () :=
  output_data ← object_data i is_data_packing;
  resp_address ← gets (client_addr (oi_session_id i));
  app_name ← gets (fun s => at_or [] (oi_src_function i) (s_func_app_map s));
  helper (ClientResponse resp_address app_name output_data).

(** The request id, the packing flag and the fields of the message. *)
Definition parse_object (msg : str) : res (Z * Z * list str) :=
  req_id ← byte_at msg 2;
  is_data_packing ← byte_at msg 3;
  params ← (if decide (4 < length (msg ++ [nul]))%nat then Ok (c_str (drop 4 (msg ++ [nul]))) else Fault IndexPastEnd);
  Ok (req_id, is_data_packing, split params kDelimiterChar).

Definition handle_object `{Layout, Rand} (conf : sched_conf) (now : Z) (executor_id type : Z) (msg : str) : SM () :=
  '(req_id, is_data_packing, infos) ← lift (parse_object msg);
  match infos with
  | session_id :: src_function :: tgt_function :: bucket :: session_key :: value :: _ =>
      let i := mk_object_info session_id src_function tgt_function bucket session_key value in
      if type =? 2 then handle_ephemeral conf now i is_data_packing
      else if type =? 3 then handle_durable now executor_id req_id i is_data_packing
      else handle_client_response i is_data_packing
  | _ => mret ()
  end.

(** * Executor states

    0: empty, 1: available, 2: await, 3: busy. *)
Definition mark_busy (executor_id : Z) (m : gmap Z Z) : gmap Z Z := <[executor_id := 3]> m.
Definition mark_available (executor_id : Z) (m : gmap Z Z) : gmap Z Z :=
  let st := at_or 0 executor_id m in
  <[executor_id := if (st =? 0) || (st =? 2) then 0 else 1]> m.

Definition handle_executor_msg `{Layout, Rand} (conf : sched_conf) (now : Z) (msg : str) : SM () :=
  address ← lift (byte_at msg 0);
  let executor_id := u8 (address - 1) in
  type ← lift (byte_at msg 1);
  if type =? 1 then handle_get conf now executor_id msg
  else if (2 <=? type) && (type <=? 4) then handle_object conf now executor_id type msg
  else if type =? 6 then modify (upd_executor_status_map (mark_busy executor_id))
  else if type =? 7 then modify (upd_executor_status_map (mark_available executor_id))
  else mret ().

(** * Messages from the communication helper *)
(** The arguments of a call: which keys are missing here, fetching those no
    other call waits for. *)
Definition fetch_arg (cid : Z) (missing : gset str) (arg : str) : SM (gset str) :=
  len ← gets (fun s => s_key_len_map s !! arg);
  match len with
  | Some _ => mret missing
  | None =>
      waiting ← gets (fun s => s_key_call_id_map s !! arg);
      _ ← (match waiting with Some _ => mret () | None => helper (SendDataReq arg) end);
      _ ← modify (upd_key_call_id_map (fun m => <[arg := at_or ∅ arg m ∪ {[cid]}]> m));
      mret (missing ∪ {[arg]})
  end.

Fixpoint fetch_args (cid : Z) (missing : gset str) (args : list str) : SM (gset str) :=
  match args with
  | [] => mret missing
  | arg :: args => missing ← fetch_arg cid missing arg; fetch_args cid missing args
  end.

(** Each key followed by its length. *)
Definition full_args (keys : list str) (s : sched) : list str :=
  concat ((fun key => [key; to_string (at_or 0 key (s_key_len_map s))]) <$> keys).

Definition recv_function `{Layout, Rand} (conf : sched_conf) (now : Z) (resp : RecvMsg)
    (func_name : str) (func_args : list str) (is_func_arg_key : Z) : SM () :=
  cid ← gets s_call_id;
  _ ← (if 0 <? is_func_arg_key then
         missing ← fetch_args cid ∅ func_args;
         if decide (missing = ∅) then
           args ← gets (full_args func_args);
           schedule_func_call conf now (rm_session_id_ resp) (rm_app_name_ resp) func_name args is_func_arg_key
         else
           modify (upd_call_id_inflight_args_map
             <[cid := mk_InflightFuncArgs func_name (rm_session_id_ resp) func_args missing is_func_arg_key]>)
       else schedule_func_call conf now (rm_session_id_ resp) (rm_app_name_ resp) func_name func_args 0);
  modify (upd_call_id (fun c => u32 (c + 1))).

(** [for (int i = 0; i < func_name_.size(); i++)], reading the three vectors
    side by side. *)
Fixpoint recv_functions `{Layout, Rand} (conf : sched_conf) (now : Z) (resp : RecvMsg) (i : nat)
    (names : list str) : SM () :=
  match names with
  | [] => mret ()
  | func_name :: names =>
      func_args ← lift (vec_at (rm_func_args_ resp) i);
      is_func_arg_key ← lift (vec_at (rm_is_func_arg_keys_ resp) i);
      _ ← recv_function conf now resp func_name func_args is_func_arg_key;
      recv_functions conf now resp (S i) names
  end.

Definition recv_call `{Layout, Rand} (conf : sched_conf) (now : Z) (resp : RecvMsg) : SM () :=
  _ ← modify (upd_session_client_addr_map <[rm_session_id_ resp := rm_resp_address_ resp]>);
  recv_functions conf now resp 0 (rm_func_name_ resp).

(** The requests waiting in a map for the key are answered and forgotten. *)
Definition answer_all (conf : sched_conf) (reqs : list InflightIORequest) (value : str) : SM () :=
  for_each (fun r => send_to_executer conf (executor_id_ r) (io_response (req_id_ r) value)) reqs.

Definition answer_gets (conf : sched_conf) (key value : str) : SM () :=
  reqs ← gets (fun s => at_or [] key (s_key_remote_get_map s));
  _ ← answer_all conf reqs value;
  modify (upd_key_remote_get_map (delete key)).

(** A call that waited for the key: scheduled if it waits for nothing else. *)
Definition data_for_call `{Layout, Rand} (conf : sched_conf) (now : Z) (key : str) (cid : Z) : SM () :=
  ifa ← gets (fun s => at_or empty_InflightFuncArgs cid (s_call_id_inflight_args_map s));
  let ifa := mk_InflightFuncArgs (if_func_name_ ifa) (if_session_id_ ifa) (if_key_args_ ifa)
               (if_inflight_args_ ifa ∖ {[key]}) (if_arg_flag_ ifa) in
  _ ← modify (upd_call_id_inflight_args_map <[cid := ifa]>);
  if decide (if_inflight_args_ ifa = ∅) then
    args ← gets (full_args (if_key_args_ ifa));
    app_name ← gets (fun s => at_or [] (if_func_name_ ifa) (s_func_app_map s));
    _ ← schedule_func_call conf now (if_session_id_ ifa) app_name (if_func_name_ ifa) args (if_arg_flag_ ifa);
    modify (upd_call_id_inflight_args_map (delete cid))
  else mret ().

(** The size is appended as one character here, and as a decimal number for a
    durable object. *)
Definition recv_data `{Layout, Rand} (conf : sched_conf) (now : Z) (key : str) (size : Z) : SM () :=
  _ ← modify (upd_key_len_map <[key := size]>);
  _ ← answer_gets conf key [chr size];
  cids ← gets (fun s => at_or ∅ key (s_key_call_id_map s));
  _ ← for_each (data_for_call conf now key) (set_iter cids);
  modify (upd_key_call_id_map (delete key)).

Definition recv_kvs_get (conf : sched_conf) (key : str) (size : Z) : SM () :=
  let local_obj_name := kvsKeyPrefix ++ lit "|" ++ key in
  _ ← modify (upd_key_len_map <[local_obj_name := size]>);
  answer_gets conf local_obj_name (to_string size).

Definition recv_kvs_put (conf : sched_conf) (key : str) : SM () :=
  reqs ← gets (fun s => at_or [] key (s_key_ksv_put_map s));
  _ ← answer_all conf reqs [];
  modify (upd_key_ksv_put_map (delete key)).

Definition handle_comm_resp `{Layout, Rand} (conf : sched_conf) (now : Z) (resp : RecvMsg) : SM () :=
  match rm_msg_type_ resp with
  | RM_Call => recv_call conf now resp
  | RM_DataResp => recv_data conf now (rm_data_key_ resp) (rm_data_size_ resp)
  | RM_KvsGetResp => recv_kvs_get conf (rm_data_key_ resp) (rm_data_size_ resp)
  | RM_KvsPutResp => recv_kvs_put conf (rm_data_key_ resp)
  end.

(** * Delayed calls *)
(** While an executor is free, the oldest delayed call is scheduled. One that
    finds none after all is queued again, at the back. *)
Fixpoint schedule_delayed `{Layout, Rand} (conf : sched_conf) (now : Z) (cur_avail_executors : nat) : SM () :=
  match cur_avail_executors with
  | O => mret ()
  | S n =>
      q ← gets s_delay_call_queue;
      match q with
      | [] => mret ()
      | d :: _ =>
          _ ← schedule_func_call conf now (d_session_id_ d) (d_app_name_ d) (d_func_name_ d) (d_func_args_ d) (d_arg_flag_ d);
          _ ← modify (upd_delay_call_queue tail);
          schedule_delayed conf now n
      end
  end.

(** Calls that waited too long are forwarded, or dropped. *)
Fixpoint expire_delayed (conf : sched_conf) (now : Z) (q : list DelayFunctionCall) : SM () :=
  match q with
  | [] => mret ()
  | d :: q =>
      if schedDelayTime conf <? Z.quot (now - trigger_time_ d) 1000 then
        _ ← (if rejectExtraReq conf then mret ()
             else forward_call_via_helper (d_session_id_ d) (d_app_name_ d) [d_func_name_ d] [d_func_args_ d] (d_arg_flag_ d));
        _ ← modify (upd_delay_call_queue tail);
        expire_delayed conf now q
      else mret ()
  end.

Definition delayed_calls `{Layout, Rand} (conf : sched_conf) (now : Z) : SM () :=
  avail ← gets (fun s => get_avail_executor_num (s_executor_status_map s));
  _ ← schedule_delayed conf now (Z.to_nat avail);
  q ← gets s_delay_call_queue;
  expire_delayed conf now q.

(** * Re-execution

    The queue is ordered by time; which of several items of the same time is
    on top is up to the library. *)
Fixpoint min_time (q : list RerunCheckQueueItem) : option RerunCheckQueueItem :=
  match q with
  | [] => None
  | i :: q =>
      match min_time q with
      | Some j => if check_time_ j <? check_time_ i then Some j else Some i
      | None => Some i
      end
  end.
Definition queue_top `{Layout} (q : list RerunCheckQueueItem) : option RerunCheckQueueItem := min_time (order q).

#[export] Instance RerunCheckQueueItem_eq_dec : EqDecision RerunCheckQueueItem.
Proof. solve_decision. Defined.

Definition queue_pop `{Layout} (q : list RerunCheckQueueItem) : list RerunCheckQueueItem :=
  match queue_top q with
  | Some i => match list_find (eq i) q with Some (n, _) => delete n q | None => q end
  | None => q
  end.

(** [report_end] is read before the loop, the clock of each scheduling later. *)
Fixpoint rerun_check `{Layout, Rand} (fuel : nat) (conf : sched_conf) (report_end now : Z) : SM () :=
  top ← gets (fun s => queue_top (s_rerun_check_queue s));
  match top with
  | None => mret ()
  | Some item =>
      if report_end <? check_time_ item then mret ()
      else
        match fuel with
        | O => lift (Fault Diverges)
        | S fuel =>
            t ← (s ← gets id; lift (res_of_option DanglingPtr (s_heap s !! rq_trigger_ptr_ item)));
            _ ← for_each (fun meta =>
                  app_name ← gets (fun s => at_or [] (func_name_ meta) (s_func_app_map s));
                  schedule_func_call conf now (rq_session_ item) app_name (func_name_ meta) (func_args_ meta) (arg_flag_ meta))
                (action_for_rerun (rq_session_ item) t);
            _ ← modify (upd_rerun_check_queue queue_pop);
            rerun_check fuel conf report_end now
        end
  end.

(** Every ten milliseconds: re-execution, and the status for the
    coordinators. The fuel is the length of the queue: what the loop adds to it
    is due later. *)
Definition timer `{Layout, Rand} (conf : sched_conf) (report_end now : Z) : SM () :=
  q ← gets s_rerun_check_queue;
  _ ← rerun_check (length q) conf report_end now;
  avail ← gets (fun s => get_avail_executor_num (s_executor_status_map s));
  helper (UpdateStatus avail ∅).

(** * One iteration

    The clock when the executor's message, the helper's messages and the delayed
    calls are handled, when the timer is read, and after that. *)
Record clocks := mk_clocks { t_recv : Z; t_comm : Z; t_delay : Z; t_report : Z; t_after : Z }.

(** [report_start] is the last time the timer went off. *)
Definition timer_iteration `{Layout, Rand} (conf : sched_conf) (t : clocks) (report_start : Z) : SM Z :=
  if schedTimerThreshold <=? Z.quot (t_report t - report_start) ms then
    _ ← timer conf (t_report t) (t_after t);
    mret (t_after t)
  else mret report_start.

(** The iteration up to the helper's [try_recv_msg], and from there on. *)
Definition sched_first `{Layout, Rand} (conf : sched_conf) (t : clocks) (msg : option str) : SM () :=
  match msg with Some m => handle_executor_msg conf (t_recv t) m | None => mret () end.
Definition sched_rest `{Layout, Rand} (conf : sched_conf) (t : clocks) (report_start : Z) (resps : list RecvMsg) : SM Z :=
  _ ← for_each (handle_comm_resp conf (t_comm t)) resps;
  _ ← delayed_calls conf (t_delay t);
  timer_iteration conf t report_start.
