(* ===== verification/Comm.v ===== *)
(** The worker's communication helper ([include/scheduler/comm_helper.hpp]):
    it serves the scheduler's requests, exchanges objects with other workers,
    and keeps the worker's copy of what the coordinators tell it. *)
From stdpp Require Import prelude gmap strings list fin_sets.
From Stdlib Require Import ZArith Lia Ascii.
From S2P Require Import Prelude Cpp Effects Proto Common Threads Trigger Sched SchedLoop.

Open Scope Z_scope.

(** * State *)
Inductive SecondaryThreadMsg :=
  | SendReq (key : str)
  | GetKvs (key : str)
  | PutKvs (key data : str).

Record comm := mk_comm {
  key_address_cache_ : gmap str str;
  app_coord_map_ : gmap str HandlerThread;
  bucket_coord_map_ : gmap str HandlerThread;
  rid_ : Z;
  io_thread_id_ : Z;
  secondary_thread_msg_queues : list (list SecondaryThreadMsg);
  resp_queues : list (list RecvMsg) }.

Definition upd_key_address_cache f (c : comm) := mk_comm (f (key_address_cache_ c)) (app_coord_map_ c)
  (bucket_coord_map_ c) (rid_ c) (io_thread_id_ c) (secondary_thread_msg_queues c) (resp_queues c).
Definition upd_app_coord_map f (c : comm) := mk_comm (key_address_cache_ c) (f (app_coord_map_ c))
  (bucket_coord_map_ c) (rid_ c) (io_thread_id_ c) (secondary_thread_msg_queues c) (resp_queues c).
Definition upd_bucket_coord_map f (c : comm) := mk_comm (key_address_cache_ c) (app_coord_map_ c)
  (f (bucket_coord_map_ c)) (rid_ c) (io_thread_id_ c) (secondary_thread_msg_queues c) (resp_queues c).
Definition upd_rid f (c : comm) := mk_comm (key_address_cache_ c) (app_coord_map_ c)
  (bucket_coord_map_ c) (f (rid_ c)) (io_thread_id_ c) (secondary_thread_msg_queues c) (resp_queues c).
Definition upd_io_thread_id f (c : comm) := mk_comm (key_address_cache_ c) (app_coord_map_ c)
  (bucket_coord_map_ c) (rid_ c) (f (io_thread_id_ c)) (secondary_thread_msg_queues c) (resp_queues c).
Definition upd_secondary f (c : comm) := mk_comm (key_address_cache_ c) (app_coord_map_ c)
  (bucket_coord_map_ c) (rid_ c) (io_thread_id_ c) (f (secondary_thread_msg_queues c)) (resp_queues c).
Definition upd_resp_queues f (c : comm) := mk_comm (key_address_cache_ c) (app_coord_map_ c)
  (bucket_coord_map_ c) (rid_ c) (io_thread_id_ c) (secondary_thread_msg_queues c) (f (resp_queues c)).

(** The constructor's arguments. *)
Record comm_conf := mk_comm_conf {
  ip_ : str; routing_threads_ : list HandlerThread; io_thread_count_ : Z }.

Definition comm_init (conf : comm_conf) : comm :=
  let n := Z.to_nat (io_thread_count_ conf - 1) in
  mk_comm ∅ ∅ ∅ 0 0 (replicate n []) (replicate n []).

(** A worker: the scheduler's state and the helper's. *)
Record node := mk_node { n_sched : sched; n_comm : comm }.

(** What a worker sends to the network, to its executors and to the client of
    the durable store of one of its threads. *)
Inductive net_msg :=
  | NCall (m : FunctionCall)
  | NNotify (m : KeyNotifyRequest)
  | NQuery (m : KeyQueryRequest)
  | NStatus (m : UpdateStatusMessage)
  | NCallResp (m : FunctionCallResponse)
  | NData (m : str).
Inductive node_out :=
  | Net (addr : str) (m : net_msg)
  | Exec (executor : Z) (msg : str)
  | KvsGet (tid : Z) (key : str)
  | KvsPut (tid : Z) (key : str) (timestamp : Z) (data : str).

Abbreviation CM := (M node node_out).

Definition on_comm (f : comm -> comm) : CM () := modify (fun n => mk_node (n_sched n) (f (n_comm n))).
Definition on_sched (f : sched -> sched) : CM () := modify (fun n => mk_node (f (n_sched n)) (n_comm n)).

Definition try_sched (f : sched -> res sched) : CM () := fun n =>
  s ← f (n_sched n); Ok ((), mk_node s (n_comm n), []).

(** A socket cannot be connected to an empty address: the library throws. *)
Definition push (addr : str) (m : net_msg) : CM () :=
  if decide (addr = []) then lift (Fault InvalidArgument) else emit (Net addr m).

(** * Assistant methods *)
Definition get_request_id (conf : comm_conf) : CM str :=
  rid ← gets (fun n => rid_ (n_comm n));
  let rid := u32 (rid + 1) in
  let rid := if rid mod 10000 =? 0 then 0 else rid in
  _ ← on_comm (upd_rid (fun _ => u32 (rid + 1)));
  mret (ip_ conf ++ lit ":" ++ to_string 0 ++ lit "_" ++ to_string rid).

Definition get_io_thread_id (conf : comm_conf) (exclude_main_thread : bool) : CM Z :=
  i ← gets (fun n => io_thread_id_ (n_comm n));
  let i := u32 (i + 1) in
  if io_thread_count_ conf =? 0 then lift (Fault DivByZero)
  else
    let i := if i mod io_thread_count_ conf =? 0 then (if exclude_main_thread then 1 else 0) else i in
    _ ← on_comm (upd_io_thread_id (fun _ => i));
    mret i.

Definition data_server_address (ip : str) (thread_id : Z) : str :=
  lit "tcp://" ++ ip ++ lit ":" ++ to_string (u32 (thread_id + dataAccessServerPort)).
Definition data_client_address (ip : str) (tid : Z) : str :=
  lit "tcp://" ++ ip ++ lit ":" ++ to_string (u32 (tid + dataAccessClientPort)).

Definition get_data_server_addr (conf : comm_conf) (exclude_main_thread : bool) : CM str :=
  thread_id ← get_io_thread_id conf exclude_main_thread;
  mret (data_server_address (ip_ conf) thread_id).

Definition get_key_address (key : str) (c : comm) : str := at_or [] key (key_address_cache_ c).

Definition get_querying_thread (bucket : str) (c : comm) : str :=
  match bucket_coord_map_ c !! bucket with
  | Some ht => ht_key_query_handler_connect_address ht
  | None => []
  end.
Definition get_notifying_thread (bucket : str) (c : comm) : str :=
  match bucket_coord_map_ c !! bucket with
  | Some ht => ht_notify_handler_connect_address ht
  | None => []
  end.

Definition key_query_async (conf : comm_conf) (bk : BucketKey) : CM () :=
  rid ← get_request_id conf;
  qry_thread ← gets (fun n => get_querying_thread (bucket_ bk) (n_comm n));
  push qry_thread (NQuery (mk_KeyQueryRequest (cht_key_query_connect_address (new_CommHelperThread (ip_ conf) 0))
    [get_addr_from_bucket_key bk empty_BucketKeyAddress] rid)).

(** * Handlers of incoming messages *)
(** The last argument with a positive flag decides the flag of the request;
    a location that is already known is kept. *)
Fixpoint scan_arguments (args : list Argument) (flag : Z) (cache : gmap str str) : Z * gmap str str :=
  match args with
  | [] => (flag, cache)
  | arg :: args =>
      if 0 <? arg_arg_flag arg
      then scan_arguments args (i32 (arg_arg_flag arg)) (touch (arg_data_address arg) (arg_body arg) cache)
      else scan_arguments args flag cache
  end.

Fixpoint scan_requests (reqs : list FunctionRequest) (cache : gmap str str) : list Z * gmap str str :=
  match reqs with
  | [] => ([], cache)
  | req :: reqs =>
      let '(flag, cache) := scan_arguments (fr_arguments req) 0 cache in
      let '(flags, cache) := scan_requests reqs cache in
      (flag :: flags, cache)
  end.

Definition handle_function_call (call : FunctionCall) : CM RecvMsg :=
  cache ← gets (fun n => key_address_cache_ (n_comm n));
  let '(flags, cache) := scan_requests (fc_requests call) cache in
  _ ← on_comm (upd_key_address_cache (fun _ => cache));
  mret (mk_RecvMsg RM_Call (fc_app_name call) (fc_resp_address call) (fr_name <$> fc_requests call)
          ((fun req => arg_body <$> fr_arguments req) <$> fc_requests call) flags (fc_session_id call)
          (fc_sync_data_status call) [] 0).

(** A message between data threads: the length of the key in one byte, the
    key, and the rest. *)
Definition split_key_msg (message : str) : res (str * str) :=
  key_len ← ord <$> vec_at message 0;
  let n := Z.to_nat key_len in
  if decide (n + 1 <= length message)%nat then Ok (take n (drop 1 message), drop (n + 1) message)
  else Fault IndexPastEnd.

Definition key_msg (key rest : str) : str := chr (Z.of_nat (length key)) :: key ++ rest.

Definition handle_data_request (message : str) : CM () :=
  '(key, resp_address) ← lift (split_key_msg message);
  data ← (n ← gets id; lift (get_shm_obj key (n_sched n)));
  match data with
  | Some (c :: d) => push resp_address (NData (key_msg key (c :: d)))
  | _ => mret ()
  end.

Definition recv_data_msg (type : RecvMsgType) (key : str) (size : Z) : RecvMsg :=
  mk_RecvMsg type [] [] [] [] [] [] false key size.

Definition handle_data_response (message : str) : CM RecvMsg :=
  '(key, data) ← lift (split_key_msg message);
  _ ← on_sched (copy_to_shm_obj key data);
  mret (recv_data_msg RM_DataResp key (u32 (Z.of_nat (length data)))).

(** * Base methods of the outgoing side *)
Definition send_data_req_base (conf : comm_conf) (tid : Z) (key : str) : CM () :=
  data_address ← gets (fun n => get_key_address key (n_comm n));
  if decide (data_address = []) then mret ()
  else push data_address (NData (key_msg key (data_client_address (ip_ conf) tid))).

Definition get_kvs_async_base (tid : Z) (key : str) : CM () := emit (KvsGet tid key).

(** [now] is the time in milliseconds. *)
Definition put_kvs_async_base (now tid : Z) (key data : str) : CM () :=
  match generate_timestamp now tid with
  | Some ts => emit (KvsPut tid key ts data)
  | None => lift (Fault Diverges)
  end.

Definition notify_put_base (conf : comm_conf) (bk : BucketKey) (active_triggers : list str)
    (resp_address payload : str) : CM () :=
  notif_thread ← gets (fun n => get_notifying_thread (bucket_ bk) (n_comm n));
  if decide (notif_thread = []) then mret ()
  else
    req_id ← get_request_id conf;
    ip ← get_data_server_addr conf true;
    push notif_thread (NNotify (mk_KeyNotifyRequest resp_address
      [mk_BucketKeyAddress (bucket_ bk) (key_ bk) (session_ bk) [ip] payload] active_triggers req_id)).

(** * The interface of the scheduler *)
(** Requests go to the secondary threads in turn, if there are any. *)
Definition dispatch (conf : comm_conf) (msg : SecondaryThreadMsg) (base : CM ()) : CM () :=
  if 1 <? io_thread_count_ conf then
    thread_id ← get_io_thread_id conf true;
    if thread_id =? 0 then base
    else
      qs ← gets (fun n => secondary_thread_msg_queues (n_comm n));
      _ ← lift (vec_at qs (Z.to_nat (thread_id - 1)));
      on_comm (upd_secondary (alter (fun q => q ++ [msg]) (Z.to_nat (thread_id - 1))))
  else base.

(** The arguments by threes: bucket, key and size. *)
Fixpoint forward_args (fuel : nat) (conf : comm_conf) (arg_flag : Z) (args : list str) : CM (list Argument) :=
  match args, fuel with
  | [], _ => mret []
  | _, O => mret []
  | _, S fuel =>
      a0 ← lift (vec_at args 0);
      a1 ← lift (vec_at args 1);
      addr ← get_data_server_addr conf false;
      rest ← forward_args fuel conf arg_flag (drop 3 args);
      mret (mk_Argument (a0 ++ kDelimiter ++ a1) (u32 arg_flag) addr :: rest)
  end.

Fixpoint forward_requests (conf : comm_conf) (arg_flag : Z) (func_args_vec : list (list str)) (i : nat)
    (names : list str) : CM (list FunctionRequest) :=
  match names with
  | [] => mret []
  | name :: names =>
      func_args ← lift (vec_at func_args_vec i);
      args ← (if 0 <? arg_flag then forward_args (length func_args) conf arg_flag func_args
              else mret ((fun a => mk_Argument a (u32 arg_flag) []) <$> func_args));
      rest ← forward_requests conf arg_flag func_args_vec (S i) names;
      mret (mk_FunctionRequest name args :: rest)
  end.

(** An application no coordinator has registered has no address to forward to. *)
Definition forward_func_call (conf : comm_conf) (resp_address app_name : str) (func_name_vec : list str)
    (func_args_vec : list (list str)) (arg_flag : Z) (session_id : str) : CM () :=
  requests ← forward_requests conf arg_flag func_args_vec 0 func_name_vec;
  coord ← gets (fun n => app_coord_map_ (n_comm n) !! app_name);
  push (match coord with Some ht => ht_forward_func_connect_address ht | None => [] end)
    (NCall (mk_FunctionCall app_name requests (ip_ conf) [] resp_address session_id true)).

Definition update_status `{Layout} (conf : comm_conf) (avail_executors : Z) (function_cache : gset str) : CM () :=
  let msg := mk_UpdateStatusMessage (ip_ conf) (u32 avail_executors) (set_iter function_cache) in
  for_each (fun ht => push (ht_update_handler_connect_address ht) (NStatus msg)) (routing_threads_ conf).

Definition client_response (resp_address app_name output_data : str) : CM () :=
  push resp_address (NCallResp (mk_FunctionCallResponse app_name [] output_data 0)).

Definition helper_exec `{Layout} (conf : comm_conf) (now : Z) (c : helper_call) : CM () :=
  match c with
  | NotifyPut bk active resp_address payload => notify_put_base conf bk active resp_address payload
  | UpdateStatus avail cache => update_status conf avail cache
  | ForwardFuncCall resp app names args flag session => forward_func_call conf resp app names args flag session
  | SendDataReq key => dispatch conf (SendReq key) (send_data_req_base conf 0 key)
  | GetKvsAsync key => dispatch conf (GetKvs key) (get_kvs_async_base 0 key)
  | PutKvsAsync key data => dispatch conf (PutKvs key data) (put_kvs_async_base now 0 key data)
  | ClientResponse resp app output => client_response resp app output
  end.

Definition sched_out_exec `{Layout} (conf : comm_conf) (now : Z) (o : sched_out) : CM () :=
  match o with
  | ToExecutor executor msg => emit (Exec executor msg)
  | Helper c => helper_exec conf now c
  end.

(** The scheduler's code run on a worker: the helper serves its requests in
    order. They return nothing to the scheduler. *)
Definition run_sched `{Layout} {A} (conf : comm_conf) (now : Z) (m : SM A) : CM A := fun n =>
  '(a, s, outs) ← m (n_sched n);
  '(_, n', outs') ← for_each (sched_out_exec conf now) outs (mk_node s (n_comm n));
  Ok (a, n', outs').

(** * Messages of the coordinators *)
(** A new trigger lives at a fresh address of the heap. *)
Definition fresh_ptr (s : sched) : ptr := fresh (dom (s_heap s) : gset ptr).

Definition add_trigger_entity `{PrimitiveCodecs} (now : Z) (entity : TriggerEntity) (s : sched) : sched :=
  if decide (te_trigger_name entity = []) then s
  else
    match gen_trigger_pointer now (te_primitive_type entity) (te_trigger_name entity) (te_primitive entity) with
    | None => s
    | Some t =>
        let p := fresh_ptr s in
        let hints := te_hints entity in
        let metas := (fun h => mk_RerunMetadata (rh_source_function h) (rh_source_key h) (rh_timeout h)) <$> hints in
        let t := set_rerun_metadata metas (set_trigger_option (te_trigger_option entity) t) in
        upd_func_trigger_timeout_map (fun m => foldl (fun m h =>
            <[rh_source_function h := at_or [] (rh_source_function h) m
                ++ [mk_RerunTriggerTimeout p (rh_timeout h)]]> m) m hints)
          (upd_bucket_triggers_map (fun m =>
              <[te_bucket_name entity := at_or [] (te_bucket_name entity) m ++ [p]]> m)
            (upd_heap <[p := t]> s))
    end.

Definition add_dependency (app_name : str) (dep : DataDependency) (s : sched) : res sched :=
  if decide (dd_type dep = DIRECT) then
    src_func ← vec_at (dd_src_functions dep) 0;
    match dd_tgt_functions dep with
    | [] => Ok s
    | _ =>
        Ok (upd_app_info_map (fun m =>
          let ai := at_or empty_AppInfo app_name m in
          <[app_name := mk_AppInfo (ai_functions_ ai)
              (<[src_func := at_or ∅ src_func (direct_deps_ ai) ∪ list_to_set (dd_tgt_functions dep)]> (direct_deps_ ai))
              (buckets_ ai)]> m) s)
    end
  else Ok s.

Definition add_function (app_name func : str) (s : sched) : sched :=
  upd_func_app_map <[func := app_name]>
    (upd_app_info_map (fun m =>
       let ai := at_or empty_AppInfo app_name m in
       <[app_name := mk_AppInfo (ai_functions_ ai ∪ {[func]}) (direct_deps_ ai) (buckets_ ai)]> m) s).

Definition add_bucket (app_name bucket : str) (s : sched) : sched :=
  upd_bucket_app_map <[bucket := app_name]>
    (upd_app_info_map (fun m =>
       let ai := at_or empty_AppInfo app_name m in
       <[app_name := mk_AppInfo (ai_functions_ ai) (direct_deps_ ai) (buckets_ ai ++ [bucket])]> m) s).

(** Message type 0: functions, direct dependencies and triggers. *)
Definition coord_update `{PrimitiveCodecs} (now : Z) (msg : UpdateCoordMsg) : CM () :=
  let coord_thread := new_HandlerThread (ucm_ip msg) (ucm_thread_id msg) in
  let app_name := ucm_app_name msg in
  _ ← on_comm (upd_app_coord_map <[app_name := coord_thread]>);
  _ ← on_sched (fun s => foldl (fun s func => add_function app_name func s) s (ucm_functions msg));
  _ ← for_each (fun dep => try_sched (add_dependency app_name dep))
        (ucm_dependencies msg);
  for_each (fun entity =>
      _ ← on_comm (upd_bucket_coord_map <[te_bucket_name entity := coord_thread]>);
      on_sched (fun s => add_trigger_entity now entity (add_bucket app_name (te_bucket_name entity) s)))
    (ucm_triggers msg).

(** Message type 1: the named triggers are cleared for the session. *)
Definition clear_trigger (entity : TriggerEntity) (s : sched) : sched :=
  let ptrs := at_or [] (te_bucket_name entity) (s_bucket_triggers_map s) in
  upd_bucket_triggers_map (touch [] (te_bucket_name entity))
    (upd_heap (fun h => foldl (fun h p =>
       alter (fun t => if decide (get_trigger_name t = te_trigger_name entity) then clear (te_session entity) t else t) p h)
       h ptrs) s).

(** Message type 2: the first trigger of that name leaves the bucket. The
    search has no bound: it does not stop at the end of the vector. *)
Fixpoint find_trigger (name : str) (h : gmap ptr Trigger) (ptrs : list ptr) : res nat :=
  match ptrs with
  | [] => Fault IterPastEnd
  | p :: ptrs =>
      t ← res_of_option DanglingPtr (h !! p);
      if decide (get_trigger_name t = name) then Ok 0%nat else S <$> find_trigger name h ptrs
  end.

Definition delete_trigger (entity : TriggerEntity) (s : sched) : res sched :=
  let ptrs := at_or [] (te_bucket_name entity) (s_bucket_triggers_map s) in
  i ← find_trigger (te_trigger_name entity) (s_heap s) ptrs;
  Ok (upd_bucket_triggers_map <[te_bucket_name entity := delete i ptrs]> s).

Definition handle_update_msg `{PrimitiveCodecs} (now : Z) (msg : UpdateCoordMsg) : CM () :=
  let update_msg_type := ucm_msg_type msg in
  if update_msg_type =? 0 then coord_update now msg
  else if update_msg_type =? 1 then
    on_sched (fun s => foldl (fun s entity => clear_trigger entity s) s (ucm_triggers msg))
  else if update_msg_type =? 2 then
    for_each (fun entity => try_sched (delete_trigger entity))
      (ucm_triggers msg)
  else mret ().

(** * Answers of the durable store *)
Definition kvs_response `{Codec LWWValue} (tid : Z) (response : KeyResponse) : CM (list RecvMsg) :=
  tuple ← lift (vec_at (kp_tuples response) 0);
  let key := kt_key tuple in
  if decide (kp_error response = TIMEOUT) then
    (if decide (kp_type response = GET) then _ ← emit (KvsGet tid key); mret [] else mret [])
  else if decide (kp_type response = GET /\ kt_error tuple <> KEY_DNE) then
    let lww : LWWValue := ParseFromString (kt_payload tuple) in
    _ ← on_sched (copy_to_shm_obj (kvsKeyPrefix ++ kDelimiter ++ key) (lww_value lww));
    mret [recv_data_msg RM_KvsGetResp key (u32 (Z.of_nat (length (lww_value lww))))]
  else if decide (kp_type response = PUT) then mret [recv_data_msg RM_KvsPutResp key 0]
  else mret [].

Fixpoint get_kvs_responses `{Codec LWWValue} (tid : Z) (responses : list KeyResponse) : CM (list RecvMsg) :=
  match responses with
  | [] => mret []
  | r :: responses =>
      l ← kvs_response tid r;
      l' ← get_kvs_responses tid responses;
      mret (l ++ l')
  end.

(** * The threads *)
(** What the sockets of a thread hold when it polls. *)
Record node_polled := mk_node_polled {
  np_update : option UpdateCoordMsg;
  np_call : option FunctionCall;
  np_data_request : option str;
  np_data_response : option str;
  np_kvs : list KeyResponse }.

Definition recv_opt {A} (o : option A) (f : A -> CM RecvMsg) : CM (list RecvMsg) :=
  match o with Some a => r ← f a; mret [r] | None => mret [] end.
Definition do_opt {A} (o : option A) (f : A -> CM ()) : CM () :=
  match o with Some a => f a | None => mret () end.

(** The primary thread, once per iteration of the scheduler. *)
Definition try_recv_msg `{PrimitiveCodecs, Codec LWWValue} (now : Z) (p : node_polled) : CM (list RecvMsg) :=
  _ ← do_opt (np_update p) (handle_update_msg now);
  calls ← recv_opt (np_call p) handle_function_call;
  _ ← do_opt (np_data_request p) handle_data_request;
  data ← recv_opt (np_data_response p) handle_data_response;
  kvs ← get_kvs_responses 0 (np_kvs p);
  queued ← gets (fun n => concat (resp_queues (n_comm n)));
  _ ← on_comm (upd_resp_queues (fmap (fun _ => [])));
  mret (calls ++ data ++ kvs ++ queued).

Definition msg_process_batch : nat := 10.

Definition queue_resp (queue_idx : nat) (r : RecvMsg) : CM () :=
  qs ← gets (fun n => resp_queues (n_comm n));
  _ ← lift (vec_at qs queue_idx);
  on_comm (upd_resp_queues (alter (fun q => q ++ [r]) queue_idx)).

Definition secondary_exec (conf : comm_conf) (now tid : Z) (m : SecondaryThreadMsg) : CM () :=
  match m with
  | SendReq key => send_data_req_base conf tid key
  | GetKvs key => get_kvs_async_base tid key
  | PutKvs key data => put_kvs_async_base now tid key data
  end.

(** At most ten queued messages; one is removed after it is served. *)
Fixpoint serve_queue (n : nat) (conf : comm_conf) (now tid : Z) (queue_idx : nat) : CM () :=
  match n with
  | O => mret ()
  | S n =>
      qs ← gets (fun n => secondary_thread_msg_queues (n_comm n));
      q ← lift (vec_at qs queue_idx);
      match q with
      | [] => mret ()
      | m :: _ =>
          _ ← secondary_exec conf now tid m;
          _ ← on_comm (upd_secondary (alter tail queue_idx));
          serve_queue n conf now tid queue_idx
      end
  end.

(** One iteration of [run_io_thread_loop]. *)
Definition io_thread_iteration `{Codec LWWValue} (conf : comm_conf) (now tid : Z) (p : node_polled) : CM () :=
  let queue_idx := Z.to_nat (tid - 1) in
  _ ← do_opt (np_call p) (fun call => r ← handle_function_call call; queue_resp queue_idx r);
  _ ← do_opt (np_data_request p) handle_data_request;
  _ ← do_opt (np_data_response p) (fun m => r ← handle_data_response m; queue_resp queue_idx r);
  _ ← serve_queue msg_process_batch conf now tid queue_idx;
  resps ← get_kvs_responses tid (np_kvs p);
  for_each (queue_resp queue_idx) resps.

(** * The worker

    One iteration of the scheduler's loop, helper included: the executor's
    message if there is one, what the helper received, delayed calls and the
    timer. *)
Record node_conf := mk_node_conf { nc_sched : sched_conf; nc_comm : comm_conf }.

Definition main_iteration `{Layout, Rand, PrimitiveCodecs, Codec LWWValue} (conf : node_conf) (t : clocks)
    (report_start : Z) (msg : option str) (p : node_polled) : CM Z :=
  _ ← run_sched (nc_comm conf) (Z.quot (t_recv t) ms) (sched_first (nc_sched conf) t msg);
  resps ← try_recv_msg (t_comm t) p;
  run_sched (nc_comm conf) (Z.quot (t_comm t) ms) (sched_rest (nc_sched conf) t report_start resps).

(** What a worker does next: an iteration of the primary thread or of a
    secondary one. The threads share locked queues and maps; whole iterations
    are interleaved. *)
Inductive node_input :=
  | Main (t : clocks) (msg : option str) (p : node_polled)
  | Io (now tid : Z) (p : node_polled).

Definition node_step `{Layout, Rand, PrimitiveCodecs, Codec LWWValue} (conf : node_conf) (report_start : Z)
    (i : node_input) : CM Z :=
  match i with
  | Main t msg p => main_iteration conf t report_start msg p
  | Io now tid p => _ ← io_thread_iteration (nc_comm conf) now tid p; mret report_start
  end.

Fixpoint node_run `{Layout, Rand, PrimitiveCodecs, Codec LWWValue} (conf : node_conf) (report_start : Z)
    (inputs : list node_input) : CM Z :=
  match inputs with
  | [] => mret report_start
  | i :: inputs => report_start ← node_step conf report_start i; node_run conf report_start inputs
  end.

Definition node_init (conf : node_conf) (seed : Z) : res node :=
  s ← sched_init (nc_sched conf) seed;
  Ok (mk_node s (comm_init (nc_comm conf))).
