(* ===== verification/Dispatch.v ===== *)
(** Dispatching: a worker starts a function on an executor only against a
    report that the executor is available. *)
From stdpp Require Import prelude gmap strings list fin_sets.
From Stdlib Require Import ZArith Lia Ascii.
From S2P Require Import Prelude Cpp Effects Proto Common Threads Trigger TriggerSpec Sched SchedLoop Comm.

Open Scope Z_scope.

(** * Credits

    An executor whose state is 0 (empty) or 1 (available) may be given a call. *)
Definition free_st (st : option Z) : nat :=
  match st with Some st => if decide (st = 0 \/ st = 1) then 1 else 0 | None => 0 end.
Definition free (e : Z) (s : sched) : nat := free_st (s_executor_status_map s !! e).

(** A message that starts a function on the executor. *)
Definition is_call (e : Z) (o : sched_out) : Prop :=
  match o with ToExecutor e' m => e' = e /\ head m = Some (chr 1) | _ => False end.
#[export] Instance is_call_dec e o : Decision (is_call e o).
Proof. destruct o; simpl; apply _. Defined.
Definition calls (e : Z) (outs : list sched_out) : nat := length (filter (is_call e) outs).

Lemma calls_app e o1 o2 : calls e (o1 ++ o2) = (calls e o1 + calls e o2)%nat.
Proof. unfold calls. by rewrite filter_app, length_app. Qed.

(** A computation that pays for every call it sends with a free executor. *)
Definition conserves {A} (m : SM A) : Prop :=
  forall s a s' o, m s = Ok (a, s', o) -> forall e, free e s = (free e s' + calls e o)%nat.

(** The computations that leave the executors alone. *)
Definition same_status (f : sched -> sched) : Prop :=
  forall s, s_executor_status_map (f s) = s_executor_status_map s.

Lemma conserves_ret {A} (a : A) : conserves (mret a).
Proof. intros s b s' o [= <- <- <-] e. unfold calls. simpl. lia. Qed.

Lemma conserves_bind {A B} (m : SM A) (k : A -> SM B) :
  conserves m -> (forall a, conserves (k a)) -> conserves (mbind k m).
Proof.
  intros Hm Hk s b s' o (a & s1 & o1 & o2 & E1 & E2 & ->)%bind_ok e.
  rewrite calls_app, (Hm _ _ _ _ E1 e), (Hk _ _ _ _ _ E2 e). lia.
Qed.

Lemma conserves_gets {A} (f : sched -> A) : conserves (gets f).
Proof. intros s b s' o [= <- <- <-] e. unfold calls. simpl. lia. Qed.

Lemma conserves_lift {A} (r : res A) : conserves (lift r).
Proof. intros s b s' o. unfold lift. destruct r; [|done]. intros [= <- <- <-] e. unfold calls. simpl. lia. Qed.

Lemma conserves_modify f : same_status f -> conserves (modify f).
Proof. intros Hf s b s' o [= <- <- <-] e. unfold free, calls. rewrite Hf. simpl. lia. Qed.

Lemma conserves_helper c : conserves (helper c).
Proof. intros s b s' o [= <- <- <-] e. unfold calls. simpl. lia. Qed.

Lemma conserves_send conf e msg : head msg <> Some (chr 1) -> conserves (send_to_executer conf e msg).
Proof.
  intros Hm. unfold send_to_executer. destruct (_ && _); [|apply conserves_lift].
  intros s b s' o [= <- <- <-] e'. unfold calls. rewrite filter_cons, decide_False by (intros [_ H]; done). simpl. lia.
Qed.

Lemma conserves_for_each {A} (body : A -> SM ()) l :
  (forall a, conserves (body a)) -> conserves (for_each body l).
Proof.
  intros Hb. induction l as [|a l IH]; [apply conserves_ret|]. apply conserves_bind; auto.
Qed.

Lemma conserves_draw `{Rand} n : conserves (draw_seed n).
Proof.
  intros s b s' o. unfold draw_seed, draw. destruct (rand_below _ _) as [[i x]|]; [|done].
  intros [= <- <- <-] e. unfold free, calls. simpl. lia.
Qed.

Create HintDb conserve.
#[export] Hint Resolve conserves_ret conserves_gets conserves_lift conserves_helper conserves_draw : conserve.
#[export] Hint Extern 1 (same_status _) => (intros ?; reflexivity) : conserve.
#[export] Hint Resolve conserves_modify : conserve.

(** Walk through a computation by its structure. *)
Ltac conserve_step :=
  match goal with
  | |- conserves (mbind _ _) => apply conserves_bind; [|intros]
  | |- conserves (for_each _ _) => apply conserves_for_each; intros
  | |- conserves (let '(_, _) := ?x in _) => destruct x
  | |- conserves (match ?x with _ => _ end) => destruct x
  | |- conserves (send_to_executer _ _ (io_response _ _)) => apply conserves_send; by vm_compute
  | |- _ => solve [auto with conserve]
  end.
Ltac conserve := repeat conserve_step.

(** * The scheduler's operations *)
Lemma real_data_args_conserves fuel flag args : conserves (real_data_args fuel flag args).
Proof.
  revert args. induction fuel as [|fuel IH]; intros [|a args]; cbn [real_data_args]; conserve.
Qed.

Lemma data_args_vec_conserves flag l : conserves (data_args_vec flag l).
Proof.
  induction l as [|args l IH]; cbn [data_args_vec]; conserve. apply real_data_args_conserves.
Qed.
#[export] Hint Resolve data_args_vec_conserves : conserve.

Lemma forward_conserves session app names args flag :
  conserves (forward_call_via_helper session app names args flag).
Proof. unfold forward_call_via_helper. conserve. Qed.
#[export] Hint Resolve forward_conserves : conserve.

(** The executors a scan finds are free ones. *)
Lemma find_executors_free shared warm_for cold l w c :
  find_executors shared warm_for cold l = (w, c) ->
  forall e, e ∈ w \/ (e ∈ c /\ e ∉ cold) -> exists st, (e, st) ∈ l /\ (st = 0 \/ st = 1).
Proof.
  revert cold. induction l as [|[id st] l IH]; intros cold; cbn [find_executors].
  { intros [= <- <-] e [He|[He Hne]]; [by apply not_elem_of_nil in He|done]. }
  destruct (bool_decide (st = 1) && bool_decide (id ∈ warm_for)) eqn:E1.
  { intros [= <- <-] e [He|[He Hne]]; [|done]. apply list_elem_of_singleton in He. subst e.
    bool_to_prop. exists st. split; [left|auto]. }
  destruct (bool_decide (st = 0) || (shared && bool_decide (st = 1))) eqn:E2; intros E e He.
  - destruct (decide (e = id)) as [->|Hne].
    + exists st. split; [left|]. apply orb_true_iff in E2 as [E2|E2]; bool_to_prop; auto.
    + destruct (IH _ E e) as (st' & Hin & Hst).
      { destruct He as [He|[He Hn]]; [by left|right]. split; [done|]. rewrite elem_of_app, list_elem_of_singleton. tauto. }
      exists st'. split; [by right|done].
  - destruct (IH _ E e He) as (st' & Hin & Hst). exists st'. split; [by right|done].
Qed.

Lemma pick_executor_free `{Layout, Rand} conf func s e s' o :
  pick_executor conf func s = Ok (Some e, s', o) ->
  o = [] /\ s_executor_status_map s' = s_executor_status_map s /\
  exists st, s_executor_status_map s !! e = Some st /\ (st = 0 \/ st = 1).
Proof.
  unfold pick_executor. intros (x & s1 & o1 & o2 & E1 & E2 & ->)%bind_ok. injection E1 as <- <- <-.
  destruct (find_executors _ _ _ _) as [w c] eqn:Ef. pose proof (find_executors_free _ _ _ _ _ _ Ef) as Hfree.
  assert (forall e' : Z, (e' ∈ w \/ (e' ∈ c /\ e' ∉ ([] : list Z))) ->
    exists st, s_executor_status_map s !! e' = Some st /\ (st = 0 \/ st = 1)) as Hst.
  { intros e' He. destruct (Hfree e' He) as (st & Hin & Hst). exists st. split; [|done].
    by apply elem_of_map_iter in Hin. }
  case_decide; [|case_decide; [|done]].
  - apply bind_ok in E2 as (i & s2 & o3 & o4 & E2 & E3 & ->). unfold draw_seed, draw in E2.
    destruct (rand_below _ _) as [[j x]|] eqn:Er; [|done]. injection E2 as <- <- <-.
    apply bind_ok in E3 as (id' & s3 & o5 & o6 & E3 & E4 & ->). unfold lift, vec_at in E3.
    destruct (w !! j) as [e'|] eqn:Ej; [|done]. injection E3 as <- <- <-. injection E4 as <- <- <-.
    split; [done|]. split; [done|]. apply Hst. left. by eapply list_elem_of_lookup_2.
  - apply bind_ok in E2 as (i & s2 & o3 & o4 & E2 & E3 & ->). unfold draw_seed, draw in E2.
    destruct (rand_below _ _) as [[j x]|] eqn:Er; [|done]. injection E2 as <- <- <-.
    apply bind_ok in E3 as (id' & s3 & o5 & o6 & E3 & E4 & ->). unfold lift, vec_at in E3.
    destruct (c !! j) as [e'|] eqn:Ej; [|done]. injection E3 as <- <- <-.
    apply bind_ok in E4 as ([] & s4 & o7 & o8 & E4 & E5 & ->). injection E4 as <- <-. injection E5 as <- <- <-.
    split; [done|]. split; [done|]. apply Hst. right. split; [by eapply list_elem_of_lookup_2|].
    apply not_elem_of_nil.
Qed.

Lemma pick_executor_conserves `{Layout, Rand} conf func : conserves (pick_executor conf func).
Proof. unfold pick_executor. conserve. Qed.

(** The one place where a credit is spent. *)
Lemma dispatch_conserves conf e msg (k : SM ()) st s s' o :
  conserves k -> s_executor_status_map s !! e = Some st -> st = 0 \/ st = 1 -> head msg = Some (chr 1) ->
  (_ ← send_to_executer conf e msg; _ ← modify (upd_executor_status_map <[e := 2]>); k) s = Ok ((), s', o) ->
  forall e', free e' s = (free e' s' + calls e' o)%nat.
Proof.
  intros Hk Hst Hfree Hmsg (u & s1 & o1 & o2 & E1 & E2 & ->)%bind_ok e'.
  unfold send_to_executer in E1. destruct (_ && _); [|done]. injection E1 as <- <- <-.
  apply bind_ok in E2 as (u2 & s2 & o3 & o4 & E2 & E3 & ->). injection E2 as <- <- <-.
  rewrite calls_app. pose proof (Hk _ _ _ _ E3 e') as Hc. simpl in Hc |- *.
  unfold free at 1 in Hc. simpl in Hc. unfold free at 1. unfold calls at 1. rewrite filter_cons, filter_nil.
  destruct (decide (e = e')) as [<-|Hne].
  - rewrite lookup_insert_eq in Hc. rewrite Hst. simpl in *. rewrite decide_True by done.
    rewrite decide_True by done. simpl. destruct (decide (2 = 0 \/ 2 = 1)) as [Hbad|_] in Hc; [destruct Hbad; lia|]. lia.
  - rewrite lookup_insert_ne in Hc by done. rewrite decide_False by (intros [? _]; done). simpl. lia.
Qed.

Lemma schedule_func_call_conserves `{Layout, Rand} conf now session app func args flag :
  conserves (schedule_func_call conf now session app func args flag).
Proof.
  intros s [] s' o (ex & s1 & o1 & o2 & E1 & E2 & ->)%bind_ok e.
  destruct ex as [id|].
  - apply pick_executor_free in E1 as (-> & Es & st & Hst & Hfree).
    apply bind_ok in E2 as (resp & s2 & o3 & o4 & E2 & E3 & ->). injection E2 as <- <- <-. simpl.
    replace (free e s) with (free e s1) by (unfold free; by rewrite Es).
    eapply (dispatch_conserves conf id); [|by rewrite Es|done| |exact E3]; [|done]. conserve.
  - rewrite calls_app, (pick_executor_conserves _ _ _ _ _ _ E1 e).
    match type of E2 with ?m s1 = _ => assert (conserves m) as Hc by conserve end.
    rewrite (Hc _ _ _ _ E2 e). lia.
Qed.
#[export] Hint Resolve schedule_func_call_conserves : conserve.

Lemma object_arrival_conserves `{Layout} now bk ptrs : conserves (object_arrival now bk ptrs).
Proof. induction ptrs as [|p ptrs IH]; cbn [object_arrival]; conserve. Qed.
#[export] Hint Resolve object_arrival_conserves : conserve.

Lemma check_trigger_conserves `{Layout, Rand} conf now bk session : conserves (check_trigger conf now bk session).
Proof. unfold check_trigger, check_object_arrival. conserve. Qed.
#[export] Hint Resolve check_trigger_conserves : conserve.

Lemma object_data_conserves i packing : conserves (object_data i packing).
Proof. unfold object_data. conserve. Qed.
#[export] Hint Resolve object_data_conserves : conserve.

Lemma handle_get_conserves conf now e msg : conserves (handle_get conf now e msg).
Proof. unfold handle_get. conserve. Qed.

Lemma handle_object_conserves `{Layout, Rand} conf now e type msg : conserves (handle_object conf now e type msg).
Proof.
  unfold handle_object, handle_ephemeral, handle_durable, handle_client_response, store_object,
    direct_invocation, invoke_targets, trigger_invocation. conserve.
Qed.
#[export] Hint Resolve handle_get_conserves handle_object_conserves : conserve.

Lemma fetch_args_conserves cid missing args : conserves (fetch_args cid missing args).
Proof. revert missing. induction args as [|a args IH]; intros missing; cbn [fetch_args]; unfold fetch_arg; conserve. Qed.
#[export] Hint Resolve fetch_args_conserves : conserve.

Lemma recv_functions_conserves `{Layout, Rand} conf now resp i names :
  conserves (recv_functions conf now resp i names).
Proof.
  revert i. induction names as [|n names IH]; intros i; cbn [recv_functions]; unfold recv_function; conserve.
Qed.
#[export] Hint Resolve recv_functions_conserves : conserve.

Lemma handle_comm_resp_conserves `{Layout, Rand} conf now resp : conserves (handle_comm_resp conf now resp).
Proof.
  unfold handle_comm_resp, recv_call, recv_data, recv_kvs_get, recv_kvs_put, answer_gets, answer_all, data_for_call.
  conserve.
Qed.
#[export] Hint Resolve handle_comm_resp_conserves : conserve.

Lemma schedule_delayed_conserves `{Layout, Rand} conf now n : conserves (schedule_delayed conf now n).
Proof. induction n as [|n IH]; cbn [schedule_delayed]; conserve. Qed.
Lemma expire_delayed_conserves conf now q : conserves (expire_delayed conf now q).
Proof. induction q as [|d q IH]; cbn [expire_delayed]; conserve. Qed.
#[export] Hint Resolve schedule_delayed_conserves expire_delayed_conserves : conserve.

Lemma rerun_check_conserves `{Layout, Rand} fuel conf report_end now : conserves (rerun_check fuel conf report_end now).
Proof. induction fuel as [|fuel IH]; cbn [rerun_check]; conserve. Qed.
#[export] Hint Resolve rerun_check_conserves : conserve.

Lemma sched_rest_conserves `{Layout, Rand} conf t start resps : conserves (sched_rest conf t start resps).
Proof. unfold sched_rest, delayed_calls, timer_iteration, timer. conserve. Qed.

(** An executor's message: an available report may add a credit, anything else
    is paid for. *)
Definition reports (e : Z) (msg : option str) : nat :=
  match msg with
  | Some (a :: t :: _) => if decide (u8 (ord a - 1) = e /\ ord t = 7) then 1 else 0
  | _ => 0
  end.

Lemma sched_first_credit `{Layout, Rand} conf t msg s s' o e :
  sched_first conf t msg s = Ok ((), s', o) -> (free e s' + calls e o <= free e s + reports e msg)%nat.
Proof.
  unfold sched_first. destruct msg as [msg|]; [|intros E; pose proof (conserves_ret () _ _ _ _ E e); lia].
  unfold handle_executor_msg.
  intros (a & s1 & o1 & o2 & E1 & E2 & ->)%bind_ok. unfold lift, byte_at, vec_at in E1.
  destruct msg as [|b0 msg]; [simpl in E1; injection E1 as <- <- <-|].
  { apply bind_ok in E2 as (ty & s2 & o3 & o4 & E2 & _ & _). by unfold lift, byte_at, vec_at in E2. }
  simpl in E1. injection E1 as <- <- <-.
  apply bind_ok in E2 as (ty & s2 & o3 & o4 & E2 & E3 & ->). unfold lift, byte_at, vec_at in E2.
  assert (exists b1, (msg ++ [nul]) !! 0%nat = Some b1) as [b1 Eb1] by (destruct msg; by eexists).
  simpl in E2. rewrite Eb1 in E2. simpl in E2. injection E2 as <- <- <-. simpl.
  destruct (ord b1 =? 7) eqn:E7.
  - apply Z.eqb_eq in E7. rewrite E7 in E3. simpl in E3. injection E3 as <- <-.
    destruct msg as [|b1' msg]; simpl in Eb1; injection Eb1 as <-; [by vm_compute in E7|].
    unfold reports. unfold calls. simpl. unfold free. simpl. unfold mark_available.
    destruct (decide (u8 (ord b0 - 1) = e)) as [<-|Hne].
    + rewrite lookup_insert_eq. rewrite decide_True by done. simpl. repeat case_decide; lia.
    + rewrite lookup_insert_ne by done. lia.
  - assert (free e s = free e s' + calls e o4 \/ free e s' + calls e o4 <= free e s)%nat as Hc; [|lia].
    destruct (ord b1 =? 6) eqn:E6.
    + right. apply Z.eqb_eq in E6. rewrite E6 in E3. simpl in E3. injection E3 as <- <-.
      unfold calls, free, mark_busy. simpl. destruct (decide (u8 (ord b0 - 1) = e)) as [<-|Hne].
      * rewrite lookup_insert_eq. simpl. destruct (decide (3 = 0 \/ 3 = 1)) as [[]|]; lia.
      * rewrite lookup_insert_ne by done. lia.
    + left. match type of E3 with ?m s = _ => assert (conserves m) as Hc by conserve end.
      apply (Hc _ _ _ _ E3 e).
Qed.

(** * The worker *)
Definition is_exec_call (e : Z) (o : node_out) : Prop :=
  match o with Exec e' m => e' = e /\ head m = Some (chr 1) | _ => False end.
#[export] Instance is_exec_call_dec e o : Decision (is_exec_call e o).
Proof. destruct o; simpl; apply _. Defined.
Definition exec_calls (e : Z) (outs : list node_out) : nat := length (filter (is_exec_call e) outs).
Definition node_free (e : Z) (n : node) : nat := free e (n_sched n).

Lemma exec_calls_app e o1 o2 : exec_calls e (o1 ++ o2) = (exec_calls e o1 + exec_calls e o2)%nat.
Proof. unfold exec_calls. by rewrite filter_app, length_app. Qed.

(** A computation of the helper sends no call and frees no executor. *)
Definition idle {A} (m : CM A) : Prop :=
  forall n a n' o, m n = Ok (a, n', o) ->
    s_executor_status_map (n_sched n') = s_executor_status_map (n_sched n) /\ forall e, exec_calls e o = 0%nat.

Lemma idle_ret {A} (a : A) : idle (mret a).
Proof. by intros n b n' o [= <- <- <-]. Qed.
Lemma idle_bind {A B} (m : CM A) (k : A -> CM B) : idle m -> (forall a, idle (k a)) -> idle (mbind k m).
Proof.
  intros Hm Hk n b n' o (a & n1 & o1 & o2 & E1 & E2 & ->)%bind_ok.
  destruct (Hm _ _ _ _ E1) as [S1 C1], (Hk _ _ _ _ _ E2) as [S2 C2]. split; [congruence|].
  intros e. by rewrite exec_calls_app, C1, C2.
Qed.
Lemma idle_gets {A} (f : node -> A) : idle (gets f).
Proof. by intros n b n' o [= <- <- <-]. Qed.
Lemma idle_lift {A} (r : res A) : idle (lift r).
Proof. intros n b n' o. unfold lift. destruct r; [|done]. by intros [= <- <- <-]. Qed.
Lemma idle_on_comm f : idle (on_comm f).
Proof. by intros n b n' o [= <- <- <-]. Qed.
Lemma idle_on_sched f : same_status f -> idle (on_sched f).
Proof. intros Hf n b n' o [= <- <- <-]. split; [apply Hf|done]. Qed.
Lemma idle_try_sched f :
  (forall s s', f s = Ok s' -> s_executor_status_map s' = s_executor_status_map s) -> idle (try_sched f).
Proof.
  intros Hf n b n' o. unfold try_sched. destruct (f (n_sched n)) as [s|] eqn:E; [|done].
  intros [= <- <- <-]. split; [by apply Hf|done].
Qed.
Lemma idle_push addr m : idle (push addr m).
Proof. unfold push. case_decide; [apply idle_lift|]. by intros n b n' o [= <- <- <-]. Qed.
Lemma idle_kvs_get tid key : idle (emit (KvsGet tid key)).
Proof. by intros n b n' o [= <- <- <-]. Qed.
Lemma idle_kvs_put tid key ts data : idle (emit (KvsPut tid key ts data)).
Proof. by intros n b n' o [= <- <- <-]. Qed.
Lemma idle_for_each {A} (body : A -> CM ()) l : (forall a, idle (body a)) -> idle (for_each body l).
Proof. intros Hb. induction l as [|a l IH]; [apply idle_ret|]. apply idle_bind; auto. Qed.

#[export] Hint Resolve idle_ret idle_gets idle_lift idle_on_comm idle_push idle_kvs_get idle_kvs_put : conserve.
#[export] Hint Resolve idle_on_sched : conserve.

Ltac idle_step :=
  match goal with
  | |- idle (mbind _ _) => apply idle_bind; [|intros]
  | |- idle (for_each _ _) => apply idle_for_each; intros
  | |- idle (let '(_, _) := ?x in _) => destruct x
  | |- idle (match ?x with _ => _ end) => destruct x
  | |- _ => solve [auto with conserve]
  end.
Ltac idle := repeat idle_step.

Lemma get_io_thread_id_idle conf b : idle (get_io_thread_id conf b).
Proof. unfold get_io_thread_id. idle. Qed.
#[export] Hint Resolve get_io_thread_id_idle : conserve.

Lemma forward_args_idle fuel conf flag args : idle (forward_args fuel conf flag args).
Proof.
  revert args. induction fuel as [|fuel IH]; intros [|a args]; cbn [forward_args]; unfold get_data_server_addr; idle.
Qed.
#[export] Hint Resolve forward_args_idle : conserve.

Lemma forward_requests_idle conf flag l i names : idle (forward_requests conf flag l i names).
Proof. revert i. induction names as [|n names IH]; intros i; cbn [forward_requests]; idle. Qed.
#[export] Hint Resolve forward_requests_idle : conserve.

Lemma helper_exec_idle `{Layout} conf now c : idle (helper_exec conf now c).
Proof.
  unfold helper_exec, notify_put_base, get_request_id, get_data_server_addr, update_status, forward_func_call,
    dispatch, send_data_req_base, get_kvs_async_base, put_kvs_async_base, client_response. idle.
Qed.

(** What the scheduler sends reaches the executors, and nothing else does. *)
Lemma sched_outs_calls `{Layout} conf now outs n n' o :
  for_each (sched_out_exec conf now) outs n = Ok ((), n', o) ->
  s_executor_status_map (n_sched n') = s_executor_status_map (n_sched n) /\
  forall e, exec_calls e o = calls e outs.
Proof.
  revert n o. induction outs as [|x outs IH]; intros n o; [by intros [= <- <-]|]. cbn [for_each].
  intros ([] & n1 & o1 & o2 & E1 & E2 & ->)%bind_ok. apply IH in E2 as [S2 C2].
  assert (s_executor_status_map (n_sched n1) = s_executor_status_map (n_sched n) /\
          forall e, exec_calls e o1 = calls e [x]) as [S1 C1].
  { destruct x as [id msg|c]; simpl in E1.
    - injection E1 as <- <-. split; [done|]. intros e. unfold exec_calls, calls. rewrite !filter_cons, !filter_nil.
      do 2 case_decide; simpl in *; tauto.
    - apply helper_exec_idle in E1 as [S1 C1]. split; [done|]. intros e. by rewrite C1. }
  split; [congruence|]. intros e. rewrite exec_calls_app, C1, C2.
  change (x :: outs) with ([x] ++ outs). by rewrite calls_app.
Qed.

Lemma run_sched_calls `{Layout} {A} conf now (m : SM A) n a n' o :
  run_sched conf now m n = Ok (a, n', o) ->
  exists s outs, m (n_sched n) = Ok (a, s, outs) /\
    forall e, node_free e n' = free e s /\ exec_calls e o = calls e outs.
Proof.
  unfold run_sched. destruct (m (n_sched n)) as [[[a1 s] outs]|]; [|done]. cbn [mbind res_bind].
  destruct (for_each _ outs _) as [[[[] n1] o1]|] eqn:E; [|done]. intros [= <- <- <-].
  apply sched_outs_calls in E as [S C]. exists s, outs. split; [done|]. intros e. split; [|done].
  unfold node_free, free. by rewrite S.
Qed.

Lemma same_status_foldl {A} (f : A -> sched -> sched) (l : list A) :
  (forall a, same_status (f a)) -> same_status (fun s => foldl (fun s a => f a s) s l).
Proof. intros Hf. induction l as [|a l IH]; intros s; [done|]. simpl. rewrite IH. apply Hf. Qed.

Lemma handle_update_msg_idle `{PrimitiveCodecs} now msg : idle (handle_update_msg now msg).
Proof.
  unfold handle_update_msg. destruct (_ =? 0); [|destruct (_ =? 1); [|destruct (_ =? 2)]].
  - unfold coord_update. idle; try apply idle_on_sched.
    + apply same_status_foldl. by intros f s.
    + apply idle_try_sched. intros s s'. unfold add_dependency.
      case_decide; [|by intros [= <-]]. destruct (vec_at _ _); [|done]. cbn [mbind res_bind].
      destruct (dd_tgt_functions _); by intros [= <-].
    + intros s. unfold add_trigger_entity. case_decide; [done|]. by destruct (gen_trigger_pointer _ _ _ _).
  - apply idle_on_sched, same_status_foldl. by intros f s.
  - idle. apply idle_try_sched. intros s s'. unfold delete_trigger.
    destruct (find_trigger _ _ _); intros; by simplify_eq/=.
  - idle.
Qed.
#[export] Hint Resolve handle_update_msg_idle : conserve.

Lemma get_kvs_responses_idle `{Codec LWWValue} tid l : idle (get_kvs_responses tid l).
Proof. induction l as [|r l IH]; cbn [get_kvs_responses]; unfold kvs_response; idle. Qed.
#[export] Hint Resolve get_kvs_responses_idle : conserve.

Lemma try_recv_msg_idle `{PrimitiveCodecs, Codec LWWValue} now p : idle (try_recv_msg now p).
Proof.
  unfold try_recv_msg, do_opt, recv_opt, handle_function_call, handle_data_request, handle_data_response. idle.
Qed.

Lemma serve_queue_idle k conf now tid i : idle (serve_queue k conf now tid i).
Proof.
  induction k as [|k IH]; cbn [serve_queue];
    unfold secondary_exec, send_data_req_base, get_kvs_async_base, put_kvs_async_base; idle.
Qed.
#[export] Hint Resolve serve_queue_idle : conserve.

Lemma io_thread_iteration_idle `{Codec LWWValue} conf now tid p : idle (io_thread_iteration conf now tid p).
Proof.
  unfold io_thread_iteration, do_opt, handle_function_call, handle_data_request, handle_data_response, queue_resp. idle.
Qed.

(** * The law *)
Definition input_reports (e : Z) (i : node_input) : nat :=
  match i with Main _ msg _ => reports e msg | Io _ _ _ => 0 end.

Lemma node_step_credit `{Layout, Rand, PrimitiveCodecs, Codec LWWValue} conf start i n a n' o e :
  node_step conf start i n = Ok (a, n', o) ->
  (node_free e n' + exec_calls e o <= node_free e n + input_reports e i)%nat.
Proof.
  destruct i as [t msg p|now tid p]; simpl.
  - intros ([] & n1 & o1 & o2 & E1 & E2 & ->)%bind_ok.
    apply bind_ok in E2 as (resps & n2 & o3 & o4 & E2 & E3 & ->).
    apply run_sched_calls in E1 as (s1 & outs1 & E1 & C1). apply (sched_first_credit _ _ _ _ _ _ e) in E1.
    apply try_recv_msg_idle in E2 as [S2 C2].
    apply run_sched_calls in E3 as (s3 & outs3 & E3 & C3). pose proof (sched_rest_conserves _ _ _ _ _ _ _ _ E3 e) as Hc.
    destruct (C1 e) as [F1 X1], (C3 e) as [F3 X3]. rewrite !exec_calls_app, X1, (C2 e), X3, F3.
    assert (free e (n_sched n2) = free e s1) as Hf by (unfold free; rewrite S2; exact F1).
    unfold node_free at 1. lia.
  - intros ([] & n1 & o1 & o2 & E1 & E2 & ->)%bind_ok. injection E2 as <- <- <-.
    apply io_thread_iteration_idle in E1 as [S1 C1]. rewrite app_nil_r, (C1 e).
    unfold node_free, free. rewrite S1. lia.
Qed.

Lemma node_run_credit `{Layout, Rand, PrimitiveCodecs, Codec LWWValue} conf start inputs n a n' o e :
  node_run conf start inputs n = Ok (a, n', o) ->
  (node_free e n' + exec_calls e o <= node_free e n + foldr (fun i k => input_reports e i + k) 0 inputs)%nat.
Proof.
  revert start n o. induction inputs as [|i inputs IH]; intros start n o; cbn [node_run].
  - intros [= <- <- <-]. simpl. unfold exec_calls. simpl. lia.
  - intros (start' & n1 & o1 & o2 & E1 & E2 & ->)%bind_ok. rewrite exec_calls_app.
    apply (node_step_credit _ _ _ _ _ _ _ e) in E1. apply IH in E2. simpl. lia.
Qed.

Lemma init_executors_await fuel executor e_id m m' :
  (forall e st, m !! e = Some st -> st = 2) -> init_executors fuel executor e_id m = Ok m' ->
  forall e st, m' !! e = Some st -> st = 2.
Proof.
  revert e_id m. induction fuel as [|fuel IH]; intros e_id m Hm; cbn [init_executors];
    (destruct (e_id <? executor); [|by intros [= <-]]); [done|].
  apply IH. intros e st [[_ <-]|[_ Hl]]%lookup_insert_Some; [done|eauto].
Qed.

(** C24: over any run of a worker from its start, whatever its primary and
    secondary threads are given to do, the number of calls sent to an executor
    never exceeds the number of times that executor reported itself available;
    what is left of the reports is at least what the scheduler's table still
    holds against it. *)
Theorem dispatches_bounded_by_reports (L : Layout) (R : Rand) (P : PrimitiveCodecs) (C : Codec LWWValue)
    (conf : node_conf) (seed start stop : Z) (inputs : list node_input) (n n' : node) (o : list node_out) (e : Z)
    (Hinit : node_init conf seed = Ok n)
    (Hrun : node_run conf start inputs n = Ok (stop, n', o)) :
  (exec_calls e o + node_free e n' <= foldr (fun i k => input_reports e i + k) 0 inputs)%nat.
Proof.
  apply (node_run_credit _ _ _ _ _ _ _ e) in Hrun.
  enough (node_free e n = 0%nat) by lia. unfold node_init, sched_init in Hinit.
  destruct (init_executors _ _ _ _) as [m|] eqn:E; [|done]. cbn [mbind res_bind] in Hinit. injection Hinit as <-.
  unfold node_free, free. cbn [n_sched s_executor_status_map]. destruct (m !! e) as [st|] eqn:Em; [|done].
  eapply init_executors_await in E; [|intros ? ? H; by rewrite lookup_empty in H|exact Em]. by subst.
Qed.

(** A worker with one executor that reports once and is then given a call. *)
Definition lww_codec : Codec LWWValue.
Proof. refine (codec_via (fun m => (lww_timestamp m, lww_value m)) (fun p => mk_LWWValue p.1 p.2) _). by intros []. Defined.

Definition demo_node_conf : node_conf :=
  mk_node_conf (mk_sched_conf 1 false false 1) (mk_comm_conf (lit "10.0.0.2") [] 1).
Definition demo_call : FunctionCall :=
  mk_FunctionCall (lit "app") [mk_FunctionRequest (lit "f") [mk_Argument (lit "x") 0 []]] [] [] (lit "c") (lit "s") true.
Definition demo_inputs : list node_input :=
  [Main (mk_clocks 1 2 3 4 5) (Some [chr 1; chr 7]) (mk_node_polled None None None None []);
   Main (mk_clocks 6 7 8 9 10) None (mk_node_polled None (Some demo_call) None None [])].
Definition demo_node : node :=
  match node_init demo_node_conf 7 with Ok n => n | Fault _ => mk_node (mk_sched ∅ ∅ ∅ [] [] ∅ 0 0 ∅ ∅ ∅ ∅ ∅ ∅ ∅ ∅ ∅ ∅ ∅ ∅) (mk_comm ∅ ∅ ∅ 0 0 [] []) end.
Definition demo_node_run : res (Z * node * list node_out) :=
  @node_run layout_id rand_lcg test_codecs lww_codec demo_node_conf 0 demo_inputs demo_node.
Definition demo_node' : node := match demo_node_run with Ok (_, n, _) => n | Fault _ => demo_node end.
Definition demo_node_outs : list node_out := match demo_node_run with Ok (_, _, o) => o | Fault _ => [] end.

Lemma dispatches_bounded_by_reports_witness :
  exec_calls 0 demo_node_outs = 1%nat /\
  (exec_calls 0 demo_node_outs + node_free 0 demo_node' <= foldr (fun i k => input_reports 0 i + k) 0 demo_inputs)%nat.
Proof.
  split; [by vm_compute|].
  apply (dispatches_bounded_by_reports layout_id rand_lcg test_codecs lww_codec demo_node_conf 7 0 0 demo_inputs demo_node
    demo_node' demo_node_outs 0); by vm_compute.
Defined.

(** A report that arrives while the executor has a call it has not started yet
    counts as one more: the executor may be given a second call. *)
Lemma report_while_awaiting_frees (e : Z) (m : gmap Z Z) :
  m !! e = Some 2 -> free_st (mark_available e m !! e) = 1%nat.
Proof. intros H. unfold mark_available, at_or. rewrite H, lookup_insert_eq. done. Qed.
