(* ===== verification/Replica.v ===== *)
(** Triggers on the coordinator and on the workers: how the copies are made,
    cleared and deleted. *)
From stdpp Require Import prelude gmap strings list fin_sets.
From Stdlib Require Import ZArith Lia Ascii.
From S2P Require Import Prelude Cpp Effects Proto Common Threads Trigger TriggerSpec Coordinator Sched SchedLoop Comm.

Open Scope Z_scope.

(** * Rebuilding a trigger from its dump *)
Lemma i32_range x : is_i32 (i32 x).
Proof. unfold is_i32, i32. lia. Qed.

Lemma gen_dump_gen `{Layout, PrimitiveCodecs} now now' ty name ser t o :
  ty <> BY_TIME -> gen_trigger_pointer now ty name ser = Some t ->
  gen_trigger_pointer now' ty name (dump_pritimive (set_trigger_option o t)) = Some t.
Proof.
  intros Hty. destruct ty; try done; intros [= <-]; unfold dump_pritimive; simpl;
    unfold ImmediateTrigger_dump, ByNameTrigger_dump, ByBatchSizeTrigger_dump, BySetTrigger_dump,
      DynamicGroupTrigger_dump, RedundantTrigger_dump;
    rewrite parse_serialize; simpl; rewrite ?list_to_set_iter, ?i32_u32 by apply i32_range; done.
Qed.

Definition rerun_metas (hints : list RerunHint) : list RerunMetadata :=
  (fun h => mk_RerunMetadata (rh_source_function h) (rh_source_key h) (rh_timeout h)) <$> hints.

(** The triggers a worker holds for a bucket, in order. *)
Definition worker_triggers (b : str) (s : sched) : list (option Trigger) :=
  (fun p => s_heap s !! p) <$> at_or [] b (s_bucket_triggers_map s).

(** The pointers of the buckets point into the heap. *)
Definition heap_ok (s : sched) : Prop :=
  forall b ps p, s_bucket_triggers_map s !! b = Some ps -> p ∈ ps -> is_Some (s_heap s !! p).

Lemma fresh_ptr_none s : s_heap s !! fresh_ptr s = None.
Proof. unfold fresh_ptr. apply (not_elem_of_dom (D := gset ptr)). apply is_fresh. Qed.

(** A new entity appends its trigger to the bucket, and every trigger that was
    there is as it was. *)
Lemma add_trigger_entity_spec `{PrimitiveCodecs} now e t s :
  heap_ok s -> te_trigger_name e <> [] ->
  gen_trigger_pointer now (te_primitive_type e) (te_trigger_name e) (te_primitive e) = Some t ->
  let s' := add_trigger_entity now e s in
  heap_ok s' /\
  worker_triggers (te_bucket_name e) s' = worker_triggers (te_bucket_name e) s ++
    [Some (set_rerun_metadata (rerun_metas (te_hints e)) (set_trigger_option (te_trigger_option e) t))] /\
  forall b, b <> te_bucket_name e -> worker_triggers b s' = worker_triggers b s.
Proof.
  intros Hok Hname Hgen. unfold add_trigger_entity. rewrite decide_False by done. rewrite Hgen. cbv zeta.
  pose proof (fresh_ptr_none s) as Hfresh. set (p := fresh_ptr s) in *.
  assert (forall b q, q ∈ at_or [] b (s_bucket_triggers_map s) -> q <> p) as Hne.
  { intros b q Hq ->. unfold at_or in Hq. destruct (s_bucket_triggers_map s !! b) as [ps|] eqn:E;
      simpl in Hq; [|by apply not_elem_of_nil in Hq]. destruct (Hok _ _ _ E Hq). congruence. }
  assert (forall b t', (fun q => (<[p := t']> (s_heap s)) !! q) <$> at_or [] b (s_bucket_triggers_map s) =
                       (fun q => s_heap s !! q) <$> at_or [] b (s_bucket_triggers_map s)) as Hold.
  { intros b t'. apply list_fmap_ext. intros i q Hq. apply lookup_insert_ne. intros <-.
    by eapply (Hne b), eq_refl; eapply list_elem_of_lookup_2. }
  split; [|split].
  - intros b ps q. cbn. intros Hb Hq. destruct (decide (q = p)) as [->|Hqp].
    + rewrite lookup_insert_eq. by eexists.
    + rewrite lookup_insert_ne by done. apply lookup_insert_Some in Hb as [[<- <-]|[_ Hb]]; [|by eapply Hok].
      apply elem_of_app in Hq as [Hq|Hq]; [|by apply list_elem_of_singleton in Hq].
      unfold at_or in Hq. destruct (s_bucket_triggers_map s !! te_bucket_name e) as [ps'|] eqn:E;
        simpl in Hq; [by eapply Hok|by apply not_elem_of_nil in Hq].
  - unfold worker_triggers. cbn. unfold at_or at 1. rewrite lookup_insert_eq. cbn [default].
    unfold id. rewrite fmap_app, Hold. cbn. by rewrite lookup_insert_eq.
  - intros b Hb. unfold worker_triggers. cbn. unfold at_or at 1. rewrite lookup_insert_ne by done. apply Hold.
Qed.

(** C28: when a coordinator adds a trigger, every worker it knows is sent one
    message, and a worker that handles it appends to the same bucket a trigger
    equal to the coordinator's (with the request's re-execution hints), leaving
    all other triggers as they were. Timed triggers stay on the coordinator. *)
Theorem worker_replicates_trigger (L : Layout) (P : PrimitiveCodecs) (conf : coord_conf) (now now' : Z) (c : coord)
    (r : TriggerOperationRequest) (n : node)
    (Hop : tor_operation_type r = ADD_TRIGGER)
    (Hbucket : is_Some (bucket_app_map c !! tor_bucket_name r))
    (Htype : tor_primitive_type r <> PT_OTHER) (Htime : tor_primitive_type r <> BY_TIME)
    (Hname : tor_trigger_name r <> []) (Hheap : heap_ok (n_sched n)) :
  exists c' t msg n',
    trigger_op_handler conf now c r =
      Ok (c', (tor_response_address r, TriggerOpResp (mk_TriggerOperationResponse (tor_bucket_name r)
                 (tor_trigger_name r) (tor_request_id r) SUCCESS))
              :: ((fun '(ip, _) => (trigger_update_address ip, UpdateCoord msg)) <$> map_iter (node_status_map c))) /\
    at_or [] (tor_bucket_name r) (bucket_triggers_map c') =
      at_or [] (tor_bucket_name r) (bucket_triggers_map c) ++ [t] /\
    handle_update_msg now' msg n = Ok ((), n', []) /\ heap_ok (n_sched n') /\
    worker_triggers (tor_bucket_name r) (n_sched n') =
      worker_triggers (tor_bucket_name r) (n_sched n) ++ [Some (set_rerun_metadata (rerun_metas (tor_hints r)) t)] /\
    forall b, b <> tor_bucket_name r -> worker_triggers b (n_sched n') = worker_triggers b (n_sched n).
Proof.
  assert (exists t0, gen_trigger_pointer now (tor_primitive_type r) (tor_trigger_name r) (tor_primitive r) = Some t0 /\
            get_type t0 = tor_primitive_type r) as (t0 & Hgen & Hty)
    by (destruct (tor_primitive_type r); try done; by eexists).
  pose proof (gen_dump_gen now now' _ _ _ _ (tor_trigger_option r) Htime Hgen) as Hgen'.
  set (t := set_trigger_option (tor_trigger_option r) t0) in *.
  set (e := trigger_entity r t).
  destruct (add_trigger_entity_spec now' e t0 (add_bucket (tor_app_name r) (tor_bucket_name r) (n_sched n)) Hheap Hname Hgen')
    as (Hok & Hnew & Hold).
  exists (add_trigger (tor_bucket_name r) t c), t,
    (mk_UpdateCoordMsg (private_ip conf) (thread_id conf) (tor_app_name r) [] [] [e] 0).
  eexists. split; [|split; [|split; [reflexivity|split; [exact Hok|split; [exact Hnew|exact Hold]]]]].
  - unfold trigger_op_handler, trigger_op_add. rewrite Hop, bool_decide_eq_true_2, Hgen by done.
    fold t. assert (get_type t <> BY_TIME) by (unfold t, get_type; simpl; unfold get_type in Hty; congruence).
    rewrite decide_False by done. done.
  - unfold add_trigger. cbn. unfold at_or at 1. by rewrite lookup_insert_eq.
Qed.

Definition one_node : coord :=
  mk_coord ∅ ∅ ∅ ∅ ∅ {[lit "b" := lit "app"]} {[lit "10.0.0.2" := mk_NodeStatus 0 2 ∅]} 7.
Definition add_request (ty : PrimitiveType) (ser : str) : TriggerOperationRequest :=
  mk_TriggerOperationRequest ADD_TRIGGER (lit "app") (lit "b") (lit "t") 1 ty ser (lit "1") (lit "r") [].
Definition empty_node : node :=
  mk_node (mk_sched ∅ ∅ ∅ [] [] ∅ 0 0 ∅ ∅ ∅ ∅ ∅ ∅ ∅ ∅ ∅ ∅ ∅ ∅) (mk_comm ∅ ∅ ∅ 0 0 [] []).
Definition demo_batch : TriggerOperationRequest :=
  add_request BY_BATCH_SIZE (@ByBatchSizeTrigger_dump test_codecs (mk_base (lit "f") (lit "t") BY_BATCH_SIZE)
                               (mk_ByBatchSizeState 3 [] ∅)).

Lemma worker_replicates_trigger_witness :
  exists c' t msg n',
    @trigger_op_handler layout_id test_codecs (mk_coord_conf (lit "10.0.0.1") 0 1) 5 one_node demo_batch =
      Ok (c', (lit "r", TriggerOpResp (mk_TriggerOperationResponse (lit "b") (lit "t") (lit "1") SUCCESS))
              :: ((fun '(ip, _) => (trigger_update_address ip, UpdateCoord msg)) <$>
                    @map_iter layout_id _ _ _ _ (node_status_map one_node))) /\
    at_or [] (lit "b") (bucket_triggers_map c') = at_or [] (lit "b") (bucket_triggers_map one_node) ++ [t] /\
    @handle_update_msg test_codecs 9 msg empty_node = Ok ((), n', []) /\ heap_ok (n_sched n') /\
    worker_triggers (lit "b") (n_sched n') =
      worker_triggers (lit "b") (n_sched empty_node) ++ [Some (set_rerun_metadata (rerun_metas []) t)] /\
    forall b, b <> lit "b" -> worker_triggers b (n_sched n') = worker_triggers b (n_sched empty_node).
Proof.
  apply (worker_replicates_trigger layout_id test_codecs (mk_coord_conf (lit "10.0.0.1") 0 1) 5 9 one_node demo_batch
    empty_node); done.
Defined.

(** * Deleting *)
Lemma find_trigger_missing name h ps :
  (forall p, p ∈ ps -> exists t, h !! p = Some t /\ get_trigger_name t <> name) ->
  find_trigger name h ps = Fault IterPastEnd.
Proof.
  induction ps as [|p ps IH]; intros Hps; [done|]. cbn [find_trigger].
  destruct (Hps p (list_elem_of_here _ _)) as (t & -> & Hn). cbn [res_of_option mbind res_bind].
  rewrite decide_False by done. rewrite IH; [done|]. intros q Hq. apply Hps. by right.
Qed.

(** A worker that has no copy of a trigger its coordinator deletes is
    brought down by the deletion: its search for the trigger runs past the end
    of the bucket's triggers. No worker has copies of timed triggers. *)
Theorem delete_unreplicated_trigger_faults (L : Layout) (P : PrimitiveCodecs) (conf : coord_conf) (now now' : Z)
    (c : coord) (r : TriggerOperationRequest) (t : Trigger) (n : node) (ip : str)
    (Hop : tor_operation_type r = DELETE_TRIGGER)
    (Hbucket : is_Some (bucket_app_map c !! tor_bucket_name r))
    (Ht : t ∈ at_or [] (tor_bucket_name r) (bucket_triggers_map c))
    (Hname : get_trigger_name t = tor_trigger_name r)
    (Hnode : is_Some (node_status_map c !! ip))
    (Hworker : forall p, p ∈ at_or [] (tor_bucket_name r) (s_bucket_triggers_map (n_sched n)) ->
       exists t', s_heap (n_sched n) !! p = Some t' /\ get_trigger_name t' <> tor_trigger_name r) :
  exists c' outs msg,
    trigger_op_handler conf now c r = Ok (c', outs) /\
    (trigger_update_address ip, UpdateCoord msg) ∈ outs /\
    handle_update_msg now' msg n = Fault IterPastEnd.
Proof.
  unfold trigger_op_handler, trigger_op_delete. rewrite Hop, bool_decide_eq_true_2 by done.
  set (ts := at_or [] (tor_bucket_name r) (bucket_triggers_map c)) in *.
  assert (length (filter (fun t => get_trigger_name t <> tor_trigger_name r) ts) <> length ts) as Hlen.
  { intros E. assert (Forall (fun t => get_trigger_name t <> tor_trigger_name r) ts) as Hall.
    { clear -E. induction ts as [|x ts IH]; [constructor|]. rewrite filter_cons in E.
      pose proof (length_filter (fun t => get_trigger_name t <> tor_trigger_name r) ts).
      case_decide; simpl in E; [|lia]. constructor; [done|]. apply IH. lia. }
    rewrite Forall_forall in Hall. by apply (Hall t). }
  rewrite decide_False by done. cbn [mbind res_bind]. do 3 eexists. split; [done|]. split.
  - right. apply list_elem_of_fmap. destruct Hnode as [st Hst]. exists (ip, st). split; [done|].
    by apply elem_of_map_iter.
  - unfold handle_update_msg. cbn [ucm_msg_type ucm_triggers]. simpl.
    unfold mbind, M_bind, try_sched, delete_trigger. cbn [te_bucket_name te_trigger_name].
    by rewrite find_trigger_missing.
Qed.

Definition timed_coord : coord :=
  mk_coord ∅ ∅ ∅ {[lit "b" := [ByTimeTrigger_new (lit "f") (lit "t") 100 0]]} ∅
    {[lit "b" := lit "app"]} {[lit "10.0.0.2" := mk_NodeStatus 0 2 ∅]} 7.

Lemma delete_unreplicated_trigger_faults_witness :
  exists c' outs msg,
    @trigger_op_handler layout_id test_codecs (mk_coord_conf (lit "10.0.0.1") 0 1) 5 timed_coord
      (mk_TriggerOperationRequest DELETE_TRIGGER (lit "app") (lit "b") (lit "t") 0 IMMEDIATE [] (lit "1") (lit "r") [])
      = Ok (c', outs) /\
    (trigger_update_address (lit "10.0.0.2"), UpdateCoord msg) ∈ outs /\
    @handle_update_msg test_codecs 9 msg empty_node = Fault IterPastEnd.
Proof.
  apply (delete_unreplicated_trigger_faults layout_id test_codecs (mk_coord_conf (lit "10.0.0.1") 0 1) 5 9 timed_coord
    (mk_TriggerOperationRequest DELETE_TRIGGER (lit "app") (lit "b") (lit "t") 0 IMMEDIATE [] (lit "1") (lit "r") [])
    (ByTimeTrigger_new (lit "f") (lit "t") 100 0) empty_node (lit "10.0.0.2")); try done.
  - left.
  - intros p Hp. by apply not_elem_of_nil in Hp.
Defined.
