(* ===== verification/LockStep.v ===== *)
(** A worker and its coordinator run copies of the same triggers. As long as
    all objects of a bucket come from one worker the copies advance in step,
    and the coordinator never repeats an invocation the worker has made. *)
From stdpp Require Import prelude gmap strings list fin_sets.
From Stdlib Require Import ZArith Lia Ascii.
From S2P Require Import Prelude Cpp Effects Proto Common Threads Trigger TriggerSpec Coordinator FuncCall Notify CoordLoop CoordInv CoordReg CoordClaims Sched SchedLoop Comm.

Open Scope Z_scope.

(** * Equal progress

    Two copies of a trigger have the same configuration and have kept the same
    objects; what they remember for re-execution may differ. A timed trigger
    has no copies. *)
Definition same_progress (t t' : Trigger) : Prop :=
  base t = base t' /\
  match sub t, sub t' with
  | Immediate _, Immediate _ => True
  | ByName s, ByName s' => bn_key_name s = bn_key_name s'
  | ByBatchSize s, ByBatchSize s' => bb_count s = bb_count s' /\ bb_buffer s = bb_buffer s'
  | BySet s, BySet s' => bs_key_set s = bs_key_set s' /\ bs_prepared s = bs_prepared s'
  | DynamicGroup s, DynamicGroup s' => s = s'
  | Redundant s, Redundant s' => s = s'
  | _, _ => False
  end.

Definition timed (t : Trigger) : bool := match sub t with ByTime _ => true | _ => false end.

Lemma action_same_progress `{Layout} now now' t t' bk :
  same_progress t t' ->
  (action_for_new_object now t bk).1 = (action_for_new_object now' t' bk).1 /\
  same_progress (action_for_new_object now t bk).2 (action_for_new_object now' t' bk).2.
Proof.
  destruct t as [b s], t' as [b' s']. unfold same_progress, action_for_new_object. simpl. intros [<- Hs].
  destruct s as [s|s|s|s|s|s|s], s' as [s'|s'|s'|s'|s'|s'|s']; try done; simpl in Hs.
  - unfold ByNameTrigger_action. simpl. rewrite Hs. done.
  - destruct Hs as [Hc Hb]. unfold ByBatchSizeTrigger_action. rewrite Hc, Hb. destruct (_ <=? _); simpl; rewrite ?Hc; done.
  - destruct Hs as [Hc Hb]. unfold BySetTrigger_action. rewrite Hc, Hb. repeat case_decide; simpl; rewrite ?Hc, ?Hb; done.
  - subst s'. destruct (DynamicGroupTrigger_action b s bk). done.
  - subst s'. destruct (RedundantTrigger_action b s bk). done.
Qed.

Lemma timed_action `{Layout} now t bk : timed (action_for_new_object now t bk).2 = timed t.
Proof.
  destruct t as [b [s|s|s|s|s|s|s]]; unfold timed, action_for_new_object; simpl; try done.
  - by destruct (ByBatchSizeTrigger_action b s bk).
  - by destruct (BySetTrigger_action b s bk).
  - by destruct (DynamicGroupTrigger_action b s bk).
  - by destruct (RedundantTrigger_action b s bk).
  - by destruct (ByTimeTrigger_action b s now bk).
Qed.

(** * The worker's side *)
(** The pointers of a bucket are distinct and point to these triggers. *)
Definition holds (s : sched) (ps : list ptr) (ts : list Trigger) : Prop :=
  NoDup ps /\ Forall2 (fun p t => s_heap s !! p = Some t) ps ts.

Definition advance `{Layout} (now : Z) (bk : BucketKey) (ts : list Trigger) : list Trigger :=
  (fun t => (action_for_new_object now t bk).2) <$> ts.
Definition firing `{Layout} (now : Z) (bk : BucketKey) (ts : list Trigger) : list str :=
  get_trigger_name <$> filter (fun t => (action_for_new_object now t bk).1 <> []) ts.

Lemma holds_insert s p t' ps ts :
  p ∉ ps -> holds s ps ts -> holds (upd_heap <[p := t']> s) ps ts.
Proof.
  intros Hp [Hnd Hps]. split; [done|]. clear Hnd. induction Hps as [|q t qs us Hq Hqs IH]; [constructor|].
  apply not_elem_of_cons in Hp as [Hpq Hp]. constructor; [|by apply IH]. cbn. by rewrite lookup_insert_ne.
Qed.

Lemma object_arrival_spec `{Layout} now bk ps ts s :
  holds s ps ts ->
  exists metas s', object_arrival now bk ps s = Ok ((firing now bk ts, metas), s', []) /\
    holds s' ps (advance now bk ts) /\ (forall q, q ∉ ps -> s_heap s' !! q = s_heap s !! q).
Proof.
  revert ts s. induction ps as [|p ps IH]; intros ts s [Hnd Hps].
  { inv Hps. exists [], s. split; [done|]. split; [|done]. split; [done|]. constructor. }
  apply Forall2_cons_inv_l in Hps as (t & ts' & Hp & Hps & ->). apply NoDup_cons in Hnd as [Hpn Hnd].
  cbn [object_arrival]. run. unfold id. rewrite Hp. cbn [res_of_option]. run.
  unfold firing, advance. rewrite filter_cons, fmap_cons.
  destruct (action_for_new_object now t bk) as [acts t'] eqn:Ea. cbn [fst snd]. run.
  match goal with |- context [mbind _ (object_arrival now bk ps) ?s1] =>
    destruct (IH ts' s1) as (metas & s2 & E & [Hnd2 Hh] & Hq) end.
  { by apply (holds_insert s). }
  erewrite bind_quiet by exact E. do 2 eexists. split; [|split].
  - unfold mret, M_ret. f_equal. f_equal. f_equal. f_equal.
    destruct acts; [rewrite decide_False by tauto|rewrite decide_True by done]; done.
  - split; [by constructor|]. constructor; [|done]. rewrite Hq by done. cbn. by rewrite lookup_insert_eq.
  - intros q [Hqp Hqs]%not_elem_of_cons. rewrite Hq by done. cbn. by rewrite lookup_insert_ne.
Qed.

(** * The two sides together *)
(** The copies of the replicated triggers, in order. *)
Definition in_step (ws cs : list Trigger) : Prop :=
  Forall2 same_progress ws (filter (fun t => timed t = false) cs).

Lemma in_step_advance `{Layout} now now' bk ws cs :
  in_step ws cs -> in_step (advance now bk ws) (advance now' bk cs).
Proof.
  unfold in_step, advance. revert ws. induction cs as [|t cs IH]; intros ws Hs.
  { inv Hs. constructor. }
  rewrite fmap_cons. rewrite filter_cons in *. rewrite timed_action. case_decide; [|by apply IH].
  apply Forall2_cons_inv_r in Hs as (w & ws' & Hw & Hs & ->). rewrite fmap_cons. constructor; [|by apply IH].
  by apply action_same_progress.
Qed.

Lemma in_step_due `{Layout} now now' bk ws cs a :
  in_step ws cs -> a ∈ due now' (list_to_set (firing now bk ws)) bk cs ->
  exists t, t ∈ cs /\ timed t = true /\ a ∈ (action_for_new_object now' t bk).1.
Proof.
  unfold due. intros Hs Ha. apply list_elem_of_In, in_concat in Ha as (l & Hl & Ha).
  apply list_elem_of_In in Hl, Ha. apply list_elem_of_fmap in Hl as (t & -> & Ht).
  case_bool_decide as Hact; [by apply not_elem_of_nil in Ha|]. exists t. split; [done|]. split; [|done].
  destruct (timed t) eqn:E; [done|]. exfalso. apply Hact, elem_of_list_to_set.
  assert (t ∈ filter (fun t => timed t = false) cs) as Hf by (by apply list_elem_of_filter).
  apply list_elem_of_lookup in Hf as [i Hi]. destruct (Forall2_lookup_r _ _ _ _ _ Hs Hi) as (w & Hw & Hp).
  apply list_elem_of_fmap. exists w. split; [unfold get_trigger_name; by destruct Hp as [<- _]|].
  apply list_elem_of_filter. split; [|by eapply list_elem_of_lookup_2].
  destruct (action_same_progress now now' w t bk Hp) as [-> _]. intros E'. rewrite E' in Ha.
  by apply not_elem_of_nil in Ha.
Qed.

(** C5: when an object arrives at the worker, and the coordinator is then told
    of it and of the triggers that fired there, the two sets of trigger copies
    are in step again, and every call the coordinator makes for the object is
    that of a timed trigger, which the worker does not have: no invocation is
    made twice. *)
Theorem no_invocation_made_twice (L : Layout) (R : Rand) (conf : coord_conf) (now now' : Z) (resp : str)
    (bk : BucketKey) (s : sched) (ws cs : list Trigger) (c c' : coord) (cs' : list Trigger) (fired : list str)
    (outs : list out) (ps : list ptr)
    (Hptrs : s_bucket_triggers_map s !! bucket_ bk = Some ps)
    (Hholds : holds s ps ws) (Hstep : in_step ws cs)
    (Hcoord : check_triggers conf now' resp (list_to_set (firing now bk ws)) bk c cs = Ok (c', cs', fired, outs)) :
  exists metas s' ws' invoked,
    check_object_arrival now bk s = Ok ((firing now bk ws, metas), s', []) /\
    holds s' ps ws' /\ in_step ws' cs' /\
    Forall2 (call_for bk) invoked outs /\
    (forall a, a ∈ invoked -> exists t, t ∈ cs /\ timed t = true /\ a ∈ (action_for_new_object now' t bk).1).
Proof.
  apply check_triggers_spec in Hcoord as (-> & _ & invoked & Hsub & Hall).
  unfold check_object_arrival. run. unfold at_or. rewrite Hptrs. cbn [default]. unfold id.
  destruct (object_arrival_spec now bk ps ws (upd_bucket_triggers_map (touch [] (bucket_ bk)) s)) as (metas & s' & -> & Hh & _);
    [done|]. exists metas, s', (advance now bk ws), invoked. split; [done|]. split; [done|].
  split; [by apply in_step_advance|]. split; [done|]. intros a Ha. eapply in_step_due; [done|].
  eapply sublist_subseteq; [exact Hsub|exact Ha].
Qed.

(** An immediate trigger on both sides and a timed one on the coordinator. *)
Definition step_bk : BucketKey := get_bucket_key_from_addr demo_addr.
Definition step_worker : sched :=
  upd_bucket_triggers_map (fun _ => {[lit "b" := [0%nat]]})
    (upd_heap (fun _ => {[0%nat := ImmediateTrigger_new (lit "f") (lit "t")]})
      (mk_sched ∅ ∅ ∅ [] [] ∅ 0 0 ∅ ∅ ∅ ∅ ∅ ∅ ∅ ∅ ∅ ∅ ∅ ∅)).
Definition step_triggers : list Trigger :=
  [ImmediateTrigger_new (lit "f") (lit "t"); ByTimeTrigger_new (lit "g") (lit "u") 0 0].
Definition step_result : res (coord * list Trigger * list str * list out) :=
  @check_triggers layout_id rand_lcg (mk_coord_conf (lit "10.0.0.1") 0 2) 5 [] {[lit "t"]} step_bk
    (update_address step_bk (lit "tcp://10.0.0.2:4400") demo_coord) step_triggers.
Definition step_coord : coord := match step_result with Ok (c, _, _, _) => c | _ => coord_init 0 end.
Definition step_triggers' : list Trigger := match step_result with Ok (_, ts, _, _) => ts | _ => [] end.
Definition step_outs : list out := match step_result with Ok (_, _, _, o) => o | _ => [] end.

Lemma no_invocation_made_twice_witness :
  exists metas s' ws' invoked,
    @check_object_arrival layout_id 4 step_bk step_worker =
      Ok ((@firing layout_id 4 step_bk [ImmediateTrigger_new (lit "f") (lit "t")], metas), s', []) /\
    holds s' [0%nat] ws' /\ in_step ws' step_triggers' /\
    Forall2 (call_for step_bk) invoked step_outs /\
    (forall a, a ∈ invoked -> exists t, t ∈ step_triggers /\ timed t = true /\
       a ∈ (@action_for_new_object layout_id 5 t step_bk).1).
Proof.
  apply (no_invocation_made_twice layout_id rand_lcg (mk_coord_conf (lit "10.0.0.1") 0 2) 4 5 [] step_bk step_worker
    [ImmediateTrigger_new (lit "f") (lit "t")] step_triggers
    (update_address step_bk (lit "tcp://10.0.0.2:4400") demo_coord) step_coord step_triggers' [] step_outs [0%nat]).
  - done.
  - split; [apply NoDup_singleton|]. by repeat constructor.
  - by repeat constructor.
  - by vm_compute.
Defined.
