(* ===== verification/Waiting.v ===== *)
(** Calls whose arguments are on other workers: what is fetched, what waits,
    and when a waiting call is released. *)
From stdpp Require Import prelude gmap strings list fin_sets.
From Stdlib Require Import ZArith Lia Ascii.
From S2P Require Import Prelude Cpp Effects Proto Common Threads Trigger Sched SchedLoop Comm Dispatch.

Open Scope Z_scope.

(** * Invariants *)
Definition known (conf : sched_conf) (e : Z) : Prop := 0 <= e < executor_num conf.

(** The executors the scheduler has heard of have channels. *)
Definition executors_ok (conf : sched_conf) (s : sched) : Prop :=
  (forall e st, s_executor_status_map s !! e = Some st -> known conf e) /\
  (forall k r, r ∈ at_or [] k (s_key_remote_get_map s) -> known conf (executor_id_ r)).

(** The index of waiting calls by key and the table of waiting calls agree, a
    waiting call waits for some of its arguments, and its id is not in use
    again. *)
Record waiting (s : sched) : Prop := {
  w_index : forall k cid, cid ∈ at_or ∅ k (s_key_call_id_map s) <->
    exists ifa, s_call_id_inflight_args_map s !! cid = Some ifa /\ k ∈ if_inflight_args_ ifa;
  w_pending : forall cid ifa, s_call_id_inflight_args_map s !! cid = Some ifa ->
    if_inflight_args_ ifa <> ∅ /\ (forall k, k ∈ if_inflight_args_ ifa -> k ∈ if_key_args_ ifa) /\ cid < s_call_id s }.

(** The fields these invariants read. *)
Definition frame (s s' : sched) : Prop :=
  s_key_call_id_map s' = s_key_call_id_map s /\ s_call_id_inflight_args_map s' = s_call_id_inflight_args_map s /\
  s_call_id s' = s_call_id s /\ s_key_remote_get_map s' = s_key_remote_get_map s /\
  dom (s_executor_status_map s') = dom (s_executor_status_map s) /\
  s_key_len_map s' = s_key_len_map s.

#[export] Instance frame_preorder : PreOrder frame.
Proof.
  split; [by intros s|]. intros s1 s2 s3 (?&?&?&?&?&?) (?&?&?&?&?&?). repeat split; congruence.
Qed.

Lemma executors_ok_frame conf s s' : frame s s' -> executors_ok conf s -> executors_ok conf s'.
Proof.
  intros (_&_&_&Eg&Ed&_) [Hs Hg]. split; [|by rewrite Eg].
  intros e st He. assert (e ∈ dom (s_executor_status_map s')) as Hd by (by apply elem_of_dom_2 in He).
  rewrite Ed in Hd. apply elem_of_dom in Hd as [st' Hst]. by eapply Hs.
Qed.

(** * Scheduling returns

    With a delay configured a call that finds no executor is queued. *)
Lemma pick_executor_runs `{Layout, Rand} conf func s :
  exists ex s', pick_executor conf func s = Ok (ex, s', []) /\ frame s s' /\
    s_executor_status_map s' = s_executor_status_map s.
Proof.
  unfold pick_executor. run. destruct (find_executors _ _ _ _) as [w c].
  case_decide; [|case_decide].
  - destruct (rand_below_ok (s_ramSeed s) (length w)) as (i & x & Er); [done|].
    pose proof (rand_below_lt _ _ _ _ Er) as Hi. destruct (lookup_lt_is_Some_2 _ _ Hi) as [e He].
    erewrite bind_quiet; [|unfold draw_seed, draw; by rewrite Er].
    unfold vec_at. rewrite He. cbn [res_of_option]. run. by do 2 eexists.
  - destruct (rand_below_ok (s_ramSeed s) (length c)) as (i & x & Er); [done|].
    pose proof (rand_below_lt _ _ _ _ Er) as Hi. destruct (lookup_lt_is_Some_2 _ _ Hi) as [e He].
    erewrite bind_quiet; [|unfold draw_seed, draw; by rewrite Er].
    unfold vec_at. rewrite He. cbn [res_of_option]. run. by do 2 eexists.
  - by do 2 eexists.
Qed.

Lemma send_runs conf e msg s : known conf e -> send_to_executer conf e msg s = Ok ((), s, [ToExecutor e msg]).
Proof.
  intros [H0 H1]. unfold send_to_executer. by rewrite (proj2 (Z.leb_le _ _)), (proj2 (Z.ltb_lt _ _)).
Qed.

Lemma for_each_modify {A} (f : A -> sched -> sched) (l : list A) s :
  for_each (fun a => modify (f a) : SM ()) l s = Ok ((), foldl (fun s a => f a s) s l, []).
Proof. revert s. induction l as [|a l IH]; intros s; [done|]. cbn [for_each]. run. by rewrite IH. Qed.

Lemma note_for_rerun_frame now session func args flag l s :
  frame s (foldl (fun s meta => note_for_rerun now session func args flag meta s) s l).
Proof. revert s. induction l as [|m l IH]; intros s; [done|]. simpl. etransitivity; [|apply IH]. done. Qed.

Lemma schedule_runs `{Layout, Rand} conf now session app func args flag s :
  0 < schedDelayTime conf -> executors_ok conf s ->
  exists s' o, schedule_func_call conf now session app func args flag s = Ok ((), s', o) /\ frame s s'.
Proof.
  intros Hdelay Hok. unfold schedule_func_call.
  destruct (pick_executor_runs conf func s) as (ex & s1 & E1 & F1 & Es).
  rewrite (bind_quiet _ _ _ _ _ E1). destruct ex as [e|].
  - apply pick_executor_free in E1 as (_ & _ & st & Hst & _). run.
    destruct Hok as [Hs _]. pose proof (Hs _ _ Hst) as Hk.
    match goal with |- context [send_to_executer conf e ?msg] => pose proof (send_runs conf e msg s1 Hk) as Esend end.
    eexists _, _. split.
    + eapply bind_ok_r; [exact Esend|]. cbv beta. run. apply for_each_modify.
    + etransitivity; [exact F1|]. etransitivity; [|apply note_for_rerun_frame].
      split; [done|]. do 3 (split; [done|]). split; [|done]. cbn. rewrite dom_insert_L.
      assert (e ∈ dom (s_executor_status_map s1)) by (rewrite Es; by apply elem_of_dom_2 in Hst). set_solver.
  - rewrite (proj2 (Z.ltb_lt _ _)) by done. by do 2 eexists.
Qed.

(** * A call whose arguments may be missing *)
(** The keys among these that the worker does not hold. *)
Definition missing_keys (s : sched) (args : list str) : gset str :=
  list_to_set (filter (fun k => s_key_len_map s !! k = None) args).

Lemma missing_keys_cons s k args :
  missing_keys s (k :: args) = (if decide (s_key_len_map s !! k = None) then {[k]} else ∅) ∪ missing_keys s args.
Proof. unfold missing_keys. rewrite filter_cons. case_decide; [done|]. by rewrite union_empty_l_L. Qed.

(** What fetching leaves alone. *)
Definition fetch_frame (s s' : sched) : Prop :=
  s_call_id_inflight_args_map s' = s_call_id_inflight_args_map s /\ s_call_id s' = s_call_id s /\
  s_key_remote_get_map s' = s_key_remote_get_map s /\ s_executor_status_map s' = s_executor_status_map s /\
  s_key_len_map s' = s_key_len_map s.

(** Every missing key is indexed under the call, and requested once unless some
    call waits for it already. *)
Lemma fetch_args_spec cid acc args s :
  exists s' ks, fetch_args cid acc args s =
      Ok (acc ∪ missing_keys s args, s', (fun k => Helper (SendDataReq k)) <$> ks) /\
    (forall k, at_or ∅ k (s_key_call_id_map s') =
       at_or ∅ k (s_key_call_id_map s) ∪ (if decide (k ∈ missing_keys s args) then {[cid]} else ∅)) /\
    (forall k, s_key_call_id_map s' !! k = None <-> s_key_call_id_map s !! k = None /\ k ∉ missing_keys s args) /\
    fetch_frame s s' /\
    NoDup ks /\ (forall k, k ∈ ks <-> k ∈ missing_keys s args /\ s_key_call_id_map s !! k = None).
Proof.
  revert acc s. induction args as [|a args IH]; intros acc s.
  { exists s, []. split; [cbn; by rewrite union_empty_r_L|]. split; [intros k; rewrite decide_False by set_solver; set_solver|].
    split; [set_solver|]. split; [done|]. split; [constructor|]. set_solver. }
  cbn [fetch_args]. rewrite missing_keys_cons. unfold fetch_arg. run.
  destruct (s_key_len_map s !! a) as [len|] eqn:El.
  { rewrite decide_False by done. run. destruct (IH acc s) as (s' & ks & E & Hrest). exists s', ks. split; [|].
    - rewrite E. f_equal. f_equal. f_equal. set_solver.
    - by rewrite union_empty_l_L. }
  rewrite decide_True by done. run.
  set (s1 := upd_key_call_id_map (fun m => <[a := at_or ∅ a m ∪ {[cid]}]> m) s).
  destruct (IH (acc ∪ {[a]}) s1) as (s' & ks & E & Hidx & Hnone & Hfr & Hnd & Hks).
  change (missing_keys s1 args) with (missing_keys s args) in *.
  assert (forall k, at_or ∅ k (s_key_call_id_map s1) = at_or ∅ k (s_key_call_id_map s) ∪ (if decide (k = a) then {[cid]} else ∅)) as H1.
  { intros k. unfold s1, at_or. cbn. case_decide as Hk; [subst; rewrite lookup_insert_eq|rewrite lookup_insert_ne by done]; set_solver. }
  assert (forall k, s_key_call_id_map s1 !! k = None <-> s_key_call_id_map s !! k = None /\ k <> a) as H2.
  { intros k. unfold s1. cbn. rewrite lookup_insert_None. naive_solver. }
  exists s', ((match s_key_call_id_map s !! a with Some _ => [] | None => [a] end) ++ ks).
  split; [|split; [|split; [|split; [done|split]]]].
  - assert ((acc ∪ {[a]} ∪ missing_keys s args) = acc ∪ ({[a]} ∪ missing_keys s args)) as Hacc by set_solver.
    rewrite <- Hacc. destruct (s_key_call_id_map s !! a); [run; exact E|].
    run. rewrite fmap_app. cbn. apply bind_emit. run. exact E.
  - intros k. rewrite Hidx, H1. repeat case_decide; set_solver.
  - intros k. rewrite Hnone, H2. set_solver.
  - destruct (s_key_call_id_map s !! a) eqn:Ea; [done|]. apply NoDup_app. split; [apply NoDup_singleton|].
    split; [|done]. intros k ->%list_elem_of_singleton Hk. apply Hks in Hk as [_ Hk]. apply H2 in Hk. tauto.
  - intros k. rewrite elem_of_app, Hks, H2. destruct (s_key_call_id_map s !! a) eqn:Ea.
    + rewrite elem_of_union, elem_of_singleton. split; [intros [Hk|(?&?&?)]; [by apply not_elem_of_nil in Hk|tauto]|].
      intros [[->|Hk] Hn]; [congruence|]. right. split; [done|]. split; [done|]. by intros ->; congruence.
    + rewrite list_elem_of_singleton, elem_of_union, elem_of_singleton. split; [intros [->|(?&?&?)]; tauto|].
      intros [[->|Hk] Hn]; [by left|]. destruct (decide (k = a)) as [->|]; tauto.
Qed.

Lemma executors_ok_fetch conf s s' : fetch_frame s s' -> executors_ok conf s -> executors_ok conf s'.
Proof. intros (_ & _ & Eg & Es & _) [Hs Hg]. split; [by rewrite Es|by rewrite Eg]. Qed.

(** Adding a call that waits for the missing keys keeps the tables in step. *)
Lemma waiting_add s s1 s2 cid ifa missing :
  waiting s -> cid = s_call_id s -> missing <> ∅ -> if_inflight_args_ ifa = missing ->
  (forall k, k ∈ missing -> k ∈ if_key_args_ ifa) ->
  (forall k, at_or ∅ k (s_key_call_id_map s1) =
     at_or ∅ k (s_key_call_id_map s) ∪ (if decide (k ∈ missing) then {[cid]} else ∅)) ->
  s_call_id_inflight_args_map s1 = s_call_id_inflight_args_map s ->
  s_key_call_id_map s2 = s_key_call_id_map s1 ->
  s_call_id_inflight_args_map s2 = <[cid := ifa]> (s_call_id_inflight_args_map s1) ->
  s_call_id s2 = cid + 1 -> waiting s2.
Proof.
  intros [Hidx Hpend] -> Hne Hifa Hargs Hmap Hin E1 E2 Ecid.
  assert (s_call_id_inflight_args_map s !! s_call_id s = None) as Hfresh.
  { destruct (s_call_id_inflight_args_map s !! s_call_id s) as [x|] eqn:E; [|done]. apply Hpend in E. lia. }
  split.
  - intros k c. rewrite E1, E2, Hin, Hmap, elem_of_union, Hidx. split.
    + intros [(x & Hx & Hk)|Hc].
      * exists x. split; [|done]. rewrite lookup_insert_ne; [done|]. intros <-. congruence.
      * case_decide as Hm; [|set_solver]. apply elem_of_singleton in Hc as ->. exists ifa.
        rewrite lookup_insert_eq, Hifa. done.
    + intros (x & Hx & Hk). apply lookup_insert_Some in Hx as [[<- <-]|[Hnc Hx]]; [right|left; eauto].
      rewrite decide_True by (by rewrite <- Hifa). set_solver.
  - intros c x. rewrite E2, Hin, Ecid. intros [[<- <-]|[Hnc Hx]]%lookup_insert_Some.
    + rewrite Hifa. split; [done|]. split; [done|lia].
    + apply Hpend in Hx as (?&?&?). split; [done|]. split; [done|lia].
Qed.

Lemma waiting_frame s s' : frame s s' -> waiting s -> waiting s'.
Proof. intros (E1 & E2 & E3 & _) [Hidx Hpend]. split; [by rewrite E1, E2|by rewrite E2, E3]. Qed.

(** The invariants of the tables of waiting calls survive a call id that moves
    on. *)
Lemma waiting_next s s' k :
  (forall x, at_or ∅ x (s_key_call_id_map s') = at_or ∅ x (s_key_call_id_map s)) ->
  s_call_id_inflight_args_map s' = s_call_id_inflight_args_map s ->
  s_call_id s' = s_call_id s + k -> 0 <= k -> waiting s -> waiting s'.
Proof.
  intros E1 E2 E3 Hk [Hidx Hpend]. split; [intros x c; by rewrite E1, E2|]. rewrite E2, E3. intros c x Hx.
  apply Hpend in Hx as (?&?&?). split; [done|]. split; [done|lia].
Qed.


(** * Data that arrives *)
(** A waiting call without the key; none when it waited for nothing else. *)
Definition without_key (key : str) (ifa : InflightFuncArgs) : InflightFuncArgs :=
  mk_InflightFuncArgs (if_func_name_ ifa) (if_session_id_ ifa) (if_key_args_ ifa)
    (if_inflight_args_ ifa ∖ {[key]}) (if_arg_flag_ ifa).
Definition release (key : str) (ifa : InflightFuncArgs) : option InflightFuncArgs :=
  if decide (if_inflight_args_ ifa ∖ {[key]} = ∅) then None else Some (without_key key ifa).

(** What the handling of one waiting call leaves alone. *)
Definition release_frame (s s' : sched) : Prop :=
  s_key_call_id_map s' = s_key_call_id_map s /\ s_call_id s' = s_call_id s /\
  s_key_remote_get_map s' = s_key_remote_get_map s /\
  dom (s_executor_status_map s') = dom (s_executor_status_map s) /\ s_key_len_map s' = s_key_len_map s.

Lemma executors_ok_release conf s s' : release_frame s s' -> executors_ok conf s -> executors_ok conf s'.
Proof.
  intros (_ & _ & Eg & Ed & _) [Hs Hg]. split; [|by rewrite Eg]. intros e st He.
  assert (e ∈ dom (s_executor_status_map s')) as Hd by (by apply elem_of_dom_2 in He).
  rewrite Ed in Hd. apply elem_of_dom in Hd as [st' Hst]. by eapply Hs.
Qed.

Lemma data_for_call_spec `{Layout, Rand} conf now key cid ifa s :
  0 < schedDelayTime conf -> executors_ok conf s -> s_call_id_inflight_args_map s !! cid = Some ifa ->
  exists s' o, data_for_call conf now key cid s = Ok ((), s', o) /\ release_frame s s' /\
    s_call_id_inflight_args_map s' = partial_alter (fun _ => release key ifa) cid (s_call_id_inflight_args_map s).
Proof.
  intros Hdelay Hok Hifa. unfold data_for_call. run. unfold at_or at 1. rewrite Hifa. cbn [default]. unfold id.
  unfold release. run. cbn [if_inflight_args_].
  assert (at_or empty_InflightFuncArgs cid (s_call_id_inflight_args_map s) = ifa) as Eifa by (unfold at_or; by rewrite Hifa).
  rewrite ?Eifa. case_decide as Hempty.
  - run. match goal with |- context [mbind _ (schedule_func_call conf now ?a ?b ?c ?d ?e) ?s1] =>
      destruct (schedule_runs conf now a b c d e s1) as (s2 & o & E2 & F2); [done|exact Hok|] end.
    eexists _, _. split; [eapply bind_ok_r; [exact E2|reflexivity]|].
    pose proof F2 as (G1 & G2 & G3 & G4 & G5 & G6). split; [done|].
    cbn. rewrite G2. cbn. apply map_eq. intros c. destruct (decide (c = cid)) as [->|Hne].
    + by rewrite lookup_delete_eq, lookup_partial_alter_eq.
    + by rewrite lookup_delete_ne, lookup_insert_ne, lookup_partial_alter_ne by done.
  - eexists _, _. split; [reflexivity|]. split; [done|]. cbn. apply map_eq. intros c.
    destruct (decide (c = cid)) as [->|Hne].
    + by rewrite lookup_insert_eq, lookup_partial_alter_eq.
    + by rewrite lookup_insert_ne, lookup_partial_alter_ne by done.
Qed.

Lemma release_loop `{Layout, Rand} conf now key cids s :
  0 < schedDelayTime conf -> executors_ok conf s -> NoDup cids ->
  (forall cid, cid ∈ cids -> is_Some (s_call_id_inflight_args_map s !! cid)) ->
  exists s' o, for_each (data_for_call conf now key) cids s = Ok ((), s', o) /\ release_frame s s' /\
    forall cid, s_call_id_inflight_args_map s' !! cid =
      if decide (cid ∈ cids) then s_call_id_inflight_args_map s !! cid ≫= release key
      else s_call_id_inflight_args_map s !! cid.
Proof.
  intros Hdelay. revert s. induction cids as [|c cids IH]; intros s Hok Hnd Hin.
  { do 2 eexists. split; [done|]. split; [done|]. intros cid. by rewrite decide_False by apply not_elem_of_nil. }
  apply NoDup_cons in Hnd as [Hc Hnd]. destruct (Hin c (list_elem_of_here _ _)) as [ifa Hifa].
  destruct (data_for_call_spec conf now key c ifa s Hdelay Hok Hifa) as (s1 & o1 & E1 & F1 & M1).
  destruct (IH s1) as (s2 & o2 & E2 & F2 & M2); [by eapply executors_ok_release|done| |].
  { intros cid Hcid. rewrite M1, lookup_partial_alter_ne by (by intros ->). apply Hin. by right. }
  cbn [for_each]. eexists _, _. split; [eapply bind_ok_r; [exact E1|exact E2]|].
  destruct F1 as (?&?&?&?&?), F2 as (?&?&?&?&?). split; [repeat split; congruence|].
  intros cid. rewrite M2, M1. destruct (decide (cid = c)) as [->|Hne].
  - rewrite decide_False by done. rewrite decide_True by left. rewrite lookup_partial_alter_eq, Hifa. done.
  - rewrite lookup_partial_alter_ne by done.
    destruct (decide (cid ∈ cids)); [rewrite decide_True by (by right)|rewrite decide_False by (rewrite elem_of_cons; tauto)]; done.
Qed.

Lemma answer_all_runs conf reqs value s :
  (forall r, r ∈ reqs -> known conf (executor_id_ r)) ->
  answer_all conf reqs value s =
    Ok ((), s, (fun r => ToExecutor (executor_id_ r) (io_response (req_id_ r) value)) <$> reqs).
Proof.
  unfold answer_all. induction reqs as [|r reqs IH]; intros Hk; [done|]. cbn [for_each].
  erewrite bind_ok_r; [|apply send_runs, Hk; left|apply IH; intros; apply Hk; by right]. done.
Qed.

Lemma answer_gets_runs conf key value s :
  executors_ok conf s ->
  answer_gets conf key value s =
    Ok ((), upd_key_remote_get_map (delete key) s,
        (fun r => ToExecutor (executor_id_ r) (io_response (req_id_ r) value)) <$> at_or [] key (s_key_remote_get_map s)).
Proof.
  intros [_ Hg]. unfold answer_gets. run.
  erewrite bind_ok_r; [|apply answer_all_runs, Hg|reflexivity]. by rewrite app_nil_r.
Qed.

(** Removing a key from the index and from the calls that wait for it. *)
Lemma waiting_release key s s' :
  waiting s -> s_key_call_id_map s' = delete key (s_key_call_id_map s) -> s_call_id s' = s_call_id s ->
  (forall cid, s_call_id_inflight_args_map s' !! cid =
     if decide (cid ∈ at_or ∅ key (s_key_call_id_map s)) then s_call_id_inflight_args_map s !! cid ≫= release key
     else s_call_id_inflight_args_map s !! cid) -> waiting s'.
Proof.
  intros [Hidx Hpend] Ek Ec Hm.
  assert (forall cid ifa', s_call_id_inflight_args_map s' !! cid = Some ifa' <->
    exists ifa, s_call_id_inflight_args_map s !! cid = Some ifa /\
      if_inflight_args_ ifa ∖ {[key]} <> ∅ /\ if_key_args_ ifa' = if_key_args_ ifa /\
      if_inflight_args_ ifa' = if_inflight_args_ ifa ∖ {[key]} /\ s_call_id_inflight_args_map s' !! cid = Some ifa') as Hspec.
  { intros cid ifa'. split; [|naive_solver]. intros E. pose proof E as E'. rewrite Hm in E'. case_decide as Hin.
    - destruct (s_call_id_inflight_args_map s !! cid) as [ifa|]; [|done]. simpl in E'. unfold release in E'.
      case_decide; [done|]. injection E' as <-. exists ifa. done.
    - exists ifa'. rewrite Hidx in Hin. destruct (Hpend _ _ E') as (Hne & _).
      assert (key ∉ if_inflight_args_ ifa') as Hk by naive_solver.
      assert (if_inflight_args_ ifa' ∖ {[key]} = if_inflight_args_ ifa') as -> by set_solver. done. }
  split.
  - intros k cid. rewrite Ek. unfold at_or. destruct (decide (k = key)) as [->|Hne].
    + rewrite lookup_delete_eq. simpl. split; [set_solver|]. intros (x & Hx & Hk).
      apply Hspec in Hx as (ifa & _ & _ & _ & Ei & _). rewrite Ei in Hk. set_solver.
    + rewrite lookup_delete_ne by done. fold (at_or ∅ k (s_key_call_id_map s)). rewrite Hidx. split.
      * intros (ifa & Hifa & Hk). assert (if_inflight_args_ ifa ∖ {[key]} <> ∅) as Hr by set_solver.
        rewrite Hm. case_decide; rewrite Hifa; simpl.
        -- unfold release. rewrite decide_False by done. eexists. split; [done|]. simpl. set_solver.
        -- eauto.
      * intros (x & Hx & Hk). apply Hspec in Hx as (ifa & Hifa & _ & _ & Ei & _). exists ifa. set_solver.
  - intros cid x Hx. pose proof Hx as Hx'. apply Hspec in Hx' as (ifa & Hifa & Hne & Eargs & Ei & _).
    destruct (Hpend _ _ Hifa) as (_ & Hsub & Hlt). rewrite Ei, Eargs, Ec. split; [done|]. split; [|done].
    intros k Hk. apply Hsub. set_solver.
Qed.


(** A worker with one idle executor and a call that waits for an object. *)
Definition wait_conf : sched_conf := mk_sched_conf 1 false false 1.
Definition idle_sched : sched :=
  upd_executor_status_map (fun _ => {[0 := 0]}) (mk_sched ∅ ∅ ∅ [] [] ∅ 7 0 ∅ ∅ ∅ ∅ ∅ ∅ ∅ ∅ ∅ ∅ ∅ ∅).
Definition waiting_call : InflightFuncArgs := mk_InflightFuncArgs (lit "f") (lit "s") [lit "b|k"] {[lit "b|k"]} 1.
Definition waiting_sched : sched :=
  upd_call_id (fun _ => 1) (upd_key_call_id_map (fun _ => {[lit "b|k" := {[0]}]})
    (upd_call_id_inflight_args_map (fun _ => {[0 := waiting_call]}) idle_sched)).

Lemma idle_executors_ok s :
  s_executor_status_map s = {[0 := 0]} -> s_key_remote_get_map s = ∅ -> executors_ok wait_conf s.
Proof.
  intros E1 E2. split.
  - rewrite E1. intros e st [<- _]%lookup_singleton_Some. done.
  - rewrite E2. intros k r. unfold at_or. rewrite lookup_empty. by intros ?%not_elem_of_nil.
Qed.

Lemma idle_waiting : waiting idle_sched.
Proof.
  split; cbn.
  - intros k cid. unfold at_or. rewrite lookup_empty. simpl. split; [set_solver|]. intros (x & Hx & _). by rewrite lookup_empty in Hx.
  - intros cid x Hx. by rewrite lookup_empty in Hx.
Qed.

Lemma waiting_sched_ok : waiting waiting_sched.
Proof.
  assert (s_key_call_id_map waiting_sched = {[lit "b|k" := {[0]}]}) as E1 by done.
  assert (s_call_id_inflight_args_map waiting_sched = {[0 := waiting_call]}) as E2 by done.
  split; rewrite ?E1, ?E2.
  - intros k cid. unfold at_or. split.
    + destruct (decide (lit "b|k" = k)) as [<-|Hne].
      * rewrite lookup_singleton_eq. simpl. intros ->%elem_of_singleton. exists waiting_call.
        split; [apply lookup_singleton_eq|]. simpl. set_solver.
      * rewrite lookup_singleton_ne by done. simpl. set_solver.
    + intros (x & [<- <-]%lookup_singleton_Some & Hk). simpl in Hk. apply elem_of_singleton in Hk as ->.
      rewrite lookup_singleton_eq. simpl. set_solver.
  - intros cid x [<- <-]%lookup_singleton_Some. simpl. split; [|split; [|done]].
    + intros E. assert (lit "b|k" ∈ (∅ : gset str)) by (rewrite <- E; set_solver). set_solver.
    + intros k ->%elem_of_singleton. left.
Qed.

Definition wait_resp : RecvMsg := mk_RecvMsg RM_Call (lit "app") [] [lit "f"] [[lit "b|k"]] [1] (lit "s") true [] 0.


