(* ===== verification/Timers.v ===== *)
(** The loops of the scheduler that are driven by time: they end, and what they
    do before they end. *)
From stdpp Require Import prelude gmap strings list fin_sets.
From Stdlib Require Import ZArith Lia Ascii.
From S2P Require Import Prelude Cpp Effects Proto Common Threads Trigger Sched SchedLoop Comm Dispatch Waiting.

Open Scope Z_scope.

(** * The start *)
Lemma init_executors_ok fuel executor e_id m :
  0 <= e_id -> executor <= 255 -> executor - e_id <= Z.of_nat fuel ->
  exists m', init_executors fuel executor e_id m = Ok m' /\
    forall e, m' !! e = if decide (e_id <= e < executor) then Some 2 else m !! e.
Proof.
  revert e_id m. induction fuel as [|fuel IH]; intros e_id m H0 Hle Hf; cbn [init_executors].
  - rewrite (proj2 (Z.ltb_ge _ _)) by lia. exists m. split; [done|]. intros e. rewrite decide_False by lia. done.
  - destruct (e_id <? executor) eqn:E; bool_to_prop.
    + rewrite u8_small by lia. destruct (IH (e_id + 1) (<[e_id := 2]> m)) as (m' & -> & Hm); [lia..|].
      exists m'. split; [done|]. intros e. rewrite Hm. destruct (decide (e = e_id)) as [->|Hne].
      * rewrite lookup_insert_eq, (decide_True (P := e_id <= e_id < executor)) by lia. by case_decide.
      * rewrite lookup_insert_ne by done. do 2 case_decide; try done; lia.
    + exists m. split; [done|]. intros e. rewrite decide_False by lia. done.
Qed.

Lemma init_executors_diverges fuel executor e_id m :
  e_id < executor -> 256 <= executor -> init_executors fuel executor e_id m = Fault Diverges.
Proof.
  revert e_id m. induction fuel as [|fuel IH]; intros e_id m Hlt H256; cbn [init_executors];
    rewrite (proj2 (Z.ltb_lt _ _)) by done; [done|]. apply IH; [|done]. pose proof (u8_range (e_id + 1)). lia.
Qed.

(** A scheduler comes up if and only if it has at most 255 executors, with
    one entry per executor, all of them awaited; with more, the 8-bit counter
    of its start-up loop wraps and the loop never ends. *)
Theorem scheduler_starts_iff (conf : sched_conf) (seed : Z) :
  (is_ok (sched_init conf seed) <-> executor_num conf <= 255) /\
  (forall s, sched_init conf seed = Ok s -> forall e,
     s_executor_status_map s !! e = if decide (0 <= e < executor_num conf) then Some 2 else None).
Proof.
  unfold sched_init. destruct (Z.le_gt_cases (executor_num conf) 255) as [Hle|Hgt].
  - destruct (init_executors_ok 256 (executor_num conf) 0 ∅) as (m & -> & Hm); [lia..|]. cbn [mbind res_bind].
    split; [split; [done|by eexists]|]. intros s [= <-] e. cbn [s_executor_status_map]. rewrite Hm. case_decide; [done|apply lookup_empty].
  - rewrite init_executors_diverges by lia. split; [|done]. split; [intros [? H]; discriminate H|lia].
Qed.

(** * Delayed calls *)
Definition expired (conf : sched_conf) (now : Z) (d : DelayFunctionCall) : bool :=
  schedDelayTime conf <? Z.quot (now - trigger_time_ d) 1000.
Definition forwarded (s : sched) (d : DelayFunctionCall) : sched_out :=
  Helper (ForwardFuncCall (client_addr (d_session_id_ d) s) (d_app_name_ d) [d_func_name_ d] [d_func_args_ d] 0 (d_session_id_ d)).

(** The longest prefix of a queue, and the rest. *)
Fixpoint span {A} (f : A -> bool) (l : list A) : list A * list A :=
  match l with
  | [] => ([], [])
  | a :: l => if f a then let '(x, y) := span f l in (a :: x, y) else ([], a :: l)
  end.

Lemma span_spec {A} (f : A -> bool) (l : list A) :
  l = (span f l).1 ++ (span f l).2 /\ Forall (fun a => f a = true) (span f l).1 /\
  forall a r, (span f l).2 = a :: r -> f a = false.
Proof.
  induction l as [|a l IH]; simpl; [done|]. destruct (f a) eqn:E.
  - destruct (span f l) as [x y]. simpl in *. destruct IH as (-> & Hx & Hy). split; [done|]. split; [by constructor|done].
  - split; [done|]. split; [constructor|]. simpl. by intros b r [= <- <-].
Qed.

Lemma expire_delayed_spec conf now s q :
  Forall (fun d => d_arg_flag_ d = 0) q -> s_delay_call_queue s = q ->
  expire_delayed conf now q s =
    Ok ((), upd_delay_call_queue (fun _ => (span (expired conf now) q).2) s,
        if rejectExtraReq conf then [] else forwarded s <$> (span (expired conf now) q).1).
Proof.
  revert s. induction q as [|d q IH]; intros s Hq Es; cbn [expire_delayed span].
  - unfold mret, M_ret. do 2 f_equal; [f_equal; by destruct s; simpl in *; subst|by destruct (rejectExtraReq conf)].
  - apply Forall_cons in Hq as [Hd Hq]. unfold expired at 1 3. destruct (_ <? _) eqn:E.
    + specialize (IH (upd_delay_call_queue tail s) Hq ltac:(cbn; by rewrite Es)).
      destruct (span (expired conf now) q) as [x y]. cbn [fst snd] in *.
      destruct (rejectExtraReq conf).
      * run. rewrite IH. done.
      * unfold forward_call_via_helper. run. rewrite Hd. cbn [Z.ltb Z.compare].
        erewrite bind_ok_r; [|reflexivity|run; exact IH]. done.
    + unfold mret, M_ret. do 2 f_equal; [f_equal; by destruct s; simpl in *; subst|by destruct (rejectExtraReq conf)].
Qed.

(** The calls that have waited longer than the configured delay leave the
    head of the queue: each is forwarded to its coordinator exactly once and in
    order, or dropped if the worker is told to reject; the first that has not
    waited that long and everything behind it stay, in order. *)
Theorem expired_calls_forwarded_in_order (conf : sched_conf) (now : Z) (s : sched)
    (Hflag : Forall (fun d => d_arg_flag_ d = 0) (s_delay_call_queue s)) :
  exists old rest,
    s_delay_call_queue s = old ++ rest /\
    Forall (fun d => schedDelayTime conf < Z.quot (now - trigger_time_ d) 1000) old /\
    (forall d l, rest = d :: l -> Z.quot (now - trigger_time_ d) 1000 <= schedDelayTime conf) /\
    expire_delayed conf now (s_delay_call_queue s) s =
      Ok ((), upd_delay_call_queue (fun _ => rest) s, if rejectExtraReq conf then [] else forwarded s <$> old).
Proof.
  exists (span (expired conf now) (s_delay_call_queue s)).1, (span (expired conf now) (s_delay_call_queue s)).2.
  destruct (span_spec (expired conf now) (s_delay_call_queue s)) as (Happ & Hold & Hrest).
  split; [done|]. split; [|split; [|by apply expire_delayed_spec]].
  - eapply Forall_impl; [exact Hold|]. intros d Hd. by apply Z.ltb_lt.
  - intros d l E. apply Z.ltb_ge, (Hrest d l E).
Qed.

Definition old_call : DelayFunctionCall := mk_DelayFunctionCall (lit "s") (lit "app") (lit "f") [lit "x"] 0 0.
Definition new_call : DelayFunctionCall := mk_DelayFunctionCall (lit "s") (lit "app") (lit "g") [lit "y"] 0 9000.

Lemma expired_calls_forwarded_in_order_witness :
  exists old rest,
    s_delay_call_queue (upd_delay_call_queue (fun _ => [old_call; new_call]) idle_sched) = old ++ rest /\
    Forall (fun d => schedDelayTime wait_conf < Z.quot (10000 - trigger_time_ d) 1000) old /\
    (forall d l, rest = d :: l -> Z.quot (10000 - trigger_time_ d) 1000 <= schedDelayTime wait_conf) /\
    expire_delayed wait_conf 10000 [old_call; new_call] (upd_delay_call_queue (fun _ => [old_call; new_call]) idle_sched) =
      Ok ((), upd_delay_call_queue (fun _ => rest) (upd_delay_call_queue (fun _ => [old_call; new_call]) idle_sched),
          forwarded (upd_delay_call_queue (fun _ => [old_call; new_call]) idle_sched) <$> old).
Proof.
  apply (expired_calls_forwarded_in_order wait_conf 10000 (upd_delay_call_queue (fun _ => [old_call; new_call]) idle_sched)).
  by repeat constructor.
Defined.

(** * Re-execution *)
(** What the re-execution queue and its metadata point to exists, and no timeout
    is negative. *)
Record rerun_ok (s : sched) : Prop := {
  ro_metas : forall f meta, meta ∈ at_or [] f (s_func_trigger_timeout_map s) ->
    0 <= rt_timeout_ meta /\ is_Some (s_heap s !! trigger_ptr_ meta);
  ro_queue : forall i, i ∈ s_rerun_check_queue s -> is_Some (s_heap s !! rq_trigger_ptr_ i) }.

(** A step that only adds items due at [now] or later. *)
Definition adds_later (now : Z) (s s' : sched) : Prop :=
  (exists new, s_rerun_check_queue s' = s_rerun_check_queue s ++ new /\ Forall (fun i => now <= check_time_ i) new) /\
  rerun_ok s'.

Lemma min_time_spec q :
  match min_time q with
  | None => q = []
  | Some i => i ∈ q /\ forall j, j ∈ q -> check_time_ i <= check_time_ j
  end.
Proof.
  induction q as [|i q IH]; simpl; [done|]. destruct (min_time q) as [j|].
  - destruct IH as [Hj Hle]. destruct (_ <? _) eqn:E; bool_to_prop.
    + split; [by right|]. intros k [->|Hk]%elem_of_cons; [lia|auto].
    + split; [left|]. intros k [->|Hk]%elem_of_cons; [lia|]. specialize (Hle k Hk). lia.
  - subst q. split; [left|]. intros k Hk%list_elem_of_singleton. subst. lia.
Qed.

Lemma queue_top_spec `{Layout} q :
  match queue_top q with
  | None => q = []
  | Some i => i ∈ q /\ forall j, j ∈ q -> check_time_ i <= check_time_ j
  end.
Proof.
  unfold queue_top. pose proof (min_time_spec (order q)) as Hm. destruct (min_time (order q)) as [i|].
  - destruct Hm as [Hi Hle]. rewrite order_perm in Hi. split; [done|]. intros j Hj. apply Hle. by rewrite order_perm.
  - apply Permutation_nil. by rewrite <- Hm, order_perm.
Qed.

Definition due_items (t : Z) (q : list RerunCheckQueueItem) : nat := length (filter (fun i => check_time_ i <= t) q).

Lemma due_items_app t q r : due_items t (q ++ r) = (due_items t q + due_items t r)%nat.
Proof. unfold due_items. by rewrite filter_app, length_app. Qed.

Lemma queue_pop_due `{Layout} t q i :
  queue_top q = Some i -> check_time_ i <= t ->
  due_items t q = S (due_items t (queue_pop q)) /\ forall j, j ∈ queue_pop q -> j ∈ q.
Proof.
  intros Htop Hdue. pose proof (queue_top_spec q) as Hs. unfold queue_pop. rewrite Htop in *. destruct Hs as [Hi _].
  destruct (list_find (eq i) q) as [[n x]|] eqn:Ef.
  - apply list_find_Some in Ef as (Hn & -> & _). split.
    + rewrite <- (take_drop_middle q n x Hn) at 1. rewrite delete_take_drop, !due_items_app.
      unfold due_items at 2. rewrite filter_cons, decide_True by done. simpl. fold (due_items t (drop (S n) q)).
      change (length (filter _ (drop (S n) q))) with (due_items t (drop (S n) q)). lia.
    + intros j Hj. eapply sublist_subseteq; [apply sublist_delete|exact Hj].
  - exfalso. apply list_find_None in Ef. rewrite Forall_forall in Ef. by apply (Ef i).
Qed.

(** Nothing of the re-execution state changes but the caches of the triggers. *)
Lemma rerun_ok_same s s' :
  s_rerun_check_queue s' = s_rerun_check_queue s -> s_func_trigger_timeout_map s' = s_func_trigger_timeout_map s ->
  s_heap s' = s_heap s -> rerun_ok s -> rerun_ok s'.
Proof. intros E1 E2 E3 [Hm Hq]. split; [by rewrite E2, E3|by rewrite E1, E3]. Qed.

Lemma note_for_rerun_later now session func args flag meta s :
  0 <= rt_timeout_ meta -> is_Some (s_heap s !! trigger_ptr_ meta) -> rerun_ok s ->
  adds_later now s (note_for_rerun now session func args flag meta s).
Proof.
  intros Ht Hp [Hm Hq]. unfold adds_later, note_for_rerun.
  assert (forall p, is_Some (alter (notify_source_func func session args flag) (trigger_ptr_ meta) (s_heap s) !! p)
                    <-> is_Some (s_heap s !! p)) as Hdom.
  { intros p. rewrite <- !not_eq_None_Some, lookup_alter_None. done. }
  split; [|split].
  - eexists. split; [done|]. repeat constructor. simpl. unfold ms. lia.
  - intros f m' Hm'. cbn in *. destruct (Hm f m' Hm') as [H0 H1]. split; [done|]. by apply Hdom.
  - intros i. cbn. intros [Hi| ->%list_elem_of_singleton]%elem_of_app; apply Hdom; [auto|done].
Qed.

Lemma notes_later now session func args flag metas s :
  (forall meta, meta ∈ metas -> 0 <= rt_timeout_ meta /\ is_Some (s_heap s !! trigger_ptr_ meta)) -> rerun_ok s ->
  adds_later now s (foldl (fun s meta => note_for_rerun now session func args flag meta s) s metas).
Proof.
  revert s. induction metas as [|meta metas IH]; intros s Hm Hok; [split; [exists []; by rewrite app_nil_r|done]|].
  destruct (Hm meta (list_elem_of_here _ _)) as [H0 H1]. simpl.
  destruct (note_for_rerun_later now session func args flag meta s H0 H1 Hok) as [(n1 & E1 & F1) Hok1].
  destruct (IH (note_for_rerun now session func args flag meta s)) as [(n2 & E2 & F2) Hok2]; [|done|].
  { intros m' Hm'. destruct (Hm m') as [G0 G1]; [by right|]. split; [done|]. cbn.
    rewrite <- not_eq_None_Some, lookup_alter_None, not_eq_None_Some. done. }
  split; [|done]. exists (n1 ++ n2). rewrite E2, E1, app_assoc. split; [done|by apply Forall_app].
Qed.

Lemma schedule_later `{Layout, Rand} conf now session app func args flag s :
  0 < schedDelayTime conf -> executors_ok conf s -> rerun_ok s ->
  exists s' o, schedule_func_call conf now session app func args flag s = Ok ((), s', o) /\
    adds_later now s s' /\ executors_ok conf s'.
Proof.
  intros Hdelay Hex Hok. destruct (schedule_runs conf now session app func args flag s Hdelay Hex) as (s' & o & E & F).
  exists s', o. split; [done|]. split; [|by eapply executors_ok_frame]. revert E. unfold schedule_func_call.
  intros (ex & s1 & o1 & o2 & E1 & E2 & ->)%bind_ok.
  assert (s_rerun_check_queue s1 = s_rerun_check_queue s /\ s_func_trigger_timeout_map s1 = s_func_trigger_timeout_map s /\
          s_heap s1 = s_heap s) as (G1 & G2 & G3).
  { unfold pick_executor in E1. revert E1. run. destruct (find_executors _ _ _ _) as [w c].
    unfold draw_seed, draw. repeat case_decide; intros E; [..|by injection E as <- <- <-];
      apply bind_ok in E as (i & s2 & o3 & o4 & E2' & E3 & ->);
      destruct (rand_below _ _) as [[j x]|]; try done; injection E2' as <- <- <-; revert E3; unfold vec_at;
      destruct (_ !! j); cbn [res_of_option]; try done; run; intros E3; by injection E3 as <- <- <-. }
  pose proof (rerun_ok_same s s1 G1 G2 G3 Hok) as Hok1.
  assert (adds_later now s1 s') as [(new & En & Fn) Hok']; [|split; [exists new; by rewrite En, G1|done]].
  destruct ex as [e|].
  - revert E2. run. intros (u & s2 & o3 & o4 & E3 & E4 & ->)%bind_ok.
    unfold send_to_executer in E3. destruct (_ && _); [|done]. injection E3 as <- <- <-. revert E4. run.
    rewrite for_each_modify. intros [= <- <-].
    apply (notes_later now session func args flag _ (upd_executor_status_map <[e := 2]> s1)).
    + intros meta Hmeta. exact (ro_metas s1 Hok1 func meta Hmeta).
    + by apply (rerun_ok_same s1).
  - rewrite (proj2 (Z.ltb_lt _ _)) in E2 by done. injection E2 as <- <-.
    split; [exists []; by rewrite app_nil_r|]. by apply (rerun_ok_same s1).
Qed.

Lemma reruns_later `{Layout, Rand} conf now session metas s :
  0 < schedDelayTime conf -> executors_ok conf s -> rerun_ok s ->
  exists s' o, for_each (fun meta =>
      app_name ← gets (fun s => at_or [] (func_name_ meta) (s_func_app_map s));
      schedule_func_call conf now session app_name (func_name_ meta) (func_args_ meta) (arg_flag_ meta)) metas s
      = Ok ((), s', o) /\ adds_later now s s' /\ executors_ok conf s'.
Proof.
  intros Hdelay. revert s. induction metas as [|m metas IH]; intros s Hex Hok.
  { do 2 eexists. split; [done|]. split; [split; [exists []; by rewrite app_nil_r|done]|done]. }
  cbn [for_each]. run.
  destruct (schedule_later conf now session (at_or [] (func_name_ m) (s_func_app_map s)) (func_name_ m) (func_args_ m) (arg_flag_ m) s)
    as (s1 & o1 & E1 & [(n1 & Q1 & F1) Hok1] & Hex1); [done..|].
  destruct (IH s1 Hex1 Hok1) as (s2 & o2 & E2 & [(n2 & Q2 & F2) Hok2] & Hex2).
  do 2 eexists. split; [eapply bind_ok_r; [exact E1|exact E2]|]. split; [|done]. split; [|done].
  exists (n1 ++ n2). rewrite Q2, Q1, app_assoc. split; [done|by apply Forall_app].
Qed.

Lemma due_later t now new : t < now -> Forall (fun i => now <= check_time_ i) new -> due_items t new = 0%nat.
Proof.
  intros Hlt Hnew. unfold due_items. induction Hnew as [|i new Hi Hnew IH]; [done|].
  rewrite filter_cons, decide_False by lia. done.
Qed.

Lemma rerun_check_ends `{Layout, Rand} fuel conf report_end now s :
  0 < schedDelayTime conf -> report_end < now -> executors_ok conf s -> rerun_ok s ->
  (due_items report_end (s_rerun_check_queue s) <= fuel)%nat ->
  exists s' o, rerun_check fuel conf report_end now s = Ok ((), s', o) /\
    executors_ok conf s' /\ rerun_ok s' /\ due_items report_end (s_rerun_check_queue s') = 0%nat.
Proof.
  intros Hdelay Hlt. revert s. induction fuel as [|fuel IH]; intros s Hex Hok Hdue; cbn [rerun_check]; run;
    pose proof (queue_top_spec (s_rerun_check_queue s)) as Hs; destruct (queue_top (s_rerun_check_queue s)) as [item|] eqn:Etop.
  2,4: do 2 eexists; (split; [done|]); rewrite Hs; done.
  - destruct (report_end <? check_time_ item) eqn:E; bool_to_prop; [do 2 eexists; (split; [done|]); split; [done|]; split; [done|]; lia|].
    apply (queue_pop_due report_end) in Etop as [Hpop _]; [lia|done].
  - destruct Hs as [Hin Hmin]. destruct (report_end <? check_time_ item) eqn:E; bool_to_prop.
    + do 2 eexists. split; [done|]. split; [done|]. split; [done|].
      apply (due_later report_end (report_end + 1)); [lia|]. apply Forall_forall. intros j Hj. specialize (Hmin j Hj). lia.
    + run. unfold id. destruct (ro_queue s Hok item Hin) as [t Ht]. rewrite Ht. cbn [res_of_option]. run.
      destruct (reruns_later conf now (rq_session_ item) (action_for_rerun (rq_session_ item) t) s)
        as (s1 & o1 & E1 & [(new & Q1 & F1) Hok1] & Hex1); [done..|].
      assert (exists i, queue_top (s_rerun_check_queue s1) = Some i /\ check_time_ i <= report_end) as (i & Ei & Hi).
      { pose proof (queue_top_spec (s_rerun_check_queue s1)) as Hs1.
        assert (item ∈ s_rerun_check_queue s1) as Hit by (rewrite Q1; apply elem_of_app; by left).
        destruct (queue_top (s_rerun_check_queue s1)) as [i|]; [|rewrite Hs1 in Hit; by apply not_elem_of_nil in Hit].
        exists i. split; [done|]. destruct Hs1 as [_ Hle]. specialize (Hle item Hit). lia. }
      destruct (queue_pop_due report_end _ _ Ei Hi) as [Hd Hsub].
      destruct (IH (upd_rerun_check_queue queue_pop s1)) as (s2 & o2 & E2 & Hex2 & Hok2 & Hd2).
      * exact Hex1.
      * split; [exact (ro_metas s1 Hok1)|]. intros j Hj. apply (ro_queue s1 Hok1), Hsub, Hj.
      * assert (due_items report_end (s_rerun_check_queue s1) = due_items report_end (s_rerun_check_queue s)) as Hsame
          by (rewrite Q1, due_items_app, (due_later _ _ _ Hlt F1); lia).
        cbn [s_rerun_check_queue upd_rerun_check_queue]. lia.
      * do 2 eexists. split; [|done]. eapply bind_ok_r; [exact E1|]. cbv beta. run. exact E2.
Qed.


