(* ===== verification/Executor.v ===== *)
(** The executor ([src/executor/executor_server.cpp]) and the library it gives
    to user functions ([include/executor/function_lib.hpp]). *)
From stdpp Require Import prelude gmap strings list fin_sets.
From Stdlib Require Import ZArith Lia Ascii.
From S2P Require Import Prelude Cpp Effects Proto Common Threads Trigger Sched SchedLoop.

Open Scope Z_scope.

(** * The user library *)
Record UserLibrary := mk_UserLibrary {
  ip_number_ : str; chan_id_ : Z; ul_rid_ : Z; object_id_ : Z; ul_function_ : str; ul_session_id_ : str;
  persist_flag_ : Z; size_of_args_ : list Z }.

Definition UserLibrary_new (ip : str) (thread_id : Z) : UserLibrary :=
  mk_UserLibrary (filter (fun c => c <> "."%char) ip) (u8 (thread_id + 1)) 0 0 [] [] 0 [].

Definition begin_call (func session : str) (persist : Z) (u : UserLibrary) : UserLibrary :=
  mk_UserLibrary (ip_number_ u) (chan_id_ u) (ul_rid_ u) (object_id_ u) func session persist (size_of_args_ u).
Definition clear_session (u : UserLibrary) : UserLibrary :=
  mk_UserLibrary (ip_number_ u) (chan_id_ u) (ul_rid_ u) (object_id_ u) [] [] 0 [].
Definition add_arg_size (size : Z) (u : UserLibrary) : UserLibrary :=
  mk_UserLibrary (ip_number_ u) (chan_id_ u) (ul_rid_ u) (object_id_ u) (ul_function_ u) (ul_session_id_ u)
    (persist_flag_ u) (size_of_args_ u ++ [size]).

(** [-1] as a [size_t] for an index past the end; the comparison converts the
    [int] index to an unsigned one. *)
Definition get_size_of_arg (u : UserLibrary) (arg_idx : Z) : Z :=
  if Z.of_nat (length (size_of_args_ u)) <=? u64 arg_idx then u64 (-1)
  else nth (Z.to_nat arg_idx) (size_of_args_ u) 0.

Definition ul_get_request_id (u : UserLibrary) : Z * UserLibrary :=
  let r := u8 (ul_rid_ u + 1) in
  let r := if r mod 100 =? 0 then 0 else r in
  (r, mk_UserLibrary (ip_number_ u) (chan_id_ u) r (object_id_ u) (ul_function_ u) (ul_session_id_ u)
        (persist_flag_ u) (size_of_args_ u)).
Definition get_object_id (u : UserLibrary) : Z * UserLibrary :=
  (object_id_ u, mk_UserLibrary (ip_number_ u) (chan_id_ u) (ul_rid_ u) (u32 (object_id_ u + 1)) (ul_function_ u)
                   (ul_session_id_ u) (persist_flag_ u) (size_of_args_ u)).

Definition gen_unique_key (u : UserLibrary) : str * UserLibrary :=
  let '(id, u) := get_object_id u in
  (ip_number_ u ++ lit "_" ++ to_string (chan_id_ u) ++ lit "_" ++ to_string id, u).

(** * Objects *)
Record EpheObject := mk_EpheObject { obj_name_ : str; eo_size_ : Z; target_func_ : str }.

Definition new_object (bucket key session : str) (size : Z) : EpheObject :=
  mk_EpheObject (get_local_object_name bucket key session) size [].

(** The three overloads of [create_object]. *)
Definition create_object (bucket key : str) (size : Z) (u : UserLibrary) : EpheObject :=
  new_object bucket key (ul_session_id_ u) size.
Definition create_object_direct (size : Z) (u : UserLibrary) : EpheObject * UserLibrary :=
  let '(id, u) := get_object_id u in
  (create_object bucketNameDirectInvoc (to_string (chan_id_ u) ++ lit "_" ++ to_string id) size u, u).
Definition create_object_for (target_function : str) (many_to_one_trigger : bool) (size : Z) (u : UserLibrary)
    : EpheObject * UserLibrary :=
  if many_to_one_trigger then
    (mk_EpheObject (get_local_object_name (lit "b_" ++ target_function) (lit "k_" ++ ul_function_ u) (ul_session_id_ u))
       size target_function, u)
  else
    let '(key, u) := gen_unique_key u in
    (create_object (lit "b_" ++ target_function) key size u, u).

(** * Requests to the scheduler *)
(** [value] is the memory of the object. Whether an answer is awaited comes
    with the message. *)
Definition send_object (obj : EpheObject) (value : str) (output : bool) (u : UserLibrary) : str * bool * UserLibrary :=
  let '(req_id, u) := ul_get_request_id u in
  let '(type, wait_res) := if output then (if persist_flag_ u =? 1 then (3, true) else (4, false)) else (2, false) in
  let data_packing := eo_size_ obj <=? msgDataPackingThreshold in
  let body := if data_packing then take (Z.to_nat (eo_size_ obj)) value else to_string (eo_size_ obj) in
  (chr (chan_id_ u) :: chr type :: chr req_id :: chr (if data_packing then 1 else 2) ::
     ul_session_id_ u ++ lit "|" ++ ul_function_ u ++ lit "|" ++ target_func_ obj ++ lit "|" ++ obj_name_ obj ++ lit "|" ++ body,
   wait_res, u).

Definition get_object_name (bucket key : str) (from_ephe_store : bool) (u : UserLibrary) : str :=
  if from_ephe_store then get_local_object_name bucket key (ul_session_id_ u) else kvsKeyPrefix ++ kDelimiter ++ key.

(** The request of [get_object], and the id an answer must carry. *)
Definition get_object_request (bucket key : str) (from_ephe_store : bool) (u : UserLibrary) : str * Z * UserLibrary :=
  let obj_name := get_object_name bucket key from_ephe_store u in
  let '(req_id, u) := ul_get_request_id u in
  (chr (chan_id_ u) :: chr 1 :: chr (if from_ephe_store then 1 else 2) :: chr req_id ::
     chr (Z.of_nat (length obj_name)) :: obj_name, req_id, u).

(** A byte as the [char] it is compared as. *)
Definition schar (b : Z) : Z := if b <? 128 then b else b - 256.

(** The answer: [None] is the null pointer [get_object] returns when it timed
    out or the answer is not the expected one. *)
Definition get_object_answer (obj_name : str) (req_id : Z) (answer : option str) : res (option EpheObject) :=
  match answer with
  | None => Ok None
  | Some m =>
      b0 ← byte_at m 0;
      b1 ← byte_at m 1;
      b2 ← byte_at m 2;
      if negb (b0 =? 3) || negb (schar b1 =? req_id) || negb (b2 =? 1) then Ok None
      else
        size_len ← (if decide (3 < length (m ++ [nul]))%nat then stoi (c_str (drop 3 (m ++ [nul]))) else Fault IndexPastEnd);
        Ok (Some (mk_EpheObject obj_name (u64 size_len) []))
  end.

(** The answer to a durable [send_object] is only looked at; when it timed out
    the null pointer is read. *)
Definition send_object_answer (answer : option str) : res () :=
  match answer with
  | None => Fault NullDeref
  | Some m => _ ← byte_at m 0; _ ← byte_at m 1; _ ← byte_at m 2; Ok ()
  end.

(** * Calls *)
(** An argument a function gets: a copied string, or an object in shared
    memory. *)
Inductive arg_value :=
  | Plain (s : str)
  | Shm (name : str) (size : Z).

Definition status_msg (thread_id : Z) (busy_flag : bool) : str := [chr (thread_id + 1); chr (if busy_flag then 6 else 7)].

(** The arguments by threes: bucket, key and size, for flag 1 or 2. *)
Fixpoint shm_args (fuel : nat) (arg_flag : Z) (args : list str) : res (list arg_value * list Z) :=
  match args, fuel with
  | [], _ => Ok ([], [])
  | _, O => Ok ([], [])
  | _, S fuel =>
      a0 ← vec_at args 0;
      a1 ← vec_at args 1;
      a2 ← vec_at args 2;
      shm_obj_size ← stoi a2;
      '(vals, sizes) ← shm_args fuel arg_flag (drop 3 args);
      let obj := Shm (a0 ++ kDelimiter ++ a1) shm_obj_size in
      if arg_flag =? 1 then Ok (obj :: vals, u64 shm_obj_size :: sizes)
      else Ok (Plain a1 :: obj :: vals, Z.of_nat (length a1) :: u64 shm_obj_size :: sizes)
  end.

(** [None] when the arguments cannot be parsed. A flag other than 0, 1 and 2
    leaves the number of arguments uninitialised. *)
Definition call_args (arg_flag : Z) (args : list str) : res (option (list arg_value * list Z)) :=
  if arg_flag =? 0 then Ok (Some (Plain <$> args, (fun a => Z.of_nat (length a)) <$> args))
  else if decide (length args mod 3 = 0)%nat then
    if (arg_flag =? 1) || (arg_flag =? 2) then Some <$> shm_args (length args) arg_flag args
    else Fault InvalidArgument
  else Ok None.

Record parsed_call := mk_parsed_call {
  pc_arg_flag : Z; pc_persist : Z; pc_session : str; pc_func : str; pc_args : list str }.

Definition parse_call (m : str) : res parsed_call :=
  b1 ← byte_at m 1;
  b2 ← byte_at m 2;
  body ← (if decide (3 < length (m ++ [nul]))%nat then Ok (c_str (drop 3 (m ++ [nul]))) else Fault IndexPastEnd);
  let func_with_args := split body kDelimiterChar in
  session_id ← vec_at func_with_args 0;
  func_name ← vec_at func_with_args 1;
  Ok (mk_parsed_call (u8 (b1 - 1)) b2 session_id func_name (drop 2 func_with_args)).

(** The executor's state: its library object and the functions it has loaded. *)
Record executor := mk_executor { x_lib : UserLibrary; x_loaded : gset str }.

(** What happens to a call. *)
Inductive outcome :=
  | NotLoaded
  | BadArguments
  | Invoke (func : str) (args : list arg_value).

Section executor.
(** [load_function]: whether the function's shared library and its entry point
    can be loaded. *)
Variable can_load : str -> bool.
(** The user's function: it may change the library object and send requests. *)
Variable user_function : str -> list arg_value -> UserLibrary -> UserLibrary * list str.

Definition prepare_call (x : executor) (p : parsed_call) : res (executor * outcome) :=
  let u := begin_call (pc_func p) (pc_session p) (pc_persist p) (x_lib x) in
  if bool_decide (pc_func p ∈ x_loaded x) || can_load (pc_func p) then
    let loaded := x_loaded x ∪ {[pc_func p]} in
    r ← call_args (pc_arg_flag p) (pc_args p);
    match r with
    | Some (vals, sizes) =>
        Ok (mk_executor (foldl (fun u size => add_arg_size size u) u sizes) loaded, Invoke (pc_func p) vals)
    | None => Ok (mk_executor u loaded, BadArguments)
    end
  else Ok (mk_executor u (x_loaded x), NotLoaded).

(** One call: busy, the function's own requests, available. The session is
    cleared only if the function ran; whether it did comes with the messages. *)
Definition handle_call (thread_id : Z) (x : executor) (m : str) : res (executor * list str * bool) :=
  p ← parse_call m;
  '(x, what) ← prepare_call x p;
  match what with
  | Invoke func args =>
      let '(u, reqs) := user_function func args (x_lib x) in
      Ok (mk_executor (clear_session u) (x_loaded x),
          status_msg thread_id true :: reqs ++ [status_msg thread_id false], true)
  | _ => Ok (x, [status_msg thread_id true; status_msg thread_id false], false)
  end.

Definition ExecutorTimerThreshold : Z := 1000.

(** One iteration: a message, if there is one, and the report of every second.
    A call that was not invoked ends the iteration. *)
Definition executor_iteration (thread_id now report_start : Z) (x : executor) (msg : option str)
    : res (executor * Z * list str) :=
  '(x, outs, go_on) ← (match msg with
                       | Some m => b0 ← byte_at m 0; if b0 =? 1 then handle_call thread_id x m else Ok (x, [], true)
                       | None => Ok (x, [], true)
                       end);
  if go_on && (ExecutorTimerThreshold <=? Z.quot (now - report_start) ms)
  then Ok (x, now, outs ++ [status_msg thread_id false])
  else Ok (x, report_start, outs).
End executor.
