(* ===== verification/Wire.v ===== *)
(** The messages between the components, end to end: what one side writes is
    what the other side reads. *)
From stdpp Require Import prelude gmap strings list fin_sets.
From Stdlib Require Import ZArith Lia Ascii.
From S2P Require Import Prelude Cpp Effects Proto Common Threads Trigger Sched SchedLoop Comm Executor.

Open Scope Z_scope.

(** * Fields *)
(** A field that can travel in a message cut at the delimiter and ended by a
    zero. *)
Definition clean (s : str) : Prop := (kDelimiterChar ∉ s) /\ (nul ∉ s).

Lemma join_concat (s : str) (l : list str) :
  s ++ concat ((fun a => lit "|" ++ a) <$> l) = join kDelimiterChar (s :: l).
Proof.
  revert s. induction l as [|a l IH]; intros s; [by rewrite app_nil_r|]. rewrite fmap_cons. cbn [concat].
  change (join kDelimiterChar (s :: a :: l)) with (s ++ kDelimiterChar :: join kDelimiterChar (a :: l)).
  rewrite <- IH. by rewrite <- (app_assoc (lit "|")).
Qed.

Lemma nul_join (l : list str) : Forall (fun s => nul ∉ s) l -> nul ∉ join kDelimiterChar l.
Proof.
  induction l as [|s l IH]; intros Hl; [apply not_elem_of_nil|]. apply Forall_cons in Hl as [Hs Hl].
  destruct l as [|s' l]; [done|].
  change (join kDelimiterChar (s :: s' :: l)) with (s ++ kDelimiterChar :: join kDelimiterChar (s' :: l)).
  rewrite not_elem_of_app, not_elem_of_cons. split; [done|]. split; [done|]. by apply IH.
Qed.

Lemma fields_roundtrip (l : list str) :
  Forall clean l -> last l <> Some [] ->
  split (c_str (join kDelimiterChar l ++ [nul])) kDelimiterChar = l.
Proof.
  intros Hl Hlast. rewrite c_str_app_nul.
  - apply split_join; [|done]. eapply Forall_impl; [exact Hl|]. by intros s [].
  - apply nul_join. eapply Forall_impl; [exact Hl|]. by intros s [].
Qed.

Lemma byte_at_0 b m : byte_at (b :: m) 0 = Ok (ord b).
Proof. done. Qed.
Lemma byte_at_S b m i : byte_at (b :: m) (S i) = byte_at m i.
Proof. done. Qed.

(** * Calls: scheduler to executor *)
Lemma parse_call_msg session func args flag resp :
  0 <= flag < 255 -> Forall clean (session :: func :: args) -> last (session :: func :: args) <> Some [] ->
  parse_call (call_msg session func args flag resp) =
    Ok (mk_parsed_call flag (if decide (resp = []) then 1 else 2) session func args).
Proof.
  intros Hflag Hclean Hlast. unfold call_msg.
  assert (session ++ lit "|" ++ func ++ concat ((fun a => lit "|" ++ a) <$> args) =
          join kDelimiterChar (session :: func :: args)) as ->.
  { rewrite <- join_concat. cbn [fmap list_fmap concat]. by rewrite <- (app_assoc (lit "|")). }
  set (body := join kDelimiterChar (session :: func :: args)).
  unfold parse_call, byte_at, vec_at. simpl app. cbn [lookup list_lookup res_of_option mbind res_bind fmap res_fmap].
  match goal with |- context [decide (3 < ?n)%nat] =>
    rewrite (decide_True (P := (3 < n)%nat)) by (cbn [length]; rewrite length_app; cbn [length]; lia) end.
  cbn [drop mbind res_bind].
  rewrite ?drop_0. unfold body. rewrite fields_roundtrip by done. cbn [lookup list_lookup res_of_option mbind res_bind drop].
  rewrite ord_chr by lia. f_equal. f_equal; [|by case_decide; rewrite ord_chr by lia].
  replace (flag + 1 - 1) with flag by lia. apply u8_small. lia.
Qed.

Lemma foldl_add_arg_size (sizes : list Z) (u : UserLibrary) :
  foldl (fun u size => add_arg_size size u) u sizes =
    mk_UserLibrary (ip_number_ u) (chan_id_ u) (ul_rid_ u) (object_id_ u) (ul_function_ u) (ul_session_id_ u)
      (persist_flag_ u) (size_of_args_ u ++ sizes).
Proof.
  revert u. induction sizes as [|n sizes IH]; intros u; simpl; [rewrite app_nil_r; by destruct u|].
  rewrite IH. simpl. by rewrite <- app_assoc.
Qed.

(** The library object a function gets. *)
Definition call_lib (x : executor) (session func : str) (persist : Z) (sizes : list Z) : UserLibrary :=
  mk_UserLibrary (ip_number_ (x_lib x)) (chan_id_ (x_lib x)) (ul_rid_ (x_lib x)) (object_id_ (x_lib x))
    func session persist (size_of_args_ (x_lib x) ++ sizes).

(** An executor that receives a scheduled call whose arguments travel by
    value, for a function it has or can load, reports itself busy, runs that
    function once with exactly these arguments and their sizes under that
    session, sends what the function sends, reports itself available and
    forgets the session. The output is to be persisted exactly if no client
    waits for it. Needed is that no field holds the delimiter or a zero and that
    the last argument is not empty. *)
Theorem call_by_value_executed (can_load : str -> bool)
    (user_function : str -> list arg_value -> UserLibrary -> UserLibrary * list str)
    (thread_id : Z) (x : executor) (session func : str) (args : list str) (resp : str)
    (Hclean : Forall clean (session :: func :: args))
    (Hlast : last (session :: func :: args) <> Some [])
    (Hload : func ∈ x_loaded x \/ can_load func = true) :
  let u := call_lib x session func (if decide (resp = []) then 1 else 2) ((fun a => Z.of_nat (length a)) <$> args) in
  handle_call can_load user_function thread_id x (call_msg session func args 0 resp) =
    Ok (mk_executor (clear_session (user_function func (Plain <$> args) u).1) (x_loaded x ∪ {[func]}),
        status_msg thread_id true :: (user_function func (Plain <$> args) u).2 ++ [status_msg thread_id false], true).
Proof.
  intros u. unfold handle_call. rewrite parse_call_msg by (done || lia). cbn [mbind res_bind]. unfold prepare_call.
  cbn [pc_func pc_session pc_persist pc_arg_flag pc_args].
  assert (bool_decide (func ∈ x_loaded x) || can_load func = true) as -> by (destruct Hload as [Hl | ->]; [by rewrite bool_decide_true|by rewrite orb_true_r]).
  unfold call_args. cbn [Z.eqb mbind res_bind]. rewrite foldl_add_arg_size. cbn [x_lib x_loaded].
  change (mk_UserLibrary _ _ _ _ _ _ _ _) with u. by destruct (user_function func (Plain <$> args) u).
Qed.

Lemma call_by_value_executed_witness :
  handle_call (fun _ => true) (fun f args u => (u, [f])) 3 (mk_executor (UserLibrary_new (lit "10.0.0.2") 3) ∅)
    (call_msg (lit "0123456789abcdef") (lit "f") [lit "x"; []; lit "yz"] 0 []) =
    Ok (mk_executor (UserLibrary_new (lit "10.0.0.2") 3) (∅ ∪ {[lit "f"]}),
        [status_msg 3 true; lit "f"; status_msg 3 false], true).
Proof.
  apply (call_by_value_executed (fun _ => true) (fun f args u => (u, [f])) 3 (mk_executor (UserLibrary_new (lit "10.0.0.2") 3) ∅)
    (lit "0123456789abcdef") (lit "f") [lit "x"; []; lit "yz"] []); [|done|by right].
  apply (bool_decide_unpack _). by vm_compute.
Defined.

(** * Calls with objects *)
(** An object by bucket, key and length, as the scheduler names it in a call. *)
Record obj_ref := mk_obj_ref { or_bucket : str; or_key : str; or_len : Z }.
Definition or_name (o : obj_ref) : str := or_bucket o ++ kDelimiter ++ or_key o.
Definition ref_args (l : list obj_ref) : list str := concat ((fun o => [or_name o; to_string (or_len o)]) <$> l).
Definition ref_fields (l : list obj_ref) : list str :=
  concat ((fun o => [or_bucket o; or_key o; to_string (or_len o)]) <$> l).
Definition ref_ok (o : obj_ref) : Prop := clean (or_bucket o) /\ clean (or_key o) /\ 0 <= or_len o < 2 ^ 31.

Lemma ref_args_fields l :
  concat ((fun a => lit "|" ++ a) <$> ref_args l) = concat ((fun a => lit "|" ++ a) <$> ref_fields l).
Proof.
  unfold ref_args, ref_fields. induction l as [|o l IH]; [done|]. rewrite !fmap_cons. cbn [concat].
  rewrite !fmap_app, !concat_app, IH. f_equal. cbn [fmap list_fmap concat]. unfold or_name, kDelimiter.
  by rewrite <- !app_assoc.
Qed.

Lemma clean_to_string n : 0 <= n -> clean (to_string n).
Proof. intros Hn. split; by apply to_string_not_elem. Qed.

Lemma ref_fields_clean l : Forall ref_ok l -> Forall clean (ref_fields l).
Proof.
  unfold ref_fields. induction 1 as [|o l (Hb & Hk & Hl) _ IH]; [constructor|]. rewrite fmap_cons. cbn [concat].
  apply Forall_app. split; [|done]. repeat constructor; try apply Hb; try apply Hk; apply clean_to_string; lia.
Qed.

Lemma ref_fields_last l x : Forall ref_ok l -> x <> [] -> last (x :: ref_fields l) <> Some [].
Proof.
  intros Hl Hx. unfold ref_fields. destruct l as [|o l _] using rev_ind; [simpl; congruence|].
  rewrite fmap_app, concat_app. cbn [fmap list_fmap concat]. rewrite app_nil_r, app_comm_cons, last_app. simpl.
  apply Forall_app in Hl as [_ Hl]. apply Forall_singleton in Hl as (_ & _ & H0).
  intros [= E]. exact (to_string_nonempty (or_len o) ltac:(lia) E).
Qed.

(** What the executor makes of the fields. *)
Definition ref_values (flag : Z) (l : list obj_ref) : list arg_value :=
  concat ((fun o => if flag =? 1 then [Shm (or_name o) (or_len o)]
                    else [Plain (or_key o); Shm (or_name o) (or_len o)]) <$> l).
Definition ref_sizes (flag : Z) (l : list obj_ref) : list Z :=
  concat ((fun o => if flag =? 1 then [or_len o] else [Z.of_nat (length (or_key o)); or_len o]) <$> l).

Lemma length_ref_fields l : length (ref_fields l) = (3 * length l)%nat.
Proof. unfold ref_fields. induction l as [|o l IH]; [done|]. cbn. rewrite IH. lia. Qed.

Lemma shm_args_refs flag l fuel :
  flag = 1 \/ flag = 2 -> Forall ref_ok l -> (length l <= fuel)%nat ->
  shm_args fuel flag (ref_fields l) = Ok (ref_values flag l, ref_sizes flag l).
Proof.
  intros Hflag Hl. revert fuel. induction Hl as [|o l (Hb & Hk & H0) _ IH]; intros fuel Hf; [by destruct fuel|].
  destruct fuel as [|fuel]; [simpl in Hf; lia|].
  change (ref_fields (o :: l)) with (or_bucket o :: or_key o :: to_string (or_len o) :: ref_fields l).
  cbn [shm_args vec_at lookup list_lookup res_of_option mbind res_bind drop].
  rewrite stoi_to_string by done. cbn [mbind res_bind]. rewrite drop_0, IH by (simpl in Hf; lia). cbn [mbind res_bind].
  rewrite (u64_small (or_len o)) by lia. destruct Hflag as [-> | ->]; done.
Qed.

(** An executor that receives a scheduled call whose arguments are objects
    finds exactly those objects in shared memory, each under the name and with
    the length the scheduler has for it, in order; with flag 2 each is preceded
    by its key. *)
Theorem object_call_roundtrip (session func : str) (objs : list obj_ref) (flag : Z) (resp : str)
    (Hflag : flag = 1 \/ flag = 2) (Hobjs : Forall ref_ok objs)
    (Hsession : clean session) (Hfunc : clean func) (Hne : func <> []) :
  exists p, parse_call (call_msg session func (ref_args objs) flag resp) = Ok p /\
    pc_session p = session /\ pc_func p = func /\ pc_arg_flag p = flag /\
    call_args (pc_arg_flag p) (pc_args p) = Ok (Some (ref_values flag objs, ref_sizes flag objs)).
Proof.
  assert (call_msg session func (ref_args objs) flag resp = call_msg session func (ref_fields objs) flag resp) as ->
    by (unfold call_msg; by rewrite ref_args_fields).
  exists (mk_parsed_call flag (if decide (resp = []) then 1 else 2) session func (ref_fields objs)).
  split; [|split; [done|split; [done|split; [done|]]]].
  - apply parse_call_msg; [lia| |].
    + repeat constructor; try apply Hsession; try apply Hfunc. by apply ref_fields_clean.
    + pose proof (ref_fields_last objs func Hobjs Hne) as H. simpl in *. done.
  - cbn [pc_arg_flag pc_args]. unfold call_args. rewrite (proj2 (Z.eqb_neq _ _)) by lia.
    rewrite length_ref_fields. rewrite decide_True by (rewrite Nat.mul_comm; apply Nat.Div0.mod_mul).
    rewrite shm_args_refs by (auto; lia). by destruct Hflag as [-> | ->].
Qed.

Lemma object_call_roundtrip_witness :
  exists p, parse_call (call_msg (lit "s") (lit "f") (ref_args [mk_obj_ref (lit "b") (lit "k1") 10; mk_obj_ref (lit "b") (lit "k2") 5]) 2 []) = Ok p /\
    pc_session p = lit "s" /\ pc_func p = lit "f" /\ pc_arg_flag p = 2 /\
    call_args (pc_arg_flag p) (pc_args p) =
      Ok (Some ([Plain (lit "k1"); Shm (lit "b|k1") 10; Plain (lit "k2"); Shm (lit "b|k2") 5], [2; 10; 2; 5])).
Proof.
  apply (object_call_roundtrip (lit "s") (lit "f") [mk_obj_ref (lit "b") (lit "k1") 10; mk_obj_ref (lit "b") (lit "k2") 5] 2 []);
    [by right| | | |done]; try (split; apply (bool_decide_unpack _); by vm_compute).
  repeat constructor; try (apply (bool_decide_unpack _); by vm_compute); simpl; lia.
Defined.

(** * Objects: executor to scheduler *)
(** The fields of an object's message, up to the value. *)
Lemma parse_object_msg chan type rid packing (session func tgt bucket skey body : str) :
  0 <= rid < 256 -> 0 <= packing < 256 -> Forall clean [session; func; tgt; bucket; skey] -> nul ∉ body ->
  parse_object (chan :: type :: chr rid :: chr packing ::
      session ++ lit "|" ++ func ++ lit "|" ++ tgt ++ lit "|" ++ (bucket ++ kDelimiter ++ skey) ++ lit "|" ++ body) =
    Ok (rid, packing, session :: func :: tgt :: bucket :: skey :: split body kDelimiterChar).
Proof.
  intros Hrid Hpack Hclean Hbody. apply Forall_cons in Hclean as [[Hs Hs0] Hclean]. apply Forall_cons in Hclean as [[Hf Hf0] Hclean].
  apply Forall_cons in Hclean as [[Ht Ht0] Hclean]. apply Forall_cons in Hclean as [[Hb Hb0] Hclean].
  apply Forall_cons in Hclean as [[Hk Hk0] _].
  set (rest := session ++ lit "|" ++ func ++ lit "|" ++ tgt ++ lit "|" ++ (bucket ++ kDelimiter ++ skey) ++ lit "|" ++ body).
  assert (split rest kDelimiterChar = session :: func :: tgt :: bucket :: skey :: split body kDelimiterChar) as Hsplit.
  { unfold rest. rewrite <- (app_assoc bucket), <- (app_assoc kDelimiter). unfold kDelimiter. cbn [lit String.list_ascii_of_string app].
    by rewrite !split_cons. }
  assert (nul ∉ rest) as Hnul.
  { unfold rest, kDelimiter. rewrite !not_elem_of_app. repeat split; try done; apply (bool_decide_unpack _); by vm_compute. }
  unfold parse_object, byte_at, vec_at. simpl app. cbn [lookup list_lookup res_of_option mbind res_bind fmap res_fmap].
  match goal with |- context [decide (4 < ?n)%nat] =>
    rewrite (decide_True (P := (4 < n)%nat)) by (cbn [length]; rewrite length_app; cbn [length]; lia) end.
  cbn [drop mbind res_bind]. rewrite ?drop_0, c_str_app_nul, Hsplit, !ord_chr by done. done.
Qed.

Lemma first_delim (d : ascii) (v : str) : d ∈ v -> exists a b, v = a ++ d :: b /\ d ∉ a.
Proof.
  induction v as [|c v IH]; intros Hin; [by apply not_elem_of_nil in Hin|].
  destruct (decide (c = d)) as [->|Hne]; [exists [], v; split; [done|apply not_elem_of_nil]|].
  apply elem_of_cons in Hin as [->|Hin]; [done|]. destruct (IH Hin) as (a & b & -> & Ha).
  exists (c :: a), b. split; [done|]. by apply not_elem_of_cons.
Qed.

Lemma split_head_eq (v : str) : v <> [] -> (head (split v kDelimiterChar) = Some v <-> kDelimiterChar ∉ v).
Proof.
  intros Hne. split; [|intros Hd; by rewrite split_last].
  intros Hh Hin. apply first_delim in Hin as (a & b & -> & Ha). rewrite split_cons in Hh by done.
  injection Hh as E. apply (f_equal length) in E. rewrite length_app in E. simpl in E. lia.
Qed.

Lemma request_id_range u : 0 <= (ul_get_request_id u).1 < 256.
Proof.
  unfold ul_get_request_id. simpl. pose proof (u8_range (ul_rid_ u + 1)). destruct (_ =? 0); simpl; lia.
Qed.

(** The counter stays below 100. *)
Lemma request_id_counter u :
  0 <= ul_rid_ u < 100 -> 0 <= (ul_get_request_id u).1 < 100 /\ ul_rid_ (ul_get_request_id u).2 = (ul_get_request_id u).1.
Proof.
  intros Hu. unfold ul_get_request_id. rewrite (u8_small (ul_rid_ u + 1)) by lia.
  destruct (_ =? 0) eqn:E; simpl; [lia|]. split; [|done]. apply Z.eqb_neq in E.
  destruct (decide (ul_rid_ u = 99)) as [E99|]; [by rewrite E99 in E|lia].
Qed.

(** What travels of the object: its value, or its size. *)
Definition sent_body (size : Z) (mem : str) : str :=
  if size <=? msgDataPackingThreshold then take (Z.to_nat size) mem else to_string size.

Lemma parse_send_object (u : UserLibrary) (bucket skey tgt : str) (size : Z) (mem : str) (output : bool) :
  Forall clean [ul_session_id_ u; ul_function_ u; tgt; bucket; skey] -> 0 < size -> nul ∉ take (Z.to_nat size) mem ->
  parse_object (send_object (mk_EpheObject (bucket ++ kDelimiter ++ skey) size tgt) mem output u).1.1 =
    Ok ((ul_get_request_id u).1, if size <=? msgDataPackingThreshold then 1 else 2,
        ul_session_id_ u :: ul_function_ u :: tgt :: bucket :: skey :: split (sent_body size mem) kDelimiterChar).
Proof.
  intros Hclean Hsize Hnul. pose proof (request_id_range u) as Hrid. unfold send_object, sent_body. cbn [eo_size_ target_func_ obj_name_].
  assert (ul_session_id_ (ul_get_request_id u).2 = ul_session_id_ u) as Es by (unfold ul_get_request_id; by destruct (_ =? 0)).
  assert (ul_function_ (ul_get_request_id u).2 = ul_function_ u) as Ef by (unfold ul_get_request_id; by destruct (_ =? 0)).
  destruct (ul_get_request_id u) as [rid u']. cbn [fst snd] in *.
  destruct (if output then (if persist_flag_ u' =? 1 then (3, true) else (4, false)) else (2, false)) as [type wait].
  cbn [fst snd]. rewrite Es, Ef.
  apply (parse_object_msg (chr (chan_id_ u')) (chr type) rid (if size <=? msgDataPackingThreshold then 1 else 2));
    [done|destruct (_ <=? _); lia|done|]. destruct (_ <=? _); [done|]. apply clean_to_string. lia.
Qed.

(** The scheduler reads from the message of an object the session, the
    function, the target, the bucket and the key it was sent under. Of an
    object too large to be packed it reads the exact size; of a packed one it
    reads the exact value if and only if the value does not contain the
    delimiter. *)
Theorem object_message_roundtrip (u : UserLibrary) (bucket skey tgt : str) (size : Z) (mem : str) (output : bool)
    (Hclean : Forall clean [ul_session_id_ u; ul_function_ u; tgt; bucket; skey])
    (Hsize : 0 < size < 2 ^ 31) (Hmem : (Z.to_nat size <= length mem)%nat)
    (Hnul : nul ∉ take (Z.to_nat size) mem) :
  exists infos,
    parse_object (send_object (mk_EpheObject (bucket ++ kDelimiter ++ skey) size tgt) mem output u).1.1 =
      Ok ((ul_get_request_id u).1, if size <=? msgDataPackingThreshold then 1 else 2,
          ul_session_id_ u :: ul_function_ u :: tgt :: bucket :: skey :: infos) /\
    (msgDataPackingThreshold < size -> infos = [to_string size] /\ stoi (to_string size) = Ok size) /\
    (size <= msgDataPackingThreshold ->
       head infos = Some (take (Z.to_nat size) mem) <-> kDelimiterChar ∉ take (Z.to_nat size) mem).
Proof.
  eexists. split; [by apply parse_send_object; [..|lia|]|]. unfold sent_body. split; intros Hs.
  - rewrite (proj2 (Z.leb_gt _ _)) by lia. split; [|apply stoi_to_string; lia].
    apply split_last; [apply clean_to_string; lia|apply to_string_nonempty; lia].
  - rewrite (proj2 (Z.leb_le _ _)) by lia. apply split_head_eq. intros Ev. apply (f_equal length) in Ev.
    rewrite length_take in Ev. simpl in Ev. lia.
Qed.

Definition demo_lib : UserLibrary := mk_UserLibrary (lit "10002") 1 4 0 (lit "f") (lit "0123456789abcdef") 2 [].

Lemma object_message_roundtrip_witness :
  exists infos,
    parse_object (send_object (mk_EpheObject (lit "b" ++ kDelimiter ++ lit "k") 3 (lit "g")) (lit "abc") false demo_lib).1.1 =
      Ok (5, 1, lit "0123456789abcdef" :: lit "f" :: lit "g" :: lit "b" :: lit "k" :: infos) /\
    (msgDataPackingThreshold < 3 -> infos = [to_string 3] /\ stoi (to_string 3) = Ok 3) /\
    (3 <= msgDataPackingThreshold -> head infos = Some (lit "abc") <-> kDelimiterChar ∉ lit "abc").
Proof.
  apply (object_message_roundtrip demo_lib (lit "b") (lit "k") (lit "g") 3 (lit "abc") false);
    [|lia|simpl; lia|]; apply (bool_decide_unpack _); by vm_compute.
Defined.

(** * Reading an object *)
Lemma ord_byte_answer rid value name :
  0 <= rid < 128 ->
  get_object_answer name rid (Some (io_response rid value)) =
    (size_len ← stoi (c_str (value ++ [nul])); Ok (Some (mk_EpheObject name (u64 size_len) []))).
Proof.
  intros Hrid. unfold get_object_answer, io_response, byte_at, vec_at. simpl app.
  cbn [lookup list_lookup res_of_option mbind res_bind fmap res_fmap]. rewrite !ord_chr by lia.
  unfold schar. rewrite (proj2 (Z.ltb_lt rid 128)) by lia. rewrite !Z.eqb_refl. cbn [negb orb].
  match goal with |- context [decide (3 < ?n)%nat] =>
    rewrite (decide_True (P := (3 < n)%nat)) by (cbn [length]; rewrite length_app; cbn [length]; lia) end.
  cbn [drop]. by rewrite ?drop_0.
Qed.

(** A function that asks for an object its own worker holds gets an object
    of that name and of the exact size, as long as the object's name has at
    most 255 characters. *)
Theorem local_get_roundtrip (L : Layout) (R : Rand) (conf : sched_conf) (now e : Z) (s : sched) (u : UserLibrary)
    (bucket key : str) (size : Z)
    (He : 0 <= e < executor_num conf /\ e < 255) (Hchan : chan_id_ u = u8 (e + 1))
    (Hlen : (length (get_object_name bucket key true u) <= 255)%nat)
    (Hrid : 0 <= ul_rid_ u < 100) (Hsize : 0 <= size < 2 ^ 31)
    (Hheld : s_key_len_map s !! get_object_name bucket key true u = Some size) :
  exists answer,
    handle_executor_msg conf now (get_object_request bucket key true u).1.1 s = Ok ((), s, [ToExecutor e answer]) /\
    get_object_answer (get_object_name bucket key true u) (get_object_request bucket key true u).1.2 (Some answer) =
      Ok (Some (mk_EpheObject (get_object_name bucket key true u) size [])).
Proof.
  pose proof (request_id_counter u Hrid) as Hrid'.
  exists (io_response (ul_get_request_id u).1 (to_string size)). unfold get_object_request.
  set (name := get_object_name bucket key true u) in *.
  assert (chan_id_ (ul_get_request_id u).2 = chan_id_ u) as Ec by (unfold ul_get_request_id; by destruct (_ =? 0)).
  destruct (ul_get_request_id u) as [rid u']. cbn [fst snd] in *. split.
  - unfold handle_executor_msg. rewrite !byte_at_S, !byte_at_0. run.
    rewrite Ec, Hchan, (ord_chr (u8 (e + 1))), (ord_chr 1) by (apply u8_range || lia).
    rewrite (u8_small (e + 1)) by lia. replace (e + 1 - 1) with e by lia. rewrite (u8_small e) by lia.
    cbn [Z.eqb Pos.eqb]. unfold handle_get. rewrite !byte_at_S, !byte_at_0. run.
    rewrite !ord_chr by lia. rewrite Nat2Z.id. unfold bytes_at. cbn [app length].
    rewrite decide_True by (rewrite length_app; cbn [length]; lia). cbn [drop]. rewrite drop_0, take_app_length. run.
    cbn [Z.eqb Pos.eqb]. run. rewrite Hheld. unfold send_to_executer.
    by rewrite (proj2 (Z.leb_le _ _)), (proj2 (Z.ltb_lt _ _)) by lia.
  - rewrite ord_byte_answer by lia. rewrite c_str_app_nul by (apply clean_to_string; lia).
    rewrite stoi_to_string by done. cbn [mbind res_bind]. by rewrite u64_small by lia.
Qed.

Lemma local_get_roundtrip_witness :
  exists answer,
    @handle_executor_msg layout_id rand_lcg (mk_sched_conf 1 false false 1) 5
      (get_object_request (lit "b") (lit "k") true demo_lib).1.1
      (upd_key_len_map <[lit "b|k0123456789abcdef" := 77]> (mk_sched ∅ ∅ ∅ [] [] ∅ 0 0 ∅ ∅ ∅ ∅ ∅ ∅ ∅ ∅ ∅ ∅ ∅ ∅)) =
      Ok ((), upd_key_len_map <[lit "b|k0123456789abcdef" := 77]> (mk_sched ∅ ∅ ∅ [] [] ∅ 0 0 ∅ ∅ ∅ ∅ ∅ ∅ ∅ ∅ ∅ ∅ ∅ ∅),
          [ToExecutor 0 answer]) /\
    get_object_answer (lit "b|k0123456789abcdef") 5 (Some answer) =
      Ok (Some (mk_EpheObject (lit "b|k0123456789abcdef") 77 [])).
Proof.
  apply (local_get_roundtrip layout_id rand_lcg (mk_sched_conf 1 false false 1) 5 0
    (upd_key_len_map <[lit "b|k0123456789abcdef" := 77]> (mk_sched ∅ ∅ ∅ [] [] ∅ 0 0 ∅ ∅ ∅ ∅ ∅ ∅ ∅ ∅ ∅ ∅ ∅ ∅))
    demo_lib (lit "b") (lit "k") 77); [simpl; lia|done|vm_compute; lia|simpl; lia|lia|by vm_compute].
Defined.

(** A function that waits for an object of another worker never learns its
    size: the scheduler's answer carries the size as one raw character where a
    decimal number is read, so the executor either fails with an exception or
    takes a wrong size, whatever the size is. *)
Theorem remote_get_size_misread (name : str) (rid size : Z) (Hrid : 0 <= rid < 100) (Hsize : 0 <= size) :
  get_object_answer name rid (Some (io_response rid [chr size])) <> Ok (Some (mk_EpheObject name size [])).
Proof.
  rewrite ord_byte_answer by lia. intros E.
  destruct (stoi _) as [n|] eqn:En; [|done]. cbn [mbind res_bind] in E. injection E as E.
  revert En. cbn [app c_str]. case_decide as Hz; [done|]. rewrite decide_True by done.
  unfold stoi. cbn [skip_space]. destruct (is_space (chr size)) eqn:Esp; [done|].
  case_decide as Hm; [by cbn|]. case_decide as Hp; [by cbn|]. cbn [digits_prefix].
  destruct (digit_val (chr size)) as [d|] eqn:Ed; [|done]. cbn. unfold digit_val in Ed.
  assert (ord (chr size) = u8 size) as Eo.
  { unfold chr, ord. pose proof (u8_range size). rewrite N_ascii_embedding by lia. lia. }
  rewrite Eo in Ed. destruct (_ && _) eqn:Eb in Ed; [|done]. injection Ed as <-. bool_to_prop.
  destruct (_ && _) in |- *; [|done]. intros [= <-]. rewrite u64_small in E by (unfold u8 in *; lia). unfold u8 in *. lia.
Qed.

Lemma remote_get_size_misread_witness :
  get_object_answer (lit "b|k") 5 (Some (io_response 5 [chr 304])) <> Ok (Some (mk_EpheObject (lit "b|k") 304 [])).
Proof. apply (remote_get_size_misread (lit "b|k") 5 304); lia. Defined.

(** * Objects between workers *)
Lemma split_key_msg_roundtrip (key rest : str) :
  (length key <= 255)%nat -> split_key_msg (key_msg key rest) = Ok (key, rest).
Proof.
  intros Hk. unfold split_key_msg, key_msg. cbn [vec_at lookup list_lookup res_of_option fmap res_fmap mbind res_bind].
  rewrite ord_chr by lia. rewrite Nat2Z.id. cbn [length]. rewrite length_app, decide_True by lia.
  rewrite Nat.add_1_r. cbn [drop]. by rewrite drop_0, take_app_length, drop_app_length.
Qed.


