(* ===== verification/Pipeline.v ===== *)
(** A many-to-one dependency from end to end: the application's registration
    at the coordinator, the objects its source functions send, the scheduler's
    reading of them, and the trigger. *)
From stdpp Require Import prelude gmap strings list fin_sets.
From Stdlib Require Import ZArith Lia Ascii.
From S2P Require Import Prelude Cpp Effects Proto Common Threads Trigger TriggerSpec Coordinator Sched SchedLoop Comm Executor Wire.

Open Scope Z_scope.

(** * The object a source function sends *)
(** A function that runs under the library state [ss_lib] creates an object
    for the target, writes [ss_mem] and sends it; [ss_time] is the scheduler's
    clock when it arrives. *)
Record source_send := mk_source_send { ss_time : Z; ss_lib : UserLibrary; ss_size : Z; ss_mem : str }.

Definition send_msg (tgt : str) (x : source_send) : str :=
  let '(obj, u) := create_object_for tgt true (ss_size x) (ss_lib x) in
  (send_object obj (ss_mem x) false u).1.1.

(** The bucket and key under which the scheduler files the object of a
    message, as [handle_object] and [trigger_invocation] do. *)
Definition filed_under (msg : str) : res BucketKey :=
  '(_, infos) ← parse_object msg;
  match infos with
  | _ :: _ :: _ :: bucket :: session_key :: _ => Ok (BucketKey_of_session_key bucket session_key)
  | _ => Fault IndexPastEnd
  end.

(** Names that can travel, a session of 16 characters as the coordinator makes
    them, and a value of a positive size without zeros. *)
Definition send_ok (x : source_send) : Prop :=
  clean (ul_function_ (ss_lib x)) /\ clean (ul_session_id_ (ss_lib x)) /\ length (ul_session_id_ (ss_lib x)) = 16%nat /\
  0 < ss_size x < 2 ^ 31 /\ (Z.to_nat (ss_size x) <= length (ss_mem x))%nat /\
  nul ∉ take (Z.to_nat (ss_size x)) (ss_mem x).

Lemma clean_app a b : clean a -> clean b -> clean (a ++ b).
Proof. unfold clean. rewrite !not_elem_of_app. tauto. Qed.

Lemma send_msg_filed (tgt : str) (x : source_send) :
  clean tgt -> send_ok x ->
  filed_under (send_msg tgt x) =
    Ok (mk_BucketKey (lit "b_" ++ tgt) (lit "k_" ++ ul_function_ (ss_lib x)) (ul_session_id_ (ss_lib x))).
Proof.
  intros Ht (Hf & Hs & Hl & Hsize & Hmem & Hnul). unfold send_msg, create_object_for, filed_under, get_local_object_name.
  assert (clean (lit "b_") /\ clean (lit "k_")) as [Hb Hk] by (split; split; apply (bool_decide_unpack _); by vm_compute).
  rewrite parse_send_object; [|repeat (apply Forall_cons; split); auto using clean_app|lia|done].
  cbn [mbind res_bind]. unfold get_key_session_name. by rewrite BucketKey_of_session_key_app.
Qed.

Lemma mapM_filed (tgt : str) (sends : list source_send) (l : list arrival) :
  clean tgt -> Forall send_ok sends ->
  Forall2 (fun x a => a.1 = ss_time x /\ filed_under (send_msg tgt x) = Ok a.2) sends l ->
  l = (fun x => (ss_time x, mk_BucketKey (lit "b_" ++ tgt) (lit "k_" ++ ul_function_ (ss_lib x)) (ul_session_id_ (ss_lib x)))) <$> sends.
Proof.
  intros Ht Hok. induction 1 as [|x [now bk] sends l [En Ef] _ IH]; [done|]. apply Forall_cons in Hok as [Hx Hok].
  cbn [fst snd] in *. rewrite send_msg_filed in Ef by done. injection Ef as <-. rewrite fmap_cons, En. f_equal. by apply IH.
Qed.


(** Two sources, [f] and [g], of one session, with an object of another session
    in between. *)
Definition demo_send (f session v : str) : source_send :=
  mk_source_send 0 (mk_UserLibrary (lit "10002") 1 4 0 f session 2 []) (Z.of_nat (length v)) v.
Definition demo_s1 : str := lit "0123456789abcdef".
Definition demo_s2 : str := lit "fedcba9876543210".
Definition demo_sends : list source_send :=
  [demo_send (lit "g") demo_s1 (lit "v1"); demo_send (lit "f") demo_s2 (lit "v2"); demo_send (lit "f") demo_s1 (lit "v3")].
Definition demo_dep : DataDependency := mk_DataDependency MANY_TO_ONE [lit "f"; lit "g"] [lit "h"] [].
Definition demo_arrivals : list arrival :=
  [(0, mk_BucketKey (lit "b_h") (lit "k_g") demo_s1); (0, mk_BucketKey (lit "b_h") (lit "k_f") demo_s2);
   (0, mk_BucketKey (lit "b_h") (lit "k_f") demo_s1)].

