(* ===== verification/Manager.v ===== *)
(** The management server ([src/manager/manager_server.cpp]): it tells clients
    which coordinator thread serves their application. *)
From stdpp Require Import prelude gmap strings list fin_sets.
From Stdlib Require Import ZArith Lia Ascii.
From S2P Require Import Prelude Cpp Proto.

Open Scope Z_scope.

(** * State *)
Record CoordIp := mk_CoordIp { public_ip_ : str; private_ip_ : str; thread_id_ : Z }.

#[export] Instance CoordIp_eq_dec : EqDecision CoordIp.
Proof. solve_decision. Defined.
#[export] Instance CoordIp_countable : Countable CoordIp.
Proof.
  apply (inj_countable' (fun c => (public_ip_ c, private_ip_ c, thread_id_ c))
           (fun '(a, b, t) => mk_CoordIp a b t)). by intros [].
Defined.

Record manager := mk_manager {
  app_coord_map : gmap str (str * Z);
  coord_ips : gset CoordIp;
  m_seed : Z }.
Definition manager_init (seed : Z) : manager := mk_manager ∅ ∅ seed.

(** * Operations *)
Definition coord_sync (m : manager) (msg : CoordSync) : manager :=
  mk_manager (app_coord_map m)
    ({[mk_CoordIp (cs_public_ip msg) (cs_private_ip msg) (cs_thread_id msg)]} ∪ coord_ips m) (m_seed m).

(** The address a client is given for a coordinator thread. *)
Definition coord_address (externalUser : bool) (c : CoordIp) : str * Z :=
  (if externalUser then public_ip_ c else private_ip_ c, thread_id_ c).

(** A coordinator is drawn for an application that has none. *)
Definition assign_coord `{Layout, Rand} (externalUser : bool) (m : manager) (app_name : str) : res manager :=
  match app_coord_map m !! app_name with
  | Some _ => Ok m
  | None =>
      '(i, seed) ← rand_below (m_seed m) (size (coord_ips m));
      coord_ip ← vec_at (set_iter (coord_ips m)) i;
      Ok (mk_manager (<[app_name := coord_address externalUser coord_ip]> (app_coord_map m)) (coord_ips m) seed)
  end.

Definition coord_query `{Layout, Rand} (externalUser : bool) (m : manager) (query : CoordQuery)
    : res (manager * CoordResponse) :=
  m ← assign_coord externalUser m (cq_application query);
  let '(ip, tid) := at_or ([], 0) (cq_application query) (app_coord_map m) in
  Ok (m, mk_CoordResponse ip tid (cq_request_id query)).

(** What the two sockets hold when the loop polls them. The answer goes to
    whoever asked: it is paired with the query. *)
Record manager_polled := mk_manager_polled { mp_sync : option CoordSync; mp_query : option CoordQuery }.

Definition manager_iteration `{Layout, Rand} (externalUser : bool) (m : manager) (p : manager_polled)
    : res (manager * list (CoordQuery * CoordResponse)) :=
  let m := match mp_sync p with Some msg => coord_sync m msg | None => m end in
  match mp_query p with
  | Some q => '(m, r) ← coord_query externalUser m q; Ok (m, [(q, r)])
  | None => Ok (m, [])
  end.

Fixpoint manager_run `{Layout, Rand} (externalUser : bool) (m : manager) (h : list manager_polled)
    : res (manager * list (CoordQuery * CoordResponse)) :=
  match h with
  | [] => Ok (m, [])
  | p :: h =>
      '(m, o) ← manager_iteration externalUser m p;
      '(m, o') ← manager_run externalUser m h;
      Ok (m, o ++ o')
  end.

(** * Lemmas *)
(** The coordinator threads that announced themselves. *)
Definition synced (h : list manager_polled) : list CoordIp :=
  (fun s => mk_CoordIp (cs_public_ip s) (cs_private_ip s) (cs_thread_id s)) <$> omap mp_sync h.

Section lemmas.
Context `{Layout, Rand} (externalUser : bool).

(** Every application's entry is the address of a known coordinator. *)
Definition entries_known (m : manager) : Prop :=
  forall app a, app_coord_map m !! app = Some a -> exists c, c ∈ coord_ips m /\ a = coord_address externalUser c.

Lemma coord_sync_known m msg : entries_known m -> entries_known (coord_sync m msg).
Proof. intros Hm app a Ha. destruct (Hm app a Ha) as (c & ? & ->). exists c. simpl. set_solver. Qed.

Lemma assign_coord_ok m app :
  entries_known m -> coord_ips m <> ∅ ->
  exists m', assign_coord externalUser m app = Ok m' /\ app_coord_map m ⊆ app_coord_map m' /\
    coord_ips m' = coord_ips m /\ is_Some (app_coord_map m' !! app) /\ entries_known m'.
Proof.
  intros Hm Hne. unfold assign_coord. destruct (app_coord_map m !! app) eqn:E; [by eauto 8|].
  assert (0 < size (coord_ips m))%nat as Hs.
  { destruct (decide (size (coord_ips m) = 0%nat)) as [E0|]; [|lia]. apply size_empty_inv in E0. set_solver. }
  destruct (rand_below_ok (m_seed m) _ Hs) as (i & s & Ei). rewrite Ei. cbn [mbind res_bind].
  apply rand_below_lt in Ei. unfold vec_at. rewrite <- (length_set_iter (coord_ips m)) in Ei.
  apply lookup_lt_is_Some in Ei as [c Hc]. rewrite Hc. cbn [res_of_option mbind res_bind].
  eexists. split; [done|]. simpl. split; [by apply insert_subseteq|]. split; [done|]. split; [by simplify_map_eq|].
  intros app' a. simpl. intros [[-> <-]|[_ Ha]]%lookup_insert_Some; [|by eapply Hm].
  exists c. split; [|done]. apply elem_of_set_iter. by eapply list_elem_of_lookup_2.
Qed.

(** What a run from a state says of its answers: they agree with the map at
    the end, which extends the map at the start. *)
Definition run_spec (m : manager) (h : list manager_polled) : Prop :=
  exists m' outs, manager_run externalUser m h = Ok (m', outs) /\ app_coord_map m ⊆ app_coord_map m' /\
    entries_known m' /\ coord_ips m' = coord_ips m ∪ list_to_set (synced h) /\ outs.*1 = omap mp_query h /\
    Forall (fun '(q, r) => app_coord_map m' !! cq_application q = Some (cr_coord_ip r, cr_thread_id r) /\
                           cr_request_id r = cq_request_id q) outs.

Lemma synced_cons p h :
  list_to_set (C := gset CoordIp) (synced (p :: h)) =
  match mp_sync p with Some s => {[mk_CoordIp (cs_public_ip s) (cs_private_ip s) (cs_thread_id s)]} | None => ∅ end
    ∪ list_to_set (synced h).
Proof. unfold synced. simpl. destruct (mp_sync p); simpl; set_solver. Qed.

Definition after_sync (m : manager) (p : manager_polled) : manager :=
  match mp_sync p with Some msg => coord_sync m msg | None => m end.

Lemma run_spec_cons m p h :
  entries_known m -> (mp_query p <> None -> coord_ips (after_sync m p) <> ∅) ->
  (forall m1, entries_known m1 -> coord_ips m1 = coord_ips (after_sync m p) -> run_spec m1 h) ->
  run_spec m (p :: h).
Proof.
  intros Hm Hq IH. assert (entries_known (after_sync m p)) as Hm1.
  { unfold after_sync. destruct (mp_sync p); [by apply coord_sync_known|done]. }
  assert (app_coord_map (after_sync m p) = app_coord_map m) as Em by (unfold after_sync; by destruct (mp_sync p)).
  assert (coord_ips (after_sync m p) ∪ list_to_set (synced h) = coord_ips m ∪ list_to_set (synced (p :: h))) as Es.
  { rewrite synced_cons. unfold after_sync. destruct (mp_sync p); simpl; set_solver. }
  unfold run_spec. cbn [manager_run omap list_omap]. unfold manager_iteration. fold (after_sync m p).
  destruct (mp_query p) as [q|]; cbn [mbind res_bind].
  - destruct (assign_coord_ok (after_sync m p) (cq_application q)) as (m2 & E & Hsub & Ec & [a Ha] & Hm2); [done|by apply Hq|].
    unfold coord_query. rewrite E. cbn [mbind res_bind]. unfold at_or. rewrite Ha. destruct a as [ip tid]. cbn [from_option id mbind res_bind].
    destruct (IH m2 Hm2 Ec) as (m' & outs & -> & Hsub' & Hk & Eips & Eq & Hall). cbn [mbind res_bind].
    eexists _, _. split; [done|]. split; [rewrite <- Em; by etrans|]. split; [done|].
    split; [by rewrite Eips, Ec|]. split; [by rewrite <- Eq|].
    constructor; [|done]. split; [|done]. simpl. by eapply lookup_weaken.
  - destruct (IH _ Hm1 eq_refl) as (m' & outs & -> & Hsub' & Hk & Eips & Eq & Hall). cbn [mbind res_bind].
    rewrite Em in Hsub'. eexists _, _. split; [done|]. split; [done|]. split; [done|]. split; [by rewrite Eips|]. done.
Qed.

Lemma run_spec_nil m : entries_known m -> run_spec m [].
Proof. intros Hm. eexists _, _. split; [done|]. split; [done|]. split; [done|]. split; [simpl; set_solver|]. by split. Qed.

Lemma run_spec_known h : forall m, entries_known m -> coord_ips m <> ∅ -> run_spec m h.
Proof.
  induction h as [|p h IH]; intros m Hm Hne; [by apply run_spec_nil|].
  assert (coord_ips (after_sync m p) <> ∅) as Hne' by (unfold after_sync; destruct (mp_sync p); simpl; set_solver).
  apply run_spec_cons; [done|done|]. intros m1 Hm1 E. apply IH; [done|]. by rewrite E.
Qed.

(** Nobody asks before the first coordinator has announced itself. *)
Fixpoint sync_first (h : list manager_polled) : Prop :=
  match h with
  | [] => True
  | p :: h => mp_sync p <> None \/ (mp_query p = None /\ sync_first h)
  end.

Lemma run_spec_sync_first h : forall m, entries_known m -> sync_first h -> run_spec m h.
Proof.
  induction h as [|p h IH]; intros m Hm Hf; [by apply run_spec_nil|].
  destruct Hf as [Hs|[Hq Hf]].
  - assert (coord_ips (after_sync m p) <> ∅) as Hne by (unfold after_sync; destruct (mp_sync p); [simpl; set_solver|done]).
    apply run_spec_cons; [done|done|]. intros m1 Hm1 E. apply run_spec_known; [done|]. by rewrite E.
  - apply run_spec_cons; [done|by rewrite Hq|]. intros m1 Hm1 _. by apply IH.
Qed.
End lemmas.

(** As long as no client asks before the first coordinator has announced
    itself, the management server answers every query, in order and under its
    request id. Every answer names a coordinator thread that announced itself,
    by the address clients of that kind reach it at, and all answers for one
    application name the same one, whatever coordinators join in between and
    however the draw goes. *)
Theorem manager_routes_stably (L : Layout) (R : Rand) (externalUser : bool) (seed : Z) (h : list manager_polled)
    (Hfirst : sync_first h) :
  exists m outs, manager_run externalUser (manager_init seed) h = Ok (m, outs) /\
    outs.*1 = omap mp_query h /\
    (forall q r, (q, r) ∈ outs -> cr_request_id r = cq_request_id q /\
       exists c, c ∈ synced h /\ (cr_coord_ip r, cr_thread_id r) = coord_address externalUser c) /\
    (forall q r q' r', (q, r) ∈ outs -> (q', r') ∈ outs -> cq_application q = cq_application q' ->
       cr_coord_ip r = cr_coord_ip r' /\ cr_thread_id r = cr_thread_id r').
Proof.
  destruct (run_spec_sync_first externalUser h (manager_init seed)) as (m & outs & E & _ & Hk & Eips & Eq & Hall);
    [by intros ? ?|done|].
  rewrite Forall_forall in Hall. exists m, outs. split; [done|]. split; [done|]. split.
  - intros q r Hin. destruct (Hall _ Hin) as [Hl Hid]. split; [done|]. destruct (Hk _ _ Hl) as (c & Hc & ->).
    exists c. rewrite Eips in Hc. simpl in Hc. split; [set_solver|done].
  - intros q r q' r' Hin Hin' Eapp. destruct (Hall _ Hin) as [Hl _], (Hall _ Hin') as [Hl' _].
    rewrite Eapp in Hl. rewrite Hl in Hl'. by simplify_eq.
Qed.

Lemma manager_routes_stably_witness :
  exists m outs, @manager_run layout_id rand_lcg true (manager_init 7)
      [mk_manager_polled (Some (mk_CoordSync (lit "54.1.1.1") (lit "10.0.0.1") 0)) None;
       mk_manager_polled (Some (mk_CoordSync (lit "54.1.1.2") (lit "10.0.0.2") 3)) (Some (mk_CoordQuery (lit "app") (lit "r1")))] =
      Ok (m, outs) /\ outs.*1 = [mk_CoordQuery (lit "app") (lit "r1")].
Proof.
  destruct (manager_routes_stably layout_id rand_lcg true 7
      [mk_manager_polled (Some (mk_CoordSync (lit "54.1.1.1") (lit "10.0.0.1") 0)) None;
       mk_manager_polled (Some (mk_CoordSync (lit "54.1.1.2") (lit "10.0.0.2") 3)) (Some (mk_CoordQuery (lit "app") (lit "r1")))])
    as (m & outs & E & Eq & _); [by left|]. exists m, outs. by split.
Defined.

(** A query that comes before any coordinator has announced itself divides by
    the size of the empty set. *)
Lemma query_before_sync_faults `{Layout, Rand} externalUser seed q h :
  manager_run externalUser (manager_init seed) (mk_manager_polled None (Some q) :: h) = Fault DivByZero.
Proof.
  cbn [manager_run]. unfold manager_iteration, coord_query, assign_coord. cbn [mp_sync mp_query manager_init app_coord_map m_seed coord_ips].
  rewrite lookup_empty, size_empty. unfold rand_below. by destruct (rand_r seed).
Qed.
