(* ===== verification/Lattices.v ===== *)
(** The lattices of the durable store ([common/include/lattices/*.hpp]) and
    their encoding ([common/include/common.hpp]). [merge] changes the element
    in place: the first argument is the element before, the result the element
    after. *)
From stdpp Require Import prelude gmap strings list fin_maps fin_sets.
From Stdlib Require Import ZArith Lia Ascii.
From S2P Require Import Prelude Cpp Proto.

Open Scope Z_scope.

(** * core_lattices.hpp *)
Definition BoolLattice_merge (element e : bool) : bool := element || e.

(** [MaxLattice<unsigned>]: the element is read into an [int] and compared with
    an [unsigned], which converts it back. *)
Definition MaxLattice_merge (element e : Z) : Z :=
  let current := i32 element in
  if u32 current <? e then e else element.
Definition MaxLattice_add (element n : Z) : Z := u32 (element + n).
Definition MaxLattice_subtract (element n : Z) : Z := u32 (element - n).

(** A [VectorClock] is a [MapLattice<string, MaxLattice<unsigned>>]. *)
Abbreviation VectorClock := (gmap str Z).

Section containers.
Context `{Layout}.
Section sets.
Context `{Countable T}.

Definition SetLattice_insert (e : T) (element : gset T) : gset T := {[e]} ∪ element.
Definition SetLattice_merge (element e : gset T) : gset T :=
  foldl (fun s x => SetLattice_insert x s) element (set_iter e).
(** The two loops over the argument and over the element. *)
Definition SetLattice_intersect (element s : gset T) : gset T :=
  foldl (fun res that_elem =>
    foldl (fun res this_elem => if decide (this_elem = that_elem) then SetLattice_insert this_elem res else res)
      res (set_iter element)) ∅ (set_iter s).
Definition SetLattice_project (f : T -> bool) (element : gset T) : gset T :=
  foldl (fun res x => if f x then SetLattice_insert x res else res) ∅ (set_iter element).
End sets.

Section maps.
Context `{Countable K} {V : Type} (merge : V -> V -> V).

Definition MapLattice_insert_pair (k : K) (v : V) (element : gmap K V) : gmap K V :=
  match element !! k with
  | Some old => <[k := merge old v]> element
  | None => <[k := v]> element
  end.
Definition MapLattice_merge (element m : gmap K V) : gmap K V :=
  foldl (fun acc '(k, v) => MapLattice_insert_pair k v acc) element (map_iter m).
Definition MapLattice_contains (k : K) (element : gmap K V) : bool :=
  match element !! k with None => false | Some _ => true end.
Definition MapLattice_key_set (element : gmap K V) : gset K :=
  foldl (fun res '(k, _) => SetLattice_insert k res) ∅ (map_iter element).
Definition MapLattice_project (f : V -> bool) (element : gmap K V) : gmap K V :=
  foldl (fun res '(k, v) => if f v then touch v k res else res) ∅ (map_iter element).
Definition MapLattice_remove (k : K) (element : gmap K V) : gmap K V :=
  match element !! k with Some _ => delete k element | None => element end.
End maps.

(** * Vector clocks *)
Definition VectorClock_merge : VectorClock -> VectorClock -> VectorClock := MapLattice_merge MaxLattice_merge.

(** * lww_pair_lattice.hpp *)
Record TimestampValuePair := mk_TimestampValuePair { tv_timestamp : Z; tv_value : str }.
Definition LWWPairLattice_new : TimestampValuePair := mk_TimestampValuePair 0 [].
Definition LWWPairLattice_merge (element p : TimestampValuePair) : TimestampValuePair :=
  if tv_timestamp element <=? tv_timestamp p then mk_TimestampValuePair (tv_timestamp p) (tv_value p) else element.

(** * priority_lattice.hpp *)
Section priority.
Context {P : Type} (compare : P -> P -> bool).
Record PriorityValuePair := mk_PriorityValuePair { pp_priority : P; pp_value : str }.
Definition PriorityLattice_merge (element p : PriorityValuePair) : PriorityValuePair :=
  if compare (pp_priority p) (pp_priority element) then p else element.
End priority.

(** * single_key_causal_lattice.hpp *)
Record VectorClockValuePair := mk_VectorClockValuePair { vv_vector_clock : VectorClock; vv_value : gset str }.
Definition SingleKeyCausalLattice_merge (element p : VectorClockValuePair) : VectorClockValuePair :=
  let prev := vv_vector_clock element in
  let vector_clock := VectorClock_merge (vv_vector_clock element) (vv_vector_clock p) in
  if decide (vector_clock = vv_vector_clock p) then mk_VectorClockValuePair vector_clock (vv_value p)
  else if decide (vector_clock = prev) then mk_VectorClockValuePair vector_clock (vv_value element)
  else mk_VectorClockValuePair vector_clock (SetLattice_merge (vv_value element) (vv_value p)).
Definition VectorClockValuePair_size (p : VectorClockValuePair) : Z :=
  u32 (Z.of_nat (size (vv_vector_clock p)) * 2 * 4 + Z.of_nat (size (vv_value p))).

(** * multi_key_causal_lattice.hpp *)
Record MultiKeyCausalPayload := mk_MultiKeyCausalPayload {
  mp_vector_clock : VectorClock; mp_dependencies : gmap str VectorClock; mp_value : gset str }.
Definition MultiKeyCausalLattice_merge (element p : MultiKeyCausalPayload) : MultiKeyCausalPayload :=
  let prev := mp_vector_clock element in
  let vector_clock := VectorClock_merge (mp_vector_clock element) (mp_vector_clock p) in
  if decide (vector_clock = mp_vector_clock p) then
    mk_MultiKeyCausalPayload vector_clock (mp_dependencies p) (mp_value p)
  else if decide (vector_clock = prev) then
    mk_MultiKeyCausalPayload vector_clock (mp_dependencies element) (mp_value element)
  else
    mk_MultiKeyCausalPayload vector_clock (MapLattice_merge VectorClock_merge (mp_dependencies element) (mp_dependencies p))
      (SetLattice_merge (mp_value element) (mp_value p)).

(** * Encoding ([common.hpp])

    A clock is copied entry by entry into the map of the message; the message's
    map is iterated in an order of its own. *)
Definition serialize_lww `{Codec LWWValue} (l : TimestampValuePair) : str :=
  SerializeToString (mk_LWWValue (tv_timestamp l) (tv_value l)).
Definition serialize_pair `{Codec LWWValue} (timestamp : Z) (value : str) : str :=
  SerializeToString (mk_LWWValue timestamp value).
Definition deserialize_lww `{Codec LWWValue} (serialized : str) : TimestampValuePair :=
  let lww : LWWValue := ParseFromString serialized in mk_TimestampValuePair (lww_timestamp lww) (lww_value lww).

Definition serialize_set `{Codec SetValue} (l : gset str) : str := SerializeToString (mk_SetValue (set_iter l)).
Definition deserialize_set `{Codec SetValue} (serialized : str) : gset str :=
  let s : SetValue := ParseFromString serialized in
  foldl (fun result value => SetLattice_insert value result) ∅ (sv_values s).

Definition copy_clock (vc : VectorClock) : gmap str Z := foldl (fun m '(k, v) => <[k := v]> m) ∅ (map_iter vc).
Definition insert_clock (m : gmap str Z) : VectorClock :=
  foldl (fun vc '(k, v) => MapLattice_insert_pair MaxLattice_merge k v vc) ∅ (map_iter m).
Definition insert_values (values : list str) : gset str := foldl (fun s x => SetLattice_insert x s) ∅ values.

Definition serialize_causal `{Codec SingleKeyCausalValue} (l : VectorClockValuePair) : str :=
  SerializeToString (mk_SingleKeyCausalValue (copy_clock (vv_vector_clock l)) (set_iter (vv_value l))).
Definition deserialize_causal `{Codec SingleKeyCausalValue} (serialized : str) : SingleKeyCausalValue :=
  ParseFromString serialized.
Definition to_vector_clock_value_pair (cv : SingleKeyCausalValue) : VectorClockValuePair :=
  mk_VectorClockValuePair (insert_clock (skv_vector_clock cv)) (insert_values (skv_values cv)).

Definition serialize_multi_key_causal `{Codec MultiKeyCausalValue} (l : MultiKeyCausalPayload) : str :=
  SerializeToString (mk_MultiKeyCausalValue (copy_clock (mp_vector_clock l))
    ((fun '(key, vc) => mk_KeyVersion key (copy_clock vc)) <$> map_iter (mp_dependencies l)) (set_iter (mp_value l))).
Definition deserialize_multi_key_causal `{Codec MultiKeyCausalValue} (serialized : str) : MultiKeyCausalValue :=
  ParseFromString serialized.
Definition to_multi_key_causal_payload (mkcv : MultiKeyCausalValue) : MultiKeyCausalPayload :=
  mk_MultiKeyCausalPayload (insert_clock (mkv_vector_clock mkcv))
    (foldl (fun deps dep =>
       MapLattice_insert_pair VectorClock_merge (kv_key dep) (insert_clock (kv_vector_clock dep)) deps)
       ∅ (mkv_dependencies mkcv))
    (insert_values (mkv_values mkcv)).

Definition serialize_priority {P} `{Codec (PriorityValue P)} (l : PriorityValuePair (P := P)) : str :=
  SerializeToString (mk_PriorityValue (pp_priority l) (pp_value l)).
Definition deserialize_priority {P} `{Codec (PriorityValue P)} (serialized : str) : PriorityValuePair (P := P) :=
  let pv : PriorityValue P := ParseFromString serialized in mk_PriorityValuePair (pv_priority pv) (pv_value pv).
End containers.
