(* ===== verification/LatticeClaims.v ===== *)
(** What the lattices of the durable store guarantee: merging is a join for
    vector clocks, last-writer-wins registers converge, causal registers follow
    causality, and values survive their encoding. *)
From stdpp Require Import prelude gmap strings list fin_maps fin_sets.
From Stdlib Require Import ZArith Lia Ascii.
From S2P Require Import Prelude Cpp Proto Lattices.

Open Scope Z_scope.

(** * Join semilattices

    What an element type promises to the lattices built from it: on the values
    it admits, [merge] is idempotent, commutative and associative. *)
Class Semilattice {A : Type} (ok : A -> Prop) (merge : A -> A -> A) : Prop := {
  merge_ok a b : ok a -> ok b -> ok (merge a b);
  merge_idemp a : ok a -> merge a a = a;
  merge_comm a b : ok a -> ok b -> merge a b = merge b a;
  merge_assoc a b c : ok a -> ok b -> ok c -> merge a (merge b c) = merge (merge a b) c }.

#[export] Instance BoolLattice_semilattice : Semilattice (fun _ => True) BoolLattice_merge.
Proof. split; unfold BoolLattice_merge; intros; [done|by destruct a| |]; repeat match goal with b : bool |- _ => destruct b end; done. Qed.

(** The detour through [int] does no harm. *)
Lemma MaxLattice_merge_max a b : is_u32 a -> MaxLattice_merge a b = Z.max a b.
Proof. intros Ha. unfold MaxLattice_merge. rewrite u32_i32 by done. destruct (Z.ltb_spec a b); lia. Qed.

Lemma MaxLattice_merge_u32 a b : is_u32 a -> is_u32 b -> is_u32 (MaxLattice_merge a b).
Proof. intros Ha Hb. rewrite MaxLattice_merge_max by done. unfold is_u32 in *. lia. Qed.

#[export] Instance MaxLattice_semilattice : Semilattice is_u32 MaxLattice_merge.
Proof.
  split; intros; rewrite ?MaxLattice_merge_max by auto using MaxLattice_merge_u32; unfold is_u32 in *; lia.
Qed.

Lemma foldl_insert `{Countable T} (l : list T) (s : gset T) :
  foldl (fun s x => SetLattice_insert x s) s l = s ∪ list_to_set l.
Proof. revert s. induction l as [|x l IH]; intros s; simpl; [set_solver|]. rewrite IH. unfold SetLattice_insert. set_solver. Qed.

Section layout.
Context `{Layout}.

Lemma set_iter_to_set `{Countable T} (s : gset T) : list_to_set (set_iter s) = s.
Proof. apply set_eq. intros x. by rewrite elem_of_list_to_set, elem_of_set_iter. Qed.

Lemma SetLattice_merge_union `{Countable T} (s e : gset T) : SetLattice_merge s e = s ∪ e.
Proof. unfold SetLattice_merge. by rewrite foldl_insert, set_iter_to_set. Qed.

#[global] Instance SetLattice_semilattice `{Countable T} : Semilattice (fun _ => True) (SetLattice_merge (T := T)).
Proof. split; intros; rewrite ?SetLattice_merge_union; set_solver. Qed.

Lemma list_to_map_iter `{Countable K} {V} (m : gmap K V) : list_to_map (map_iter m) = m.
Proof.
  rewrite <- (list_to_map_to_list m) at 2. apply list_to_map_proper; [apply NoDup_fst_map_iter|]. unfold map_iter. apply order_perm.
Qed.

Section maps.
Context `{Countable K} {V : Type} (merge : V -> V -> V).

(** The loop that inserts the pairs of a map is the pointwise merge. *)
Definition pointwise (a b : gmap K V) : gmap K V := union_with (fun x y => Some (merge x y)) a b.

Lemma lookup_pointwise a b k :
  pointwise a b !! k = match a !! k, b !! k with
                       | Some x, Some y => Some (merge x y)
                       | Some x, None => Some x
                       | None, o => o
                       end.
Proof. unfold pointwise. rewrite lookup_union_with. by destruct (a !! k), (b !! k). Qed.

Lemma foldl_insert_pair (l : list (K * V)) (m : gmap K V) :
  NoDup l.*1 -> foldl (fun acc '(k, v) => MapLattice_insert_pair merge k v acc) m l = pointwise m (list_to_map l).
Proof.
  revert m. induction l as [|[k v] l IH]; intros m Hnd; simpl.
  { apply map_eq. intros k. rewrite lookup_pointwise, lookup_empty. by destruct (m !! k). }
  apply NoDup_cons in Hnd as [Hk Hnd]. rewrite IH by done. apply map_eq. intros k'. rewrite !lookup_pointwise.
  unfold MapLattice_insert_pair. apply not_elem_of_list_to_map_1 in Hk. simpl in Hk.
  destruct (decide (k = k')) as [<-|Hne]; [rewrite Hk|]; destruct (m !! k) eqn:E; by simplify_map_eq.
Qed.

Lemma MapLattice_merge_pointwise (a b : gmap K V) : MapLattice_merge merge a b = pointwise a b.
Proof. unfold MapLattice_merge. rewrite foldl_insert_pair by apply NoDup_fst_map_iter. by rewrite list_to_map_iter. Qed.

#[global] Instance MapLattice_semilattice ok `{!Semilattice ok merge} :
  Semilattice (map_Forall (M := gmap K V) (fun _ => ok)) (MapLattice_merge merge).
Proof.
  split; intros; rewrite ?MapLattice_merge_pointwise.
  - intros k x. rewrite lookup_pointwise. destruct (a !! k) eqn:Ea, (b !! k) eqn:Eb; intros [= <-]; [apply (merge_ok (Semilattice := Semilattice0))|..]; eauto.
  - apply map_eq. intros k. rewrite lookup_pointwise. destruct (a !! k) eqn:Ea; [|done]. f_equal. apply (merge_idemp (Semilattice := Semilattice0)). eauto.
  - apply map_eq. intros k. rewrite !lookup_pointwise. destruct (a !! k) eqn:Ea, (b !! k) eqn:Eb; try done. f_equal. apply (merge_comm (Semilattice := Semilattice0)); eauto.
  - apply map_eq. intros k. rewrite !lookup_pointwise.
    destruct (a !! k) eqn:Ea, (b !! k) eqn:Eb, (c !! k) eqn:Ec; try done. f_equal. apply (merge_assoc (Semilattice := Semilattice0)); eauto.
Qed.
End maps.
End layout.

(** * Vector clocks *)
Definition clock_ok (c : VectorClock) : Prop := map_Forall (fun _ => is_u32) c.
#[export] Instance clock_ok_dec c : Decision (clock_ok c).
Proof. unfold clock_ok, is_u32. apply _. Defined.
(** Every component of the first is one of the second, and not later. *)
Definition clock_le (a b : VectorClock) : Prop :=
  forall k x, a !! k = Some x -> exists y, b !! k = Some y /\ x <= y.

Lemma clock_le_iff (L : Layout) a b : clock_ok a -> clock_ok b -> VectorClock_merge a b = b <-> clock_le a b.
Proof.
  intros Ha Hb. unfold VectorClock_merge. rewrite MapLattice_merge_pointwise. split.
  - intros E k x Hx. pose proof (lookup_pointwise MaxLattice_merge a b k) as Ek.
    rewrite E, Hx in Ek. destruct (b !! k) as [y|] eqn:Ey; [|done]. exists y. split; [done|].
    injection Ek as Ek. rewrite MaxLattice_merge_max in Ek by eauto. lia.
  - intros Hle. apply map_eq. intros k. rewrite lookup_pointwise. destruct (a !! k) as [x|] eqn:Ex; [|done].
    destruct (Hle k x Ex) as (y & Ey & Hxy). rewrite Ey. f_equal. rewrite MaxLattice_merge_max by eauto. lia.
Qed.

Lemma clock_le_antisym a b : clock_le a b -> clock_le b a -> a = b.
Proof.
  intros Hab Hba. apply map_eq. intros k. destruct (a !! k) as [x|] eqn:Ex.
  - destruct (Hab k x Ex) as (y & Ey & ?), (Hba k y Ey) as (x' & Ex' & ?). simplify_eq. rewrite Ey. f_equal. lia.
  - destruct (b !! k) as [y|] eqn:Ey; [|done]. destruct (Hba k y Ey) as (? & ? & ?). by simplify_eq.
Qed.

(** C40: merging two vector clocks gives their least upper bound in the causal
    order, whatever the order in which the hash tables are walked; so clocks
    merged in any order and any grouping, even twice, agree. *)
Theorem vector_clock_merge_is_join (L L' : Layout) (a b c : VectorClock)
    (Ha : clock_ok a) (Hb : clock_ok b) (Hc : clock_ok c) :
  let join := @VectorClock_merge L in
  let join' := @VectorClock_merge L' in
  clock_ok (join a b) /\ clock_le a (join a b) /\ clock_le b (join a b) /\
  (clock_le a c -> clock_le b c -> clock_le (join a b) c) /\
  join a b = join' b a /\ join a (join b c) = join' (join' a b) c /\ join a a = a.
Proof.
  intros join join'. pose proof (@MapLattice_semilattice L str _ _ Z MaxLattice_merge is_u32 _) as S.
  assert (forall x y, join' x y = join x y) as EL
    by (intros; unfold join, join', VectorClock_merge; by rewrite !MapLattice_merge_pointwise).
  rewrite !EL. assert (clock_ok (join a b)) as Hab by (by apply (merge_ok (Semilattice := S))).
  assert (forall x y, clock_ok x -> clock_ok y -> join x (join x y) = join x y) as Habs.
  { intros x y Hx Hy. unfold join, VectorClock_merge. rewrite merge_assoc by done. by rewrite (merge_idemp x). }
  split; [done|]. split; [apply (clock_le_iff L); auto|]. split.
  { apply (clock_le_iff L); [done..|]. assert (join a b = join b a) as -> by (by apply (merge_comm (Semilattice := S))). by apply Habs. }
  split; [|split; [by apply merge_comm|split; [by apply merge_assoc|by apply merge_idemp]]].
  intros Hac Hbc. apply (clock_le_iff L) in Hac, Hbc; [|done..]. apply (clock_le_iff L); [done..|].
  unfold join, VectorClock_merge in *. rewrite <- merge_assoc by done. by rewrite Hbc.
Qed.

Lemma vector_clock_merge_is_join_witness :
  @VectorClock_merge layout_id {[lit "a" := 1; lit "b" := 3]} {[lit "a" := 2]} =
  @VectorClock_merge layout_rev {[lit "a" := 2]} {[lit "a" := 1; lit "b" := 3]}.
Proof.
  destruct (vector_clock_merge_is_join layout_id layout_rev {[lit "a" := 1; lit "b" := 3]} {[lit "a" := 2]} ∅)
    as (_ & _ & _ & _ & E & _); [apply (bool_decide_unpack _); by vm_compute..|]. exact E.
Defined.

(** * Last writer wins *)
(** No two writes of one time have different values. *)
Definition stamped (l : list TimestampValuePair) : Prop :=
  forall p q, p ∈ l -> q ∈ l -> tv_timestamp p = tv_timestamp q -> p = q.

(** The latest of some writes. *)
Definition latest (p : TimestampValuePair) (l : list TimestampValuePair) : Prop :=
  p ∈ l /\ forall q, q ∈ l -> tv_timestamp q <= tv_timestamp p.

Lemma LWWPairLattice_merge_or a b :
  LWWPairLattice_merge a b = (if tv_timestamp a <=? tv_timestamp b then b else a).
Proof. unfold LWWPairLattice_merge. by destruct b. Qed.

Lemma foldl_lww_latest (l : list TimestampValuePair) p : latest (foldl LWWPairLattice_merge p l) (p :: l).
Proof.
  revert p. induction l as [|q l IH]; intros p; simpl.
  { split; [set_solver|]. intros q. rewrite list_elem_of_singleton. by intros ->. }
  destruct (IH (LWWPairLattice_merge p q)) as [Hin Hmax]. rewrite LWWPairLattice_merge_or in *.
  assert (forall x, x = p \/ x = q -> tv_timestamp x <= tv_timestamp (if tv_timestamp p <=? tv_timestamp q then q else p)) as Hpq.
  { destruct (Z.leb_spec (tv_timestamp p) (tv_timestamp q)); intros x [-> | ->]; lia. }
  split; [destruct (_ <=? _); set_solver|].
  intros r. rewrite !elem_of_cons. intros [-> | [-> | Hr]]; [| |by apply Hmax; right].
  all: etrans; [apply Hpq; auto|apply Hmax; left].
Qed.

(** Replicas of a last-writer-wins register that receive the same writes
    converge: whatever the order and however often each write is delivered,
    they hold the latest write, provided writes with the same timestamp carry
    the same value. *)
Theorem lww_replicas_converge (w : TimestampValuePair) (l l' : list TimestampValuePair) (w' : TimestampValuePair)
    (Hsame : forall p, p ∈ w :: l <-> p ∈ w' :: l') (Hstamped : stamped (w :: l)) :
  foldl LWWPairLattice_merge w l = foldl LWWPairLattice_merge w' l' /\ latest (foldl LWWPairLattice_merge w l) (w :: l).
Proof.
  pose proof (foldl_lww_latest l w) as [Hin Hmax]. pose proof (foldl_lww_latest l' w') as [Hin' Hmax'].
  split; [|done]. apply Hstamped; [done|by apply Hsame|]. apply Hsame in Hin'.
  pose proof (Hmax _ Hin'). apply Hsame in Hin. pose proof (Hmax' _ Hin). lia.
Qed.

Lemma lww_replicas_converge_witness :
  foldl LWWPairLattice_merge (mk_TimestampValuePair 1 (lit "a")) [mk_TimestampValuePair 3 (lit "b"); mk_TimestampValuePair 2 (lit "c")] =
  foldl LWWPairLattice_merge (mk_TimestampValuePair 3 (lit "b"))
    [mk_TimestampValuePair 2 (lit "c"); mk_TimestampValuePair 1 (lit "a"); mk_TimestampValuePair 2 (lit "c")].
Proof.
  refine (proj1 (lww_replicas_converge (mk_TimestampValuePair 1 (lit "a"))
    [mk_TimestampValuePair 3 (lit "b"); mk_TimestampValuePair 2 (lit "c")]
    [mk_TimestampValuePair 2 (lit "c"); mk_TimestampValuePair 1 (lit "a"); mk_TimestampValuePair 2 (lit "c")]
    (mk_TimestampValuePair 3 (lit "b")) _ _)).
  - intros p. rewrite !elem_of_cons. tauto.
  - intros p q. rewrite !elem_of_cons, !elem_of_nil. intros [-> |[-> |[-> |[]]]] [-> |[-> |[-> |[]]]]; done.
Defined.

(** * Causal registers *)
(** Merging a version into a causal register follows causality: a version
    whose clock is at or past the register's replaces it, one whose clock the
    register has passed changes nothing, and of concurrent versions the clocks
    are joined and all values kept. *)
Theorem causal_merge_follows_causality (L : Layout) (e p : VectorClockValuePair)
    (He : clock_ok (vv_vector_clock e)) (Hp : clock_ok (vv_vector_clock p)) :
  let r := SingleKeyCausalLattice_merge e p in
  (clock_le (vv_vector_clock e) (vv_vector_clock p) -> r = p) /\
  (clock_le (vv_vector_clock p) (vv_vector_clock e) -> vv_vector_clock e <> vv_vector_clock p -> r = e) /\
  (~ clock_le (vv_vector_clock e) (vv_vector_clock p) -> ~ clock_le (vv_vector_clock p) (vv_vector_clock e) ->
     r = mk_VectorClockValuePair (VectorClock_merge (vv_vector_clock e) (vv_vector_clock p)) (vv_value e ∪ vv_value p)).
Proof.
  intros r. pose proof (clock_le_iff L _ _ He Hp) as Hep. pose proof (clock_le_iff L _ _ Hp He) as Hpe.
  assert (VectorClock_merge (vv_vector_clock p) (vv_vector_clock e) = VectorClock_merge (vv_vector_clock e) (vv_vector_clock p)) as Ec
    by (by apply (merge_comm (ok := clock_ok))).
  rewrite Ec in Hpe. unfold r, SingleKeyCausalLattice_merge. rewrite SetLattice_merge_union.
  destruct (decide (_ = vv_vector_clock p)) as [E|E].
  - split; [intros _; rewrite E; by destruct p|]. split; [intros Hle Hne|intros Hn; tauto].
    apply Hpe in Hle. congruence.
  - split; [tauto|]. destruct (decide (_ = vv_vector_clock e)) as [E'|E']; [|tauto].
    split; [intros _ _; rewrite E'; by destruct e|tauto].
Qed.

Lemma causal_merge_follows_causality_witness :
  @SingleKeyCausalLattice_merge layout_id (mk_VectorClockValuePair {[lit "a" := 1]} {[lit "x"]})
    (mk_VectorClockValuePair {[lit "b" := 1]} {[lit "y"]}) =
  mk_VectorClockValuePair (@VectorClock_merge layout_id {[lit "a" := 1]} {[lit "b" := 1]}) ({[lit "x"]} ∪ {[lit "y"]}).
Proof.
  destruct (causal_merge_follows_causality layout_id (mk_VectorClockValuePair {[lit "a" := 1]} {[lit "x"]})
    (mk_VectorClockValuePair {[lit "b" := 1]} {[lit "y"]})) as (_ & _ & E);
    [apply (bool_decide_unpack _); by vm_compute..|]. apply E.
  - intros Hle. destruct (Hle (lit "a") 1) as (y & Hy & _); [done|by vm_compute in Hy].
  - intros Hle. destruct (Hle (lit "b") 1) as (y & Hy & _); [done|by vm_compute in Hy].
Defined.

(** The merge of causal registers is not associative: a version whose clock is
    the join of two others replaces them or is replaced by them. *)
Lemma causal_merge_not_associative (L : Layout) :
  let x := mk_VectorClockValuePair {[lit "a" := 1]} {[lit "1"]} in
  let y := mk_VectorClockValuePair {[lit "b" := 1]} {[lit "2"]} in
  let z := mk_VectorClockValuePair {[lit "a" := 1; lit "b" := 1]} {[lit "3"]} in
  vv_value (SingleKeyCausalLattice_merge (SingleKeyCausalLattice_merge z x) y) = {[lit "3"]} /\
  vv_value (SingleKeyCausalLattice_merge z (SingleKeyCausalLattice_merge x y)) = {[lit "1"; lit "2"]}.
Proof.
  intros x y z. unfold SingleKeyCausalLattice_merge, VectorClock_merge.
  rewrite !MapLattice_merge_pointwise, !SetLattice_merge_union. by vm_compute.
Qed.

(** * Encoding *)
Section encoding.
Context `{Layout}.

Lemma copy_clock_id (vc : VectorClock) : copy_clock vc = vc.
Proof.
  unfold copy_clock. rewrite <- (list_to_map_iter vc) at 2. pose proof (NoDup_fst_map_iter vc) as Hnd.
  assert (forall (l : list (str * Z)) (m : gmap str Z), NoDup l.*1 ->
            foldl (fun m '(k, v) => <[k := v]> m) m l = list_to_map l ∪ m) as E.
  { induction l as [|[k v] l IH]; intros m Hl; simpl; [by rewrite map_empty_union|].
    apply NoDup_cons in Hl as [Hk Hl]. rewrite IH by done. apply not_elem_of_list_to_map_1 in Hk. simpl in Hk.
    rewrite <- insert_union_l, insert_union_r by done. done. }
  rewrite E by done. by rewrite map_union_empty.
Qed.

Lemma insert_clock_id (m : gmap str Z) : insert_clock m = m.
Proof.
  unfold insert_clock. rewrite foldl_insert_pair by apply NoDup_fst_map_iter. rewrite list_to_map_iter.
  apply map_eq. intros k. by rewrite lookup_pointwise, lookup_empty.
Qed.

Lemma insert_values_iter (s : gset str) : insert_values (set_iter s) = s.
Proof. unfold insert_values. rewrite foldl_insert, set_iter_to_set. set_solver. Qed.

End encoding.

(** The two ends may walk their tables in different orders. *)
Lemma insert_deps_iter (L L' : Layout) (deps : gmap str VectorClock) :
  foldl (fun acc dep => MapLattice_insert_pair (@VectorClock_merge L') (kv_key dep)
                          (@insert_clock L' (kv_vector_clock dep)) acc)
    ∅ ((fun '(key, vc) => mk_KeyVersion key (@copy_clock L vc)) <$> @map_iter L _ _ _ _ deps) = deps.
Proof.
  transitivity (foldl (fun acc '(k, v) => MapLattice_insert_pair (@VectorClock_merge L') k v acc) ∅ (@map_iter L _ _ _ _ deps)).
  - generalize (∅ : gmap str VectorClock). induction (@map_iter L _ _ _ _ deps) as [|[k v] l IH]; intros m; [done|].
    cbn [fmap list_fmap foldl kv_key kv_vector_clock]. rewrite insert_clock_id, copy_clock_id. apply IH.
  - rewrite foldl_insert_pair by apply NoDup_fst_map_iter. rewrite list_to_map_iter.
    apply map_eq. intros k. by rewrite lookup_pointwise, lookup_empty.
Qed.

(** Every lattice value read back from the durable store is the value that
    was written: encoding and then decoding a register, a set, a causal and a
    multi-key causal value gives it back, dependencies included, even if the
    two ends walk their hash tables in different orders. *)
Theorem lattice_encoding_roundtrip (L L' : Layout) (C1 : Codec LWWValue) (C2 : Codec SetValue)
    (C3 : Codec SingleKeyCausalValue) (C4 : Codec MultiKeyCausalValue)
    (r : TimestampValuePair) (s : gset str) (c : VectorClockValuePair) (k : MultiKeyCausalPayload) :
  deserialize_lww (serialize_lww r) = r /\
  deserialize_set (@serialize_set L C2 s) = s /\
  @to_vector_clock_value_pair L' (deserialize_causal (@serialize_causal L C3 c)) = c /\
  @to_multi_key_causal_payload L' (deserialize_multi_key_causal (@serialize_multi_key_causal L C4 k)) = k.
Proof.
  unfold deserialize_lww, serialize_lww, deserialize_set, serialize_set, deserialize_causal, serialize_causal,
    deserialize_multi_key_causal, serialize_multi_key_causal. rewrite !parse_serialize.
  split; [by destruct r|]. split; [exact (insert_values_iter s)|]. split.
  - destruct c. unfold to_vector_clock_value_pair. simpl. by rewrite copy_clock_id, insert_clock_id, insert_values_iter.
  - destruct k as [vc deps vs]. unfold to_multi_key_causal_payload. cbn [mkv_vector_clock mkv_dependencies mkv_values mp_vector_clock mp_dependencies mp_value].
    by rewrite insert_deps_iter, copy_clock_id, insert_clock_id, insert_values_iter.
Qed.
