(* ===== verification/KvsClient.v ===== *)
(** The client of the durable store ([common/include/anna_client/kvs_client.hpp])
    and the blocking requests of [common/include/requests.hpp]. A request whose
    key has no known server waits for the routing tier; one that was sent waits
    for its answer; both time out. *)
From stdpp Require Import prelude gmap strings list fin_sets.
From Stdlib Require Import ZArith Lia Ascii.
From S2P Require Import Prelude Cpp Effects Proto Common Threads Trigger.

Open Scope Z_scope.

(** * State *)
Record PendingRequest := mk_PendingRequest { tp_ : Z; worker_addr_ : str; request_ : KeyRequest }.

Record kvs := mk_kvs {
  k_rid : Z;
  k_seed : Z;
  k_key_address_cache : gmap str (gset str);
  pending_request_map_ : gmap str (Z * list KeyRequest);
  pending_get_response_map_ : gmap str PendingRequest;
  pending_put_response_map_ : gmap str (gmap str PendingRequest) }.

Definition set_k_rid x (k : kvs) := mk_kvs x (k_seed k) (k_key_address_cache k) (pending_request_map_ k)
  (pending_get_response_map_ k) (pending_put_response_map_ k).
Definition set_k_seed x (k : kvs) := mk_kvs (k_rid k) x (k_key_address_cache k) (pending_request_map_ k)
  (pending_get_response_map_ k) (pending_put_response_map_ k).
Definition upd_cache f (k : kvs) := mk_kvs (k_rid k) (k_seed k) (f (k_key_address_cache k)) (pending_request_map_ k)
  (pending_get_response_map_ k) (pending_put_response_map_ k).
Definition upd_pending f (k : kvs) := mk_kvs (k_rid k) (k_seed k) (k_key_address_cache k) (f (pending_request_map_ k))
  (pending_get_response_map_ k) (pending_put_response_map_ k).
Definition upd_gets f (k : kvs) := mk_kvs (k_rid k) (k_seed k) (k_key_address_cache k) (pending_request_map_ k)
  (f (pending_get_response_map_ k)) (pending_put_response_map_ k).
Definition upd_puts f (k : kvs) := mk_kvs (k_rid k) (k_seed k) (k_key_address_cache k) (pending_request_map_ k)
  (pending_get_response_map_ k) (f (pending_put_response_map_ k)).

(** The constructor's arguments. *)
Record kvs_conf := mk_kvs_conf { k_routing_threads : list UserRoutingThread; k_ut : UserThread; k_timeout : Z }.

Definition kvs_init (seed : Z) : kvs := mk_kvs 0 seed ∅ ∅ ∅ ∅.

Inductive kvs_out :=
  | ToServer (addr : str) (r : KeyRequest)
  | ToRouting (addr : str) (r : KeyAddressRequest).

Abbreviation KM := (M kvs kvs_out).

(** * Private methods *)
Definition kvs_get_request_id (conf : kvs_conf) : KM str :=
  rid ← gets k_rid;
  let rid := u32 (rid + 1) in
  let rid := if rid mod 10000 =? 0 then 0 else rid in
  _ ← modify (set_k_rid (u32 (rid + 1)));
  mret (ut_ip (k_ut conf) ++ lit ":" ++ to_string (ut_tid (k_ut conf)) ++ lit "_" ++ to_string rid).

Definition draw_kvs `{Rand} (n : nat) : KM nat := draw k_seed set_k_seed n.

Definition get_routing_thread `{Rand} (conf : kvs_conf) : KM str :=
  i ← draw_kvs (length (k_routing_threads conf));
  t ← lift (vec_at (k_routing_threads conf) i);
  mret (urt_key_address_connect_address t).

Definition query_routing_async `{Rand} (conf : kvs_conf) (key : str) : KM () :=
  rid ← kvs_get_request_id conf;
  rt_thread ← get_routing_thread conf;
  emit (ToRouting rt_thread (mk_KeyAddressRequest (ut_key_address_connect_address (k_ut conf)) [key] rid)).

(** The servers known for the key; the routing tier is asked when there are none
    and nobody has asked yet. *)
Definition get_all_worker_threads `{Rand} (conf : kvs_conf) (key : str) : KM (gset str) :=
  cached ← gets (fun k => at_or ∅ key (k_key_address_cache k));
  if decide (cached = ∅) then
    asked ← gets (fun k => pending_request_map_ k !! key);
    _ ← (match asked with Some _ => mret () | None => query_routing_async conf key end);
    mret ∅
  else mret cached.

Definition get_worker_thread `{Layout, Rand} (conf : kvs_conf) (key : str) : KM str :=
  local_cache ← get_all_worker_threads conf key;
  if decide (size local_cache = 0%nat) then mret []
  else
    i ← draw_kvs (size local_cache);
    lift (vec_at (set_iter local_cache) i).

Definition request_key (r : KeyRequest) : res str := kt_key <$> vec_at (kr_tuples r) 0.

(** [request.mutable_tuples(0)->set_address_cache_size(n)] *)
Definition set_address_cache_size (n : Z) (r : KeyRequest) : KeyRequest :=
  mk_KeyRequest (kr_type r)
    (alter (fun t => mk_KeyTuple (kt_key t) (kt_lattice_type t) (kt_error t) (kt_payload t) n (kt_invalidate t)) 0%nat (kr_tuples r))
    (kr_response_address r) (kr_request_id r).

(** A request without a server is kept for the routing tier's answer. *)
Definition keep_request (now : Z) (key : str) (request : KeyRequest) (k : kvs) : kvs :=
  upd_pending (fun m => let '(tp, reqs) := at_or (now, []) key m in <[key := (tp, reqs ++ [request])]> m) k.

(** A request that was sent is kept for its answer; one that already is keeps
    its time. *)
Definition track_get (now : Z) (key worker : str) (request : KeyRequest) (k : kvs) : kvs :=
  upd_gets (fun m => let p := at_or (mk_PendingRequest now [] request) key m in
    <[key := mk_PendingRequest (tp_ p) worker (request_ p)]> m) k.
Definition track_put (now : Z) (key worker : str) (request : KeyRequest) (k : kvs) : kvs :=
  upd_puts (fun m => let ids := at_or ∅ key m in
    let p := at_or (mk_PendingRequest now [] request) (kr_request_id request) ids in
    <[key := <[kr_request_id request := mk_PendingRequest (tp_ p) worker (request_ p)]> ids]> m) k.

(** The request is taken by reference and changed: the result is the changed
    request, or [None] if it was kept for the routing tier. *)
Definition try_request `{Layout, Rand} (conf : kvs_conf) (now : Z) (request : KeyRequest) : KM (option KeyRequest) :=
  key ← lift (request_key request);
  worker ← get_worker_thread conf key;
  if decide (worker = []) then _ ← modify (keep_request now key request); mret None
  else
    n ← gets (fun k => size (at_or ∅ key (k_key_address_cache k)));
    let request := set_address_cache_size (u32 (Z.of_nat n)) request in
    _ ← emit (ToServer worker request);
    _ ← modify (if decide (kr_type request = GET) then track_get now key worker request
                else track_put now key worker request);
    mret (Some request).

Definition invalidate_cache_for_key (key : str) (k : kvs) : kvs := upd_cache (delete key) k.

(** [tokens[1]] of an address cut at the colons: the host. *)
Definition signature (addr : str) : res str := vec_at (split addr ":"%char) 1.

(** Whether some server of the key has that host; every address is looked at. *)
Fixpoint has_signature (sig : str) (addrs : list str) : res bool :=
  match addrs with
  | [] => Ok false
  | a :: addrs => v ← signature a; rest ← has_signature sig addrs; Ok (bool_decide (v = sig) || rest)
  end.

Fixpoint keys_of_worker `{Layout} (sig : str) (entries : list (str * gset str)) : res (list str) :=
  match entries with
  | [] => Ok []
  | (key, addrs) :: entries =>
      b ← has_signature sig (set_iter addrs);
      rest ← keys_of_worker sig entries;
      Ok ((if b : bool then [key] else []) ++ rest)
  end.

Definition invalidate_cache_for_worker `{Layout} (worker : str) : KM () :=
  sig ← lift (signature worker);
  entries ← gets (fun k => map_iter (k_key_address_cache k));
  remove_set ← lift (keys_of_worker sig entries);
  modify (upd_cache (fun m => foldl (fun m key => delete key m) m remove_set)).

(** Whether the request is to be issued again. *)
Definition check_tuple (tuple : KeyTuple) : KM bool :=
  if decide (kt_error tuple = WRONG_THREAD) then _ ← modify (invalidate_cache_for_key (kt_key tuple)); mret true
  else if kt_invalidate tuple then _ ← modify (invalidate_cache_for_key (kt_key tuple)); mret false
  else mret false.

Definition prepare_data_request (conf : kvs_conf) (type : RequestType) (tuple : KeyTuple) : KM KeyRequest :=
  rid ← kvs_get_request_id conf;
  mret (mk_KeyRequest type [tuple] (ut_response_connect_address (k_ut conf)) rid).

Definition generate_bad_response (req : KeyRequest) : res KeyResponse :=
  t ← vec_at (kr_tuples req) 0;
  Ok (mk_KeyResponse (kr_type req)
        [if decide (kr_type req = PUT)
         then mk_KeyTuple (kt_key t) (kt_lattice_type t) NO_ERROR (kt_payload t) 0 false
         else mk_KeyTuple (kt_key t) NONE NO_ERROR [] 0 false]
        (kr_request_id req) TIMEOUT).

(** * The interface *)
Definition put_async `{Layout, Rand} (conf : kvs_conf) (now : Z) (key payload : str) (lattice_type : LatticeType) : KM str :=
  request ← prepare_data_request conf PUT (mk_KeyTuple key lattice_type NO_ERROR payload 0 false);
  _ ← try_request conf now request;
  mret (kr_request_id request).

(** A key that is awaited from a server is not asked for again. *)
Definition get_async `{Layout, Rand} (conf : kvs_conf) (now : Z) (key : str) : KM () :=
  awaited ← gets (fun k => pending_get_response_map_ k !! key);
  match awaited with
  | Some _ => mret ()
  | None =>
      request ← prepare_data_request conf GET (mk_KeyTuple key NONE NO_ERROR [] 0 false);
      _ ← try_request conf now request;
      mret ()
  end.

Definition clear_cache (k : kvs) : kvs := upd_cache (fun _ => ∅) k.

(** * Receiving *)
(** The requests that waited for the servers of the key are issued. One that
    still finds no server is appended to the vector the loop walks. *)
Definition retry_requests `{Layout, Rand} (conf : kvs_conf) (now : Z) (reqs : list KeyRequest) : KM () :=
  for_each (fun req => r ← try_request conf now req;
                       match r with Some _ => mret () | None => lift (Fault DanglingPtr) end) reqs.

Definition add_addresses (key : str) (ips : list str) (k : kvs) : kvs :=
  upd_cache (fun m => foldl (fun m ip => <[key := {[ip]} ∪ at_or ∅ key m]> m) m ips) k.

Definition recv_address `{Layout, Rand} (conf : kvs_conf) (now : Z) (response : KeyAddressResponse) : KM () :=
  a ← lift (vec_at (kap_addresses response) 0);
  let key := ka_key a in
  pending ← gets (fun k => pending_request_map_ k !! key);
  match pending with
  | None => mret ()
  | Some (_, reqs) =>
      if decide (kap_error response = NO_SERVERS) then
        _ ← modify (upd_pending <[key := (now, reqs)]>);
        query_routing_async conf key
      else
        _ ← modify (add_addresses key (ka_ips a));
        _ ← retry_requests conf now reqs;
        modify (upd_pending (delete key))
  end.

(** The stored request is re-issued: its time is new, and so is what
    [try_request] changed of it. *)
Definition retry_get `{Layout, Rand} (conf : kvs_conf) (now : Z) (key : str) (p : PendingRequest) : KM () :=
  _ ← modify (upd_gets <[key := mk_PendingRequest now (worker_addr_ p) (request_ p)]>);
  r ← try_request conf now (request_ p);
  match r with
  | Some request => modify (upd_gets (alter (fun p => mk_PendingRequest (tp_ p) (worker_addr_ p) request) key))
  | None => mret ()
  end.

Definition recv_get `{Layout, Rand} (conf : kvs_conf) (now : Z) (response : KeyResponse) (tuple : KeyTuple)
    : KM (list KeyResponse) :=
  let key := kt_key tuple in
  awaited ← gets (fun k => pending_get_response_map_ k !! key);
  match awaited with
  | None => mret []
  | Some p =>
      again ← check_tuple tuple;
      if again : bool then _ ← retry_get conf now key p; mret []
      else _ ← modify (upd_gets (delete key)); mret [response]
  end.

Definition retry_put `{Layout, Rand} (conf : kvs_conf) (now : Z) (key id : str) (p : PendingRequest) : KM () :=
  _ ← modify (upd_puts (alter <[id := mk_PendingRequest now (worker_addr_ p) (request_ p)]> key));
  r ← try_request conf now (request_ p);
  match r with
  | Some request => modify (upd_puts (alter (alter (fun p => mk_PendingRequest (tp_ p) (worker_addr_ p) request) id) key))
  | None => mret ()
  end.

(** The put is forgotten, and the key with its last one. *)
Definition forget_put (key id : str) (k : kvs) : kvs :=
  upd_puts (fun m =>
    let ids := delete id (at_or ∅ key m) in
    if decide (size ids = 0%nat) then delete key m else <[key := ids]> m) k.

Definition recv_put `{Layout, Rand} (conf : kvs_conf) (now : Z) (response : KeyResponse) (tuple : KeyTuple)
    : KM (list KeyResponse) :=
  let key := kt_key tuple in
  let id := kp_response_id response in
  awaited ← gets (fun k => pending_put_response_map_ k !! key ≫= (fun ids => ids !! id));
  match awaited with
  | None => mret []
  | Some p =>
      again ← check_tuple tuple;
      if again : bool then _ ← retry_put conf now key id p; mret []
      else _ ← modify (forget_put key id); mret [response]
  end.

Definition recv_response `{Layout, Rand} (conf : kvs_conf) (now : Z) (response : KeyResponse) : KM (list KeyResponse) :=
  tuple ← lift (vec_at (kp_tuples response) 0);
  if decide (kp_type response = GET) then recv_get conf now response tuple
  else recv_put conf now response tuple.

(** * Time-outs *)
Definition expired (conf : kvs_conf) (now tp : Z) : bool := k_timeout conf <? Z.quot (now - tp) ms.

Definition gc_pending `{Layout} (conf : kvs_conf) (now : Z) : KM (list KeyResponse) :=
  entries ← gets (fun k => map_iter (pending_request_map_ k));
  let old := filter (fun '(_, (tp, _)) => expired conf now tp) entries in
  bad ← lift (mapM generate_bad_response (concat ((fun '(_, (_, reqs)) => reqs) <$> old)));
  _ ← modify (upd_pending (fun m => foldl (fun m key => delete key m) m old.*1));
  mret bad.

(** One time-out: the answer it makes, and the servers it discredits. *)
Definition time_out `{Layout} (p : PendingRequest) : KM KeyResponse :=
  bad ← lift (generate_bad_response (request_ p));
  _ ← invalidate_cache_for_worker (worker_addr_ p);
  mret bad.

Fixpoint time_outs `{Layout} (ps : list PendingRequest) : KM (list KeyResponse) :=
  match ps with
  | [] => mret []
  | p :: ps => bad ← time_out p; rest ← time_outs ps; mret (bad :: rest)
  end.

Definition gc_gets `{Layout} (conf : kvs_conf) (now : Z) : KM (list KeyResponse) :=
  entries ← gets (fun k => map_iter (pending_get_response_map_ k));
  let old := filter (fun '(_, p) => expired conf now (tp_ p)) entries in
  bad ← time_outs old.*2;
  _ ← modify (upd_gets (fun m => foldl (fun m key => delete key m) m old.*1));
  mret bad.

(** The puts by key and id; a key whose puts all timed out stays, without any. *)
Definition put_entries `{Layout} (m : gmap str (gmap str PendingRequest)) : list (str * str * PendingRequest) :=
  concat ((fun '(key, ids) => (fun '(id, p) => (key, id, p)) <$> map_iter ids) <$> map_iter m).

Definition gc_puts `{Layout} (conf : kvs_conf) (now : Z) : KM (list KeyResponse) :=
  entries ← gets (fun k => put_entries (pending_put_response_map_ k));
  let old := filter (fun '(_, _, p) => expired conf now (tp_ p)) entries in
  bad ← time_outs old.*2;
  _ ← modify (upd_puts (fun m => foldl (fun m '(key, id) => alter (delete id) key m) m old.*1));
  mret bad.

Definition receive_async `{Layout, Rand} (conf : kvs_conf) (now : Z) (address : option KeyAddressResponse)
    (response : option KeyResponse) : KM (list KeyResponse) :=
  _ ← (match address with Some a => recv_address conf now a | None => mret () end);
  result ← (match response with Some r => recv_response conf now r | None => mret [] end);
  bad1 ← gc_pending conf now;
  bad2 ← gc_gets conf now;
  bad3 ← gc_puts conf now;
  mret (result ++ bad1 ++ bad2 ++ bad3).

(** * requests.hpp

    The blocking receive, on what the socket yields: a response or, for [None],
    a time-out. [None] as the result: the loop still waits. The counter of the
    time-outs is unsigned. *)
Section receive.
Context {RES : Type} (response_id : RES -> str).

Fixpoint receive (request_ids : gset str) (timeout_limit : Z) (responses : list RES) (inputs : list (option RES))
    : option (bool * list RES) :=
  match inputs with
  | [] => None
  | Some response :: inputs =>
      let known := bool_decide (response_id response ∈ request_ids) in
      let responses := if known then responses ++ [response] else responses in
      let request_ids := request_ids ∖ {[response_id response]} in
      if decide (size request_ids = 0%nat) then Some (true, responses)
      else receive request_ids timeout_limit responses inputs
  | None :: inputs =>
      let timeout_limit := u32 (timeout_limit - 1) in
      if timeout_limit =? 0 then Some (false, []) else receive request_ids timeout_limit responses inputs
  end.

Definition receive_start (request_ids : gset str) (inputs : list (option RES)) : option (bool * list RES) :=
  receive request_ids (u32 (Z.of_nat (size request_ids))) [] inputs.
End receive.
