(* ===== verification/KvsClaims.v ===== *)
(** What the client of the durable store guarantees: whatever the store and the
    routing tier answer or fail to answer, no request is lost. *)
From stdpp Require Import prelude gmap strings list fin_maps fin_sets.
From Stdlib Require Import ZArith Lia Ascii.
From S2P Require Import Prelude Cpp Effects Proto Common Threads Trigger KvsClient.

Open Scope Z_scope.

(** * Well-formed states *)
(** An address with a host part. *)
Definition addr_ok (a : str) : Prop := a <> [] /\ is_ok (signature a).

Record kvs_wf (k : kvs) : Prop := {
  wf_cache key addrs a : k_key_address_cache k !! key = Some addrs -> a ∈ addrs -> addr_ok a;
  wf_pending key tp reqs r : pending_request_map_ k !! key = Some (tp, reqs) -> r ∈ reqs -> request_key r = Ok key;
  wf_gets key p : pending_get_response_map_ k !! key = Some p ->
    request_key (request_ p) = Ok key /\ kr_type (request_ p) = GET /\ addr_ok (worker_addr_ p);
  wf_puts key ids id p : pending_put_response_map_ k !! key = Some ids -> ids !! id = Some p ->
    request_key (request_ p) = Ok key /\ kr_type (request_ p) <> GET /\ kr_request_id (request_ p) = id /\
    addr_ok (worker_addr_ p) }.

Lemma kvs_wf_init seed : kvs_wf (kvs_init seed).
Proof. by split. Qed.

(** * Requests in flight

    A get is known by its key, anything else by its request id. *)
Inductive token := TGet (key : str) | TPut (id : str).

Definition token_of (key : str) (r : KeyRequest) : token :=
  if decide (kr_type r = GET) then TGet key else TPut (kr_request_id r).

(** Waiting for the routing tier; waiting for a server. *)
Definition kept (k : kvs) (t : token) : Prop :=
  exists key tp reqs r, pending_request_map_ k !! key = Some (tp, reqs) /\ r ∈ reqs /\ token_of key r = t.
Definition sent (k : kvs) (t : token) : Prop :=
  match t with
  | TGet key => is_Some (pending_get_response_map_ k !! key)
  | TPut id => exists key ids, pending_put_response_map_ k !! key = Some ids /\ is_Some (ids !! id)
  end.
Definition in_flight (k : kvs) (t : token) : Prop := kept k t \/ sent k t.

(** A response that answers it. *)
Definition answers (r : KeyResponse) (t : token) : Prop :=
  match t with
  | TGet key => kp_type r = GET /\ exists tp, head (kp_tuples r) = Some tp /\ kt_key tp = key
  | TPut id => kp_type r <> GET /\ kp_response_id r = id
  end.

(** Nothing in flight before is neither in flight after nor answered by [rs]. *)
Definition accounted (k k' : kvs) (rs : list KeyResponse) : Prop :=
  forall t, in_flight k t -> in_flight k' t \/ exists r, r ∈ rs /\ answers r t.

(** States that differ in the counter and the seed only. *)
Definition same_tables (k k' : kvs) : Prop :=
  k_key_address_cache k' = k_key_address_cache k /\ pending_request_map_ k' = pending_request_map_ k /\
  pending_get_response_map_ k' = pending_get_response_map_ k /\ pending_put_response_map_ k' = pending_put_response_map_ k.

Lemma same_tables_wf k k' : same_tables k k' -> kvs_wf k -> kvs_wf k'.
Proof.
  intros (E1 & E2 & E3 & E4) [H1 H2 H3 H4].
  split; rewrite ?E1, ?E2, ?E3, ?E4; [exact H1|exact H2|exact H3|exact H4].
Qed.
Lemma same_tables_kept k k' t : same_tables k k' -> kept k t -> kept k' t.
Proof. unfold kept. by intros (_ & -> & _). Qed.
Lemma same_tables_sent k k' t : same_tables k k' -> sent k t -> sent k' t.
Proof. unfold sent. by intros (_ & _ & -> & ->). Qed.
Lemma same_tables_trans k1 k2 k3 : same_tables k1 k2 -> same_tables k2 k3 -> same_tables k1 k3.
Proof. unfold same_tables. intuition congruence. Qed.
Lemma same_tables_refl k : same_tables k k.
Proof. done. Qed.

(** * Finding a server *)
Section client.
Context `{Layout, Rand} (conf : kvs_conf).
Hypothesis Hrouting : k_routing_threads conf <> [].

Lemma draw_kvs_runs n k : (0 < n)%nat ->
  exists i k', draw_kvs n k = Ok (i, k', []) /\ (i < n)%nat /\ same_tables k k'.
Proof.
  intros Hn. unfold draw_kvs, draw. destruct (rand_below_ok (k_seed k) n Hn) as (i & x & Ei).
  exists i, (set_k_seed x k). rewrite Ei. split; [done|]. split; [by eapply rand_below_lt|done].
Qed.

Lemma request_id_runs k : exists id k', kvs_get_request_id conf k = Ok (id, k', []) /\ same_tables k k'.
Proof. unfold kvs_get_request_id. run. eexists _, _. split; done. Qed.

Lemma query_routing_runs key k :
  exists k' o, query_routing_async conf key k = Ok ((), k', o) /\ same_tables k k'.
Proof.
  unfold query_routing_async. destruct (request_id_runs k) as (id & k1 & E1 & S1).
  rewrite (bind_quiet _ _ _ _ _ E1). unfold get_routing_thread. run.
  destruct (draw_kvs_runs (length (k_routing_threads conf)) k1) as (i & k2 & E2 & Hi & S2);
    [destruct (k_routing_threads conf); [done|simpl; lia]|].
  rewrite (bind_quiet _ _ _ _ _ E2). apply lookup_lt_is_Some in Hi as [t Ht]. unfold vec_at. rewrite Ht.
  cbn [res_of_option]. run. eexists _, _. split; [done|]. by eapply same_tables_trans.
Qed.

(** A server is found exactly if one is cached; the tables stay. *)
Lemma get_worker_runs key k : kvs_wf k ->
  exists w k' o, get_worker_thread conf key k = Ok (w, k', o) /\ same_tables k k' /\
    (if decide (at_or ∅ key (k_key_address_cache k) = ∅) then w = [] else addr_ok w).
Proof.
  intros Hk. unfold get_worker_thread, get_all_worker_threads. run.
  destruct (decide (at_or ∅ key (k_key_address_cache k) = ∅)) as [E|E].
  - run. destruct (pending_request_map_ k !! key) as [x|].
    + run. rewrite decide_True by (by rewrite size_empty). by exists [], k, [].
    + destruct (query_routing_runs key k) as (k' & o & E' & S'). exists [], k', (o ++ []).
      split; [|done]. eapply bind_ok_r; [exact E'|]. run. by rewrite decide_True by (by rewrite size_empty).
  - run. rewrite decide_False by (rewrite size_empty_iff; intros E'; by apply E, leibniz_equiv).
    destruct (draw_kvs_runs (size (at_or ∅ key (k_key_address_cache k))) k) as (i & k' & E' & Hi & S').
    { destruct (decide (size (at_or ∅ key (k_key_address_cache k)) = 0%nat)) as [E0|]; [|lia].
      by apply size_empty_inv, leibniz_equiv in E0. }
    rewrite (bind_quiet _ _ _ _ _ E'). rewrite <- length_set_iter in Hi. apply lookup_lt_is_Some in Hi as [a Ha].
    unfold vec_at. rewrite Ha. exists a, k', []. split; [done|]. split; [done|].
    apply list_elem_of_lookup_2 in Ha. rewrite elem_of_set_iter in Ha. unfold at_or in *.
    destruct (k_key_address_cache k !! key) as [addrs|] eqn:Ec; simpl in *; [|set_solver]. by eapply wf_cache.
Qed.

(** * Issuing a request *)
Lemma set_size_key n r key : request_key r = Ok key -> request_key (set_address_cache_size n r) = Ok key.
Proof. unfold request_key, vec_at, set_address_cache_size. destruct (kr_tuples r) as [|tp l]; [done|]. by intros [= <-]. Qed.

Lemma keep_request_spec now key r k : kvs_wf k -> request_key r = Ok key ->
  kvs_wf (keep_request now key r k) /\ kept (keep_request now key r k) (token_of key r) /\
  (forall t, kept k t -> kept (keep_request now key r k) t) /\
  (forall t, sent (keep_request now key r k) t <-> sent k t).
Proof.
  intros Hk Hr. unfold keep_request. set (e := at_or (now, []) key (pending_request_map_ k)).
  assert (forall r', r' ∈ e.2 -> request_key r' = Ok key) as He.
  { unfold e, at_or. destruct (pending_request_map_ k !! key) as [[tp reqs]|] eqn:E; simpl; [|set_solver].
    intros r' Hr'. by eapply wf_pending. }
  destruct e as [tp reqs] eqn:Ee. split; [|split; [|split; [|done]]].
  - split; simpl; [apply (wf_cache k Hk)| |apply (wf_gets k Hk)|apply (wf_puts k Hk)]. fold e. rewrite Ee.
    intros key' tp' reqs' r' [[<- [= <- <-]]|[_ Hl]]%lookup_insert_Some Hin; [|by eapply (wf_pending k Hk)].
    apply elem_of_app in Hin as [Hin|Hin]; [by apply He|]. apply list_elem_of_singleton in Hin as ->. done.
  - exists key, tp, (reqs ++ [r]), r. simpl. fold e. rewrite Ee, lookup_insert_eq. set_solver.
  - intros t (key' & tp' & reqs' & r' & Hl & Hin & Et). destruct (decide (key' = key)) as [->|Hne].
    + exists key, tp, (reqs ++ [r]), r'. simpl. fold e. rewrite Ee, lookup_insert_eq. unfold e, at_or in Ee. rewrite Hl in Ee.
      simpl in Ee. simplify_eq. set_solver.
    + exists key', tp', reqs', r'. simpl. fold e. rewrite Ee, lookup_insert_ne by done. done.
Qed.
Lemma track_get_spec now key w r k : kvs_wf k -> request_key r = Ok key -> kr_type r = GET -> addr_ok w ->
  kvs_wf (track_get now key w r k) /\ sent (track_get now key w r k) (TGet key) /\
  forall t, sent k t -> sent (track_get now key w r k) t.
Proof.
  intros Hk Hr Ht Hw. split; [|split].
  - split; simpl; [apply (wf_cache k Hk)|apply (wf_pending k Hk)| |apply (wf_puts k Hk)].
    intros key' p [[<- <-]|[_ Hl]]%lookup_insert_Some; [|by eapply (wf_gets k Hk)]. simpl.
    unfold at_or. destruct (pending_get_response_map_ k !! key) as [p|] eqn:E; simpl; [|done].
    destruct (wf_gets k Hk _ _ E) as (? & ? & _). done.
  - simpl. rewrite lookup_insert_eq. by eexists.
  - intros [key'|id]; simpl; [|done]. intros Hs. destruct (decide (key' = key)) as [->|Hne];
      [rewrite lookup_insert_eq; by eexists|by rewrite lookup_insert_ne].
Qed.

Lemma track_put_spec now key w r k : kvs_wf k -> request_key r = Ok key -> kr_type r <> GET -> addr_ok w ->
  kvs_wf (track_put now key w r k) /\ sent (track_put now key w r k) (TPut (kr_request_id r)) /\
  forall t, sent k t -> sent (track_put now key w r k) t.
Proof.
  intros Hk Hr Ht Hw. split; [|split].
  - split; simpl; [apply (wf_cache k Hk)|apply (wf_pending k Hk)|apply (wf_gets k Hk)|].
    intros key' ids id p [[<- <-]|[_ Hl]]%lookup_insert_Some; [|by eapply (wf_puts k Hk)].
    assert (forall id p, at_or ∅ key (pending_put_response_map_ k) !! id = Some p ->
      request_key (request_ p) = Ok key /\ kr_type (request_ p) <> GET /\ kr_request_id (request_ p) = id /\ addr_ok (worker_addr_ p)) as Hold.
    { unfold at_or. destruct (pending_put_response_map_ k !! key) as [ids|] eqn:E; simpl; [|done].
      intros id' p'. by apply (wf_puts k Hk). }
    generalize dependent (at_or ∅ key (pending_put_response_map_ k)). intros ids Hold.
    intros [[<- <-]|[_ Hl]]%lookup_insert_Some; [|by apply Hold]. simpl. unfold at_or.
    destruct (ids !! kr_request_id r) as [p|] eqn:E; simpl; [|done].
    destruct (Hold _ _ E) as (? & ? & ? & _). done.
  - simpl. eexists _, _. rewrite lookup_insert_eq. split; [done|]. rewrite lookup_insert_eq. by eexists.
  - intros [key'|id]; simpl; [done|]. intros (key' & ids & Hl & Hid). destruct (decide (key' = key)) as [->|Hne].
    + eexists key, _. rewrite lookup_insert_eq. split; [done|]. apply lookup_insert_is_Some'. right.
      unfold at_or. by rewrite Hl.
    + exists key', ids. by rewrite lookup_insert_ne.
Qed.

(** What [try_request] does with a request for a key. *)
Definition try_post (key : str) (r : KeyRequest) (k : kvs) (out : option KeyRequest) (k' : kvs) : Prop :=
  kvs_wf k' /\ k_key_address_cache k' = k_key_address_cache k /\
  (forall t, kept k t -> kept k' t) /\ (forall t, sent k t -> sent k' t) /\
  match out with
  | Some r' => sent k' (token_of key r) /\ pending_request_map_ k' = pending_request_map_ k /\
      request_key r' = Ok key /\ kr_type r' = kr_type r /\ kr_request_id r' = kr_request_id r
  | None => kept k' (token_of key r) /\ at_or ∅ key (k_key_address_cache k) = ∅
  end.

Lemma try_request_runs now key r k : kvs_wf k -> request_key r = Ok key ->
  exists out k' o, try_request conf now r k = Ok (out, k', o) /\ try_post key r k out k'.
Proof.
  intros Hk Hr. unfold try_request. rewrite Hr. run. destruct (get_worker_runs key k Hk) as (w & k1 & o1 & E1 & S1 & Hw).
  pose proof (same_tables_wf _ _ S1 Hk) as Hk1. pose proof S1 as (Ec & Ep & _).
  destruct (decide (w = [])) as [->|Hne].
  - eexists None, _, _. split; [eapply bind_ok_r; [exact E1|rewrite decide_True by done; run; done]|].
    destruct (keep_request_spec now key r k1 Hk1 Hr) as (Hwf & Hkept & Hmono & Hsent).
    split; [done|]. split; [done|]. split; [intros t Ht; by apply Hmono, (same_tables_kept k k1)|].
    split; [intros t Ht; by apply Hsent, (same_tables_sent k k1)|]. split; [done|].
    destruct (decide _) as [E|E] in Hw; [done|]. by destruct Hw.
  - assert (addr_ok w) as Hok by (destruct (decide _) in Hw; congruence).
    set (n := u32 (Z.of_nat (size (at_or ∅ key (k_key_address_cache k1))))).
    set (r' := set_address_cache_size n r). pose proof (set_size_key n r key Hr) as Hr'. fold r' in Hr'.
    assert (exists k2, (if decide (kr_type r' = GET) then track_get now key w r' else track_put now key w r') k1 = k2 /\
      kvs_wf k2 /\ sent k2 (token_of key r) /\ (forall t, sent k1 t -> sent k2 t) /\
      k_key_address_cache k2 = k_key_address_cache k1 /\ pending_request_map_ k2 = pending_request_map_ k1) as (k2 & E2 & Hwf & Hs & Hmono & Ec2 & Ep2).
    { unfold token_of. change (kr_type r) with (kr_type r'). change (kr_request_id r) with (kr_request_id r').
      eexists. split; [done|]. destruct (decide (kr_type r' = GET)) as [Et|Et].
      - destruct (track_get_spec now key w r' k1) as (? & ? & ?); done.
      - destruct (track_put_spec now key w r' k1) as (? & ? & ?); done. }
    eexists (Some r'), k2, _. split.
    { eapply bind_ok_r; [exact E1|]. rewrite decide_False by done. run. apply bind_emit. run.
      rewrite <- E2. reflexivity. }
    split; [done|]. split; [congruence|]. split; [intros t Ht; apply (same_tables_kept k k1) in Ht; [|done]; unfold kept in *; by rewrite Ep2|].
    split; [intros t Ht; by apply Hmono, (same_tables_sent k k1)|]. split; [done|]. split; [congruence|done].
Qed.

(** * Accounting for every request *)
Lemma accounted_trans k1 k2 k3 rs1 rs2 :
  accounted k1 k2 rs1 -> accounted k2 k3 rs2 -> accounted k1 k3 (rs1 ++ rs2).
Proof.
  intros H1 H2 t Ht. destruct (H1 t Ht) as [Ht2|(r & Hr & Ha)].
  - destruct (H2 t Ht2) as [?|(r & Hr & Ha)]; [by left|]. right. exists r. set_solver.
  - right. exists r. set_solver.
Qed.
Lemma same_tables_accounted k k' : same_tables k k' -> accounted k k' [].
Proof.
  intros Hs t [Ht|Ht]; left; [left; by apply (same_tables_kept k k')|right; by apply (same_tables_sent k k')].
Qed.

(** The computation returns in a well-formed state and accounts for every
    request with the responses it returns. *)
Definition accounts {A} (rs : A -> list KeyResponse) (m : KM A) : Prop :=
  forall k, kvs_wf k -> exists a k' o, m k = Ok (a, k', o) /\ kvs_wf k' /\ accounted k k' (rs a).

(** Requests that waited for servers which are known now are all sent. *)
Lemma retry_requests_runs now key reqs k : kvs_wf k -> Forall (fun r => request_key r = Ok key) reqs ->
  at_or ∅ key (k_key_address_cache k) <> ∅ ->
  exists k' o, retry_requests conf now reqs k = Ok ((), k', o) /\ kvs_wf k' /\
    k_key_address_cache k' = k_key_address_cache k /\ pending_request_map_ k' = pending_request_map_ k /\
    (forall t, sent k t -> sent k' t) /\ forall r, r ∈ reqs -> sent k' (token_of key r).
Proof.
  intros Hk Hreqs Hc. revert k Hk Hc. induction Hreqs as [|r reqs Hr Hreqs IH]; intros k Hk Hc.
  { exists k, []. do 5 (split; [done|]). intros r Hr. by apply not_elem_of_nil in Hr. }
  destruct (try_request_runs now key r k Hk Hr) as (out & k1 & o1 & E1 & Hk1 & Ec & _ & Hs & Hout).
  destruct out as [r'|]; [|by destruct Hout]. destruct Hout as (Hsr & Ep & _).
  destruct (IH k1 Hk1) as (k2 & o2 & E2 & Hk2 & Ec2 & Ep2 & Hs2 & Hall); [by rewrite Ec|].
  exists k2, (o1 ++ o2). split; [|split; [done|split; [congruence|split; [congruence|split; [auto|]]]]].
  - unfold retry_requests. cbn [for_each]. run. eapply bind_ok_r; [exact E1|]. cbn beta iota. rewrite bind_ret. exact E2.
  - intros x [->|Hx]%elem_of_cons; auto.
Qed.

Lemma add_addresses_lookup key ips k key' :
  k_key_address_cache (add_addresses key ips k) !! key' =
  if decide (key' = key /\ ips <> []) then Some (list_to_set ips ∪ at_or ∅ key (k_key_address_cache k))
  else k_key_address_cache k !! key'.
Proof.
  unfold add_addresses. simpl. generalize (k_key_address_cache k). induction ips as [|ip ips IH]; intros m; simpl.
  { rewrite decide_False; [done|]. by intros []. }
  rewrite IH. destruct (decide (key' = key)) as [->|Hne].
  - rewrite (decide_True (P := key = key /\ ip :: ips <> [])) by done.
    assert (at_or ∅ key (<[key := {[ip]} ∪ at_or ∅ key m]> m) = {[ip]} ∪ at_or ∅ key m) as ->
      by (unfold at_or at 1; by rewrite lookup_insert_eq).
    destruct ips as [|ip' ips].
    + rewrite decide_False, lookup_insert_eq by (by intros []). f_equal. set_solver.
    + rewrite decide_True by done. f_equal. set_solver.
  - rewrite !decide_False by (by intros []). by rewrite lookup_insert_ne.
Qed.

(** An answer of the routing tier: it names a key, and, unless no server has
    joined, at least one server, by addresses with a host. *)
Definition address_ok (a : KeyAddressResponse) : Prop :=
  exists ka, head (kap_addresses a) = Some ka /\
    (kap_error a <> NO_SERVERS -> ka_ips ka <> [] /\ Forall addr_ok (ka_ips ka)).

Lemma recv_address_accounts now a : address_ok a -> accounts (fun _ => []) (recv_address conf now a).
Proof.
  intros (ka & Hka & Hips) k Hk. unfold recv_address, vec_at. rewrite head_lookup in Hka. rewrite Hka. cbn [res_of_option]. run.
  destruct (pending_request_map_ k !! ka_key ka) as [[tp reqs]|] eqn:Ep;
    [|exists (), k, []; split; [done|]; split; [done|]; by apply same_tables_accounted].
  destruct (decide (kap_error a = NO_SERVERS)) as [En|En].
  - run. set (k1 := upd_pending <[ka_key ka := (now, reqs)]> k).
    destruct (query_routing_runs (ka_key ka) k1) as (k2 & o & E & Hs). exists (), k2, o. split; [done|]. split.
    + apply (same_tables_wf k1 k2 Hs). split; simpl; [apply (wf_cache k Hk)| |apply (wf_gets k Hk)|apply (wf_puts k Hk)].
      intros key' tp' reqs' r [[<- [= <- <-]]|[_ Hl]]%lookup_insert_Some Hr; by eapply (wf_pending k Hk).
    + eapply (accounted_trans k k1 k2 [] []); [|by apply same_tables_accounted]. intros t [Ht|Ht]; left; [left|by right].
      destruct Ht as (key' & tp' & reqs' & r & Hl & Hr & Et). destruct (decide (key' = ka_key ka)) as [->|Hne].
      * exists (ka_key ka), now, reqs, r. simpl. rewrite lookup_insert_eq. simplify_eq. done.
      * exists key', tp', reqs', r. simpl. by rewrite lookup_insert_ne.
  - run. destruct (Hips En) as [Hne Hok]. set (k1 := add_addresses (ka_key ka) (ka_ips ka) k).
    assert (kvs_wf k1) as Hk1.
    { split; [|apply (wf_pending k Hk)|apply (wf_gets k Hk)|apply (wf_puts k Hk)]. intros key' addrs x. unfold k1.
      rewrite add_addresses_lookup. destruct (decide _) as [[-> _]|_]; [|by apply (wf_cache k Hk)].
      intros [= <-] [Hx|Hx]%elem_of_union; [apply elem_of_list_to_set in Hx; by eapply Forall_forall|].
      unfold at_or in Hx. destruct (k_key_address_cache k !! ka_key ka) as [s0|] eqn:E; simpl in Hx; [|set_solver].
      by eapply (wf_cache k Hk). }
    destruct (retry_requests_runs now (ka_key ka) reqs k1 Hk1) as (k2 & o & E & Hk2 & _ & Ep2 & Hs & Hall).
    + apply Forall_forall. intros r Hr. by eapply (wf_pending k Hk).
    + unfold at_or at 1, k1. rewrite add_addresses_lookup, decide_True by done. simpl.
      destruct (ka_ips ka); [done|]. set_solver.
    + exists (), (upd_pending (delete (ka_key ka)) k2), (o ++ []). split; [by eapply bind_ok_r|]. split.
      * split; simpl; [apply (wf_cache k2 Hk2)| |apply (wf_gets k2 Hk2)|apply (wf_puts k2 Hk2)].
        intros key' tp' reqs' r [_ Hl]%lookup_delete_Some. by eapply (wf_pending k2 Hk2).
      * intros t [Ht|Ht]; left; [|right; by apply Hs].
        destruct Ht as (key' & tp' & reqs' & r & Hl & Hr & Et). destruct (decide (key' = ka_key ka)) as [->|Hne'].
        -- right. simplify_eq. by apply (Hall r).
        -- left. exists key', tp', reqs', r. simpl. rewrite lookup_delete_ne, Ep2 by done. done.
Qed.

(** * Answers *)
(** Forgetting servers. *)
Definition cache_shrinks (k k' : kvs) : Prop :=
  (forall key addrs, k_key_address_cache k' !! key = Some addrs -> k_key_address_cache k !! key = Some addrs) /\
  pending_request_map_ k' = pending_request_map_ k /\ pending_get_response_map_ k' = pending_get_response_map_ k /\
  pending_put_response_map_ k' = pending_put_response_map_ k.

Lemma cache_shrinks_refl k : cache_shrinks k k.
Proof. by split. Qed.
Lemma cache_shrinks_trans k1 k2 k3 : cache_shrinks k1 k2 -> cache_shrinks k2 k3 -> cache_shrinks k1 k3.
Proof. unfold cache_shrinks. intros (Ha & Ea) (Hb & Eb). split; [auto|]. intuition congruence. Qed.
Lemma cache_shrinks_wf k k' : cache_shrinks k k' -> kvs_wf k -> kvs_wf k'.
Proof.
  intros (Hc & E2 & E3 & E4) [H1 H2 H3 H4].
  split; rewrite ?E2, ?E3, ?E4; [intros ??? ?%Hc; by eapply H1|exact H2|exact H3|exact H4].
Qed.
Lemma cache_shrinks_in_flight k k' t : cache_shrinks k k' -> in_flight k t -> in_flight k' t.
Proof. unfold in_flight, kept, sent. by intros (_ & -> & -> & ->). Qed.

Lemma check_tuple_runs tuple k :
  exists b k', check_tuple tuple k = Ok (b, k', []) /\ cache_shrinks k k' /\ (b = true <-> kt_error tuple = WRONG_THREAD).
Proof.
  assert (cache_shrinks k (invalidate_cache_for_key (kt_key tuple) k)) as Hd
    by (split; [intros ?? Hl; simpl in Hl; by apply lookup_delete_Some in Hl as [_ Hl]|done]).
  unfold check_tuple. destruct (decide _) as [E|E]; [by eexists true, _|].
  destruct (kt_invalidate tuple); eexists false, _; (split; [done|]); (split; [try done; apply cache_shrinks_refl|]); split; congruence.
Qed.

Lemma alter_is_Some {V} (f : V -> V) (m : gmap str V) i j : is_Some (m !! j) -> is_Some (alter f i m !! j).
Proof. intros [x Hx]. rewrite lookup_alter. destruct (decide (i = j)) as [->|]; rewrite Hx; by eexists. Qed.

(** Re-issuing a request keeps everything in flight. *)
Lemma retry_get_runs now key p k : kvs_wf k -> pending_get_response_map_ k !! key = Some p ->
  exists k' o, retry_get conf now key p k = Ok ((), k', o) /\ kvs_wf k' /\ forall t, in_flight k t -> in_flight k' t.
Proof.
  intros Hk Hp. destruct (wf_gets k Hk _ _ Hp) as (Hr & Ht & Hw). unfold retry_get. run.
  set (k1 := upd_gets _ k). assert (kvs_wf k1 /\ forall t, in_flight k t -> in_flight k1 t) as [Hk1 Hf1].
  { split; [split; simpl; [apply (wf_cache k Hk)|apply (wf_pending k Hk)| |apply (wf_puts k Hk)]|].
    - intros key' p' [[<- <-]|[_ Hl]]%lookup_insert_Some; [done|by apply (wf_gets k Hk)].
    - intros t [?|Hs]; [by left|]. right. destruct t as [key'|]; [|done]. simpl in *.
      apply lookup_insert_is_Some'. by right. }
  destruct (try_request_runs now key (request_ p) k1 Hk1 Hr) as (out & k2 & o & E & Hk2 & _ & Hkept & Hsent & Hout).
  assert (forall t, in_flight k1 t -> in_flight k2 t) as Hf2 by (intros t [?|?]; [left; auto|right; auto]).
  destruct out as [r'|]; [|by exists k2, (o ++ []); split; [by eapply bind_ok_r|auto]].
  destruct Hout as (_ & _ & Hr' & Ht' & _). eexists _, (o ++ []). split; [by eapply bind_ok_r|]. split.
  - split; simpl; [apply (wf_cache k2 Hk2)|apply (wf_pending k2 Hk2)| |apply (wf_puts k2 Hk2)].
    intros key' p' Hl. destruct (decide (key' = key)) as [->|Hne].
    + rewrite lookup_alter_eq in Hl. apply fmap_Some in Hl as (p0 & Hl & ->). simpl.
      destruct (wf_gets k2 Hk2 _ _ Hl) as (_ & _ & ?). split; [done|]. by rewrite Ht'.
    + rewrite lookup_alter_ne in Hl by done. by apply (wf_gets k2 Hk2).
  - intros t Hin. destruct (Hf2 t (Hf1 t Hin)) as [?|Hs]; [by left|]. right. destruct t as [key'|]; [|done].
    simpl in *. apply alter_is_Some. exact Hs.
Qed.

Lemma put_key_touched (f : gmap str PendingRequest -> gmap str PendingRequest) key k :
  kvs_wf k -> (forall ids id p, pending_put_response_map_ k !! key = Some ids -> f ids !! id = Some p ->
    request_key (request_ p) = Ok key /\ kr_type (request_ p) <> GET /\ kr_request_id (request_ p) = id /\ addr_ok (worker_addr_ p)) ->
  kvs_wf (upd_puts (alter f key) k).
Proof.
  intros Hk Hf. split; simpl; [apply (wf_cache k Hk)|apply (wf_pending k Hk)|apply (wf_gets k Hk)|].
  intros key' ids id p Hl Hid. destruct (decide (key' = key)) as [->|Hne].
  - rewrite lookup_alter_eq in Hl. apply fmap_Some in Hl as (ids0 & Hl & ->). by eapply Hf.
  - rewrite lookup_alter_ne in Hl by done. by eapply (wf_puts k Hk).
Qed.
Lemma put_key_in_flight (f : gmap str PendingRequest -> gmap str PendingRequest) key k t :
  (forall ids id, is_Some (ids !! id) -> is_Some (f ids !! id)) ->
  in_flight k t -> in_flight (upd_puts (alter f key) k) t.
Proof.
  intros Hf [?|Hs]; [by left|]. right. destruct t as [|id]; [done|]. destruct Hs as (key' & ids & Hl & Hid). simpl.
  destruct (decide (key' = key)) as [->|Hne].
  - exists key, (f ids). rewrite lookup_alter_eq, Hl. auto.
  - exists key', ids. by rewrite lookup_alter_ne.
Qed.

Lemma retry_put_runs now key id p ids k : kvs_wf k -> pending_put_response_map_ k !! key = Some ids -> ids !! id = Some p ->
  exists k' o, retry_put conf now key id p k = Ok ((), k', o) /\ kvs_wf k' /\ forall t, in_flight k t -> in_flight k' t.
Proof.
  intros Hk Hids Hp. destruct (wf_puts k Hk _ _ _ _ Hids Hp) as (Hr & Ht & Hid & Hw). unfold retry_put. run.
  set (k1 := upd_puts _ k). assert (kvs_wf k1) as Hk1.
  { apply put_key_touched; [done|]. intros ids' id' p' Hl [[<- <-]|[_ Hl']]%lookup_insert_Some; [done|]. by eapply (wf_puts k Hk). }
  assert (forall t, in_flight k t -> in_flight k1 t) as Hf1
    by (intros t; apply put_key_in_flight; intros ids' id' ?; apply lookup_insert_is_Some'; by right).
  destruct (try_request_runs now key (request_ p) k1 Hk1 Hr) as (out & k2 & o & E & Hk2 & _ & Hkept & Hsent & Hout).
  assert (forall t, in_flight k1 t -> in_flight k2 t) as Hf2 by (intros t [?|?]; [left; auto|right; auto]).
  destruct out as [r'|]; [|by exists k2, (o ++ []); split; [by eapply bind_ok_r|auto]].
  destruct Hout as (_ & _ & Hr' & Ht' & Hid'). eexists _, (o ++ []). split; [by eapply bind_ok_r|]. split.
  - apply put_key_touched; [done|]. intros ids' id' p' Hl Hl'. destruct (decide (id' = id)) as [->|Hne].
    + rewrite lookup_alter_eq in Hl'. apply fmap_Some in Hl' as (p0 & Hl' & ->). simpl.
      destruct (wf_puts k2 Hk2 _ _ _ _ Hl Hl') as (_ & _ & _ & ?). by rewrite Ht', Hid'.
    + rewrite lookup_alter_ne in Hl' by done. by eapply (wf_puts k2 Hk2).
  - intros t Hin. apply put_key_in_flight; [|auto]. intros ids' id' Hs. by apply alter_is_Some.
Qed.

(** The put under the key and the id is gone, and nothing else. *)
Lemma forget_put_lookup key id k key' id' :
  (pending_put_response_map_ (forget_put key id k) !! key' ≫= (fun ids => ids !! id')) =
  if decide (key' = key /\ id' = id) then None else pending_put_response_map_ k !! key' ≫= (fun ids => ids !! id').
Proof.
  unfold forget_put, at_or. simpl. set (m := pending_put_response_map_ k).
  destruct (decide (key' = key)) as [->|Hne].
  - assert ((if decide (size (delete id (default ∅ (m !! key))) = 0%nat) then delete key m
             else <[key := delete id (default ∅ (m !! key))]> m) !! key ≫= (fun ids => ids !! id') =
            delete id (default ∅ (m !! key)) !! id') as ->.
    { destruct (decide _) as [E|E]; [|by rewrite lookup_insert_eq].
      apply map_size_empty_inv in E. by rewrite E, lookup_delete_eq. }
    destruct (decide (id' = id)) as [->|Hid].
    + rewrite decide_True by done. by rewrite lookup_delete_eq.
    + rewrite decide_False by (by intros []). rewrite lookup_delete_ne by done. by destruct (m !! key).
  - rewrite (decide_False (P := key' = key /\ id' = id)) by (by intros []).
    destruct (decide _); [by rewrite lookup_delete_ne|by rewrite lookup_insert_ne].
Qed.

Lemma forget_put_wf key id k : kvs_wf k -> kvs_wf (forget_put key id k).
Proof.
  intros Hk. split; [apply (wf_cache k Hk)|apply (wf_pending k Hk)|apply (wf_gets k Hk)|].
  intros key' ids id' p Hl Hp. pose proof (forget_put_lookup key id k key' id') as Hf. rewrite Hl in Hf. simpl in Hf.
  rewrite Hp in Hf. destruct (decide _); [done|]. symmetry in Hf. apply bind_Some in Hf as (ids' & ? & ?).
  by eapply (wf_puts k Hk).
Qed.

(** A response has a tuple. *)
Definition response_ok (r : KeyResponse) : Prop := kp_tuples r <> [].

Lemma accounted_later k k1 k2 rs : (forall t, in_flight k t -> in_flight k1 t) -> accounted k1 k2 rs -> accounted k k2 rs.
Proof. intros Hf Ha t Ht. by apply Ha, Hf. Qed.
Lemma in_flight_accounted k k' rs : (forall t, in_flight k t -> in_flight k' t) -> accounted k k' rs.
Proof. intros Hf t Ht. left. by apply Hf. Qed.

Lemma recv_get_accounts now r tuple : kp_type r = GET -> head (kp_tuples r) = Some tuple ->
  accounts (fun rs => rs) (recv_get conf now r tuple).
Proof.
  intros Ht Htp k Hk. unfold recv_get. run.
  destruct (pending_get_response_map_ k !! kt_key tuple) as [p|] eqn:Ep;
    [|exists [], k, []; split; [done|]; split; [done|]; by apply in_flight_accounted].
  destruct (check_tuple_runs tuple k) as (b & k1 & E1 & Hc & Hb). rewrite (bind_quiet _ _ _ _ _ E1).
  pose proof (cache_shrinks_wf _ _ Hc Hk) as Hk1. destruct b.
  - destruct (retry_get_runs now (kt_key tuple) p k1 Hk1) as (k2 & o & E2 & Hk2 & Hf); [destruct Hc as (_ & _ & -> & _); done|].
    exists [], k2, (o ++ []). split; [by eapply bind_ok_r|]. split; [done|].
    apply in_flight_accounted. intros t Hin. by apply Hf, (cache_shrinks_in_flight k k1).
  - run. eexists [r], _, []. split; [done|]. split.
    + split; simpl; [apply (wf_cache k1 Hk1)|apply (wf_pending k1 Hk1)| |apply (wf_puts k1 Hk1)].
      intros key' p' [_ Hl]%lookup_delete_Some. by apply (wf_gets k1 Hk1).
    + apply (accounted_later k k1); [intros t; by apply cache_shrinks_in_flight|].
      intros t [?|Hs]; [by left; left|]. destruct t as [key'|]; [|by left; right]. simpl in Hs.
      destruct (decide (key' = kt_key tuple)) as [->|Hne]; [|left; right; simpl; by rewrite lookup_delete_ne].
      right. exists r. split; [set_solver|]. split; [done|]. by exists tuple.
Qed.

Lemma recv_put_accounts now r tuple : kp_type r <> GET -> accounts (fun rs => rs) (recv_put conf now r tuple).
Proof.
  intros Ht k Hk. unfold recv_put. run.
  destruct (pending_put_response_map_ k !! kt_key tuple ≫= (fun ids => ids !! kp_response_id r)) as [p|] eqn:Ep;
    [|exists [], k, []; split; [done|]; split; [done|]; by apply in_flight_accounted].
  apply bind_Some in Ep as (ids & Eids & Ep).
  destruct (check_tuple_runs tuple k) as (b & k1 & E1 & Hc & Hb). rewrite (bind_quiet _ _ _ _ _ E1).
  pose proof (cache_shrinks_wf _ _ Hc Hk) as Hk1. destruct b.
  - destruct (retry_put_runs now (kt_key tuple) (kp_response_id r) p ids k1 Hk1) as (k2 & o & E2 & Hk2 & Hf);
      [destruct Hc as (_ & _ & _ & ->); done|done|].
    exists [], k2, (o ++ []). split; [by eapply bind_ok_r|]. split; [done|].
    apply in_flight_accounted. intros t Hin. by apply Hf, (cache_shrinks_in_flight k k1).
  - run. eexists [r], _, []. split; [done|]. split; [by apply forget_put_wf|].
    apply (accounted_later k k1); [intros t; by apply cache_shrinks_in_flight|].
    intros t [?|Hs]; [by left; left|]. destruct t as [|id]; [by left; right|].
    destruct (decide (id = kp_response_id r)) as [->|Hne].
    + right. exists r. split; [set_solver|done].
    + left. right. destruct Hs as (key' & ids' & Hl & Hid).
      pose proof (forget_put_lookup (kt_key tuple) (kp_response_id r) k1 key' id) as Hf.
      rewrite decide_False, Hl in Hf by (by intros []). simpl in Hf. destruct Hid as [x Hx]. rewrite Hx in Hf.
      apply bind_Some in Hf as (ids2 & ? & ?). exists key', ids2. split; [done|by eexists].
Qed.

Lemma recv_response_accounts now r : response_ok r -> accounts (fun rs => rs) (recv_response conf now r).
Proof.
  unfold response_ok. intros Hr k Hk. unfold recv_response, vec_at. destruct (kp_tuples r) as [|tuple tuples] eqn:E; [done|].
  cbn [lookup list_lookup res_of_option]. run. destruct (decide (kp_type r = GET)) as [Et|Et].
  - apply recv_get_accounts; [done| |done]. by rewrite E.
  - by apply recv_put_accounts.
Qed.

(** * Time-outs *)
Lemma bad_response_answers key r : request_key r = Ok key ->
  exists b, generate_bad_response r = Ok b /\ answers b (token_of key r) /\ kp_error b = TIMEOUT.
Proof.
  unfold request_key, generate_bad_response, vec_at, token_of. destruct (kr_tuples r) as [|t l]; [done|].
  intros [= <-]. eexists. split; [done|]. split; [|done].
  destruct (decide (kr_type r = GET)) as [E|E]; simpl; [|done]. split; [done|].
  destruct (decide (kr_type r = PUT)); eexists; split; done.
Qed.

Lemma foldl_delete_lookup {V} (m : gmap str V) l j :
  foldl (fun m key => delete key m) m l !! j = if decide (j ∈ l) then None else m !! j.
Proof.
  revert m. induction l as [|i l IH]; intros m; cbn [foldl].
  { rewrite decide_False; [done|apply not_elem_of_nil]. }
  rewrite IH. destruct (decide (j ∈ l)) as [Hj|Hj]; [by rewrite decide_True by set_solver|].
  destruct (decide (j = i)) as [->|Hne]; [rewrite decide_True by set_solver; by rewrite lookup_delete_eq|].
  rewrite decide_False by set_solver. by rewrite lookup_delete_ne.
Qed.

Lemma elem_of_concat {A} (x : A) (ls : list (list A)) : x ∈ concat ls <-> exists l, x ∈ l /\ l ∈ ls.
Proof.
  rewrite list_elem_of_In, in_concat. split; intros (l & H1 & H2); exists l; rewrite !list_elem_of_In in *; done.
Qed.

(** The responses that time out a list of requests. *)
Lemma bad_responses_runs reqs : (forall r, r ∈ reqs -> exists key, request_key r = Ok key) ->
  exists bad, mapM generate_bad_response reqs = Ok bad /\
    forall r key, r ∈ reqs -> request_key r = Ok key -> exists b, b ∈ bad /\ answers b (token_of key r).
Proof.
  induction reqs as [|r reqs IH]; intros Hr.
  { exists []. split; [done|]. intros r key Hin. by apply not_elem_of_nil in Hin. }
  destruct (Hr r) as [key Hkey]; [set_solver|]. destruct IH as (bad & E & Hall); [set_solver|].
  destruct (bad_response_answers key r Hkey) as (b & Eb & Ha & _). exists (b :: bad). split.
  { cbn [mapM]. rewrite Eb. cbn. by rewrite E. }
  intros r' key' [->|Hin]%elem_of_cons Hk'.
  - rewrite Hkey in Hk'. injection Hk' as <-. exists b. split; [left|done].
  - destruct (Hall r' key' Hin Hk') as (b' & ? & ?). exists b'. split; [by right|done].
Qed.

Lemma gc_pending_accounts now : accounts (fun rs => rs) (gc_pending conf now).
Proof.
  intros k Hk. unfold gc_pending. run. set (old := filter _ _).
  assert (forall key tp reqs, (key, (tp, reqs)) ∈ old <-> pending_request_map_ k !! key = Some (tp, reqs) /\ expired conf now tp) as Hold
    by (intros; unfold old; rewrite list_elem_of_filter, elem_of_map_iter; tauto).
  destruct (bad_responses_runs (concat ((fun '(_, (_, reqs)) => reqs) <$> old))) as (bad & E & Hall).
  { intros r (reqs & Hr & Hin)%elem_of_concat. apply list_elem_of_fmap in Hin as ([key [tp reqs']] & -> & Hin).
    apply Hold in Hin as [Hl _]. exists key. by eapply (wf_pending k Hk). }
  rewrite E. run. eexists bad, _, []. split; [done|]. split.
  - split; simpl; [apply (wf_cache k Hk)| |apply (wf_gets k Hk)|apply (wf_puts k Hk)].
    intros key tp reqs r. rewrite foldl_delete_lookup. destruct (decide _); [done|]. by apply (wf_pending k Hk).
  - intros t [Ht|Ht]; [|by left; right]. destruct Ht as (key & tp & reqs & r & Hl & Hr & Et).
    destruct (decide (key ∈ old.*1)) as [Hin|Hin].
    + apply list_elem_of_fmap in Hin as ([key' [tp' reqs']] & -> & Hin). pose proof Hin as Hin2. apply Hold in Hin as [Hl' _].
      simpl in *. simplify_eq. right.
      destruct (Hall r key') as (b & ? & ?); [|by eapply (wf_pending k Hk)|by exists b].
      apply elem_of_concat. exists reqs. split; [done|]. apply list_elem_of_fmap. by exists (key', (tp, reqs)).
    + left. left. exists key, tp, reqs, r. simpl. rewrite foldl_delete_lookup. by rewrite decide_False.
Qed.

Lemma has_signature_ok sig addrs : Forall addr_ok addrs -> is_ok (has_signature sig addrs).
Proof.
  induction 1 as [|a addrs (_ & v & Hv) _ (b & IH)]; [by eexists|]. cbn [has_signature]. rewrite Hv. cbn. rewrite IH. by eexists.
Qed.
Lemma keys_of_worker_ok sig entries : Forall (fun e => forall a, a ∈ e.2 -> addr_ok a) entries -> is_ok (keys_of_worker sig entries).
Proof.
  induction 1 as [|[key addrs] entries He _ (l & IH)]; [by eexists|]. cbn [keys_of_worker].
  destruct (has_signature_ok sig (set_iter addrs)) as [b Hb].
  { apply Forall_forall. intros a Ha. apply elem_of_set_iter in Ha. by apply He. }
  rewrite Hb. cbn. rewrite IH. by eexists.
Qed.

Lemma invalidate_worker_runs w k : kvs_wf k -> addr_ok w ->
  exists k', invalidate_cache_for_worker w k = Ok ((), k', []) /\ cache_shrinks k k'.
Proof.
  intros Hk (_ & sig & Hsig). unfold invalidate_cache_for_worker. rewrite Hsig. run.
  destruct (keys_of_worker_ok sig (map_iter (k_key_address_cache k))) as [l Hl].
  { apply Forall_forall. intros [key addrs] He%elem_of_map_iter a. simpl. by eapply (wf_cache k Hk). }
  rewrite Hl. run. eexists. split; [done|]. split; [|done]. simpl. intros key addrs.
  rewrite foldl_delete_lookup. by destruct (decide _).
Qed.

(** A request that was sent and whose server can be discredited. *)
Definition pending_ok (p : PendingRequest) : Prop :=
  (exists key, request_key (request_ p) = Ok key) /\ addr_ok (worker_addr_ p).

Lemma time_outs_runs ps k : kvs_wf k -> Forall pending_ok ps ->
  exists bad k', time_outs ps k = Ok (bad, k', []) /\ cache_shrinks k k' /\
    forall p key, p ∈ ps -> request_key (request_ p) = Ok key -> exists b, b ∈ bad /\ answers b (token_of key (request_ p)).
Proof.
  intros Hk Hps. revert k Hk. induction Hps as [|p ps [[key Hkey] Hw] Hps IH]; intros k Hk.
  { exists [], k. split; [done|]. split; [apply cache_shrinks_refl|]. intros p key Hp. by apply not_elem_of_nil in Hp. }
  destruct (bad_response_answers key (request_ p) Hkey) as (b & Eb & Ha & _).
  destruct (invalidate_worker_runs (worker_addr_ p) k Hk Hw) as (k1 & E1 & Hc1).
  destruct (IH k1 (cache_shrinks_wf _ _ Hc1 Hk)) as (bad & k2 & E2 & Hc2 & Hall).
  exists (b :: bad), k2. split; [|split; [by eapply cache_shrinks_trans|]].
  - cbn [time_outs]. unfold time_out. rewrite Eb. run. rewrite (bind_quiet _ _ _ _ _ E1). run. by rewrite (bind_quiet _ _ _ _ _ E2).
  - intros p' key' [->|Hp]%elem_of_cons Hk'.
    + rewrite Hkey in Hk'. injection Hk' as <-. exists b. split; [left|done].
    + destruct (Hall p' key' Hp Hk') as (b' & ? & ?). exists b'. split; [by right|done].
Qed.

Lemma gc_gets_accounts now : accounts (fun rs => rs) (gc_gets conf now).
Proof.
  intros k Hk. unfold gc_gets. run. set (old := filter _ _).
  assert (forall key p, (key, p) ∈ old -> pending_get_response_map_ k !! key = Some p) as Hold
    by (intros key p; unfold old; rewrite list_elem_of_filter, elem_of_map_iter; tauto).
  destruct (time_outs_runs old.*2 k Hk) as (bad & k1 & E & Hc & Hall).
  { apply Forall_forall. intros p Hp. apply list_elem_of_fmap in Hp as ([key p'] & -> & Hp). apply Hold in Hp.
    destruct (wf_gets k Hk _ _ Hp) as (? & _ & ?). split; [by exists key|done]. }
  rewrite (bind_quiet _ _ _ _ _ E). run. pose proof (cache_shrinks_wf _ _ Hc Hk) as Hk1.
  eexists bad, _, []. split; [done|]. split.
  - split; simpl; [apply (wf_cache k1 Hk1)|apply (wf_pending k1 Hk1)| |apply (wf_puts k1 Hk1)].
    intros key p. rewrite foldl_delete_lookup. destruct (decide _); [done|]. by apply (wf_gets k1 Hk1).
  - intros t Hf. apply (cache_shrinks_in_flight k k1) in Hf as [Ht|Ht]; [by left; left| |done].
    destruct t as [key|]; [|by left; right]. destruct (decide (key ∈ old.*1)) as [Hin|Hin].
    + apply list_elem_of_fmap in Hin as ([key' p] & -> & Hin). pose proof (Hold _ _ Hin) as Hl.
      destruct (wf_gets k Hk _ _ Hl) as (Hr & Hg & _). right.
      destruct (Hall p key') as (b & Hb & Ha); [apply list_elem_of_fmap; by exists (key', p)|done|].
      exists b. split; [done|]. unfold token_of in Ha. by rewrite decide_True in Ha.
    + left. right. simpl in *. rewrite foldl_delete_lookup. by rewrite decide_False.
Qed.

(** The put with the id under the key. *)
Definition put_at (m : gmap str (gmap str PendingRequest)) (key id : str) : option PendingRequest :=
  m !! key ≫= (fun ids => ids !! id).

Lemma put_at_alter m key id key' id' :
  put_at (alter (delete id) key m) key' id' = if decide ((key', id') = (key, id)) then None else put_at m key' id'.
Proof.
  unfold put_at. destruct (decide (key' = key)) as [->|Hne].
  - rewrite lookup_alter_eq. destruct (m !! key) as [ids|]; simpl; [|by destruct (decide _)].
    destruct (decide (id' = id)) as [->|Hid]; [rewrite decide_True by done; apply lookup_delete_eq|].
    rewrite decide_False by congruence. by apply lookup_delete_ne.
  - rewrite decide_False by congruence. by rewrite lookup_alter_ne.
Qed.
Lemma put_at_alters l m key id :
  put_at (foldl (fun m '(key, id) => alter (delete id) key m) m l) key id =
  if decide ((key, id) ∈ l) then None else put_at m key id.
Proof.
  revert m. induction l as [|[key' id'] l IH]; intros m; cbn [foldl].
  { rewrite decide_False; [done|apply not_elem_of_nil]. }
  rewrite IH, put_at_alter. destruct (decide ((key, id) ∈ l)) as [Hin|Hin]; [by rewrite decide_True by (by right)|].
  destruct (decide ((key, id) = (key', id'))) as [->|Hne]; [by rewrite decide_True by left|].
  rewrite decide_False; [done|]. by intros [?|?]%elem_of_cons.
Qed.

Lemma elem_of_put_entries m key id p : (key, id, p) ∈ put_entries m <-> put_at m key id = Some p.
Proof.
  unfold put_entries, put_at. rewrite elem_of_concat, bind_Some. split.
  - intros (l & Hin & Hl). apply list_elem_of_fmap in Hl as ([key' ids] & -> & Hl%elem_of_map_iter).
    apply list_elem_of_fmap in Hin as ([id' p'] & [= <- <- <-] & Hid%elem_of_map_iter). by exists ids.
  - intros (ids & Hl & Hid). eexists. split; [|apply list_elem_of_fmap; exists (key, ids); by rewrite elem_of_map_iter].
    apply list_elem_of_fmap. exists (id, p). by rewrite elem_of_map_iter.
Qed.

Lemma sent_put k id : sent k (TPut id) <-> exists key, is_Some (put_at (pending_put_response_map_ k) key id).
Proof.
  unfold put_at. split.
  - intros (key & ids & Hl & Hid). exists key. by rewrite Hl.
  - intros (key & p & Hp). apply bind_Some in Hp as (ids & ? & ?). exists key, ids. split; [done|by eexists].
Qed.
Lemma wf_put_at k key id p : kvs_wf k -> put_at (pending_put_response_map_ k) key id = Some p ->
  request_key (request_ p) = Ok key /\ kr_type (request_ p) <> GET /\ kr_request_id (request_ p) = id /\ addr_ok (worker_addr_ p).
Proof. intros Hk (ids & ? & ?)%bind_Some. by eapply (wf_puts k Hk). Qed.

Lemma gc_puts_accounts now : accounts (fun rs => rs) (gc_puts conf now).
Proof.
  intros k Hk. unfold gc_puts. run. set (old := filter _ _).
  assert (forall key id p, (key, id, p) ∈ old -> put_at (pending_put_response_map_ k) key id = Some p) as Hold
    by (intros key id p; unfold old; rewrite list_elem_of_filter, elem_of_put_entries; tauto).
  destruct (time_outs_runs old.*2 k Hk) as (bad & k1 & E & Hc & Hall).
  { apply Forall_forall. intros p Hp. apply list_elem_of_fmap in Hp as ([[key id] p'] & -> & Hp). apply Hold in Hp.
    destruct (wf_put_at _ _ _ _ Hk Hp) as (? & _ & _ & ?). split; [by exists key|done]. }
  rewrite (bind_quiet _ _ _ _ _ E). run. pose proof (cache_shrinks_wf _ _ Hc Hk) as Hk1.
  eexists bad, _, []. split; [done|]. split.
  - split; simpl; [apply (wf_cache k1 Hk1)|apply (wf_pending k1 Hk1)|apply (wf_gets k1 Hk1)|].
    intros key ids id p Hl Hp. pose proof (put_at_alters old.*1 (pending_put_response_map_ k1) key id) as Hx.
    unfold put_at at 1 in Hx. rewrite Hl in Hx. simpl in Hx. rewrite Hp in Hx. destruct (decide _); [done|].
    by apply (wf_put_at k1).
  - intros t Hf. apply (cache_shrinks_in_flight k k1) in Hf as [Ht|Ht]; [by left; left| |done].
    destruct t as [|id]; [by left; right|]. apply sent_put in Ht as (key & p & Hp).
    destruct (decide ((key, id) ∈ old.*1)) as [Hin|Hin].
    + apply list_elem_of_fmap in Hin as ([[key' id'] p'] & [= <- <-] & Hin). pose proof (Hold _ _ _ Hin) as Hl.
      destruct (wf_put_at _ _ _ _ Hk Hl) as (Hr & Hg & Hid & _). right.
      destruct (Hall p' key) as (b & Hb & Ha); [apply list_elem_of_fmap; by exists (key, id, p')|done|].
      exists b. split; [done|]. unfold token_of in Ha. by rewrite decide_False, Hid in Ha.
    + left. right. apply sent_put. exists key. simpl. rewrite put_at_alters, decide_False, Hp by done. by eexists.
Qed.

(** Whatever arrived, every request is in flight after the call or answered by it. *)
Lemma receive_async_accounts now address response :
  (forall a, address = Some a -> address_ok a) -> (forall r, response = Some r -> response_ok r) ->
  accounts (fun rs => rs) (receive_async conf now address response).
Proof.
  intros Ha Hr k Hk. unfold receive_async.
  assert (accounts (fun _ => []) (match address with Some a => recv_address conf now a | None => mret () end)) as H1
    by (destruct address; [by apply recv_address_accounts, Ha|intros k0 H0'; exists (), k0, []; split; [done|split; [done|by apply in_flight_accounted]]]).
  assert (accounts (fun rs => rs) (match response with Some r => recv_response conf now r | None => mret [] end)) as H2
    by (destruct response; [by apply recv_response_accounts, Hr|intros k0 H0'; exists [], k0, []; split; [done|split; [done|by apply in_flight_accounted]]]).
  destruct (H1 k Hk) as ([] & k1 & o1 & E1 & Hk1 & A1). destruct (H2 k1 Hk1) as (rs & k2 & o2 & E2 & Hk2 & A2).
  destruct (gc_pending_accounts now k2 Hk2) as (b1 & k3 & o3 & E3 & Hk3 & A3).
  destruct (gc_gets_accounts now k3 Hk3) as (b2 & k4 & o4 & E4 & Hk4 & A4).
  destruct (gc_puts_accounts now k4 Hk4) as (b3 & k5 & o5 & E5 & Hk5 & A5).
  exists (rs ++ b1 ++ b2 ++ b3), k5, (o1 ++ o2 ++ o3 ++ o4 ++ o5 ++ []). split.
  { do 5 (eapply bind_ok_r; [eassumption|]). done. }
  split; [done|]. change (rs ++ _) with ([] ++ rs ++ b1 ++ b2 ++ b3). eauto using accounted_trans.
Qed.

(** * Time

    Every table's time is at most [T]. *)
Record times_below (T : Z) (k : kvs) : Prop := {
  tb_pending key tp reqs : pending_request_map_ k !! key = Some (tp, reqs) -> tp <= T;
  tb_gets key p : pending_get_response_map_ k !! key = Some p -> tp_ p <= T;
  tb_puts key ids id p : pending_put_response_map_ k !! key = Some ids -> ids !! id = Some p -> tp_ p <= T }.

Definition keeps {A} (P : kvs -> Prop) (m : KM A) : Prop := forall k a k' o, m k = Ok (a, k', o) -> P k -> P k'.

Lemma keeps_bind {A B} P (m : KM A) (f : A -> KM B) : keeps P m -> (forall a, keeps P (f a)) -> keeps P (mbind f m).
Proof. intros Hm Hf k b k' o (a & k1 & o1 & o2 & E1 & E2 & _)%bind_ok Hk. by eapply Hf, Hm. Qed.
Lemma keeps_gets {A} P (f : kvs -> A) : keeps P (gets f).
Proof. by intros k a k' o [= _ <- _]. Qed.
Lemma keeps_ret {A} P (a : A) : keeps P (mret a).
Proof. by intros k x k' o [= _ <- _]. Qed.
Lemma keeps_emit P x : keeps P (emit x).
Proof. by intros k a k' o [= _ <- _]. Qed.
Lemma keeps_lift {A} P (r : res A) : keeps P (lift r).
Proof. intros k a k' o. unfold lift. destruct r; [|done]. by intros [= _ <- _]. Qed.
Lemma keeps_modify P f : (forall k, P k -> P (f k)) -> keeps P (modify f).
Proof. intros Hf k a k' o [= _ <- _]. apply Hf. Qed.
Lemma keeps_for_each {A} P (body : A -> KM ()) l : (forall a, keeps P (body a)) -> keeps P (for_each body l).
Proof. intros Hb. induction l as [|a l IH]; [apply keeps_ret|]. by apply keeps_bind. Qed.
Lemma keeps_draw T n : keeps (times_below T) (draw_kvs n).
Proof.
  intros k a k' o. unfold draw_kvs, draw. destruct (rand_below _ _) as [[i x]|]; [|done].
  intros [= _ <- _] [H1 H2 H3]. by split.
Qed.
Create HintDb kvs discriminated.
Hint Resolve keeps_gets keeps_ret keeps_emit keeps_lift keeps_draw : kvs.

(** Split a computation into its steps. *)
Ltac keeps_steps := repeat first
  [ by auto with kvs | apply keeps_bind; [|intros] | apply keeps_modify
  | match goal with |- keeps _ (match ?x with _ => _ end) => destruct x end ].
Lemma keep_request_times T now key r k : now <= T -> times_below T k -> times_below T (keep_request now key r k).
Proof.
  intros Hn [T1 T2 T3]. unfold keep_request, at_or. split; simpl; [|done|done]. intros key' tp reqs.
  destruct (pending_request_map_ k !! key) as [[tp0 reqs0]|] eqn:E; simpl;
    intros [[<- [= <- <-]]|[_ ?]]%lookup_insert_Some; eauto.
Qed.
Lemma track_get_times T now key w r k : now <= T -> times_below T k -> times_below T (track_get now key w r k).
Proof.
  intros Hn [T1 T2 T3]. unfold track_get, at_or. split; simpl; [done| |done]. intros key' p.
  destruct (pending_get_response_map_ k !! key) as [p0|] eqn:E; simpl; intros [[<- <-]|[_ ?]]%lookup_insert_Some; simpl; eauto.
Qed.
Lemma track_put_times T now key w r k : now <= T -> times_below T k -> times_below T (track_put now key w r k).
Proof.
  intros Hn [T1 T2 T3]. unfold track_put, at_or. split; simpl; [done|done|]. intros key' ids id p.
  intros [[<- <-]|[_ ?]]%lookup_insert_Some; [|by eauto]. intros [[<- <-]|[_ Hl]]%lookup_insert_Some; simpl.
  - destruct (pending_put_response_map_ k !! key) as [ids|] eqn:E; simpl; [|done].
    destruct (ids !! kr_request_id r) as [p|] eqn:E2; simpl; eauto.
  - destruct (pending_put_response_map_ k !! key) as [ids|] eqn:E; simpl in Hl; [eauto|done].
Qed.

Lemma try_request_times T now r : now <= T -> keeps (times_below T) (try_request conf now r).
Proof.
  intros Hn. unfold try_request, get_worker_thread, get_all_worker_threads, query_routing_async, kvs_get_request_id, get_routing_thread.
  keeps_steps; intros k Hk.
  - destruct Hk. by split.
  - by apply keep_request_times.
  - destruct (decide _); [by apply track_get_times|by apply track_put_times].
Qed.
Hint Resolve try_request_times : kvs.

Lemma query_routing_times T key : keeps (times_below T) (query_routing_async conf key).
Proof.
  unfold query_routing_async, kvs_get_request_id, get_routing_thread. keeps_steps. intros k []. by split.
Qed.
Hint Resolve query_routing_times : kvs.

Lemma recv_address_times T now a : now <= T -> keeps (times_below T) (recv_address conf now a).
Proof.
  intros Hn. unfold recv_address, retry_requests. keeps_steps.
  - intros k [T1 T2 T3]. split; simpl; [|done|done]. intros key tp reqs [[_ [= <- _]]|[_ ?]]%lookup_insert_Some; eauto.
  - intros k []. by split.
  - apply keeps_for_each. intros r. keeps_steps.
  - intros k [T1 T2 T3]. split; simpl; [|done|done]. intros key tp reqs [_ ?]%lookup_delete_Some. eauto.
Qed.

Lemma check_tuple_times T tuple : keeps (times_below T) (check_tuple tuple).
Proof. unfold check_tuple. keeps_steps; intros k []; by split. Qed.
Hint Resolve check_tuple_times : kvs.

Lemma puts_times T f key k : times_below T k ->
  (forall ids id p, pending_put_response_map_ k !! key = Some ids -> f ids !! id = Some p -> tp_ p <= T) ->
  times_below T (upd_puts (alter f key) k).
Proof.
  intros [T1 T2 T3] Hf. split; simpl; [done|done|]. intros key' ids id p Hl Hp. destruct (decide (key' = key)) as [->|Hne].
  - rewrite lookup_alter_eq in Hl. apply fmap_Some in Hl as (ids0 & Hl & ->). by eapply Hf.
  - rewrite lookup_alter_ne in Hl by done. by eapply T3.
Qed.

Lemma retry_get_times T now key p : now <= T -> keeps (times_below T) (retry_get conf now key p).
Proof.
  intros Hn. unfold retry_get. keeps_steps; intros kv [T1 T2 T3]; (split; simpl; [done| |done]); intros key' p'.
  - intros [[_ <-]|[_ ?]]%lookup_insert_Some; [done|eauto].
  - destruct (decide (key' = key)) as [->|Hne]; [|rewrite lookup_alter_ne by done; apply T2].
    rewrite lookup_alter_eq. intros (p0 & Hp0 & ->)%fmap_Some. by apply (T2 key p0).
Qed.
Lemma retry_put_times T now key id p : now <= T -> keeps (times_below T) (retry_put conf now key id p).
Proof.
  intros Hn. unfold retry_put. keeps_steps; intros kv Hk; apply puts_times; try done; intros ids id' p' Hl.
  - intros [[_ <-]|[_ ?]]%lookup_insert_Some; [done|]. by eapply tb_puts.
  - destruct (decide (id' = id)) as [->|Hne]; [|rewrite lookup_alter_ne by done; by eapply tb_puts].
    rewrite lookup_alter_eq. intros (p0 & Hp0 & ->)%fmap_Some. simpl. by eapply tb_puts.
Qed.
Hint Resolve retry_get_times retry_put_times : kvs.

Lemma recv_response_times T now r : now <= T -> keeps (times_below T) (recv_response conf now r).
Proof.
  intros Hn. unfold recv_response, recv_get, recv_put. keeps_steps.
  - intros k [T1 T2 T3]. split; simpl; [done| |done]. intros key' p' [_ ?]%lookup_delete_Some. eauto.
  - intros k [T1 T2 T3]. split; [done|done|]. intros key' ids' id' p' Hl Hp.
    pose proof (forget_put_lookup (kt_key a) (kp_response_id r) k key' id') as Hf. rewrite Hl in Hf. simpl in Hf.
    rewrite Hp in Hf. destruct (decide _); [done|]. symmetry in Hf. apply bind_Some in Hf as (? & ? & ?). eauto.
Qed.

Lemma invalidate_worker_times T w : keeps (times_below T) (invalidate_cache_for_worker w).
Proof. unfold invalidate_cache_for_worker. keeps_steps. intros k []. by split. Qed.
Hint Resolve invalidate_worker_times recv_address_times recv_response_times : kvs.
Lemma time_outs_times T ps : keeps (times_below T) (time_outs ps).
Proof. induction ps as [|p ps IH]; cbn [time_outs]; unfold time_out; keeps_steps. Qed.
Hint Resolve time_outs_times : kvs.

Lemma gc_times T now :
  keeps (times_below T) (gc_pending conf now) /\ keeps (times_below T) (gc_gets conf now) /\ keeps (times_below T) (gc_puts conf now).
Proof.
  unfold gc_pending, gc_gets, gc_puts. split; [|split]; keeps_steps; intros k [T1 T2 T3]; split; simpl; try done.
  - intros key tp reqs. rewrite foldl_delete_lookup. destruct (decide _); [done|]. apply T1.
  - intros key p. rewrite foldl_delete_lookup. destruct (decide _); [done|]. apply T2.
  - intros key ids id p Hl Hp. match type of Hl with foldl _ _ ?l !! _ = _ => pose proof (put_at_alters l (pending_put_response_map_ k) key id) as Hx end.
    unfold put_at at 1 in Hx. rewrite Hl in Hx. simpl in Hx. rewrite Hp in Hx. destruct (decide _); [done|].
    symmetry in Hx. apply bind_Some in Hx as (? & ? & ?). eauto.
Qed.

Lemma receive_async_times T now address response : now <= T -> keeps (times_below T) (receive_async conf now address response).
Proof. intros Hn. destruct (gc_times T now) as (? & ? & ?). unfold receive_async. keeps_steps; auto with kvs. Qed.

(** A poll long after every request leaves nothing in flight. *)
Definition tables_are pm gm um (k : kvs) : Prop :=
  pending_request_map_ k = pm /\ pending_get_response_map_ k = gm /\ pending_put_response_map_ k = um.

Lemma time_outs_tables pm gm um ps : keeps (tables_are pm gm um) (time_outs ps).
Proof.
  induction ps as [|p ps IH]; cbn [time_outs]; unfold time_out, invalidate_cache_for_worker; keeps_steps.
Qed.

Lemma expired_late T now tp : k_timeout conf < Z.quot (now - T) ms -> tp <= T -> expired conf now tp.
Proof.
  intros Hl Htp. unfold expired. apply Is_true_true, Z.ltb_lt. eapply Z.lt_le_trans; [exact Hl|].
  apply Z.quot_le_mono; unfold ms; lia.
Qed.

Section late.
Context (T now : Z) (Hlate : k_timeout conf < Z.quot (now - T) ms).

Lemma gc_pending_drains k bad k' o : gc_pending conf now k = Ok (bad, k', o) -> times_below T k ->
  tables_are ∅ (pending_get_response_map_ k) (pending_put_response_map_ k) k'.
Proof.
  unfold gc_pending. rewrite bind_gets. intros (x & k1 & o1 & o2 & E1 & E2 & _)%bind_ok HT.
  unfold lift in E1. destruct (mapM _ _); [|done]. injection E1 as _ <- _.
  rewrite bind_modify in E2. injection E2 as _ <- _. split; [|done]. simpl. apply map_eq. intros key.
  rewrite foldl_delete_lookup, lookup_empty. destruct (decide _) as [|Hn]; [done|].
  destruct (pending_request_map_ k !! key) as [[tp reqs]|] eqn:E; [|done]. destruct Hn. apply list_elem_of_fmap.
  exists (key, (tp, reqs)). split; [done|]. apply list_elem_of_filter. rewrite elem_of_map_iter. split; [|done].
  eapply expired_late; [done|by eapply tb_pending].
Qed.
Lemma gc_gets_drains k bad k' o : gc_gets conf now k = Ok (bad, k', o) -> times_below T k ->
  tables_are (pending_request_map_ k) ∅ (pending_put_response_map_ k) k'.
Proof.
  unfold gc_gets. rewrite bind_gets. intros (x & k1 & o1 & o2 & E1 & E2 & _)%bind_ok HT.
  pose proof (time_outs_tables _ _ _ _ _ _ _ _ E1 (conj eq_refl (conj eq_refl eq_refl))) as (Ep & Eg & Eu).
  rewrite bind_modify in E2. injection E2 as _ <- _. split; [done|]. split; [|done]. simpl. rewrite Eg. apply map_eq. intros key.
  rewrite foldl_delete_lookup, lookup_empty. destruct (decide _) as [|Hn]; [done|].
  destruct (pending_get_response_map_ k !! key) as [p|] eqn:E; [|done]. destruct Hn. apply list_elem_of_fmap.
  exists (key, p). split; [done|]. apply list_elem_of_filter. rewrite elem_of_map_iter. split; [|done].
  eapply expired_late; [done|by eapply tb_gets].
Qed.
Lemma gc_puts_drains k bad k' o : gc_puts conf now k = Ok (bad, k', o) -> times_below T k ->
  pending_request_map_ k' = pending_request_map_ k /\ pending_get_response_map_ k' = pending_get_response_map_ k /\
  forall key id, put_at (pending_put_response_map_ k') key id = None.
Proof.
  unfold gc_puts. rewrite bind_gets. intros (x & k1 & o1 & o2 & E1 & E2 & _)%bind_ok HT.
  pose proof (time_outs_tables _ _ _ _ _ _ _ _ E1 (conj eq_refl (conj eq_refl eq_refl))) as (Ep & Eg & Eu).
  rewrite bind_modify in E2. injection E2 as _ <- _. split; [done|]. split; [done|]. simpl. rewrite Eu. intros key id.
  rewrite put_at_alters. destruct (decide _) as [|Hn]; [done|].
  destruct (put_at (pending_put_response_map_ k) key id) as [p|] eqn:E; [|done]. destruct Hn. apply list_elem_of_fmap.
  exists (key, id, p). split; [done|]. apply list_elem_of_filter. rewrite elem_of_put_entries. split; [|done].
  apply bind_Some in E as (ids & ? & ?). eapply expired_late; [done|by eapply tb_puts].
Qed.

Lemma late_poll_drains k rs k' o t : receive_async conf now None None k = Ok (rs, k', o) -> times_below T k -> ~ in_flight k' t.
Proof.
  unfold receive_async. rewrite !bind_ret. intros (b1 & k1 & ? & ? & E1 & E & _)%bind_ok HT.
  apply bind_ok in E as (b2 & k2 & ? & ? & E2 & E & _). apply bind_ok in E as (b3 & k3 & ? & ? & E3 & E & _). injection E as _ <- _.
  destruct (gc_times T now) as (K1 & K2 & _). pose proof (K1 _ _ _ _ E1 HT) as HT1. pose proof (K2 _ _ _ _ E2 HT1) as HT2.
  destruct (gc_pending_drains _ _ _ _ E1 HT) as (P1 & _ & _). destruct (gc_gets_drains _ _ _ _ E2 HT1) as (P2 & G2 & _).
  destruct (gc_puts_drains _ _ _ _ E3 HT2) as (P3 & G3 & U3). intros [Ht|Ht].
  - destruct Ht as (key & tp & reqs & r & Hl & _). by rewrite P3, P2, P1 in Hl.
  - destruct t as [key|id]; [simpl in Ht; rewrite G3, G2 in Ht; by destruct Ht|].
    apply sent_put in Ht as (key & Hp). rewrite U3 in Hp. by destruct Hp.
Qed.
End late.

(** * Histories *)
Lemma put_async_runs now key payload lt k : kvs_wf k ->
  exists id k' o, put_async conf now key payload lt k = Ok (id, k', o) /\ kvs_wf k' /\ accounted k k' [] /\ in_flight k' (TPut id).
Proof.
  intros Hk. unfold put_async, prepare_data_request. destruct (request_id_runs k) as (id & k1 & E1 & S1).
  run. rewrite (bind_quiet _ _ _ _ _ E1). run. set (r := mk_KeyRequest _ _ _ _).
  destruct (try_request_runs now key r k1) as (out & k2 & o2 & E2 & Hk2 & _ & Hkept & Hsent & Hout);
    [by eapply same_tables_wf|done|].
  exists id, k2, (o2 ++ []). split; [by eapply bind_ok_r|]. split; [done|]. split.
  - apply (accounted_trans k k1 k2 [] []); [by apply same_tables_accounted|]. apply in_flight_accounted.
    intros t [?|?]; [left; auto|right; auto].
  - destruct out as [r'|]; [right|left]; apply Hout.
Qed.

Lemma get_async_runs now key k : kvs_wf k ->
  exists k' o, get_async conf now key k = Ok ((), k', o) /\ kvs_wf k' /\ accounted k k' [] /\ in_flight k' (TGet key).
Proof.
  intros Hk. unfold get_async, prepare_data_request. rewrite bind_gets.
  destruct (pending_get_response_map_ k !! key) as [p|] eqn:Ep.
  { exists k, []. split; [done|]. split; [done|]. split; [by apply in_flight_accounted|]. right. simpl. by rewrite Ep. }
  destruct (request_id_runs k) as (id & k1 & E1 & S1). run. rewrite (bind_quiet _ _ _ _ _ E1). run. set (r := mk_KeyRequest _ _ _ _).
  destruct (try_request_runs now key r k1) as (out & k2 & o2 & E2 & Hk2 & _ & Hkept & Hsent & Hout);
    [by eapply same_tables_wf|done|].
  exists k2, (o2 ++ []). split; [by eapply bind_ok_r|]. split; [done|]. split.
  - apply (accounted_trans k k1 k2 [] []); [by apply same_tables_accounted|]. apply in_flight_accounted.
    intros t [?|?]; [left; auto|right; auto].
  - destruct out as [r'|]; [right|left]; apply Hout.
Qed.

(** The calls of the client's owner, with the time of each and what the sockets
    hold when it polls. *)
Inductive kvs_op :=
  | KPut (now : Z) (key payload : str) (lt : LatticeType)
  | KGet (now : Z) (key : str)
  | KClear
  | KPoll (now : Z) (address : option KeyAddressResponse) (response : option KeyResponse).

Definition kvs_step (op : kvs_op) : KM (list KeyResponse) :=
  match op with
  | KPut now key payload lt => _ ← put_async conf now key payload lt; mret []
  | KGet now key => _ ← get_async conf now key; mret []
  | KClear => _ ← modify clear_cache; mret []
  | KPoll now address response => receive_async conf now address response
  end.

(** The responses the polls of a history return. *)
Fixpoint kvs_run (ops : list kvs_op) : KM (list KeyResponse) :=
  match ops with
  | [] => mret []
  | op :: ops => rs ← kvs_step op; rest ← kvs_run ops; mret (rs ++ rest)
  end.

(** Not later than [T], and what arrives is well-formed. *)
Definition op_ok (T : Z) (op : kvs_op) : Prop :=
  match op with
  | KPut now _ _ _ | KGet now _ => now <= T
  | KClear => True
  | KPoll now address response =>
      now <= T /\ (forall a, address = Some a -> address_ok a) /\ (forall r, response = Some r -> response_ok r)
  end.

Lemma kvs_step_accounts T op : op_ok T op -> accounts (fun rs => rs) (kvs_step op).
Proof.
  destruct op as [now key payload lt|now key| |now address response]; simpl; intros Hop k Hk.
  - destruct (put_async_runs now key payload lt k Hk) as (id & k' & o & E & ? & ? & _). exists [], k', (o ++ []).
    split; [by eapply bind_ok_r|done].
  - destruct (get_async_runs now key k Hk) as (k' & o & E & ? & ? & _). exists [], k', (o ++ []). split; [by eapply bind_ok_r|done].
  - exists [], (clear_cache k), []. split; [done|]. assert (cache_shrinks k (clear_cache k)) as Hc by (split; [done|done]).
    split; [by eapply cache_shrinks_wf|]. apply in_flight_accounted. intros t. by apply cache_shrinks_in_flight.
  - destruct Hop as (_ & ? & ?). by apply receive_async_accounts.
Qed.
Lemma kvs_step_times T op : op_ok T op -> keeps (times_below T) (kvs_step op).
Proof.
  destruct op as [now key payload lt|now key| |now address response]; simpl; intros Hop.
  - unfold put_async, prepare_data_request, kvs_get_request_id. keeps_steps. intros kv []. by split.
  - unfold get_async, prepare_data_request, kvs_get_request_id. keeps_steps. intros kv []. by split.
  - keeps_steps. intros kv []. by split.
  - destruct Hop as (? & _). by apply receive_async_times.
Qed.

Lemma kvs_run_accounts T ops : Forall (op_ok T) ops -> accounts (fun rs => rs) (kvs_run ops).
Proof.
  induction 1 as [|op ops Hop _ IH]; intros k Hk.
  { exists [], k, []. split; [done|]. split; [done|]. by apply in_flight_accounted. }
  destruct (kvs_step_accounts T op Hop k Hk) as (rs1 & k1 & o1 & E1 & Hk1 & A1).
  destruct (IH k1 Hk1) as (rs2 & k2 & o2 & E2 & Hk2 & A2). exists (rs1 ++ rs2), k2, (o1 ++ o2 ++ []).
  split; [|split; [done|by eapply accounted_trans]]. do 2 (eapply bind_ok_r; [eassumption|]). done.
Qed.
Lemma kvs_run_times T ops : Forall (op_ok T) ops -> keeps (times_below T) (kvs_run ops).
Proof.
  induction 1 as [|op ops Hop _ IH]; cbn [kvs_run]; [apply keeps_ret|].
  apply keeps_bind; [by apply kvs_step_times|intros rs]. keeps_steps.
Qed.

Lemma kvs_run_app l1 l2 k rs1 k1 o1 rs2 k2 o2 :
  kvs_run l1 k = Ok (rs1, k1, o1) -> kvs_run l2 k1 = Ok (rs2, k2, o2) ->
  exists o, kvs_run (l1 ++ l2) k = Ok (rs1 ++ rs2, k2, o).
Proof.
  revert k rs1 o1. induction l1 as [|op l1 IH]; intros k rs1 o1; cbn [kvs_run app].
  { intros [= <- <- <-] E2. by exists o2. }
  intros (rs & k0 & ? & ? & E0 & E & _)%bind_ok E2. apply bind_ok in E as (rest & k0' & ? & ? & E1 & [= <- <- <-] & _).
  destruct (IH _ _ _ E1 E2) as (o & Eo). rewrite <- (app_assoc rs). eexists. eapply bind_ok_r; [done|]. by eapply bind_ok_r.
Qed.

(** From a state with the request in flight, a history that ends in a late poll
    answers it. *)
Lemma in_flight_answered T now ops k t : kvs_wf k -> times_below T k -> in_flight k t ->
  Forall (op_ok T) ops -> k_timeout conf < Z.quot (now - T) ms ->
  exists rs k' o, kvs_run (ops ++ [KPoll now None None]) k = Ok (rs, k', o) /\ exists r, r ∈ rs /\ answers r t.
Proof.
  intros Hk HT Ht Hops Hlate. destruct (kvs_run_accounts T ops Hops k Hk) as (rs1 & k1 & o1 & E1 & Hk1 & A1).
  destruct (receive_async_accounts now None None) with (k := k1) as (rs2 & k2 & o2 & E2 & Hk2 & A2); [done|done|done|].
  destruct (kvs_run_app ops [KPoll now None None] k rs1 k1 o1 (rs2 ++ []) k2 (o2 ++ []) E1) as (o & Eo); [by eapply bind_ok_r|].
  exists (rs1 ++ rs2 ++ []), k2, o. split; [done|]. rewrite app_nil_r.
  destruct (accounted_trans _ _ _ _ _ A1 A2 t Ht) as [Hf|?]; [|done].
  exfalso. eapply late_poll_drains; [exact Hlate|exact E2| |exact Hf]. by eapply kvs_run_times.
Qed.
End client.

(** * The claim *)
(** C33: no request of the durable client is lost. In any history of puts, gets,
    polls and clearings of its cache, whatever well-formed answers the store and the routing tier give
    or fail to give, no call faults, and a put (known by the id it returned) or a
    get (known by its key) issued anywhere in the history is reported by one of
    the later polls, at the latest by a poll that follows the last call by more
    than the time-out. *)
Theorem durable_request_answered (L : Layout) (R : Rand) (conf : kvs_conf) (seed T now t : Z)
    (before after : list kvs_op) (key payload : str) (lt : LatticeType) :
  k_routing_threads conf <> [] -> Forall (op_ok T) before -> Forall (op_ok T) after -> t <= T ->
  k_timeout conf < Z.quot (now - T) ms ->
  exists rs0 k0 o0, kvs_run conf before (kvs_init seed) = Ok (rs0, k0, o0) /\
    (exists id k1 o1 rs k2 o2,
       put_async conf t key payload lt k0 = Ok (id, k1, o1) /\
       kvs_run conf (after ++ [KPoll now None None]) k1 = Ok (rs, k2, o2) /\
       exists r, r ∈ rs /\ answers r (TPut id)) /\
    (exists k1 o1 rs k2 o2,
       get_async conf t key k0 = Ok ((), k1, o1) /\
       kvs_run conf (after ++ [KPoll now None None]) k1 = Ok (rs, k2, o2) /\
       exists r, r ∈ rs /\ answers r (TGet key)).
Proof.
  intros Hr Hb Ha Ht Hlate.
  destruct (kvs_run_accounts conf Hr T before Hb _ (kvs_wf_init seed)) as (rs0 & k0 & o0 & E0 & Hk0 & _).
  assert (times_below T k0) as HT0 by (eapply (kvs_run_times conf Hr T before Hb); [exact E0|by split]).
  exists rs0, k0, o0. split; [done|]. split.
  - destruct (put_async_runs conf Hr t key payload lt k0 Hk0) as (id & k1 & o1 & E1 & Hk1 & _ & Hf).
    destruct (in_flight_answered conf Hr T now after k1 (TPut id)) as (rs & k2 & o2 & E2 & Hans); try done.
    + eapply (kvs_step_times conf Hr T (KPut t key payload lt) Ht k0); [by eapply bind_ok_r|done].
    + by exists id, k1, o1, rs, k2, o2.
  - destruct (get_async_runs conf Hr t key k0 Hk0) as (k1 & o1 & E1 & Hk1 & _ & Hf).
    destruct (in_flight_answered conf Hr T now after k1 (TGet key)) as (rs & k2 & o2 & E2 & Hans); try done.
    + eapply (kvs_step_times conf Hr T (KGet t key) Ht k0); [by eapply bind_ok_r|done].
    + by exists k1, o1, rs, k2, o2.
Qed.

(** A client of one routing node, which has asked for a key and hears of two
    servers after it puts another. *)
Definition kconf : kvs_conf := mk_kvs_conf [new_UserRoutingThread (lit "10.0.0.9") 0] (new_UserThread (lit "10.0.0.1") 0) 10.
Definition srv (ip : string) : str := lit "tcp://" ++ lit ip ++ lit ":6200".
Definition two_servers : KeyAddressResponse :=
  mk_KeyAddressResponse [mk_KeyAddress (lit "x") [srv "10.0.0.5"; srv "10.0.0.6"]] Proto.NO_ERROR (lit "rid").
Definition asked : list kvs_op := [KGet 1 (lit "x")].
Definition served : list kvs_op := [KPoll (3 * ms) (Some two_servers) None; KClear; KGet (4 * ms) (lit "x")].

Lemma durable_request_answered_witness :
  exists rs0 k0 o0, @kvs_run layout_id rand_lcg kconf asked (kvs_init 7) = Ok (rs0, k0, o0) /\
    (exists id k1 o1 rs k2 o2,
       @put_async layout_id rand_lcg kconf (2 * ms) (lit "y") (lit "v") LWW k0 = Ok (id, k1, o1) /\
       @kvs_run layout_id rand_lcg kconf (served ++ [KPoll (20 * ms) None None]) k1 = Ok (rs, k2, o2) /\
       exists r, r ∈ rs /\ answers r (TPut id)) /\
    (exists k1 o1 rs k2 o2,
       @get_async layout_id rand_lcg kconf (2 * ms) (lit "y") k0 = Ok ((), k1, o1) /\
       @kvs_run layout_id rand_lcg kconf (served ++ [KPoll (20 * ms) None None]) k1 = Ok (rs, k2, o2) /\
       exists r, r ∈ rs /\ answers r (TGet (lit "y"))).
Proof.
  apply (durable_request_answered layout_id rand_lcg kconf 7 (5 * ms) (20 * ms) (2 * ms) asked served (lit "y") (lit "v") LWW).
  - discriminate.
  - repeat constructor. discriminate.
  - constructor; [|repeat constructor; discriminate]. split; [discriminate|]. split; [|discriminate].
    intros a [= <-]. eexists. split; [reflexivity|]. intros _. split; [discriminate|].
    repeat constructor; try discriminate; eexists; vm_compute; reflexivity.
  - discriminate.
  - reflexivity.
Defined.

(** A get whose server was the wrong one is kept for the routing tier and still
    awaited from the server: when both time out, it is reported twice. *)
Definition wrong_server : KeyResponse :=
  mk_KeyResponse GET [mk_KeyTuple (lit "x") NONE WRONG_THREAD [] 0 false] (lit "rid") Proto.NO_ERROR.
Definition misrouted : list kvs_op := [KGet 1 (lit "x"); KPoll 2 (Some two_servers) None; KPoll 3 None (Some wrong_server)].

Lemma misrouted_get_times_out_twice :
  match @kvs_run layout_id rand_lcg kconf (misrouted ++ [KPoll (20 * ms) None None]) (kvs_init 7) with
  | Ok (rs, k, _) => kp_error <$> rs = [TIMEOUT; TIMEOUT] /\ pending_get_response_map_ k = ∅
  | Fault _ => False
  end.
Proof. vm_compute. done. Qed.

(** * The blocking receive

    It returns all the answers or none: on success the responses it collected
    have the ids of the requests, each once, whatever else arrived. *)
Lemma receive_all_or_nothing {RES} (rid : RES -> str) ids limit acc inputs b rs :
  receive rid ids limit acc inputs = Some (b, rs) ->
  if b then exists got, rs = acc ++ got /\ NoDup (rid <$> got) /\ list_to_set (rid <$> got) = ids else rs = [].
Proof.
  revert ids limit acc. induction inputs as [|[r|] inputs IH]; intros ids limit acc; cbn [receive]; [done| |].
  - destruct (decide (size (ids ∖ {[rid r]}) = 0%nat)) as [E|E].
    + intros [= <- <-]. apply size_empty_inv, leibniz_equiv in E. case_bool_decide as Hin.
      * exists [r]. split; [done|]. split; [apply NoDup_singleton|]. simpl.
        apply leibniz_equiv. intros x. destruct (decide (x = rid r)); set_solver.
      * exists []. rewrite app_nil_r. split; [done|]. split; [constructor|]. simpl. set_solver.
    + intros Hrec. apply IH in Hrec. destruct b; [|done]. destruct Hrec as (got & -> & Hnd & Hids). case_bool_decide as Hin.
      * exists (r :: got). rewrite <- app_assoc. split; [done|]. rewrite fmap_cons. split.
        -- constructor; [|done]. intros Hr. assert (rid r ∈ ids ∖ {[rid r]}); [|set_solver].
           rewrite <- Hids. by apply elem_of_list_to_set.
        -- rewrite list_to_set_cons, Hids. apply leibniz_equiv. intros x. destruct (decide (x = rid r)); set_solver.
      * exists got. split; [done|]. split; [done|]. set_solver.
  - destruct (u32 (limit - 1) =? 0); [by intros [= <- <-]|apply IH].
Qed.
