(* ===== verification/Durable.v ===== *)
(** A worker with its clients of the durable store: the communication helper
    ([include/scheduler/comm_helper.hpp]) calls one client
    ([common/include/anna_client/kvs_client.hpp]) per thread, and turns what the
    client reports into objects of the worker and messages for its scheduler. *)
From stdpp Require Import prelude gmap strings list fin_maps fin_sets.
From Stdlib Require Import ZArith Lia Ascii.
From S2P Require Import Prelude Cpp Effects Proto Common Threads Trigger Sched SchedLoop Comm Dispatch Replica Lattices KvsClient KvsClaims.

Open Scope Z_scope.

(** * State *)
Record worker := mk_worker { w_node : node; kvs_clients : list kvs }.

(** What leaves the worker, for its peers and for the store. *)
Inductive worker_out := WNode (o : node_out) | WStore (o : kvs_out).

Abbreviation WM := (M worker worker_out).

(** The arguments [main] gives the client of a thread. *)
Definition client_conf (kvs_routing_threads : list UserRoutingThread) (ip : str) (tid : Z) : kvs_conf :=
  mk_kvs_conf kvs_routing_threads (new_UserThread ip tid) 30000.

Section durable.
Context `{Layout, Rand, Codec LWWValue} (routing : list UserRoutingThread) (ip : str).

(** * Operations *)
(** [kvs_clients[tid]->m(...)] *)
Definition with_client {A} (tid : Z) (m : KM A) : WM A := fun w =>
  k ← vec_at (kvs_clients w) (Z.to_nat tid);
  match m k with
  | Ok (a, k, o) => Ok (a, mk_worker (w_node w) (<[Z.to_nat tid := k]> (kvs_clients w)), WStore <$> o)
  | Fault f => Fault f
  end.

(** A call of the helper on a client; anything else leaves the worker. *)
Definition client_call (now : Z) (o : node_out) : WM () :=
  match o with
  | KvsGet tid key => with_client tid (get_async (client_conf routing ip tid) now key)
  | KvsPut tid key timestamp data =>
      _ ← with_client tid (put_async (client_conf routing ip tid) now key (serialize_pair timestamp data) LWW);
      mret ()
  | _ => emit (WNode o)
  end.

(** A method of the helper with the calls it makes. The helper reads nothing of
    a client but what [receive_async] returns, so that its calls are made in
    order after it. *)
Definition with_helper {A} (now : Z) (m : CM A) : WM A := fun w =>
  match m (w_node w) with
  | Ok (a, n, o) => (_ ← for_each (client_call now) o; mret a) (mk_worker n (kvs_clients w))
  | Fault f => Fault f
  end.

(** The helper's [get_kvs_responses] on what the sockets of the client hold. *)
Definition poll_client (now tid : Z) (address : option KeyAddressResponse) (response : option KeyResponse) : WM (list RecvMsg) :=
  responses ← with_client tid (receive_async (client_conf routing ip tid) now address response);
  with_helper now (get_kvs_responses tid responses).

(** What a thread of the worker does with the store. *)
Inductive worker_op :=
  | WGet (now tid : Z) (key : str)
  | WPut (now tid : Z) (key data : str)
  | WPoll (now tid : Z) (address : option KeyAddressResponse) (response : option KeyResponse).

Definition worker_step (op : worker_op) : WM (list RecvMsg) :=
  match op with
  | WGet now tid key => _ ← with_helper now (get_kvs_async_base tid key); mret []
  | WPut now tid key data => _ ← with_helper now (put_kvs_async_base (Z.quot now ms) tid key data); mret []
  | WPoll now tid address response => poll_client now tid address response
  end.

(** The messages for the scheduler. *)
Fixpoint worker_run (ops : list worker_op) : WM (list RecvMsg) :=
  match ops with
  | [] => mret []
  | op :: ops => msgs ← worker_step op; rest ← worker_run ops; mret (msgs ++ rest)
  end.

(** * Well-formed workers *)
Definition worker_wf (w : worker) : Prop := Forall kvs_wf (kvs_clients w).
Definition has_client (w : worker) (tid : Z) : Prop := 0 <= tid < Z.of_nat (length (kvs_clients w)).
(** A request is in flight at the client of the thread. *)
Definition awaits (w : worker) (tid : Z) (t : token) : Prop :=
  exists k, kvs_clients w !! Z.to_nat tid = Some k /\ in_flight k t.

(** The worker stays well-formed with as many clients and forgets no request
    but those that [done] answers. *)
Record advances (done : Z -> token -> Prop) (w w' : worker) : Prop := {
  adv_wf : worker_wf w';
  adv_length : length (kvs_clients w') = length (kvs_clients w);
  adv_awaits tid t : 0 <= tid -> awaits w tid t -> awaits w' tid t \/ done tid t }.
Definition nothing (tid : Z) (t : token) : Prop := False.

Lemma advances_refl w : worker_wf w -> advances nothing w w.
Proof. intros ?. split; auto. Qed.
Lemma advances_trans P Q w1 w2 w3 : advances P w1 w2 -> advances Q w2 w3 ->
  advances (fun tid t => P tid t \/ Q tid t) w1 w3.
Proof.
  intros [? L1 A1] [? L2 A2]. split; [done|congruence|]. intros tid t Ht Hw.
  destruct (A1 tid t Ht Hw) as [Hw2|?]; [|tauto]. destruct (A2 tid t Ht Hw2); tauto.
Qed.
Lemma advances_weaken (P Q : Z -> token -> Prop) w w' : (forall tid t, P tid t -> Q tid t) -> advances P w w' -> advances Q w w'.
Proof. intros HPQ [? ? A]. split; [done|done|]. intros tid t Ht Hw. destruct (A tid t Ht Hw); auto. Qed.
Lemma advances_quiet w1 w2 w3 : advances nothing w1 w2 -> advances nothing w2 w3 -> advances nothing w1 w3.
Proof. intros H1' H2'. eapply advances_weaken; [|by eapply advances_trans]. unfold nothing. tauto. Qed.
Lemma has_client_advances P w w' tid : advances P w w' -> has_client w tid -> has_client w' tid.
Proof. intros [_ L _]. unfold has_client. by rewrite L. Qed.

(** A call of the client of a thread. *)
Lemma with_client_runs {A} (rs : A -> list KeyResponse) (m : KM A) tid w :
  worker_wf w -> has_client w tid -> accounts rs m ->
  exists k a k' o, kvs_clients w !! Z.to_nat tid = Some k /\ m k = Ok (a, k', o) /\
    with_client tid m w = Ok (a, mk_worker (w_node w) (<[Z.to_nat tid := k']> (kvs_clients w)), WStore <$> o) /\
    advances (fun tid' t => tid' = tid /\ exists r, r ∈ rs a /\ answers r t) w
      (mk_worker (w_node w) (<[Z.to_nat tid := k']> (kvs_clients w))).
Proof.
  intros Hw Hc Ha. assert (Z.to_nat tid < length (kvs_clients w))%nat as Hlt by (unfold has_client in Hc; lia).
  destruct (lookup_lt_is_Some_2 _ _ Hlt) as [k Hk].
  destruct (Ha k) as (a & k' & o & E & Hk' & Hacc); [exact (Forall_lookup_1 _ _ _ _ Hw Hk)|].
  exists k, a, k', o. split; [done|]. split; [done|]. split; [by unfold with_client, vec_at; rewrite Hk; simpl; rewrite E|].
  split; simpl; [by apply Forall_insert|by rewrite length_insert|].
  intros tid' t Ht (k0 & Hk0 & Hf). unfold awaits. simpl. destruct (decide (tid' = tid)) as [->|Hne].
  - rewrite list_lookup_insert_eq by done. simplify_eq. destruct (Hacc t Hf); [left; eauto|right; eauto].
  - left. rewrite list_lookup_insert_ne by (unfold has_client in Hc; lia). eauto.
Qed.

Hypothesis Hrouting : routing <> [].

Lemma awaits_set w tid k t : has_client w tid -> in_flight k t ->
  awaits (mk_worker (w_node w) (<[Z.to_nat tid := k]> (kvs_clients w))) tid t.
Proof.
  intros Hc Hf. exists k. split; [|done]. simpl. apply list_lookup_insert_eq. unfold has_client in Hc. lia.
Qed.

Lemma get_call_runs now tid key w : worker_wf w -> has_client w tid ->
  exists w' o, client_call now (KvsGet tid key) w = Ok ((), w', o) /\ advances nothing w w' /\ awaits w' tid (TGet key).
Proof.
  intros Hw Hc.
  destruct (with_client_runs (fun _ => []) (get_async (client_conf routing ip tid) now key) tid w Hw Hc)
    as (k & [] & k' & o & Hk & E & Er & Hadv).
  { intros k Hk. destruct (get_async_runs (client_conf routing ip tid) Hrouting now key k Hk) as (k' & o & ? & ? & ? & _). by exists (), k', o. }
  destruct (get_async_runs (client_conf routing ip tid) Hrouting now key k) as (k1 & o1 & E1 & _ & _ & Hf); [exact (Forall_lookup_1 _ _ _ _ Hw Hk)|].
  rewrite E in E1. injection E1 as <- <-. eexists _, _. split; [exact Er|]. split; [|by apply awaits_set].
  eapply advances_weaken; [|exact Hadv]. intros ? ? (_ & r & Hr & _). set_solver.
Qed.

Lemma put_call_runs now tid key ts data w : worker_wf w -> has_client w tid ->
  exists w' o id, client_call now (KvsPut tid key ts data) w = Ok ((), w', o) /\ advances nothing w w' /\ awaits w' tid (TPut id).
Proof.
  intros Hw Hc. set (m := put_async (client_conf routing ip tid) now key (serialize_pair ts data) LWW).
  destruct (with_client_runs (fun _ => []) m tid w Hw Hc) as (k & id & k' & o & Hk & E & Er & Hadv).
  { intros k Hk. destruct (put_async_runs (client_conf routing ip tid) Hrouting now key (serialize_pair ts data) LWW k Hk)
      as (id & k' & o & ? & ? & ? & _). by exists id, k', o. }
  destruct (put_async_runs (client_conf routing ip tid) Hrouting now key (serialize_pair ts data) LWW k)
    as (id1 & k1 & o1 & E1 & _ & _ & Hf); [exact (Forall_lookup_1 _ _ _ _ Hw Hk)|].
  subst m. rewrite E in E1. injection E1 as <- <- <-. eexists _, _, id. split; [by eapply bind_ok_r; [exact Er|]|]. split; [|by apply awaits_set].
  eapply advances_weaken; [|exact Hadv]. intros ? ? (_ & r & Hr & _). set_solver.
Qed.

Definition is_get (tid : Z) (o : node_out) : Prop := exists key, o = KvsGet tid key.

Lemma get_calls_run now tid o w : worker_wf w -> has_client w tid -> Forall (is_get tid) o ->
  exists w' out, for_each (client_call now) o w = Ok ((), w', out) /\ advances nothing w w' /\
    forall key, KvsGet tid key ∈ o -> awaits w' tid (TGet key).
Proof.
  intros Hw Hc Ho. revert w Hw Hc. induction Ho as [|x o [key ->] _ IH]; intros w Hw Hc.
  { exists w, []. split; [done|]. split; [by apply advances_refl|set_solver]. }
  destruct (get_call_runs now tid key w Hw Hc) as (w1 & o1 & E1 & A1 & G1).
  destruct (IH w1) as (w2 & o2 & E2 & A2 & G2); [apply A1|by eapply has_client_advances|].
  exists w2, (o1 ++ o2). split; [by eapply bind_ok_r|]. split; [by eapply advances_quiet|].
  intros key'. rewrite elem_of_cons. intros [[= ->]|Hin]; [|auto].
  destruct A2 as [_ _ A2]. destruct (A2 tid (TGet key)) as [|[]]; [unfold has_client in Hc; lia|done|done].
Qed.

(** * The helper on the answers of a client *)
(** What becomes of an answer to a get. *)
Definition handled (tid : Z) (msgs : list RecvMsg) (o : list node_out) (r : KeyResponse) : Prop :=
  forall tuple, kp_type r = GET -> head (kp_tuples r) = Some tuple ->
    (kp_error r = TIMEOUT -> KvsGet tid (kt_key tuple) ∈ o) /\
    (kp_error r <> TIMEOUT -> kt_error tuple <> KEY_DNE ->
       exists size, recv_data_msg RM_KvsGetResp (kt_key tuple) size ∈ msgs).

Lemma kvs_response_runs tid r n : response_ok r ->
  exists msgs n' o, kvs_response tid r n = Ok (msgs, n', o) /\ Forall (is_get tid) o /\ handled tid msgs o r.
Proof.
  unfold response_ok, kvs_response, handled, vec_at. destruct (kp_tuples r) as [|tuple l]; [done|]. intros _.
  cbn [lookup list_lookup res_of_option head]. run.
  destruct (decide (kp_error r = TIMEOUT)) as [Et|Et]; [destruct (decide (kp_type r = GET)) as [Eg|Eg]|].
  - exists [], n, [KvsGet tid (kt_key tuple)]. split; [done|]. split; [repeat constructor; by eexists|].
    intros ? _ [= <-]. split; [set_solver|done].
  - exists [], n, []. by split.
  - destruct (decide (kp_type r = GET /\ kt_error tuple <> KEY_DNE)) as [Eg|Eg].
    + eexists _, _, []. split; [done|]. split; [done|]. intros ? _ [= <-]. split; [done|]. intros _ _. eexists. by left.
    + destruct (decide (kp_type r = PUT)) as [Ep|Ep]; eexists _, n, []; (split; [done|]); (split; [done|]);
        intros ? ? [= <-]; split; [done| |done|]; intros; exfalso; auto.
Qed.

Lemma get_kvs_responses_runs tid rs n : Forall response_ok rs ->
  exists msgs n' o, get_kvs_responses tid rs n = Ok (msgs, n', o) /\ Forall (is_get tid) o /\ Forall (handled tid msgs o) rs.
Proof.
  intros Hrs. revert n. induction Hrs as [|r rs Hr _ IH]; intros n; [by exists [], n, []|].
  destruct (kvs_response_runs tid r n Hr) as (m1 & n1 & o1 & E1 & G1 & D1). destruct (IH n1) as (m2 & n2 & o2 & E2 & G2 & D2).
  exists (m1 ++ m2), n2, (o1 ++ o2 ++ []). split; [do 2 (eapply bind_ok_r; [eassumption|]); done|].
  rewrite app_nil_r. split; [by apply Forall_app|]. constructor.
  - intros tuple Ht Hh. destruct (D1 tuple Ht Hh) as [Hx Hy]. split; [intros; apply elem_of_app; left; auto|].
    intros ? ?. destruct Hy as [size ?]; [done|done|]. exists size. apply elem_of_app. by left.
  - eapply Forall_impl; [exact D2|]. intros r' Hd tuple Ht Hh. destruct (Hd tuple Ht Hh) as [Hx Hy].
    split; [intros; apply elem_of_app; right; auto|].
    intros ? ?. destruct Hy as [size ?]; [done|done|]. exists size. apply elem_of_app. by right.
Qed.

(** * What a client reports: what arrived, or a time-out *)
Lemma bad_response_timeout r b : generate_bad_response r = Ok b -> kp_error b = TIMEOUT /\ response_ok b.
Proof.
  unfold generate_bad_response, vec_at. destruct (kr_tuples r) as [|t l]; [done|]. intros [= <-]. by split.
Qed.
Definition timed_out (r : KeyResponse) : Prop := kp_error r = TIMEOUT /\ response_ok r.
Lemma bad_responses_timeout reqs bs : mapM generate_bad_response reqs = Ok bs -> Forall timed_out bs.
Proof.
  revert bs. induction reqs as [|r reqs IH]; intros bs; simpl; [by intros [= <-]|].
  destruct (generate_bad_response r) as [b|] eqn:Eb; [|done]. simpl.
  destruct (mapM generate_bad_response reqs) as [bs'|]; [|done]. intros [= <-].
  constructor; [by eapply bad_response_timeout|by apply IH].
Qed.
Lemma time_outs_timeout ps k bs k' o : time_outs ps k = Ok (bs, k', o) -> Forall timed_out bs.
Proof.
  revert k k' bs o. induction ps as [|p ps IH]; intros k k' bs o; cbn [time_outs]; [by intros [= <- _ _]|].
  intros (b & k1 & o1 & o2 & E1 & (rest & k2 & o3 & o4 & E2 & [= <- _ _] & _)%bind_ok & _)%bind_ok.
  constructor; [|by eapply IH]. unfold time_out in E1. apply bind_ok in E1 as (b' & ? & ? & ? & Eb & E1 & _).
  apply bind_ok in E1 as (? & ? & ? & ? & _ & [= <- _ _] & _). unfold lift in Eb.
  destruct (generate_bad_response (request_ p)) as [b0|] eqn:Eb0; [|done]. injection Eb as <- _ _. by eapply bad_response_timeout.
Qed.

Lemma gc_timeout conf now k bs k' o :
  gc_pending conf now k = Ok (bs, k', o) \/ gc_gets conf now k = Ok (bs, k', o) \/ gc_puts conf now k = Ok (bs, k', o) ->
  Forall timed_out bs.
Proof.
  unfold gc_pending, gc_gets, gc_puts. intros [E|[E|E]]; rewrite bind_gets in E;
    apply bind_ok in E as (bad & k1 & ? & ? & Eb & E & _); apply bind_ok in E as (? & ? & ? & ? & _ & [= <- _ _] & _).
  - unfold lift in Eb. destruct (mapM _ _) as [bs|] eqn:Em; [|done]. injection Eb as <- _ _. by eapply bad_responses_timeout.
  - by eapply time_outs_timeout.
  - by eapply time_outs_timeout.
Qed.

Lemma recv_response_result conf now r k rs k' o : recv_response conf now r k = Ok (rs, k', o) -> rs = [] \/ rs = [r].
Proof.
  unfold recv_response, recv_get, recv_put. intros (tuple & ? & ? & ? & _ & E & _)%bind_ok.
  destruct (decide _); rewrite bind_gets in E; destruct (_ : option PendingRequest) as [p|];
    try (injection E as <- _ _; by left);
    apply bind_ok in E as (again & ? & ? & ? & _ & E & _); destruct again;
    apply bind_ok in E as (? & ? & ? & ? & _ & [= <- _ _] & _); auto.
Qed.

Lemma receive_async_sources conf now address response k rs k' o :
  receive_async conf now address response k = Ok (rs, k', o) ->
  Forall (fun r => response = Some r \/ timed_out r) rs.
Proof.
  unfold receive_async. intros (? & k1 & ? & ? & _ & E & _)%bind_ok.
  apply bind_ok in E as (result & k2 & ? & ? & Er & E & _). apply bind_ok in E as (b1 & k3 & ? & ? & E1 & E & _).
  apply bind_ok in E as (b2 & k4 & ? & ? & E2 & E & _). apply bind_ok in E as (b3 & k5 & ? & ? & E3 & [= <- _ _] & _).
  assert (forall b, Forall timed_out b -> Forall (fun r => response = Some r \/ timed_out r) b) as Hlate
    by (intros b Hb; eapply Forall_impl; [exact Hb|auto]).
  rewrite !Forall_app. split; [|split; [|split]; apply Hlate; eapply gc_timeout; eauto].
  destruct response as [r|]; [|injection Er as <- _ _; done]. apply recv_response_result in Er as [->| ->]; auto.
Qed.

(** * The claim *)
(** The store answers the thread that the key does not exist. *)
Definition missing (tid : Z) (key : str) (op : worker_op) : Prop :=
  match op with
  | WPoll _ tid' _ (Some r) => tid' = tid /\ kp_type r = GET /\ kp_error r <> TIMEOUT /\
      exists tuple, head (kp_tuples r) = Some tuple /\ kt_key tuple = key /\ kt_error tuple = KEY_DNE
  | _ => False
  end.
Definition delivered (key : str) (msgs : list RecvMsg) : Prop :=
  exists size, recv_data_msg RM_KvsGetResp key size ∈ msgs.

(** Calls of threads that have a client; what arrives is well-formed. *)
Definition worker_op_ok (n : nat) (op : worker_op) : Prop :=
  match op with
  | WGet _ tid _ => 0 <= tid < Z.of_nat n
  | WPut now tid _ _ => 0 <= tid < Z.of_nat n /\ is_Some (generate_timestamp (Z.quot now ms) tid)
  | WPoll _ tid address response => 0 <= tid < Z.of_nat n /\
      (forall a, address = Some a -> address_ok a) /\ (forall r, response = Some r -> response_ok r)
  end.

(** Each step runs; a get a thread awaits is awaited after it unless the step
    delivers its object or the store says that there is none. *)
Definition serves (missed : Z -> str -> Prop) (w w' : worker) (msgs : list RecvMsg) : Prop :=
  worker_wf w' /\ length (kvs_clients w') = length (kvs_clients w) /\
  forall tid key, 0 <= tid -> awaits w tid (TGet key) ->
    awaits w' tid (TGet key) \/ delivered key msgs \/ missed tid key.

Lemma advances_serves w w' missed msgs : advances nothing w w' -> serves missed w w' msgs.
Proof. intros [? ? A]. split; [done|]. split; [done|]. intros tid key Ht Hw. destruct (A tid _ Ht Hw) as [|[]]; auto. Qed.

Lemma poll_serves now tid address response w : worker_wf w ->
  worker_op_ok (length (kvs_clients w)) (WPoll now tid address response) ->
  exists msgs w' o, poll_client now tid address response w = Ok (msgs, w', o) /\
    serves (fun tid' key => missing tid' key (WPoll now tid address response)) w w' msgs.
Proof.
  intros Hw (Hc & Ha & Hr).
  destruct (with_client_runs (fun rs => rs) (receive_async (client_conf routing ip tid) now address response) tid w Hw Hc)
    as (k & rs & k' & o & Hk & E & Er & Hadv); [by apply receive_async_accounts|].
  pose proof (receive_async_sources _ _ _ _ _ _ _ _ E) as Hsrc. set (w1 := mk_worker _ _) in *.
  destruct (get_kvs_responses_runs tid rs (w_node w1)) as (msgs & n' & o1 & E1 & Ho1 & Hd).
  { eapply Forall_impl; [exact Hsrc|]. intros r [->|[_ ?]]; [by apply Hr|done]. }
  destruct (get_calls_run now tid o1 (mk_worker n' (kvs_clients w1))) as (w2 & o2 & E2 & A2 & G2);
    [apply Hadv|by eapply (has_client_advances _ w w1)|done|].
  exists msgs, w2, ((WStore <$> o) ++ (o2 ++ [])). split.
  { eapply bind_ok_r; [exact Er|]. unfold with_helper. rewrite E1. by eapply bind_ok_r. }
  split; [apply A2|]. split; [rewrite (adv_length _ _ _ A2); apply Hadv|].
  intros tid' key Ht Hf. destruct Hadv as [_ _ A1]. destruct (A1 tid' _ Ht Hf) as [Hf1|(-> & r & Hin & Hg & tuple & Hh & Hkey)].
  { destruct A2 as [_ _ A2]. destruct (A2 tid' (TGet key) Ht Hf1) as [|[]]. by left. }
  rewrite Forall_forall in Hsrc, Hd. destruct (Hd r Hin tuple Hg Hh) as [Dt Dm]. rewrite Hkey in *.
  destruct (decide (kp_error r = TIMEOUT)) as [Et|Et]; [left; auto|right].
  destruct (Hsrc r Hin) as [->|[? _]]; [|done]. destruct (decide (kt_error tuple = KEY_DNE)); [right|left; by apply Dm].
  split; [done|]. split; [done|]. split; [done|]. eauto.
Qed.

Lemma worker_step_serves op w : worker_wf w -> worker_op_ok (length (kvs_clients w)) op ->
  exists msgs w' o, worker_step op w = Ok (msgs, w', o) /\ serves (fun tid key => missing tid key op) w w' msgs /\
    match op with WGet _ tid key => awaits w' tid (TGet key) | _ => True end.
Proof.
  intros Hw Hop. destruct w as [n ks]. destruct op as [now tid key|now tid key data|now tid address response].
  - destruct (get_call_runs now tid key (mk_worker n ks)) as (w' & o & E & A & G); [done|done|].
    exists [], w', (((o ++ []) ++ []) ++ []). split; [|split; [by apply advances_serves|done]].
    do 3 (eapply bind_ok_r; [|done]). exact E.
  - destruct Hop as (Hc & ts & Hts).
    destruct (put_call_runs now tid key ts data (mk_worker n ks)) as (w' & o & id & E & A & G); [done|done|].
    exists [], w', (((o ++ []) ++ []) ++ []). split; [|split; [by apply advances_serves|done]].
    eapply bind_ok_r; [|done]. unfold with_helper, put_kvs_async_base. rewrite Hts. cbn [emit].
    do 2 (eapply bind_ok_r; [|done]). exact E.
  - destruct (poll_serves now tid address response (mk_worker n ks) Hw Hop) as (msgs & w' & o & E & S'). by exists msgs, w', o.
Qed.

Lemma delivered_app key l1 l2 : delivered key (l1 ++ l2) <-> delivered key l1 \/ delivered key l2.
Proof. unfold delivered. setoid_rewrite elem_of_app. naive_solver. Qed.

Lemma worker_run_serves ops w : worker_wf w -> Forall (worker_op_ok (length (kvs_clients w))) ops ->
  exists msgs w' o, worker_run ops w = Ok (msgs, w', o) /\ serves (fun tid key => Exists (missing tid key) ops) w w' msgs.
Proof.
  intros Hw Hops. revert w Hw Hops. induction ops as [|op ops IH]; intros w Hw Hops.
  { exists [], w, []. split; [done|]. apply advances_serves. by apply advances_refl. }
  apply Forall_cons in Hops as [Hop Hops].
  destruct (worker_step_serves op w Hw Hop) as (m1 & w1 & o1 & E1 & (W1 & L1 & S1) & _).
  destruct (IH w1) as (m2 & w2 & o2 & E2 & (W2 & L2 & S2)); [done|by rewrite L1|].
  exists (m1 ++ m2), w2, (o1 ++ o2 ++ []). split; [do 2 (eapply bind_ok_r; [eassumption|]); done|].
  split; [done|]. split; [congruence|]. intros tid key Ht Hf. rewrite delivered_app, Exists_cons.
  destruct (S1 tid key Ht Hf) as [Hf1|[?|?]]; [|tauto|tauto]. destruct (S2 tid key Ht Hf1) as [?|[?|?]]; tauto.
Qed.
End durable.

(** The worker before its first call: one client per thread. *)
Definition worker_init (n : node) (seeds : list Z) : worker := mk_worker n (kvs_init <$> seeds).
Lemma worker_init_wf n seeds : worker_wf (worker_init n seeds).
Proof. apply Forall_fmap, Forall_true. intros seed. apply kvs_wf_init. Qed.

(** C32: a worker does not forget a durable get. In any history of durable gets,
    durable puts and polls of its threads, whatever well-formed answers the store
    and the routing tier give or fail to give, no call faults, and after a thread
    asks for a key, the thread's client awaits the key at the end of the history,
    or the scheduler was sent the message that the object is in shared memory, or
    the store answered that the key does not exist: a request that times out is
    issued again. *)
Theorem durable_get_served (L : Layout) (R : Rand) (C : Codec LWWValue) (routing : list UserRoutingThread) (ip : str)
    (n : node) (seeds : list Z) (before after : list worker_op) (now tid : Z) (key : str) :
  routing <> [] -> Forall (worker_op_ok (length seeds)) (before ++ WGet now tid key :: after) ->
  exists m0 w0 o0 w1 o1 msgs w2 o2,
    worker_run routing ip before (worker_init n seeds) = Ok (m0, w0, o0) /\
    worker_step routing ip (WGet now tid key) w0 = Ok ([], w1, o1) /\
    worker_run routing ip after w1 = Ok (msgs, w2, o2) /\
    (awaits w2 tid (TGet key) \/ delivered key msgs \/ Exists (missing tid key) after).
Proof.
  intros Hr Hall. rewrite Forall_app, Forall_cons in Hall. destruct Hall as (Hb & Hg & Ha).
  assert (length (kvs_clients (worker_init n seeds)) = length seeds) as Hlen by apply length_fmap.
  rewrite <- Hlen in *. clear Hlen.
  destruct (worker_run_serves routing ip Hr before (worker_init n seeds)) as (m0 & w0 & o0 & E0 & W0 & L0 & _);
    [apply worker_init_wf|done|]. rewrite <- L0 in *.
  destruct (worker_step_serves routing ip Hr (WGet now tid key) w0) as (m1 & w1 & o1 & E1 & (W1 & L1 & _) & G1); [done|done|].
  rewrite <- L1 in *. destruct (worker_run_serves routing ip Hr after w1) as (msgs & w2 & o2 & E2 & _ & _ & S2); [done|done|].
  assert (m1 = []) as -> by (apply bind_ok in E1 as (? & ? & ? & ? & _ & [= <- _ _] & _); done).
  exists m0, w0, o0, w1, o1, msgs, w2, o2. repeat (split; [done|]). apply S2; [apply Hg|done].
Qed.

(** Two threads; the second puts a key, asks for another, and hears of two
    servers and of a time-out of the server. *)
Definition demo_routing : list UserRoutingThread := [new_UserRoutingThread (lit "10.0.0.9") 0].
Definition demo_before : list worker_op := [WPut ms 1 (lit "y") (lit "v")].
Definition demo_after : list worker_op :=
  [WPoll (3 * ms) 1 (Some two_servers) None; WPoll (40000 * ms) 1 None None; WPut (40001 * ms) 0 (lit "z") (lit "v")].

Lemma durable_get_served_witness :
  exists m0 w0 o0 w1 o1 msgs w2 o2,
    @worker_run layout_id rand_lcg lww_codec demo_routing (lit "10.0.0.1") demo_before (worker_init empty_node [7; 8]) = Ok (m0, w0, o0) /\
    @worker_step layout_id rand_lcg lww_codec demo_routing (lit "10.0.0.1") (WGet (2 * ms) 1 (lit "x")) w0 = Ok ([], w1, o1) /\
    @worker_run layout_id rand_lcg lww_codec demo_routing (lit "10.0.0.1") demo_after w1 = Ok (msgs, w2, o2) /\
    (awaits w2 1 (TGet (lit "x")) \/ delivered (lit "x") msgs \/ Exists (missing 1 (lit "x")) demo_after).
Proof.
  apply (durable_get_served layout_id rand_lcg lww_codec demo_routing (lit "10.0.0.1") empty_node [7; 8] demo_before demo_after
           (2 * ms) 1 (lit "x")).
  - discriminate.
  - repeat constructor; try discriminate; try (eexists; vm_compute; reflexivity); intros a [= <-].
    eexists. split; [reflexivity|]. intros _. split; [discriminate|].
    repeat constructor; try discriminate; eexists; vm_compute; reflexivity.
Defined.
