(* ===== verification/DurableTrip.v ===== *)
(** An object through the durable store: one worker persists it, another asks
    for it. The store and the routing tier are code of another project; what is
    used of them is stated by [Store]. *)
From stdpp Require Import prelude gmap strings list fin_maps fin_sets.
From Stdlib Require Import ZArith Lia Ascii.
From S2P Require Import Prelude Cpp Effects Proto Common Threads Trigger Sched SchedLoop Comm Dispatch Replica Lattices KvsClient KvsClaims Durable.

Open Scope Z_scope.

(** * The store *)
(** An answer to the request about its one key. *)
Definition replies (r : KeyRequest) (p : KeyResponse) : Prop :=
  kp_type p = kr_type r /\ kp_response_id p = kr_request_id r /\ kp_error p = NO_ERROR /\
  exists tuple tuple', kr_tuples r = [tuple] /\ kp_tuples p = [tuple'] /\
    kt_key tuple' = kt_key tuple /\ kt_error tuple' = NO_ERROR /\ kt_invalidate tuple' = false.

(** A server of the store: it replies; the first put of a key makes the key hold
    the payload; a get of a key returns what it holds. *)
Class Store := {
  store : Type;
  holds : store -> str -> option str;
  serve : store -> KeyRequest -> store * KeyResponse;
  store_put st r tuple : kr_type r = PUT -> kr_tuples r = [tuple] -> holds st (kt_key tuple) = None ->
    replies r (serve st r).2 /\ holds (serve st r).1 (kt_key tuple) = Some (kt_payload tuple);
  store_get st r tuple payload : kr_type r = GET -> kr_tuples r = [tuple] -> holds st (kt_key tuple) = Some payload ->
    replies r (serve st r).2 /\ (kt_payload <$> head (kp_tuples (serve st r).2)) = Some payload }.

(** * A client that has asked for nothing *)
(** The tables of a client. *)
Definition client_at (cache : gmap str (gset str)) pm gm um (k : kvs) : Prop :=
  k_key_address_cache k = cache /\ tables_are pm gm um k.

Lemma client_at_same cache pm gm um k k' : same_tables k k' -> client_at cache pm gm um k -> client_at cache pm gm um k'.
Proof. unfold same_tables, client_at, tables_are. intros (-> & -> & -> & ->). done. Qed.

Section quiet.
Context `{Layout, Rand} (conf : kvs_conf).

Lemma filter_nothing {A} (P : A -> Prop) `{!forall x, Decision (P x)} l : Forall (fun x => ~ P x) l -> filter P l = [].
Proof. induction 1 as [|x l Hx _ IH]; [done|]. by rewrite filter_cons, decide_False. Qed.

(** Nothing times out. *)
Record fresh_at (now : Z) (k : kvs) : Prop := {
  fresh_pending key tp reqs : pending_request_map_ k !! key = Some (tp, reqs) -> expired conf now tp = false;
  fresh_gets key p : pending_get_response_map_ k !! key = Some p -> expired conf now (tp_ p) = false;
  fresh_puts key id p : put_at (pending_put_response_map_ k) key id = Some p -> expired conf now (tp_ p) = false }.

Lemma gc_quiet now k : fresh_at now k ->
  gc_pending conf now k = Ok ([], k, []) /\ gc_gets conf now k = Ok ([], k, []) /\ gc_puts conf now k = Ok ([], k, []).
Proof.
  intros [F1 F2 F3]. unfold gc_pending, gc_gets, gc_puts. rewrite !bind_gets. rewrite !filter_nothing.
  - split; [|split]; by destruct k.
  - apply Forall_forall. intros [[key id] p] Hin%elem_of_put_entries. rewrite (F3 _ _ _ Hin). by intros [].
  - apply Forall_forall. intros [key p] Hin%elem_of_map_iter. rewrite (F2 _ _ Hin). by intros [].
  - apply Forall_forall. intros [key [tp reqs]] Hin%elem_of_map_iter. rewrite (F1 _ _ _ Hin). by intros [].
Qed.

(** A poll at which nothing times out is what it receives. *)
Lemma receive_quiet now address response k k1 o1 rs k2 o2 :
  match address with Some a => recv_address conf now a | None => mret () end k = Ok ((), k1, o1) ->
  match response with Some r => recv_response conf now r | None => mret [] end k1 = Ok (rs, k2, o2) ->
  fresh_at now k2 -> receive_async conf now address response k = Ok (rs, k2, o1 ++ o2).
Proof.
  intros E1 E2 (G1 & G2 & G3)%gc_quiet. rewrite <- (app_nil_r rs), <- (app_nil_r o2).
  unfold receive_async. eapply bind_ok_r; [exact E1|]. eapply bind_ok_r; [exact E2|].
  rewrite (bind_quiet _ _ _ _ _ G1), (bind_quiet _ _ _ _ _ G2), (bind_quiet _ _ _ _ _ G3). done.
Qed.
End quiet.

(** * One request of such a client *)
Section request.
Context `{Layout, Rand} (conf : kvs_conf) (key a : str).
Hypothesis Hrouting : k_routing_threads conf <> [].
Hypothesis Htimeout : 0 <= k_timeout conf.
Hypothesis Ha : a <> [].

Lemma not_expired now : expired conf now now = false.
Proof. unfold expired. rewrite Z.sub_diag. apply Z.ltb_ge. done. Qed.

(** The routing tier is asked, and the request kept. *)
Lemma first_request now r k : request_key r = Ok key -> client_at ∅ ∅ ∅ ∅ k ->
  exists k' o, try_request conf now r k = Ok (None, k', o) /\ client_at ∅ {[key := (now, [r])]} ∅ ∅ k'.
Proof.
  intros Hr Hk. unfold try_request. rewrite Hr. run. unfold get_worker_thread, get_all_worker_threads. run.
  destruct Hk as (Hc & Hp & Hg & Hu). rewrite Hc, decide_True by done. run. rewrite Hp, lookup_empty.
  destruct (query_routing_runs conf Hrouting key k) as (k' & o & E & S). run.
  exists (keep_request now key r k'), (o ++ []). split.
  { eapply bind_ok_r; [exact E|]. run. rewrite decide_True by (by rewrite size_empty). run. done. }
  assert (client_at ∅ ∅ ∅ ∅ k') as (Hc' & Hp' & Hg' & Hu') by (by eapply client_at_same).
  split; [done|]. split; [|done]. unfold keep_request, at_or. simpl. by rewrite Hp', lookup_empty.
Qed.

(** The request as it is sent, and the tables that await its answer. *)
Definition sent_request (r : KeyRequest) : KeyRequest := set_address_cache_size 1 r.
Definition gets_after (now : Z) (r : KeyRequest) : gmap str PendingRequest :=
  if decide (kr_type r = GET) then {[key := mk_PendingRequest now a (sent_request r)]} else ∅.
Definition puts_after (now : Z) (r : KeyRequest) : gmap str (gmap str PendingRequest) :=
  if decide (kr_type r = GET) then ∅ else {[key := {[kr_request_id r := mk_PendingRequest now a (sent_request r)]}]}.

Lemma routed_request now r k pm : request_key r = Ok key -> client_at {[key := {[a]}]} pm ∅ ∅ k ->
  exists k', try_request conf now r k = Ok (Some (sent_request r), k', [ToServer a (sent_request r)]) /\
    client_at {[key := {[a]}]} pm (gets_after now r) (puts_after now r) k'.
Proof.
  intros Hr Hk. unfold try_request. rewrite Hr. run. unfold get_worker_thread, get_all_worker_threads. run.
  pose proof Hk as (Hc & Hp & Hg & Hu). assert (at_or ∅ key (k_key_address_cache k) = {[a]}) as Hat
    by (unfold at_or; by rewrite Hc, lookup_singleton_eq).
  rewrite Hat. rewrite decide_False by set_solver. run. rewrite size_singleton, decide_False by done.
  destruct (draw_kvs_runs 1 k) as (i & k1 & E & Hi & S); [lia|]. assert (i = 0%nat) as -> by lia. run.
  rewrite (bind_quiet _ _ _ _ _ E). assert (set_iter ({[a]} : gset str) = [a]) as ->
    by (unfold set_iter; apply Permutation_singleton_r; by rewrite order_perm, elements_singleton).
  cbn [vec_at lookup list_lookup res_of_option]. run. rewrite decide_False by done. run.
  assert (client_at {[key := {[a]}]} pm ∅ ∅ k1) as (Hc1 & Hp1 & Hg1 & Hu1) by (by eapply client_at_same).
  replace (at_or ∅ key (k_key_address_cache k1)) with ({[a]} : gset str) by (unfold at_or; by rewrite Hc1, lookup_singleton_eq).
  rewrite size_singleton. eexists. split; [apply bind_emit; run; done|].
  unfold gets_after, puts_after. change (kr_type (set_address_cache_size _ r)) with (kr_type r).
  destruct (decide (kr_type r = GET)); (split; [done|]); (split; [done|]); split; simpl; try done.
  - unfold at_or. by rewrite Hg1, lookup_empty.
  - unfold at_or. by rewrite Hu1, lookup_empty.
Qed.

(** The routing tier's answer: one server. *)
Definition one_server (rid : str) : KeyAddressResponse := mk_KeyAddressResponse [mk_KeyAddress key [a]] Proto.NO_ERROR rid.

Lemma fresh_after now r k cache : client_at cache ∅ (gets_after now r) (puts_after now r) k -> fresh_at conf now k.
Proof.
  intros (_ & Hp & Hg & Hu). split.
  - rewrite Hp. intros ? ? ?. by rewrite lookup_empty.
  - intros key' p. rewrite Hg. unfold gets_after. destruct (decide _); [|by rewrite lookup_empty].
    intros [_ <-]%lookup_singleton_Some. apply not_expired.
  - intros key' id p. rewrite Hu. unfold puts_after, put_at. destruct (decide _); [by rewrite lookup_empty|].
    intros (ids & [_ <-]%lookup_singleton_Some & [_ <-]%lookup_singleton_Some)%bind_Some. apply not_expired.
Qed.

Lemma poll_routed t0 t1 r rid k : request_key r = Ok key -> client_at ∅ {[key := (t0, [r])]} ∅ ∅ k ->
  exists k', receive_async conf t1 (Some (one_server rid)) None k = Ok ([], k', [ToServer a (sent_request r)]) /\
    client_at {[key := {[a]}]} ∅ (gets_after t1 r) (puts_after t1 r) k'.
Proof.
  intros Hr (Hc & Hp & Hg & Hu).
  destruct (routed_request t1 r (add_addresses key [a] k) {[key := (t0, [r])]} Hr) as (k1 & E & Hk1).
  { split; [|done]. simpl. rewrite Hc. unfold at_or. rewrite lookup_empty. simpl. by rewrite union_empty_r_L. }
  pose proof Hk1 as (Hc1 & Hp1 & Hg1 & Hu1).
  assert (client_at {[key := {[a]}]} ∅ (gets_after t1 r) (puts_after t1 r) (upd_pending (delete key) k1)) as Hk2.
  { split; [done|]. split; [|done]. simpl. rewrite Hp1. apply delete_singleton_eq. }
  eexists. split; [|exact Hk2]. rewrite <- (app_nil_r [ToServer _ _]).
  eapply receive_quiet; [|done|by eapply fresh_after]. unfold recv_address. cbn [one_server kap_addresses vec_at lookup list_lookup res_of_option].
  run. cbn [ka_key]. rewrite Hp, lookup_singleton_eq. rewrite decide_False by done. run.
  eapply (bind_ok_r _ _ _ () k1 [ToServer a (sent_request r)] _ _ []); [|done].
  unfold retry_requests. cbn [for_each ka_ips]. eapply (bind_ok_r _ _ _ () k1 [ToServer a (sent_request r)] _ _ []); [|done].
  by eapply (bind_ok_r _ _ _ _ _ [ToServer a (sent_request r)] _ _ []).
Qed.

Lemma fresh_empty now k cache : client_at cache ∅ ∅ ∅ k -> fresh_at conf now k.
Proof.
  intros (_ & Hp & Hg & Hu). split; [rewrite Hp|rewrite Hg|unfold put_at; rewrite Hu]; intros *; by rewrite lookup_empty.
Qed.

Lemma poll_answered t1 t2 r p k : request_key r = Ok key -> replies (sent_request r) p ->
  client_at {[key := {[a]}]} ∅ (gets_after t1 r) (puts_after t1 r) k ->
  exists k', receive_async conf t2 None (Some p) k = Ok ([p], k', []) /\ client_at {[key := {[a]}]} ∅ ∅ ∅ k'.
Proof.
  intros Hr (Hty & Hid & He & tuple & tuple' & Htr & Htp & Hkey & Hte & Hinv) (Hc & Hp & Hg & Hu).
  assert (kt_key tuple' = key) as Hk'.
  { rewrite Hkey. unfold request_key, sent_request, set_address_cache_size, vec_at in *.
    destruct (kr_tuples r) as [|t l]; [done|]. simpl in *. injection Htr as <- _. by injection Hr as <-. }
  change (kr_type (sent_request r)) with (kr_type r) in Hty. change (kr_request_id (sent_request r)) with (kr_request_id r) in Hid.
  assert (exists k', recv_response conf t2 p k = Ok ([p], k', []) /\ client_at {[key := {[a]}]} ∅ ∅ ∅ k') as (k' & E & Hk0).
  { unfold recv_response. rewrite Htp. cbn [vec_at lookup list_lookup res_of_option]. run. rewrite Hty.
    unfold gets_after, puts_after in *.
    destruct (decide (kr_type r = GET)); unfold recv_get, recv_put; run; rewrite Hk', ?Hid;
      [rewrite Hg|rewrite Hu]; rewrite lookup_singleton_eq; cbn [mbind option_bind]; rewrite ?lookup_singleton_eq;
      unfold check_tuple; rewrite decide_False by congruence; rewrite Hinv; run; (eexists; split; [done|]);
      (split; [done|]); (split; [done|]); split; simpl; try done.
    - rewrite Hg. apply delete_singleton_eq.
    - rewrite Hu. unfold at_or. rewrite lookup_singleton_eq. simpl. rewrite delete_singleton_eq.
      rewrite decide_True by apply map_size_empty. apply delete_singleton_eq. }
  exists k'. split; [|done]. eapply (receive_quiet conf t2 None (Some p) k k [] _ _ []); [done|done|by eapply fresh_empty].
Qed.
End request.

(** * One request of a worker *)
Section worker_request.
Context `{Layout, Rand, Codec LWWValue} (routing : list UserRoutingThread) (ip : str) (tid : Z) (key a : str).
Hypothesis Hrouting : routing <> [].
Hypothesis Ha : a <> [].

Abbreviation conf := (client_conf routing ip tid).
Definition set_client (n : node) (k : kvs) (w : worker) : worker :=
  mk_worker n (<[Z.to_nat tid := k]> (kvs_clients w)).

Lemma with_client_ok {A} (m : KM A) w k r k' o : kvs_clients w !! Z.to_nat tid = Some k -> m k = Ok (r, k', o) ->
  with_client tid m w = Ok (r, set_client (w_node w) k' w, WStore <$> o).
Proof. intros Hk E. unfold with_client, vec_at. rewrite Hk. simpl. by rewrite E. Qed.

Lemma poll_client_ok now address response w k rs k' o msgs n' : kvs_clients w !! Z.to_nat tid = Some k ->
  receive_async conf now address response k = Ok (rs, k', o) ->
  get_kvs_responses tid rs (w_node w) = Ok (msgs, n', []) ->
  poll_client routing ip now tid address response w = Ok (msgs, set_client n' k' w, WStore <$> o).
Proof.
  intros Hk E Em. rewrite <- (app_nil_r (_ <$> _)). eapply bind_ok_r; [by eapply with_client_ok|].
  unfold with_helper. simpl. rewrite Em. done.
Qed.

Lemma set_client_lookup n k w k0 : kvs_clients w !! Z.to_nat tid = Some k0 ->
  kvs_clients (set_client n k w) !! Z.to_nat tid = Some k.
Proof. intros Hk. apply list_lookup_insert_eq. by eapply lookup_lt_Some. Qed.

(** From the kept request on: it goes to the server the routing tier names, and
    the helper handles the server's reply. *)
Lemma request_served t0 t1 t2 r rid w k : kvs_clients w !! Z.to_nat tid = Some k ->
  client_at ∅ {[key := (t0, [r])]} ∅ ∅ k -> request_key r = Ok key ->
  exists w2, worker_step routing ip (WPoll t1 tid (Some (one_server key a rid)) None) w =
      Ok ([], w2, [WStore (ToServer a (sent_request r))]) /\
    forall p msgs n', replies (sent_request r) p -> kvs_response tid p (w_node w) = Ok (msgs, n', []) ->
    exists w3, worker_step routing ip (WPoll t2 tid None (Some p)) w2 = Ok (msgs, w3, []) /\ w_node w3 = n'.
Proof.
  intros Hk Hat Hr. destruct (poll_routed conf key a Hrouting ltac:(done) Ha t0 t1 r rid k Hr Hat) as (k2 & E2 & Hat2).
  exists (set_client (w_node w) k2 w). split; [by apply (poll_client_ok t1 _ None w k [] k2 [ToServer a (sent_request r)])|].
  intros p msgs n' Hp Em.
  destruct (poll_answered conf key a t1 t2 r p k2 Hr Hp Hat2) as (k3 & E3 & _).
  exists (set_client n' k3 (set_client (w_node w) k2 w)). split; [|done].
  apply (poll_client_ok t2 None (Some p) _ k2 [p] k3 []); [by eapply set_client_lookup|done|].
  rewrite <- (app_nil_r msgs). by apply (bind_ok_r _ _ _ msgs n' [] _ _ []).
Qed.

Lemma init_client n seeds : 0 <= tid < Z.of_nat (length seeds) ->
  exists seed, kvs_clients (worker_init n seeds) !! Z.to_nat tid = Some (kvs_init seed).
Proof.
  intros Ht. destruct (lookup_lt_is_Some_2 seeds (Z.to_nat tid)) as [seed Hs]; [lia|].
  exists seed. simpl. by rewrite list_lookup_fmap, Hs.
Qed.

(** A request of a fresh client, whatever its id. *)
Lemma request_kept t0 ty tuple seed : kt_key tuple = key ->
  exists id k1 k' o, let r := mk_KeyRequest ty [tuple] (ut_response_connect_address (k_ut conf)) id in
    prepare_data_request conf ty tuple (kvs_init seed) = Ok (r, k1, []) /\
    try_request conf t0 r k1 = Ok (None, k', o) /\ client_at ∅ {[key := (t0, [r])]} ∅ ∅ k'.
Proof.
  intros Hkey. destruct (request_id_runs conf (kvs_init seed)) as (id & k1 & E1 & S1).
  destruct (first_request conf key Hrouting t0 (mk_KeyRequest ty [tuple] (ut_response_connect_address (k_ut conf)) id) k1)
    as (k' & o & E & Hat); [by rewrite <- Hkey|by eapply client_at_same|].
  exists id, k1, k', o. split; [|done]. unfold prepare_data_request. by rewrite (bind_quiet _ _ _ _ _ E1).
Qed.

Lemma put_kept t0 data n seeds ts : 0 <= tid < Z.of_nat (length seeds) -> generate_timestamp (Z.quot t0 ms) tid = Some ts ->
  exists id k' o, let r := mk_KeyRequest PUT [mk_KeyTuple key LWW NO_ERROR (serialize_pair ts data) 0 false]
                             (ut_response_connect_address (k_ut conf)) id in
    worker_step routing ip (WPut t0 tid key data) (worker_init n seeds) = Ok ([], set_client n k' (worker_init n seeds), o) /\
    kvs_clients (set_client n k' (worker_init n seeds)) !! Z.to_nat tid = Some k' /\
    client_at ∅ {[key := (t0, [r])]} ∅ ∅ k'.
Proof.
  intros Ht Hts. destruct (init_client n seeds Ht) as [seed Hk].
  set (tuple := mk_KeyTuple key LWW NO_ERROR (serialize_pair ts data) 0 false).
  destruct (request_kept t0 PUT tuple seed) as (id & k1 & k' & o & E1 & E & Hat); [done|].
  exists id, k', (((((WStore <$> o ++ []) ++ []) ++ []) ++ []) ++ []).
  split; [|split; [by eapply set_client_lookup|done]]. eapply bind_ok_r; [|done].
  unfold with_helper, put_kvs_async_base. rewrite Hts. cbn [emit]. do 2 (eapply bind_ok_r; [|done]).
  cbn [client_call]. eapply bind_ok_r; [|done]. eapply (with_client_ok _ (worker_init n seeds)); [exact Hk|].
  unfold put_async. rewrite (bind_quiet _ _ _ _ _ E1). by eapply bind_ok_r.
Qed.

Lemma get_kept t0 n seeds : 0 <= tid < Z.of_nat (length seeds) ->
  exists id k' o, let r := mk_KeyRequest GET [mk_KeyTuple key NONE NO_ERROR [] 0 false]
                             (ut_response_connect_address (k_ut conf)) id in
    worker_step routing ip (WGet t0 tid key) (worker_init n seeds) = Ok ([], set_client n k' (worker_init n seeds), o) /\
    kvs_clients (set_client n k' (worker_init n seeds)) !! Z.to_nat tid = Some k' /\
    client_at ∅ {[key := (t0, [r])]} ∅ ∅ k'.
Proof.
  intros Ht. destruct (init_client n seeds Ht) as [seed Hk].
  set (tuple := mk_KeyTuple key NONE NO_ERROR [] 0 false).
  destruct (request_kept t0 GET tuple seed) as (id & k1 & k' & o & E1 & E & Hat); [done|].
  exists id, k', ((((WStore <$> o ++ []) ++ []) ++ []) ++ []).
  split; [|split; [by eapply set_client_lookup|done]]. do 3 (eapply bind_ok_r; [|done]).
  cbn [client_call]. eapply (with_client_ok _ (worker_init n seeds)); [exact Hk|].
  unfold get_async. rewrite bind_gets. simpl. rewrite lookup_empty.
  rewrite (bind_quiet _ _ _ _ _ E1). by eapply bind_ok_r.
Qed.

(** The helper on the replies of the store. *)
Lemma put_response n r p tuple : kr_type r = PUT -> kr_tuples r = [tuple] -> kt_key tuple = key -> replies r p ->
  kvs_response tid p n = Ok ([recv_data_msg RM_KvsPutResp key 0], n, []).
Proof.
  intros Hty Htr Hkey (Ety & _ & Ee & t & t' & Et & Et' & Ek & _). unfold kvs_response. rewrite Et'.
  cbn [vec_at lookup list_lookup res_of_option]. run. rewrite Ee, Ety, Hty, decide_False by done.
  rewrite decide_False by (by intros [? _]). rewrite decide_True by done. rewrite Htr in Et. injection Et as <-. by rewrite Ek, Hkey.
Qed.

Lemma get_response n r p tuple ts data : kr_type r = GET -> kr_tuples r = [tuple] -> kt_key tuple = key -> replies r p ->
  kt_payload <$> head (kp_tuples p) = Some (serialize_pair ts data) ->
  kvs_response tid p n = Ok ([recv_data_msg RM_KvsGetResp key (u32 (Z.of_nat (length data)))],
    mk_node (copy_to_shm_obj (kvsKeyPrefix ++ kDelimiter ++ key) data (n_sched n)) (n_comm n), []).
Proof.
  intros Hty Htr Hkey (Ety & _ & Ee & t & t' & Et & Et' & Ek & Eerr & _). unfold kvs_response. rewrite Et'. simpl. intros [= Hpay].
  cbn [vec_at lookup list_lookup res_of_option]. run. rewrite Ee, Ety, Hty, decide_False by done.
  rewrite decide_True by (by rewrite Eerr). rewrite Hpay. unfold serialize_pair. rewrite parse_serialize. rewrite Htr in Et. injection Et as <-. by rewrite Ek, Hkey.
Qed.
End worker_request.


(** A store that keeps everything in a map. *)
Definition map_serve (st : gmap str str) (r : KeyRequest) : gmap str str * KeyResponse :=
  match kr_tuples r with
  | [tuple] =>
      if decide (kr_type r = PUT) then
        (<[kt_key tuple := kt_payload tuple]> st,
         mk_KeyResponse PUT [mk_KeyTuple (kt_key tuple) LWW NO_ERROR [] 0 false] (kr_request_id r) Proto.NO_ERROR)
      else
        (st, mk_KeyResponse (kr_type r)
               [mk_KeyTuple (kt_key tuple) LWW NO_ERROR (default [] (st !! kt_key tuple)) 0 false] (kr_request_id r) Proto.NO_ERROR)
  | _ => (st, mk_KeyResponse (kr_type r) [] (kr_request_id r) Proto.NO_ERROR)
  end.
Definition map_store : Store.
Proof.
  refine {| store := gmap str str; holds st key := st !! key; serve := map_serve |}.
  - intros st r tuple Hty Htr _. unfold map_serve. rewrite Htr, decide_True by done. split; [|apply lookup_insert_eq].
    repeat split; [done|]. exists tuple. eexists. repeat split. done.
  - intros st r tuple payload Hty Htr Hst. unfold map_serve. rewrite Htr, decide_False by congruence. simpl. rewrite Hst.
    split; [|done]. repeat split. exists tuple. eexists. repeat split. done.
Defined.

