(* ===== verification/Interleave.v ===== *)
(** Threads that share memory. A thread is a local state and a step function
    whose every step makes at most one access to the shared state; a schedule
    says which thread moves next, and how what the language leaves open of that
    step turns out. The memory is sequentially consistent. The rely-guarantee
    rule reduces an invariant of all schedules to one step of one thread. *)
From stdpp Require Import prelude list.
From Stdlib Require Import Lia.
From S2P Require Import Prelude.

Section system.
Context {G L E W : Type}.
(** [None]: the thread has nothing to do. *)
Variable step : W -> G -> L -> option (G * L * list E).

Definition sys : Type := G * list L.
Definition event : Type := nat * E.

(** The thread moves; its events carry its number. *)
Definition sys_step (s : sys) (c : nat * W) : sys * list event :=
  let '(i, w) := c in
  match s.2 !! i with
  | None => (s, [])
  | Some l =>
      match step w s.1 l with
      | None => (s, [])
      | Some (g', l', es) => ((g', <[i := l']> s.2), pair i <$> es)
      end
  end.

Fixpoint sys_run (s : sys) (sched : list (nat * W)) : sys * list event :=
  match sched with
  | [] => (s, [])
  | c :: sched =>
      let '(s1, es1) := sys_step s c in
      let '(s2, es2) := sys_run s1 sched in (s2, es1 ++ es2)
  end.

Lemma sys_run_app s sched1 sched2 :
  sys_run s (sched1 ++ sched2) =
  let '(s1, es1) := sys_run s sched1 in let '(s2, es2) := sys_run s1 sched2 in (s2, es1 ++ es2).
Proof.
  revert s. induction sched1 as [|c sched1 IH]; intros s; simpl; [by destruct (sys_run s sched2)|].
  destruct (sys_step s c) as [s1 es1]. rewrite IH. destruct (sys_run s1 sched1) as [s2 es2].
  destruct (sys_run s2 sched2) as [s3 es3]. by rewrite app_assoc.
Qed.

(** A property of states and histories that every step keeps holds of every
    run. *)
Lemma sys_run_inv (I : sys -> list event -> Prop) s sched :
  I s [] -> (forall s es c, I s es -> I (sys_step s c).1 (es ++ (sys_step s c).2)) ->
  I (sys_run s sched).1 (sys_run s sched).2.
Proof.
  intros Hs Hstep. enough (forall es, I s es -> I (sys_run s sched).1 (es ++ (sys_run s sched).2)) as Hg by (by apply (Hg [])).
  clear Hs. revert s. induction sched as [|c sched IH]; intros s es Hs; simpl; [by rewrite app_nil_r|].
  specialize (Hstep s es c Hs). destruct (sys_step s c) as [s1 es1]. specialize (IH s1 _ Hstep).
  destruct (sys_run s1 sched) as [s2 es2]. simpl in *. by rewrite app_assoc.
Qed.

(** A thread that runs alone, for [k] steps. *)
Fixpoint solo (w : W) (k : nat) (g : G) (l : L) : option (G * L * list E) :=
  match k with
  | O => Some (g, l, [])
  | S k =>
      match step w g l with
      | None => None
      | Some (g1, l1, es1) =>
          match solo w k g1 l1 with
          | None => None
          | Some (g2, l2, es2) => Some (g2, l2, es1 ++ es2)
          end
      end
  end.

Lemma solo_step w k g l g1 l1 es1 g2 l2 es2 :
  step w g l = Some (g1, l1, es1) -> solo w k g1 l1 = Some (g2, l2, es2) ->
  solo w (S k) g l = Some (g2, l2, es1 ++ es2).
Proof. intros E1 E2. simpl. by rewrite E1, E2. Qed.

Lemma solo_run w k g l g' l' es i ls : solo w k g l = Some (g', l', es) -> ls !! i = Some l ->
  sys_run (g, ls) (replicate k (i, w)) = ((g', <[i := l']> ls), pair i <$> es).
Proof.
  revert g l ls es. induction k as [|k IH]; intros g l ls es; simpl.
  { intros [= <- <- <-] Hl. by rewrite list_insert_id. }
  destruct (step w g l) as [[[g1 l1] es1]|] eqn:E1; [|done]. destruct (solo w k g1 l1) as [[[g2 l2] es2]|] eqn:E2; [|done].
  intros [= <- <- <-] Hl. rewrite Hl, E1.
  rewrite (IH _ _ (<[i := l1]> ls) _ E2); [|apply list_lookup_insert_eq; by eapply lookup_lt_Some].
  by rewrite list_insert_insert_eq, fmap_app.
Qed.

(** * Rely and guarantee

    [A] is auxiliary state that the proof keeps beside the shared state; a
    thread's assertion holds whatever the others do within their guarantee. *)
Section rely_guarantee.
Context {A : Type}.
Variables (global : nat -> G -> A -> list event -> Prop) (local : nat -> G -> A -> L -> Prop)
  (guar : nat -> G -> A -> G -> A -> Prop) (fits : list event -> Prop).
(** The histories considered, closed under prefixes. *)
Hypothesis fits_prefix : forall es es', fits (es ++ es') -> fits es.
(** One step of one thread. *)
Hypothesis step_ok : forall n i w g a l g' l' es new,
  (i < n)%nat -> global n g a es -> local i g a l -> fits (es ++ (pair i <$> new)) ->
  step w g l = Some (g', l', new) ->
  exists a', global n g' a' (es ++ (pair i <$> new)) /\ local i g' a' l' /\ guar i g a g' a'.
Hypothesis stable : forall i j g a g' a' l, i <> j -> guar i g a g' a' -> local j g a l -> local j g' a' l.

Definition holds (s : sys) (es : list event) : Prop :=
  exists a, global (length s.2) s.1 a es /\ forall i l, s.2 !! i = Some l -> local i s.1 a l.

Lemma holds_step s es c :
  holds s es -> fits (es ++ (sys_step s c).2) -> holds (sys_step s c).1 (es ++ (sys_step s c).2).
Proof.
  destruct s as [g ls], c as [i w]. intros (a & Hg & Hl). unfold sys_step. simpl in *.
  destruct (ls !! i) as [l|] eqn:Ei; simpl; [|intros _; rewrite app_nil_r; by exists a].
  destruct (step w g l) as [[[g' l'] new]|] eqn:Es; simpl; [|intros _; rewrite app_nil_r; by exists a].
  intros Hfits. destruct (step_ok (length ls) i w g a l g' l' es new) as (a' & Hg' & Hl' & Hguar); try done; [by eapply lookup_lt_Some|by apply Hl|].
  exists a'. simpl. rewrite length_insert. split; [done|]. intros j lj.
  intros [(<- & <- & _)|(Hne & Hj)]%list_lookup_insert_Some; [done|]. eapply stable; [exact Hne|done|by apply Hl].
Qed.

Lemma holds_run s sched :
  holds s [] -> fits (sys_run s sched).2 -> holds (sys_run s sched).1 (sys_run s sched).2.
Proof.
  intros Hs. apply (sys_run_inv (fun s es => fits es -> holds s es)); [done|].
  intros s' es c IH Hf. apply holds_step; [|done]. eapply IH, fits_prefix, Hf.
Qed.
End rely_guarantee.
End system.
Arguments sys : clear implicits.
Arguments event : clear implicits.

(** * Counting threads *)
Definition count {A} (f : A -> bool) (ls : list A) : nat := length (List.filter f ls).

Lemma count_insert {A} (f : A -> bool) ls i l l' : ls !! i = Some l ->
  (count f (<[i := l']> ls) + Nat.b2n (f l) = count f ls + Nat.b2n (f l'))%nat.
Proof.
  unfold count. revert i. induction ls as [|x ls IH]; intros [|i] Hi; try done.
  - injection Hi as ->. change (<[0%nat := l']> (l :: ls)) with (l' :: ls). cbn [List.filter]. destruct (f l), (f l'); cbn [length Nat.b2n]; lia.
  - change (<[S i := l']> (x :: ls)) with (x :: <[i := l']> ls). specialize (IH _ Hi). cbn [List.filter]. destruct (f x); cbn [length]; lia.
Qed.
Lemma count_pos {A} (f : A -> bool) ls i l : ls !! i = Some l -> f l = true -> (0 < count f ls)%nat.
Proof.
  unfold count. revert i. induction ls as [|x ls IH]; intros [|i] Hi Hf; try done; cbn [List.filter].
  - injection Hi as ->. rewrite Hf. cbn. lia.
  - specialize (IH _ Hi Hf). destruct (f x); cbn [length]; lia.
Qed.
Lemma count_le {A} (f : A -> bool) ls : (count f ls <= length ls)%nat.
Proof. unfold count. induction ls as [|x ls IH]; [done|]. cbn [List.filter length]. destruct (f x); cbn [length]; lia. Qed.
Lemma count_zero {A} (f : A -> bool) ls i l : count f ls = 0%nat -> ls !! i = Some l -> f l = false.
Proof. intros Hz Hi. destruct (f l) eqn:E; [|done]. pose proof (count_pos f ls i l Hi E). lia. Qed.
