(* ===== verification/Ring.v ===== *)
(** The ring of a channel with several senders and several receivers
    ([shm-ipc/src/libipc/prod_cons.h], multi-multi-unicast), the one every
    message between an executor and the scheduler passes through. Each sender and
    receiver is a thread; each constructor of [mm_pc] is the point before one
    access to shared memory. *)
From stdpp Require Import prelude list functions.
From Stdlib Require Import ZArith Lia.
From S2P Require Import Prelude Cpp Interleave.

Open Scope Z_scope.

(** * circ/elem_def.h *)
Definition index_of (c : Z) : Z := u8 c.
Definition elem_max : Z := 256.
(** The complement of a 64-bit number. *)
Definition not64 (x : Z) : Z := 2 ^ 64 - 1 - x.

Section ring.
Context {V : Type}.

(** * State *)
Record elem := mk_elem { data_ : V; f_ct_ : Z }.
Record ring := mk_ring { rd_ : Z; wt_ : Z; ct_ : Z; elems_ : Z -> elem }.

Definition set_rd x (g : ring) := mk_ring x (wt_ g) (ct_ g) (elems_ g).
Definition set_wt x (g : ring) := mk_ring (rd_ g) x (ct_ g) (elems_ g).
Definition set_ct x (g : ring) := mk_ring (rd_ g) (wt_ g) x (elems_ g).
Definition upd_elem (i : Z) (f : elem -> elem) (g : ring) :=
  mk_ring (rd_ g) (wt_ g) (ct_ g) (<[i := f (elems_ g i)]> (elems_ g)).
Definition set_data (i : Z) (v : V) := upd_elem i (fun e => mk_elem v (f_ct_ e)).
Definition set_flag (i : Z) (x : Z) := upd_elem i (fun e => mk_elem (data_ e) x).

Definition ring_init (zero : V) : ring := mk_ring 0 0 0 (fun _ => mk_elem zero 0).

(** * Threads *)
Inductive mm_op := Push (v : V) | Pop.
Inductive mm_result := RPush (v : V) (b : bool) | RPop (r : option V).
(** A push takes effect when its place is reserved, a pop when the read index
    moves. *)
Inductive mm_event := EPush (v : V) | EPop (v : V).

Inductive mm_pc :=
  | Idle
  (* push *)
  | PLoadCt (v : V)
  | PLoadRd (v : V) (cur_ct : Z)
  | PCasCt (v : V) (cur_ct : Z)
  | PBegin (v : V) (cur_ct : Z)
  | PData (v : V) (cur_ct : Z)
  | PFlag (v : V) (cur_ct : Z)
  | CLoadFlag (v : V) (cur_ct : Z)
  | CLoadWt (v : V) (cur_ct cac_ct : Z)
  | CCas (v : V) (cur_ct cac_ct : Z)
  | CStoreWt (v : V) (cur_ct : Z)
  (* pop *)
  | QLoadRd
  | QLoadWt (cur_rd : Z)
  | QLoadFlag (cur_wt : Z)
  | QCasFlag (cur_wt cac_ct : Z)
  | QStoreWt (cur_wt : Z)
  | QCopy (cur_rd : Z)
  | QCasRd (cur_rd : Z) (buff : V).

Record thread := mk_thread { todo : list mm_op; pc : mm_pc; results : list mm_result }.

Definition goto (p : mm_pc) (l : thread) := mk_thread (todo l) p (results l).
Definition finish (r : mm_result) (l : thread) := mk_thread (todo l) Idle (results l ++ [r]).

(** What a step leaves open: whether a weak compare-and-exchange fails although
    the values agree, and what a concurrent reader finds in an element that is
    being written. *)
Record choice := mk_choice { spurious : bool; torn : V }.

(** [push] and its loops; [yield] has no effect on the state. *)
Definition push_step (w : choice) (g : ring) (l : thread) (p : mm_pc) : option (ring * thread * list mm_event) :=
  match p with
  | PLoadCt v => Some (g, goto (PLoadRd v (ct_ g)) l, [])
  | PLoadRd v cur_ct =>
      if index_of (u32 (cur_ct + 1)) =? index_of (rd_ g) then Some (g, finish (RPush v false) l, [])
      else Some (g, goto (PCasCt v cur_ct) l, [])
  | PCasCt v cur_ct =>
      if negb (spurious w) && (ct_ g =? cur_ct)
      then Some (set_ct (u32 (cur_ct + 1)) g, goto (PBegin v cur_ct) l, [EPush v])
      else Some (g, goto (PLoadCt v) l, [])
  | PBegin v cur_ct => Some (set_data (index_of cur_ct) (torn w) g, goto (PData v cur_ct) l, [])
  | PData v cur_ct => Some (set_data (index_of cur_ct) v g, goto (PFlag v cur_ct) l, [])
  | PFlag v cur_ct => Some (set_flag (index_of cur_ct) (not64 cur_ct) g, goto (CLoadFlag v cur_ct) l, [])
  | CLoadFlag v cur_ct => Some (g, goto (CLoadWt v cur_ct (f_ct_ (elems_ g (index_of cur_ct)))) l, [])
  | CLoadWt v cur_ct cac_ct =>
      if negb (cur_ct =? wt_ g) then Some (g, finish (RPush v true) l, [])
      else if negb (not64 cac_ct =? cur_ct) then Some (g, finish (RPush v true) l, [])
      else Some (g, goto (CCas v cur_ct cac_ct) l, [])
  | CCas v cur_ct cac_ct =>
      if f_ct_ (elems_ g (index_of cur_ct)) =? cac_ct
      then Some (set_flag (index_of cur_ct) 0 g, goto (CStoreWt v cur_ct) l, [])
      else Some (g, finish (RPush v true) l, [])
  | CStoreWt v cur_ct => Some (set_wt (u32 (cur_ct + 1)) g, goto (CLoadFlag v (u32 (cur_ct + 1))) l, [])
  | _ => None
  end.

Definition pop_step (w : choice) (g : ring) (l : thread) (p : mm_pc) : option (ring * thread * list mm_event) :=
  match p with
  | QLoadRd => Some (g, goto (QLoadWt (rd_ g)) l, [])
  | QLoadWt cur_rd =>
      let cur_wt := wt_ g in
      if index_of cur_rd =? index_of cur_wt then Some (g, goto (QLoadFlag cur_wt) l, [])
      else Some (g, goto (QCopy cur_rd) l, [])
  | QLoadFlag cur_wt =>
      let cac_ct := f_ct_ (elems_ g (index_of cur_wt)) in
      if negb (not64 cac_ct =? cur_wt) then Some (g, finish (RPop None) l, [])
      else Some (g, goto (QCasFlag cur_wt cac_ct) l, [])
  | QCasFlag cur_wt cac_ct =>
      if negb (spurious w) && (f_ct_ (elems_ g (index_of cur_wt)) =? cac_ct)
      then Some (set_flag (index_of cur_wt) 0 g, goto (QStoreWt cur_wt) l, [])
      else Some (g, goto QLoadRd l, [])
  | QStoreWt cur_wt => Some (set_wt (u32 (cur_wt + 1)) g, goto QLoadRd l, [])
  | QCopy cur_rd => Some (g, goto (QCasRd cur_rd (data_ (elems_ g (index_of cur_rd)))) l, [])
  | QCasRd cur_rd buff =>
      if negb (spurious w) && (rd_ g =? cur_rd)
      then Some (set_rd (u32 (cur_rd + 1)) g, finish (RPop (Some buff)) l, [EPop buff])
      else Some (g, goto QLoadRd l, [])
  | _ => None
  end.

Definition mm_step (w : choice) (g : ring) (l : thread) : option (ring * thread * list mm_event) :=
  match pc l with
  | Idle =>
      match todo l with
      | [] => None
      | Push v :: ops => Some (g, mk_thread ops (PLoadCt v) (results l), [])
      | Pop :: ops => Some (g, mk_thread ops QLoadRd (results l), [])
      end
  | p => match push_step w g l p with Some r => Some r | None => pop_step w g l p end
  end.

Definition mm_run : sys ring thread -> list (nat * choice) -> sys ring thread * list (event mm_event) := sys_run mm_step.

(** Threads with the operations each will perform. *)
Definition mm_start (zero : V) (progs : list (list mm_op)) : sys ring thread :=
  (ring_init zero, (fun ops => mk_thread ops Idle []) <$> progs).

(** * Specification: a queue

    What a queue holds after the events. *)
Inductive fifo : list (event mm_event) -> list V -> Prop :=
  | fifo_nil : fifo [] []
  | fifo_push es q i v : fifo es q -> fifo (es ++ [(i, EPush v)]) (q ++ [v])
  | fifo_pop es q i v : fifo es (v :: q) -> fifo (es ++ [(i, EPop v)]) q.

(** The number of pushes of a history. *)
Definition is_push (e : event mm_event) : bool := match e.2 with EPush _ => true | EPop _ => false end.
Definition pushes (es : list (event mm_event)) : nat := length (List.filter is_push es).
End ring.
Arguments elem : clear implicits.
Arguments ring : clear implicits.
Arguments mm_op : clear implicits.
Arguments mm_result : clear implicits.
Arguments mm_event : clear implicits.
Arguments mm_pc : clear implicits.
Arguments thread : clear implicits.
Arguments choice : clear implicits.
