(* ===== verification/RingInv.v ===== *)
(** The invariant of the ring: tickets. A push owns the ticket it reserved until
    it has set the ticket's flag; whoever clears the flag owns the move of the
    write index past it. *)
From stdpp Require Import prelude list functions.
From Stdlib Require Import ZArith Lia.
From S2P Require Import Prelude Cpp Interleave Ring.

Open Scope Z_scope.

(** * Indices *)
Lemma index_of_eq a b : index_of a = index_of b <-> (a - b) mod 256 = 0.
Proof. unfold index_of, u8. change (2 ^ 8) with 256. split; intros E; lia. Qed.

Lemma index_of_u32 a : index_of (u32 a) = index_of a.
Proof. unfold index_of, u8, u32. change (2 ^ 8) with 256. change (2 ^ 32) with 4294967296. lia. Qed.

(** Places of a window shorter than the ring differ. *)
Lemma index_of_inj lo a b : lo <= a < lo + 256 -> lo <= b < lo + 256 -> index_of a = index_of b -> a = b.
Proof. rewrite index_of_eq. lia. Qed.

Lemma not64_inj a b : not64 a = not64 b -> a = b.
Proof. unfold not64. lia. Qed.
Lemma not64_invol a : not64 (not64 a) = a.
Proof. unfold not64. lia. Qed.
Lemma not64_swap a b : not64 a = b -> a = not64 b.
Proof. unfold not64. lia. Qed.
Lemma not64_nonzero a : 0 <= a < 2 ^ 32 -> not64 a <> 0.
Proof. unfold not64. lia. Qed.

Section inv.
Context {V : Type}.
Implicit Types (g : ring V) (l : thread V).

(** * Tickets *)
Inductive ticket := Reserved (i : nat) | Flagged | Committing (i : nat) | Done.

Definition owned (i : nat) (t : ticket) : Prop := t = Reserved i \/ t = Committing i.

(** The values in the order of their tickets, and the tickets given out. *)
Record ghost := mk_ghost { log : list V; tick : Z -> option ticket }.

Definition val (a : ghost) (c : Z) : option V := log a !! Z.to_nat c.
Definition set_tick (c : Z) (t : ticket) (a : ghost) : ghost := mk_ghost (log a) (<[c := Some t]> (tick a)).
Definition issue (v : V) (i : nat) (a : ghost) : ghost :=
  mk_ghost (log a ++ [v]) (<[Z.of_nat (length (log a)) := Some (Reserved i)]> (tick a)).

(** * The shared state *)
Record global_ok (n : nat) g (a : ghost) (es : list (event (mm_event V))) : Prop := {
  ok_log : ct_ g = Z.of_nat (length (log a));
  ok_order : 0 <= rd_ g <= wt_ g /\ wt_ g <= ct_ g;
  ok_room : ct_ g - rd_ g <= 255;
  ok_bound : ct_ g < 2 ^ 32;
  ok_issued c : is_Some (tick a c) <-> 0 <= c < ct_ g;
  ok_done c : tick a c = Some Done <-> 0 <= c < wt_ g;
  ok_committing c i : tick a c = Some (Committing i) -> c = wt_ g;
  ok_owner c i t : tick a c = Some t -> owned i t -> (i < n)%nat;
  ok_data c t v : rd_ g <= c -> tick a c = Some t -> (forall i, t <> Reserved i) -> val a c = Some v ->
    data_ (elems_ g (index_of c)) = v;
  ok_flag c : tick a c = Some Flagged -> f_ct_ (elems_ g (index_of c)) = not64 c;
  ok_flagged x c : 0 <= c < 2 ^ 32 -> f_ct_ (elems_ g x) = not64 c -> tick a c = Some Flagged /\ x = index_of c;
  ok_fifo : fifo es (drop (Z.to_nat (rd_ g)) (log a));
  ok_pushes : pushes es = length (log a) }.

(** * A thread *)
Definition at_pc (i : nat) g (a : ghost) (p : mm_pc V) : Prop :=
  match p with
  | Idle | PLoadCt _ | QLoadRd => True
  | PLoadRd _ c => 0 <= c <= ct_ g
  | PCasCt _ c => 0 <= c <= ct_ g /\ (c = ct_ g -> ct_ g + 1 - rd_ g <= 255)
  | PBegin v c | PData v c => tick a c = Some (Reserved i) /\ val a c = Some v
  | PFlag v c => tick a c = Some (Reserved i) /\ val a c = Some v /\ data_ (elems_ g (index_of c)) = v
  | CLoadFlag _ c | CLoadWt _ c _ => 0 <= c <= ct_ g
  | CCas _ c cac => 0 <= c <= wt_ g /\ cac = not64 c
  | CStoreWt _ c => tick a c = Some (Committing i)
  | QLoadWt r => 0 <= r <= rd_ g
  | QLoadFlag w => 0 <= w <= wt_ g
  | QCasFlag w cac => 0 <= w <= wt_ g /\ cac = not64 w
  | QStoreWt w => tick a w = Some (Committing i)
  | QCopy r => 0 <= r <= rd_ g /\ (r = rd_ g -> rd_ g < wt_ g)
  | QCasRd r buff => 0 <= r <= rd_ g /\ (r = rd_ g -> rd_ g < wt_ g /\ val a r = Some buff)
  end.

(** The ticket a thread owns is the one it is working on. *)
Definition owns (p : mm_pc V) (c : Z) (t : nat -> ticket) : Prop :=
  match p with
  | PBegin _ c' | PData _ c' | PFlag _ c' => c = c' /\ t = Reserved
  | CStoreWt _ c' | QStoreWt c' => c = c' /\ t = Committing
  | _ => False
  end.

Definition local_ok (i : nat) g (a : ghost) l : Prop :=
  at_pc i g a (pc l) /\
  forall c, (tick a c = Some (Reserved i) -> owns (pc l) c Reserved) /\ (tick a c = Some (Committing i) -> owns (pc l) c Committing).

(** * What a step of a thread may change *)
Record guar (i : nat) g (a : ghost) g' (a' : ghost) : Prop := {
  g_rd : rd_ g <= rd_ g';
  g_wt : wt_ g <= wt_ g';
  g_ct : ct_ g <= ct_ g';
  g_log : log a `prefix_of` log a';
  g_tick c j t : i <> j -> owned j t -> tick a c = Some t <-> tick a' c = Some t;
  g_data c j : i <> j -> tick a c = Some (Reserved j) -> data_ (elems_ g' (index_of c)) = data_ (elems_ g (index_of c)) }.

Lemma val_prefix a a' c v : log a `prefix_of` log a' -> val a c = Some v -> val a' c = Some v.
Proof. intros Hp Hv. unfold val in *. by eapply prefix_lookup_Some. Qed.

Lemma guar_stable i j g a g' a' l : i <> j -> guar i g a g' a' -> local_ok j g a l -> local_ok j g' a' l.
Proof.
  intros Hij [Hrd Hwt Hct Hlog Htick Hdata] [Hpc Howns]. split.
  - assert (forall c, tick a c = Some (Reserved j) -> tick a' c = Some (Reserved j)) as HR
      by (intros c; apply (Htick c j); [done|by left]).
    assert (forall c, tick a c = Some (Committing j) -> tick a' c = Some (Committing j)) as HC
      by (intros c; apply (Htick c j); [done|by right]).
    destruct (pc l); simpl in *; try done; try lia; try (destruct Hpc; split; [lia|intros; lia || done]); try (destruct Hpc; split; [by auto|by eapply val_prefix]); auto.
    + destruct Hpc as (Ht & ? & <-). split; [auto|]. split; [by eapply val_prefix|]. by apply Hdata with j.
    + destruct Hpc as [? Hr]. split; [lia|]. intros ->. destruct Hr as [? ?]; [lia|]. split; [lia|by eapply val_prefix].
  - intros c. destruct (Howns c) as [H1 H2]. split; intros Ht; [apply H1|apply H2]; apply (Htick c j); try done; [by left|by right].
Qed.

Lemma guar_refl i g a : guar i g a g a.
Proof. by split. Qed.

(** * The steps that change the shared state *)
Lemma tick_insert (f : Z -> option ticket) c c' t : <[c := Some t]> f c' = if decide (c' = c) then Some t else f c'.
Proof. destruct (decide (c' = c)) as [->|Hne]; [apply fn_lookup_insert|by apply fn_lookup_insert_ne]. Qed.

Lemma val_issue v i a c : val (issue v i a) c =
  if decide (Z.to_nat c = length (log a)) then Some v else val a c.
Proof.
  unfold val. simpl. destruct (decide _) as [->|Hne]; [by rewrite lookup_app_r, Nat.sub_diag by lia|].
  destruct (decide (Z.to_nat c < length (log a))%nat); [by rewrite lookup_app_l|].
  rewrite !(proj2 (lookup_ge_None _ _)); rewrite ?length_app; simpl; (done || lia).
Qed.

Lemma pushes_app es es' : pushes (es ++ es') = (pushes es + @pushes V es')%nat.
Proof. unfold pushes. by rewrite filter_app, length_app. Qed.

(** A place is reserved. *)
Lemma reserve_ok n i g a es v : (i < n)%nat -> global_ok n g a es -> ct_ g + 1 - rd_ g <= 255 -> ct_ g + 1 < 2 ^ 32 ->
  global_ok n (set_ct (u32 (ct_ g + 1)) g) (issue v i a) (es ++ [(i, EPush v)]) /\
  guar i g a (set_ct (u32 (ct_ g + 1)) g) (issue v i a).
Proof.
  intros Hi [Hl Ho Hr Hb His Hd Hc Hw Hda Hf Hfd Hq Hp] Hroom Hlt.
  rewrite u32_small by (unfold is_u32; lia). set (N := Z.of_nat (length (log a))) in *.
  assert (tick a N = None) as HN.
  { destruct (tick a N) eqn:E; [|done]. assert (is_Some (tick a N)) as Hs by (by rewrite E). apply His in Hs. lia. }
  split; [|split; simpl; try lia; [by apply prefix_app_r| |done]].
  - split; simpl; try lia; try done.
    + rewrite length_app. simpl. lia.
    + intros c. rewrite tick_insert. fold N. destruct (decide (c = N)) as [->|Hne]; [split; [lia|by eexists]|].
      rewrite His. lia.
    + intros c. rewrite tick_insert. fold N. destruct (decide (c = N)) as [->|Hne]; [|apply Hd]. split; [done|lia].
    + intros c j. rewrite tick_insert. fold N. destruct (decide (c = N)); [done|apply Hc].
    + intros c j t. rewrite tick_insert. fold N. destruct (decide (c = N)); [|apply Hw]. intros [= <-] [[= ->]|?]; done.
    + intros c t v'. rewrite tick_insert, val_issue. fold N. destruct (decide (c = N)) as [->|Hne].
      * intros _ [= <-] Hnr. by destruct (Hnr i).
      * intros Hcr Ht Hnr. rewrite decide_False; [by apply (Hda c t)|].
        assert (is_Some (tick a c)) as Hs%His by (by rewrite Ht). lia.
    + intros c. rewrite tick_insert. fold N. destruct (decide (c = N)); [done|apply Hf].
    + intros x c Hc32 Hx. destruct (Hfd x c Hc32 Hx) as [Ht ->]. split; [|done]. rewrite tick_insert. fold N.
      destruct (decide (c = N)); [congruence|done].
    + rewrite drop_app_le by (unfold N in *; lia). by constructor.
    + rewrite pushes_app, length_app, Hp. simpl. done.
  - intros c j t Hij Hown. rewrite tick_insert. fold N. destruct (decide (c = N)) as [->|]; [|done].
    rewrite HN. split; [done|]. intros [= <-]. destruct Hown as [[= ->]|?]; done.
Qed.

(** A ticket that is not done lies between the write and the commit index. *)
Lemma live_range n g a es c t : global_ok n g a es -> tick a c = Some t -> t <> Done -> wt_ g <= c < ct_ g.
Proof.
  intros [Hl Ho Hr Hb His Hd Hc Hw Hda Hf Hfd Hq Hp] Ht Hnd. assert (is_Some (tick a c)) as Hs%His by (by rewrite Ht).
  split; [|lia]. destruct (Z.lt_ge_cases c (wt_ g)); [|done]. assert (tick a c = Some Done) by (apply Hd; lia). congruence.
Qed.

(** The owner of a reserved place writes to it. *)
Lemma write_ok n i g a es c v : global_ok n g a es -> tick a c = Some (Reserved i) ->
  global_ok n (set_data (index_of c) v g) a es /\ guar i g a (set_data (index_of c) v g) a.
Proof.
  intros Hok Ht. assert (wt_ g <= c < ct_ g) as Hcr by (by eapply live_range).
  destruct Hok as [Hl Ho Hr Hb His Hd Hc Hw Hda Hf Hfd Hq Hp].
  assert (forall x, f_ct_ (elems_ (set_data (index_of c) v g) x) = f_ct_ (elems_ g x)) as Hflag.
  { intros x. simpl. destruct (decide (x = index_of c)) as [->|]; [by rewrite fn_lookup_insert|by rewrite fn_lookup_insert_ne]. }
  assert (forall c', rd_ g <= c' < ct_ g -> c' <> c -> elems_ (set_data (index_of c) v g) (index_of c') = elems_ g (index_of c')) as Hother.
  { intros c' Hc' Hne. simpl. apply fn_lookup_insert_ne. intros E. apply Hne. symmetry. apply (index_of_inj (rd_ g)); lia || done. }
  split; [split; try done|split; try done].
  - intros c' t v' Hrd Ht' Hnr Hv. change (rd_ g <= c') in Hrd. assert (is_Some (tick a c')) as Hs%His by (by rewrite Ht').
    rewrite Hother; [by eapply Hda|lia|]. intros ->. rewrite Ht in Ht'. injection Ht' as <-. by destruct (Hnr i).
  - intros c' Hc'. rewrite Hflag. auto.
  - intros x c'. rewrite Hflag. auto.
  - intros c' j Hij Ht'. assert (is_Some (tick a c')) as Hs%His by (by rewrite Ht'). rewrite Hother; [done| |congruence].
    destruct (Z.lt_ge_cases c' (wt_ g)); [|lia]. assert (tick a c' = Some Done) by (apply Hd; lia). congruence.
Qed.

Lemma tick_set_tick c c' t a : tick (set_tick c t a) c' = if decide (c' = c) then Some t else tick a c'.
Proof. apply tick_insert. Qed.

(** Places of live tickets differ, and a change of a flag leaves the data. *)
Lemma live_place n g a es c c' t t' : global_ok n g a es -> tick a c = Some t -> tick a c' = Some t' ->
  t <> Done -> t' <> Done -> index_of c = index_of c' -> c = c'.
Proof.
  intros Hok Ht Ht' Hnd Hnd'. pose proof (live_range _ _ _ _ _ _ Hok Ht Hnd). pose proof (live_range _ _ _ _ _ _ Hok Ht' Hnd').
  destruct Hok. apply (index_of_inj (rd_ g)); lia.
Qed.
Lemma set_flag_data x b y g : data_ (elems_ (set_flag x b g) y) = data_ (elems_ g y).
Proof. simpl. destruct (decide (y = x)) as [->|]; [by rewrite fn_lookup_insert|by rewrite fn_lookup_insert_ne]. Qed.
Lemma set_flag_flag x b y g : f_ct_ (elems_ (set_flag x b g) y) = if decide (y = x) then b else f_ct_ (elems_ g y).
Proof. simpl. destruct (decide (y = x)) as [->|]; [by rewrite fn_lookup_insert|by rewrite fn_lookup_insert_ne]. Qed.

(** The flag of a written place is set. *)
Lemma flag_ok n i g a es c v : global_ok n g a es -> tick a c = Some (Reserved i) -> val a c = Some v ->
  data_ (elems_ g (index_of c)) = v ->
  global_ok n (set_flag (index_of c) (not64 c) g) (set_tick c Flagged a) es /\
  guar i g a (set_flag (index_of c) (not64 c) g) (set_tick c Flagged a).
Proof.
  intros Hok Ht Hv Hdata. pose proof (live_range _ _ _ _ _ _ Hok Ht ltac:(done)) as Hcr. pose proof Hok as [Hl Ho Hr Hb His Hd Hc Hw Hda Hf Hfd Hq Hp].
  split; [split; try done|split; try done].
  - intros c'. rewrite tick_set_tick. destruct (decide (c' = c)) as [->|]; [|apply His]. split; [simpl; lia|by eexists].
  - intros c'. rewrite tick_set_tick. destruct (decide (c' = c)) as [->|]; [|apply Hd]. split; [done|simpl; lia].
  - intros c' j. rewrite tick_set_tick. destruct (decide (c' = c)); [done|apply Hc].
  - intros c' j t. rewrite tick_set_tick. destruct (decide (c' = c)); [|apply Hw]. intros [= <-] [?|?]; done.
  - intros c' t v' Hrd Ht' Hnr Hv'. rewrite set_flag_data. rewrite tick_set_tick in Ht'.
    destruct (decide (c' = c)) as [->|]; [|by eapply Hda]. change (val a c = Some v') in Hv'. congruence.
  - intros c'. rewrite tick_set_tick, set_flag_flag. destruct (decide (c' = c)) as [->|Hne]; [by rewrite decide_True|].
    intros Ht'. rewrite decide_False; [auto|]. intros E. apply Hne. by eapply live_place.
  - intros x c' Hc32. rewrite set_flag_flag, tick_set_tick. destruct (decide (x = index_of c)) as [->|Hne].
    + intros E%not64_inj. subst c'. by rewrite decide_True.
    + intros E. destruct (Hfd x c' Hc32 E) as [Ht' ->]. rewrite decide_False; [done|congruence].
  - intros c' j t Hij Hown. rewrite tick_set_tick. destruct (decide (c' = c)) as [->|]; [|done].
    rewrite Ht. destruct Hown as [-> | ->]; split; congruence.
  - intros c' j Hij _. apply set_flag_data.
Qed.

(** The flag of the next place to commit is cleared. *)
Lemma claim_ok n i g a es c : (i < n)%nat -> global_ok n g a es -> 0 <= c <= wt_ g ->
  f_ct_ (elems_ g (index_of c)) = not64 c ->
  global_ok n (set_flag (index_of c) 0 g) (set_tick c (Committing i) a) es /\
  guar i g a (set_flag (index_of c) 0 g) (set_tick c (Committing i) a) /\ tick a c = Some Flagged.
Proof.
  intros Hi Hok Hcw Hflag. pose proof Hok as [Hl Ho Hr Hb His Hd Hc Hw Hda Hf Hfd Hq Hp].
  destruct (Hfd (index_of c) c) as [Ht _]; [lia|done|]. pose proof (live_range _ _ _ _ _ _ Hok Ht ltac:(done)) as Hcr.
  split; [split; try done|split; [split; try done|done]].
  - intros c'. rewrite tick_set_tick. destruct (decide (c' = c)) as [->|]; [|apply His]. split; [simpl; lia|by eexists].
  - intros c'. rewrite tick_set_tick. destruct (decide (c' = c)) as [->|]; [|apply Hd]. split; [done|simpl; lia].
  - intros c' j. rewrite tick_set_tick. destruct (decide (c' = c)); [simpl; lia|apply Hc].
  - intros c' j t. rewrite tick_set_tick. destruct (decide (c' = c)); [|apply Hw]. intros [= <-] [?|[= ->]]; done.
  - intros c' t v' Hrd Ht' Hnr Hv'. rewrite set_flag_data. rewrite tick_set_tick in Ht'.
    destruct (decide (c' = c)) as [->|]; [|by eapply Hda]. by eapply (Hda c Flagged).
  - intros c'. rewrite tick_set_tick, set_flag_flag. destruct (decide (c' = c)) as [->|Hne]; [done|].
    intros Ht'. rewrite decide_False; [auto|]. intros E. apply Hne. by eapply live_place.
  - intros x c' Hc32. rewrite set_flag_flag, tick_set_tick. destruct (decide (x = index_of c)) as [->|Hne].
    + intros E. symmetry in E. by apply not64_nonzero in E.
    + intros E. destruct (Hfd x c' Hc32 E) as [Ht' ->]. rewrite decide_False; [done|congruence].
  - intros c' j t Hij Hown. rewrite tick_set_tick. destruct (decide (c' = c)) as [->|]; [|done].
    rewrite Ht. destruct Hown as [-> | ->]; split; congruence.
  - intros c' j Hij _. apply set_flag_data.
Qed.

(** The write index moves past it. *)
Lemma commit_ok n i g a es c : global_ok n g a es -> tick a c = Some (Committing i) ->
  u32 (c + 1) = c + 1 /\ c = wt_ g /\ c + 1 <= ct_ g /\
  global_ok n (set_wt (u32 (c + 1)) g) (set_tick c Done a) es /\ guar i g a (set_wt (u32 (c + 1)) g) (set_tick c Done a).
Proof.
  intros Hok Ht. pose proof (live_range _ _ _ _ _ _ Hok Ht ltac:(done)) as Hcr. pose proof Hok as [Hl Ho Hr Hb His Hd Hc Hw Hda Hf Hfd Hq Hp].
  pose proof (Hc _ _ Ht) as Hcw. assert (u32 (c + 1) = c + 1) as -> by (apply u32_small; unfold is_u32; lia).
  split; [done|]. split; [done|]. split; [lia|].
  split; [split; try done; try (simpl; lia)|split; try done; try (simpl; lia)].
  - intros c'. rewrite tick_set_tick. destruct (decide (c' = c)) as [->|]; [|apply His]. split; [simpl; lia|by eexists].
  - intros c'. rewrite tick_set_tick. destruct (decide (c' = c)) as [->|]; [split; [simpl; lia|done]|]. rewrite Hd. simpl. lia.
  - intros c' j. rewrite tick_set_tick. destruct (decide (c' = c)) as [->|]; [done|]. intros E%Hc. simpl. lia.
  - intros c' j t. rewrite tick_set_tick. destruct (decide (c' = c)); [|apply Hw]. intros [= <-] [?|?]; done.
  - intros c' t v' Hrd Ht' Hnr Hv'. rewrite tick_set_tick in Ht'.
    destruct (decide (c' = c)) as [->|]; [|by eapply Hda]. by eapply (Hda c (Committing i)).
  - intros c'. rewrite tick_set_tick. destruct (decide (c' = c)) as [->|Hne]; [done|apply Hf].
  - intros x c' Hc32 E. destruct (Hfd x c' Hc32 E) as [Ht' ->]. rewrite tick_set_tick, decide_False; [done|congruence].
  - intros c' j t Hij Hown. rewrite tick_set_tick. destruct (decide (c' = c)) as [->|]; [|done].
    rewrite Ht. destruct Hown as [-> | ->]; split; congruence.
Qed.

(** The element at the read index is taken. *)
Lemma take_ok n i g a es v : global_ok n g a es -> rd_ g < wt_ g -> val a (rd_ g) = Some v ->
  global_ok n (set_rd (u32 (rd_ g + 1)) g) a (es ++ [(i, EPop v)]) /\ guar i g a (set_rd (u32 (rd_ g + 1)) g) a.
Proof.
  intros [Hl Ho Hr Hb His Hd Hc Hw Hda Hf Hfd Hq Hp] Hlt Hv.
  rewrite u32_small by (unfold is_u32; lia). split; [split; try done; simpl; try lia|split; try done; simpl; lia].
  - intros c t v' Hcr. apply Hda. lia.
  - apply fifo_pop. replace (Z.to_nat (rd_ g + 1)) with (S (Z.to_nat (rd_ g))) by lia. by rewrite <- (drop_S _ v).
  - rewrite pushes_app, Hp. apply Nat.add_0_r.
Qed.

(** * One step *)
(** A thread that moves on without a change of the tickets it owns. *)
Lemma local_move i g g' a l l' :
  local_ok i g a l -> (forall c t, owns (pc l) c t -> owns (pc l') c t) -> at_pc i g' a (pc l') -> local_ok i g' a l'.
Proof. intros [_ Ho] Hs Hpc. split; [done|]. intros c. destruct (Ho c). split; auto. Qed.

(** The ticket changes with the thread. *)
Lemma local_change i g a g' l l' c t : local_ok i g a l -> (forall c' t', owns (pc l) c' t' -> c' = c) ->
  (forall t', t = t' i -> (t' = Reserved \/ t' = Committing) -> owns (pc l') c t') ->
  at_pc i g' (set_tick c t a) (pc l') -> local_ok i g' (set_tick c t a) l'.
Proof.
  intros [_ Ho] Honly Hnew Hpc. split; [done|]. intros c'. rewrite tick_set_tick. destruct (Ho c') as [Hr Hc].
  destruct (decide (c' = c)) as [->|Hne].
  - split; intros [= E]; apply Hnew; auto.
  - split; intros E; [apply Hr in E|apply Hc in E]; by apply Honly in E.
Qed.

Definition fits (es : list (event (mm_event V))) : Prop := Z.of_nat (pushes es) < 2 ^ 32.

Lemma fits_app es es' : fits (es ++ es') -> fits es.
Proof. unfold fits. rewrite pushes_app. lia. Qed.

(** A step that leaves the shared state. *)
Lemma stay_ok n i g a es l l' : global_ok n g a es -> local_ok i g a l ->
  (forall c t, owns (pc l) c t -> owns (pc l') c t) -> at_pc i g a (pc l') ->
  exists a', global_ok n g a' (es ++ []) /\ local_ok i g a' l' /\ guar i g a g a'.
Proof.
  intros Hg Hl Hs Hpc. exists a. rewrite app_nil_r. split; [done|]. split; [by eapply local_move|apply guar_refl].
Qed.

Lemma push_step_ok n i w g a l g' l' es new :
  (i < n)%nat -> global_ok n g a es -> local_ok i g a l -> fits (es ++ (pair i <$> new)) ->
  push_step w g l (pc l) = Some (g', l', new) ->
  exists a', global_ok n g' a' (es ++ (pair i <$> new)) /\ local_ok i g' a' l' /\ guar i g a g' a'.
Proof.
  intros Hi Hg Hl Hfits Hstep. pose proof Hl as [Hpc Hown]. pose proof Hg as [Hlog Ho Hr Hb His Hd Hc Hw Hda Hf Hfd Hq Hp].
  destruct (pc l) as [|v|v c|v c|v c|v c|v c|v c|v c cac|v c cac|v c| | | | | | |] eqn:Epc; try discriminate Hstep; simpl in Hstep, Hpc.
  - injection Hstep as <- <- <-. eapply stay_ok; rewrite ?Epc; [done|done|done|simpl; lia].
  - destruct (index_of (u32 (c + 1)) =? index_of (rd_ g)) eqn:E; injection Hstep as <- <- <-;
      (eapply stay_ok; rewrite ?Epc; [done|done|done|]); [done|]. simpl. split; [done|]. intros ->.
    rewrite Z.eqb_neq, index_of_u32, index_of_eq in E. lia.
  - destruct (negb (spurious w) && (ct_ g =? c)) eqn:E; injection Hstep as <- <- <-.
    2: { eapply stay_ok; rewrite ?Epc; done. }
    apply andb_true_iff in E as [_ E%Z.eqb_eq]. subst c. destruct Hpc as [_ Hroom]. specialize (Hroom eq_refl).
    assert (ct_ g + 1 < 2 ^ 32) as Hlt.
    { unfold fits in Hfits. rewrite pushes_app, Hp in Hfits. change (pushes (pair i <$> [EPush v])) with 1%nat in Hfits. lia. }
    destruct (reserve_ok n i g a es v Hi Hg Hroom Hlt) as [Hg' Hguar]. exists (issue v i a). split; [done|]. split; [|done].
    split; simpl; rewrite Hlog.
    + rewrite tick_insert, decide_True by done. split; [done|]. rewrite val_issue. by rewrite decide_True by lia.
    + intros c. rewrite tick_insert. destruct (decide (c = Z.of_nat (length (log a)))) as [->|Hne]; [by split|].
      destruct (Hown c) as [H1 H2]. by split; [intros []%H1|intros []%H2].
  - injection Hstep as <- <- <-. destruct Hpc as [Ht Hv]. destruct (write_ok n i g a es c (torn w) Hg Ht) as [Hg' Hguar].
    exists a. rewrite app_nil_r. split; [done|]. split; [|done]. eapply local_move; [exact Hl|by rewrite Epc|done].
  - injection Hstep as <- <- <-. destruct Hpc as [Ht Hv]. destruct (write_ok n i g a es c v Hg Ht) as [Hg' Hguar].
    exists a. rewrite app_nil_r. split; [done|]. split; [|done]. eapply local_move; [exact Hl|by rewrite Epc|].
    simpl. split; [done|]. split; [done|]. by rewrite fn_lookup_insert.
  - injection Hstep as <- <- <-. destruct Hpc as (Ht & Hv & Hdat). destruct (flag_ok n i g a es c v Hg Ht Hv Hdat) as [Hg' Hguar].
    pose proof (live_range _ _ _ _ _ _ Hg Ht ltac:(done)).
    eexists. rewrite app_nil_r. split; [exact Hg'|]. split; [|done].
    eapply local_change; [exact Hl|rewrite Epc; by intros c' t' [-> _]| |simpl; lia]. intros t' E [-> | ->]; done.
  - injection Hstep as <- <- <-. by eapply stay_ok; rewrite ?Epc.
  - destruct (c =? wt_ g) eqn:E; simpl in Hstep; [|injection Hstep as <- <- <-; by eapply stay_ok; rewrite ?Epc].
    destruct (not64 cac =? c) eqn:E2; simpl in Hstep; injection Hstep as <- <- <-; [|by eapply stay_ok; rewrite ?Epc].
    apply Z.eqb_eq in E, E2. eapply stay_ok; rewrite ?Epc; [done|done|done|]. simpl. split; [lia|]. by apply not64_swap.
  - destruct Hpc as [Hcw ->]. destruct (f_ct_ (elems_ g (index_of c)) =? not64 c) eqn:E; injection Hstep as <- <- <-;
      [|by eapply stay_ok; rewrite ?Epc]. apply Z.eqb_eq in E.
    destruct (claim_ok n i g a es c Hi Hg Hcw E) as (Hg' & Hguar & Ht). eexists. rewrite app_nil_r. split; [exact Hg'|]. split; [|done].
    eapply local_change; [exact Hl|by rewrite Epc| |simpl; by rewrite tick_insert, decide_True].
    intros t' E' [-> | ->]; [done|by split].
  - injection Hstep as <- <- <-. destruct (commit_ok n i g a es c Hg Hpc) as (E & Ecw & Hle & Hg' & Hguar).
    eexists. rewrite app_nil_r. split; [exact Hg'|]. split; [|done].
    eapply local_change; [exact Hl|rewrite Epc; by intros c' t' [-> _]| |simpl; rewrite E; lia]. intros t' E' [-> | ->]; done.
Qed.

Lemma pop_step_ok n i w g a l g' l' es new :
  (i < n)%nat -> global_ok n g a es -> local_ok i g a l ->
  pop_step w g l (pc l) = Some (g', l', new) ->
  exists a', global_ok n g' a' (es ++ (pair i <$> new)) /\ local_ok i g' a' l' /\ guar i g a g' a'.
Proof.
  intros Hi Hg Hl Hstep. pose proof Hl as [Hpc Hown]. pose proof Hg as [Hlog Ho Hr Hb His Hd Hc Hw Hda Hf Hfd Hq Hp].
  destruct (pc l) as [| | | | | | | | | | | |r|c|c cac|c|r|r buff] eqn:Epc; try discriminate Hstep; simpl in Hstep, Hpc.
  - injection Hstep as <- <- <-. eapply stay_ok; rewrite ?Epc; [done|done|done|simpl; lia].
  - destruct (index_of r =? index_of (wt_ g)) eqn:E; injection Hstep as <- <- <-;
      (eapply stay_ok; rewrite ?Epc; [done|done|done|]); simpl; [lia|]. split; [done|]. intros ->.
    destruct (Z.eq_dec (rd_ g) (wt_ g)) as [E'|]; [|lia]. rewrite E', Z.eqb_refl in E. done.
  - destruct (not64 _ =? c) eqn:E; simpl in Hstep; injection Hstep as <- <- <-;
      (eapply stay_ok; rewrite ?Epc; [done|done|done|]); simpl; [|done]. apply Z.eqb_eq in E. split; [done|].
    by apply not64_swap.
  - destruct Hpc as [Hcw ->].
    destruct (negb (spurious w) && (f_ct_ (elems_ g (index_of c)) =? not64 c)) eqn:E; injection Hstep as <- <- <-;
      [|by eapply stay_ok; rewrite ?Epc]. apply andb_true_iff in E as [_ E%Z.eqb_eq].
    destruct (claim_ok n i g a es c Hi Hg Hcw E) as (Hg' & Hguar & Ht). eexists. rewrite app_nil_r. split; [exact Hg'|]. split; [|done].
    eapply local_change; [exact Hl|by rewrite Epc| |simpl; by rewrite tick_insert, decide_True].
    intros t' E' [-> | ->]; [done|by split].
  - injection Hstep as <- <- <-. destruct (commit_ok n i g a es c Hg Hpc) as (E & Ecw & Hle & Hg' & Hguar).
    eexists. rewrite app_nil_r. split; [exact Hg'|]. split; [|done].
    eapply local_change; [exact Hl|rewrite Epc; by intros c' t' [-> _]| |done]. intros t' E' [-> | ->]; done.
  - injection Hstep as <- <- <-. eapply stay_ok; rewrite ?Epc; [done|done|done|]. simpl. destruct Hpc as [Hrr Hlt].
    split; [done|]. intros ->. specialize (Hlt eq_refl). split; [done|].
    destruct (lookup_lt_is_Some_2 (log a) (Z.to_nat (rd_ g))) as [v Hv]; [lia|]. unfold val. rewrite Hv. f_equal. symmetry.
    apply (Hda (rd_ g) Done v); [lia|apply Hd; lia|done|done].
  - destruct (negb (spurious w) && (rd_ g =? r)) eqn:E; injection Hstep as <- <- <-; [|by eapply stay_ok; rewrite ?Epc].
    apply andb_true_iff in E as [_ E%Z.eqb_eq]. subst r. destruct Hpc as [_ Hlt]. destruct (Hlt eq_refl) as [Hlt' Hv].
    destruct (take_ok n i g a es buff Hg Hlt' Hv) as [Hg' Hguar]. exists a. split; [done|]. split; [|done].
    eapply local_move; [exact Hl|by rewrite Epc|done].
Qed.

Lemma mm_step_ok n i w g a l g' l' es new :
  (i < n)%nat -> global_ok n g a es -> local_ok i g a l -> fits (es ++ (pair i <$> new)) ->
  mm_step w g l = Some (g', l', new) ->
  exists a', global_ok n g' a' (es ++ (pair i <$> new)) /\ local_ok i g' a' l' /\ guar i g a g' a'.
Proof.
  intros Hi Hg Hl Hfits Hstep.
  assert (pc l = Idle \/ mm_step w g l = match push_step w g l (pc l) with Some r => Some r | None => pop_step w g l (pc l) end)
    as [Epc|E] by (unfold mm_step; destruct (pc l); auto).
  - unfold mm_step in Hstep. rewrite Epc in Hstep. destruct (todo l) as [|[v|] ops]; [done| |];
      injection Hstep as <- <- <-; by eapply stay_ok; rewrite ?Epc.
  - rewrite E in Hstep. destruct (push_step w g l (pc l)) as [[[g1 l1] e1]|] eqn:Ep.
    + injection Hstep as <- <- <-. by eapply push_step_ok.
    + by eapply pop_step_ok.
Qed.

(** * Every run *)
Definition ring_ok (s : sys (ring V) (thread V)) (es : list (event (mm_event V))) : Prop := holds global_ok local_ok s es.

Lemma ring_ok_start zero progs : ring_ok (mm_start zero progs) [].
Proof.
  exists (mk_ghost [] (fun _ => None)). split; [|intros i l Hl; split].
  - split; simpl; try lia; try done.
    + intros c. split; [by intros []|lia].
    + intros c. split; [done|lia].
    + intros x c Hc E. unfold not64 in E. lia.
    + constructor.
  - simpl in Hl. rewrite list_lookup_fmap in Hl. apply fmap_Some in Hl as (ops & _ & ->). done.
  - done.
Qed.

Lemma ring_ok_run zero progs sched : fits (mm_run (mm_start zero progs) sched).2 ->
  ring_ok (mm_run (mm_start zero progs) sched).1 (mm_run (mm_start zero progs) sched).2.
Proof.
  apply (holds_run mm_step global_ok local_ok guar fits).
  - apply fits_app.
  - intros. by eapply mm_step_ok.
  - intros. by eapply guar_stable.
  - apply ring_ok_start.
Qed.
End inv.
