(* ===== verification/RingClaims.v ===== *)
(** What the ring of a channel guarantees to its senders and receivers. *)
From stdpp Require Import prelude list functions.
From Stdlib Require Import ZArith Lia.
From S2P Require Import Prelude Cpp Interleave Ring RingInv.

Open Scope Z_scope.

#[local] Arguments index_of : simpl never.
#[local] Arguments not64 : simpl never.
#[local] Arguments u32 : simpl never.
#[local] Arguments set_flag : simpl never.

Section claims.
Context {V : Type}.

(** * What a thread did

    The events of its results, and of the push that it is in the middle of. *)
Definition performed (r : mm_result V) : list (mm_event V) :=
  match r with
  | RPush v true => [EPush v]
  | RPop (Some v) => [EPop v]
  | RPush _ false | RPop None => []
  end.
Definition in_progress (p : mm_pc V) : list (mm_event V) :=
  match p with
  | PBegin v _ | PData v _ | PFlag v _ | CLoadFlag v _ | CLoadWt v _ _ | CCas v _ _ | CStoreWt v _ => [EPush v]
  | _ => []
  end.
Definition history (l : thread V) : list (mm_event V) := concat (performed <$> results l) ++ in_progress (pc l).

(** The operations behind its results, the one it is in the middle of and the
    ones to come. *)
Definition op_of (r : mm_result V) : mm_op V := match r with RPush v _ => Push v | RPop _ => Pop end.
Definition current (p : mm_pc V) : list (mm_op V) :=
  match p with
  | Idle => []
  | PLoadCt v | PLoadRd v _ | PCasCt v _ | PBegin v _ | PData v _ | PFlag v _
  | CLoadFlag v _ | CLoadWt v _ _ | CCas v _ _ | CStoreWt v _ => [Push v]
  | _ => [Pop]
  end.
Definition program (l : thread V) : list (mm_op V) := (op_of <$> results l) ++ current (pc l) ++ todo l.

Definition events_of (i : nat) (es : list (event (mm_event V))) : list (mm_event V) :=
  (filter (fun e => e.1 = i) es).*2.

Lemma step_history w g (l : thread V) g' l' new : mm_step w g l = Some (g', l', new) ->
  history l' = history l ++ new /\ program l' = program l.
Proof.
  unfold mm_step. destruct (pc l) eqn:Epc; simpl;
    try (destruct (todo l) as [|[]] eqn:Et; [done| |]); 
    repeat match goal with |- context [if ?b then _ else _] => destruct b end; simpl; try done; intros [= <- <- <-];
    rewrite ?app_nil_r; unfold history, program, finish; simpl; rewrite ?Epc, ?Et; simpl;
    rewrite ?fmap_app, ?concat_app, ?app_nil_r, <- ?app_assoc; done.
Qed.

Lemma events_of_app i es es' : events_of i (es ++ es') = events_of i es ++ events_of i es'.
Proof. unfold events_of. by rewrite list.filter_app, fmap_app. Qed.
Lemma events_of_tagged i j (new : list (mm_event V)) : events_of i (pair j <$> new) = if decide (i = j) then new else [].
Proof.
  unfold events_of. induction new as [|e new IH]; [by destruct (decide _)|]. cbn [fmap list_fmap].
  rewrite list.filter_cons. simpl. destruct (decide (i = j)) as [<-|Hne].
  - rewrite decide_True by done. cbn [fmap list_fmap snd]. f_equal. exact IH.
  - rewrite decide_False by congruence. exact IH.
Qed.

Definition accounted (progs : list (list (mm_op V))) (s : sys (ring V) (thread V)) (es : list (event (mm_event V))) : Prop :=
  length s.2 = length progs /\
  forall i l, s.2 !! i = Some l -> events_of i es = history l /\ progs !! i = Some (program l).

Lemma run_accounted zero progs sched :
  accounted progs (mm_run (mm_start zero progs) sched).1 (mm_run (mm_start zero progs) sched).2.
Proof.
  apply (sys_run_inv mm_step (accounted progs)).
  - split; [apply length_fmap|]. intros i l Hl. simpl in Hl. rewrite list_lookup_fmap in Hl.
    apply fmap_Some in Hl as (ops & Hops & ->). done.
  - intros [g ls] es [j w] [Hlen Hacc]. unfold sys_step. simpl in *. destruct (ls !! j) as [l|] eqn:Ej; [|by rewrite app_nil_r].
    destruct (mm_step w g l) as [[[g' l'] new]|] eqn:Es; [|by rewrite app_nil_r].
    destruct (step_history _ _ _ _ _ _ Es) as [Hh Hp]. destruct (Hacc j l Ej) as [Hev Hpr].
    split; [simpl; by rewrite length_insert|]. simpl. intros i li Hi. rewrite events_of_app, events_of_tagged.
    apply list_lookup_insert_Some in Hi as [(<- & <- & _)|(Hne & Hi)].
    + rewrite decide_True, Hh, Hp, Hev by done. done.
    + rewrite decide_False, app_nil_r by done. by apply Hacc.
Qed.

(** * A thread alone *)
Definition quiet (s : sys (ring V) (thread V)) : Prop := forall i l, s.2 !! i = Some l -> pc l = Idle.

(** When no operation is in progress, what was pushed is flagged or done. *)
Lemma quiet_tickets g ls a es c t : global_ok (length ls) g a es ->
  (forall i l, ls !! i = Some l -> local_ok i g a l) -> quiet (g, ls) -> tick a c = Some t -> t = Flagged \/ t = Done.
Proof.
  intros Hg Hl Hq Ht. assert (forall i, owned i t -> False) as Hno.
  { intros i Ho. pose proof (ok_owner _ _ _ _ Hg _ _ _ Ht Ho) as Hi. apply lookup_lt_is_Some in Hi as [l Hi].
    destruct (Hl i l Hi) as [_ Hown]. rewrite (Hq i l Hi) in Hown. destruct (Hown c) as [H1 H2].
    by destruct Ho as [-> | ->]; [apply H1|apply H2]. }
  destruct t as [i| |i|]; [by destruct (Hno i); left|by left|by destruct (Hno i); right|by right].
Qed.

Definition steady (x : V) : choice V := mk_choice false x.

Lemma solo_app w k1 k2 g (l : thread V) g1 l1 es1 g2 l2 es2 : solo mm_step w k1 g l = Some (g1, l1, es1) ->
  solo mm_step w k2 g1 l1 = Some (g2, l2, es2) -> solo mm_step w (k1 + k2) g l = Some (g2, l2, es1 ++ es2).
Proof.
  revert g l es1. induction k1 as [|k1 IH]; intros g l es1; simpl; [by intros [= <- <- <-]|].
  destruct (mm_step w g l) as [[[g' l'] es']|]; [|done]. destruct (solo mm_step w k1 g' l') as [[[g'' l''] es'']|] eqn:E; [|done].
  intros [= <- <- <-] E2. rewrite (IH _ _ _ E E2). by rewrite app_assoc.
Qed.

(** Run the steps whose conditions are decided. *)
Ltac exec := cbn -[index_of not64 u32 Z.eqb set_flag set_data].

Lemma take_alone x g rest (rs : list (mm_result V)) v : index_of (rd_ g) <> index_of (wt_ g) ->
  data_ (elems_ g (index_of (rd_ g))) = v ->
  solo mm_step (steady x) 4 g (mk_thread rest QLoadRd rs) =
    Some (set_rd (u32 (rd_ g + 1)) g, mk_thread rest Idle (rs ++ [RPop (Some v)]), [EPop v]).
Proof.
  intros Hne <-. apply Z.eqb_neq in Hne. exec. rewrite Hne. exec. by rewrite Z.eqb_refl.
Qed.

Lemma pop_alone x n g a es rest (rs : list (mm_result V)) : global_ok n g a es ->
  (forall c t, tick a c = Some t -> t = Flagged \/ t = Done) ->
  exists k g' es', (k <= 10)%nat /\ solo mm_step (steady x) k g (mk_thread (Pop :: rest) Idle rs) =
    Some (g', mk_thread rest Idle (rs ++ [RPop (head (drop (Z.to_nat (rd_ g)) (log a)))]), es').
Proof.
  intros [Hlog Ho Hr Hb His Hd Hc Hw Hda Hf Hfd Hq Hp] Hfl.
  destruct (Z.eq_dec (rd_ g) (wt_ g)) as [Ew|Ew]; [destruct (Z.eq_dec (wt_ g) (ct_ g)) as [Ec|Ec]|].
  - rewrite drop_ge by lia. assert ((not64 (f_ct_ (elems_ g (index_of (wt_ g)))) =? wt_ g) = false) as E.
    { apply Z.eqb_neq. intros E. destruct (Hfd (index_of (wt_ g)) (wt_ g)) as [Ht _]; [lia|by apply not64_swap|].
      assert (is_Some (tick a (wt_ g))) as Hs%His by (by rewrite Ht). lia. }
    exists 4%nat, g, []. split; [lia|]. exec. rewrite Ew, Z.eqb_refl. exec. by rewrite E.
  - destruct (proj2 (His (wt_ g))) as [t Ht]; [lia|]. destruct (Hfl _ _ Ht) as [-> | ->];
      [|assert (0 <= wt_ g < wt_ g) by (by apply Hd); lia].
    destruct (lookup_lt_is_Some_2 (log a) (Z.to_nat (rd_ g))) as [v Hv]; [lia|]. rewrite (drop_S _ _ _ Hv). simpl head.
    set (g1 := set_wt (u32 (wt_ g + 1)) (set_flag (index_of (wt_ g)) 0 g)).
    assert (solo mm_step (steady x) 6 g (mk_thread (Pop :: rest) Idle rs) = Some (g1, mk_thread rest QLoadRd rs, [])) as E1.
    { exec. rewrite Ew, Z.eqb_refl. exec. rewrite (Hf _ Ht), not64_invol, Z.eqb_refl. exec. by rewrite (Hf _ Ht), Z.eqb_refl. }
    eexists 10%nat, _, _. split; [lia|]. eapply (solo_app _ 6 4); [exact E1|]. apply take_alone; unfold g1; simpl.
    + rewrite u32_small by (unfold is_u32; lia). intros E%index_of_eq. lia.
    + change (data_ (elems_ (set_flag (index_of (wt_ g)) 0 g) (index_of (rd_ g))) = v). rewrite set_flag_data.
      eapply (Hda _ Flagged); [done|by rewrite Ew|done|done].
  - destruct (lookup_lt_is_Some_2 (log a) (Z.to_nat (rd_ g))) as [v Hv]; [lia|]. rewrite (drop_S _ _ _ Hv). simpl head.
    eexists 5%nat, _, _. split; [lia|]. eapply (solo_step mm_step _ 4); [done|]. apply take_alone.
    + intros E%index_of_eq. lia.
    + eapply (Hda _ Done); [lia|apply Hd; lia|done|done].
Qed.

(** The flag of a place after the writes of a push. *)
Lemma written_flag x y c b (v : V) (g : ring V) :
  f_ct_ (elems_ (set_flag (index_of c) b (set_data (index_of c) v (set_data (index_of c) x g))) y) =
  if decide (y = index_of c) then b else f_ct_ (elems_ g y).
Proof.
  rewrite set_flag_flag. destruct (decide (y = index_of c)) as [->|Hne]; [done|]. simpl. by rewrite !fn_lookup_insert_ne.
Qed.

Lemma push_alone x n g a es v rest (rs : list (mm_result V)) : global_ok n g a es -> ct_ g + 1 < 2 ^ 32 ->
  exists k g' es', (k <= 13)%nat /\ solo mm_step (steady x) k g (mk_thread (Push v :: rest) Idle rs) =
    Some (g', mk_thread rest Idle (rs ++ [RPush v (bool_decide (ct_ g - rd_ g < 255))]), es').
Proof.
  intros [Hlog Ho Hr Hb His Hd Hc Hw Hda Hf Hfd Hq Hp] Hlt. case_bool_decide as Hroom.
  - assert ((index_of (u32 (ct_ g + 1)) =? index_of (rd_ g)) = false) as E1.
    { apply Z.eqb_neq. rewrite index_of_u32, index_of_eq. lia. }
    set (g1 := set_flag (index_of (ct_ g)) (not64 (ct_ g)) (set_data (index_of (ct_ g)) v (set_data (index_of (ct_ g)) x (set_ct (u32 (ct_ g + 1)) g)))).
    assert (solo mm_step (steady x) 7 g (mk_thread (Push v :: rest) Idle rs) = Some (g1, mk_thread rest (CLoadFlag v (ct_ g)) rs, [EPush v])) as E.
    { exec. rewrite E1. exec. by rewrite Z.eqb_refl. }
    assert (f_ct_ (elems_ g1 (index_of (ct_ g))) = not64 (ct_ g)) as Ef by (unfold g1; by rewrite written_flag, decide_True).
    assert (wt_ g1 = wt_ g) as Ew by done.
    destruct (Z.eq_dec (ct_ g) (wt_ g)) as [Ec|Ec].
    + set (g2 := set_wt (u32 (ct_ g + 1)) (set_flag (index_of (ct_ g)) 0 g1)).
      assert (solo mm_step (steady x) 4 g1 (mk_thread rest (CLoadFlag v (ct_ g)) rs) = Some (g2, mk_thread rest (CLoadFlag v (u32 (ct_ g + 1))) rs, [])) as E2.
      { exec. rewrite Ef, Ew, <- Ec, Z.eqb_refl. exec. rewrite not64_invol, Z.eqb_refl. exec. by rewrite Ef, Z.eqb_refl. }
      rewrite u32_small in E2 by (unfold is_u32; lia).
      assert ((not64 (f_ct_ (elems_ g2 (index_of (ct_ g + 1)))) =? ct_ g + 1) = false) as E3.
      { apply Z.eqb_neq. intros E3%not64_swap.
        assert (index_of (ct_ g + 1) <> index_of (ct_ g)) as Hi by (rewrite index_of_eq; lia).
        change (f_ct_ (elems_ (set_flag (index_of (ct_ g)) 0 g1) (index_of (ct_ g + 1))) = not64 (ct_ g + 1)) in E3.
        rewrite set_flag_flag, decide_False in E3 by done. unfold g1 in E3. rewrite written_flag, decide_False in E3 by done.
        destruct (Hfd (index_of (ct_ g + 1)) (ct_ g + 1)) as [Ht _]; [lia|done|]. assert (is_Some (tick a (ct_ g + 1))) as Hs%His by (by rewrite Ht). lia. }
      assert (wt_ g2 = ct_ g + 1) as Ew2 by (simpl; apply u32_small; unfold is_u32; lia). clearbody g2.
      eexists 13%nat, g2, _. split; [lia|]. eapply (solo_app _ 7 6); [exact E|]. eapply (solo_app _ 4 2); [exact E2|].
      exec. rewrite Ew2, Z.eqb_refl. exec. by rewrite E3.
    + clearbody g1. eexists 9%nat, g1, _. split; [lia|]. eapply (solo_app _ 7 2); [exact E|]. apply Z.eqb_neq in Ec. exec. by rewrite Ew, Ec.
  - assert ((index_of (u32 (ct_ g + 1)) =? index_of (rd_ g)) = true) as E1.
    { apply Z.eqb_eq. rewrite index_of_u32, index_of_eq. lia. }
    exists 3%nat, g, []. split; [lia|]. exec. by rewrite E1.
Qed.
End claims.

(** * Claims *)
(** C3: the ring is a queue. In every interleaving of any number of senders and
    receivers, with weak compare-and-exchange failing at will and readers finding
    anything in elements being written, as long as fewer than 2^32 messages were
    sent: the pushes and pops that took effect are those of a first-in first-out
    queue of at most 255 elements, so that nothing is lost, duplicated, reordered
    or torn; and each thread's results, in the order of its program, are exactly
    the operations of its own that took effect. *)
Theorem ring_refines_queue {V} (zero : V) (progs : list (list (mm_op V))) (sched : list (nat * choice V))
    (s : sys (ring V) (thread V)) (es : list (event (mm_event V))) :
  mm_run (mm_start zero progs) sched = (s, es) -> Z.of_nat (pushes es) < 2 ^ 32 ->
  (exists q, fifo es q /\ (length q <= 255)%nat) /\
  forall i l, s.2 !! i = Some l -> events_of i es = history l /\ progs !! i = Some (program l).
Proof.
  intros Hrun Hfits. pose proof (ring_ok_run zero progs sched) as Hok. pose proof (run_accounted zero progs sched) as [_ Hacc].
  rewrite Hrun in Hok, Hacc. split; [|exact Hacc]. destruct (Hok Hfits) as (a & Hg & _). destruct Hg. simpl in *.
  eexists. split; [done|]. rewrite length_drop. lia.
Qed.

(** Nothing gets stuck in the ring. Whenever no operation is in progress, a
    receiver that pops undisturbed gets the oldest element, or nothing exactly
    if the queue is empty, in at most 10 steps, and a sender that pushes
    undisturbed succeeds exactly if fewer than 255 elements are queued, in at
    most 13. *)
Theorem ring_settled_exact {V} (zero : V) (progs : list (list (mm_op V))) (sched : list (nat * choice V))
    (s : sys (ring V) (thread V)) (es : list (event (mm_event V))) :
  mm_run (mm_start zero progs) sched = (s, es) -> Z.of_nat (pushes es) + 1 < 2 ^ 32 -> quiet s ->
  exists q, fifo es q /\ forall i x rest rs,
    (s.2 !! i = Some (mk_thread (Pop :: rest) Idle rs) ->
     exists k g' es', (k <= 10)%nat /\ mm_run s (replicate k (i, steady x)) =
       ((g', <[i := mk_thread rest Idle (rs ++ [RPop (head q)])]> s.2), es')) /\
    (forall v, s.2 !! i = Some (mk_thread (Push v :: rest) Idle rs) ->
     exists k g' es', (k <= 13)%nat /\ mm_run s (replicate k (i, steady x)) =
       ((g', <[i := mk_thread rest Idle (rs ++ [RPush v (bool_decide (length q < 255)%nat)])]> s.2), es')).
Proof.
  intros Hrun Hfits Hquiet. pose proof (ring_ok_run zero progs sched) as Hok. rewrite Hrun in Hok.
  destruct Hok as (a & Hg & Hl); [unfold fits; simpl; lia|]. destruct s as [g ls]. simpl in *.
  exists (drop (Z.to_nat (rd_ g)) (log a)). split; [by destruct Hg|]. intros i x rest rs. split; [intros Hi|intros v Hi].
  - destruct (pop_alone x _ g a es rest rs Hg) as (k & g' & es' & Hk & E); [intros c t; by eapply quiet_tickets|].
    exists k, g', (pair i <$> es'). split; [done|]. by eapply solo_run in E.
  - assert (ct_ g + 1 < 2 ^ 32) as Hlt by (destruct Hg; lia).
    destruct (push_alone x _ g a es v rest rs Hg Hlt) as (k & g' & es' & Hk & E). exists k, g', (pair i <$> es'). split; [done|].
    eapply solo_run in E; [|done]. unfold mm_run. rewrite E.
    assert (bool_decide (ct_ g - rd_ g < 255) = bool_decide (length (drop (Z.to_nat (rd_ g)) (log a)) < 255)%nat) as ->; [|done].
    apply bool_decide_ext. rewrite length_drop. destruct Hg. lia.
Qed.

(** Two senders whose reservations and commits interleave, and a receiver. *)
Definition demo_progs : list (list (mm_op Z)) := [[Push 1; Push 2]; [Push 3]; [Pop; Pop; Pop; Pop]].
Definition turns (l : list (nat * nat)) : list (nat * choice Z) :=
  concat ((fun '(i, k) => replicate k (i, mk_choice false 99)) <$> l).
(** The first sender stops after it reserved its place; the second overtakes it. *)
Definition overtaken : list (nat * choice Z) := turns [(0, 5); (1, 9); (2, 3); (0, 30); (2, 20)]%nat.

Lemma ring_refines_queue_witness :
  let r := mm_run (mm_start 0 demo_progs) overtaken in
  (exists q, fifo r.2 q /\ (length q <= 255)%nat) /\
  forall i l, r.1.2 !! i = Some l -> events_of i r.2 = history l /\ demo_progs !! i = Some (program l).
Proof.
  apply (ring_refines_queue 0 demo_progs overtaken _ _ (surjective_pairing _)). vm_compute. reflexivity.
Defined.

(** What the receiver got. *)
Example overtaken_results :
  results <$> (mm_run (mm_start 0 demo_progs) overtaken).1.2 !! 2%nat =
  Some [RPop None; RPop (Some 1); RPop (Some 3); RPop (Some 2)].
Proof. vm_compute. reflexivity. Qed.

Lemma quiet_dec (s : sys (ring Z) (thread Z)) :
  forallb (fun l => match pc l with Idle => true | _ => false end) s.2 = true -> quiet s.
Proof.
  intros Hall i l Hl. rewrite forallb_forall in Hall. specialize (Hall l (proj1 (list_elem_of_In _ _) (list_elem_of_lookup_2 _ _ _ Hl))).
  by destruct (pc l).
Qed.

Lemma ring_settled_exact_witness :
  let s := (mm_run (mm_start 0 demo_progs) (turns [(0, 5); (1, 9); (0, 25)]%nat)).1 in
  exists q, fifo (mm_run (mm_start 0 demo_progs) (turns [(0, 5); (1, 9); (0, 25)]%nat)).2 q /\ forall i x rest rs,
    (s.2 !! i = Some (mk_thread (Pop :: rest) Idle rs) ->
     exists k g' es', (k <= 10)%nat /\ mm_run s (replicate k (i, steady x)) =
       ((g', <[i := mk_thread rest Idle (rs ++ [RPop (head q)])]> s.2), es')) /\
    (forall v, s.2 !! i = Some (mk_thread (Push v :: rest) Idle rs) ->
     exists k g' es', (k <= 13)%nat /\ mm_run s (replicate k (i, steady x)) =
       ((g', <[i := mk_thread rest Idle (rs ++ [RPush v (bool_decide (length q < 255)%nat)])]> s.2), es')).
Proof.
  apply (ring_settled_exact 0 demo_progs (turns [(0, 5); (1, 9); (0, 25)]%nat) _ _ (surjective_pairing _)).
  - vm_compute. reflexivity.
  - apply quiet_dec. vm_compute. reflexivity.
Defined.

(** Undisturbed is needed: the two indices a receiver compares are read one
    after the other, and after 256 messages passed in between it reports an empty
    ring although elements are queued. *)
Definition stalled_progs : list (list (mm_op Z)) := [[Pop]; replicate 256 (Push 7); replicate 200 Pop].
Lemma pop_may_miss :
  let r := mm_run (mm_start 0 stalled_progs)
    (turns [(0, 2)]%nat ++ concat (replicate 200 (turns [(1, 13); (2, 5)]%nat)) ++ turns [(1, 56 * 13); (0, 2)]%nat) in
  (results <$> r.1.2 !! 0%nat) = Some [RPop None] /\ ct_ r.1.1 - rd_ r.1.1 = 56.
Proof. vm_compute. done. Qed.
