(* ===== verification/RingSingle.v ===== *)
(** The rings with a single sender ([shm-ipc/src/libipc/prod_cons.h],
    single-single-unicast and single-multi-unicast). The sender is the first
    thread, the others receive; each constructor of [ss_pc] is the point before
    one access to shared memory. *)
From stdpp Require Import prelude list functions.
From Stdlib Require Import ZArith Lia.
From S2P Require Import Prelude Cpp Interleave Ring RingInv.

Open Scope Z_scope.

#[local] Arguments index_of : simpl never.
#[local] Arguments u32 : simpl never.

Section single.
Context {V : Type}.

(** * State *)
Record sring := mk_sring { s_rd_ : Z; s_wt_ : Z; s_data_ : Z -> V }.
Definition sring_init (zero : V) : sring := mk_sring 0 0 (fun _ => zero).

Inductive ss_pc :=
  | SIdle
  (* push *)
  | SLoadWt (v : V)
  | SLoadRd (v : V) (cur_wt : Z)
  | SBegin (v : V) (cur_wt : Z)
  | SData (v : V) (cur_wt : Z)
  | SInc (v : V)
  (* pop *)
  | RLoadRd
  | RLoadWt (cur_rd : Z)
  | RCopy (cur_rd : Z)
  | RMove (cur_rd : Z) (buff : V).

Record sthread := mk_sthread { s_todo : list (mm_op V); s_pc : ss_pc; s_results : list (mm_result V) }.
Definition sgoto (p : ss_pc) (l : sthread) := mk_sthread (s_todo l) p (s_results l).
Definition sfinish (r : mm_result V) (l : sthread) := mk_sthread (s_todo l) SIdle (s_results l ++ [r]).

(** A result is an event: it takes effect when its operation decides. *)
Definition decided (r : mm_result V) (g : sring) (l : sthread) : option (sring * sthread * list (mm_result V)) :=
  Some (g, sfinish r l, [r]).

(** [push] of both rings. *)
Definition spush_step (w : choice V) (g : sring) (l : sthread) : option (sring * sthread * list (mm_result V)) :=
  match s_pc l with
  | SLoadWt v => Some (g, sgoto (SLoadRd v (index_of (s_wt_ g))) l, [])
  | SLoadRd v cur_wt =>
      if cur_wt =? index_of (u32 (s_rd_ g - 1)) then decided (RPush v false) g l
      else Some (g, sgoto (SBegin v cur_wt) l, [])
  | SBegin v cur_wt => Some (mk_sring (s_rd_ g) (s_wt_ g) (<[cur_wt := torn w]> (s_data_ g)), sgoto (SData v cur_wt) l, [])
  | SData v cur_wt => Some (mk_sring (s_rd_ g) (s_wt_ g) (<[cur_wt := v]> (s_data_ g)), sgoto (SInc v) l, [])
  | SInc v => decided (RPush v true) (mk_sring (s_rd_ g) (u32 (s_wt_ g + 1)) (s_data_ g)) l
  | _ => None
  end.

(** [pop] of the ring with one receiver: the element is read in place and the
    index moved. *)
Definition pop_single_step (w : choice V) (g : sring) (l : sthread) : option (sring * sthread * list (mm_result V)) :=
  match s_pc l with
  | RLoadRd => Some (g, sgoto (RLoadWt (index_of (s_rd_ g))) l, [])
  | RLoadWt cur_rd =>
      if cur_rd =? index_of (s_wt_ g) then decided (RPop None) g l else Some (g, sgoto (RCopy cur_rd) l, [])
  | RCopy cur_rd => Some (g, sgoto (RMove cur_rd (s_data_ g cur_rd)) l, [])
  | RMove cur_rd buff => decided (RPop (Some buff)) (mk_sring (u32 (s_rd_ g + 1)) (s_wt_ g) (s_data_ g)) l
  | _ => None
  end.

(** [pop] of the ring with several: the element is copied, and is the receiver's
    if it moves the index. *)
Definition pop_multi_step (w : choice V) (g : sring) (l : sthread) : option (sring * sthread * list (mm_result V)) :=
  match s_pc l with
  | RLoadRd => Some (g, sgoto (RLoadWt (s_rd_ g)) l, [])
  | RLoadWt cur_rd =>
      if index_of cur_rd =? index_of (s_wt_ g) then decided (RPop None) g l else Some (g, sgoto (RCopy cur_rd) l, [])
  | RCopy cur_rd => Some (g, sgoto (RMove cur_rd (s_data_ g (index_of cur_rd))) l, [])
  | RMove cur_rd buff =>
      if negb (spurious w) && (s_rd_ g =? cur_rd)
      then decided (RPop (Some buff)) (mk_sring (u32 (cur_rd + 1)) (s_wt_ g) (s_data_ g)) l
      else Some (g, sgoto RLoadRd l, [])
  | _ => None
  end.

(** [many]: the ring with several receivers. *)
Definition ss_step (many : bool) (w : choice V) (g : sring) (l : sthread) : option (sring * sthread * list (mm_result V)) :=
  match s_pc l with
  | SIdle =>
      match s_todo l with
      | [] => None
      | Push v :: ops => Some (g, mk_sthread ops (SLoadWt v) (s_results l), [])
      | Pop :: ops => Some (g, mk_sthread ops RLoadRd (s_results l), [])
      end
  | SLoadWt _ | SLoadRd _ _ | SBegin _ _ | SData _ _ | SInc _ => spush_step w g l
  | _ => if many then pop_multi_step w g l else pop_single_step w g l
  end.

Definition ss_run (many : bool) : sys sring sthread -> list (nat * choice V) -> sys sring sthread * list (event (mm_result V)) :=
  sys_run (ss_step many).

(** A sender with what it sends, and receivers with how often they try. *)
Definition ss_start (zero : V) (msgs : list V) (tries : list nat) : sys sring sthread :=
  (sring_init zero, mk_sthread (Push <$> msgs) SIdle [] :: ((fun k => mk_sthread (replicate k Pop) SIdle []) <$> tries)).

(** * Specification: a queue of 255 places

    What it holds after a history of results, if the history is one of a queue.
    [exact] says whether "empty" must be true. *)
Definition q_step (exact : bool) (q : list V) (r : mm_result V) : list V -> Prop := fun q' =>
  match r with
  | RPush v true => (length q < 255)%nat /\ q' = q ++ [v]
  | RPush _ false => length q = 255%nat /\ q' = q
  | RPop (Some v) => q = v :: q'
  | RPop None => (exact = true -> q = []) /\ q' = q
  end.
Inductive queue_history (exact : bool) : list (event (mm_result V)) -> list V -> Prop :=
  | qh_nil : queue_history exact [] []
  | qh_snoc es q i r q' : queue_history exact es q -> q_step exact q r q' -> queue_history exact (es ++ [(i, r)]) q'.

(** * Invariant *)
Definition pushed (es : list (event (mm_result V))) : nat :=
  length (List.filter (fun e => match e.2 with RPush _ b => b | _ => false end) es).
Lemma pushed_app es es' : pushed (es ++ es') = (pushed es + pushed es')%nat.
Proof. unfold pushed. by rewrite filter_app, length_app. Qed.

(** What was sent so far, and how much of it was received. *)
Record sghost := mk_sghost { slog : list V; taken : Z }.
Abbreviation len a := (Z.of_nat (length (slog a))).

Record s_global (many : bool) (n : nat) (g : sring) (a : sghost) (es : list (event (mm_result V))) : Prop := {
  sg_wt : s_wt_ g = u32 (len a);
  sg_rd : s_rd_ g = u32 (taken a);
  sg_order : 0 <= taken a <= len a;
  sg_room : len a - taken a <= 255;
  sg_data c v : taken a <= c -> slog a !! Z.to_nat c = Some v -> s_data_ g (index_of c) = v;
  sg_queue : queue_history (negb many) es (drop (Z.to_nat (taken a)) (slog a));
  sg_pushed : pushed es = length (slog a) }.

(** The number behind the index a receiver has read. *)
Definition reads (many : bool) (a : sghost) (cur c : Z) : Prop :=
  0 <= c <= taken a /\ cur = (if many then u32 c else index_of c) /\ (many = false -> c = taken a).

Definition s_at (many : bool) (i : nat) (g : sring) (a : sghost) (p : ss_pc) : Prop :=
  match p with
  | SIdle => True
  | SLoadWt _ => i = 0%nat
  | SLoadRd _ cur => i = 0%nat /\ cur = index_of (len a)
  | SBegin _ cur | SData _ cur => i = 0%nat /\ cur = index_of (len a) /\ len a - taken a <= 254
  | SInc v => i = 0%nat /\ len a - taken a <= 254 /\ s_data_ g (index_of (len a)) = v
  | RLoadRd => i <> 0%nat
  | RLoadWt cur => i <> 0%nat /\ exists c, reads many a cur c
  | RCopy cur => i <> 0%nat /\ exists c, reads many a cur c /\ (c = taken a -> taken a < len a)
  | RMove cur buff => i <> 0%nat /\ exists c, reads many a cur c /\
      (c = taken a -> taken a < len a /\ slog a !! Z.to_nat c = Some buff)
  end.

(** The first thread sends, the others receive. *)
Definition role (i : nat) (op : mm_op V) : Prop := match op with Push _ => i = 0%nat | Pop => i <> 0%nat end.
Definition s_local (many : bool) (i : nat) (g : sring) (a : sghost) (l : sthread) : Prop :=
  s_at many i g a (s_pc l) /\ Forall (role i) (s_todo l) /\ (many = false -> (i <= 1)%nat).

Record s_guar (many : bool) (i : nat) (g : sring) (a : sghost) (g' : sring) (a' : sghost) : Prop := {
  gs_taken : taken a <= taken a';
  gs_log : slog a `prefix_of` slog a';
  gs_sender : i = 0%nat -> taken a' = taken a;
  gs_receiver : i <> 0%nat -> slog a' = slog a /\ s_data_ g' = s_data_ g;
  gs_one : many = false -> (i <= 1)%nat }.

Lemma s_stable many i j g a g' a' l : i <> j -> s_guar many i g a g' a' -> s_local many j g a l -> s_local many j g' a' l.
Proof.
  intros Hij [Ht Hl Hs Hr H1] (Hat & Hrole & Hj). split; [|done].
  assert (forall cur c, j <> 0%nat -> reads many a cur c -> reads many a' cur c /\ (c = taken a' -> c = taken a)) as Hreads.
  { intros cur c Hj0 (Hc & -> & Hone). split; [split; [lia|split; [done|]]|intros ->; lia].
    intros Hm. rewrite (Hone Hm). symmetry. apply Hs. specialize (H1 Hm). specialize (Hj Hm). lia. }
  pose proof (prefix_length _ _ Hl) as Hlen.
  destruct (s_pc l) as [|v|v cur|v cur|v cur|v| |cur|cur|cur buff]; simpl in *; try done.
  - destruct Hat as [-> ->]. destruct Hr as [-> _]; [done|]. done.
  - destruct Hat as (-> & -> & ?). destruct Hr as [-> _]; [done|]. split; [done|]. split; [done|lia].
  - destruct Hat as (-> & -> & ?). destruct Hr as [-> _]; [done|]. split; [done|]. split; [done|lia].
  - destruct Hat as (-> & ? & <-). destruct Hr as [-> ->]; [done|]. split; [done|]. split; [lia|done].
  - destruct Hat as (Hj0 & c & Hc). split; [done|]. exists c. by apply Hreads.
  - destruct Hat as (Hj0 & c & Hc & Hx). split; [done|]. exists c. destruct (Hreads cur c Hj0 Hc) as [? Hy]. split; [done|].
    intros Hz. specialize (Hy Hz). specialize (Hx Hy). lia.
  - destruct Hat as (Hj0 & c & Hc & Hx). split; [done|]. exists c. destruct (Hreads cur c Hj0 Hc) as [? Hy]. split; [done|].
    intros Hz. specialize (Hy Hz). destruct (Hx Hy) as [? ?]. split; [lia|]. by eapply prefix_lookup_Some.
Qed.

Lemma s_guar_refl many i g a : (many = false -> (i <= 1)%nat) -> s_guar many i g a g a.
Proof. by split. Qed.

Lemma u32_succ x : u32 (u32 x + 1) = u32 (x + 1).
Proof. unfold u32. change (2 ^ 32) with 4294967296. lia. Qed.

(** * The steps that change the shared state *)
Lemma swrite_ok many n g a es x : s_global many n g a es -> len a - taken a <= 254 ->
  s_global many n (mk_sring (s_rd_ g) (s_wt_ g) (<[index_of (len a) := x]> (s_data_ g))) a es.
Proof.
  intros [? ? Ho ? Hd ? ?] Hr. split; try done. intros c v Hc Hv. simpl.
  rewrite fn_lookup_insert_ne; [by apply Hd|]. pose proof (lookup_lt_Some _ _ _ Hv).
  intros E. apply (index_of_inj (taken a)) in E; lia.
Qed.

Lemma sent_ok many n g a es i v : s_global many n g a es -> len a - taken a <= 254 -> s_data_ g (index_of (len a)) = v ->
  s_global many n (mk_sring (s_rd_ g) (u32 (s_wt_ g + 1)) (s_data_ g)) (mk_sghost (slog a ++ [v]) (taken a)) (es ++ [(i, RPush v true)]).
Proof.
  intros [Hw ? Ho ? Hd Hq Hp] Hr Hv. split; simpl; rewrite ?length_app; simpl; try done; try lia.
  - rewrite Hw, u32_succ. f_equal. lia.
  - intros c v' Hc. rewrite lookup_app_Some. intros [?|[? Hs]]; [by apply Hd|].
    apply list_lookup_singleton_Some in Hs as [? <-]. rewrite <- Hv. f_equal. f_equal. lia.
  - rewrite drop_app_le by lia. econstructor; [exact Hq|]. simpl. rewrite length_drop. split; [lia|done].
  - rewrite pushed_app, Hp. done.
Qed.

Lemma received_ok many n g a es i v : s_global many n g a es -> taken a < len a -> slog a !! Z.to_nat (taken a) = Some v ->
  s_global many n (mk_sring (u32 (s_rd_ g + 1)) (s_wt_ g) (s_data_ g)) (mk_sghost (slog a) (taken a + 1)) (es ++ [(i, RPop (Some v))]).
Proof.
  intros [? Hrd Ho ? Hd Hq Hp] Hr Hv. split; simpl; try done; try lia.
  - by rewrite Hrd, u32_succ.
  - intros c v' Hc. apply Hd. lia.
  - econstructor; [exact Hq|]. simpl. rewrite (drop_S _ _ _ Hv). f_equal. f_equal. lia.
  - rewrite pushed_app, Hp. unfold pushed. simpl. lia.
Qed.

Lemma refused_ok many n g a es i v : s_global many n g a es -> index_of (len a) = index_of (u32 (s_rd_ g - 1)) ->
  s_global many n g a (es ++ [(i, RPush v false)]).
Proof.
  intros [? Hrd Ho ? Hd Hq Hp] E. split; try done; [|rewrite pushed_app, Hp; unfold pushed; simpl; lia].
  econstructor; [exact Hq|]. simpl. rewrite length_drop. split; [|done].
  rewrite index_of_u32, Hrd, index_of_eq in E. unfold u32 in E. change (2 ^ 32) with 4294967296 in E. lia.
Qed.

Lemma nothing_ok many n g a es i : s_global many n g a es -> (many = false -> taken a = len a) ->
  s_global many n g a (es ++ [(i, RPop None)]).
Proof.
  intros [? Hrd Ho ? Hd Hq Hp] E. split; try done; [|rewrite pushed_app, Hp; unfold pushed; simpl; lia].
  econstructor; [exact Hq|]. split; [|done]. intros Hm. destruct many; [done|]. apply drop_ge. specialize (E eq_refl). lia.
Qed.

Definition s_fits (many : bool) (es : list (event (mm_result V))) : Prop := many = true -> Z.of_nat (pushed es) < 2 ^ 32.
Lemma s_fits_prefix many es es' : s_fits many (es ++ es') -> s_fits many es.
Proof. unfold s_fits. rewrite pushed_app. intros Hf Hm. specialize (Hf Hm). lia. Qed.

(** One step of the sender. *)
Lemma spush_ok many n i w g a l g' l' es new :
  s_global many n g a es -> s_local many i g a l -> spush_step w g l = Some (g', l', new) ->
  exists a', s_global many n g' a' (es ++ (pair i <$> new)) /\ s_local many i g' a' l' /\ s_guar many i g a g' a'.
Proof.
  intros Hg (Hat & Hrole & Hone). pose proof Hg as [Hwt Hrd Ho Hr _ _ _]. unfold spush_step, decided.
  destruct (s_pc l) as [|v|v cur|v cur|v cur|v| |cur|cur|cur buff]; try done; simpl in Hat.
  - intros [= <- <- <-]. exists a. rewrite app_nil_r. split; [done|]. split; [|by apply s_guar_refl].
    split; [|done]. simpl. split; [done|]. by rewrite Hwt, index_of_u32.
  - destruct Hat as [-> ->]. destruct (Z.eqb_spec (index_of (len a)) (index_of (u32 (s_rd_ g - 1)))) as [E|E]; intros [= <- <- <-].
    + exists a. split; [by apply refused_ok|]. split; [done|]. by apply s_guar_refl.
    + exists a. rewrite app_nil_r. split; [done|]. split; [|by apply s_guar_refl]. split; [|done]. simpl. split; [done|]. split; [done|].
      assert (len a - taken a <> 255); [|lia]. intros E'. apply E. rewrite index_of_u32, Hrd, index_of_eq.
      unfold u32. change (2 ^ 32) with 4294967296. lia.
  - destruct Hat as (-> & -> & Hroom). intros [= <- <- <-]. exists a. rewrite app_nil_r. split; [by apply swrite_ok|]. split; [done|]. by split.
  - destruct Hat as (-> & -> & Hroom). intros [= <- <- <-]. exists a. rewrite app_nil_r. split; [by apply swrite_ok|].
    split; [|by split]. split; [|done]. simpl. split; [done|]. split; [done|]. apply fn_lookup_insert.
  - destruct Hat as (-> & Hroom & Hv). intros [= <- <- <-]. exists (mk_sghost (slog a ++ [v]) (taken a)).
    split; [by apply sent_ok|]. split; [done|]. split; simpl; try done. by eexists.
Qed.

(** One step of a receiver. *)
Lemma pop_single_ok n i w g a l g' l' es new :
  s_global false n g a es -> s_local false i g a l -> pop_single_step w g l = Some (g', l', new) ->
  exists a', s_global false n g' a' (es ++ (pair i <$> new)) /\ s_local false i g' a' l' /\ s_guar false i g a g' a'.
Proof.
  intros Hg (Hat & Hrole & Hone). pose proof Hg as [Hwt Hrd Ho Hr Hd _ _]. unfold pop_single_step, decided.
  destruct (s_pc l) as [|v|v cur|v cur|v cur|v| |cur|cur|cur buff]; try done; simpl in Hat.
  - intros [= <- <- <-]. exists a. rewrite app_nil_r. split; [done|]. split; [|by apply s_guar_refl].
    split; [|done]. simpl. split; [done|]. exists (taken a). split; [lia|]. split; [|done]. by rewrite Hrd, index_of_u32.
  - destruct Hat as (Hi & c & Hc & -> & Hcur). specialize (Hcur eq_refl) as ->.
    destruct (Z.eqb_spec (index_of (taken a)) (index_of (s_wt_ g))) as [E|E]; intros [= <- <- <-]; exists a.
    + split; [|split; [done|by apply s_guar_refl]]. apply nothing_ok; [done|]. intros _.
      rewrite Hwt, index_of_u32 in E. apply (index_of_inj (taken a)) in E; lia.
    + rewrite app_nil_r. split; [done|]. split; [|by apply s_guar_refl]. split; [|done]. simpl. split; [done|].
      exists (taken a). split; [done|]. intros _. assert (taken a <> len a); [|lia]. intros E'. apply E. by rewrite Hwt, index_of_u32, E'.
  - destruct Hat as (Hi & c & (Hc & -> & Hcur) & Hx). specialize (Hcur eq_refl) as ->. intros [= <- <- <-]. exists a.
    rewrite app_nil_r. split; [done|]. split; [|by apply s_guar_refl]. split; [|done]. simpl. split; [done|].
    exists (taken a). split; [done|]. intros _. specialize (Hx eq_refl). split; [done|].
    destruct (lookup_lt_is_Some_2 (slog a) (Z.to_nat (taken a))) as [v Hv]; [lia|]. rewrite Hv. f_equal. symmetry. by apply Hd.
  - destruct Hat as (Hi & c & (Hc & -> & Hcur) & Hx). specialize (Hcur eq_refl) as ->. destruct (Hx eq_refl) as [Hlt Hv].
    intros [= <- <- <-]. exists (mk_sghost (slog a) (taken a + 1)). split; [by apply received_ok|]. split; [done|].
    split; simpl; try done. lia.
Qed.

Lemma pop_multi_ok n i w g a l g' l' es new :
  s_global true n g a es -> s_local true i g a l -> s_fits true es -> pop_multi_step w g l = Some (g', l', new) ->
  exists a', s_global true n g' a' (es ++ (pair i <$> new)) /\ s_local true i g' a' l' /\ s_guar true i g a g' a'.
Proof.
  intros Hg (Hat & Hrole & Hone) Hfits. pose proof Hg as [Hwt Hrd Ho Hr Hd _ Hp]. unfold pop_multi_step, decided.
  specialize (Hfits eq_refl). rewrite Hp in Hfits.
  destruct (s_pc l) as [|v|v cur|v cur|v cur|v| |cur|cur|cur buff]; try done; simpl in Hat.
  - intros [= <- <- <-]. exists a. rewrite app_nil_r. split; [done|]. split; [|by apply s_guar_refl].
    split; [|done]. simpl. split; [done|]. exists (taken a). split; [lia|]. by split.
  - destruct Hat as (Hi & c & Hc & -> & _). rewrite index_of_u32.
    destruct (Z.eqb_spec (index_of c) (index_of (s_wt_ g))) as [E|E]; intros [= <- <- <-]; exists a.
    + split; [by apply nothing_ok|]. split; [done|]. by apply s_guar_refl.
    + rewrite app_nil_r. split; [done|]. split; [|by apply s_guar_refl]. split; [|done]. simpl. split; [done|].
      exists c. split; [by split|]. intros ->. assert (taken a <> len a); [|lia]. intros E'. apply E. by rewrite Hwt, index_of_u32, E'.
  - destruct Hat as (Hi & c & (Hc & -> & _) & Hx). intros [= <- <- <-]. exists a.
    rewrite app_nil_r. split; [done|]. split; [|by apply s_guar_refl]. split; [|done]. simpl. split; [done|].
    exists c. split; [by split|]. intros ->. specialize (Hx eq_refl). split; [done|].
    destruct (lookup_lt_is_Some_2 (slog a) (Z.to_nat (taken a))) as [v Hv]; [lia|]. rewrite Hv, index_of_u32. f_equal. symmetry. by apply Hd.
  - destruct Hat as (Hi & c & (Hc & -> & _) & Hx). destruct (spurious w); simpl.
    { intros [= <- <- <-]. exists a. rewrite app_nil_r. split; [done|]. split; [done|]. by apply s_guar_refl. }
    destruct (Z.eqb_spec (s_rd_ g) (u32 c)) as [E|E]; intros [= <- <- <-].
    + assert (c = taken a) as -> by (rewrite Hrd, !u32_small in E by (unfold is_u32; lia); done).
      destruct (Hx eq_refl) as [Hlt Hv]. exists (mk_sghost (slog a) (taken a + 1)). rewrite <- E.
      split; [by apply received_ok|]. split; [done|]. split; simpl; try done. lia.
    + exists a. rewrite app_nil_r. split; [done|]. split; [done|]. by apply s_guar_refl.
Qed.

Lemma ss_step_ok many n i w g a l g' l' es new :
  (i < n)%nat -> s_global many n g a es -> s_local many i g a l -> s_fits many (es ++ (pair i <$> new)) ->
  ss_step many w g l = Some (g', l', new) ->
  exists a', s_global many n g' a' (es ++ (pair i <$> new)) /\ s_local many i g' a' l' /\ s_guar many i g a g' a'.
Proof.
  intros _ Hg Hl Hf%s_fits_prefix. unfold ss_step. destruct (s_pc l) eqn:Epc; try (by apply spush_ok);
    try (destruct many; [by apply pop_multi_ok|by apply pop_single_ok]).
  destruct Hl as (_ & Hrole & Hone). destruct (s_todo l) as [|[v|] ops] eqn:Et; [done| |];
    intros [= <- <- <-]; apply Forall_cons_1 in Hrole as [Hi Hrole]; exists a; rewrite app_nil_r;
    (split; [done|]); (split; [|by apply s_guar_refl]); by split.
Qed.

Lemma ss_start_ok many zero msgs tries : (many = false -> (length tries <= 1)%nat) ->
  holds (s_global many) (s_local many) (ss_start zero msgs tries) [].
Proof.
  intros Hone. exists (mk_sghost [] 0). split; [by split; try done; constructor|].
  intros [|i] l; simpl; [intros [= <-]|rewrite list_lookup_fmap, fmap_Some; intros (k & Hk & ->)]; (split; [done|]); split; try done.
  - apply Forall_fmap, Forall_true. done.
  - intros _. lia.
  - by apply Forall_replicate.
  - intros Hm. apply lookup_lt_Some in Hk. specialize (Hone Hm). lia.
Qed.

Lemma ss_run_ok many zero msgs tries sched : (many = false -> (length tries <= 1)%nat) ->
  s_fits many (ss_run many (ss_start zero msgs tries) sched).2 ->
  holds (s_global many) (s_local many) (ss_run many (ss_start zero msgs tries) sched).1 (ss_run many (ss_start zero msgs tries) sched).2.
Proof.
  intros Hone. apply (holds_run (ss_step many) (s_global many) (s_local many) (s_guar many) (s_fits many)).
  - apply s_fits_prefix.
  - intros. by eapply ss_step_ok.
  - intros. by eapply s_stable.
  - by apply ss_start_ok.
Qed.

(** * What a thread did *)
Definition s_history (i : nat) (es : list (event (mm_result V))) : list (mm_result V) := (filter (fun e => e.1 = i) es).*2.

Lemma ss_step_results many w g l g' l' new : ss_step many w g l = Some (g', l', new) -> s_results l' = s_results l ++ new.
Proof.
  unfold ss_step, spush_step, pop_single_step, pop_multi_step, decided.
  destruct (s_pc l); try (destruct (s_todo l) as [|[]]; [done| |]);
    repeat match goal with |- context [if ?b then _ else _] => destruct b end; intros [= <- <- <-]; simpl; by rewrite ?app_nil_r.
Qed.

Lemma ss_run_results many zero msgs tries sched i l : (ss_run many (ss_start zero msgs tries) sched).1.2 !! i = Some l ->
  s_history i (ss_run many (ss_start zero msgs tries) sched).2 = s_results l.
Proof.
  revert i l. apply (sys_run_inv (ss_step many) (fun s es => forall i l, s.2 !! i = Some l -> s_history i es = s_results l)).
  - intros [|i] l; simpl; [by intros [= <-]|]. rewrite list_lookup_fmap, fmap_Some. by intros (k & _ & ->).
  - intros [g ls] es [j w] IH i l. unfold sys_step. simpl. destruct (ls !! j) as [lj|] eqn:Ej; [|rewrite app_nil_r; apply IH].
    destruct (ss_step many w g lj) as [[[g' l'] new]|] eqn:Es; [|rewrite app_nil_r; apply IH]. simpl.
    assert (forall k, s_history k (pair j <$> new) = if decide (k = j) then new else []) as Hnew.
    { intros k. unfold s_history. clear Es. induction new as [|x xs IHx]; [by destruct (decide _)|]. cbn [fmap list_fmap]. rewrite list.filter_cons. simpl.
      destruct (decide (k = j)) as [->|]; [rewrite decide_True by done; cbn; f_equal; done|rewrite decide_False by congruence; done]. }
    unfold s_history in *. rewrite list.filter_app, fmap_app, Hnew.
    intros [(<- & <- & _)|(Hne & Hi)]%list_lookup_insert_Some.
    + rewrite decide_True by done. rewrite (ss_step_results _ _ _ _ _ _ _ Es). f_equal. by apply IH.
    + rewrite decide_False, app_nil_r by congruence. by apply IH.
Qed.
End single.
Arguments sring : clear implicits.
Arguments sthread : clear implicits.
Arguments ss_pc : clear implicits.

(** * Claims *)
(** C17: a ring with a single sender is a queue of 255 places. With one receiver,
    for any number of messages, or with several, for fewer than 2^32 messages, in
    every interleaving: the results of all threads, in the order they were
    decided, are those of a first-in first-out queue; "full" is only answered
    when 255 messages are queued, and "empty" to an only receiver when none is;
    and every thread is given its own results, in order. *)
Theorem single_sender_refines_queue {V} (zero : V) (msgs : list V) (tries : list nat) (many : bool)
    (sched : list (nat * choice V)) (s : sys (sring V) (sthread V)) (es : list (event (mm_result V))) :
  ss_run many (ss_start zero msgs tries) sched = (s, es) ->
  (if many then Z.of_nat (pushed es) < 2 ^ 32 else (length tries <= 1)%nat) ->
  (exists q, queue_history (negb many) es q) /\ forall i l, s.2 !! i = Some l -> s_history i es = s_results l.
Proof.
  intros Hrun Hfits. split.
  - pose proof (ss_run_ok many zero msgs tries sched) as Hok. rewrite Hrun in Hok.
    destruct Hok as (a & Hg & _); [intros ->; done|intros ->; done|]. eexists. apply Hg.
  - intros i l. pose proof (ss_run_results many zero msgs tries sched i l) as Hr. by rewrite Hrun in Hr.
Qed.

(** A receiver that stops between reading an element and moving past it. *)
Definition slow_sched : list (nat * choice Z) :=
  concat ((fun '(i, k) => replicate k (i, mk_choice false 99)) <$> [(0, 13); (1, 4); (2, 9); (0, 5); (1, 20)]%nat).

Lemma single_sender_refines_queue_witness :
  let r := ss_run true (ss_start 0 [1; 2; 3] [2; 2]%nat) slow_sched in
  (exists q, queue_history false r.2 q) /\ forall i l, r.1.2 !! i = Some l -> s_history i r.2 = s_results l.
Proof.
  apply (single_sender_refines_queue 0 [1; 2; 3] [2; 2]%nat true slow_sched _ _ (surjective_pairing _)).
  vm_compute. reflexivity.
Defined.

Example slow_results :
  (ss_run true (ss_start 0 [1; 2; 3] [2; 2]%nat) slow_sched).2 =
  [(0%nat, RPush 1 true); (0%nat, RPush 2 true); (2%nat, RPop (Some 1)); (0%nat, RPush 3 true); (1%nat, RPop (Some 2));
   (1%nat, RPop (Some 3))].
Proof. vm_compute. reflexivity. Qed.

(** With several receivers "empty" may be wrong: a receiver reads the read index,
    another one takes that message, the sender fills the ring, and the write index
    is now 256 past what the first has read: it reports an empty ring of 255
    messages. *)
Definition fooled_sched : list (nat * choice Z) :=
  concat ((fun '(i, k) => replicate k (i, mk_choice false 99)) <$> [(0, 6); (1, 2); (2, 5); (0, 255 * 6); (1, 1)]%nat).
Lemma full_ring_looks_empty :
  let r := ss_run true (ss_start 0 (replicate 256 7) [1; 1]%nat) fooled_sched in
  s_history 1 r.2 = [RPop None] /\ s_history 2 r.2 = [RPop (Some 7)] /\ pushed r.2 = 256%nat.
Proof. vm_compute. done. Qed.
