(* ===== verification/IdPool.v ===== *)
(** The pool of block numbers for large messages
    ([shm-ipc/src/libipc/utility/id_pool.h]): a free list threaded through an
    array of bytes, in shared memory that starts out zeroed. *)
From stdpp Require Import prelude list fin_sets gmap.
From Stdlib Require Import ZArith Lia.
From S2P Require Import Prelude Cpp.

Open Scope Z_scope.

(** * The pool *)
Definition large_msg_cache : Z := 32.
Definition max_count : Z := Z.min large_msg_cache 255.
Definition invalid_value : Z := 2 ^ 64 - 1.

Record id_pool := mk_id_pool { next_ : list Z; cursor_ : Z; prepared_ : bool }.

(** Fresh shared memory. *)
Definition pool_zero : id_pool := mk_id_pool (replicate (Z.to_nat max_count) 0) 0 false.

(** Equal, byte by byte, to a pool that was never used. *)
Definition pool_invalid (p : id_pool) : bool :=
  bool_decide (next_ p = replicate (Z.to_nat max_count) 0) && (cursor_ p =? 0) && negb (prepared_ p).

(** The loop [i = next_[i] = i + 1]; the assigned value is a byte, and its limit
    is below 256. *)
Fixpoint init_loop (fuel : nat) (i : Z) (l : list Z) : list Z :=
  match fuel with
  | O => l
  | S fuel => if i <? max_count then let v := u8 (i + 1) in init_loop fuel v (<[Z.to_nat i := v]> l) else l
  end.
Definition pool_init (p : id_pool) : id_pool :=
  mk_id_pool (init_loop (Z.to_nat max_count) 0 (next_ p)) (cursor_ p) (prepared_ p).

Definition prepare (p : id_pool) : id_pool :=
  let p := if negb (prepared_ p) && pool_invalid p then pool_init p else p in
  mk_id_pool (next_ p) (cursor_ p) true.

Definition pool_empty (p : id_pool) : bool := cursor_ p =? max_count.

(** [None] stands for [invalid_value]. *)
Definition acquire (p : id_pool) : res (option Z * id_pool) :=
  if pool_empty p then Ok (None, p)
  else
    let id := cursor_ p in
    n ← vec_at (next_ p) (Z.to_nat id);
    Ok (Some id, mk_id_pool (next_ p) n (prepared_ p)).

(** Without its answer, which no caller looks at. *)
Definition release (id : Z) (p : id_pool) : res id_pool :=
  if id =? invalid_value then Ok p
  else
    _ ← vec_at (next_ p) (Z.to_nat id);
    Ok (mk_id_pool (<[Z.to_nat id := cursor_ p]> (next_ p)) (u8 id) (prepared_ p)).

(** * The free list *)
Fixpoint chain (next : list Z) (c : Z) (l : list Z) : Prop :=
  match l with
  | [] => c = max_count
  | x :: l => c = x /\ 0 <= x < max_count /\ exists n, next !! Z.to_nat x = Some n /\ chain next n l
  end.

(** A well-formed pool, with its free ids. *)
Record pool_ok (p : id_pool) (free : list Z) : Prop := {
  pool_length : length (next_ p) = Z.to_nat max_count;
  pool_chain : chain (next_ p) (cursor_ p) free;
  pool_nodup : NoDup free;
  pool_prepared : prepared_ p = true }.

Lemma chain_range next c l x : chain next c l -> x ∈ l -> 0 <= x < max_count.
Proof.
  revert c. induction l as [|y l IH]; intros c; simpl; [set_solver|]. intros (_ & Hy & n & _ & Hc) [->|Hx]%elem_of_cons; eauto.
Qed.

(** Changing an entry outside the list. *)
Lemma chain_insert next c l i v : chain next c l -> 0 <= i -> i ∉ l -> chain (<[Z.to_nat i := v]> next) c l.
Proof.
  intros Hc Hi. revert c Hc. induction l as [|x l IH]; intros c; simpl; [done|].
  intros (-> & Hx & n & Hn & Hc) Hni. split; [done|]. split; [done|]. exists n.
  rewrite list_lookup_insert_ne; [|intros E; apply Hni; assert (x = i) as -> by lia; left]. split; [done|]. apply IH; [done|set_solver].
Qed.

Lemma prepare_zero_ok : pool_ok (prepare pool_zero) (seqZ 0 max_count).
Proof.
  split; [done| |apply NoDup_seqZ|done]. vm_compute.
  repeat (split; [done|]; split; [split; done || discriminate|]; eexists; split; [reflexivity|]). done.
Qed.

Lemma prepare_ok p free : pool_ok p free -> prepare p = p.
Proof. intros [_ _ _ Hp]. destruct p as [n c b]. simpl in Hp. subst. done. Qed.

Lemma acquire_nil p : pool_ok p [] -> acquire p = Ok (None, p).
Proof. intros [_ Hc _ _]. simpl in Hc. unfold acquire, pool_empty. by rewrite Hc. Qed.

Lemma acquire_cons p x free : pool_ok p (x :: free) ->
  exists p', acquire p = Ok (Some x, p') /\ pool_ok p' free.
Proof.
  intros [Hl (Hx & Hr & n & Hn & Hc) Hnd Hp]. unfold acquire, pool_empty. destruct (Z.eqb_spec (cursor_ p) max_count); [lia|].
  unfold vec_at. rewrite Hx, Hn. eexists. split; [done|]. split; simpl; try done. by apply NoDup_cons_1_2 in Hnd.
Qed.

Lemma block_id_valid id : 0 <= id < max_count -> (id =? invalid_value) = false.
Proof. intros Hid. apply Z.eqb_neq. unfold max_count, large_msg_cache, invalid_value in *. lia. Qed.

Lemma release_ok p free id : pool_ok p free -> 0 <= id < max_count -> id ∉ free ->
  exists p', release id p = Ok p' /\ pool_ok p' (id :: free).
Proof.
  intros [Hl Hc Hnd Hp] Hid Hni. unfold release, vec_at. rewrite block_id_valid by done.
  destruct (lookup_lt_is_Some_2 (next_ p) (Z.to_nat id)) as [x Hx]; [lia|]. rewrite Hx. eexists. split; [done|].
  assert (id < 255) by (unfold max_count, large_msg_cache in Hid; lia).
  split; simpl; [by rewrite length_insert| |by constructor|done]. rewrite u8_small by lia. split; [done|]. split; [done|].
  exists (cursor_ p). rewrite list_lookup_insert_eq by lia. split; [done|]. by apply chain_insert; [|lia|].
Qed.

(** * Clients *)
Inductive pool_op := Acquire | Release (id : Z).

(** The clients together: they release what they hold. *)
Definition pool_step (s : id_pool * list Z) (op : pool_op) : res (id_pool * list Z) :=
  let '(p, held) := s in
  match op with
  | Acquire =>
      r ← acquire (prepare p);
      Ok (match r with (Some id, p) => (p, id :: held) | (None, p) => (p, held) end)
  | Release id =>
      if decide (id ∈ held) then p ← release id p; Ok (p, filter (fun x => x <> id) held) else Ok s
  end.

Definition pool_run (ops : list pool_op) : res (id_pool * list Z) := foldM pool_step (pool_zero, []) ops.

(** The free and the held ids are all the ids, each once. *)
Definition pool_inv (s : id_pool * list Z) : Prop :=
  exists free, pool_ok (prepare s.1) free /\ free ++ s.2 ≡ₚ seqZ 0 max_count /\ (prepared_ s.1 = false -> s.2 = []).

Lemma held_facts free held : free ++ held ≡ₚ seqZ 0 max_count ->
  NoDup held /\ (forall x, x ∈ held -> 0 <= x < max_count /\ x ∉ free) /\ (length held + length free)%nat = Z.to_nat max_count.
Proof.
  intros HP. pose proof (NoDup_seqZ 0 max_count) as Hnd. rewrite <- HP in Hnd. apply NoDup_app in Hnd as (_ & Hdis & Hh).
  split; [done|]. split.
  - intros x Hx. split; [|intros Hf; by apply (Hdis x)]. assert (x ∈ seqZ 0 max_count) as Hs by (rewrite <- HP; set_solver).
    apply elem_of_seqZ in Hs. lia.
  - apply Permutation_length in HP. rewrite length_app, length_seqZ in HP. lia.
Qed.

Lemma pool_step_inv s op : pool_inv s -> exists s', pool_step s op = Ok s' /\ pool_inv s'.
Proof.
  destruct s as [p held]. intros (free & Hok & HP & Hz). destruct op as [|id]; simpl in *.
  - destruct free as [|x free].
    + rewrite (acquire_nil _ Hok). eexists. split; [done|]. exists []. simpl. by rewrite (prepare_ok _ _ Hok).
    + destruct (acquire_cons _ _ _ Hok) as (p' & -> & Hok'). eexists. split; [done|]. exists free. simpl.
      rewrite (prepare_ok _ _ Hok'). split; [done|]. split; [by rewrite <- Permutation_middle|].
      destruct Hok' as [_ _ _ Hp']. by rewrite Hp'.
  - destruct (decide (id ∈ held)) as [Hin|]; [|exists (p, held); split; [done|]; by exists free].
    destruct (held_facts _ _ HP) as (Hnd & Hfacts & _). destruct (Hfacts id Hin) as [Hr Hnf].
    assert (prepared_ p = true) as Hp by (destruct (prepared_ p); [done|]; rewrite Hz in Hin by done; set_solver).
    assert (prepare p = p) as Ep by (destruct p; simpl in Hp; by subst). rewrite Ep in Hok.
    destruct (release_ok p free id Hok Hr Hnf) as (p' & -> & Hok'). eexists. split; [done|].
    exists (id :: free). simpl. rewrite (prepare_ok _ _ Hok'). split; [done|]. split; [|destruct Hok' as [_ _ _ ->]; done].
    rewrite <- HP. assert (held ≡ₚ id :: filter (fun x => x <> id) held) as E.
    { apply list_elem_of_split_l in Hin as (h1 & h2 & -> & Hn1). rewrite list.filter_app, list.filter_cons.
      rewrite decide_False by auto. apply NoDup_app in Hnd as (_ & _ & [Hn2 _]%NoDup_cons).
      assert (forall h : list Z, id ∉ h -> filter (fun x : Z => x <> id) h = h) as Hfil.
      { induction h as [|y h IHh]; [done|]. intros Hn. rewrite list.filter_cons, decide_True by set_solver. f_equal. set_solver. }
      rewrite !Hfil by done. by rewrite Permutation_middle. }
    rewrite E at 2. simpl. by rewrite <- Permutation_middle.
Qed.

(** Block numbers are exclusive. Starting from zeroed shared memory, after any
    history of acquisitions and of releases of held numbers, none of which runs
    out of the array: the numbers held are distinct and below the pool's size,
    and the next acquisition yields a number nobody holds, or fails exactly when
    all are held. *)
Theorem pool_ids_exclusive (ops : list pool_op) :
  exists p held, pool_run ops = Ok (p, held) /\ NoDup held /\ (forall x, x ∈ held -> 0 <= x < max_count) /\
    exists r p', acquire (prepare p) = Ok (r, p') /\
      match r with
      | Some id => (id ∉ held) /\ 0 <= id < max_count
      | None => length held = Z.to_nat max_count
      end.
Proof.
  assert (exists s, pool_run ops = Ok s /\ pool_inv s) as ([p held] & Hrun & free & Hok & HP & _).
  { unfold pool_run. assert (pool_inv (pool_zero, [])) as H0.
    { exists (seqZ 0 max_count). split; [apply prepare_zero_ok|]. by rewrite app_nil_r. }
    revert H0. generalize (pool_zero, @nil Z). induction ops as [|op ops IH]; intros s Hs; [by exists s|].
    destruct (pool_step_inv s op Hs) as (s1 & E1 & Hs1). cbn [foldM]. rewrite E1. cbn [mbind res_bind]. by apply IH. }
  exists p, held. destruct (held_facts _ _ HP) as (Hnd & Hfacts & Hlen). split; [done|]. split; [done|].
  split; [intros x Hx; by apply Hfacts|]. destruct free as [|x free].
  - exists None, (prepare p). split; [by apply acquire_nil|]. simpl in Hlen. lia.
  - destruct (acquire_cons _ _ _ Hok) as (p' & E & _). exists (Some x), p'. split; [done|]. split.
    + intros Hx. apply Hfacts in Hx as [_ Hx]. set_solver.
    + destruct Hok as [_ Hc _ _]. eapply chain_range; [exact Hc|left].
Qed.

(** A number that is released twice is handed out twice. *)
Lemma double_release_shared :
  (s ← pool_run [Acquire; Acquire];
   p ← release 0 s.1; p ← release 0 p; a ← acquire p; b ← acquire a.2; Ok (a.1, b.1)) = Ok (Some 0, Some 0).
Proof. vm_compute. reflexivity. Qed.
