(* ===== verification/Channel.v ===== *)
(** The channel between an executor and the scheduler
    ([shm-ipc/src/ipc.cpp], [include/libipc/ipc.h], [libipc/queue.h],
    [libipc/circ/elem_def.h], [elem_array.h]) for several senders and receivers of
    one transmission: messages are cut into packets of 64 bytes, or put into a
    shared block of which the packet carries the number, and put together again
    by the receiver.

    The ring is used through what [RingClaims] shows of it: a queue of at most
    255 packets. [shm::handle::acquire] succeeds. *)
From stdpp Require Import prelude gmap list strings.
From Stdlib Require Import ZArith Lia Ascii.
From S2P Require Import Prelude Cpp IdPool.

Open Scope Z_scope.

Definition data_length : Z := 64.
Definition large_msg_limit : Z := data_length.
Definition ring_room : nat := 255.

(** * Packets *)
Record msg_t := mk_msg_t { m_conn_ : Z; m_id_ : Z; m_remain_ : Z; m_storage_ : bool; m_data_ : str }.

(** What a packet is made from: bytes, or the number of a block. *)
Inductive payload := Frag (bytes : str) | Stored (id : Z).

Definition new_msg (c i r : Z) (p : payload) : msg_t :=
  let zeros := replicate (Z.to_nat data_length) nul in
  match p with
  | Frag bytes => mk_msg_t c i r false (overwrite zeros bytes)
  | Stored id => mk_msg_t c i r true (overwrite zeros (le_bytes 8 id))
  end.
Definition storage_id (m : msg_t) : Z := of_le_bytes (take 8 (m_data_ m)).

(** * Blocks for large messages *)
Definition calc_cls_size (size : Z) : Z := ((size - 1) / large_msg_limit + 1) * large_msg_limit.

(** A block with its count of receivers. *)
Record block := mk_block { b_bytes : str; b_acc : Z }.
Record cls := mk_cls { cls_pool : id_pool; cls_mems : gmap Z block }.
(** By size of the blocks. *)
Abbreviation store := (gmap Z cls).

(** Fresh shared memory is zeroed. *)
Definition cls_zero : cls := mk_cls pool_zero ∅.
Definition block_zero (cls_size : Z) : block := mk_block (replicate (Z.to_nat cls_size) nul) 0.
Definition cls_storage (cls_size : Z) (st : store) : cls := at_or cls_zero cls_size st.
Definition storage_mem (cls_size id : Z) (st : store) : block := at_or (block_zero cls_size) id (cls_mems (cls_storage cls_size st)).

Definition set_mem (cls_size id : Z) (b : block) (st : store) : store :=
  let c := cls_storage cls_size st in <[cls_size := mk_cls (cls_pool c) (<[id := b]> (cls_mems c))]> st.
Definition set_pool (cls_size : Z) (p : id_pool) (st : store) : store :=
  let c := cls_storage cls_size st in <[cls_size := mk_cls p (cls_mems c)]> st.

(** [None]: no block, or nobody to receive it. *)
Definition apply_storage (conn_count size : Z) (st : store) : res (option Z * store) :=
  if conn_count =? 0 then Ok (None, st)
  else
    let cls_size := calc_cls_size size in
    r ← acquire (prepare (cls_pool (cls_storage cls_size st)));
    let '(id, p) := r in
    let st := set_pool cls_size p st in
    match id with
    | None => Ok (None, st)
    | Some id =>
        let b := storage_mem cls_size id st in
        Ok (Some id, set_mem cls_size id (mk_block (b_bytes b) (u32 conn_count)) st)
    end.

Definition find_storage (id size : Z) (st : store) : option str :=
  if id =? invalid_value then None
  else
    let b := storage_mem (calc_cls_size size) id st in
    if b_acc b =? 0 then None else Some (b_bytes b).

Definition release_storage (cls_size id : Z) (st : store) : res store :=
  p ← release id (cls_pool (cls_storage cls_size st)); Ok (set_pool cls_size p st).

(** The block was found before, so its handle is valid. *)
Definition recycle_storage (id size : Z) (st : store) : res store :=
  if id =? invalid_value then Ok st
  else
    let cls_size := calc_cls_size size in
    let b := storage_mem cls_size id st in
    let st := set_mem cls_size id (mk_block (b_bytes b) (u32 (b_acc b - 1))) st in
    if 1 <? b_acc b then Ok st else release_storage cls_size id st.

(** Only the rings of the broadcasting channels call it. *)
Definition clear_storage (id size : Z) (st : store) : res store :=
  if id =? invalid_value then Ok st
  else
    let cls_size := calc_cls_size size in
    let b := storage_mem cls_size id st in
    if b_acc b =? 0 then Ok st
    else release_storage cls_size id (set_mem cls_size id (mk_block (b_bytes b) 0) st).

(** [memcpy(buf, data, size)] into a block. *)
Definition fill_storage (id : Z) (data : str) (st : store) : store :=
  let cls_size := calc_cls_size (Z.of_nat (length data)) in
  let b := storage_mem cls_size id st in
  set_mem cls_size id (mk_block (overwrite (b_bytes b) data) (b_acc b)) st.

(** * Putting messages together *)
Record cache_t := mk_cache_t { fill_ : Z; buff_ : str }.

(** Memory that [alloc] returns is not initialised. *)
Definition make_cache (junk : ascii) (data : str) (size : Z) : str :=
  take (Z.to_nat size) data ++ replicate (Z.to_nat size - length data) junk.

Definition append (data : str) (size : Z) (c : cache_t) : cache_t :=
  let total := Z.of_nat (length (buff_ c)) in
  if (total <=? fill_ c) || (size =? 0) then c
  else
    let new_fill := Z.min (fill_ c + size) total in
    mk_cache_t new_fill
      (take (Z.to_nat (fill_ c)) (buff_ c) ++ take (Z.to_nat (new_fill - fill_ c)) data ++ drop (Z.to_nat new_fill) (buff_ c)).

(** What a receiver gets: memory of its own, or a block that goes back when the
    buffer is destroyed. *)
Inductive buff_t := Own (bytes : str) | Shared (id size : Z).

Abbreviation cache := (gmap Z cache_t).

(** Incomplete messages that are more than 8192 messages away, dropped when
    there are more than 1024. *)
Definition gc_cache (id : Z) (rc : cache) : cache :=
  if (1024 <? Z.of_nat (size rc)) then filter (fun '(k, _) => Z.max id k - Z.min id k <= 8192) rc else rc.

(** One packet: [Some] if it completes a message. *)
Definition recv_msg (junk : ascii) (me : Z) (st : store) (rc : cache) (m : msg_t) : option buff_t * cache :=
  if m_conn_ m =? me then (None, rc)
  else
    let remain := u64 (data_length + m_remain_ m) in
    match rc !! m_id_ m with
    | None =>
        if remain <=? data_length then (Some (Own (make_cache junk (m_data_ m) remain)), rc)
        else
          match (if m_storage_ m then find_storage (storage_id m) remain st else None) with
          | Some _ => (Some (Shared (storage_id m) remain), rc)
          | None => (None, <[m_id_ m := mk_cache_t data_length (make_cache junk (m_data_ m) remain)]> (gc_cache (m_id_ m) rc))
          end
    | Some cac =>
        if m_remain_ m <=? 0 then (Some (Own (buff_ (append (m_data_ m) remain cac))), delete (m_id_ m) rc)
        else (None, <[m_id_ m := append (m_data_ m) data_length cac]> rc)
    end.

(** The bytes of a buffer. *)
Definition buff_bytes (st : store) (b : buff_t) : str :=
  match b with
  | Own bytes => bytes
  | Shared id size => take (Z.to_nat size) (b_bytes (storage_mem (calc_cls_size size) id st))
  end.
(** Its destructor. *)
Definition destroy_buff (b : buff_t) (st : store) : res store :=
  match b with Own _ => Ok st | Shared id size => recycle_storage id size st end.

(** * The channel *)
Record chan := mk_chan { que_ : list msg_t; cc_ : Z; acc_ : Z; ch_store : store }.
Definition chan_zero : chan := mk_chan [] 0 0 ∅.

Definition set_que q (c : chan) := mk_chan q (cc_ c) (acc_ c) (ch_store c).
Definition set_cc x (c : chan) := mk_chan (que_ c) x (acc_ c) (ch_store c).
Definition set_acc x (c : chan) := mk_chan (que_ c) (cc_ c) x (ch_store c).
Definition set_store s (c : chan) := mk_chan (que_ c) (cc_ c) (acc_ c) s.

(** A process's end of it: [connected_] of its queue, and its incomplete
    messages. *)
Record conn_info := mk_conn_info { cc_id_ : Z; connected_ : Z; sender_flag_ : bool; recv_cache_ : cache }.
Definition conn_new (cc_id : Z) : conn_info := mk_conn_info cc_id 0 false ∅.

(** [circ::conn_head] of a channel that does not broadcast. *)
Definition head_connect (c : chan) : Z * chan := let x := u32 (cc_ c + 1) in (x, set_cc x c).
Definition head_disconnect (cc_id : Z) (c : chan) : chan :=
  if cc_id =? 2 ^ 32 - 1 then set_cc 0 c else set_cc (u32 (cc_ c - 1)) c.

(** [queue_base]: receivers. With several senders allowed, connecting as one
    always succeeds and disconnecting does nothing. *)
Definition que_connect (i : conn_info) (c : chan) : bool * conn_info * chan :=
  if negb (connected_ i =? 0) then (true, i, c)
  else let '(x, c) := head_connect c in (negb (x =? 0), mk_conn_info (cc_id_ i) x (sender_flag_ i) (recv_cache_ i), c).
Definition que_disconnect (i : conn_info) (c : chan) : bool * conn_info * chan :=
  if connected_ i =? 0 then (false, i, c)
  else (true, mk_conn_info (cc_id_ i) 0 (sender_flag_ i) (recv_cache_ i), head_disconnect (connected_ i) c).
Definition ready_sending (i : conn_info) : bool * conn_info :=
  (true, mk_conn_info (cc_id_ i) (connected_ i) true (recv_cache_ i)).

Definition disconnect_receiver (i : conn_info) (c : chan) : conn_info * chan :=
  let '(dis, i, c) := que_disconnect i c in
  ((if dis : bool then mk_conn_info (cc_id_ i) (connected_ i) (sender_flag_ i) ∅ else i), c).

Definition chan_reconnect (start_to_recv : bool) (i : conn_info) (c : chan) : bool * conn_info * chan :=
  if start_to_recv then que_connect i c
  else
    let '(i, c) := if negb (connected_ i =? 0) then disconnect_receiver i c else (i, c) in
    let '(b, i) := ready_sending i in (b, i, c).
Definition chan_disconnect (i : conn_info) (c : chan) : conn_info * chan := disconnect_receiver i c.

Definition wait_for_recv (r_count : Z) (c : chan) : bool := negb (cc_ c <? r_count).

(** ** Sending

    [push], waiting for room; when there is none for as long as the time-out,
    [force_push], which in this transmission takes a receiver off the count and
    gives up. *)
Definition try_push (m : msg_t) (c : chan) : bool * chan :=
  if decide (length (que_ c) < ring_room)%nat then (true, set_que (que_ c ++ [m]) c)
  else (false, head_disconnect 1 c).

(** The full packets, then what is left. *)
Fixpoint push_frags (n : nat) (me id size offset : Z) (data : str) (c : chan) : bool * Z * chan :=
  match n with
  | O => (true, offset, c)
  | S n =>
      let m := new_msg me id (i32 (size - offset - data_length)) (Frag (take (Z.to_nat data_length) (drop (Z.to_nat offset) data))) in
      match try_push m c with
      | (false, c) => (false, offset, c)
      | (true, c) => push_frags n me id size (offset + data_length) data c
      end
  end.

Definition send_frags (me id : Z) (data : str) (c : chan) : bool * chan :=
  let size := Z.of_nat (length data) in
  match push_frags (Z.to_nat (size / data_length)) me id size 0 data c with
  | (false, _, c) => (false, c)
  | (true, offset, c) =>
      let remain := size - offset in
      if 0 <? remain then try_push (new_msg me id (i32 (remain - data_length)) (Frag (take (Z.to_nat remain) (drop (Z.to_nat offset) data)))) c
      else (true, c)
  end.

Definition chan_send (i : conn_info) (data : str) (c : chan) : res (bool * conn_info * chan) :=
  if decide (data = []) then Ok (false, i, c)
  else
    let '(_, i) := ready_sending i in
    if cc_ c =? 0 then Ok (false, i, c)
    else
      let msg_id := acc_ c in
      let c := set_acc (u32 (acc_ c + 1)) c in
      let size := Z.of_nat (length data) in
      if large_msg_limit <? size then
        r ← apply_storage (cc_ c) size (ch_store c);
        match r with
        | (Some id, st) =>
            let c := set_store (fill_storage id data st) c in
            let '(b, c) := try_push (new_msg (cc_id_ i) msg_id (i32 (size - data_length)) (Stored id)) c in
            Ok (b, i, c)
        | (None, st) => let '(b, c) := send_frags (cc_id_ i) msg_id data (set_store st c) in Ok (b, i, c)
        end
      else let '(b, c) := send_frags (cc_id_ i) msg_id data c in Ok (b, i, c).

(** ** Receiving

    Packets are taken until a message is complete; [None]: there are no more
    for as long as the time-out. *)
Fixpoint recv_loop (junk : ascii) (me : Z) (st : store) (rc : cache) (q : list msg_t) : option buff_t * cache * list msg_t :=
  match q with
  | [] => (None, rc, [])
  | m :: q =>
      match recv_msg junk me st rc m with
      | (Some b, rc) => (Some b, rc, q)
      | (None, rc) => recv_loop junk me st rc q
      end
  end.

Definition chan_recv (junk : ascii) (i : conn_info) (c : chan) : option buff_t * conn_info * chan :=
  if connected_ i =? 0 then (None, i, c)
  else
    let '(b, rc, q) := recv_loop junk (cc_id_ i) (ch_store c) (recv_cache_ i) (que_ c) in
    (b, mk_conn_info (cc_id_ i) (connected_ i) (sender_flag_ i) rc, set_que q c).
