(* ===== verification/ChannelClaims.v ===== *)
(** What a channel guarantees: whatever the interleaving of the packets of
    different messages, each message arrives once and whole. *)
From stdpp Require Import prelude gmap list strings functions.
From Stdlib Require Import ZArith Lia Ascii.
From S2P Require Import Prelude Cpp IdPool Channel.

Open Scope Z_scope.

#[local] Arguments calc_cls_size : simpl never.
#[local] Arguments u64 : simpl never.
#[local] Arguments i32 : simpl never.

(** * Numbers of blocks *)
Lemma storage_id_new c i r id : 0 <= id < 256 -> storage_id (new_msg c i r (Stored id)) = id.
Proof.
  intros Hid. unfold storage_id, new_msg, overwrite. cbn [m_data_]. rewrite le_bytes_length.
  rewrite take_app_length' by (by rewrite le_bytes_length). apply le_bytes_roundtrip. lia.
Qed.

(** * The packets of a message *)
Definition n_packets (data : str) : nat := Nat.div (length data + 63) 64.
Lemma n_packets_bounds data : (length data <= 64 * n_packets data < length data + 64)%nat.
Proof.
  unfold n_packets. pose proof (Nat.div_mod_eq (length data + 63) 64). pose proof (Nat.mod_upper_bound (length data + 63) 64 ltac:(lia)). lia.
Qed.

Definition packet (me id : Z) (data : str) (k : nat) : msg_t :=
  new_msg me id (i32 (Z.of_nat (length data) - 64 * (Z.of_nat k + 1))) (Frag (take 64 (drop (64 * k) data))).
Definition packets (me id : Z) (data : str) : list msg_t := packet me id data <$> seq 0 (n_packets data).

(** How a message was sent: in packets, or in a block. *)
Inductive sending := Whole (data : str) | Block (b : Z) (data : str).
Definition sending_data (s : sending) : str := match s with Whole data | Block _ data => data end.
Definition sent_packets (me id : Z) (s : sending) : list msg_t :=
  match s with
  | Whole data => packets me id data
  | Block b data => [new_msg me id (i32 (Z.of_nat (length data) - data_length)) (Stored b)]
  end.

(** The packet that completes a message. *)
Definition is_last (m : msg_t) : bool := (m_remain_ m <=? 0) || m_storage_ m.

Lemma i32_small x : - 2 ^ 31 <= x < 2 ^ 31 -> i32 x = x.
Proof. unfold i32. intros. rewrite Z.mod_small; lia. Qed.

Lemma packet_data me id data k :
  take (length data - 64 * k) (m_data_ (packet me id data k)) = take 64 (drop (64 * k) data) /\
  (64 * (k + 1) <= length data -> take 64 (m_data_ (packet me id data k)) = take 64 (drop (64 * k) data))%nat /\
  length (m_data_ (packet me id data k)) = 64%nat.
Proof.
  unfold packet, new_msg, overwrite. cbn [m_data_]. change (Z.to_nat data_length) with 64%nat.
  set (f := take 64 (drop (64 * k) data)). assert (length f = Nat.min 64 (length data - 64 * k)) as Hf
    by (unfold f; by rewrite length_take, length_drop). split; [|split].
  - destruct (decide (length data - 64 * k <= 64)%nat).
    + rewrite take_app_le by lia. rewrite take_ge by lia. done.
    + rewrite take_ge; [|rewrite length_app, length_drop, length_replicate; lia]. rewrite drop_ge by (rewrite length_replicate; lia). apply app_nil_r.
  - intros Hk. rewrite take_app_le by lia. by rewrite take_ge by lia.
  - rewrite length_app, length_drop, length_replicate. lia.
Qed.

(** Sending in packets, when the ring has room for them. *)
Lemma push_frags_room me id data n k c :
  (64 * (k + n) <= length data)%nat -> (length (que_ c) + n <= ring_room)%nat ->
  push_frags n me id (Z.of_nat (length data)) (Z.of_nat (64 * k)) data c =
    (true, Z.of_nat (64 * (k + n)), set_que (que_ c ++ (packet me id data <$> seq k n)) c).
Proof.
  revert k c. induction n as [|n IH]; intros k c Hn Hq; cbn [push_frags].
  { rewrite Nat.add_0_r. destruct c as [q0 x0 a0 s0]. unfold set_que. simpl. by rewrite app_nil_r. }
  unfold try_push. rewrite decide_True by lia.
  replace (Z.of_nat (64 * k) + data_length) with (Z.of_nat (64 * S k)) by (unfold data_length; lia).
  rewrite IH; [|lia|cbn [que_ set_que]; rewrite length_app; simpl; lia].
  replace (S k + n)%nat with (k + S n)%nat by lia. f_equal. destruct c as [q0 x0 a0 s0]. unfold set_que. cbn [que_ cc_ acc_ ch_store].
  rewrite <- app_assoc. cbn [seq fmap list_fmap app]. do 3 f_equal. unfold packet. rewrite Nat2Z.id.
  f_equal. f_equal. unfold data_length. lia.
Qed.

Lemma send_frags_room me id data c : (length (que_ c) + n_packets data <= ring_room)%nat ->
  send_frags me id data c = (true, set_que (que_ c ++ packets me id data) c).
Proof.
  intros Hq. unfold send_frags, packets, n_packets in *. set (sz := length data) in *.
  assert (Z.to_nat (Z.of_nat sz / data_length) = Nat.div sz 64) as En by (unfold data_length; change 64 with (Z.of_nat 64); by rewrite <- Nat2Z.inj_div, Nat2Z.id).
  rewrite En. pose proof (Nat.div_mod_eq sz 64) as Hdm. pose proof (Nat.mod_upper_bound sz 64 ltac:(lia)) as Hmod.
  pose proof (Nat.div_mod_eq (sz + 63) 64) as Hdm'. pose proof (Nat.mod_upper_bound (sz + 63) 64 ltac:(lia)) as Hmod'.
  pose proof (push_frags_room me id data (sz / 64) 0 c) as Hp. change (Z.of_nat (64 * 0)) with 0 in Hp.
  fold sz in Hp. rewrite Hp by lia. clear Hp. rewrite Nat.add_0_l.
  destruct (0 <? Z.of_nat sz - Z.of_nat (64 * (sz / 64))) eqn:E.
  - apply Z.ltb_lt in E. assert ((sz + 63) / 64 = S (sz / 64))%nat as -> by lia.
    unfold try_push. cbn [que_ set_que]. rewrite length_app, length_fmap, length_seq.
    rewrite decide_True by lia. rewrite seq_S, fmap_app, Nat.add_0_l. unfold set_que. cbn [que_ cc_ acc_ ch_store].
    rewrite <- app_assoc. cbn [fmap list_fmap].
    assert (new_msg me id (i32 (Z.of_nat sz - Z.of_nat (64 * (sz / 64)) - data_length))
      (Frag (take (Z.to_nat (Z.of_nat sz - Z.of_nat (64 * (sz / 64)))) (drop (Z.to_nat (Z.of_nat (64 * (sz / 64)))) data))) =
      packet me id data (sz / 64)) as ->; [|done].
    unfold packet. fold sz. rewrite Nat2Z.id. f_equal; [f_equal; unfold data_length; lia|]. f_equal.
    rewrite take_ge by (rewrite length_drop; fold sz; lia). by rewrite take_ge by (rewrite length_drop; fold sz; lia).
  - apply Z.ltb_ge in E. by assert ((sz + 63) / 64 = sz / 64)%nat as -> by lia.
Qed.

(** * A stream of packets *)
Fixpoint recv_all (junk : ascii) (me : Z) (st : store) (rc : cache) (ms : list msg_t) : list buff_t * cache :=
  match ms with
  | [] => ([], rc)
  | m :: ms =>
      let '(o, rc) := recv_msg junk me st rc m in
      let '(bs, rc) := recv_all junk me st rc ms in
      ((match o with Some b => [b] | None => [] end) ++ bs, rc)
  end.

(** The receives that take a stream return its messages one by one. *)
Lemma recv_loop_all junk me st rc q :
  match recv_loop junk me st rc q with
  | (Some b, rc', q') => recv_all junk me st rc q = ([b] ++ (recv_all junk me st rc' q').1, (recv_all junk me st rc' q').2)
  | (None, rc', q') => recv_all junk me st rc q = ([], rc') /\ q' = []
  end.
Proof.
  revert rc. induction q as [|m q IH]; intros rc; cbn [recv_loop recv_all]; [done|].
  destruct (recv_msg junk me st rc m) as [[b|] rc1]; [by destruct (recv_all junk me st rc1 q)|].
  specialize (IH rc1). destruct (recv_loop junk me st rc1 q) as [[[b|] rc2] q2].
  - rewrite IH. done.
  - destruct IH as [-> ->]. done.
Qed.

Section stream.
Context (junk : ascii) (me : Z) (st : store) (sent : gmap Z (Z * sending)).

Definition of_id (id : Z) (ms : list msg_t) : list msg_t := filter (fun m => m_id_ m = id) ms.

(** Messages of others, of a size the packets can carry, whose blocks are in
    place, and whose numbers are not further apart than the receiver's memory. *)
Record sent_ok : Prop := {
  so_other id conn s : sent !! id = Some (conn, s) -> conn <> me;
  so_size id conn s : sent !! id = Some (conn, s) -> (0 < length (sending_data s))%nat /\ Z.of_nat (length (sending_data s)) < 2 ^ 31;
  so_block id conn b data : sent !! id = Some (conn, Block b data) -> 0 <= b < 256 /\ (64 < length data)%nat /\
    exists bytes, find_storage b (Z.of_nat (length data)) st = Some bytes /\ take (length data) bytes = data;
  so_near id id' : is_Some (sent !! id) -> is_Some (sent !! id') -> Z.max id id' - Z.min id id' <= 8192 }.
Hypothesis Hsent : sent_ok.

(** What the receiver has of the first [n] packets of a message. *)
Definition cached (n : nat) (data : str) (c : cache_t) : Prop :=
  fill_ c = Z.of_nat (64 * n) /\ length (buff_ c) = length data /\ take (64 * n) (buff_ c) = take (64 * n) data.

Record stream_inv (got : Z -> nat) (rc : cache) (ms : list msg_t) : Prop := {
  si_rest id conn s : sent !! id = Some (conn, s) -> of_id id ms = drop (got id) (sent_packets conn id s);
  si_known m : m ∈ ms -> is_Some (sent !! m_id_ m);
  si_cache id c : rc !! id = Some c -> exists conn data, sent !! id = Some (conn, Whole data) /\
    (0 < got id < n_packets data)%nat /\ cached (got id) data c;
  si_open id conn data : sent !! id = Some (conn, Whole data) -> (0 < got id < n_packets data)%nat -> is_Some (rc !! id) }.

Lemma packet_fields c id data k : m_conn_ (packet c id data k) = c /\ m_id_ (packet c id data k) = id /\
  m_storage_ (packet c id data k) = false.
Proof. done. Qed.

Lemma packet_remain c id data k : (k < n_packets data)%nat -> Z.of_nat (length data) < 2 ^ 31 ->
  m_remain_ (packet c id data k) = Z.of_nat (length data) - 64 * (Z.of_nat k + 1) /\ (64 * k < length data)%nat /\
  u64 (data_length + m_remain_ (packet c id data k)) = Z.of_nat (length data - 64 * k).
Proof.
  intros Hk Hs. pose proof (n_packets_bounds data). assert (64 * k < length data)%nat by lia. cbn [packet new_msg m_remain_]. rewrite i32_small by lia.
  split; [done|]. split; [done|]. unfold u64, data_length. rewrite Z.mod_small; lia.
Qed.

(** The first packet of a message of several. *)
Lemma first_cached c id data : (1 < n_packets data)%nat ->
  cached 1 data (mk_cache_t data_length (make_cache junk (m_data_ (packet c id data 0)) (Z.of_nat (length data)))).
Proof.
  intros Hn. pose proof (n_packets_bounds data).
  destruct (packet_data c id data 0) as (_ & Hd & Hl). specialize (Hd ltac:(lia)). rewrite Nat.mul_0_r, drop_0 in Hd.
  unfold cached, make_cache. cbn [fill_ buff_]. rewrite Nat2Z.id, (take_ge (m_data_ _)) by lia. split; [done|]. split.
  - rewrite length_app, length_replicate, Hl. lia.
  - rewrite take_app_le by (rewrite Hl; lia). by rewrite Nat.mul_1_r, Hd.
Qed.

(** The next one is appended. *)
Lemma append_cached c id data k cac : cached k data cac -> (k < n_packets data)%nat -> Z.of_nat (length data) < 2 ^ 31 ->
  cached (S k) data (append (m_data_ (packet c id data k)) data_length cac) \/ (length data < 64 * S k)%nat.
Proof.
  intros (Hf & Hl & Ht) Hk Hs. destruct (packet_remain c id data k Hk Hs) as (_ & Hlt & _).
  destruct (decide (length data < 64 * S k)%nat) as [|Hge]; [by right|left].
  destruct (packet_data c id data k) as (_ & Hd & Hlen). specialize (Hd ltac:(lia)).
  unfold append. rewrite Hl, Hf. assert ((Z.of_nat (length data) <=? Z.of_nat (64 * k)) || (data_length =? 0) = false) as ->
    by (apply orb_false_iff; split; [apply Z.leb_gt; lia|done]).
  rewrite Z.min_l by (unfold data_length; lia). unfold cached. cbn [fill_ buff_].
  replace (Z.of_nat (64 * k) + data_length) with (Z.of_nat (64 * S k)) by (unfold data_length; lia).
  replace (Z.to_nat (Z.of_nat (64 * S k) - Z.of_nat (64 * k))) with 64%nat by lia. rewrite !Nat2Z.id, Hd, Ht.
  split; [done|]. assert (take (64 * k) data ++ take 64 (drop (64 * k) data) = take (64 * S k) data) as Etake.
  { rewrite take_take_drop. f_equal. lia. }
  rewrite app_assoc, Etake. split.
  - rewrite length_app, length_take, length_drop. lia.
  - rewrite take_app_le by (rewrite length_take; lia). by rewrite take_take, Nat.min_id.
Qed.

(** The last one completes it. *)
Lemma append_last c id data k cac : cached k data cac -> (S k = n_packets data)%nat -> Z.of_nat (length data) < 2 ^ 31 ->
  buff_ (append (m_data_ (packet c id data k)) (Z.of_nat (length data - 64 * k)) cac) = data.
Proof.
  intros (Hf & Hl & Ht) Hk Hs. destruct (packet_remain c id data k ltac:(lia) Hs) as (_ & Hlt & _).
  destruct (packet_data c id data k) as (Hd & _ & Hlen).
  assert (length data <= 64 * S k)%nat as Hle by (pose proof (n_packets_bounds data); lia).
  unfold append. rewrite Hl, Hf.
  assert ((Z.of_nat (length data) <=? Z.of_nat (64 * k)) || (Z.of_nat (length data - 64 * k) =? 0) = false) as ->
    by (apply orb_false_iff; split; [apply Z.leb_gt; lia|apply Z.eqb_neq; lia]).
  rewrite Z.min_r by lia. cbn [buff_].
  replace (Z.to_nat (Z.of_nat (length data) - Z.of_nat (64 * k))) with (length data - 64 * k)%nat by lia.
  rewrite !Nat2Z.id, Hd, Ht, (drop_ge (buff_ cac)), app_nil_r by lia. rewrite (take_ge (drop _ _)) by (rewrite length_drop; lia). apply take_drop.
Qed.

(** The first packet of the rest of the stream is the next one of its message. *)
Lemma stream_head got rc m ms : stream_inv got rc (m :: ms) ->
  exists conn s, sent !! m_id_ m = Some (conn, s) /\ sent_packets conn (m_id_ m) s !! got (m_id_ m) = Some m.
Proof.
  intros [Hrest Hknown _ _]. destruct (Hknown m) as [[conn s] Hs]; [left|]. exists conn, s. split; [done|].
  pose proof (Hrest _ _ _ Hs) as E. unfold of_id in E. rewrite list.filter_cons, decide_True in E by done.
  rewrite <- (Nat.add_0_r (got _)), <- lookup_drop, <- E. done.
Qed.

(** The stream without it, with a new entry for the message. *)
Lemma stream_tail got rc m ms o : stream_inv got rc (m :: ms) ->
  match o with
  | Some c => exists conn data, sent !! m_id_ m = Some (conn, Whole data) /\ (S (got (m_id_ m)) < n_packets data)%nat /\ cached (S (got (m_id_ m))) data c
  | None => forall conn data, sent !! m_id_ m = Some (conn, Whole data) -> (n_packets data <= S (got (m_id_ m)))%nat
  end ->
  stream_inv (<[m_id_ m := S (got (m_id_ m))]> got) (partial_alter (fun _ => o) (m_id_ m) rc) ms.
Proof.
  intros [Hrest Hknown Hcache Hopen] Ho. split.
  - intros id conn s Hs. pose proof (Hrest _ _ _ Hs) as E. unfold of_id in E |- *. rewrite list.filter_cons in E.
    destruct (decide (m_id_ m = id)) as [<-|Hne]; [|by rewrite fn_lookup_insert_ne].
    rewrite fn_lookup_insert. replace (S (got (m_id_ m))) with (got (m_id_ m) + 1)%nat by lia. by rewrite <- drop_drop, <- E.
  - intros m' Hm'. apply Hknown. by right.
  - intros id c. destruct (decide (id = m_id_ m)) as [->|Hne].
    + rewrite lookup_partial_alter_eq, fn_lookup_insert. intros ->. destruct Ho as (conn & data & ? & ? & ?). exists conn, data. split; [done|]. split; [lia|done].
    + rewrite lookup_partial_alter_ne, fn_lookup_insert_ne by done. apply Hcache.
  - intros id conn data Hs. destruct (decide (id = m_id_ m)) as [->|Hne].
    + rewrite lookup_partial_alter_eq, fn_lookup_insert. intros Hg. destruct o; [by eexists|]. apply Ho in Hs. lia.
    + rewrite lookup_partial_alter_ne, fn_lookup_insert_ne by done. by eapply Hopen.
Qed.

(** Nothing is given up: the messages are near each other. *)
Lemma gc_nothing got rc ms m : stream_inv got rc (m :: ms) -> gc_cache (m_id_ m) rc = rc.
Proof.
  intros [Hrest Hknown Hcache Hopen]. unfold gc_cache. destruct (1024 <? _); [|done]. apply map_filter_id.
  intros id c (conn & data & Hs & _)%Hcache. apply so_near; [done|apply Hknown; left|by rewrite Hs].
Qed.

(** What a receiver gets of a message. *)
Definition delivered (s : sending) : buff_t :=
  match s with Whole data => Own data | Block b data => Shared b (Z.of_nat (length data)) end.
Lemma delivered_bytes id conn s : sent !! id = Some (conn, s) -> buff_bytes st (delivered s) = sending_data s.
Proof.
  destruct s as [data|b data]; [done|]. intros Hs. destruct (so_block Hsent _ _ _ _ Hs) as (_ & _ & bytes & Hfind & Htake). simpl. rewrite Nat2Z.id.
  unfold find_storage in Hfind. destruct (b =? invalid_value); [done|]. destruct (b_acc _ =? 0); [done|]. by injection Hfind as ->.
Qed.

Definition data_of (id : Z) : str := match sent !! id with Some (_, s) => sending_data s | None => [] end.

(** A packet of a message in packets. *)
Lemma recv_next_whole got rc m ms conn data : stream_inv got rc (m :: ms) ->
  sent !! m_id_ m = Some (conn, Whole data) -> packets conn (m_id_ m) data !! got (m_id_ m) = Some m ->
  exists o rc', recv_msg junk me st rc m = (o, rc') /\ stream_inv (<[m_id_ m := S (got (m_id_ m))]> got) rc' ms /\
    o = if is_last m then Some (Own data) else None.
Proof.
  intros Hinv Hs Hm. pose proof (so_other Hsent _ _ _ Hs) as Hconn. destruct (so_size Hsent _ _ _ Hs) as [Hpos Hsz]. simpl in Hpos, Hsz.
  unfold packets in Hm. rewrite list_lookup_fmap in Hm. apply fmap_Some in Hm as (k & Hk & Em).
  apply lookup_seq in Hk as [-> Hk]. rewrite Nat.add_0_l in Em. set (k := got (m_id_ m)) in *. set (id := m_id_ m) in *.
  destruct (packet_remain conn id data k Hk Hsz) as (Hrem & Hlt & Hu). pose proof (n_packets_bounds data) as Hb.
  assert (m_conn_ m = conn /\ m_storage_ m = false) as [Ec Est] by (rewrite Em; done).
  assert (is_last m = bool_decide (S k = n_packets data)) as ->.
  { unfold is_last. rewrite Est, orb_false_r, Em, Hrem. case_bool_decide; [apply Z.leb_le|apply Z.leb_gt]; lia. }
  unfold recv_msg. rewrite Ec. destruct (Z.eqb_spec conn me) as [|_]; [done|]. fold id. rewrite Est.
  assert (u64 (data_length + m_remain_ m) = Z.of_nat (length data - 64 * k)) as -> by (by rewrite Em).
  destruct (rc !! id) as [cac|] eqn:Erc.
  + destruct (si_cache _ _ _ Hinv _ _ Erc) as (conn' & data' & Hs' & Hgot & Hcac). assert (data' = data) as -> by congruence. fold k in Hgot, Hcac.
    assert ((m_remain_ m <=? 0) = bool_decide (S k = n_packets data)) as ->.
    { rewrite Em, Hrem. case_bool_decide; [apply Z.leb_le|apply Z.leb_gt]; lia. }
    case_bool_decide as Hlast; eexists _, _; (split; [reflexivity|]).
    * split; [apply (stream_tail _ _ _ _ None); [done|]; intros conn2 data2 E2; fold id in E2; assert (data2 = data) as -> by congruence; fold id k; lia|].
      do 2 f_equal. rewrite Em. by apply append_last.
    * split; [|done]. apply (stream_tail _ _ _ _ (Some _)); [done|]. exists conn, data. split; [done|]. fold id k. split; [lia|].
      rewrite Em. destruct (append_cached conn id data k cac Hcac Hk Hsz); [done|lia].
  + assert (k = 0)%nat as Ek.
    { destruct (decide (k = 0)%nat); [done|]. destruct (si_open _ _ _ Hinv id conn data Hs) as [c Hc]; [fold k; lia|congruence]. }
    assert (length data - 64 * k = length data)%nat as -> by lia.
    destruct (Z.leb_spec (Z.of_nat (length data)) data_length) as [Hsmall|Hbig]; unfold data_length in *.
    * eexists _, _. split; [reflexivity|]. rewrite bool_decide_true by lia. split.
      -- rewrite <- (delete_id rc id Erc). apply (stream_tail _ _ _ _ None); [done|]. intros conn2 data2 E2. fold id in E2. assert (data2 = data) as -> by congruence. fold id k. lia.
      -- do 2 f_equal. unfold make_cache. rewrite Em. destruct (packet_data conn id data k) as (Hd & _ & Hl).
         rewrite Nat2Z.id, Hl. rewrite Ek, Nat.mul_0_r, Nat.sub_0_r, drop_0 in Hd. rewrite Ek, Hd, take_ge by lia.
         replace (length data - 64)%nat with 0%nat by lia. apply app_nil_r.
    * pose proof (gc_nothing _ _ _ _ Hinv) as Egc. fold id in Egc. rewrite Egc. eexists _, _. split; [reflexivity|]. rewrite bool_decide_false by lia. split; [|done].
      apply (stream_tail _ _ _ _ (Some _)); [done|]. exists conn, data. split; [done|]. fold id k. split; [lia|].
      rewrite Em, Ek. apply first_cached. lia.
Qed.

(** The packet of a message in a block. *)
Lemma recv_next_block got rc m ms conn b data : stream_inv got rc (m :: ms) ->
  sent !! m_id_ m = Some (conn, Block b data) -> sent_packets conn (m_id_ m) (Block b data) !! got (m_id_ m) = Some m ->
  exists o rc', recv_msg junk me st rc m = (o, rc') /\ stream_inv (<[m_id_ m := S (got (m_id_ m))]> got) rc' ms /\
    o = if is_last m then Some (Shared b (Z.of_nat (length data))) else None.
Proof.
  intros Hinv Hs Hm. pose proof (so_other Hsent _ _ _ Hs) as Hconn. destruct (so_size Hsent _ _ _ Hs) as [Hpos Hsz]. simpl in Hpos, Hsz.
  destruct (so_block Hsent _ _ _ _ Hs) as (Hb & Hbig & bytes & Hfind & Htake).
  destruct (got (m_id_ m)) as [|k] eqn:Eg; [|done]. injection Hm as Em. set (id := m_id_ m) in *.
  assert (m_conn_ m = conn /\ m_storage_ m = true /\ storage_id m = b) as (Ec & Est & Eb)
    by (rewrite <- Em; split; [done|]; split; [done|]; by apply storage_id_new).
  assert (u64 (data_length + m_remain_ m) = Z.of_nat (length data)) as Eu.
  { rewrite <- Em. cbn [new_msg m_remain_]. unfold data_length. rewrite i32_small by lia. unfold u64. rewrite Z.mod_small; lia. }
  assert (rc !! id = None) as Erc.
  { destruct (rc !! id) as [c|] eqn:E; [|done]. destruct (si_cache _ _ _ Hinv _ _ E) as (? & ? & ? & _). congruence. }
  unfold recv_msg, is_last. rewrite Ec, Est, Eu, Eb. destruct (Z.eqb_spec conn me) as [|_]; [done|]. fold id. rewrite Erc, orb_true_r, Hfind.
  destruct (Z.leb_spec (Z.of_nat (length data)) data_length) as [Hle|_]; [unfold data_length in Hle; lia|].
  eexists _, _. split; [reflexivity|]. split.
  + rewrite <- (delete_id rc id Erc), <- Eg. apply (stream_tail _ _ _ _ None); [done|]. fold id. congruence.
  + done.
Qed.

Lemma recv_next got rc m ms : stream_inv got rc (m :: ms) ->
  exists conn s o rc', sent !! m_id_ m = Some (conn, s) /\ recv_msg junk me st rc m = (o, rc') /\
    stream_inv (<[m_id_ m := S (got (m_id_ m))]> got) rc' ms /\ o = if is_last m then Some (delivered s) else None.
Proof.
  intros Hinv. destruct (stream_head _ _ _ _ Hinv) as (conn & s & Hs & Hm). exists conn, s.
  destruct s as [data|b data]; [destruct (recv_next_whole _ _ _ _ _ _ Hinv Hs Hm) as (o & rc' & ? & ? & ?)|
    destruct (recv_next_block _ _ _ _ _ _ _ Hinv Hs Hm) as (o & rc' & ? & ? & ?)]; by exists o, rc'.
Qed.

(** A message that has begun has packets left. *)
Lemma stream_end got rc : stream_inv got rc [] -> rc = ∅.
Proof.
  intros [Hrest _ Hcache _]. apply map_eq. intros id. rewrite lookup_empty.
  destruct (rc !! id) as [c|] eqn:E; [|done]. destruct (Hcache _ _ E) as (conn & data & Hs & Hgot & _).
  pose proof (Hrest _ _ _ Hs) as Hnil. apply (f_equal length) in Hnil. simpl in Hnil. unfold packets in Hnil.
  rewrite length_drop, length_fmap, length_seq in Hnil. simpl in Hnil. lia.
Qed.

Lemma recv_stream got rc ms : stream_inv got rc ms ->
  exists bs, recv_all junk me st rc ms = (bs, ∅) /\ buff_bytes st <$> bs = (fun m => data_of (m_id_ m)) <$> List.filter is_last ms.
Proof.
  revert got rc. induction ms as [|m ms IH]; intros got rc Hinv.
  - exists []. split; [|done]. cbn [recv_all]. by rewrite (stream_end _ _ Hinv).
  - destruct (recv_next _ _ _ _ Hinv) as (conn & s & o & rc' & Hs & E & Hinv' & ->). destruct (IH _ _ Hinv') as (bs & E' & Hbs).
    cbn [recv_all]. rewrite E, E'. eexists. split; [done|]. cbn [List.filter]. destruct (is_last m).
    + rewrite fmap_app, Hbs. cbn [fmap list_fmap app]. unfold data_of at 2. rewrite Hs. by erewrite delivered_bytes.
    + done.
Qed.

(** One receive takes the packets up to the first that completes a message. *)
Lemma recv_loop_stream got rc pre m rest : stream_inv got rc (pre ++ [m]) -> Forall (fun x => is_last x = false) pre -> is_last m = true ->
  exists conn s, sent !! m_id_ m = Some (conn, s) /\ recv_loop junk me st rc (pre ++ m :: rest) = (Some (delivered s), ∅, rest).
Proof.
  intros Hinv Hpre Hm. revert got rc Hinv. induction Hpre as [|x pre Hx _ IH]; intros got rc Hinv; cbn [app] in *;
    destruct (recv_next _ _ _ _ Hinv) as (conn & s & o & rc' & Hs & E & Hinv' & ->); cbn [recv_loop]; rewrite E.
  - rewrite Hm. exists conn, s. split; [done|]. by rewrite (stream_end _ _ Hinv').
  - rewrite Hx. by eapply IH.
Qed.

Lemma stream_start ms : (forall id conn s, sent !! id = Some (conn, s) -> of_id id ms = sent_packets conn id s) ->
  (forall m, m ∈ ms -> is_Some (sent !! m_id_ m)) -> stream_inv (fun _ => 0%nat) ∅ ms.
Proof. intros Hrest Hknown. split; [done|done|by intros id c|by intros; lia]. Qed.

Lemma packet_is_last c id data k : (k < n_packets data)%nat -> Z.of_nat (length data) < 2 ^ 31 ->
  is_last (packet c id data k) = bool_decide (S k = n_packets data).
Proof.
  intros Hk Hs. destruct (packet_remain c id data k Hk Hs) as (Hrem & _ & _). pose proof (n_packets_bounds data).
  unfold is_last. rewrite Hrem. cbn [packet new_msg m_storage_]. rewrite orb_false_r.
  case_bool_decide; [apply Z.leb_le|apply Z.leb_gt]; lia.
Qed.

(** A message has one last packet. *)
Lemma last_once id conn s : sent !! id = Some (conn, s) -> length (List.filter is_last (sent_packets conn id s)) = 1%nat.
Proof.
  intros Hs. destruct (so_size Hsent _ _ _ Hs) as [Hpos Hsz]. destruct s as [data|b data]; [simpl in *|cbn [sent_packets List.filter]; unfold is_last; cbn [new_msg m_storage_]; by rewrite orb_true_r].
  pose proof (n_packets_bounds data). destruct (n_packets data) as [|n] eqn:En; [lia|]. unfold packets. rewrite En, seq_S, fmap_app, filter_app, length_app.
  assert (List.filter is_last (packet conn id data <$> seq 0 n) = []) as ->.
  { assert (forall l, (forall k, k ∈ l -> (k < n)%nat) -> List.filter is_last (packet conn id data <$> l) = []) as Hnone.
    { induction l as [|k l IHl]; intros Hl; [done|]. cbn [fmap list_fmap List.filter].
      pose proof (Hl k (list_elem_of_here _ _)).
      rewrite packet_is_last, bool_decide_false by (done || lia). apply IHl. set_solver. }
    apply Hnone. intros k Hk. apply elem_of_seq in Hk. lia. }
  cbn [fmap list_fmap List.filter]. rewrite packet_is_last, bool_decide_true by (done || lia). done.
Qed.
End stream.

(** C4: every message is received once and whole. Whatever the interleaving of
    the packets of several senders, for messages in packets and in blocks, of up
    to 2^31 - 1 bytes: a receiver that takes the stream returns, at the last
    packet of each message, exactly the bytes that were sent, and keeps nothing;
    each message has one last packet. The numbers of the messages are within the
    8192 that the receiver remembers. *)
Theorem messages_reassembled (junk : ascii) (me : Z) (st : store) (sent : gmap Z (Z * sending)) (ms : list msg_t) :
  sent_ok me st sent ->
  (forall id conn s, sent !! id = Some (conn, s) -> of_id id ms = sent_packets conn id s) ->
  (forall m, m ∈ ms -> is_Some (sent !! m_id_ m)) ->
  (exists bs, recv_all junk me st ∅ ms = (bs, ∅) /\
     buff_bytes st <$> bs = (fun m => data_of sent (m_id_ m)) <$> List.filter is_last ms) /\
  forall id, is_Some (sent !! id) -> length (List.filter is_last (of_id id ms)) = 1%nat.
Proof.
  intros Hok Hrest Hknown. split.
  - eapply recv_stream; [done|]. by apply stream_start.
  - intros id [[conn s] Hs]. rewrite (Hrest _ _ _ Hs). by eapply last_once.
Qed.

(** Two senders: one message in a block, two in packets, one in one packet. *)
Definition demo_a : str := replicate 100 "a"%char.
Definition demo_b : str := replicate 70 "b"%char.
Definition demo_c : str := replicate 80 "c"%char.
Definition demo_store : store :=
  match apply_storage 1 80 ∅ with Ok (Some b, st) => fill_storage b demo_c st | _ => ∅ end.
Definition demo_sent : gmap Z (Z * sending) :=
  {[ 10 := (1, Whole demo_a); 11 := (2, Whole demo_b); 12 := (1, Block 0 demo_c); 13 := (2, Whole (lit "end")) ]}.
Definition demo_stream : list msg_t :=
  [packet 1 10 demo_a 0; packet 2 11 demo_b 0] ++ sent_packets 1 12 (Block 0 demo_c) ++
  [packet 2 11 demo_b 1; packet 2 13 (lit "end") 0; packet 1 10 demo_a 1].

Lemma demo_sent_cases id conn s : demo_sent !! id = Some (conn, s) ->
  (id = 10 /\ conn = 1 /\ s = Whole demo_a) \/ (id = 11 /\ conn = 2 /\ s = Whole demo_b) \/
  (id = 12 /\ conn = 1 /\ s = Block 0 demo_c) \/ (id = 13 /\ conn = 2 /\ s = Whole (lit "end")).
Proof.
  unfold demo_sent. rewrite !lookup_insert_Some, lookup_singleton_Some. intros H.
  repeat match goal with
  | H : _ \/ _ |- _ => destruct H | H : _ /\ _ |- _ => destruct H | H : (_, _) = (_, _) |- _ => injection H as <- <-
  end; subst; auto 10.
Qed.

Lemma messages_reassembled_witness :
  (exists bs, recv_all "z" 7 demo_store ∅ demo_stream = (bs, ∅) /\
     buff_bytes demo_store <$> bs = [demo_c; demo_b; lit "end"; demo_a]) /\
  forall id, is_Some (demo_sent !! id) -> length (List.filter is_last (of_id id demo_stream)) = 1%nat.
Proof.
  destruct (messages_reassembled "z" 7 demo_store demo_sent demo_stream) as [H1 H2].
  - split.
    + intros id conn s [(->&->&->)|[(->&->&->)|[(->&->&->)|(->&->&->)]]]%demo_sent_cases; lia.
    + intros id conn s [(->&->&->)|[(->&->&->)|[(->&->&->)|(->&->&->)]]]%demo_sent_cases; vm_compute; split; lia || done.
    + intros id conn b data [(->&->&[=])|[(->&->&[=])|[(->&->&[= -> ->])|(->&->&[=])]]]%demo_sent_cases.
      split; [lia|]. split; [vm_compute; lia|]. eexists. split; vm_compute; reflexivity.
    + intros id id' [[c s] H] [[c' s'] H'].
      apply demo_sent_cases in H. apply demo_sent_cases in H'. lia.
  - intros id conn s [(->&->&->)|[(->&->&->)|[(->&->&->)|(->&->&->)]]]%demo_sent_cases; vm_compute; reflexivity.
  - intros m Hm. unfold demo_stream in Hm. cbn [app sent_packets] in Hm.
    repeat (apply elem_of_cons in Hm as [->|Hm]; [by eexists|]). by apply elem_of_nil in Hm.
  - split; [|exact H2]. destruct H1 as (bs & E & Hb). exists bs. split; [exact E|]. rewrite Hb. vm_compute. reflexivity.
Defined.
