(* ===== verification/ChannelStore.v ===== *)
(** The shared blocks of large messages: from the moment a sender fills one until
    its receiver gives it back, nobody else writes to it. *)
From stdpp Require Import prelude gmap list strings functions.
From Stdlib Require Import ZArith Lia Ascii.
From S2P Require Import Prelude Cpp IdPool Channel.

Open Scope Z_scope.

#[local] Arguments calc_cls_size : simpl never.

(** * Blocks in use *)
Record live_block := mk_live { lb_id : Z; lb_data : str }.
Definition lb_size (b : live_block) : Z := Z.of_nat (length (lb_data b)).
Definition lb_cls (b : live_block) : Z := calc_cls_size (lb_size b).
(** The numbers in use of one size of blocks. *)
Definition held (cls_size : Z) (live : list live_block) : list Z := lb_id <$> filter (fun b => lb_cls b = cls_size) live.

Record store_ok (st : store) (live : list live_block) : Prop := {
  st_pool cls_size : pool_inv (cls_pool (cls_storage cls_size st), held cls_size live);
  st_live b : b ∈ live -> b_acc (storage_mem (lb_cls b) (lb_id b) st) = 1 /\
    take (length (lb_data b)) (b_bytes (storage_mem (lb_cls b) (lb_id b) st)) = lb_data b }.

Lemma cls_storage_set_pool s s' p st : cls_storage s' (set_pool s p st) =
  if decide (s' = s) then mk_cls p (cls_mems (cls_storage s st)) else cls_storage s' st.
Proof.
  unfold cls_storage, set_pool, at_or. destruct (decide (s' = s)) as [->|Hne]; [by rewrite lookup_insert_eq|by rewrite lookup_insert_ne].
Qed.
Lemma cls_storage_set_mem s s' id b st : cls_storage s' (set_mem s id b st) =
  if decide (s' = s) then mk_cls (cls_pool (cls_storage s st)) (<[id := b]> (cls_mems (cls_storage s st))) else cls_storage s' st.
Proof.
  unfold cls_storage, set_mem, at_or. destruct (decide (s' = s)) as [->|Hne]; [by rewrite lookup_insert_eq|by rewrite lookup_insert_ne].
Qed.
Lemma storage_mem_set_pool s s' id p st : storage_mem s' id (set_pool s p st) = storage_mem s' id st.
Proof. unfold storage_mem. rewrite cls_storage_set_pool. by destruct (decide (s' = s)) as [->|]. Qed.
Lemma storage_mem_set_mem s s' id id' b st : storage_mem s' id' (set_mem s id b st) =
  if decide (s' = s /\ id' = id) then b else storage_mem s' id' st.
Proof.
  unfold storage_mem. rewrite cls_storage_set_mem. destruct (decide (s' = s)) as [->|Hne]; [|by rewrite decide_False by (by intros [])].
  unfold at_or. cbn [cls_mems]. destruct (decide (id' = id)) as [->|Hid]; [by rewrite lookup_insert_eq, decide_True|].
  rewrite lookup_insert_ne by done. by rewrite decide_False by (by intros []).
Qed.
Lemma pool_set_mem s s' id b st : cls_pool (cls_storage s' (set_mem s id b st)) = cls_pool (cls_storage s' st).
Proof. rewrite cls_storage_set_mem. by destruct (decide (s' = s)) as [->|]. Qed.

Lemma store_ok_empty : store_ok ∅ [].
Proof.
  split; [|set_solver]. intros s. exists (seqZ 0 max_count). split; [apply prepare_zero_ok|]. split; [|done].
  cbn [snd]. change (held s []) with (@nil Z). by rewrite app_nil_r.
Qed.

Lemma held_cons s b live : held s (b :: live) = if decide (lb_cls b = s) then lb_id b :: held s live else held s live.
Proof. unfold held. rewrite list.filter_cons. by destruct (decide _). Qed.

(** * A sender takes a block and fills it *)
Definition put_block (data : str) (st : store) : res (option Z * store) :=
  r ← apply_storage 1 (Z.of_nat (length data)) st;
  match r with
  | (Some id, st) => Ok (Some id, fill_storage id data st)
  | (None, st) => Ok (None, st)
  end.

Lemma acquire_step p held_ids : pool_inv (p, held_ids) ->
  exists r p', acquire (prepare p) = Ok (r, p') /\
    pool_inv (p', match r with Some id => id :: held_ids | None => held_ids end) /\
    match r with Some id => (id ∉ held_ids) /\ 0 <= id < max_count | None => length held_ids = Z.to_nat max_count end.
Proof.
  intros Hinv. pose proof Hinv as (free & Hok & HP & _). destruct (held_facts _ _ HP) as (_ & Hfacts & Hlen). simpl in Hok.
  destruct free as [|x free].
  - exists None, (prepare p). pose proof (acquire_nil _ Hok) as E. split; [done|]. destruct (pool_step_inv _ Acquire Hinv) as (s' & Es & Hs').
    simpl in Es. rewrite E in Es. injection Es as <-. split; [done|]. simpl in Hlen. lia.
  - destruct (acquire_cons _ _ _ Hok) as (p' & E & _). exists (Some x), p'. split; [done|].
    destruct (pool_step_inv _ Acquire Hinv) as (s' & Es & Hs'). simpl in Es. rewrite E in Es. injection Es as <-. split; [done|]. split.
    + intros Hx. apply Hfacts in Hx as [_ Hx]. set_solver.
    + destruct Hok as [_ Hc _ _]. eapply chain_range; [exact Hc|left].
Qed.

Lemma live_held b live : b ∈ live -> lb_id b ∈ held (lb_cls b) live.
Proof. intros Hb. unfold held. apply list_elem_of_fmap. exists b. split; [done|]. by apply list_elem_of_filter. Qed.

Lemma put_block_ok data st live : store_ok st live ->
  exists r st', put_block data st = Ok (r, st') /\
    match r with
    | Some id => 0 <= id < max_count /\ store_ok st' (mk_live id data :: live)
    | None => store_ok st' live /\ length (held (calc_cls_size (Z.of_nat (length data))) live) = Z.to_nat max_count
    end.
Proof.
  intros [Hpool Hlive]. unfold put_block, apply_storage. cbn [Z.eqb]. set (s := calc_cls_size _).
  destruct (acquire_step _ _ (Hpool s)) as (r & p' & E & Hinv & Hr). rewrite E. cbn [mbind res_bind].
  assert (forall s', s' <> s -> cls_storage s' (set_pool s p' st) = cls_storage s' st) as Hother
    by (intros; rewrite cls_storage_set_pool; by rewrite decide_False).
  destruct r as [id|]; eexists _, _; (split; [reflexivity|]).
  - destruct Hr as [Hfresh Hrange]. split; [done|]. unfold fill_storage. fold s. split.
    + intros s'. rewrite !pool_set_mem, cls_storage_set_pool, held_cons.
      destruct (decide (s' = s)) as [->|Hne]; [by rewrite decide_True|]. by rewrite decide_False.
    + intros b [->|Hb]%elem_of_cons.
      * change (lb_cls (mk_live id data)) with s. cbn [lb_id lb_data]. rewrite !storage_mem_set_mem, !decide_True by done.
        cbn [b_acc b_bytes]. split; [done|]. apply overwrite_take.
      * rewrite storage_mem_set_mem, decide_False.
        2: { intros [E1 E2]. apply Hfresh. rewrite <- E1, <- E2. by apply live_held. }
        rewrite storage_mem_set_mem, decide_False.
        2: { intros [E1 E2]. apply Hfresh. rewrite <- E1, <- E2. by apply live_held. }
        rewrite storage_mem_set_pool. by apply Hlive.
  - split; [|done]. split.
    + intros s'. rewrite cls_storage_set_pool. destruct (decide (s' = s)) as [->|]; [done|apply Hpool].
    + intros b Hb. rewrite storage_mem_set_pool. by apply Hlive.
Qed.

(** * A receiver gives a block back *)
Lemma pool_inv_perm p h h' : pool_inv (p, h) -> h ≡ₚ h' -> pool_inv (p, h').
Proof.
  intros (free & Hok & HP & Hz) Hh. exists free. simpl in *. split; [done|]. split; [by rewrite <- Hh|].
  intros Hp. rewrite (Hz Hp) in Hh. by apply Permutation_nil_l in Hh.
Qed.
Lemma store_ok_perm st live live' : store_ok st live -> live ≡ₚ live' -> store_ok st live'.
Proof.
  intros [Hpool Hlive] Hp. split.
  - intros s. eapply pool_inv_perm; [apply Hpool|]. unfold held. by rewrite Hp.
  - intros b Hb. apply Hlive. by rewrite Hp.
Qed.

Lemma release_step p id h : pool_inv (p, id :: h) -> exists p', release id p = Ok p' /\ pool_inv (p', h).
Proof.
  intros Hinv. pose proof Hinv as (free & _ & HP & _). destruct (held_facts _ _ HP) as (Hnd & _ & _). simpl in Hnd.
  destruct (pool_step_inv _ (Release id) Hinv) as (s' & Es & Hs'). cbn [pool_step] in Es. rewrite decide_True in Es by left.
  destruct (release id p) as [p'|]; [|done]. injection Es as <-. exists p'. split; [done|].
  rewrite list.filter_cons, decide_False in Hs' by auto. apply list.NoDup_cons in Hnd as [Hni Hnd].
  eapply pool_inv_perm; [exact Hs'|]. clear -Hni. induction h as [|y h IH]; [done|].
  rewrite list.filter_cons, decide_True by set_solver. constructor. apply IH. set_solver.
Qed.

Lemma live_id st live b : store_ok st live -> b ∈ live -> (lb_id b =? invalid_value) = false.
Proof.
  intros [Hpool _] Hb. apply block_id_valid. destruct (Hpool (lb_cls b)) as (free & _ & HP & _).
  apply held_facts in HP as (_ & Hf & _). apply Hf. by apply live_held.
Qed.

Lemma recycle_ok b st live : store_ok st (b :: live) ->
  exists st', recycle_storage (lb_id b) (lb_size b) st = Ok st' /\ store_ok st' live.
Proof.
  intros Hok. unfold recycle_storage. rewrite (live_id st (b :: live)) by (done || left). destruct Hok as [Hpool Hlive]. change (calc_cls_size (lb_size b)) with (lb_cls b).
  destruct (Hlive b) as [Hacc _]; [left|]. rewrite Hacc. cbn [Z.ltb Z.compare Pos.compare Pos.compare_cont]. unfold release_storage.
  rewrite pool_set_mem. pose proof (Hpool (lb_cls b)) as Hp. rewrite held_cons, decide_True in Hp by done.
  destruct (release_step _ _ _ Hp) as (p' & -> & Hp'). cbn [mbind res_bind]. eexists. split; [done|].
  assert (lb_id b ∉ held (lb_cls b) live) as Hni.
  { destruct Hp as (free & _ & HP & _). destruct (held_facts _ _ HP) as (Hnd & _ & _). by apply list.NoDup_cons in Hnd as [? _]. }
  split.
  - intros s. rewrite cls_storage_set_pool. destruct (decide (s = lb_cls b)) as [->|Hne]; [done|].
    rewrite pool_set_mem. specialize (Hpool s). by rewrite held_cons, decide_False in Hpool.
  - intros b' Hb'. rewrite storage_mem_set_pool, storage_mem_set_mem, decide_False; [apply Hlive; by right|].
    intros [E1 E2]. apply Hni. rewrite <- E1, <- E2. by apply live_held.
Qed.

(** * Histories *)
Inductive block_op := BPut (data : str) | BGive (k : nat).

Definition block_step (s : store * list live_block) (op : block_op) : res (store * list live_block) :=
  let '(st, live) := s in
  match op with
  | BPut data =>
      r ← put_block data st;
      Ok (match r with (Some id, st) => (st, mk_live id data :: live) | (None, st) => (st, live) end)
  | BGive k =>
      match live !! k with
      | None => Ok s
      | Some b => st ← recycle_storage (lb_id b) (lb_size b) st; Ok (st, delete k live)
      end
  end.
Definition block_run (ops : list block_op) : res (store * list live_block) := foldM block_step (∅, []) ops.

Lemma block_step_ok s op : store_ok s.1 s.2 -> exists s', block_step s op = Ok s' /\ store_ok s'.1 s'.2.
Proof.
  destruct s as [st live]. intros Hok. destruct op as [data|k]; cbn [block_step].
  - destruct (put_block_ok data st live Hok) as (r & st' & -> & Hr). destruct r as [id|]; eexists; (split; [done|]); by apply Hr.
  - destruct (live !! k) as [b|] eqn:Ek; [|by exists (st, live)].
    assert (live ≡ₚ b :: delete k live) as HP by (by apply delete_Permutation).
    destruct (recycle_ok b st (delete k live)) as (st' & -> & Hok'); [by eapply store_ok_perm|]. eexists. by split.
Qed.

(** C25: the block of a large message is its own. In any history in which senders
    take and fill blocks and the receiver gives blocks back, for one receiver per
    channel: no step runs out of its memory; every block not yet given back still
    holds the bytes it was filled with; and a sender is refused exactly when all
    32 blocks of the size are in use. *)
Theorem blocks_intact (ops : list block_op) :
  exists st live, block_run ops = Ok (st, live) /\
    (forall b, b ∈ live -> exists bytes, find_storage (lb_id b) (lb_size b) st = Some bytes /\ take (length (lb_data b)) bytes = lb_data b) /\
    (forall s, NoDup (held s live)) /\
    forall data, exists r st', put_block data st = Ok (r, st') /\
      (r = None <-> length (held (calc_cls_size (Z.of_nat (length data))) live) = Z.to_nat max_count).
Proof.
  assert (exists s, block_run ops = Ok s /\ store_ok s.1 s.2) as ([st live] & Hrun & Hok).
  { unfold block_run. pose proof store_ok_empty as H0. change (store_ok ((∅ : store), @nil live_block).1 ((∅ : store), @nil live_block).2) in H0.
    revert H0. generalize ((∅ : store), @nil live_block). induction ops as [|op ops IH]; intros s Hs; [by exists s|].
    destruct (block_step_ok s op Hs) as (s1 & E1 & Hs1). cbn [foldM]. rewrite E1. cbn [mbind res_bind]. by apply IH. }
  exists st, live. split; [done|]. simpl in Hok. pose proof Hok as [Hpool Hlive]. split; [|split].
  - intros b Hb. destruct (Hlive b Hb) as [Hacc Hbytes]. eexists. split; [|exact Hbytes]. unfold find_storage. rewrite (live_id st live) by done.
    change (calc_cls_size (lb_size b)) with (lb_cls b). by rewrite Hacc.
  - intros s. destruct (Hpool s) as (free & _ & HP & _). by apply held_facts in HP as [? _].
  - intros data. destruct (put_block_ok data st live Hok) as (r & st' & E & Hr). exists r, st'. split; [done|].
    destruct r as [id|]; [|by split; [intros _; apply Hr|]]. split; [done|]. intros Hfull. exfalso.
    destruct Hr as [_ [Hpool' _]]. set (s := calc_cls_size _) in *. destruct (Hpool' s) as (free & _ & HP & _).
    apply held_facts in HP as (_ & _ & Hlen). cbn [snd] in Hlen. rewrite held_cons, decide_True in Hlen by done. simpl in Hlen. lia.
Qed.

(** Two receivers on one such channel leak blocks: the count is two, but only
    one of them receives the message. *)
Lemma second_receiver_leaks :
  (r ← apply_storage 2 100 ∅; match r with (Some id, st) => st ← recycle_storage id 100 st; Ok (cursor_ (cls_pool (cls_storage 128 st))) | _ => Fault Diverges end) = Ok 1.
Proof. vm_compute. reflexivity. Qed.

(** A receiver that gives a block back after a forced send has cleared it
    releases it a second time. *)
Lemma cleared_block_released_twice :
  (r ← apply_storage 1 100 ∅;
   match r with
   | (Some id, st) =>
       st ← clear_storage id 100 st; st ← recycle_storage id 100 st;
       a ← apply_storage 1 100 st; b ← apply_storage 1 100 a.2; Ok (a.1, b.1)
   | _ => Fault Diverges
   end) = Ok (Some 0, Some 0).
Proof. vm_compute. reflexivity. Qed.
