(* ===== verification/ChannelTrips.v ===== *)
(** A channel from end to end: what is sent is received, in order; and what
    happens when the receiver does not keep up. *)
From stdpp Require Import prelude gmap list strings functions.
From Stdlib Require Import ZArith Lia Ascii.
From S2P Require Import Prelude Cpp IdPool Channel ChannelClaims ChannelStore.

Open Scope Z_scope.

#[local] Arguments calc_cls_size : simpl never.

(** * Receiving *)
(** A message whose block, if it has one, is in place. *)
Definition deliverable (st : store) (s : sending) : Prop :=
  (0 < length (sending_data s))%nat /\ Z.of_nat (length (sending_data s)) < 2 ^ 31 /\
  match s with
  | Whole _ => True
  | Block b data => 0 <= b < 256 /\ (64 < length data)%nat /\
      exists bytes, find_storage b (Z.of_nat (length data)) st = Some bytes /\ take (length data) bytes = data
  end.

(** Only the last packet of a message completes it. *)
Lemma sent_split conn id s : (0 < length (sending_data s))%nat -> Z.of_nat (length (sending_data s)) < 2 ^ 31 ->
  exists pre m, sent_packets conn id s = pre ++ [m] /\ Forall (fun x => is_last x = false) pre /\ is_last m = true /\
    forall x, x ∈ sent_packets conn id s -> m_id_ x = id.
Proof.
  intros Hpos Hsz. destruct s as [data|b data]; simpl in *.
  - pose proof (n_packets_bounds data). destruct (n_packets data) as [|n] eqn:En; [lia|].
    exists (packet conn id data <$> seq 0 n), (packet conn id data n). unfold packets. rewrite En, seq_S, fmap_app. split; [done|]. split; [|split].
    + apply Forall_fmap, list.Forall_forall. intros k Hk%elem_of_seq. simpl. rewrite packet_is_last, bool_decide_false by lia. done.
    + rewrite packet_is_last, bool_decide_true by lia. done.
    + intros x [(k & -> & _)%list_elem_of_fmap|Hx%list_elem_of_singleton]%elem_of_app; by subst.
  - eexists [], _. split; [done|]. split; [constructor|]. split; [unfold is_last; apply orb_true_r|]. by intros x ->%list_elem_of_singleton.
Qed.

(** One receive takes exactly the packets of one message. *)
Lemma recv_message junk me st conn id s rest : conn <> me -> deliverable st s ->
  recv_loop junk me st ∅ (sent_packets conn id s ++ rest) = (Some (delivered s), ∅, rest) /\ buff_bytes st (delivered s) = sending_data s.
Proof.
  intros Hne (Hpos & Hsz & Hblk). set (sent := {[id := (conn, s)]} : gmap Z (Z * sending)).
  assert (forall id' x, sent !! id' = Some x -> id' = id /\ x = (conn, s)) as Hone
    by (intros id' x [<- <-]%lookup_singleton_Some; done).
  assert (sent_ok me st sent) as Hok.
  { split.
    - by intros id' conn' s' [_ [= -> ->]]%Hone.
    - by intros id' conn' s' [_ [= -> ->]]%Hone.
    - intros id' conn' b data [_ [= -> <-]]%Hone. exact Hblk.
    - intros id1 id2 [x1 [-> _]%Hone] [x2 [-> _]%Hone]. lia. }
  assert (sent !! id = Some (conn, s)) as Hs by apply lookup_singleton_eq.
  destruct (sent_split conn id s Hpos Hsz) as (pre & m & E & Hpre & Hm & Hids).
  assert (of_id id (sent_packets conn id s) = sent_packets conn id s) as Hof.
  { unfold of_id. clear -Hids. induction (sent_packets conn id s) as [|x l IH]; [done|].
    rewrite list.filter_cons, decide_True by (apply Hids; left). f_equal. apply IH. set_solver. }
  assert (stream_inv sent (fun _ => 0%nat) ∅ (sent_packets conn id s)) as Hinv.
  { apply stream_start; [by intros id' conn' s' [-> [= -> ->]]%Hone|]. intros x Hx. rewrite (Hids x Hx), Hs. by eexists. }
  rewrite E in Hinv. destruct (recv_loop_stream junk me st sent Hok _ _ _ _ rest Hinv Hpre Hm) as (conn' & s' & Hs' & Hl).
  apply Hone in Hs' as [_ [= -> ->]]. rewrite E, <- app_assoc. split; [exact Hl|]. by eapply delivered_bytes.
Qed.

(** * Sending *)
(** The block of a message. *)
Definition s_live (s : sending) : list live_block := match s with Whole _ => [] | Block b data => [mk_live b data] end.
Definition block_ok (s : sending) : Prop :=
  match s with Whole _ => True | Block b data => 0 <= b < max_count /\ (64 < length data)%nat end.

Lemma live_deliverable st live s : store_ok st live -> (forall b, b ∈ s_live s -> b ∈ live) -> block_ok s ->
  (0 < length (sending_data s))%nat -> Z.of_nat (length (sending_data s)) < 2 ^ 31 -> deliverable st s.
Proof.
  intros Hok Hs Hblk Hpos Hsz. pose proof Hok as [_ Hlive]. split; [done|]. split; [done|]. destruct s as [|b data]; [done|]. destruct Hblk as (Hb & Hlen).
  assert (mk_live b data ∈ live) as Hin by (apply Hs; left).
  split; [unfold max_count, large_msg_cache in Hb; lia|]. split; [done|]. destruct (Hlive _ Hin) as [Hacc Hbytes]. eexists. split; [|exact Hbytes].
  unfold find_storage. pose proof (live_id st live (mk_live b data) Hok Hin) as Hid. cbn [lb_id] in Hid. rewrite Hid.
  change (storage_mem (calc_cls_size (Z.of_nat (length data))) b st) with (storage_mem (lb_cls (mk_live b data)) (lb_id (mk_live b data)) st).
  by rewrite Hacc.
Qed.

(** Whether a message goes in a block: if it is large and there is one left. *)
Definition takes_block (used : nat) (data : str) : bool :=
  bool_decide (64 < length data)%nat && bool_decide (used < Z.to_nat max_count)%nat.
Definition is_block (s : sending) : bool := match s with Whole _ => false | Block _ _ => true end.
Definition cls_of (data : str) : Z := calc_cls_size (Z.of_nat (length data)).

(** The places it takes in the ring. *)
Definition cost (in_block : bool) (data : str) : nat := if in_block then 1 else n_packets data.

Lemma put_block_exact data st live : store_ok st live ->
  exists r st', put_block data st = Ok (r, st') /\
    match r with
    | Some id => 0 <= id < max_count /\ store_ok st' (mk_live id data :: live) /\ (length (held (cls_of data) live) < Z.to_nat max_count)%nat
    | None => store_ok st' live /\ ~ (length (held (cls_of data) live) < Z.to_nat max_count)%nat
    end.
Proof.
  intros Hok. destruct (put_block_ok data st live Hok) as (r & st' & E & Hr). exists r, st'. split; [done|]. destruct r as [id|].
  - destruct Hr as [Hid Hok']. split; [done|]. split; [done|].
    destruct (st_pool _ _ Hok' (cls_of data)) as (free & _ & HP & _). apply held_facts in HP as (_ & _ & Hlen). cbn [snd] in Hlen.
    rewrite held_cons, decide_True in Hlen by done. simpl in Hlen. lia.
  - destruct Hr as [Hok' Hfull]. fold (cls_of data) in Hfull. split; [done|lia].
Qed.

Lemma chan_send_ok i data c live : (0 < length data)%nat -> cc_ c = 1 -> store_ok (ch_store c) live ->
  let blk := takes_block (length (held (cls_of data) live)) data in
  (length (que_ c) + cost blk data <= ring_room)%nat ->
  exists s i' c', chan_send i data c = Ok (true, i', c') /\ cc_id_ i' = cc_id_ i /\ sending_data s = data /\ is_block s = blk /\
    que_ c' = que_ c ++ sent_packets (cc_id_ i) (acc_ c) s /\ cc_ c' = 1 /\ store_ok (ch_store c') (s_live s ++ live) /\ block_ok s.
Proof.
  intros Hpos Hcc Hok blk Hroom. pose proof (n_packets_bounds data) as Hn. unfold chan_send.
  rewrite decide_False by (intros ->; simpl in Hpos; lia). cbn [ready_sending fst snd]. rewrite Hcc. cbn [Z.eqb].
  destruct (Z.ltb_spec large_msg_limit (Z.of_nat (length data))) as [Hbig|Hsmall]; unfold large_msg_limit, data_length in *.
  - cbn [set_acc cc_ ch_store]. rewrite Hcc. destruct (put_block_exact data _ _ Hok) as (r & st' & E & Hr). unfold put_block in E.
    assert (blk = bool_decide (length (held (cls_of data) live) < Z.to_nat max_count)%nat) as Eblk
      by (unfold blk, takes_block; by rewrite (bool_decide_true (64 < length data)%nat) by lia).
    destruct (apply_storage 1 (Z.of_nat (length data)) (ch_store c)) as [[[id|] st1]|]; [| |done]; injection E as <- <-; cbn [mbind res_bind].
    + destruct Hr as (Hid & Hok' & Hlt). rewrite bool_decide_true in Eblk by done. rewrite Eblk in Hroom. cbn [cost] in Hroom.
      unfold try_push. cbn [set_store set_acc que_]. rewrite decide_True by lia.
      eexists (Block id data), _, _. repeat (split; [done|]). lia.
    + destruct Hr as [Hok' Hge]. rewrite bool_decide_false in Eblk by done. rewrite Eblk in Hroom. cbn [cost] in Hroom.
      rewrite send_frags_room by done. by eexists (Whole data), _, _.
  - assert (blk = false) as Eblk by (unfold blk, takes_block; by rewrite (bool_decide_false (64 < length data)%nat) by lia).
    rewrite Eblk in Hroom |- *. cbn [cost] in Hroom. rewrite send_frags_room by done. by eexists (Whole data), _, _.
Qed.

Lemma sent_packets_cost conn id s : length (sent_packets conn id s) = cost (is_block s) (sending_data s).
Proof. destruct s as [data|b data]; simpl; [|done]. unfold packets. by rewrite length_fmap, length_seq. Qed.

(** * A channel is a queue *)
(** Several senders and one receiver, which gives a buffer back before it takes
    the next one. *)
Inductive fifo_op := FSend (k : nat) (data : str) | FRecv.
Inductive fifo_answer := ASent (b : bool) | AGot (m : option str).

Record channel := mk_channel { f_senders : list conn_info; f_recv : conn_info; f_chan : chan }.

Definition fifo_step (junk : ascii) (s : channel) (op : fifo_op) : res (channel * list fifo_answer) :=
  let '(mk_channel ss r c) := s in
  match op with
  | FSend k data =>
      match ss !! k with
      | None => Ok (s, [])
      | Some i => x ← chan_send i data c; let '(b, i, c) := x in Ok (mk_channel (<[k := i]> ss) r c, [ASent b])
      end
  | FRecv =>
      let '(b, r, c) := chan_recv junk r c in
      match b with
      | None => Ok (mk_channel ss r c, [AGot None])
      | Some b => st ← destroy_buff b (ch_store c); Ok (mk_channel ss r (set_store st c), [AGot (Some (buff_bytes (ch_store c) b))])
      end
  end.

Fixpoint fifo_run (junk : ascii) (s : channel) (ops : list fifo_op) : res (channel * list fifo_answer) :=
  match ops with
  | [] => Ok (s, [])
  | op :: ops =>
      x ← fifo_step junk s op;
      let '(s, a) := x in
      x ← fifo_run junk s ops;
      let '(s, l) := x in Ok (s, a ++ l)
  end.

(** The specification: [n] senders, and the messages not yet received; the
    answers, and the messages left. *)
Fixpoint queue_run (n : nat) (pending : list str) (ops : list fifo_op) : list fifo_answer * list str :=
  match ops with
  | [] => ([], pending)
  | FSend k data :: ops =>
      if decide (k < n)%nat then let '(l, p) := queue_run n (pending ++ [data]) ops in (ASent true :: l, p) else queue_run n pending ops
  | FRecv :: ops => let '(l, p) := queue_run n (tail pending) ops in (AGot (head pending) :: l, p)
  end.

(** Histories in which the ring has room for every message when it is sent. The
    messages on their way come with whether they are in blocks; [live] are the
    blocks of other channels. *)
Definition blocks_used (cls_size : Z) (pending : list (bool * str)) : nat :=
  length (List.filter (fun x => x.1 && (cls_of x.2 =? cls_size)) pending).
Definition next_block (live : list live_block) (pending : list (bool * str)) (data : str) : bool :=
  takes_block (blocks_used (cls_of data) pending + length (held (cls_of data) live)) data.
Definition total_cost (pending : list (bool * str)) : nat := sum_list ((fun x => cost x.1 x.2) <$> pending).

Fixpoint roomy (live : list live_block) (n : nat) (pending : list (bool * str)) (ops : list fifo_op) : Prop :=
  match ops with
  | [] => True
  | FSend k data :: ops =>
      if decide (k < n)%nat
      then let blk := next_block live pending data in
        (0 < length data)%nat /\ Z.of_nat (length data) < 2 ^ 31 /\ (total_cost pending + cost blk data <= ring_room)%nat /\
        roomy live n (pending ++ [(blk, data)]) ops
      else roomy live n pending ops
  | FRecv :: ops => roomy live n (tail pending) ops
  end.

(** A message on its way: who sent it, its number, and how. *)
Record on_way := mk_on_way { w_conn : Z; w_id : Z; w_sent : sending }.
Definition w_packets (w : on_way) : list msg_t := sent_packets (w_conn w) (w_id w) (w_sent w).
Definition w_live (ws : list on_way) : list live_block := concat ((fun w => s_live (w_sent w)) <$> ws).

Record channel_ok (live : list live_block) (s : channel) (ws : list on_way) : Prop := {
  co_que : que_ (f_chan s) = concat (w_packets <$> ws);
  co_ways w : w ∈ ws -> w_conn w <> cc_id_ (f_recv s) /\ (0 < length (sending_data (w_sent w)))%nat /\
    Z.of_nat (length (sending_data (w_sent w))) < 2 ^ 31 /\ block_ok (w_sent w);
  co_store : store_ok (ch_store (f_chan s)) (w_live ws ++ live);
  co_count : cc_ (f_chan s) = 1;
  co_recv : connected_ (f_recv s) <> 0 /\ recv_cache_ (f_recv s) = ∅;
  co_senders i : i ∈ f_senders s -> cc_id_ i <> cc_id_ (f_recv s) }.

Definition w_data (w : on_way) : str := sending_data (w_sent w).
Definition w_info (w : on_way) : bool * str := (is_block (w_sent w), w_data w).

Lemma queued_packets ws : length (concat (w_packets <$> ws)) = total_cost (w_info <$> ws).
Proof.
  induction ws as [|w ws IH]; [done|]. cbn [fmap list_fmap concat]. rewrite length_app, IH. unfold w_packets at 1. by rewrite sent_packets_cost.
Qed.

Lemma held_app s l1 l2 : held s (l1 ++ l2) = held s l1 ++ held s l2.
Proof. unfold held. by rewrite list.filter_app, fmap_app. Qed.
Lemma held_w_live s ws : length (held s (w_live ws)) = blocks_used s (w_info <$> ws).
Proof.
  induction ws as [|w ws IH]; [done|]. unfold w_live. cbn [fmap list_fmap concat]. fold (w_live ws). rewrite held_app, length_app, IH.
  unfold blocks_used. cbn [List.filter w_info fst snd]. unfold w_data. destruct (w_sent w) as [data|b data]; [done|]. cbn [s_live is_block andb sending_data].
  rewrite held_cons. change (lb_cls (mk_live b data)) with (cls_of data). destruct (Z.eqb_spec (cls_of data) s); [by rewrite decide_True|by rewrite decide_False].
Qed.

Lemma w_live_app ws1 ws2 : w_live (ws1 ++ ws2) = w_live ws1 ++ w_live ws2.
Proof. unfold w_live. by rewrite fmap_app, concat_app. Qed.

Lemma fifo_send_ok junk live s ws k i data : channel_ok live s ws -> f_senders s !! k = Some i ->
  let blk := next_block live (w_info <$> ws) data in
  (0 < length data)%nat -> Z.of_nat (length data) < 2 ^ 31 -> (total_cost (w_info <$> ws) + cost blk data <= ring_room)%nat ->
  exists s' w, fifo_step junk s (FSend k data) = Ok (s', [ASent true]) /\ channel_ok live s' (ws ++ [w]) /\ w_info w = (blk, data) /\
    length (f_senders s') = length (f_senders s).
Proof.
  destruct s as [ss r c]. intros [Hq Hw Hst Hcc Hr Hss] Hk blk Hpos Hsz Hroom. cbn [f_senders f_recv f_chan fifo_step] in *. rewrite Hk.
  pose proof (queued_packets ws) as Hlen. rewrite <- Hq in Hlen.
  assert (takes_block (length (held (cls_of data) (w_live ws ++ live))) data = blk) as Eblk
    by (unfold blk, next_block; by rewrite held_app, length_app, held_w_live).
  destruct (chan_send_ok i data c _ Hpos Hcc Hst) as (snd & i' & c' & -> & Hi' & Hd & Hb & Hq' & Hcc' & Hst' & Hblk); [rewrite Eblk; lia|]. cbn [mbind res_bind].
  assert (i ∈ ss) as Hin by (by eapply list_elem_of_lookup_2). pose proof (Hss i Hin) as Hne.
  exists (mk_channel (<[k := i']> ss) r c'), (mk_on_way (cc_id_ i) (acc_ c) snd). split; [done|].
  split; [|split; [unfold w_info, w_data; cbn [w_sent]; by rewrite Hd, Hb, Eblk|apply length_insert]].
  split; cbn [f_senders f_recv f_chan].
  - rewrite fmap_app, concat_app, Hq'. cbn [fmap list_fmap concat]. by rewrite app_nil_r, Hq.
  - intros w [Hw'|Hw'%list_elem_of_singleton]%elem_of_app; [by apply Hw|]. subst w. cbn [w_conn w_sent]. rewrite Hd. done.
  - eapply store_ok_perm; [exact Hst'|]. rewrite w_live_app. unfold w_live at 3. cbn [fmap list_fmap concat w_sent]. rewrite app_nil_r.
    rewrite <- app_assoc, (Permutation_app_swap_app (s_live snd) (w_live ws) live). done.
  - done.
  - done.
  - intros j [n Hn]%list_elem_of_lookup. apply list_lookup_insert_Some in Hn as [(_ & <- & _)|(_ & Hn)]; [congruence|]. by eapply Hss, list_elem_of_lookup_2.
Qed.

Lemma fifo_recv_ok junk live s ws : channel_ok live s ws ->
  exists s', fifo_step junk s FRecv = Ok (s', [AGot (head (w_data <$> ws))]) /\ channel_ok live s' (tail ws) /\ f_senders s' = f_senders s.
Proof.
  destruct s as [ss r c]. intros [Hq Hw Hst Hcc [Hr Hrc] Hss]. cbn [f_senders f_recv f_chan fifo_step] in *. unfold chan_recv.
  apply Z.eqb_neq in Hr as Er. rewrite Er, Hrc, Hq. destruct ws as [|w ws]; cbn [fmap list_fmap concat head tail].
  - cbn [recv_loop]. eexists. split; [done|]. split; [|done]. by split.
  - destruct (Hw w (list_elem_of_here _ _)) as (Hne & Hpos & Hsz & Hblk).
    assert (deliverable (ch_store c) (w_sent w)) as Hdel.
    { eapply live_deliverable; eauto. intros b Hb. unfold w_live. cbn [fmap list_fmap concat]. rewrite !elem_of_app. by left; left. }
    destruct (recv_message junk (cc_id_ r) (ch_store c) (w_conn w) (w_id w) (w_sent w) (concat (w_packets <$> ws)) Hne Hdel) as [Hl Hbytes].
    unfold w_packets at 1. rewrite Hl. cbn [set_que ch_store]. rewrite Hbytes.
    assert (exists st', destroy_buff (delivered (w_sent w)) (ch_store c) = Ok st' /\ store_ok st' (w_live ws ++ live)) as (st' & -> & Hst').
    { unfold w_live in Hst. cbn [fmap list_fmap concat] in Hst. fold (w_live ws) in Hst. destruct (w_sent w) as [data|b data]; cbn [s_live delivered destroy_buff app] in *.
      - by eexists.
      - apply (recycle_ok (mk_live b data)). exact Hst. }
    cbn [mbind res_bind]. eexists. split; [done|]. split; [|done]. split; cbn [f_senders f_recv f_chan set_store set_que que_ ch_store cc_ connected_ recv_cache_ cc_id_]; try done.
    intros w' Hw'. apply Hw. by right.
Qed.

Lemma fifo_run_ok junk live ops s ws : channel_ok live s ws -> roomy live (length (f_senders s)) (w_info <$> ws) ops ->
  exists s' ws', fifo_run junk s ops = Ok (s', (queue_run (length (f_senders s)) (w_data <$> ws) ops).1) /\ channel_ok live s' ws' /\
    w_data <$> ws' = (queue_run (length (f_senders s)) (w_data <$> ws) ops).2 /\ length (f_senders s') = length (f_senders s).
Proof.
  revert s ws. induction ops as [|[k data|] ops IH]; intros s ws Hok Hroom; [by exists s, ws| |]; cbn [roomy] in Hroom; cbn [fifo_run queue_run].
  - case_decide as Hk.
    + destruct Hroom as (Hpos & Hsz & Hrm & Hroom). destruct (lookup_lt_is_Some_2 _ _ Hk) as [i Hi].
      destruct (fifo_send_ok junk live s ws k i data) as (s1 & w & -> & Hok1 & Hd & Hlen); [done..|]. cbn [mbind res_bind].
      destruct (IH s1 (ws ++ [w])) as (s2 & ws2 & E & Hok2 & Hws2 & Hn2); [done|by rewrite Hlen, fmap_app; cbn [fmap list_fmap]; rewrite Hd|].
      assert (w_data w = data) as Hdata by (by injection Hd). rewrite Hlen, fmap_app in E, Hws2. cbn [fmap list_fmap] in E, Hws2. rewrite Hdata in E, Hws2. rewrite E.
      exists s2, ws2. destruct (queue_run _ (_ ++ [data]) ops). cbn [fst snd] in *. split; [done|]. split; [done|]. split; [done|congruence].
    + assert (fifo_step junk s (FSend k data) = Ok (s, [])) as ->.
      { destruct s as [ss r c]. cbn [fifo_step f_senders] in *. by rewrite lookup_ge_None_2 by lia. }
      cbn [mbind res_bind]. destruct (IH s ws) as (s2 & ws2 & E & Hok2 & Hws2 & Hn2); [done..|]. rewrite E. by exists s2, ws2.
  - destruct (fifo_recv_ok junk live s ws Hok) as (s1 & -> & Hok1 & Hlen). cbn [mbind res_bind].
    assert (tail (w_data <$> ws) = w_data <$> tail ws /\ tail (w_info <$> ws) = w_info <$> tail ws) as [Et Ei] by (by destruct ws). rewrite Ei in Hroom.
    destruct (IH s1 (tail ws)) as (s2 & ws2 & E & Hok2 & Hws2 & Hn2); [done|by rewrite Hlen|]. rewrite Hlen in E, Hws2, Hn2. rewrite E, Et.
    exists s2, ws2. by destruct (queue_run _ (w_data <$> tail ws) ops).
Qed.

(** C7: a channel is a queue. Over a channel with its receiver connected, an empty
    ring and the blocks in order, in any history of sends by any number of
    senders and of receives whose buffers are given back, as long as the ring has
    room for what is sent: every send succeeds, every receive returns exactly the
    bytes of the oldest message not yet received, or nothing when there is none;
    whether messages go in packets or in blocks makes no difference, and the
    blocks are in order again. *)
Theorem channel_refines_queue (junk : ascii) (live : list live_block) (s : channel) (ops : list fifo_op) :
  channel_ok live s [] -> roomy live (length (f_senders s)) [] ops ->
  exists s', fifo_run junk s ops = Ok (s', (queue_run (length (f_senders s)) [] ops).1) /\
    exists live', store_ok (ch_store (f_chan s')) live' /\ forall b, b ∈ live -> b ∈ live'.
Proof.
  intros Hok Hroom. destruct (fifo_run_ok junk live ops s [] Hok Hroom) as (s' & ws & E & Hok' & _). exists s'. split; [done|].
  exists (w_live ws ++ live). split; [apply Hok'|]. intros b Hb. apply elem_of_app. by right.
Qed.

(** The receiver connects to a fresh channel; two senders. *)
Definition demo_channel : channel :=
  let '(_, r, c) := que_connect (conn_new 7) chan_zero in mk_channel [conn_new 1; conn_new 2] r c.
Lemma demo_channel_ok : channel_ok [] demo_channel [].
Proof.
  split; cbn; [done|by intros w Hw%elem_of_nil|apply store_ok_empty|done|by split|].
  intros i [->|[->|Hi%elem_of_nil]%elem_of_cons]%elem_of_cons; [discriminate..|done].
Qed.
Definition demo_history : list fifo_op :=
  [FRecv; FSend 0 (lit "hello"); FSend 1 (replicate 100 "x"%char); FSend 0 (replicate 64 "w"%char); FRecv; FSend 1 (replicate 130 "y"%char); FRecv; FRecv;
   FSend 5 (lit "lost"); FRecv; FRecv].
Lemma channel_refines_queue_witness :
  exists s', fifo_run "z" demo_channel demo_history =
      Ok (s', [AGot None; ASent true; ASent true; ASent true; AGot (Some (lit "hello")); ASent true; AGot (Some (replicate 100 "x"%char));
               AGot (Some (replicate 64 "w"%char)); AGot (Some (replicate 130 "y"%char)); AGot None]) /\
    exists live', store_ok (ch_store (f_chan s')) live' /\ forall b, b ∈ [] -> b ∈ live'.
Proof.
  apply (channel_refines_queue "z" [] demo_channel demo_history).
  - apply demo_channel_ok.
  - vm_compute. repeat split; lia.
Defined.

(** * A receiver that falls behind *)
(** What the ends of a channel do in their roles: send, receive, connect again as
    what they are (the scheduler and the executors do so after a failure), and ask
    whether there is a receiver. *)
Inductive end_op := ESend (k : nat) (data : str) | ERecv (k : nat) | EAgain (k : nat) | EWait.

(** The answers of sends and waits. *)
Definition end_step (junk : ascii) (s : list conn_info * chan) (op : end_op) : res (list conn_info * chan * list bool) :=
  let '(ends, c) := s in
  match op with
  | ESend k data =>
      match ends !! k with
      | None => Ok (s, [])
      | Some i => r ← chan_send i data c; let '(b, i, c) := r in Ok (<[k := i]> ends, c, [b])
      end
  | ERecv k =>
      match ends !! k with
      | None => Ok (s, [])
      | Some i => let '(_, i, c) := chan_recv junk i c in Ok (<[k := i]> ends, c, [])
      end
  | EAgain k =>
      match ends !! k with
      | None => Ok (s, [])
      | Some i => let '(_, i, c) := chan_reconnect (negb (connected_ i =? 0)) i c in Ok (<[k := i]> ends, c, [])
      end
  | EWait => Ok (s, [wait_for_recv 1 c])
  end.

Fixpoint end_run (junk : ascii) (s : list conn_info * chan) (ops : list end_op) : res (list conn_info * chan * list bool) :=
  match ops with
  | [] => Ok (s, [])
  | op :: ops =>
      r ← end_step junk s op;
      let '(s, bs1) := r in
      r ← end_run junk s ops;
      let '(s, bs2) := r in Ok (s, bs1 ++ bs2)
  end.

Lemma end_step_stranded junk ends c op : cc_ c = 0 ->
  exists ends' c' bs, end_step junk (ends, c) op = Ok (ends', c', bs) /\ cc_ c' = 0 /\ Forall (eq false) bs.
Proof.
  intros Hcc. destruct op as [k data|k|k|]; cbn [end_step]; try (destruct (ends !! k) as [i|]; [|by eexists _, _, _]).
  - unfold chan_send. destruct (decide (data = [])); [eexists _, _, _; split; [done|]; by repeat constructor|].
    cbn [ready_sending]. rewrite Hcc. cbn [Z.eqb mbind res_bind]. eexists _, _, _. split; [done|]. by repeat constructor.
  - unfold chan_recv. destruct (connected_ i =? 0); [by eexists _, _, _|].
    destruct (recv_loop _ _ _ _ _) as [[b rc] q]. by eexists _, _, _.
  - unfold chan_reconnect. destruct (connected_ i =? 0) eqn:E; cbn [negb].
    + by eexists _, _, _.
    + unfold que_connect. rewrite E. by eexists _, _, _.
  - eexists _, _, _. split; [done|]. split; [done|]. constructor; [|done]. unfold wait_for_recv. by rewrite Hcc.
Qed.

Lemma force_push_fails m c : length (que_ c) = ring_room -> cc_ c = 1 -> exists c', try_push m c = (false, c') /\ cc_ c' = 0.
Proof. intros Hq Hcc. unfold try_push. rewrite decide_False by lia. eexists. split; [done|]. unfold head_disconnect. cbn. by rewrite Hcc. Qed.

Lemma send_frags_full me id data c : (0 < length data)%nat -> length (que_ c) = ring_room -> cc_ c = 1 ->
  exists c', send_frags me id data c = (false, c') /\ cc_ c' = 0.
Proof.
  intros Hpos Hq Hcc. unfold send_frags. destruct (Z.to_nat (Z.of_nat (length data) / data_length)) as [|n] eqn:En; cbn [push_frags].
  - destruct (Z.ltb_spec 0 (Z.of_nat (length data) - 0)); [|lia]. by apply force_push_fails.
  - match goal with |- context [try_push ?m c] => destruct (force_push_fails m c Hq Hcc) as (c' & -> & Hc') end. by exists c'.
Qed.

(** C27: one time-out cuts a channel off for good. When the ring is full for as
    long as a send waits, the send takes the receiver off the count of
    connections and fails; from then on, although the receiver is there and takes
    packets, every send by any end fails and every wait for a receiver finds
    none, whatever the ends do, connecting again in their roles included. *)
Theorem full_ring_cuts_channel_off (junk : ascii) (i : conn_info) (data : str) (c : chan) (live : list live_block) :
  (0 < length data)%nat -> length (que_ c) = ring_room -> cc_ c = 1 -> store_ok (ch_store c) live ->
  exists i' c', chan_send i data c = Ok (false, i', c') /\
    forall ends ops, exists s bs, end_run junk (ends, c') ops = Ok (s, bs) /\ Forall (eq false) bs.
Proof.
  intros Hpos Hq Hcc Hok.
  assert (exists i' c', chan_send i data c = Ok (false, i', c') /\ cc_ c' = 0) as (i' & c' & E & Hc').
  { unfold chan_send. rewrite decide_False by (intros ->; simpl in Hpos; lia). cbn [ready_sending]. rewrite Hcc. cbn [Z.eqb].
    destruct (large_msg_limit <? Z.of_nat (length data)).
    - cbn [set_acc cc_ ch_store]. rewrite Hcc. destruct (put_block_ok data _ _ Hok) as (r & st' & Ep & _). unfold put_block in Ep.
      destruct (apply_storage 1 (Z.of_nat (length data)) (ch_store c)) as [[[id|] st1]|]; [| |done]; cbn [mbind res_bind].
      + match goal with |- context [try_push ?m ?c1] => destruct (force_push_fails m c1 Hq Hcc) as (c2 & -> & Hc2) end. by eexists _, _.
      + match goal with |- context [send_frags ?a ?b ?d ?c1] => destruct (send_frags_full a b d c1 Hpos Hq Hcc) as (c2 & -> & Hc2) end. by eexists _, _.
    - match goal with |- context [send_frags ?a ?b ?d ?c1] => destruct (send_frags_full a b d c1 Hpos Hq Hcc) as (c2 & -> & Hc2) end. by eexists _, _. }
  exists i', c'. split; [done|]. intros ends ops. clear E. revert ends c' Hc'. induction ops as [|op ops IH]; intros ends c' Hc'; [by eexists _, _|].
  destruct (end_step_stranded junk ends c' op Hc') as (ends1 & c1 & bs1 & E1 & Hc1 & Hb1).
  destruct (IH ends1 c1 Hc1) as (s2 & bs2 & E2 & Hb2). cbn [end_run]. rewrite E1. cbn [mbind res_bind]. rewrite E2. cbn [mbind res_bind].
  destruct s2 as [ends2 c2]. eexists _, _. split; [done|]. by apply Forall_app.
Qed.

Definition full_chan : chan := mk_chan (replicate ring_room (new_msg 1 0 (-63) (Frag (lit "x")))) 1 255 ∅.
Lemma full_ring_cuts_channel_off_witness :
  exists i' c', chan_send (conn_new 1) (lit "late") full_chan = Ok (false, i', c') /\
    forall ends ops, exists s bs, end_run "z" (ends, c') ops = Ok (s, bs) /\ Forall (eq false) bs.
Proof.
  apply (full_ring_cuts_channel_off "z" (conn_new 1) (lit "late") full_chan []).
  - vm_compute. lia.
  - reflexivity.
  - reflexivity.
  - apply store_ok_empty.
Defined.
