(* ===== verification/ChannelTry.v ===== *)
(** Sending without forcing: [try_send] and [try_recv] of [ipc.cpp]. Both sends
    are the same [send], given a way to push a packet; here it is a parameter, as
    in the code. *)
From stdpp Require Import prelude gmap list strings functions.
From Stdlib Require Import ZArith Lia Ascii.
From S2P Require Import Prelude Cpp IdPool Channel ChannelClaims ChannelStore ChannelTrips.

Open Scope Z_scope.

#[local] Arguments calc_cls_size : simpl never.

Section send_by.
Variable push : msg_t -> chan -> bool * chan.

Fixpoint push_frags_by (n : nat) (me id size offset : Z) (data : str) (c : chan) : bool * Z * chan :=
  match n with
  | O => (true, offset, c)
  | S n =>
      let m := new_msg me id (i32 (size - offset - data_length)) (Frag (take (Z.to_nat data_length) (drop (Z.to_nat offset) data))) in
      match push m c with
      | (false, c) => (false, offset, c)
      | (true, c) => push_frags_by n me id size (offset + data_length) data c
      end
  end.

Definition send_frags_by (me id : Z) (data : str) (c : chan) : bool * chan :=
  let size := Z.of_nat (length data) in
  match push_frags_by (Z.to_nat (size / data_length)) me id size 0 data c with
  | (false, _, c) => (false, c)
  | (true, offset, c) =>
      let remain := size - offset in
      if 0 <? remain then push (new_msg me id (i32 (remain - data_length)) (Frag (take (Z.to_nat remain) (drop (Z.to_nat offset) data)))) c
      else (true, c)
  end.

Definition send_by (i : conn_info) (data : str) (c : chan) : res (bool * conn_info * chan) :=
  if decide (data = []) then Ok (false, i, c)
  else
    let '(_, i) := ready_sending i in
    if cc_ c =? 0 then Ok (false, i, c)
    else
      let msg_id := acc_ c in
      let c := set_acc (u32 (acc_ c + 1)) c in
      let size := Z.of_nat (length data) in
      if large_msg_limit <? size then
        r ← apply_storage (cc_ c) size (ch_store c);
        match r with
        | (Some id, st) =>
            let c := set_store (fill_storage id data st) c in
            let '(b, c) := push (new_msg (cc_id_ i) msg_id (i32 (size - data_length)) (Stored id)) c in
            Ok (b, i, c)
        | (None, st) => let '(b, c) := send_frags_by (cc_id_ i) msg_id data (set_store st c) in Ok (b, i, c)
        end
      else let '(b, c) := send_frags_by (cc_id_ i) msg_id data c in Ok (b, i, c).

(** Packets one after the other, until one is refused. *)
Fixpoint push_all (ms : list msg_t) (c : chan) : bool * chan :=
  match ms with
  | [] => (true, c)
  | m :: ms => match push m c with (false, c) => (false, c) | (true, c) => push_all ms c end
  end.

Lemma push_all_app ms1 ms2 c : push_all (ms1 ++ ms2) c = let '(b, c1) := push_all ms1 c in if b then push_all ms2 c1 else (false, c1).
Proof. revert c. induction ms1 as [|m ms1 IH]; intros c; [done|]. cbn. destruct (push m c) as [[] c1]; [apply IH|done]. Qed.

Lemma push_frags_all me id data n k c : (64 * (k + n) <= length data)%nat ->
  let '(b, c') := push_all (packet me id data <$> seq k n) c in
  exists off, push_frags_by n me id (Z.of_nat (length data)) (Z.of_nat (64 * k)) data c = (b, off, c') /\ (b = true -> off = Z.of_nat (64 * (k + n))).
Proof.
  revert k c. induction n as [|n IH]; intros k c Hn; cbn [push_frags_by seq fmap list_fmap push_all].
  { eexists. split; [done|]. intros _. f_equal. lia. }
  assert (new_msg me id (i32 (Z.of_nat (length data) - Z.of_nat (64 * k) - data_length)) (Frag (take (Z.to_nat data_length) (drop (Z.to_nat (Z.of_nat (64 * k))) data))) =
    packet me id data k) as -> by (unfold packet; rewrite Nat2Z.id; f_equal; f_equal; unfold data_length; lia).
  destruct (push (packet me id data k) c) as [[] c1]; [|by eexists].
  replace (Z.of_nat (64 * k) + data_length) with (Z.of_nat (64 * S k)) by (unfold data_length; lia).
  specialize (IH (S k) c1 ltac:(lia)). destruct (push_all _ c1) as [b c2]. destruct IH as (off & E & Hoff). exists off. split; [done|]. intros Hb. rewrite Hoff by done. f_equal. lia.
Qed.

(** A message in fragments is its packets. *)
Lemma send_frags_all me id data c : send_frags_by me id data c = push_all (packets me id data) c.
Proof.
  unfold send_frags_by, packets, n_packets. set (sz := length data).
  assert (Z.to_nat (Z.of_nat sz / data_length) = Nat.div sz 64) as -> by (unfold data_length; change 64 with (Z.of_nat 64); by rewrite <- Nat2Z.inj_div, Nat2Z.id).
  pose proof (Nat.div_mod_eq sz 64). pose proof (Nat.mod_upper_bound sz 64 ltac:(lia)).
  pose proof (Nat.div_mod_eq (sz + 63) 64). pose proof (Nat.mod_upper_bound (sz + 63) 64 ltac:(lia)).
  pose proof (push_frags_all me id data (sz / 64) 0 c ltac:(fold sz; lia)) as Hp. fold sz in Hp. change (Z.of_nat (64 * 0)) with 0 in Hp.
  destruct (decide (sz mod 64 = 0)%nat) as [Hz|Hz].
  - assert ((sz + 63) / 64 = sz / 64)%nat as -> by lia. destruct (push_all _ c) as [[] c1], Hp as (off & -> & Hoff); [|done]. rewrite Hoff by done.
    destruct (Z.ltb_spec 0 (Z.of_nat sz - Z.of_nat (64 * (0 + sz / 64)))); [lia|done].
  - assert ((sz + 63) / 64 = S (sz / 64))%nat as -> by lia. rewrite seq_S, fmap_app, push_all_app. destruct (push_all _ c) as [[] c1], Hp as (off & -> & Hoff); [|done]. rewrite Hoff by done.
    destruct (Z.ltb_spec 0 (Z.of_nat sz - Z.of_nat (64 * (0 + sz / 64)))); [|lia]. rewrite Nat.add_0_l. cbn [fmap list_fmap push_all].
    assert (new_msg me id (i32 (Z.of_nat sz - Z.of_nat (64 * (sz / 64)) - data_length)) (Frag (take (Z.to_nat (Z.of_nat sz - Z.of_nat (64 * (sz / 64)))) (drop (Z.to_nat (Z.of_nat (64 * (sz / 64)))) data))) =
      packet me id data (sz / 64)) as ->; [|by destruct (push _ c1) as [[] ?]].
    unfold packet. fold sz. rewrite Nat2Z.id. f_equal; [f_equal; unfold data_length; lia|]. f_equal. rewrite !take_ge; [done|rewrite length_drop; fold sz; lia..].
Qed.
End send_by.

(** [send] is this, with the push that forces. *)
Lemma chan_send_by i data c : chan_send i data c = send_by try_push i data c.
Proof.
  assert (forall n me id size offset c, push_frags n me id size offset data c = push_frags_by try_push n me id size offset data c) as Hf.
  { induction n as [|n IH]; intros; [done|]. cbn. destruct (try_push _ c0) as [[] ?]; [apply IH|done]. }
  assert (forall me id c, send_frags me id data c = send_frags_by try_push me id data c) as Hs by (intros; unfold send_frags, send_frags_by; by rewrite Hf).
  unfold chan_send, send_by. case_decide; [done|]. cbn [ready_sending]. destruct (cc_ c =? 0); [done|]. destruct (large_msg_limit <? _); [|by rewrite Hs].
  destruct (apply_storage _ _ _) as [[[id|] st]|]; cbn [mbind res_bind]; [done| |done]. by rewrite Hs.
Qed.

(** ** [try_send] and [try_recv]

    The push of [try_send] gives up when there is no room for as long as the
    time-out; [try_recv] receives with a time-out of zero. *)
Definition push_only (m : msg_t) (c : chan) : bool * chan :=
  if decide (length (que_ c) < ring_room)%nat then (true, set_que (que_ c ++ [m]) c) else (false, c).
Definition chan_try_send : conn_info -> str -> chan -> res (bool * conn_info * chan) := send_by push_only.
Definition chan_try_recv : ascii -> conn_info -> chan -> option buff_t * conn_info * chan := chan_recv.

(** A push that fits is the same in both. *)
Lemma push_all_only ms c : (length (que_ c) <= ring_room)%nat ->
  push_all push_only ms c = (bool_decide (length (que_ c) + length ms <= ring_room)%nat, set_que (que_ c ++ take (ring_room - length (que_ c)) ms) c).
Proof.
  revert c. induction ms as [|m ms IH]; intros c Hc; cbn [push_all length].
  - rewrite take_nil, app_nil_r, bool_decide_true by lia. by destruct c.
  - unfold push_only at 1. destruct (decide (length (que_ c) < ring_room)%nat) as [Hlt|Hge].
    + rewrite IH by (cbn [set_que que_]; rewrite length_app; simpl; lia). destruct c as [q x y z]. cbn [set_que que_ cc_ acc_ ch_store] in *. unfold set_que. cbn [que_ cc_ acc_ ch_store].
      rewrite length_app. cbn [length]. rewrite <- app_assoc. replace (ring_room - length q)%nat with (S (ring_room - (length q + 1))) by lia. cbn [take app].
      f_equal. apply bool_decide_ext. lia.
    + rewrite bool_decide_false by lia. replace (ring_room - length (que_ c))%nat with 0%nat by lia. cbn [take]. rewrite app_nil_r. by destruct c.
Qed.

(** What [try_send] does, whatever the room: the packets that fit go into the
    ring. A message that was put in a block keeps it. *)
Lemma try_send_exact i data c live : (0 < length data)%nat -> cc_ c = 1 -> store_ok (ch_store c) live -> (length (que_ c) <= ring_room)%nat ->
  exists s i' c', sending_data s = data /\ is_block s = takes_block (length (held (cls_of data) live)) data /\
    chan_try_send i data c = Ok (bool_decide (length (que_ c) + cost (is_block s) data <= ring_room)%nat, i', c') /\ cc_id_ i' = cc_id_ i /\
    que_ c' = que_ c ++ take (ring_room - length (que_ c)) (sent_packets (cc_id_ i) (acc_ c) s) /\ cc_ c' = 1 /\ acc_ c' = u32 (acc_ c + 1) /\
    store_ok (ch_store c') (s_live s ++ live) /\ block_ok s.
Proof.
  intros Hpos Hcc Hok Hq. unfold chan_try_send, send_by. rewrite decide_False by (intros ->; simpl in Hpos; lia). cbn [ready_sending]. rewrite Hcc. cbn [Z.eqb].
  destruct (Z.ltb_spec large_msg_limit (Z.of_nat (length data))) as [Hbig|Hsmall]; unfold large_msg_limit, data_length in *.
  - cbn [set_acc cc_ ch_store]. rewrite Hcc. destruct (put_block_exact data _ _ Hok) as (r & st' & E & Hr). unfold put_block in E.
    assert (takes_block (length (held (cls_of data) live)) data = bool_decide (length (held (cls_of data) live) < Z.to_nat max_count)%nat) as ->
      by (unfold takes_block; by rewrite (bool_decide_true (64 < length data)%nat) by lia).
    destruct (apply_storage 1 (Z.of_nat (length data)) (ch_store c)) as [[[id|] st1]|]; [| |done]; injection E as <- <-; cbn [mbind res_bind].
    + destruct Hr as (Hid & Hok' & Hlt). rewrite bool_decide_true by done.
      pose proof (push_all_only [new_msg (cc_id_ i) (acc_ c) (i32 (Z.of_nat (length data) - 64)) (Stored id)] (set_store (fill_storage id data st1) (set_acc (u32 (acc_ c + 1)) c)) Hq) as Hp.
      cbn [push_all cc_id_] in Hp |- *. destruct (push_only _ _) as [b1 c1]. assert (b1 = bool_decide (length (que_ c) + 1 <= ring_room)%nat /\ c1 = set_que (que_ c ++ take (ring_room - length (que_ c)) [new_msg (cc_id_ i) (acc_ c) (i32 (Z.of_nat (length data) - 64)) (Stored id)]) (set_store (fill_storage id data st1) (set_acc (u32 (acc_ c + 1)) c))) as [-> ->]
        by (destruct b1; by injection Hp).
      eexists (Block id data), _, _. repeat (split; [done|]). lia.
    + destruct Hr as [Hok' Hge]. rewrite bool_decide_false by done. rewrite send_frags_all, push_all_only by done. eexists (Whole data), _, _. split; [done|]. split; [done|].
      split; [unfold packets; by rewrite length_fmap, length_seq|]. by repeat (split; [done|]).
  - assert (takes_block (length (held (cls_of data) live)) data = false) as -> by (unfold takes_block; by rewrite (bool_decide_false (64 < length data)%nat) by lia).
    rewrite send_frags_all, push_all_only by done. eexists (Whole data), _, _. split; [done|]. split; [done|].
    split; [unfold packets; by rewrite length_fmap, length_seq|]. by repeat (split; [done|]).
Qed.

(** * A channel of short messages *)
Definition short (data : str) : Prop := (length data <= 64)%nat.
Lemma short_packets data : (0 < length data)%nat -> short data -> n_packets data = 1%nat.
Proof. unfold short. intros. pose proof (n_packets_bounds data). lia. Qed.
Lemma short_block used data : short data -> takes_block used data = false.
Proof. unfold short, takes_block. intros. by rewrite bool_decide_false by lia. Qed.

Lemma try_send_short i data c : (0 < length data)%nat -> short data -> (length (que_ c) < ring_room)%nat -> chan_try_send i data c = chan_send i data c.
Proof.
  intros Hpos Hs Hq. rewrite chan_send_by. unfold chan_try_send, send_by. case_decide; [done|]. cbn [ready_sending]. destruct (cc_ c =? 0); [done|].
  destruct (Z.ltb_spec large_msg_limit (Z.of_nat (length data))) as [Hbig|_]; [unfold large_msg_limit, data_length, short in *; lia|]. rewrite !send_frags_all.
  unfold packets. rewrite short_packets by done. cbn [seq fmap list_fmap push_all]. unfold push_only, try_push. cbn [set_acc que_]. by rewrite !decide_True.
Qed.

Definition try_step (junk : ascii) (s : channel) (op : fifo_op) : res (channel * list fifo_answer) :=
  let '(mk_channel ss r c) := s in
  match op with
  | FSend k data =>
      match ss !! k with
      | None => Ok (s, [])
      | Some i => x ← chan_try_send i data c; let '(b, i, c) := x in Ok (mk_channel (<[k := i]> ss) r c, [ASent b])
      end
  | FRecv =>
      let '(b, r, c) := chan_try_recv junk r c in
      match b with
      | None => Ok (mk_channel ss r c, [AGot None])
      | Some b => st ← destroy_buff b (ch_store c); Ok (mk_channel ss r (set_store st c), [AGot (Some (buff_bytes (ch_store c) b))])
      end
  end.
Fixpoint try_run (junk : ascii) (s : channel) (ops : list fifo_op) : res (channel * list fifo_answer) :=
  match ops with
  | [] => Ok (s, [])
  | op :: ops =>
      x ← try_step junk s op;
      let '(s, a) := x in
      x ← try_run junk s ops;
      let '(s, l) := x in Ok (s, a ++ l)
  end.

(** The specification: a queue of at most 255 messages, none of them empty. *)
Fixpoint bounded_run (n : nat) (pending : list str) (ops : list fifo_op) : list fifo_answer :=
  match ops with
  | [] => []
  | FSend k data :: ops =>
      if decide (k < n)%nat then
        if decide (0 < length data /\ length pending < ring_room)%nat then ASent true :: bounded_run n (pending ++ [data]) ops
        else ASent false :: bounded_run n pending ops
      else bounded_run n pending ops
  | FRecv :: ops => AGot (head pending) :: bounded_run n (tail pending) ops
  end.

(** Every message on its way is one packet. *)
Definition one_each (ws : list on_way) : Prop := forall w, w ∈ ws -> is_block (w_sent w) = false /\ (0 < length (w_data w))%nat /\ short (w_data w).
Lemma one_each_cost ws : one_each ws -> total_cost (w_info <$> ws) = length ws.
Proof.
  induction ws as [|w ws IH]; intros Hs; [done|]. change (cost (is_block (w_sent w)) (w_data w) + total_cost (w_info <$> ws) = S (length ws))%nat.
  rewrite IH by (intros w' Hw'; apply Hs; by right). destruct (Hs w) as (-> & ? & ?); [by left|]. cbn [cost]. by rewrite short_packets.
Qed.

Lemma one_each_live ws : one_each ws -> w_live ws = [].
Proof.
  induction ws as [|w ws IH]; intros Hs; [done|]. unfold w_live. cbn [fmap list_fmap concat]. fold (w_live ws). rewrite IH by (intros w' Hw'; apply Hs; by right).
  destruct (Hs w) as (Hb & _); [by left|]. by destruct (w_sent w).
Qed.

Lemma try_send_step junk live s ws k i data : channel_ok live s ws -> one_each ws -> (length ws <= ring_room)%nat -> f_senders s !! k = Some i -> short data ->
  exists s' ws', try_step junk s (FSend k data) = Ok (s', [ASent (bool_decide (0 < length data /\ length ws < ring_room)%nat)]) /\ channel_ok live s' ws' /\ one_each ws' /\
    w_data <$> ws' = (w_data <$> ws) ++ (if decide (0 < length data /\ length ws < ring_room)%nat then [data] else []) /\ length (f_senders s') = length (f_senders s).
Proof.
  intros Hok Hone Hlen Hk Hs. pose proof (one_each_cost ws Hone) as Hcost. pose proof (queued_packets ws) as Hpk. rewrite <- (co_que _ _ _ Hok), Hcost in Hpk.
  destruct (decide (0 < length data /\ length ws < ring_room)%nat) as [[Hpos Hroom]|Hno].
  - destruct (fifo_send_ok junk live s ws k i data Hok Hk) as (s' & w & E & Hok' & Hinfo & Hn); [done|unfold short in Hs; lia| |].
    { unfold next_block. rewrite short_block, Hcost by done. cbn [cost]. rewrite short_packets by done. lia. }
    unfold next_block in Hinfo. rewrite short_block in Hinfo by done. injection Hinfo as Hb Hd. exists s', (ws ++ [w]). rewrite bool_decide_true by done. split; [|split; [done|split; [|split; [by rewrite fmap_app, <- Hd|done]]]].
    + rewrite <- E. destruct s as [ss r c]. cbn [try_step fifo_step f_senders f_chan] in *. rewrite Hk. rewrite try_send_short; [done..|lia].
    + intros w' [Hw'|Hw'%list_elem_of_singleton]%elem_of_app; [by apply Hone|]. subst w'. by rewrite Hd.
  - rewrite bool_decide_false, app_nil_r by done. destruct s as [ss r c]. cbn [try_step f_senders f_chan f_recv] in *. rewrite Hk. destruct data as [|x data].
    + unfold chan_try_send, send_by. rewrite decide_True by done. cbn [mbind res_bind]. rewrite list_insert_id by done. by exists (mk_channel ss r c), ws.
    + destruct Hok as [Hq Hw Hst Hcc Hr Hss]. cbn [f_senders f_chan f_recv] in *. destruct (try_send_exact i (x :: data) c (w_live ws ++ live)) as (sn & i' & c' & Hd & Hb & -> & Hid & Hq' & Hcc' & _ & Hst' & _); [simpl; lia|done..|lia|].
      rewrite short_block in Hb by done. rewrite Hb. cbn [cost mbind res_bind]. rewrite short_packets by (done || simpl; lia).
      assert (length (que_ c) = ring_room) as Hfull. { destruct (decide (length ws < ring_room)%nat); [|lia]. destruct Hno. split; [simpl; lia|done]. }
      rewrite bool_decide_false by lia. exists (mk_channel (<[k := i']> ss) r c'), ws. split; [done|]. split; [|split; [done|split; [done|apply length_insert]]].
      split; cbn [f_senders f_chan f_recv]; try done.
      * rewrite Hq', Hfull, Nat.sub_diag. cbn [take]. by rewrite app_nil_r.
      * by destruct sn.
      * intros j [m Hm]%list_elem_of_lookup. apply list_lookup_insert_Some in Hm as [(_ & <- & _)|(_ & Hm)]; [rewrite Hid; by eapply Hss, list_elem_of_lookup_2|by eapply Hss, list_elem_of_lookup_2].
Qed.

Lemma try_run_ok junk live ops s ws : channel_ok live s ws -> one_each ws -> (length ws <= ring_room)%nat -> Forall (fun op => match op with FSend _ data => short data | FRecv => True end) ops ->
  exists s' ws', try_run junk s ops = Ok (s', bounded_run (length (f_senders s)) (w_data <$> ws) ops) /\ channel_ok live s' ws' /\ one_each ws'.
Proof.
  intros Hok Hone Hlen Hs. revert s ws Hok Hone Hlen. induction Hs as [|op ops Hop _ IH]; intros s ws Hok Hone Hlen; [by exists s, ws|]. cbn [try_run]. destruct op as [k data|]; cbn [bounded_run].
  - case_decide as Hk.
    + destruct (lookup_lt_is_Some_2 _ _ Hk) as [i Hi]. destruct (try_send_step junk live s ws k i data Hok Hone Hlen Hi Hop) as (s1 & ws1 & -> & Hok1 & Hone1 & Hd & Hn). cbn [mbind res_bind].
      assert (length ws1 <= ring_room)%nat as Hlen1.
      { apply (f_equal length) in Hd. rewrite length_app, !length_fmap in Hd. destruct (decide _) as [[? ?]|?]; simpl in Hd; lia. }
      destruct (IH s1 ws1 Hok1 Hone1 Hlen1) as (s2 & ws2 & -> & Hok2). cbn [mbind res_bind]. exists s2, ws2. split; [|done]. rewrite Hn, Hd. rewrite length_fmap.
      case_decide; [by rewrite bool_decide_true|by rewrite bool_decide_false, app_nil_r].
    + assert (try_step junk s (FSend k data) = Ok (s, [])) as ->.
      { destruct s as [ss r c]. cbn [try_step f_senders] in *. by rewrite lookup_ge_None_2 by lia. }
      cbn [mbind res_bind]. destruct (IH s ws Hok Hone Hlen) as (s2 & ws2 & -> & Hok2). by exists s2, ws2.
  - destruct (fifo_recv_ok junk live s ws Hok) as (s1 & E & Hok1 & Hn). change (try_step junk s FRecv) with (fifo_step junk s FRecv). rewrite E. cbn [mbind res_bind].
    destruct (IH s1 (tail ws) Hok1) as (s2 & ws2 & -> & Hok2); [intros w Hw; apply Hone; destruct ws; [done|by right]|destruct ws; simpl in *; lia|]. cbn [mbind res_bind].
    exists s2, ws2. rewrite Hn. by destruct ws.
Qed.

(** C26: with [try_send] a channel of short messages is a bounded queue. Over a
    channel with its receiver connected and an empty ring, in any history of
    [try_send] of messages of up to 64 bytes by any number of senders and of
    [try_recv], however full the ring becomes: a send fails exactly when the
    message is empty or 255 messages wait, and a receive returns the oldest
    message that was sent and not received; no history disconnects the receiver. *)
Theorem try_channel_is_bounded_queue (junk : ascii) (live : list live_block) (s : channel) (ops : list fifo_op) :
  channel_ok live s [] -> Forall (fun op => match op with FSend _ data => short data | FRecv => True end) ops ->
  exists s', try_run junk s ops = Ok (s', bounded_run (length (f_senders s)) [] ops) /\ cc_ (f_chan s') = 1 /\ store_ok (ch_store (f_chan s')) live.
Proof.
  intros Hok Hs. destruct (try_run_ok junk live ops s [] Hok) as (s' & ws' & E & Hok' & Hone'); [by intros w Hw%elem_of_nil|simpl; lia|done|]. exists s'. split; [exact E|].
  split; [apply Hok'|]. pose proof (co_store _ _ _ Hok') as Hst. by rewrite one_each_live in Hst.
Qed.

(** Two senders fill the ring and one message is refused; then there is room
    again. *)
Definition try_history : list fifo_op :=
  replicate 254 (FSend 0 (lit "x")) ++ [FSend 1 (lit "last"); FSend 0 (lit "full"); FRecv; FSend 0 []; FSend 1 (lit "room"); FSend 0 (lit "full")].
Lemma try_channel_is_bounded_queue_witness :
  exists s', try_run "z" demo_channel try_history =
      Ok (s', replicate 254 (ASent true) ++ [ASent true; ASent false; AGot (Some (lit "x")); ASent false; ASent true; ASent false]) /\
    cc_ (f_chan s') = 1 /\ store_ok (ch_store (f_chan s')) [].
Proof.
  apply (try_channel_is_bounded_queue "z" [] demo_channel try_history).
  - apply demo_channel_ok.
  - apply Forall_app. split; [apply Forall_replicate; unfold short; simpl; lia|]. repeat constructor; unfold short; simpl; lia.
Defined.

(** A large message that finds the ring full was given its block before: the
    block is not given back, nothing in the ring names it, and after 32 refused
    messages of a size there are no blocks of that size any more. *)
Fixpoint try_sends (n : nat) (i : conn_info) (data : str) (c : chan) : res (list bool * chan) :=
  match n with
  | O => Ok ([], c)
  | S n => x ← chan_try_send i data c; let '(b, i, c) := x in y ← try_sends n i data c; Ok (b :: y.1, y.2)
  end.
Lemma refused_message_keeps_block :
  match try_sends 32 (conn_new 1) (replicate 100 "a"%char) full_chan with
  | Ok (bs, c) => bs = replicate 32 false /\ que_ c = que_ full_chan /\
      match apply_storage 1 100 (ch_store full_chan), apply_storage 1 100 (ch_store c) with Ok (x, _), Ok (y, _) => x = Some 0 /\ y = None | _, _ => False end
  | Fault _ => False
  end.
Proof. vm_compute. done. Qed.

(** Then messages of that size go in fragments, and one that is refused half way
    leaves its first packets to the receiver, which keeps them. *)
Definition nearly_full : chan := mk_chan (replicate 254 (new_msg 1 0 (-63) (Frag (lit "x")))) 1 254 ∅.
Lemma refused_message_leaves_fragments :
  match send_frags_by push_only 1 300 (replicate 100 "a"%char) nearly_full with
  | (b, c) => b = false /\ length (que_ c) = 255%nat /\ recv_loop "z" 7 ∅ ∅ (drop 254 (que_ c)) =
      (None, {[300 := mk_cache_t 64 (replicate 64 "a"%char ++ replicate 36 "z"%char)]}, [])
  end.
Proof. vm_compute. done. Qed.
