(* ===== verification/Conversation.v ===== *)
(** A scheduler and an executor over their channels: the call goes out through the
    executor's channel, the executor runs it, and its reports and requests come
    back through the channel all executors share ([src/executor/executor_server.cpp],
    [src/scheduler/scheduler_server.cpp], [shm-ipc/include/libipc/ipc.h]). *)
From stdpp Require Import prelude gmap strings list.
From Stdlib Require Import ZArith Lia Ascii.
From S2P Require Import Prelude Cpp Common Trigger Sched SchedLoop Executor Wire Channel ChannelClaims ChannelStore ChannelTrips.

Open Scope Z_scope.

(** [send(std::string)]: the characters and the zero behind them; whoever
    receives it reads it as a C string, or by its bytes. *)
Definition send_string (k : nat) (s : str) : fifo_op := FSend k (s ++ [nul]).
Definition as_string (m : str) : str := take (length m - 1) m.

Lemma as_string_app s : as_string (s ++ [nul]) = s.
Proof. unfold as_string. rewrite length_app. replace (length s + length [nul] - 1)%nat with (length s) by (simpl; lia). apply take_app_length. Qed.

(** All channels take their blocks from one store. *)
Definition with_store_of (a b : channel) : channel := mk_channel (f_senders b) (f_recv b) (set_store (ch_store (f_chan a)) (f_chan b)).

Section conversation.
Context (can_load : str -> bool) (user_function : str -> list arg_value -> UserLibrary -> UserLibrary * list str) (thread_id : Z).
Context (junk : ascii).

(** One iteration of the executor, [k] being its place among the senders of the
    shared channel: what it receives, does and sends. *)
Definition executor_turn (k : nat) (now report_start : Z) (x : executor) (local shared : channel)
    : res (executor * Z * channel * channel * list fifo_answer) :=
  r ← fifo_step junk local FRecv;
  let '(local, got) := r in
  let msg := match got with [AGot (Some m)] => Some (as_string m) | _ => None end in
  r ← executor_iteration can_load user_function thread_id now report_start x msg;
  let '(x, report_start, outs) := r in
  r ← fifo_run junk (with_store_of local shared) (send_string k <$> outs);
  let '(shared, sent) := r in
  Ok (x, report_start, with_store_of shared local, shared, sent).

Lemma with_store_ok live a b : channel_ok live a [] -> channel_ok live b [] -> channel_ok live (with_store_of a b) [].
Proof. by intros [Hqa _ Hsta _ _ _] [Hq Hw Hst Hcc Hr Hss]. Qed.

Lemma queue_sends n k outs pending : (k < n)%nat ->
  queue_run n pending (send_string k <$> outs) = (replicate (length outs) (ASent true), pending ++ ((fun o => o ++ [nul]) <$> outs)).
Proof.
  intros Hk. revert pending. induction outs as [|o outs IH]; intros pending; cbn [fmap list_fmap queue_run send_string length replicate].
  - by rewrite app_nil_r.
  - rewrite decide_True by done. rewrite IH. by rewrite <- app_assoc.
Qed.
Lemma queue_receives n pending : queue_run n pending (replicate (length pending) FRecv) = ((fun m => AGot (Some m)) <$> pending, []).
Proof. induction pending as [|m pending IH]; [done|]. cbn [length replicate queue_run tail head]. by rewrite IH. Qed.
Lemma roomy_receives live n pending m : roomy live n pending (replicate m FRecv).
Proof. revert pending. induction m as [|m IH]; intros pending; [done|]. cbn [replicate roomy]. apply IH. Qed.

(** Its messages, when it runs a call by value. *)
Definition call_outs (x : executor) (session func : str) (args : list str) (resp : str) : list str :=
  let u := call_lib x session func (if decide (resp = []) then 1 else 2) ((fun a => Z.of_nat (length a)) <$> args) in
  status_msg thread_id true :: (user_function func (Plain <$> args) u).2 ++ [status_msg thread_id false].

Lemma iteration_call now report_start x session func args resp :
  Forall clean (session :: func :: args) -> last (session :: func :: args) <> Some [] -> func ∈ x_loaded x \/ can_load func = true ->
  Z.quot (now - report_start) ms < ExecutorTimerThreshold ->
  exists x', executor_iteration can_load user_function thread_id now report_start x (Some (call_msg session func args 0 resp)) =
    Ok (x', report_start, call_outs x session func args resp).
Proof.
  intros Hclean Hlast Hload Hnow. unfold executor_iteration. assert (byte_at (call_msg session func args 0 resp) 0 = Ok 1) as -> by done.
  cbn [mbind res_bind Z.eqb]. change (1 =? 1) with true. cbv iota.
  pose proof (call_by_value_executed can_load user_function thread_id x session func args resp Hclean Hlast Hload) as E. cbv zeta in E. rewrite E.
  cbn [mbind res_bind]. apply Z.leb_gt in Hnow. rewrite Hnow. cbn [andb]. by eexists.
Qed.
End conversation.

(** C6: a call reaches its function and its results come back. Between a scheduler
    and an executor whose channels are connected, empty and have room: a call by
    value that the scheduler sends is received by the executor's next iteration,
    which runs it once; and the scheduler receives exactly the report that the
    executor is busy, what the function sent, in order, and the report that it is
    available, whatever of this went in packets and what in blocks. *)
Theorem call_answered_over_channels (can_load : str -> bool)
    (user_function : str -> list arg_value -> UserLibrary -> UserLibrary * list str)
    (thread_id : Z) (junk : ascii) (live : list live_block) (local shared : channel) (k : nat)
    (x : executor) (now report_start : Z) (session func : str) (args : list str) (resp : str) :
  channel_ok live local [] -> channel_ok live shared [] -> (0 < length (f_senders local))%nat -> (k < length (f_senders shared))%nat ->
  Forall clean (session :: func :: args) -> last (session :: func :: args) <> Some [] -> func ∈ x_loaded x \/ can_load func = true ->
  Z.quot (now - report_start) ms < ExecutorTimerThreshold ->
  let call := call_msg session func args 0 resp in
  let outs := call_outs user_function thread_id x session func args resp in
  roomy live (length (f_senders local)) [] [send_string 0 call] -> roomy live (length (f_senders shared)) [] (send_string k <$> outs) ->
  exists local1 x' local2 shared2 shared3,
    fifo_run junk local [send_string 0 call] = Ok (local1, [ASent true]) /\
    executor_turn can_load user_function thread_id junk k now report_start x local1 shared =
      Ok (x', report_start, local2, shared2, replicate (length outs) (ASent true)) /\
    fifo_run junk shared2 (replicate (length outs) FRecv) = Ok (shared3, (fun o => AGot (Some (o ++ [nul]))) <$> outs).
Proof.
  intros Hloc Hsh Hk0 Hk Hclean Hlast Hload Hnow call outs Hroom1 Hroom2.
  destruct (fifo_run_ok junk live [send_string 0 call] local [] Hloc Hroom1) as (local1 & ws1 & E1 & Hloc1 & Hws1 & Hn1).
  cbn [fmap list_fmap queue_run send_string] in E1, Hws1. rewrite decide_True in E1, Hws1 by done. cbn [app fst snd] in E1, Hws1.
  destruct (fifo_recv_ok junk live local1 ws1 Hloc1) as (local2 & E2 & Hloc2 & Hn2). rewrite Hws1 in E2. cbn [head] in E2.
  assert (tail ws1 = []) as Et by (destruct ws1 as [|w [|]]; done). rewrite Et in Hloc2.
  destruct (iteration_call can_load user_function thread_id now report_start x session func args resp) as (x' & Ex); [done..|].
  pose proof (with_store_ok live local2 shared Hloc2 Hsh) as Hsh1.
  destruct (fifo_run_ok junk live (send_string k <$> outs) (with_store_of local2 shared) [] Hsh1 Hroom2) as (shared2 & ws2 & E3 & Hsh2 & Hws2 & Hn3).
  cbn [fmap list_fmap with_store_of f_senders] in E3, Hws2. rewrite queue_sends in E3, Hws2 by done. cbn [app fst snd] in E3, Hws2.
  destruct (fifo_run_ok junk live (replicate (length outs) FRecv) shared2 ws2 Hsh2) as (shared3 & ws3 & E4 & _); [apply roomy_receives|].
  rewrite Hws2 in E4. rewrite <- (length_fmap (fun o : str => o ++ [nul]) outs), queue_receives in E4. cbn [fst] in E4. rewrite length_fmap in E4.
  exists local1, x', (with_store_of shared2 local2), shared2, shared3. split; [done|]. split.
  - unfold executor_turn. rewrite E2. cbn [mbind res_bind]. rewrite as_string_app. fold call in Ex. rewrite Ex. cbn [mbind res_bind]. fold outs. rewrite E3. done.
  - rewrite E4. by rewrite <- list_fmap_compose.
Qed.

Definition demo_function (f : str) (args : list arg_value) (u : UserLibrary) : UserLibrary * list str := (u, [f; replicate 100 "o"%char]).
Definition demo_executor : executor := mk_executor (UserLibrary_new (lit "10.0.0.2") 3) ∅.
Lemma call_answered_over_channels_witness : exists local1 x' local2 shared2 shared3,
  fifo_run "z" demo_channel [send_string 0 (call_msg (lit "0123456789abcdef") (lit "f") [lit "x"; replicate 70 "y"%char] 0 [])] = Ok (local1, [ASent true]) /\
  executor_turn (fun _ => true) demo_function 3 "z" 1 5000000 0 demo_executor local1 demo_channel = Ok (x', 0, local2, shared2, replicate 4 (ASent true)) /\
  fifo_run "z" shared2 (replicate 4 FRecv) =
    Ok (shared3, (fun o => AGot (Some (o ++ [nul]))) <$> [status_msg 3 true; lit "f"; replicate 100 "o"%char; status_msg 3 false]).
Proof.
  apply (call_answered_over_channels (fun _ => true) demo_function 3 "z" [] demo_channel demo_channel 1 demo_executor 5000000 0
    (lit "0123456789abcdef") (lit "f") [lit "x"; replicate 70 "y"%char] []).
  - apply demo_channel_ok.
  - apply demo_channel_ok.
  - vm_compute. lia.
  - vm_compute. lia.
  - apply (bool_decide_unpack _). vm_compute. reflexivity.
  - discriminate.
  - by right.
  - reflexivity.
  - vm_compute. repeat split; lia.
  - vm_compute. repeat split; lia.
Defined.
