(* ===== verification/Shm.v ===== *)
(** Shared memory objects ([shm-ipc/src/libipc/platform/shm_linux.cpp],
    [shm-ipc/src/shm.cpp], [include/libipc/shm.h]): the objects that executors
    and schedulers exchange, and the memory of every channel. An object is a file
    with a count of its users behind the data.

    Of the operating system the model has what the code calls: files under names,
    which are created empty, grow with zeros, and live on without a name for
    those that have them open. Memory is granted whenever it is asked for. *)
From stdpp Require Import prelude gmap list strings.
From Stdlib Require Import ZArith Lia Ascii.
From S2P Require Import Prelude Cpp.

Open Scope Z_scope.

(** * Files *)
Record fs := mk_fs { fs_names : gmap str nat; fs_files : gmap nat str; fs_next : nat }.
Definition fs_empty : fs := mk_fs ∅ ∅ 0.

Definition file (i : nat) (f : fs) : str := at_or [] i (fs_files f).
Definition set_file (i : nat) (bytes : str) (f : fs) : fs := mk_fs (fs_names f) (<[i := bytes]> (fs_files f)) (fs_next f).

(** [shm_open]: the flags are [O_CREAT] and [O_EXCL]. *)
Definition sys_open (name : str) (creat excl : bool) (f : fs) : option nat * fs :=
  match fs_names f !! name with
  | Some i => if creat && excl then (None, f) else (Some i, f)
  | None =>
      if creat then (Some (fs_next f), mk_fs (<[name := fs_next f]> (fs_names f)) (<[fs_next f := []]> (fs_files f)) (S (fs_next f)))
      else (None, f)
  end.
Definition sys_unlink (name : str) (f : fs) : fs := mk_fs (delete name (fs_names f)) (fs_files f) (fs_next f).
Definition ftruncate (i : nat) (n : Z) (f : fs) : fs :=
  set_file i (take (Z.to_nat n) (file i f) ++ replicate (Z.to_nat n - length (file i f)) nul) f.

(** * shm_linux.cpp *)
Definition sizeof_info : Z := 8.
Definition shm_create : Z := 1.
Definition shm_open : Z := 2.

Record id_info := mk_id_info { ii_fd : option nat; ii_mem : option nat; ii_size : Z; ii_name : str }.

Definition calc_size (size : Z) : Z := u64 ((u64 (size - 1) / sizeof_info + 1) * sizeof_info + sizeof_info).

(** The count of users, in the last bytes of the memory as it was mapped. The
    part of it that is not in the file any more cannot be accessed. *)
Definition acc_of (i : nat) (size : Z) (f : fs) : res Z :=
  if size <=? Z.of_nat (length (file i f))
  then Ok (of_le_bytes (take 8 (drop (Z.to_nat (size - sizeof_info)) (file i f))))
  else Fault IndexPastEnd.
(** [fetch_add]; the old value is returned. *)
Definition add_acc (i : nat) (size d : Z) (f : fs) : res (Z * fs) :=
  x ← acc_of i size f;
  let at_ := Z.to_nat (size - sizeof_info) in
  Ok (x, set_file i (take at_ (file i f) ++ le_bytes 8 (u64 (x + d)) ++ drop (at_ + 8) (file i f)) f).

Definition op_name (name : str) : str := lit "__IPC_SHM__" ++ name.

Definition shm_acquire (name : str) (size mode : Z) (f : fs) : option id_info * fs :=
  if decide (name = []) then (None, f)
  else
    let size := if mode =? shm_open then 0 else size in
    let creat := negb (mode =? shm_open) in
    let excl := mode =? shm_create in
    match sys_open (op_name name) creat excl f with
    | (None, f) => (None, f)
    | (Some fd, f) => (Some (mk_id_info (Some fd) None size (op_name name)), f)
    end.

(** The memory, the size that is reported, the id and the files. *)
Definition get_mem (ii : id_info) (f : fs) : res (option nat * option Z * id_info * fs) :=
  match ii_mem ii, ii_fd ii with
  | Some m, _ => Ok (Some m, Some (ii_size ii), ii, f)
  | None, None => Ok (None, None, ii, f)
  | None, Some fd =>
      let '(good, size, f) :=
        if ii_size ii =? 0 then
          let size := Z.of_nat (length (file fd f)) in
          (negb ((size <=? sizeof_info) || negb (size mod sizeof_info =? 0)), size, f)
        else let size := calc_size (ii_size ii) in (true, size, ftruncate fd size f) in
      if good : bool then
        r ← add_acc fd size 1 f;
        Ok (Some fd, Some size, mk_id_info None (Some fd) size (ii_name ii), r.2)
      else Ok (None, None, mk_id_info (Some fd) None size (ii_name ii), f)
  end.

(** The id itself is freed. *)
Definition shm_release (ii : id_info) (f : fs) : res fs :=
  match ii_mem ii with
  | None => Ok f
  | Some m =>
      if ii_size ii =? 0 then Ok f
      else
        r ← add_acc m (ii_size ii) (-1) f;
        let '(old, f) := r in
        Ok (if (old =? 1) && negb (bool_decide (ii_name ii = [])) then sys_unlink (ii_name ii) f else f)
  end.

Definition shm_remove (ii : id_info) (f : fs) : res fs :=
  let name := ii_name ii in
  f ← shm_release (mk_id_info (ii_fd ii) (ii_mem ii) (ii_size ii) []) f;
  Ok (if bool_decide (name = []) then f else sys_unlink name f).
Definition shm_remove_name (name : str) (f : fs) : fs :=
  if decide (name = []) then f else sys_unlink (op_name name) f.

(** * shm.cpp *)
Record handle := mk_handle { h_id : option id_info; h_m : option nat; h_n : str; h_s : Z }.
Definition handle_new : handle := mk_handle None None [] 0.

Definition handle_valid (h : handle) : bool := bool_decide (h_m h <> None).
Definition handle_detach (h : handle) : option id_info * handle := (h_id h, handle_new).
Definition handle_release (h : handle) (f : fs) : res (handle * fs) :=
  match h_id h with
  | None => Ok (h, f)
  | Some ii => f ← shm_release ii f; Ok ((handle_detach h).2, f)
  end.
(** [m_ = get_mem(id_, &s_)]. *)
Definition handle_map (id : option id_info) (n : str) (s : Z) (f : fs) : res (handle * fs) :=
  match id with
  | None => Ok (mk_handle None None n s, f)
  | Some ii =>
      r ← get_mem ii f;
      let '(m, size, ii, f) := r in Ok (mk_handle (Some ii) m n (default s size), f)
  end.
Definition handle_acquire (name : str) (size mode : Z) (h : handle) (f : fs) : res (bool * handle * fs) :=
  r ← handle_release h f;
  let '(h, f) := r in
  let '(id, f) := shm_acquire name size mode f in
  r ← handle_map id name (h_s h) f;
  let '(h, f) := r in Ok (handle_valid h, h, f).
Definition handle_attach (id : option id_info) (h : handle) (f : fs) : res (handle * fs) :=
  match id with
  | None => Ok (h, f)
  | Some _ => r ← handle_release h f; let '(h, f) := r in handle_map id (h_n h) (h_s h) f
  end.
(** The destructor. *)
Definition handle_destroy (h : handle) (f : fs) : res fs := r ← handle_release h f; Ok r.2.

(** What a client does with the memory it got. *)
Definition mem_write (m : nat) (data : str) (f : fs) : res fs :=
  if decide (length data <= length (file m f))%nat then Ok (set_file m (overwrite (file m f) data) f) else Fault IndexPastEnd.
Definition mem_read (m : nat) (n : nat) (f : fs) : res str :=
  if decide (n <= length (file m f))%nat then Ok (take n (file m f)) else Fault IndexPastEnd.
