(* ===== verification/ShmClaims.v ===== *)
(** Shared memory objects behave as objects: one content per name, seen by all
    that have it open, from the first that opens it until the last one closes
    it. *)
From stdpp Require Import prelude gmap list strings.
From Stdlib Require Import ZArith Lia Ascii.
From S2P Require Import Prelude Cpp Shm.

Open Scope Z_scope.

#[local] Arguments calc_size : simpl never.
#[local] Arguments op_name : simpl never.
#[local] Arguments u64 : simpl never.
#[local] Arguments le_bytes : simpl never.

(** * Clients *)
Inductive shm_op := HAcquire (k : nat) (name : str) (mode : Z) | HRelease (k : nat) | HWrite (k : nat) (data : str) | HRead (k n : nat).
Inductive answer := ABool (b : bool) | ABytes (s : str) | ANone.

Section clients.
(** The size of the objects of each name. *)
Context (size_of : str -> Z).

Definition shm_sys : Type := list handle * fs.

(** Clients use the memory of valid handles, within the size they asked for. *)
Definition shm_step (s : shm_sys) (op : shm_op) : res (shm_sys * answer) :=
  let '(hs, f) := s in
  match op with
  | HAcquire k name mode =>
      match hs !! k with
      | None => Ok (s, ANone)
      | Some h => r ← handle_acquire name (size_of name) mode h f; let '(b, h, f) := r in Ok ((<[k := h]> hs, f), ABool b)
      end
  | HRelease k =>
      match hs !! k with
      | None => Ok (s, ANone)
      | Some h => r ← handle_release h f; let '(h, f) := r in Ok ((<[k := h]> hs, f), ANone)
      end
  | HWrite k data =>
      match hs !! k ≫= (fun h => pair h <$> h_m h) with
      | None => Ok (s, ANone)
      | Some (h, m) => if decide (Z.of_nat (length data) <= size_of (h_n h)) then f ← mem_write m data f; Ok ((hs, f), ANone) else Ok (s, ANone)
      end
  | HRead k n =>
      match hs !! k ≫= (fun h => pair h <$> h_m h) with
      | None => Ok (s, ANone)
      | Some (h, m) => if decide (Z.of_nat n <= size_of (h_n h)) then d ← mem_read m n f; Ok (s, ABytes d) else Ok (s, ANone)
      end
  end.

Fixpoint shm_run (s : shm_sys) (ops : list shm_op) : res (shm_sys * list answer) :=
  match ops with
  | [] => Ok (s, [])
  | op :: ops =>
      r ← shm_step s op;
      let '(s, a) := r in
      r ← shm_run s ops;
      let '(s, l) := r in Ok (s, a :: l)
  end.

Definition shm_start (n : nat) : shm_sys := (replicate n handle_new, fs_empty).

(** * Specification

    Which name each client has open, and the content of the names somebody has
    open. *)
Definition objects : Type := list (option str) * gmap str str.

Definition users (name : str) (os : list (option str)) : nat := length (filter (fun o => o = Some name) os).

Definition obj_close (k : nat) (s : objects) : objects :=
  match s.1 !! k with
  | Some (Some name) =>
      let os := <[k := None]> s.1 in
      (os, if decide (users name os = 0%nat) then delete name s.2 else s.2)
  | _ => s
  end.

Definition obj_open (k : nat) (name : str) (mode : Z) (s : objects) : objects * answer :=
  let s := obj_close k s in
  if decide (name = []) then (s, ABool false)
  else
    match s.2 !! name with
    | Some _ => if mode =? shm_create then (s, ABool false) else ((<[k := Some name]> s.1, s.2), ABool true)
    | None =>
        if mode =? shm_open then (s, ABool false)
        else ((<[k := Some name]> s.1, <[name := replicate (Z.to_nat (size_of name)) nul]> s.2), ABool true)
    end.

Definition obj_step (s : objects) (op : shm_op) : objects * answer :=
  match op with
  | HAcquire k name mode => if decide (k < length s.1)%nat then obj_open k name mode s else (s, ANone)
  | HRelease k => (obj_close k s, ANone)
  | HWrite k data =>
      match mjoin (s.1 !! k) with
      | None => (s, ANone)
      | Some name =>
          if decide (Z.of_nat (length data) <= size_of name) then ((s.1, alter (fun v => overwrite v data) name s.2), ANone) else (s, ANone)
      end
  | HRead k n =>
      match mjoin (s.1 !! k) with
      | None => (s, ANone)
      | Some name => if decide (Z.of_nat n <= size_of name) then (s, ABytes (take n (at_or [] name s.2))) else (s, ANone)
      end
  end.

Fixpoint obj_run (s : objects) (ops : list shm_op) : objects * list answer :=
  match ops with
  | [] => (s, [])
  | op :: ops => let '(s, a) := obj_step s op in let '(s, l) := obj_run s ops in (s, a :: l)
  end.

Definition obj_start (n : nat) : objects := (replicate n None, ∅).

(** * Users *)
Lemma users_insert name os k o o' : os !! k = Some o' ->
  (users name (<[k := o]> os) + (if decide (o' = Some name) then 1 else 0) = users name os + (if decide (o = Some name) then 1 else 0))%nat.
Proof. intros Hk. exact (filter_insert_length (fun o => o = Some name) os k o o' Hk). Qed.
Lemma users_other name os k o o' : os !! k = Some o' -> o <> Some name -> o' <> Some name -> users name (<[k := o]> os) = users name os.
Proof. intros Hk Ho Ho'. pose proof (users_insert name os k o o' Hk) as E. rewrite !decide_False in E by done. lia. Qed.
(** At a place that holds nothing or another name. *)
Lemma users_ne name nm os k o o' : os !! k = Some o' -> nm <> name -> (o = None \/ o = Some name) -> (o' = None \/ o' = Some name) ->
  users nm (<[k := o]> os) = users nm os.
Proof. intros Hk Hne [-> | ->] [-> | ->]; eapply users_other; eauto; congruence. Qed.
Lemma users_pos name os : (0 < users name os)%nat <-> Some name ∈ os.
Proof. unfold users. rewrite filter_positive. split; [by intros (o & Ho & ->)|]. intros Ho. by exists (Some name). Qed.
Lemma users_length name os : (users name os <= length os)%nat.
Proof. unfold users. apply length_filter. Qed.

(** * Sizes and contents *)
Hypothesis Hsize : forall name, 0 < size_of name < 2 ^ 32.

Definition full_size (name : str) : Z := calc_size (size_of name).
Lemma full_size_bounds name : size_of name + 8 <= full_size name < 2 ^ 33 /\ full_size name mod 8 = 0.
Proof.
  unfold full_size, calc_size, sizeof_info, u64. specialize (Hsize name). rewrite (Z.mod_small (_ - 1)) by lia.
  rewrite Z.mod_small; lia.
Qed.

(** Data, padding and count. *)
Definition contents (name v : str) (n : Z) : str :=
  v ++ replicate (Z.to_nat (full_size name - 8 - size_of name)) nul ++ le_bytes 8 n.

Lemma contents_length name v n : Z.of_nat (length v) = size_of name -> Z.of_nat (length (contents name v n)) = full_size name.
Proof. intros Hv. pose proof (full_size_bounds name). unfold contents. rewrite !length_app, length_replicate, le_bytes_length. lia. Qed.

Lemma contents_split name v : Z.of_nat (length v) = size_of name -> exists l, length l = Z.to_nat (full_size name - 8) /\ forall n, contents name v n = l ++ le_bytes 8 n.
Proof.
  intros Hv. pose proof (full_size_bounds name). exists (v ++ replicate (Z.to_nat (full_size name - 8 - size_of name)) nul). split.
  - rewrite length_app, length_replicate. lia.
  - intros n. unfold contents. by rewrite app_assoc.
Qed.

Lemma contents_zero name : contents name (replicate (Z.to_nat (size_of name)) nul) 0 = replicate (Z.to_nat (full_size name)) nul.
Proof.
  pose proof (full_size_bounds name). specialize (Hsize name). unfold contents. change (le_bytes 8 0) with (replicate 8 nul). rewrite <- !replicate_add. f_equal. lia.
Qed.

Lemma contents_write name v n data : Z.of_nat (length v) = size_of name -> Z.of_nat (length data) <= size_of name ->
  overwrite (contents name v n) data = contents name (overwrite v data) n.
Proof. intros Hv Hd. unfold overwrite, contents. rewrite drop_app_le by lia. by rewrite <- !app_assoc. Qed.

(** * Files *)
Lemma file_set_file i j b f : file j (set_file i b f) = if decide (j = i) then b else file j f.
Proof. unfold file, set_file, at_or. cbn [fs_files]. destruct (decide (j = i)) as [->|]; [by rewrite lookup_insert_eq|by rewrite lookup_insert_ne]. Qed.

Lemma add_acc_contents name v n d i f : Z.of_nat (length v) = size_of name -> 0 <= n < 2 ^ 64 -> file i f = contents name v n ->
  add_acc i (full_size name) d f = Ok (n, set_file i (contents name v (u64 (n + d))) f).
Proof.
  intros Hv Hn Hf. pose proof (full_size_bounds name). unfold add_acc, acc_of. rewrite Hf, contents_length, Z.leb_refl by done.
  destruct (contents_split name v Hv) as (l & Hl & Hc). rewrite !Hc. unfold sizeof_info.
  rewrite (drop_app_length' l _ (Z.to_nat (full_size name - 8))) by done.
  rewrite (take_ge (le_bytes 8 n)) by (rewrite le_bytes_length; lia). rewrite le_bytes_roundtrip by (change (256 ^ Z.of_nat 8) with (2 ^ 64); lia).
  cbn [mbind res_bind]. rewrite (take_app_length' l) by done. rewrite drop_ge, app_nil_r; [done|]. rewrite length_app, le_bytes_length. lia.
Qed.

(** * Simulation *)
Definition handle_ok (f : fs) (h : handle) (o : option str) : Prop :=
  match o with
  | None => h_id h = None /\ h_m h = None
  | Some name => h_n h = name /\ exists i, fs_names f !! op_name name = Some i /\
      h_id h = Some (mk_id_info None (Some i) (full_size name) (op_name name)) /\ h_m h = Some i
  end.

Record sim (s : shm_sys) (a : objects) : Prop := {
  sim_handles : Forall2 (handle_ok s.2) s.1 a.1;
  sim_names x i : fs_names s.2 !! x = Some i -> (i < fs_next s.2)%nat /\ exists name, x = op_name name /\ is_Some (a.2 !! name);
  sim_inj x y i : fs_names s.2 !! x = Some i -> fs_names s.2 !! y = Some i -> x = y;
  sim_objs name v : a.2 !! name = Some v -> Z.of_nat (length v) = size_of name /\ (0 < users name a.1)%nat /\
    exists i, fs_names s.2 !! op_name name = Some i /\ file i s.2 = contents name v (Z.of_nat (users name a.1));
  sim_held name : Some name ∈ a.1 -> is_Some (a.2 !! name);
  sim_few : Z.of_nat (length a.1) < 2 ^ 64 }.

Lemma op_name_inj x y : op_name x = op_name y -> x = y.
Proof. apply app_inv_head. Qed.

Lemma handle_ok_names f f' h o : (forall name i, o = Some name -> fs_names f !! op_name name = Some i -> fs_names f' !! op_name name = Some i) ->
  handle_ok f h o -> handle_ok f' h o.
Proof. destruct o as [name|]; [|done]. intros Hn (Hh & i & Hi & Hid). split; [done|]. exists i. split; [by apply Hn|done]. Qed.
Lemma handle_ok_set_file i b f h o : handle_ok f h o -> handle_ok (set_file i b f) h o.
Proof. by apply handle_ok_names. Qed.

Lemma users_small (name : str) (s : shm_sys) (a : objects) : sim s a -> 0 <= Z.of_nat (users name a.1) < 2 ^ 64.
Proof. intros Hs. pose proof (sim_few _ _ Hs). pose proof (users_length name a.1). lia. Qed.

(** A change to one object that keeps its name. *)
Lemma sim_keep hs f a k h' o o' name v v' i : sim (hs, f) a -> a.1 !! k = Some o ->
  (o = None \/ o = Some name) -> (o' = None \/ o' = Some name) -> handle_ok f h' o' ->
  a.2 !! name = Some v -> fs_names f !! op_name name = Some i -> Z.of_nat (length v') = size_of name ->
  (0 < users name (<[k := o']> a.1))%nat ->
  sim (<[k := h']> hs, set_file i (contents name v' (Z.of_nat (users name (<[k := o']> a.1)))) f)
    (<[k := o']> a.1, <[name := v']> a.2).
Proof.
  intros Hs Hk Ho Ho' Hh' Hv Hi Hlen Hpos. pose proof Hs as [Hhs Hnames Hinj Hobjs Hheld Hfew]. cbn [fst snd] in *. split; cbn [fst snd].
  - apply Forall2_insert; [|by apply handle_ok_set_file]. eapply Forall2_impl; [exact Hhs|]. intros h1 o1. apply handle_ok_set_file.
  - intros x j Hx. destruct (Hnames _ _ Hx) as (Hlt & nm & -> & Hnm). split; [done|]. exists nm. split; [done|].
    destruct (decide (nm = name)) as [->|]; [by rewrite lookup_insert_eq|by rewrite lookup_insert_ne].
  - apply Hinj.
  - intros nm w. destruct (decide (nm = name)) as [->|Hne].
    + rewrite lookup_insert_eq. intros [= <-]. split; [done|]. split; [done|]. exists i. split; [done|]. by rewrite file_set_file, decide_True.
    + rewrite lookup_insert_ne by done. intros Hw. destruct (Hobjs _ _ Hw) as (Hl & Hp & j & Hj & Hf).
      rewrite (users_ne name nm _ _ _ o) by auto. split; [done|]. split; [done|]. exists j. split; [done|].
      rewrite file_set_file, decide_False; [done|]. intros ->. apply Hne. apply op_name_inj. by eapply Hinj.
  - intros nm Hin. destruct (decide (nm = name)) as [->|Hne]; [by rewrite lookup_insert_eq|]. rewrite lookup_insert_ne by done. apply Hheld.
    apply users_pos. apply users_pos in Hin. by rewrite (users_ne name nm _ _ _ o) in Hin by auto.
  - by rewrite length_insert.
Qed.

(** The last user closes an object. *)
Lemma sim_drop hs f a k name i b : sim (hs, f) a -> a.1 !! k = Some (Some name) -> users name (<[k := None]> a.1) = 0%nat ->
  fs_names f !! op_name name = Some i ->
  sim (<[k := handle_new]> hs, sys_unlink (op_name name) (set_file i b f)) (<[k := None]> a.1, delete name a.2).
Proof.
  intros Hs Hk Hzero Hi. pose proof Hs as [Hhs Hnames Hinj Hobjs Hheld Hfew]. cbn [fst snd] in *.
  assert (forall j o1, <[k := None]> a.1 !! j = Some o1 -> o1 <> Some name) as Hno.
  { intros j o1 Hj ->. assert (0 < users name (<[k := None]> a.1))%nat; [|lia]. apply users_pos. by eapply list_elem_of_lookup_2. }
  split; cbn [fst snd].
  - apply Forall2_same_length_lookup_2; [by rewrite !length_insert; eapply Forall2_length|]. intros j h1 o1 Hj1 Hj2.
    destruct (decide (j = k)) as [->|Hjk].
    { rewrite list_lookup_insert_eq in Hj1 by (apply lookup_lt_Some in Hj1; by rewrite length_insert in Hj1).
      rewrite list_lookup_insert_eq in Hj2 by (apply lookup_lt_Some in Hj2; by rewrite length_insert in Hj2). by simplify_eq. }
    pose proof (Hno _ _ Hj2) as Hne. rewrite list_lookup_insert_ne in Hj1 by done. rewrite list_lookup_insert_ne in Hj2 by done.
    eapply handle_ok_names; [|by eapply Forall2_lookup_lr]. intros nm j' -> Hj'. cbn [sys_unlink fs_names set_file].
    rewrite lookup_delete_ne; [done|]. intros E%op_name_inj. by subst.
  - intros x j. cbn [sys_unlink fs_names set_file fs_next]. intros [Hne Hx]%lookup_delete_Some. destruct (Hnames _ _ Hx) as (Hlt & nm & -> & Hnm).
    split; [done|]. exists nm. split; [done|]. rewrite lookup_delete_ne; [done|]. by intros ->.
  - intros x y j. cbn [sys_unlink fs_names set_file]. intros [_ Hx]%lookup_delete_Some [_ Hy]%lookup_delete_Some. by eapply Hinj.
  - intros nm w [Hne Hw]%lookup_delete_Some. destruct (Hobjs _ _ Hw) as (Hl & Hp & j & Hj & Hf).
    rewrite (users_ne name nm _ _ _ (Some name)) by auto. split; [done|]. split; [done|]. exists j. cbn [sys_unlink fs_names set_file].
    rewrite lookup_delete_ne by (intros E%op_name_inj; by subst). split; [done|].
    change (file j (sys_unlink (op_name name) (set_file i b f))) with (file j (set_file i b f)).
    rewrite file_set_file, decide_False; [done|]. intros ->. apply Hne, op_name_inj. by eapply Hinj.
  - intros nm Hin. assert (nm <> name) as Hne. { intros ->. apply users_pos in Hin. lia. }
    rewrite lookup_delete_ne by done. apply Hheld. apply users_pos. apply users_pos in Hin.
    by rewrite (users_ne name nm _ _ _ (Some name)) in Hin by auto.
  - by rewrite length_insert.
Qed.

(** The first user creates one. *)
Lemma sim_fresh hs f a k h' name v : sim (hs, f) a -> a.1 !! k = Some None -> a.2 !! name = None -> fs_names f !! op_name name = None ->
  Z.of_nat (length v) = size_of name ->
  let f' := mk_fs (<[op_name name := fs_next f]> (fs_names f)) (<[fs_next f := contents name v 1]> (fs_files f)) (S (fs_next f)) in
  handle_ok f' h' (Some name) -> sim (<[k := h']> hs, f') (<[k := Some name]> a.1, <[name := v]> a.2).
Proof.
  intros Hs Hk Hv Hi Hlen f' Hh'. pose proof Hs as [Hhs Hnames Hinj Hobjs Hheld Hfew]. cbn [fst snd] in *.
  assert (users name (<[k := Some name]> a.1) = 1%nat) as Hone.
  { pose proof (users_insert name a.1 k (Some name) None Hk) as E. rewrite decide_False, decide_True in E by done.
    destruct (decide (0 < users name a.1)%nat) as [Hp%users_pos%Hheld|]; [|lia]. rewrite Hv in Hp. by destruct Hp. }
  assert (forall x j, fs_names f !! x = Some j -> x <> op_name name /\ j <> fs_next f) as Hold.
  { intros x j Hx. destruct (Hnames _ _ Hx) as [Hlt _]. split; [|lia]. intros ->. by rewrite Hi in Hx. }
  split; cbn [fst snd].
  - apply Forall2_insert; [|done]. eapply Forall2_impl; [exact Hhs|]. intros h1 o1. apply handle_ok_names. intros nm j _ Hj.
    subst f'. cbn [fs_names]. rewrite lookup_insert_ne; [done|]. destruct (Hold _ _ Hj). congruence.
  - intros x j. subst f'. cbn [fs_names fs_next]. intros [[<- <-]|[Hne Hx]]%lookup_insert_Some.
    + split; [lia|]. exists name. split; [done|]. by rewrite lookup_insert_eq.
    + destruct (Hnames _ _ Hx) as (Hlt & nm & -> & Hnm). split; [lia|]. exists nm. split; [done|]. rewrite lookup_insert_ne; [done|]. by intros ->.
  - intros x y j. subst f'. cbn [fs_names]. intros [[<- <-]|[Hne Hx]]%lookup_insert_Some [[<- E]|[Hne' Hy]]%lookup_insert_Some; try done.
    + by apply Hold in Hy as [_ []].
    + subst j. by apply Hold in Hx as [_ []].
    + by eapply Hinj.
  - intros nm w [[<- <-]|[Hne Hw]]%lookup_insert_Some.
    + rewrite Hone. split; [done|]. split; [lia|]. exists (fs_next f). subst f'. cbn [fs_names]. rewrite lookup_insert_eq. split; [done|].
      unfold file, at_or. cbn [fs_files]. by rewrite lookup_insert_eq.
    + destruct (Hobjs _ _ Hw) as (Hl & Hp & j & Hj & Hf). rewrite (users_ne name nm _ _ _ None) by auto.
      split; [done|]. split; [done|]. exists j. subst f'. cbn [fs_names]. destruct (Hold _ _ Hj) as [Hx Hjn].
      rewrite lookup_insert_ne by done. split; [done|]. rewrite <- Hf. unfold file, at_or. cbn [fs_files]. by rewrite lookup_insert_ne by done.
  - intros nm Hin. destruct (decide (nm = name)) as [->|Hne]; [by rewrite lookup_insert_eq|]. rewrite lookup_insert_ne by done. apply Hheld.
    apply users_pos. apply users_pos in Hin. by rewrite (users_ne name nm _ _ _ None) in Hin by auto.
  - by rewrite length_insert.
Qed.

(** * Steps *)
Lemma shm_release_ok hs f (a : objects) k h : sim (hs, f) a -> hs !! k = Some h ->
  exists h' f', handle_release h f = Ok (h', f') /\ sim (<[k := h']> hs, f') (obj_close k a) /\
    (obj_close k a).1 !! k = Some None.
Proof.
  intros Hs Hh. pose proof Hs as [Hhs _ _ Hobjs Hheld _]. cbn [fst snd] in *.
  destruct (Forall2_lookup_l _ _ _ _ _ Hhs Hh) as ([name|] & Hk & Hok).
  2: { destruct Hok as [Hid _]. unfold handle_release, obj_close. rewrite Hid, Hk. exists h, f. by rewrite list_insert_id. }
  destruct Hok as (Hn & i & Hi & Hid & Hm). pose proof (full_size_bounds name) as Hfull. pose proof (Hsize name) as Hsz.
  destruct (Hheld name) as [v Hv]; [by eapply list_elem_of_lookup_2|]. destruct (Hobjs _ _ Hv) as (Hl & Hpos & j & Hj & Hf).
  assert (j = i) as -> by congruence. pose proof (users_small name _ _ Hs) as Hfew.
  pose proof (users_insert name a.1 k None (Some name) Hk) as Hu. rewrite decide_True, decide_False in Hu by done.
  unfold handle_release, shm_release. rewrite Hid. cbn [ii_mem ii_size ii_name].
  destruct (Z.eqb_spec (full_size name) 0); [lia|]. rewrite (add_acc_contents name v _ (-1) i f Hl Hfew Hf). cbn [mbind res_bind].
  rewrite (bool_decide_false (op_name name = [])) by done. rewrite andb_true_r.
  assert ((obj_close k a).1 !! k = Some None) as Hclosed.
  { unfold obj_close. rewrite Hk. cbn [fst]. apply list_lookup_insert_eq. by eapply lookup_lt_Some. }
  assert (u64 (Z.of_nat (users name a.1) + -1) = Z.of_nat (users name (<[k := None]> a.1))) as ->.
  { unfold u64. rewrite Z.mod_small by lia. lia. }
  eexists _, _. split; [reflexivity|]. split; [|done]. unfold obj_close. rewrite Hk. cbn [handle_detach snd].
  destruct (Z.eqb_spec (Z.of_nat (users name a.1)) 1).
  - rewrite decide_True by lia. apply sim_drop; [done|done|lia|done].
  - rewrite decide_False by lia. rewrite <- (insert_id a.2 name v Hv).
    eapply sim_keep; eauto; [done|lia].
Qed.

Lemma close_closed k (a : objects) : a.1 !! k = Some None -> obj_close k a = a.
Proof. intros Hk. unfold obj_close. by rewrite Hk. Qed.

Lemma ftruncate_fit i n f : Z.of_nat (length (file i f)) = n -> fs_files f !! i <> None -> ftruncate i n f = f.
Proof.
  intros Hl Hi. unfold ftruncate. rewrite take_ge by lia. replace (Z.to_nat n - length (file i f))%nat with 0%nat by lia. rewrite app_nil_r.
  unfold set_file, file, at_or. destruct (fs_files f !! i) as [b|] eqn:E; [|done]. rewrite insert_id by done. by destruct f.
Qed.

(** Mapping a file of an object. *)
Lemma get_mem_contents i sz name v n f : (sz = 0 \/ sz = size_of name) -> Z.of_nat (length v) = size_of name -> 0 <= n < 2 ^ 64 ->
  file i f = contents name v n ->
  get_mem (mk_id_info (Some i) None sz (op_name name)) f =
    Ok (Some i, Some (full_size name), mk_id_info None (Some i) (full_size name) (op_name name), set_file i (contents name v (u64 (n + 1))) f).
Proof.
  intros Hsz Hl Hn Hf. pose proof (full_size_bounds name) as [Hb Hmod]. pose proof (Hsize name). unfold get_mem. cbn [ii_mem ii_fd ii_size ii_name].
  pose proof (contents_length name v n Hl) as Hcl. destruct Hsz as [-> | ->].
  - cbn [Z.eqb]. rewrite Hf, Hcl. unfold sizeof_info. rewrite Hmod. destruct (Z.leb_spec (full_size name) 8); [lia|]. cbn [Z.eqb negb orb].
    by rewrite (add_acc_contents name v n 1 i f Hl Hn Hf).
  - destruct (Z.eqb_spec (size_of name) 0); [lia|]. fold (full_size name).
    rewrite ftruncate_fit; [by rewrite (add_acc_contents name v n 1 i f Hl Hn Hf)|by rewrite Hf|].
    intros E. unfold file, at_or in Hf. rewrite E in Hf. rewrite <- Hf in Hcl. simpl in Hcl. lia.
Qed.

Lemma get_mem_fresh name f : let i := fs_next f in
  let f1 := mk_fs (<[op_name name := i]> (fs_names f)) (<[i := []]> (fs_files f)) (S i) in
  get_mem (mk_id_info (Some i) None (size_of name) (op_name name)) f1 =
    Ok (Some i, Some (full_size name), mk_id_info None (Some i) (full_size name) (op_name name),
      mk_fs (<[op_name name := i]> (fs_names f)) (<[i := contents name (replicate (Z.to_nat (size_of name)) nul) 1]> (fs_files f)) (S i)).
Proof.
  intros i f1. pose proof (Hsize name). unfold get_mem. cbn [ii_mem ii_fd ii_size ii_name].
  destruct (Z.eqb_spec (size_of name) 0); [lia|]. fold (full_size name). set (f2 := ftruncate i (full_size name) f1).
  assert (file i f1 = []) as Hempty by (unfold f1, file, at_or; cbn [fs_files]; by rewrite lookup_insert_eq).
  assert (file i f2 = contents name (replicate (Z.to_nat (size_of name)) nul) 0) as Hf2.
  { unfold f2, ftruncate. rewrite file_set_file, decide_True, Hempty, contents_zero by done. cbn [length take]. by rewrite take_nil, Nat.sub_0_r. }
  rewrite (add_acc_contents name (replicate (Z.to_nat (size_of name)) nul) 0 1 i f2) by (done || (rewrite length_replicate; lia)).
  cbn [mbind res_bind snd]. change (u64 (0 + 1)) with 1. do 2 f_equal. unfold f2, ftruncate, f1, set_file. cbn [fs_names fs_files fs_next].
  by rewrite !insert_insert_eq.
Qed.

(** Into a handle that has nothing open. *)
Lemma acquire_ok hs f (a : objects) k name mode s0 id f1 : sim (hs, f) a -> a.1 !! k = Some None ->
  shm_acquire name (size_of name) mode f = (id, f1) ->
  exists h' f', handle_map id name s0 f1 = Ok (h', f') /\
    sim (<[k := h']> hs, f') (obj_open k name mode a).1 /\ (obj_open k name mode a).2 = ABool (handle_valid h').
Proof.
  intros Hs Hk Hacq. unfold obj_open. rewrite close_closed by done. unfold shm_acquire in Hacq. pose proof Hs as [Hhs Hnames Hinj Hobjs Hheld Hfew]. cbn [fst snd] in *.
  assert (exists h' f', handle_map None name s0 f = Ok (h', f') /\ sim (<[k := h']> hs, f') a /\ ABool false = ABool (handle_valid h')) as Hfail.
  { eexists _, _. split; [reflexivity|]. split; [|done]. split; cbn [fst snd]; eauto.
    rewrite <- (list_insert_id a.1 k None) by done. by apply Forall2_insert. }
  case_decide as Hname; [injection Hacq as <- <-; exact Hfail|].
  unfold sys_open in Hacq. destruct (a.2 !! name) as [v|] eqn:Hv.
  - destruct (Hobjs _ _ Hv) as (Hl & Hpos & i & Hi & Hf). rewrite Hi in Hacq. unfold shm_open, shm_create in *.
    assert (negb (mode =? 2) && (mode =? 1) = (mode =? 1)) as E.
    { destruct (Z.eqb_spec mode 1) as [->|]; [done|]. by rewrite andb_false_r. }
    rewrite E in Hacq. destruct (mode =? 1); injection Hacq as <- <-; [exact Hfail|]. cbn [handle_map].
    pose proof (users_small name _ _ Hs) as Hsmall. pose proof (users_insert name a.1 k (Some name) None Hk) as Hu. rewrite decide_False, decide_True in Hu by done.
    rewrite (get_mem_contents i _ name v (Z.of_nat (users name a.1))) by (done || (destruct (mode =? 2); auto)). cbn [mbind res_bind default].
    eexists _, _. split; [reflexivity|]. split; [|done]. cbn [fst].
    assert (Z.of_nat (users name (<[k := Some name]> a.1)) < 2 ^ 64) by (pose proof (users_length name (<[k := Some name]> a.1)) as E1; rewrite length_insert in E1; lia).
    assert (u64 (Z.of_nat (users name a.1) + 1) = Z.of_nat (users name (<[k := Some name]> a.1))) as -> by (unfold u64; rewrite Z.mod_small by lia; lia).
    rewrite <- (insert_id a.2 name v Hv). eapply sim_keep; eauto; [|lia]. split; [done|]. by exists i.
  - assert (fs_names f !! op_name name = None) as Hi.
    { destruct (fs_names f !! op_name name) as [i|] eqn:E; [|done]. destruct (Hnames _ _ E) as (_ & nm & E'%op_name_inj & [? ?]). congruence. }
    rewrite Hi in Hacq. unfold shm_open in *. destruct (mode =? 2); cbn [negb] in Hacq; injection Hacq as <- <-; [exact Hfail|]. cbn [handle_map].
    rewrite get_mem_fresh. cbn [mbind res_bind default]. eexists _, _. split; [reflexivity|]. split; [|done]. cbn [fst].
    apply sim_fresh; try done; [rewrite length_replicate; specialize (Hsize name); lia|]. split; [done|]. eexists. cbn [fs_names]. rewrite lookup_insert_eq. done.
Qed.

(** What a client finds behind a handle. *)
Lemma open_handle hs f (a : objects) k : sim (hs, f) a ->
  match hs !! k ≫= (fun h => pair h <$> h_m h) with
  | None => mjoin (a.1 !! k) = None
  | Some (h, m) => hs !! k = Some h /\ handle_ok f h (Some (h_n h)) /\ a.1 !! k = Some (Some (h_n h)) /\ fs_names f !! op_name (h_n h) = Some m /\
      exists v, a.2 !! h_n h = Some v /\ Z.of_nat (length v) = size_of (h_n h) /\ file m f = contents (h_n h) v (Z.of_nat (users (h_n h) a.1))
  end.
Proof.
  intros [Hhs _ _ Hobjs Hheld _]. cbn [fst snd] in *. destruct (hs !! k) as [h|] eqn:Hh; cbn [mbind option_bind].
  2: { apply lookup_ge_None in Hh. rewrite (Forall2_length _ _ _ Hhs) in Hh. by rewrite lookup_ge_None_2. }
  destruct (Forall2_lookup_l _ _ _ _ _ Hhs Hh) as ([name|] & Hk & Hok); [|destruct Hok as [_ ->]; by rewrite Hk].
  pose proof Hok as (<- & i & Hi & _ & Hm). rewrite Hm. cbn [fmap option_fmap option_map]. split; [done|]. split; [done|]. split; [done|]. split; [done|].
  destruct (Hheld (h_n h)) as [v Hv]; [by eapply list_elem_of_lookup_2|]. destruct (Hobjs _ _ Hv) as (Hl & _ & j & Hj & Hf).
  exists v. assert (j = i) as -> by congruence. done.
Qed.

Lemma alter_insert_known (g : str -> str) (name v : str) (m : gmap str str) : m !! name = Some v -> alter g name m = <[name := g v]> m.
Proof.
  intros Hv. apply map_eq. intros x. destruct (decide (x = name)) as [->|]; [by rewrite lookup_alter_eq, Hv, lookup_insert_eq|].
  by rewrite lookup_alter_ne, lookup_insert_ne.
Qed.

Lemma shm_step_ok s (a : objects) op : sim s a -> exists s', shm_step s op = Ok (s', (obj_step a op).2) /\ sim s' (obj_step a op).1.
Proof.
  destruct s as [hs f]. intros Hs. pose proof (Forall2_length _ _ _ (sim_handles _ _ Hs)) as Hlen. cbn [fst snd] in Hlen.
  destruct op as [k name mode|k|k data|k n]; cbn [shm_step obj_step].
  - destruct (hs !! k) as [h|] eqn:Hh.
    2: { apply lookup_ge_None in Hh. rewrite decide_False by lia. by eexists. }
    rewrite decide_True by (apply lookup_lt_Some in Hh; lia). unfold handle_acquire.
    destruct (shm_release_ok _ _ _ _ _ Hs Hh) as (h1 & f1 & -> & Hs1 & Hk1). cbn [mbind res_bind].
    destruct (shm_acquire name (size_of name) mode f1) as [id f2] eqn:Eacq.
    destruct (acquire_ok _ _ _ _ _ _ (h_s h1) _ _ Hs1 Hk1 Eacq) as (h2 & f3 & -> & Hs2 & Ha). cbn [mbind res_bind].
    assert (obj_open k name mode (obj_close k a) = obj_open k name mode a) as E by (unfold obj_open; by rewrite (close_closed k (obj_close k a))).
    rewrite E in Hs2, Ha. rewrite <- Ha. rewrite list_insert_insert_eq in Hs2. by eexists.
  - destruct (hs !! k) as [h|] eqn:Hh.
    + destruct (shm_release_ok _ _ _ _ _ Hs Hh) as (h1 & f1 & -> & Hs1 & _). by eexists.
    + assert (obj_close k a = a) as ->; [|by eexists]. unfold obj_close. apply lookup_ge_None in Hh. by rewrite lookup_ge_None_2 by lia.
  - pose proof (open_handle hs f a k Hs) as Ho. destruct (hs !! k ≫= _) as [[h m]|]; [|rewrite Ho; by eexists].
    destruct Ho as (Hh & Hok & Hk & Hi & v & Hv & Hl & Hf). rewrite Hk. cbn [mjoin option_join]. case_decide as Hd; [|by eexists].
    pose proof (contents_length _ _ (Z.of_nat (users (h_n h) a.1)) Hl) as Hcl. pose proof (full_size_bounds (h_n h)).
    unfold mem_write. rewrite Hf, decide_True by lia. cbn [mbind res_bind]. eexists. split; [reflexivity|]. cbn [fst].
    rewrite contents_write by done. pose proof (sim_objs _ _ Hs _ _ Hv) as (_ & Hpos & _). cbn [fst] in Hpos.
    assert (alter (fun w => overwrite w data) (h_n h) a.2 = <[h_n h := overwrite v data]> a.2) as -> by exact (alter_insert_known (fun w => overwrite w data) _ _ _ Hv).
    pose proof (sim_keep hs f a k h _ (Some (h_n h)) (h_n h) v (overwrite v data) m Hs Hk) as Hkeep.
    rewrite !(list_insert_id hs), !(list_insert_id a.1) in Hkeep by done. apply Hkeep; auto. rewrite overwrite_length; lia.
  - pose proof (open_handle hs f a k Hs) as Ho. destruct (hs !! k ≫= _) as [[h m]|]; [|rewrite Ho; by eexists].
    destruct Ho as (Hh & Hok & Hk & Hi & v & Hv & Hl & Hf). rewrite Hk. cbn [mjoin option_join]. case_decide as Hd; [|by eexists].
    pose proof (contents_length _ _ (Z.of_nat (users (h_n h) a.1)) Hl) as Hcl. pose proof (full_size_bounds (h_n h)).
    unfold mem_read. rewrite Hf, decide_True by lia. cbn [mbind res_bind]. eexists. split; [|done]. unfold at_or. rewrite Hv. cbn [default].
    unfold contents. rewrite take_app_le by lia. done.
Qed.

Lemma sim_start n : Z.of_nat n < 2 ^ 64 -> sim (shm_start n) (obj_start n).
Proof.
  intros Hn. split; cbn [shm_start obj_start fst snd fs_empty fs_names]; try done.
  - apply Forall2_replicate. done.
  - intros name [Hin _]%elem_of_replicate. done.
  - by rewrite length_replicate.
Qed.

Lemma shm_run_ok s (a : objects) ops : sim s a -> exists s', shm_run s ops = Ok (s', (obj_run a ops).2) /\ sim s' (obj_run a ops).1.
Proof.
  revert s a. induction ops as [|op ops IH]; intros s a Hs; [by exists s|].
  destruct (shm_step_ok s a op Hs) as (s1 & E1 & Hs1). destruct (IH _ _ Hs1) as (s2 & E2 & Hs2). exists s2.
  cbn [shm_run obj_run]. rewrite E1. cbn [mbind res_bind]. rewrite E2. destruct (obj_step a op) as [a1 x]. cbn [fst snd] in *.
  destruct (obj_run a1 ops). done.
Qed.
End clients.


Definition demo_ops : list shm_op :=
  [HAcquire 0 (lit "a") 3; HAcquire 1 (lit "a") 1; HWrite 0 (lit "hi"); HAcquire 1 (lit "a") 2; HRead 1 3; HRelease 0; HRead 1 2;
   HAcquire 1 (lit "b") 3; HAcquire 0 (lit "a") 2].

(** * Where the counting fails *)
(** Opening an object again with the size its handle reports, as the library's
    own tests do, moves the count: when the first handle is closed the object
    loses its name although the second one has it open. *)
Definition reopened (size : Z) : res (bool * option nat * list bool) :=
  r ← handle_acquire (lit "a") size 3 handle_new fs_empty;
  let '(b1, h1, f) := r in
  r ← handle_acquire (lit "a") (h_s h1) 3 handle_new f;
  let '(b2, h2, f) := r in
  r ← handle_release h1 f;
  let '(h1, f) := r in
  r ← handle_acquire (lit "a") 0 shm_open h1 f;
  Ok (handle_valid h2, fs_names f !! op_name (lit "a"), [b1; b2; r.1.1]).
Lemma reported_size_moves_count : reopened 20 = Ok (true, None, [true; true; false]).
Proof. vm_compute. reflexivity. Qed.

(** Between finding the file and counting itself a client can be overtaken: the
    last user closes the object, another creates it anew, and when the client
    closes what it found, the new object loses its name. *)
Definition overtaken_open : res (list bool) :=
  r ← handle_acquire (lit "a") 20 3 handle_new fs_empty;
  let '(_, h1, f) := r in
  let '(id, f) := shm_acquire (lit "a") 0 shm_open f in
  r ← handle_release h1 f;
  let '(h1, f) := r in
  r ← handle_acquire (lit "a") 20 3 h1 f;
  let '(b1, h1, f) := r in
  r ← handle_map id (lit "a") 0 f;
  let '(h2, f) := r in
  r ← handle_release h2 f;
  let '(_, f) := r in
  r ← handle_acquire (lit "a") 0 shm_open handle_new f;
  Ok [b1; handle_valid h2; r.1.1].
Lemma overtaken_open_unlinks : overtaken_open = Ok [true; true; false].
Proof. vm_compute. reflexivity. Qed.
