(* ===== verification/EpheStore.v ===== *)
(** The objects of functions in shared memory: [EpheObjectImpl] of
    [include/executor/function_lib.hpp], [copy_to_shm_obj] and [get_shm_obj] of
    [src/scheduler/object_handlers.cpp], over the files of [Shm]. The model of the
    scheduler has a map from names to bytes in place of the shared memory; here
    executors and the scheduler of a worker work on the real one, and the map is
    what they see of it.

    No code of the platform releases an object: the ids the scheduler and the
    executors acquire are dropped, and functions only have the interface
    [EpheObject], which has no destructor. *)
From stdpp Require Import prelude gmap list strings.
From Stdlib Require Import ZArith Lia Ascii.
From S2P Require Import Prelude Cpp Effects Proto Common Threads Trigger Sched SchedLoop Executor Shm ShmClaims.

Open Scope Z_scope.
#[local] Arguments calc_size : simpl never.
#[local] Arguments op_name : simpl never.
#[local] Arguments u64 : simpl never.
#[local] Arguments le_bytes : simpl never.

(** * Memory of an id *)
(** [acquire] and [get_mem]: the memory, null when there is none, and the id. *)
Definition open_shm (name : str) (size mode : Z) (f : fs) : res (option nat * option id_info * fs) :=
  match shm_acquire (c_str name) size mode f with
  | (None, f) => Ok (None, None, f)
  | (Some ii, f) => r ← get_mem ii f; let '(m, _, ii, f) := r in Ok (m, Some ii, f)
  end.
(** [create | open], the default. *)
Definition shm_either : Z := Z.lor shm_create shm_open.

(** How much of the memory is mapped. *)
Definition mapped (id : option id_info) : Z := match id with Some ii => ii_size ii | None => 0 end.

(** [memcpy] to the memory, and [string(p, n)] of it. *)
Definition mem_set (m : option nat) (id : option id_info) (data : str) (f : fs) : res fs :=
  if decide (data = []) then Ok f
  else match m with
       | None => Fault NullDeref
       | Some m => if Z.of_nat (length data) <=? mapped id then mem_write m data f else Fault IndexPastEnd
       end.
Definition mem_get (m : option nat) (id : option id_info) (n : Z) (f : fs) : res str :=
  let n := u64 n in
  if n =? 0 then Ok []
  else match m with
       | None => Fault NullDeref
       | Some m => if n <=? mapped id then mem_read m (Z.to_nat n) f else Fault IndexPastEnd
       end.

(** * The scheduler *)
Definition shm_copy_to_obj (name data : str) (f : fs) : res fs :=
  let data_size := u32 (Z.of_nat (length data)) in
  r ← open_shm name data_size shm_either f;
  let '(m, id, f) := r in mem_set m id (take (Z.to_nat data_size) data) f.

(** The bytes at the pointer. *)
Definition shm_look (name : str) (size : Z) (f : fs) : res (str * fs) :=
  r ← open_shm name size shm_open f;
  let '(m, id, f) := r in d ← mem_get m id size f; Ok (d, f).

Definition shm_get_obj (key_len_map : gmap str Z) (name : str) (f : fs) : res (option str * fs) :=
  match key_len_map !! name with
  | Some size => r ← shm_look name size f; Ok (Some r.1, r.2)
  | None => Ok (None, f)
  end.

(** * Objects of functions *)
Record EpheObjectImpl := mk_Impl { io_obj : EpheObject; value_ : option nat; shm_id_ : option id_info }.

(** The constructor, with the name, the size and the target of the object. *)
Definition Impl_new (o : EpheObject) (create : bool) (f : fs) : res (EpheObjectImpl * fs) :=
  r ← open_shm (obj_name_ o) (eo_size_ o) (if create then shm_either else shm_open) f;
  let '(m, id, f) := r in Ok (mk_Impl o m id, f).
Definition Impl_delete (p : EpheObjectImpl) (f : fs) : res fs :=
  match shm_id_ p with Some ii => shm_release ii f | None => Ok f end.

Definition set_value (p : EpheObjectImpl) (value : str) (f : fs) : res fs := mem_set (value_ p) (shm_id_ p) value f.
Definition update_size (size : Z) (p : EpheObjectImpl) : EpheObjectImpl :=
  mk_Impl (mk_EpheObject (obj_name_ (io_obj p)) size (target_func_ (io_obj p))) (value_ p) (shm_id_ p).
(** What a function reads through [get_value]. *)
Definition get_value (p : EpheObjectImpl) (n : Z) (f : fs) : res str := mem_get (value_ p) (shm_id_ p) n f.

(** [send_object] with the object's memory read where the message has it. *)
Definition Impl_send (p : EpheObjectImpl) (output : bool) (u : UserLibrary) (f : fs) : res str :=
  let size := eo_size_ (io_obj p) in
  value ← (if size <=? msgDataPackingThreshold then get_value p size f else Ok []);
  Ok (send_object (io_obj p) value output u).1.1.

(** * A worker's processes *)
(** Objects of functions are numbered in the order they are made. *)
Inductive store_op :=
  | OCreate (o : EpheObject)
  | OOpen (o : EpheObject)
  | OSet (k : nat) (data : str)
  | OUpdate (k : nat) (size : Z)
  | OValue (k : nat) (n : Z)
  | OSend (k : nat) (output : bool) (u : UserLibrary)
  | OPut (name data : str)
  | OLook (name : str) (size : Z)
  | OGet (name : str).

Definition store : Type := list EpheObjectImpl * fs.

Section worker.
Context (lens : gmap str Z).

Definition nth_obj {A} (k : nat) (l : list A) : res A := res_of_option NullDeref (l !! k).

Definition store_step (s : store) (op : store_op) : res (store * option str) :=
  let '(os, f) := s in
  match op with
  | OCreate o => r ← Impl_new o true f; Ok ((os ++ [r.1], r.2), None)
  | OOpen o => r ← Impl_new o false f; Ok ((os ++ [r.1], r.2), None)
  | OSet k data => p ← nth_obj k os; f ← set_value p data f; Ok ((os, f), None)
  | OUpdate k size => p ← nth_obj k os; Ok ((<[k := update_size size p]> os, f), None)
  | OValue k n => p ← nth_obj k os; d ← get_value p n f; Ok ((os, f), Some d)
  | OSend k output u => p ← nth_obj k os; m ← Impl_send p output u f; Ok ((os, f), Some m)
  | OPut name data => f ← shm_copy_to_obj name data f; Ok ((os, f), None)
  | OLook name size => r ← shm_look name size f; Ok ((os, r.2), Some r.1)
  | OGet name => r ← shm_get_obj lens name f; Ok ((os, r.2), r.1)
  end.
Fixpoint store_run (s : store) (ops : list store_op) : res (store * list (option str)) :=
  match ops with
  | [] => Ok (s, [])
  | op :: ops =>
      r ← store_step s op;
      let '(s, x) := r in
      r ← store_run s ops;
      let '(s, xs) := r in Ok (s, x :: xs)
  end.

(** * What they are to see

    The scheduler's map, of every object the room that was asked for last, and
    of every object of a function how much of it is mapped. Asking for another
    size keeps the bytes that are known and fit. *)
Record view := mk_view { v_sched : sched; v_room : gmap str Z; v_objs : list (EpheObject * Z) }.

Definition name_ok (name : str) : bool := bool_decide (name <> [] /\ nul ∉ name).
Definition size_ok (size : Z) : bool := (0 <=? size) && (size <? 2 ^ 32).
Definition guard_ok (b : bool) : res () := if b then Ok () else Fault InvalidArgument.

Definition known (name : str) (a : view) : res str := res_of_option NullDeref (s_shm (v_sched a) !! name).
Definition room (name : str) (a : view) : Z := at_or 0 name (v_room a).
Definition view_set (name bytes : str) (a : view) : view := mk_view (upd_shm <[name := bytes]> (v_sched a)) (v_room a) (v_objs a).
Definition set_room (name : str) (size : Z) (a : view) : view := mk_view (v_sched a) (<[name := size]> (v_room a)) (v_objs a).
Definition add_obj (o : EpheObject) (lim : Z) (a : view) : view := mk_view (v_sched a) (v_room a) (v_objs a ++ [(o, lim)]).

Definition view_bytes (o : EpheObject) (lim n : Z) (a : view) : res str :=
  if n =? 0 then Ok []
  else v ← known (obj_name_ o) a;
       if size_ok n && (n <=? lim) && (n <=? Z.of_nat (length v)) then Ok (take (Z.to_nat n) v) else Fault IndexPastEnd.

Definition view_step (a : view) (op : store_op) : res (view * option str) :=
  match op with
  | OCreate o =>
      let '(name, size) := (obj_name_ o, eo_size_ o) in
      _ ← guard_ok (name_ok name && size_ok size && (0 <? size));
      let bytes := match s_shm (v_sched a) !! name with Some v => take (Z.to_nat size) v | None => replicate (Z.to_nat size) nul end in
      Ok (add_obj o size (set_room name size (view_set name bytes a)), None)
  | OOpen o =>
      _ ← guard_ok (name_ok (obj_name_ o));
      Ok (add_obj o (room (obj_name_ o) a) a, None)
  | OSet k data =>
      p ← nth_obj k (v_objs a);
      let '(o, lim) := p in
      v ← known (obj_name_ o) a;
      _ ← guard_ok ((Z.of_nat (length data) <=? lim) && (Z.of_nat (length data) <=? room (obj_name_ o) a));
      Ok (view_set (obj_name_ o) (overwrite v data) a, None)
  | OUpdate k size =>
      p ← nth_obj k (v_objs a);
      let '(o, lim) := p in
      Ok (mk_view (v_sched a) (v_room a) (<[k := (mk_EpheObject (obj_name_ o) size (target_func_ o), lim)]> (v_objs a)), None)
  | OValue k n => p ← nth_obj k (v_objs a); d ← view_bytes p.1 p.2 n a; Ok (a, Some d)
  | OSend k output u =>
      p ← nth_obj k (v_objs a);
      let '(o, lim) := p in
      value ← (if eo_size_ o <=? msgDataPackingThreshold then view_bytes o lim (eo_size_ o) a else Ok []);
      Ok (a, Some (send_object o value output u).1.1)
  | OPut name data =>
      _ ← guard_ok (name_ok name && size_ok (Z.of_nat (length data)));
      Ok (set_room name (Z.of_nat (length data)) (mk_view (copy_to_shm_obj name data (v_sched a)) (v_room a) (v_objs a)), None)
  | OLook name size =>
      _ ← guard_ok (name_ok name && size_ok size);
      d ← shm_read name size (v_sched a); Ok (a, Some d)
  | OGet name =>
      _ ← guard_ok (name_ok name && size_ok (at_or 0 name (s_key_len_map (v_sched a))));
      d ← get_shm_obj name (v_sched a); Ok (a, d)
  end.
Fixpoint view_run (a : view) (ops : list store_op) : res (view * list (option str)) :=
  match ops with
  | [] => Ok (a, [])
  | op :: ops =>
      r ← view_step a op;
      let '(a, x) := r in
      r ← view_run a ops;
      let '(a, xs) := r in Ok (a, x :: xs)
  end.
End worker.

(** * The real memory and the view *)
Lemma calc_size_bounds size : 0 < size < 2 ^ 32 -> size + 8 <= calc_size size < 2 ^ 33 /\ calc_size size mod 8 = 0.
Proof. intros H. unfold calc_size, sizeof_info, u64. rewrite (Z.mod_small (_ - 1)) by lia. rewrite Z.mod_small; lia. Qed.

(** The bytes [v] are at the start of the memory [b], which has [room] and a count
    behind it, or nothing yet. *)
Record holds (v : str) (room : Z) (b : str) : Prop := {
  holds_room : Z.of_nat (length v) <= room;
  holds_bytes : take (length v) b = v;
  holds_shape : b = [] /\ room = 0 \/ 16 <= Z.of_nat (length b) /\ Z.of_nat (length b) mod 8 = 0 /\ room + 8 <= Z.of_nat (length b) }.

Lemma holds_take v room b n : holds v room b -> (n <= length v)%nat -> take n b = take n v.
Proof. intros [_ Hb _] Hn. transitivity (take n (take (length v) b)); [by rewrite take_take, Nat.min_l by lia|by rewrite Hb]. Qed.

(** Counting a user changes the last bytes only. *)
Lemma add_acc_ok i size d f : 8 <= size -> Z.of_nat (length (file i f)) = size ->
  exists x b, add_acc i size d f = Ok (x, set_file i b f) /\ Z.of_nat (length b) = size /\
    forall n, Z.of_nat n <= size - 8 -> take n b = take n (file i f).
Proof.
  intros Hs Hl. unfold add_acc, acc_of, sizeof_info. destruct (Z.leb_spec size (Z.of_nat (length (file i f)))); [|lia]. cbn [mbind res_bind].
  eexists _, _. split_and!; [done| |].
  - rewrite !length_app, length_take, length_drop, le_bytes_length. lia.
  - intros n Hn. rewrite take_app_le by (rewrite length_take; lia). rewrite take_take. by rewrite Nat.min_l by lia.
Qed.

(** A file of zeros appended to [b], or cut. *)
Definition resized (n : nat) (b : str) : str := take n b ++ replicate (n - length b) nul.
Lemma resized_length n b : length (resized n b) = n.
Proof. unfold resized. rewrite length_app, length_take, length_replicate. lia. Qed.

(** Mapping with a size. *)
Lemma get_mem_sized i size nm f : 0 < size < 2 ^ 32 ->
  exists b f', get_mem (mk_id_info (Some i) None size nm) f = Ok (Some i, Some (calc_size size), mk_id_info None (Some i) (calc_size size) nm, f') /\
    f' = set_file i b (ftruncate i (calc_size size) f) /\ Z.of_nat (length b) = calc_size size /\
    forall n, Z.of_nat n <= size -> take n b = take n (resized (Z.to_nat (calc_size size)) (file i f)).
Proof.
  intros Hs. destruct (calc_size_bounds _ Hs) as [Hb Hm]. unfold get_mem. cbn [ii_mem ii_fd ii_size ii_name].
  destruct (Z.eqb_spec size 0) as [|_]; [lia|].
  assert (file i (ftruncate i (calc_size size) f) = resized (Z.to_nat (calc_size size)) (file i f)) as Hf
    by (unfold ftruncate; by rewrite file_set_file, decide_True).
  destruct (add_acc_ok i (calc_size size) 1 (ftruncate i (calc_size size) f)) as (x & b & E & Hl & Ht); [lia|rewrite Hf, resized_length; lia|].
  rewrite E. cbn [mbind res_bind snd]. eexists b, _. split_and!; [done|done|done|]. intros n Hn. rewrite Ht, Hf by lia. done.
Qed.

(** Mapping what is there. *)
Lemma get_mem_there i nm f : 16 <= Z.of_nat (length (file i f)) -> Z.of_nat (length (file i f)) mod 8 = 0 ->
  exists b, get_mem (mk_id_info (Some i) None 0 nm) f =
      Ok (Some i, Some (Z.of_nat (length (file i f))), mk_id_info None (Some i) (Z.of_nat (length (file i f))) nm, set_file i b f) /\
    length b = length (file i f) /\ forall n, Z.of_nat n <= Z.of_nat (length (file i f)) - 8 -> take n b = take n (file i f).
Proof.
  intros H16 Hm. unfold get_mem. cbn [ii_mem ii_fd ii_size ii_name Z.eqb]. unfold sizeof_info at 1 2. rewrite Hm.
  destruct (Z.leb_spec (Z.of_nat (length (file i f))) 8); [lia|]. cbn [Z.eqb negb orb].
  destruct (add_acc_ok i (Z.of_nat (length (file i f))) 1 f) as (x & b & E & Hl & Ht); [lia|done|]. rewrite E. cbn [mbind res_bind snd].
  exists b. split_and!; [done|lia|done].
Qed.

(** * Simulation *)
Definition obj_ok (f : fs) (p : EpheObjectImpl) (q : EpheObject * Z) : Prop :=
  io_obj p = q.1 /\
  (q.2 <= 0 \/ exists i, value_ p = Some i /\ fs_names f !! op_name (obj_name_ q.1) = Some i /\ q.2 <= mapped (shm_id_ p)).

Record sim (s : store) (a : view) : Prop := {
  sim_fresh_next nm i : fs_names s.2 !! nm = Some i -> (i < fs_next s.2)%nat;
  sim_inj nm nm' i : fs_names s.2 !! nm = Some i -> fs_names s.2 !! nm' = Some i -> nm = nm';
  sim_known name v : s_shm (v_sched a) !! name = Some v ->
    exists i, fs_names s.2 !! op_name name = Some i /\ holds v (room name a) (file i s.2);
  sim_unknown name : s_shm (v_sched a) !! name = None -> fs_names s.2 !! op_name name = None /\ room name a = 0;
  sim_objs : Forall2 (obj_ok s.2) s.1 (v_objs a) }.

(** Only the file of [name], which may be new, changes. *)
Record touched (name : str) (i : nat) (f f' : fs) : Prop := {
  touched_names : fs_names f' = <[op_name name := i]> (fs_names f);
  touched_next : fs_names f !! op_name name = Some i /\ fs_next f' = fs_next f \/
    fs_names f !! op_name name = None /\ i = fs_next f /\ fs_next f' = S i;
  touched_files j : j <> i -> file j f' = file j f }.

Lemma touched_set name i f b : fs_names f !! op_name name = Some i -> touched name i f (set_file i b f).
Proof. intros H. split; [by rewrite insert_id|by left|]. intros j Hj. by rewrite file_set_file, decide_False. Qed.
Lemma touched_again name i f f' b : touched name i f f' -> touched name i f (set_file i b f').
Proof. intros [Hn Hx Hf]. split; [done|done|]. intros j Hj. rewrite file_set_file, decide_False by done. by apply Hf. Qed.
Lemma touched_own name i f f' : touched name i f f' -> fs_names f' !! op_name name = Some i.
Proof. intros [-> _ _]. apply lookup_insert_eq. Qed.
(** No other name has the file. *)
Lemma touched_other name i f f' (os : list EpheObjectImpl) a nm j : sim (os, f) a -> touched name i f f' -> nm <> op_name name ->
  fs_names f !! nm = Some j -> j <> i.
Proof.
  intros Hs [_ Hx _] Hnm Hj ->. destruct Hx as [[Hi _]|(_ & -> & _)].
  - apply Hnm, (sim_inj _ _ Hs nm _ i); done.
  - pose proof (sim_fresh_next _ _ Hs _ _ Hj). simpl in *. lia.
Qed.
Lemma touched_mono name i f f' nm j : touched name i f f' -> fs_names f !! nm = Some j -> fs_names f' !! nm = Some j.
Proof.
  intros [-> Hx _] Hj. destruct (decide (nm = op_name name)) as [->|]; [|by rewrite lookup_insert_ne].
  rewrite lookup_insert_eq. destruct Hx as [[Hi _]|[Hi _]]; congruence.
Qed.
Lemma objs_mono f f' os qs : (forall nm j, fs_names f !! nm = Some j -> fs_names f' !! nm = Some j) ->
  Forall2 (obj_ok f) os qs -> Forall2 (obj_ok f') os qs.
Proof.
  intros Hm H. eapply Forall2_impl; [exact H|]. clear H. intros p q [E [H|(i & Hv & Hi & Hl)]]; (split; [done|]); [by left|right]. exists i. auto.
Qed.

(** The one way the memory changes. *)
Lemma sim_touch os f a f' a' name i v : sim (os, f) a -> touched name i f f' ->
  s_shm (v_sched a') = <[name := v]> (s_shm (v_sched a)) -> v_objs a' = v_objs a ->
  (forall nm, nm <> name -> room nm a' = room nm a) -> holds v (room name a') (file i f') -> sim (os, f') a'.
Proof.
  intros Hs Ht Hshm Hobjs Hroom Hv. pose proof (touched_own _ _ _ _ Ht) as Hown. destruct (Ht) as [Hn Hx Hf]. split; cbn [fst snd].
  - intros nm j. rewrite Hn. intros [[<- <-]|[_ Hj]]%lookup_insert_Some.
    + destruct Hx as [[Hi ->]|(_ & -> & ->)]; [by apply (sim_fresh_next _ _ Hs) in Hi|lia].
    + apply (sim_fresh_next _ _ Hs) in Hj. simpl in Hj. destruct Hx as [[_ ->]|(_ & -> & ->)]; lia.
  - intros nm nm' j. rewrite Hn. intros [[<- <-]|[Hne Hj]]%lookup_insert_Some [[<- E']|[Hne' Hj']]%lookup_insert_Some; try done.
    + by destruct (touched_other name i f f' os a nm' i Hs Ht).
    + subst j. by destruct (touched_other name i f f' os a nm i Hs Ht).
    + by apply (sim_inj _ _ Hs nm nm' j).
  - intros nm w. rewrite Hshm. intros [[<- <-]|[Hne Hw]]%lookup_insert_Some; [by exists i|].
    destruct (sim_known _ _ Hs _ _ Hw) as (j & Hj & Hh). exists j. assert (op_name nm <> op_name name) by (by intros ?%op_name_inj).
    split; [by apply (touched_mono name i f)|]. rewrite Hroom, Hf by (done || by apply (touched_other name i f f' os a (op_name nm))). done.
  - intros nm. rewrite Hshm. intros [Hw Hne]%lookup_insert_None. destruct (sim_unknown _ _ Hs _ Hw) as [Hu Hr].
    split; [|by rewrite Hroom]. rewrite Hn, lookup_insert_ne; [done|]. by intros ?%op_name_inj.
  - rewrite Hobjs. eapply objs_mono; [|apply (sim_objs _ _ Hs)]. intros. by apply (touched_mono name i f).
Qed.

(** * Opening *)
Lemma name_ok_c_str name : name_ok name -> name <> [] /\ c_str name = name.
Proof. unfold name_ok. intros [H1 H2]%bool_decide_unpack. split; [done|by apply c_str_id]. Qed.

Lemma acquire_known name size mode i f : name_ok name -> mode = shm_either \/ mode = shm_open -> fs_names f !! op_name name = Some i ->
  shm_acquire (c_str name) size mode f = (Some (mk_id_info (Some i) None (if mode =? shm_open then 0 else size) (op_name name)), f).
Proof.
  intros [Hne ->]%name_ok_c_str Hm Hi. unfold shm_acquire, sys_open. rewrite decide_False by done.
  destruct Hm as [-> | ->]; cbn; by rewrite Hi.
Qed.
Lemma acquire_unknown name size f : name_ok name -> fs_names f !! op_name name = None ->
  shm_acquire (c_str name) size shm_either f = (Some (mk_id_info (Some (fs_next f)) None size (op_name name)),
    mk_fs (<[op_name name := fs_next f]> (fs_names f)) (<[fs_next f := []]> (fs_files f)) (S (fs_next f))).
Proof. intros [Hne ->]%name_ok_c_str Hi. unfold shm_acquire, sys_open. rewrite decide_False by done. cbn. by rewrite Hi. Qed.

Lemma touched_new name f : fs_names f !! op_name name = None ->
  touched name (fs_next f) f (mk_fs (<[op_name name := fs_next f]> (fs_names f)) (<[fs_next f := []]> (fs_files f)) (S (fs_next f))).
Proof. intros Hi. split; cbn; [done|by right|]. intros j Hj. unfold file, at_or. cbn [fs_files]. by rewrite lookup_insert_ne. Qed.

(** The bytes a name has before. *)
Definition old_bytes (name : str) (f : fs) : str := match fs_names f !! op_name name with Some i => file i f | None => [] end.

(** With a size: the file has that size and the bytes it had. *)
Lemma open_sized name size f : name_ok name -> 0 < size < 2 ^ 32 ->
  exists i ii f', open_shm name size shm_either f = Ok (Some i, Some ii, f') /\ touched name i f f' /\ ii_size ii = calc_size size /\
    Z.of_nat (length (file i f')) = calc_size size /\
    forall n, Z.of_nat n <= size -> take n (file i f') = take n (resized (Z.to_nat (calc_size size)) (old_bytes name f)).
Proof.
  intros Hok Hs. unfold open_shm, old_bytes. destruct (fs_names f !! op_name name) as [i|] eqn:Hi.
  - rewrite (acquire_known name size shm_either i f) by auto. change (shm_either =? shm_open) with false. cbv iota.
    destruct (get_mem_sized i size (op_name name) f Hs) as (b & f' & -> & -> & Hl & Ht). cbn [mbind res_bind].
    eexists i, _, _. split_and!; [done|by apply touched_again, touched_set|done|by rewrite file_set_file, decide_True|].
    intros n Hn. rewrite file_set_file, decide_True by done. by apply Ht.
  - rewrite acquire_unknown by done. set (f1 := mk_fs _ _ _). pose proof (touched_new _ _ Hi) as Hnew. fold f1 in Hnew.
    assert (file (fs_next f) f1 = []) as He by (unfold f1, file, at_or; cbn [fs_files]; by rewrite lookup_insert_eq).
    destruct (get_mem_sized (fs_next f) size (op_name name) f1 Hs) as (b & f' & -> & -> & Hl & Ht). cbn [mbind res_bind].
    eexists (fs_next f), _, _. split_and!; [done|by apply touched_again, touched_again|done|by rewrite file_set_file, decide_True|].
    intros n Hn. rewrite file_set_file, decide_True by done. rewrite Ht, He by done. done.
Qed.

(** Without one: the memory stays as it is. *)
Lemma open_there name size mode v r i f : name_ok name -> mode = shm_open \/ mode = shm_either /\ size = 0 ->
  fs_names f !! op_name name = Some i -> holds v r (file i f) ->
  exists m id f', open_shm name size mode f = Ok (m, id, f') /\ touched name i f f' /\ holds v r (file i f') /\
    (r <= 0 \/ m = Some i /\ r <= mapped id).
Proof.
  intros Hok Hm Hi Hv. unfold open_shm. rewrite (acquire_known name size mode i f) by (done || (destruct Hm as [|[]]; auto)).
  replace (if mode =? shm_open then 0 else size) with 0 by (destruct Hm as [-> | [-> ->]]; done).
  destruct (Hv) as [Hr Hb [[He Hr0]|(H16 & Hm8 & Hr8)]].
  - unfold get_mem. cbn [ii_mem ii_fd ii_size ii_name Z.eqb]. rewrite He. cbn [length mbind res_bind]. simpl.
    eexists _, _, _. split_and!; [done| |done|by left; lia].
    split; [by rewrite insert_id|by left|done].
  - destruct (get_mem_there i (op_name name) f H16 Hm8) as (b & -> & Hl & Ht). cbn [mbind res_bind].
    eexists _, _, _. split_and!; [done|by apply touched_set| |right; cbn; split; [done|lia]].
    rewrite file_set_file, decide_True by done. split; [done| |right; lia]. rewrite Ht by lia. done.
Qed.

(** * Reading and writing *)
Lemma u64_id x : 0 <= x < 2 ^ 64 -> u64 x = x.
Proof. intros. unfold u64. by apply Z.mod_small. Qed.

Lemma mem_get_ok i m id v r n f : holds v r (file i f) -> 0 <= n <= Z.of_nat (length v) -> n < 2 ^ 64 ->
  (n <= 0 \/ m = Some i /\ n <= mapped id) -> mem_get m id n f = Ok (take (Z.to_nat n) v).
Proof.
  intros Hv Hn Hn64 Hm. unfold mem_get. rewrite u64_id by lia. destruct (Z.eqb_spec n 0) as [->|]; [done|].
  destruct Hm as [?|[-> Hm]]; [lia|]. destruct (Z.leb_spec n (mapped id)); [|lia]. unfold mem_read.
  rewrite <- (holds_take v r (file i f)) by (done || lia). rewrite decide_True; [done|].
  destruct (Hv) as [_ Hb _]. apply (f_equal length) in Hb. rewrite length_take in Hb. lia.
Qed.

Lemma mem_set_ok i m id v r data f : holds v r (file i f) -> Z.of_nat (length data) <= r ->
  (data = [] \/ m = Some i /\ Z.of_nat (length data) <= mapped id) ->
  exists f', mem_set m id data f = Ok f' /\ (f' = f \/ exists b, f' = set_file i b f) /\ holds (overwrite v data) r (file i f').
Proof.
  intros Hv Hr Hm. unfold mem_set. destruct (decide (data = [])) as [->|Hne].
  { exists f. split_and!; [done|by left|done]. }
  destruct Hm as [?|[-> Hm]]; [done|]. destruct (Z.leb_spec (Z.of_nat (length data)) (mapped id)); [|lia].
  assert (length data <> 0)%nat as Hd by (by destruct data). destruct (Hv) as [Hvr Hb [[_ ?]|(H16 & H8 & Hrb)]]; [lia|].
  unfold mem_write. rewrite decide_True by lia. eexists. split_and!; [done|right; by eexists|].
  rewrite file_set_file, decide_True by done. split.
  - unfold overwrite. rewrite length_app, length_drop. lia.
  - unfold overwrite. rewrite length_app, length_drop, take_app_add. f_equal. rewrite take_drop_commute.
    destruct (decide (length data <= length v)%nat); [|rewrite !drop_ge; [done|lia|rewrite length_take; lia]].
    replace (length data + (length v - length data))%nat with (length v) by lia. by rewrite Hb.
  - right. rewrite overwrite_length by lia. done.
Qed.

Lemma size_ok_spec n : size_ok n -> 0 <= n < 2 ^ 32.
Proof. unfold size_ok. rewrite Is_true_true. intros [?%Z.leb_le ?%Z.ltb_lt]%andb_prop. lia. Qed.
Lemma guard_ok_spec b x : guard_ok b = Ok x -> b.
Proof. by destruct b. Qed.

Lemma res_bind_ok {A B} (m : res A) (k : A -> res B) y : m ≫= k = Ok y -> exists x, m = Ok x /\ k x = Ok y.
Proof. destruct m as [x|]; [|done]. intros H. by exists x. Qed.

(** One more object of a function. *)
Lemma sim_push os f a p o lim : sim (os, f) a -> obj_ok f p (o, lim) -> sim (os ++ [p], f) (add_obj o lim a).
Proof. intros [H1 H2 H3 H4 H5] Hp. split; try done. by apply Forall2_app; [|apply Forall2_cons]. Qed.

Section steps.
Context (lens : gmap str Z).
Context (os : list EpheObjectImpl) (f : fs) (a : view) (Hs : sim (os, f) a).

(** An object of a function, and its counterpart in the view. *)
Lemma obj_at k q : nth_obj k (v_objs a) = Ok q -> exists p, nth_obj k os = Ok p /\ obj_ok f p q.
Proof.
  unfold nth_obj. intros H. destruct (v_objs a !! k) as [q'|] eqn:E; [|done]. injection H as ->.
  destruct (Forall2_lookup_r _ _ _ _ _ (sim_objs _ _ Hs) E) as (p & Hp & Hok). exists p. simpl in Hp. by rewrite Hp.
Qed.

Lemma known_at name v : known name a = Ok v -> s_shm (v_sched a) !! name = Some v /\
  exists i, fs_names f !! op_name name = Some i /\ holds v (room name a) (file i f).
Proof. unfold known. intros H. destruct (s_shm (v_sched a) !! name) as [w|] eqn:E; [|done]. injection H as ->. split; [done|]. by apply (sim_known _ _ Hs). Qed.

Lemma value_ok p q n d : obj_ok f p q -> view_bytes q.1 q.2 n a = Ok d -> get_value p n f = Ok d.
Proof.
  intros [_ Hp] H. unfold view_bytes, get_value in *. destruct (Z.eqb_spec n 0) as [->|Hn]; [by injection H as <-|].
  apply res_bind_ok in H as (v & Hv & H). destruct (size_ok n && _ && _) eqn:E; [|done]. injection H as <-.
  apply andb_prop in E as [[E1%Is_true_true%size_ok_spec E2%Z.leb_le]%andb_prop E3%Z.leb_le].
  destruct (known_at _ _ Hv) as (_ & i & Hi & Hh). apply (mem_get_ok i _ _ v (room (obj_name_ q.1) a)); [done|lia|lia|].
  destruct Hp as [?|(j & Hj & Hji & Hl)]; [lia|]. right. split; [congruence|lia].
Qed.

(** Reading by name. *)
Lemma look_ok name size d : name_ok name -> size_ok size -> shm_read name size (v_sched a) = Ok d ->
  exists f', shm_look name size f = Ok (d, f') /\ sim (os, f') a.
Proof.
  intros Hok Hsz%size_ok_spec H. unfold shm_read in H. destruct (s_shm (v_sched a) !! name) as [v|] eqn:E; [|done].
  destruct (Z.leb_spec size (Z.of_nat (length v))); [|done]. injection H as <-. destruct (sim_known _ _ Hs _ _ E) as (i & Hi & Hv).
  destruct (open_there name size shm_open v (room name a) i f Hok) as (m & id & f' & E' & Ht & Hh & Hm); [auto|done|done|].
  exists f'. unfold shm_look. rewrite E'. cbn [mbind res_bind]. destruct (Hh) as [Hr _ _].
  rewrite (mem_get_ok i m id v (room name a)) by (done || lia || (destruct Hm as [?|[? ?]]; [left|right; split; [done|]]; lia)). split; [done|].
  eapply sim_touch; try done. by rewrite insert_id.
Qed.

(** What a file of a new size holds. *)
Lemma created_holds name size b : 0 < size < 2 ^ 32 -> Z.of_nat (length b) = calc_size size ->
  (forall n, Z.of_nat n <= size -> take n b = take n (resized (Z.to_nat (calc_size size)) (old_bytes name f))) ->
  holds (match s_shm (v_sched a) !! name with Some v => take (Z.to_nat size) v | None => replicate (Z.to_nat size) nul end) size b.
Proof.
  intros Hs0 Hl Hb. destruct (calc_size_bounds size Hs0) as [Hc Hm]. split; [| |right; lia].
  - destruct (s_shm (v_sched a) !! name); [rewrite length_take|rewrite length_replicate]; lia.
  - unfold old_bytes in Hb. destruct (s_shm (v_sched a) !! name) as [v|] eqn:E.
    + destruct (sim_known _ _ Hs _ _ E) as (i & Hi & Hv). simpl in Hi. rewrite Hi in Hb. rewrite length_take, Hb by lia. simpl in Hv.
      destruct (Hv) as [_ Hvb _]. assert (length v <= length (file i f))%nat by (apply (f_equal length) in Hvb; rewrite length_take in Hvb; lia).
      unfold resized. rewrite take_app_le by (rewrite length_take; lia). rewrite take_take, Nat.min_l by lia.
      rewrite (holds_take v (room name a)) by (done || lia). by rewrite <- take_take, firstn_all.
    + destruct (sim_unknown _ _ Hs _ E) as [Hi _]. simpl in Hi. rewrite Hi in Hb. rewrite length_replicate, Hb by lia. unfold resized.
      rewrite take_nil, Nat.sub_0_r. cbn [app length]. rewrite take_replicate. f_equal. lia.
Qed.

Lemma create_step o a' x : view_step a (OCreate o) = Ok (a', x) -> exists s', store_step lens (os, f) (OCreate o) = Ok (s', x) /\ sim s' a'.
Proof.
  cbn [view_step]. intros (? & Hg%guard_ok_spec & H)%res_bind_ok. injection H as <- <-. rewrite Is_true_true in Hg.
  apply andb_prop in Hg as [[Hok%Is_true_true Hsz%Is_true_true%size_ok_spec]%andb_prop Hpos%Z.ltb_lt].
  destruct (open_sized (obj_name_ o) (eo_size_ o) f Hok) as (i & ii & f' & E & Ht & Hii & Hl & Hb); [lia|].
  destruct (calc_size_bounds (eo_size_ o)) as [Hc Hm]; [lia|].
  unfold store_step, Impl_new. rewrite E. cbn [mbind res_bind fst snd]. eexists. split; [done|].
  apply (sim_push _ f'); [|split; [done|]; right; exists i; split_and!; [done|exact (touched_own _ _ _ _ Ht)|cbn; lia]].
  eapply (sim_touch os f a); try done.
  - intros nm Hne. unfold room, at_or. cbn. by rewrite lookup_insert_ne.
  - unfold room, at_or. cbn [set_room v_room]. rewrite lookup_insert_eq. cbn. apply created_holds; [lia|done|done].
Qed.

Lemma open_step o a' x : view_step a (OOpen o) = Ok (a', x) -> exists s', store_step lens (os, f) (OOpen o) = Ok (s', x) /\ sim s' a'.
Proof.
  cbn [view_step]. intros (? & Hok%guard_ok_spec & H)%res_bind_ok. injection H as <- <-. unfold store_step, Impl_new.
  destruct (s_shm (v_sched a) !! obj_name_ o) as [v|] eqn:E.
  - destruct (sim_known _ _ Hs _ _ E) as (i & Hi & Hv).
    destruct (open_there (obj_name_ o) (eo_size_ o) shm_open v (room (obj_name_ o) a) i f Hok) as (m & id & f' & E' & Ht & Hh & Hm); [auto|done|done|].
    rewrite E'. cbn [mbind res_bind fst snd]. eexists. split; [done|]. apply (sim_push _ f').
    + eapply sim_touch; try done. by rewrite insert_id.
    + split; [done|]. destruct Hm as [?|[-> Hm]]; [by left|right; exists i; split_and!; [done|exact (touched_own _ _ _ _ Ht)|done]].
  - destruct (sim_unknown _ _ Hs _ E) as [Hi Hr]. destruct (name_ok_c_str _ Hok) as [Hne Hc]. simpl in Hi.
    unfold open_shm, shm_acquire, sys_open. rewrite Hc, decide_False by done. cbn. rewrite Hi. eexists. split; [done|].
    apply (sim_push _ f); [done|]. split; [done|]. left. cbn. lia.
Qed.

Lemma set_step k data a' x : view_step a (OSet k data) = Ok (a', x) -> exists s', store_step lens (os, f) (OSet k data) = Ok (s', x) /\ sim s' a'.
Proof.
  cbn [view_step]. intros ([o lim] & Hk & (v & Hv & (? & Hg%guard_ok_spec & H)%res_bind_ok)%res_bind_ok)%res_bind_ok. injection H as <- <-.
  rewrite Is_true_true in Hg. apply andb_prop in Hg as [Hlim%Z.leb_le Hroom%Z.leb_le].
  destruct (obj_at _ _ Hk) as (p & Hp & Hio & Hval). destruct (known_at _ _ Hv) as (Hsh & i & Hi & Hh). cbn [fst snd] in Hval.
  destruct (mem_set_ok i (value_ p) (shm_id_ p) v (room (obj_name_ o) a) data f Hh Hroom) as (f' & E & Hf & Hh').
  { destruct Hval as [?|(j & Hj & Hji & Hl)]; [left; apply nil_length_inv; lia|right; split; [congruence|lia]]. }
  unfold store_step, set_value. rewrite Hp. cbn [mbind res_bind]. rewrite E. cbn [mbind res_bind]. eexists. split; [done|].
  eapply (sim_touch os f a); try done. destruct Hf as [->|[b ->]]; [|by apply touched_set]. split; [by rewrite insert_id|by left|done].
Qed.

Lemma update_step k size a' x : view_step a (OUpdate k size) = Ok (a', x) ->
  exists s', store_step lens (os, f) (OUpdate k size) = Ok (s', x) /\ sim s' a'.
Proof.
  cbn [view_step]. intros ([o lim] & Hk & H)%res_bind_ok. injection H as <- <-. destruct (obj_at _ _ Hk) as (p & Hp & Hio & Hval).
  unfold store_step. rewrite Hp. cbn [mbind res_bind]. eexists. split; [done|]. destruct Hs as [H1 H2 H3 H4 H5]. split; try done.
  apply Forall2_insert; [done|]. cbn in Hio. split; cbn; [by rewrite Hio|done].
Qed.

(** What [copy_to_shm_obj] gets to write to. *)
Lemma put_open name data : name_ok name -> 0 <= Z.of_nat (length data) < 2 ^ 32 ->
  exists i m id f' w, open_shm name (Z.of_nat (length data)) shm_either f = Ok (m, id, f') /\ touched name i f f' /\
    holds w (Z.of_nat (length data)) (file i f') /\ (data = [] \/ m = Some i /\ Z.of_nat (length data) <= mapped id) /\ overwrite w data = data.
Proof.
  intros Hok Hsz. destruct (decide (data = [])) as [->|Hne].
  - destruct (s_shm (v_sched a) !! name) as [v|] eqn:E.
    + destruct (sim_known _ _ Hs _ _ E) as (i & Hi & Hv).
      destruct (open_there name 0 shm_either [] 0 i f Hok) as (m & id & f' & E' & Ht & Hh & _); [by right|done| |].
      { destruct Hv as [Hr _ [[He Hr0]|(H16 & H8 & Hr8)]]; (split; [simpl; lia|done|]); [by left|right; simpl in *; lia]. }
      exists i, m, id, f', []. split_and!; [done|done|done|by left|done].
    + destruct (sim_unknown _ _ Hs _ E) as [Hi _]. unfold open_shm. rewrite acquire_unknown by done. set (f1 := mk_fs _ _ _).
      assert (file (fs_next f) f1 = []) as He by (unfold f1, file, at_or; cbn [fs_files]; by rewrite lookup_insert_eq).
      unfold get_mem. cbn [ii_mem ii_fd ii_size ii_name length Z.of_nat Z.eqb]. rewrite He. cbn.
      eexists (fs_next f), _, _, f1, []. split_and!; [done|by apply touched_new| |by left|done]. rewrite He. split; [done|done|by left].
  - assert (length data <> 0)%nat by (by destruct data).
    destruct (open_sized name (Z.of_nat (length data)) f Hok) as (i & ii & f' & E & Ht & Hii & Hl & Hb); [lia|].
    destruct (calc_size_bounds (Z.of_nat (length data))) as [Hc Hm]; [lia|].
    exists i, (Some i), (Some ii), f', []. split_and!; [done|done| |right; cbn; split; [done|lia]|unfold overwrite; by rewrite drop_nil, app_nil_r].
    split; [simpl; lia|done|right; lia].
Qed.

Lemma put_step name data a' x : view_step a (OPut name data) = Ok (a', x) -> exists s', store_step lens (os, f) (OPut name data) = Ok (s', x) /\ sim s' a'.
Proof.
  cbn [view_step]. intros (? & Hg%guard_ok_spec & H)%res_bind_ok. injection H as <- <-. rewrite Is_true_true in Hg.
  apply andb_prop in Hg as [Hok%Is_true_true Hsz%Is_true_true%size_ok_spec]. unfold store_step, shm_copy_to_obj.
  replace (u32 (Z.of_nat (length data))) with (Z.of_nat (length data)) by (unfold u32; rewrite Z.mod_small; lia). rewrite Nat2Z.id, firstn_all.
  destruct (put_open name data Hok Hsz) as (i & m & id & f1 & w & E & Ht & Hh & Hm & How).
  rewrite E. cbn [mbind res_bind]. destruct (mem_set_ok i m id w _ data f1 Hh) as (f2 & E2 & Hf & Hh2); [lia|done|]. rewrite E2.
  eexists. split; [done|]. rewrite How in Hh2. eapply (sim_touch os f a); try done.
  - destruct Hf as [->|[b ->]]; [done|by apply touched_again].
  - intros nm Hne. unfold room, at_or. cbn. by rewrite lookup_insert_ne.
  - unfold room, at_or. cbn [set_room v_room]. by rewrite lookup_insert_eq.
Qed.

Lemma send_step k output u a' x : view_step a (OSend k output u) = Ok (a', x) ->
  exists s', store_step lens (os, f) (OSend k output u) = Ok (s', x) /\ sim s' a'.
Proof.
  cbn [view_step]. intros ([o lim] & Hk & (value & Hv & H)%res_bind_ok)%res_bind_ok. injection H as <- <-.
  destruct (obj_at _ _ Hk) as (p & Hp & Hok). destruct (Hok) as [Hio _]. cbn in Hio.
  unfold store_step, Impl_send. rewrite Hp. cbn [mbind res_bind]. rewrite Hio. exists (os, f). split; [|done].
  destruct (eo_size_ o <=? msgDataPackingThreshold); [rewrite (value_ok p (o, lim) _ value Hok Hv)|injection Hv as <-]; done.
Qed.

Lemma step_ok op a' x : lens = s_key_len_map (v_sched a) -> view_step a op = Ok (a', x) ->
  exists s', store_step lens (os, f) op = Ok (s', x) /\ sim s' a'.
Proof.
  intros Hlens. destruct op; [apply create_step|apply open_step|apply set_step|apply update_step| |apply send_step|apply put_step| |]; cbn [view_step].
  - intros (q & Hk & (d & Hd & H)%res_bind_ok)%res_bind_ok. injection H as <- <-. destruct (obj_at _ _ Hk) as (p & Hp & Hok).
    exists (os, f). split; [|done]. unfold store_step. rewrite Hp. cbn [mbind res_bind]. by rewrite (value_ok p q _ _ Hok Hd).
  - intros (? & Hg%guard_ok_spec & (d & Hd & H)%res_bind_ok)%res_bind_ok. injection H as <- <-. rewrite Is_true_true in Hg.
    apply andb_prop in Hg as [Hok%Is_true_true Hsz%Is_true_true]. destruct (look_ok name size d Hok Hsz Hd) as (f' & E & Hs').
    exists (os, f'). split; [|done]. unfold store_step. by rewrite E.
  - intros (? & Hg%guard_ok_spec & (d & Hd & H)%res_bind_ok)%res_bind_ok. injection H as <- <-. rewrite Is_true_true in Hg.
    apply andb_prop in Hg as [Hok%Is_true_true Hsz%Is_true_true]. unfold get_shm_obj in Hd. unfold at_or in Hsz. unfold store_step, shm_get_obj.
    rewrite Hlens. destruct (s_key_len_map (v_sched a) !! name) as [size|]; [|injection Hd as <-; by exists (os, f)].
    destruct (shm_read name size (v_sched a)) as [b|] eqn:E; [|done]. injection Hd as <-.
    destruct (look_ok name size b Hok Hsz E) as (f' & E' & Hs'). exists (os, f'). split; [|done]. by rewrite E'.
Qed.
End steps.

Lemma view_step_lens a op a' x : view_step a op = Ok (a', x) -> s_key_len_map (v_sched a') = s_key_len_map (v_sched a).
Proof.
  destruct op; cbn [view_step]; intros H; repeat (apply res_bind_ok in H as (? & ? & H); try (case_match; [])); try (simplify_eq; done).
Qed.

Lemma run_ok lens ops s a a' xs : sim s a -> lens = s_key_len_map (v_sched a) -> view_run a ops = Ok (a', xs) ->
  exists s', store_run lens s ops = Ok (s', xs) /\ sim s' a'.
Proof.
  revert s a xs. induction ops as [|op ops IH]; intros s a xs Hs Hl H; [injection H as <- <-; by exists s|]. cbn [view_run] in H.
  apply res_bind_ok in H as ([a1 x] & E & H). apply res_bind_ok in H as ([a2 ys] & E2 & H). injection H as <- <-. destruct s as [os f].
  destruct (step_ok lens os f a Hs op a1 x Hl E) as (s1 & E1 & Hs1).
  destruct (IH s1 a1 ys Hs1) as (s2 & E3 & Hs2); [by rewrite Hl; symmetry; eapply view_step_lens|done|].
  exists s2. split; [|done]. cbn [store_run]. rewrite E1. cbn [mbind res_bind]. by rewrite E3.
Qed.

(** * Claim *)
(** C8: what the scheduler's map of objects stands for. Whatever the executors and
    the scheduler of a worker do with objects in shared memory, in any order:
    functions create objects and open those of others, fill them, change their
    sizes, read them and send them, and the scheduler copies objects in, looks
    them up and reads them. As long as nobody writes more than the object's room
    or reads more than was written, nothing faults, every value read and every
    message sent is the one the scheduler's map gives, and in the end every
    object of the map is in shared memory under its name with its bytes. *)
Theorem store_implements_map (s0 : sched) (ops : list store_op) (a : view) (xs : list (option str)) :
  s_shm s0 = ∅ -> view_run (mk_view s0 ∅ []) ops = Ok (a, xs) ->
  exists s, store_run (s_key_len_map s0) ([], fs_empty) ops = Ok (s, xs) /\
    forall name v, s_shm (v_sched a) !! name = Some v ->
      exists i, fs_names s.2 !! op_name name = Some i /\ take (length v) (file i s.2) = v.
Proof.
  intros Hs0 H. assert (sim ([], fs_empty) (mk_view s0 ∅ [])) as Hs.
  { split; cbn; try done; rewrite Hs0; done. }
  destruct (run_ok _ _ _ _ _ _ Hs eq_refl H) as (s & E & Hsim). exists s. split; [done|].
  intros name v Hv. destruct (sim_known _ _ Hsim _ _ Hv) as (i & Hi & Hh). exists i. split; [done|apply Hh].
Qed.

(** A function creates an object, writes it and sets its size; the scheduler and
    a second function read it. Another object is copied in and copied again with
    more bytes while the function has it open. *)
Definition demo_node : sched :=
  mk_sched {[lit "b|k" := 5; lit "b|x" := 2]} ∅ ∅ [] [] ∅ 1 0 ∅ ∅ ∅ ∅ ∅ ∅ ∅ ∅ ∅ ∅ ∅ ∅.
Definition demo_store_lib : UserLibrary := UserLibrary_new (lit "10.0.0.1") 0.
Definition demo_store_ops : list store_op :=
  [OCreate (mk_EpheObject (lit "b|k") 20 []); OSet 0 (lit "hello"); OUpdate 0 5; OGet (lit "b|k"); OSend 0 false demo_store_lib;
   OOpen (mk_EpheObject (lit "b|k") 5 []); OValue 1 4; OPut (lit "b|x") (lit "ab"); OOpen (mk_EpheObject (lit "b|x") 2 []);
   OPut (lit "b|x") (lit "more bytes than before"); OValue 2 2; OLook (lit "b|x") 22; OPut (lit "b|y") []; OLook (lit "b|y") 0; OGet (lit "z")].
Definition demo_answers : list (option str) :=
  [None; None; None; Some (lit "hello");
   Some (send_object (mk_EpheObject (lit "b|k") 5 []) (lit "hello") false demo_store_lib).1.1; None; Some (lit "hell"); None; None; None;
   Some (lit "mo"); Some (lit "more bytes than before"); None; Some []; None].

Lemma store_implements_map_witness :
  exists a s, view_run (mk_view demo_node ∅ []) demo_store_ops = Ok (a, demo_answers) /\
    s_shm (v_sched a) !! lit "b|x" = Some (lit "more bytes than before") /\
    store_run (s_key_len_map demo_node) ([], fs_empty) demo_store_ops = Ok (s, demo_answers).
Proof.
  assert (match view_run (mk_view demo_node ∅ []) demo_store_ops with
          | Ok (a, xs) => xs = demo_answers /\ s_shm (v_sched a) !! lit "b|x" = Some (lit "more bytes than before")
          | Fault _ => False end) as H by (vm_compute; split; reflexivity).
  destruct (view_run _ demo_store_ops) as [[a xs]|] eqn:E; [|done]. destruct H as [-> Ha].
  destruct (store_implements_map demo_node demo_store_ops a demo_answers eq_refl E) as (s & Es & _). exists a, s. split; [reflexivity|split; [exact Ha|exact Es]].
Defined.

(** * Outside of it *)
(** [set_value] does not compare with the size of the object: ten bytes in an
    object of five are written over the count of its users, so that the object
    does not go when its only user deletes it. *)
Definition written_past (data : str) : res (option Z * bool) :=
  r ← Impl_new (mk_EpheObject (lit "b|k") 5 []) true fs_empty;
  let '(p, f) := r in
  f ← set_value p data f;
  n ← (match value_ p with Some m => Some <$> acc_of m (mapped (shm_id_ p)) f | None => Ok None end);
  f ← Impl_delete p f;
  Ok (n, bool_decide (fs_names f !! op_name (lit "b|k") = None)).
Lemma set_value_overwrites_count :
  written_past (lit "hello") = Ok (Some 1, true) /\ written_past (lit "helloworld") = Ok (Some 25708, false).
Proof. split; vm_compute; reflexivity. Qed.

(** An object that is created again with a smaller size is cut under the hands of
    those that have it open. *)
Definition created_smaller : res (store * list (option str)) :=
  store_run ∅ ([], fs_empty)
    [OCreate (mk_EpheObject (lit "b|k") 20 []); OSet 0 (lit "twenty bytes of data"); OCreate (mk_EpheObject (lit "b|k") 4 []); OValue 0 20].
Lemma created_smaller_cuts : created_smaller = Fault IndexPastEnd.
Proof. vm_compute. reflexivity. Qed.

(** A function that deletes its object after it sent it takes it from the
    function that is to read it. *)
Definition deleted_after_send (delete : bool) : res str :=
  r ← Impl_new (mk_EpheObject (lit "b|k") 20 []) true fs_empty;
  let '(p, f) := r in
  f ← set_value p (lit "hello") f;
  f ← (if delete then Impl_delete p f else Ok f);
  r ← Impl_new (mk_EpheObject (lit "b|k") 5 []) false f;
  get_value r.1 5 r.2.
Lemma deleted_object_is_gone : deleted_after_send false = Ok (lit "hello") /\ deleted_after_send true = Fault NullDeref.
Proof. split; vm_compute; reflexivity. Qed.
