(* ===== verification/Locks.v ===== *)
(** The locks of the IPC library ([shm-ipc/include/libipc/rw_lock.h]): a spin
    lock, and a lock for several readers or one writer. Every thread's every
    access to shared memory is a step of its own. *)
From stdpp Require Import prelude list.
From Stdlib Require Import ZArith Lia.
From S2P Require Import Prelude Cpp Interleave.

Open Scope Z_scope.

(** * Readers and writers *)
Definition w_mask : Z := 2 ^ 31 - 1.
Definition w_flag : Z := w_mask + 1.

Inductive rw_op := ReadOp | WriteOp.

(** Where a thread is: about to make an access, or inside. *)
Inductive rw_pc :=
  | RwIdle
  (* lock *)
  | WFetch
  | WWait
  | Writing
  (* lock_shared *)
  | RLoad
  | RTry (old : Z)
  | Reading.

Record rw_thread := mk_rw_thread { rw_todo : list rw_op; rw_at : rw_pc }.

(** [lock] and [unlock]. *)
Definition write_step (lc : Z) (p : rw_pc) : option (Z * rw_pc) :=
  match p with
  | WFetch =>
      let old := lc in
      Some (Z.lor old w_flag, if old =? 0 then Writing else if Z.land old w_flag =? 0 then WWait else WFetch)
  | WWait => Some (lc, if Z.land lc w_mask =? 0 then Writing else WWait)
  | Writing => Some (0, RwIdle)
  | _ => None
  end.

(** [lock_shared] and [unlock_shared]; a failed exchange stores what it found
    in [old]. *)
Definition read_step (spurious : bool) (lc : Z) (p : rw_pc) : option (Z * rw_pc) :=
  match p with
  | RLoad => Some (lc, RTry lc)
  | RTry old =>
      if negb (Z.land old w_flag =? 0) then Some (lc, RTry lc)
      else if negb spurious && (lc =? old) then Some (u32 (old + 1), Reading)
      else Some (lc, RTry lc)
  | Reading => Some (u32 (lc - 1), RwIdle)
  | _ => None
  end.

Definition rw_step (spurious : bool) (lc : Z) (l : rw_thread) : option (Z * rw_thread * list unit) :=
  match rw_at l with
  | RwIdle =>
      match rw_todo l with
      | [] => None
      | WriteOp :: ops => Some (lc, mk_rw_thread ops WFetch, [])
      | ReadOp :: ops => Some (lc, mk_rw_thread ops RLoad, [])
      end
  | p =>
      '(lc, p) ← match write_step lc p with Some r => Some r | None => read_step spurious lc p end;
      Some (lc, mk_rw_thread (rw_todo l) p, [])
  end.

Definition rw_start (progs : list (list rw_op)) : sys Z rw_thread := (0, (fun ops => mk_rw_thread ops RwIdle) <$> progs).
Definition rw_run : sys Z rw_thread -> list (nat * bool) -> sys Z rw_thread * list (event unit) := sys_run rw_step.

(** ** Flag and count *)
Lemma land_w_flag r : 0 <= r < 2 ^ 31 -> Z.land r w_flag = 0.
Proof.
  intros Hr. change w_flag with (2 ^ 31). apply Z.bits_inj'. intros n Hn. rewrite Z.land_spec, Z.bits_0, Z.pow2_bits_eqb by lia.
  destruct (Z.eqb_spec 31 n) as [<-|]; [|apply andb_false_r]. rewrite andb_true_r. apply Z.testbit_false; [lia|]. by rewrite Z.div_small.
Qed.
Lemma lor_w_flag r : 0 <= r < 2 ^ 31 -> Z.lor r w_flag = r + w_flag.
Proof. intros Hr. by rewrite <- Z.lxor_lor, Z.add_nocarry_lxor by (by apply land_w_flag). Qed.
Lemma flagged_land r : 0 <= r < 2 ^ 31 -> Z.land (r + w_flag) w_flag = w_flag.
Proof. intros Hr. rewrite <- lor_w_flag, Z.land_lor_distr_l, land_w_flag by done. done. Qed.
Lemma flagged_lor r : 0 <= r < 2 ^ 31 -> Z.lor (r + w_flag) w_flag = r + w_flag.
Proof. intros Hr. rewrite <- lor_w_flag by done. by rewrite <- Z.lor_assoc. Qed.
Lemma flagged_count r : 0 <= r < 2 ^ 31 -> Z.land (r + w_flag) w_mask = r.
Proof. intros Hr. change w_mask with (Z.ones 31). rewrite Z.land_ones by lia. change w_flag with (1 * 2 ^ 31). rewrite Z.mod_add by lia. by apply Z.mod_small. Qed.

(** ** Invariant *)
Definition reading (l : rw_thread) : bool := match rw_at l with Reading => true | _ => false end.
Definition claiming (l : rw_thread) : bool := match rw_at l with WWait | Writing => true | _ => false end.
Definition writing (l : rw_thread) : bool := match rw_at l with Writing => true | _ => false end.

Record rw_inv (lc : Z) (ls : list rw_thread) : Prop := {
  rw_value : lc = Z.of_nat (count reading ls) + w_flag * Z.of_nat (count claiming ls);
  rw_one : (count claiming ls <= 1)%nat;
  rw_alone : (0 < count writing ls)%nat -> count reading ls = 0%nat;
  rw_few : Z.of_nat (length ls) < 2 ^ 31 }.

Lemma rw_readers lc ls : rw_inv lc ls -> 0 <= Z.of_nat (count reading ls) < 2 ^ 31.
Proof. intros Hi. pose proof (rw_few _ _ Hi). pose proof (count_le reading ls). lia. Qed.

(** The word by what the threads are doing. *)
Lemma rw_word lc ls : rw_inv lc ls ->
  let r := Z.of_nat (count reading ls) in
  (count claiming ls = 0%nat /\ lc = r /\ Z.land lc w_flag = 0 /\ Z.lor lc w_flag = r + w_flag) \/
  (count claiming ls = 1%nat /\ lc = r + w_flag /\ Z.land lc w_flag = w_flag /\ Z.lor lc w_flag = lc /\ Z.land lc w_mask = r).
Proof.
  intros Hi r. pose proof (rw_readers _ _ Hi) as Hr. destruct Hi as [Hv Ho _ _]. fold r in Hv, Hr.
  destruct (count claiming ls) as [|[|n]] eqn:E; [left|right|lia].
  - assert (lc = r) as -> by lia. split; [done|]. split; [done|]. split; [by apply land_w_flag|by apply lor_w_flag].
  - assert (lc = r + w_flag) as -> by lia. split; [done|]. split; [done|]. split; [by apply flagged_land|]. split; [by apply flagged_lor|by apply flagged_count].
Qed.

Lemma writing_claims ls : (count writing ls <= count claiming ls)%nat.
Proof. unfold count. induction ls as [|x ls IH]; [done|]. cbn [List.filter]. unfold writing, claiming in *. destruct (rw_at x); cbn [length]; lia. Qed.

(** Closes a case of a step, once the counts are known. *)
Ltac rw_close :=
  cbn [rw_at Nat.b2n] in *; split; rewrite ?length_insert; change w_flag with 2147483648 in *; [lia..|assumption].

(** One thread moves. *)
Lemma rw_step_inv w lc ls i l lc' l' new : rw_inv lc ls -> ls !! i = Some l -> rw_step w lc l = Some (lc', l', new) ->
  rw_inv lc' (<[i := l']> ls).
Proof.
  intros Hinv Hi Hs. pose proof (rw_readers _ _ Hinv) as Hr. pose proof (rw_word _ _ Hinv) as Hw. pose proof Hinv as [Hv Ho Ha Hf]. cbv zeta in Hw.
  pose proof (count_insert reading ls i l l' Hi) as Er. pose proof (count_insert claiming ls i l l' Hi) as Ec. pose proof (count_insert writing ls i l l' Hi) as Ew.
  pose proof (writing_claims ls) as Hwc. unfold reading, claiming, writing in Er, Ec, Ew. fold reading claiming writing in Er, Ec, Ew.
  destruct l as [ops p]. unfold rw_step in Hs. cbn [rw_at rw_todo] in *.
  change (2 ^ 31) with 2147483648 in Hr.
  destruct p; cbn [write_step read_step mbind option_bind] in Hs.
  - destruct ops as [|[] ops]; [done| |]; injection Hs as <- <- <-; rw_close.
  - injection Hs as <- <- <-. revert Er Ec Ew. destruct (Z.eqb_spec lc 0) as [Hz|Hnz].
    { destruct Hw as [(_ & E & _ & ->)|(_ & E & _)]; intros; [rw_close|]. change w_flag with 2147483648 in E. lia. }
    destruct Hw as [(E1 & E2 & -> & ->)|(E1 & E2 & -> & -> & _)]; [cbn [Z.eqb]; intros; rw_close|].
    change (w_flag =? 0) with false. intros. rw_close.
  - injection Hs as <- <- <-. destruct Hw as [(E1 & _)|(E1 & E2 & _ & _ & Em)]; [pose proof (count_pos claiming ls i _ Hi eq_refl); lia|]. revert Er Ec Ew. rewrite Em.
    destruct (Z.eqb_spec (Z.of_nat (count reading ls)) 0); intros; rw_close.
  - injection Hs as <- <- <-. pose proof (count_pos writing ls i _ Hi eq_refl). rw_close.
  - injection Hs as <- <- <-. rw_close.
  - destruct (Z.eqb_spec (Z.land old w_flag) 0) as [Hold|]; cbn [negb] in Hs; [|injection Hs as <- <- <-; rw_close].
    destruct (negb w && (lc =? old)) eqn:E; injection Hs as <- <- <-; [|rw_close].
    apply andb_true_iff in E as [_ <-%Z.eqb_eq]. destruct Hw as [(E1 & E2 & _)|(_ & _ & E3 & _)]; [|rewrite Hold in E3; done].
    assert (u32 (lc + 1) = lc + 1) as -> by (unfold u32; rewrite Z.mod_small; lia). rw_close.
  - injection Hs as <- <- <-. pose proof (count_pos reading ls i _ Hi eq_refl) as Hp.
    assert (u32 (lc - 1) = lc - 1) as ->; [|rw_close]. unfold u32. change w_flag with 2147483648 in *. rewrite Z.mod_small; lia.
Qed.

Lemma rw_run_inv progs sched : Z.of_nat (length progs) < 2 ^ 31 ->
  rw_inv (rw_run (rw_start progs) sched).1.1 (rw_run (rw_start progs) sched).1.2.
Proof.
  intros Hn. apply (sys_run_inv rw_step (fun s _ => rw_inv s.1 s.2)).
  - assert (forall f, f (mk_rw_thread [] RwIdle) = false -> (forall ops, f (mk_rw_thread ops RwIdle) = false) ->
      count f ((fun ops => mk_rw_thread ops RwIdle) <$> progs) = 0%nat) as Hz.
    { intros f _ Hf. unfold count. clear Hn. induction progs as [|ops progs IH]; [done|]. cbn [fmap list_fmap List.filter]. by rewrite Hf. }
    split; cbn [rw_start fst snd]; rewrite ?Hz by done; try lia. by rewrite length_fmap.
  - intros [lc ls] es [i w] Hinv. unfold sys_step. cbn [fst snd] in *. destruct (ls !! i) as [l|] eqn:Ei; [|done].
    destruct (rw_step w lc l) as [[[lc' l'] new]|] eqn:Es; [|done]. by eapply rw_step_inv.
Qed.

(** A writer is alone, and the lock is never stuck. Whatever the interleaving
    of fewer than 2^31 threads that take the lock to read or to write: while one
    writes no other thread reads or writes; and when no thread is inside, either
    the lock is free or there is a writer whose next step takes it inside. *)
Theorem rw_lock_excludes (progs : list (list rw_op)) (sched : list (nat * bool)) (s : sys Z rw_thread) :
  Z.of_nat (length progs) < 2 ^ 31 -> (rw_run (rw_start progs) sched).1 = s ->
  (forall i j l l', i <> j -> s.2 !! i = Some l -> s.2 !! j = Some l' -> rw_at l = Writing -> rw_at l' <> Writing /\ rw_at l' <> Reading) /\
  ((forall i l, s.2 !! i = Some l -> rw_at l <> Writing /\ rw_at l <> Reading) ->
    s.1 = 0 \/ exists i l, s.2 !! i = Some l /\ forall b, rw_step b s.1 l = Some (s.1, mk_rw_thread (rw_todo l) Writing, [])).
Proof.
  intros Hn <-. pose proof (rw_run_inv progs sched Hn) as Hinv. destruct (rw_run (rw_start progs) sched).1 as [lc ls]. cbn [fst snd] in *.
  pose proof Hinv as [Hv Ho Ha _]. split.
  - intros i j l l' Hne Hi Hj Hw. pose proof (count_pos writing ls i l Hi) as Hp. unfold writing in Hp at 1. rewrite Hw in Hp. specialize (Ha (Hp eq_refl)). split; intros E.
    + pose proof (count_insert claiming ls i l (mk_rw_thread [] RwIdle) Hi) as Hc. unfold claiming in Hc at 2. rewrite Hw in Hc. cbn in Hc.
      pose proof (count_pos claiming (<[i := mk_rw_thread [] RwIdle]> ls) j l') as Hp'. rewrite list_lookup_insert_ne in Hp' by done.
      unfold claiming in Hp' at 1. rewrite E in Hp'. specialize (Hp' Hj eq_refl). lia.
    + pose proof (count_zero reading ls j l' Ha Hj) as Hr. unfold reading in Hr. by rewrite E in Hr.
  - intros Hnone. assert (forall f, (forall l, f l = true -> rw_at l = Writing \/ rw_at l = Reading) -> count f ls = 0%nat) as Hz.
    { intros f Hf. unfold count. assert (forall l, l ∈ ls -> f l = false) as Hl.
      { intros l [i Hi]%list_elem_of_lookup. destruct (f l) eqn:E; [|done]. destruct (Hnone _ _ Hi). destruct (Hf _ E); done. }
      clear -Hl. induction ls as [|x ls IH]; [done|]. cbn [List.filter]. rewrite (Hl x) by left. apply IH. set_solver. }
    assert (count reading ls = 0%nat) as Hr by (apply Hz; intros l; unfold reading; destruct (rw_at l); auto; done).
    destruct (rw_word _ _ Hinv) as [(Hc & E & _)|(Hc & _ & _ & _ & Em)]; [left; lia|right].
    assert (exists i l, ls !! i = Some l /\ claiming l = true) as (i & l & Hi & Hcl).
    { clear -Hc. unfold count in Hc. induction ls as [|x ls IH]; [done|]. cbn [List.filter] in Hc. destruct (claiming x) eqn:E; [by exists 0%nat, x|].
      destruct (IH Hc) as (i & l & ? & ?). by exists (S i), l. }
    exists i, l. split; [done|]. intros b. destruct (Hnone _ _ Hi) as [Hnw _]. unfold claiming in Hcl. unfold rw_step.
    destruct (rw_at l); try done. cbn [write_step mbind option_bind]. by rewrite Em, Hr.
Qed.

Definition demo_locks : list (list rw_op) := [[WriteOp; ReadOp]; [ReadOp; ReadOp]; [WriteOp]].
(** A reader inside, a writer that has announced itself, another that spins. *)
Definition demo_turns : list (nat * bool) := [(1, false); (1, false); (1, true); (1, false); (0, false); (0, false); (2, false); (2, false)]%nat.
Lemma rw_lock_excludes_witness : exists s, (rw_run (rw_start demo_locks) demo_turns).1 = s /\
  s = (1 + w_flag, [mk_rw_thread [ReadOp] WWait; mk_rw_thread [ReadOp] Reading; mk_rw_thread [] WFetch]) /\
  (forall i j l l', i <> j -> s.2 !! i = Some l -> s.2 !! j = Some l' -> rw_at l = Writing -> rw_at l' <> Writing /\ rw_at l' <> Reading).
Proof.
  eexists. split; [reflexivity|]. split; [vm_compute; reflexivity|].
  apply (rw_lock_excludes demo_locks demo_turns _); [vm_compute; reflexivity|reflexivity].
Defined.

(** * The spin lock

    Threads that do what they do to the guarded state [D] between [lock] and
    [unlock], one access at a time: [mstep] is one access of an operation that
    is at [M], with where it goes on or its result. *)
Section critical.
Context {D O M R : Type}.
Variables (start : O -> M) (mstep : D -> M -> D * (M + R)).

Record guarded := mk_guarded { lc_ : Z; state_ : D }.
Inductive cs_pc := CsIdle | CsLock (o : O) | CsIn (o : O) (m : M) | CsUnlock.
Record cs_thread := mk_cs_thread { cs_todo : list O; cs_at : cs_pc; cs_results : list (O * R) }.

Definition cs_step (w : unit) (g : guarded) (l : cs_thread) : option (guarded * cs_thread * list (O * R)) :=
  match cs_at l with
  | CsIdle =>
      match cs_todo l with
      | [] => None
      | o :: ops => Some (g, mk_cs_thread ops (CsLock o) (cs_results l), [])
      end
  | CsLock o =>
      let old := lc_ g in
      Some (mk_guarded 1 (state_ g), mk_cs_thread (cs_todo l) (if negb (old =? 0) then CsLock o else CsIn o (start o)) (cs_results l), [])
  | CsIn o m =>
      match mstep (state_ g) m with
      | (d, inl m) => Some (mk_guarded (lc_ g) d, mk_cs_thread (cs_todo l) (CsIn o m) (cs_results l), [])
      | (d, inr r) => Some (mk_guarded (lc_ g) d, mk_cs_thread (cs_todo l) CsUnlock (cs_results l ++ [(o, r)]), [(o, r)])
      end
  | CsUnlock => Some (mk_guarded 0 (state_ g), mk_cs_thread (cs_todo l) CsIdle (cs_results l), [])
  end.

Definition cs_start (d : D) (progs : list (list O)) : sys guarded cs_thread := (mk_guarded 0 d, (fun ops => mk_cs_thread ops CsIdle []) <$> progs).
Definition cs_run : sys guarded cs_thread -> list (nat * unit) -> sys guarded cs_thread * list (event (O * R)) := sys_run cs_step.

(** An operation on its own, for some steps. *)
Inductive runs (d : D) (m : M) : D -> M + R -> Prop :=
  | runs_refl : runs d m d (inl m)
  | runs_step d1 m1 d2 x : runs d m d1 (inl m1) -> mstep d1 m1 = (d2, x) -> runs d m d2 x.

(** Whole operations one after the other. *)
Inductive in_order (d : D) : list (event (O * R)) -> D -> Prop :=
  | in_order_nil : in_order d [] d
  | in_order_snoc es d1 d2 i o r : in_order d es d1 -> runs d1 (start o) d2 (inr r) -> in_order d (es ++ [(i, (o, r))]) d2.

Definition outside (l : cs_thread) : Prop := match cs_at l with CsIdle | CsLock _ => True | _ => False end.

(** [d1] is the state after the whole operations so far. *)
Definition cs_inv (d : D) (s : sys guarded cs_thread) (es : list (event (O * R))) : Prop :=
  exists d1, in_order d es d1 /\
    ((lc_ s.1 = 0 /\ state_ s.1 = d1 /\ forall i l, s.2 !! i = Some l -> outside l) \/
     (lc_ s.1 = 1 /\ exists i l, s.2 !! i = Some l /\ (forall j l', s.2 !! j = Some l' -> j <> i -> outside l') /\
        match cs_at l with
        | CsIn o m => runs d1 (start o) (state_ s.1) (inl m)
        | CsUnlock => state_ s.1 = d1
        | _ => False
        end)).

(** A step of a thread that is not inside and stays so. *)
Lemma cs_inv_outside d g g' ls es i l l' : cs_inv d (g, ls) es -> ls !! i = Some l -> outside l -> outside l' ->
  (lc_ g' = lc_ g) -> state_ g' = state_ g -> cs_inv d (g', <[i := l']> ls) es.
Proof.
  intros (d1 & Ho & Hcase) Hi Hl Hl' El Es. exists d1. split; [done|]. cbn [fst snd] in *. rewrite El, Es.
  destruct Hcase as [(H0 & Hd & Hall)|(H1 & j & lj & Hj & Hothers & Hin)]; [left|right].
  - split; [done|]. split; [done|]. intros j lj [(<- & <- & _)|(Hne & Hj)]%list_lookup_insert_Some; [done|by eapply Hall].
  - split; [done|]. exists j, lj. assert (j <> i) as Hne by (intros ->; assert (lj = l) as -> by congruence; unfold outside in Hl; by destruct (cs_at l)).
    rewrite list_lookup_insert_ne by done. split; [done|]. split; [|done].
    intros k lk [(<- & <- & _)|(Hne' & Hk)]%list_lookup_insert_Some Hkj; [done|by eapply Hothers].
Qed.

(** A step of the thread that is inside. *)
Lemma cs_inv_inside d g ls es i l : cs_inv d (g, ls) es -> ls !! i = Some l -> ~ outside l ->
  exists d1, in_order d es d1 /\ lc_ g = 1 /\ (forall j l', ls !! j = Some l' -> j <> i -> outside l') /\
    match cs_at l with CsIn o m => runs d1 (start o) (state_ g) (inl m) | CsUnlock => state_ g = d1 | _ => False end.
Proof.
  intros (d1 & Ho & [(_ & _ & Hall)|(H1 & j & lj & Hj & Hothers & Hin)]) Hi Hl; cbn [fst snd] in *; [by apply Hall in Hi|].
  exists d1. destruct (decide (i = j)) as [->|Hne]; [by simplify_eq|]. by apply Hothers in Hi.
Qed.

Lemma cs_others_insert (ls : list cs_thread) (i : nat) (l' : cs_thread) : (forall j l, ls !! j = Some l -> j <> i -> outside l) ->
  forall j l, <[i := l']> ls !! j = Some l -> j <> i -> outside l.
Proof. intros Ho j l Hj Hne. rewrite list_lookup_insert_ne in Hj by done. by eapply Ho. Qed.

Lemma cs_step_inv d g ls es i l g' l' new : cs_inv d (g, ls) es -> ls !! i = Some l -> cs_step () g l = Some (g', l', new) ->
  cs_inv d (g', <[i := l']> ls) (es ++ (pair i <$> new)).
Proof.
  intros Hinv Hi Hs. assert (i < length ls)%nat as Hlt by (by eapply lookup_lt_Some). unfold cs_step in Hs. destruct (cs_at l) as [|o|o m|] eqn:Ep.
  - destruct (cs_todo l) as [|o ops]; [done|]. injection Hs as <- <- <-. rewrite app_nil_r. eapply cs_inv_outside; try done. unfold outside. by rewrite Ep.
  - injection Hs as <- <- <-. rewrite app_nil_r. assert (outside l) as Hout by (unfold outside; by rewrite Ep). destruct (Z.eqb_spec (lc_ g) 0) as [E0|E0]; cbn [negb].
    + destruct Hinv as (d1 & Ho & [(_ & Hd & Hall)|(H1 & _)]); cbn [fst snd] in *; [|lia]. exists d1. split; [done|]. right. split; [done|].
      eexists i, _. cbn [fst snd]. rewrite list_lookup_insert_eq by done. split; [done|]. split; [|cbn; rewrite Hd; constructor].
      apply cs_others_insert. intros j lj Hj _. by eapply Hall.
    + pose proof Hinv as (d1 & Ho & [(H0 & _)|(H1 & _)]); cbn [fst snd] in *; [done|]. eapply cs_inv_outside; try done.
  - destruct (cs_inv_inside _ _ _ _ _ _ Hinv Hi) as (d1 & Ho & H1 & Hothers & Hin); [unfold outside; rewrite Ep; tauto|]. rewrite Ep in Hin.
    destruct (mstep (state_ g) m) as [d2 [m2|r]] eqn:Em; injection Hs as <- <- <-.
    + rewrite app_nil_r. exists d1. split; [done|]. right. split; [done|]. eexists i, _. cbn [fst snd]. rewrite list_lookup_insert_eq by done. split; [done|].
      split; [by apply cs_others_insert|]. cbn. by econstructor.
    + exists d2. split; [cbn; econstructor; [done|by econstructor]|]. right. split; [done|]. eexists i, _. cbn [fst snd]. rewrite list_lookup_insert_eq by done. split; [done|].
      split; [by apply cs_others_insert|done].
  - destruct (cs_inv_inside _ _ _ _ _ _ Hinv Hi) as (d1 & Ho & H1 & Hothers & Hin); [unfold outside; rewrite Ep; tauto|]. rewrite Ep in Hin.
    injection Hs as <- <- <-. rewrite app_nil_r. exists d1. split; [done|]. left. split; [done|]. split; [done|]. cbn [fst snd].
    intros j lj [(<- & <- & _)|(Hne & Hj)]%list_lookup_insert_Some; [done|by eapply Hothers].
Qed.

Lemma cs_run_inv d progs sched : cs_inv d (cs_run (cs_start d progs) sched).1 (cs_run (cs_start d progs) sched).2.
Proof.
  apply (sys_run_inv cs_step (cs_inv d)).
  - exists d. split; [constructor|]. left. split; [done|]. split; [done|]. intros i l Hl. cbn [cs_start snd] in Hl.
    rewrite list_lookup_fmap in Hl. apply fmap_Some in Hl as (ops & _ & ->). done.
  - intros [g ls] es [i []] Hinv. unfold sys_step. cbn [fst snd]. destruct (ls !! i) as [l|] eqn:Ei; [|by rewrite app_nil_r].
    destruct (cs_step () g l) as [[[g' l'] new]|] eqn:Es; [|by rewrite app_nil_r]. by eapply cs_step_inv.
Qed.
End critical.
