(* ===== verification/PoolShared.v ===== *)
(** The block pool under its lock ([shm-ipc/src/ipc.cpp], [apply_storage] and
    [recycle_storage]): threads of several processes that take and give back
    block numbers, every access to the pool a step of its own. *)
From stdpp Require Import prelude list.
From Stdlib Require Import ZArith Lia.
From S2P Require Import Prelude Cpp Interleave IdPool Locks.

Open Scope Z_scope.

(** * The operations, access by access *)
Inductive pool_at := PTest | PInit (i : Z) | PMark | PCursor | PNext (id : Z) | FLink (id : Z) | FCursor (id : Z).

Definition pool_start (o : pool_op) : pool_at := match o with Acquire => PTest | Release id => FLink id end.

Definition pool_mstep (p : id_pool) (m : pool_at) : id_pool * (pool_at + res (option Z)) :=
  match m with
  | PTest => (p, inl (if negb (prepared_ p) && pool_invalid p then PInit 0 else PMark))
  | PInit i =>
      if i <? max_count then let v := u8 (i + 1) in (mk_id_pool (<[Z.to_nat i := v]> (next_ p)) (cursor_ p) (prepared_ p), inl (PInit v))
      else (p, inl PMark)
  | PMark => (mk_id_pool (next_ p) (cursor_ p) true, inl PCursor)
  | PCursor => if pool_empty p then (p, inr (Ok None)) else (p, inl (PNext (cursor_ p)))
  | PNext id =>
      match vec_at (next_ p) (Z.to_nat id) with
      | Ok n => (mk_id_pool (next_ p) n (prepared_ p), inr (Ok (Some id)))
      | Fault f => (p, inr (Fault f))
      end
  | FLink id =>
      if id =? invalid_value then (p, inr (Ok None))
      else
        match vec_at (next_ p) (Z.to_nat id) with
        | Ok _ => (mk_id_pool (<[Z.to_nat id := cursor_ p]> (next_ p)) (cursor_ p) (prepared_ p), inl (FCursor id))
        | Fault f => (p, inr (Fault f))
        end
  | FCursor id => (mk_id_pool (next_ p) (u8 id) (prepared_ p), inr (Ok None))
  end.

(** * The operations as a whole *)
Definition pool_whole (p : id_pool) (o : pool_op) : id_pool * res (option Z) :=
  match o with
  | Acquire => match acquire (prepare p) with Ok (r, p') => (p', Ok r) | Fault f => (prepare p, Fault f) end
  | Release id => match release id p with Ok p' => (p', Ok None) | Fault f => (p, Fault f) end
  end.

Fixpoint exec (n : nat) (p : id_pool) (m : pool_at) : option (id_pool * res (option Z)) :=
  match n with
  | O => None
  | S n => match pool_mstep p m with (p, inl m) => exec n p m | (p, inr r) => Some (p, r) end
  end.

Lemma exec_more n k p m x : exec n p m = Some x -> exec (n + k) p m = Some x.
Proof.
  revert p m. induction n as [|n IH]; intros p m; [done|]. cbn [exec Nat.add]. destruct (pool_mstep p m) as [p1 [m1|r]]; [apply IH|done].
Qed.

Lemma runs_exec p m p' x : runs pool_mstep p m p' x ->
  match x with inl m' => exists k, forall n y, exec n p' m' = Some y -> exec (k + n) p m = Some y | inr r => exists n, exec n p m = Some (p', r) end.
Proof.
  induction 1 as [|p1 m1 p2 x _ IH Hs]; [by exists 0%nat|]. destruct IH as [k IH]. destruct x as [m2|r].
  - exists (S k). intros n y Hy. replace (S k + n)%nat with (k + S n)%nat by lia. apply IH. cbn [exec]. by rewrite Hs.
  - exists (k + 1)%nat. apply IH. cbn [exec]. by rewrite Hs.
Qed.

Lemma exec_unique n k p m x y : exec n p m = Some x -> exec k p m = Some y -> x = y.
Proof. intros Hx Hy. apply (exec_more _ k) in Hx. apply (exec_more _ n) in Hy. rewrite Nat.add_comm in Hy. congruence. Qed.

Lemma pool_invalid_zero p : negb (prepared_ p) && pool_invalid p = true -> p = pool_zero.
Proof.
  destruct p as [n c b]. unfold pool_invalid. cbn [next_ cursor_ prepared_].
  intros [_ [[Hn%bool_decide_eq_true Hc%Z.eqb_eq]%andb_true_iff Hb%negb_true_iff]%andb_true_iff]%andb_true_iff. by subst.
Qed.

(** Access by access or as a whole. *)
Lemma exec_whole p o : exists n, exec n p (pool_start o) = Some (pool_whole p o).
Proof.
  destruct o as [|id]; cbn [pool_start pool_whole].
  - destruct (negb (prepared_ p) && pool_invalid p) eqn:E.
    { apply pool_invalid_zero in E as ->. exists 40%nat. vm_compute. reflexivity. }
    exists 4%nat. unfold prepare. rewrite E. cbn [exec pool_mstep]. rewrite E. cbn [exec pool_mstep]. unfold acquire.
    destruct (pool_empty _); [done|]. cbn [cursor_ next_ prepared_ pool_mstep].
    destruct (vec_at (next_ p) (Z.to_nat (cursor_ p))); done.
  - exists 2%nat. cbn [exec pool_mstep]. unfold release. destruct (id =? invalid_value); [done|]. by destruct (vec_at (next_ p) (Z.to_nat id)).
Qed.

Lemma runs_whole p o p' r : runs pool_mstep p (pool_start o) p' (inr r) -> pool_whole p o = (p', r).
Proof. intros [n Hn]%runs_exec. destruct (exec_whole p o) as [k Hk]. by eapply exec_unique. Qed.

(** * Histories *)
Abbreviation pool_event := (event (pool_op * res (option Z))).

(** The numbers held after a history; [None] when one was given back that
    nobody held. *)
Definition held_step (h : option (list Z)) (e : pool_event) : option (list Z) :=
  h ← h;
  match e.2 with
  | (Acquire, Ok (Some id)) => Some (id :: h)
  | (Acquire, _) => Some h
  | (Release id, _) => if decide (id ∈ h) then Some (filter (fun x => x <> id) h) else None
  end.
Definition held_after (es : list pool_event) : option (list Z) := foldl held_step (Some []) es.

(** What the history of operations shows of the pool. *)
Lemma in_order_held es p h : in_order pool_start pool_mstep pool_zero es p -> held_after es = Some h ->
  pool_inv (p, h) /\ forall e, e ∈ es -> exists r, e.2.2 = Ok r.
Proof.
  intros Ho. revert h. induction Ho as [|es p1 p2 i o r Ho IH Hr]; intros h Hh.
  - injection Hh as <-. split; [|by intros e ?%elem_of_nil]. exists (seqZ 0 max_count). split; [apply prepare_zero_ok|]. by rewrite app_nil_r.
  - apply runs_whole in Hr. unfold held_after in Hh. rewrite foldl_app in Hh. cbn [foldl] in Hh. fold (held_after es) in Hh.
    destruct (held_after es) as [h1|] eqn:Eh; [|done]. destruct (IH h1 eq_refl) as [Hinv Hok]. cbn [held_step mbind option_bind snd] in Hh.
    destruct (pool_step_inv (p1, h1) o) as ([p' h'] & Es & Hinv'); [done|].
    assert (pool_inv (p2, h) /\ exists x, r = Ok x) as [Hnew [x ->]].
    { destruct o as [|id]; cbn [pool_step pool_whole] in *.
      - destruct (acquire (prepare p1)) as [[[id|] pa]|] eqn:Ea; simplify_eq/=; eauto.
      - case_decide as Hin; [|done]. destruct (release id p1) as [pa|] eqn:Ea; simplify_eq/=; eauto. }
    split; [done|]. intros e [He|He%list_elem_of_singleton]%elem_of_app; [by apply Hok|subst e; by exists x].
Qed.

(** The pool is safe to share. Any number of threads take and give back block
    numbers, access by access in any interleaving, each operation between [lock]
    and [unlock] of the spin lock: the operations take effect whole and one after
    the other, at most one thread is inside, and as long as only held numbers are
    given back no operation runs out of the array and no number is held twice. *)
Theorem shared_pool_exclusive (progs : list (list pool_op)) (sched : list (nat * unit)) (s : sys guarded cs_thread) (es : list pool_event) (h : list Z) :
  cs_run pool_start pool_mstep (cs_start pool_zero progs) sched = (s, es) -> held_after es = Some h ->
  NoDup h /\ (forall x, x ∈ h -> 0 <= x < max_count) /\ (forall e, e ∈ es -> exists r, e.2.2 = Ok r) /\
  (forall i j l l', s.2 !! i = Some l -> s.2 !! j = Some l' -> ~ outside l -> ~ outside l' -> i = j).
Proof.
  intros Hrun Hh. pose proof (cs_run_inv pool_start pool_mstep pool_zero progs sched) as (p & Ho & Hcase). rewrite Hrun in Ho, Hcase. cbn [fst snd] in *.
  destruct (in_order_held _ _ _ Ho Hh) as [(free & _ & HP & _) Hok]. destruct (held_facts _ _ HP) as (Hnd & Hfacts & _).
  split; [done|]. split; [intros x Hx; by apply Hfacts|]. split; [done|]. intros i j l l' Hi Hj Hl Hl'.
  destruct Hcase as [(_ & _ & Hall)|(_ & k & lk & _ & Hothers & _)]; [by apply Hall in Hi|].
  destruct (decide (i = k)) as [->|Hne]; [|by apply Hothers in Hi]. destruct (decide (j = k)) as [->|Hne]; [done|by apply Hothers in Hj].
Qed.

Definition pool_progs : list (list pool_op) := [[Acquire; Acquire]; [Acquire; Release 1]].
(** The second thread tries to get in while the first initialises the pool. *)
Definition pool_turns : list (nat * unit) :=
  (fun i => (i, ())) <$> replicate 30 0%nat ++ replicate 5 1%nat ++ replicate 20 0%nat ++ replicate 20 1%nat.
Lemma shared_pool_exclusive_witness : exists s es h,
  cs_run pool_start pool_mstep (cs_start pool_zero pool_progs) pool_turns = (s, es) /\ held_after es = Some h /\
  h = [2; 0] /\ NoDup h /\ forall e, e ∈ es -> exists r, e.2.2 = Ok r.
Proof.
  destruct (cs_run pool_start pool_mstep (cs_start pool_zero pool_progs) pool_turns) as [s es] eqn:E.
  assert (held_after es = Some [2; 0]) as Hh.
  { change es with ((s, es).2). rewrite <- E. vm_compute. reflexivity. }
  destruct (shared_pool_exclusive pool_progs pool_turns s es [2; 0] E Hh) as (Hnd & _ & Hok & _).
  exists s, es, [2; 0]. exact (conj eq_refl (conj Hh (conj eq_refl (conj Hnd Hok)))).
Defined.
