(* ===== verification/Waiter.v ===== *)
(** Waiting for a message ([shm-ipc/src/ipc.cpp], [wait_for];
    [shm-ipc/src/libipc/waiter_helper.h]): a receiver that finds nothing goes to
    sleep on a semaphore, and whoever sends wakes the sleepers. Each access to
    shared memory is a step of its own; the handles are not closed meanwhile, and
    each receiver has its own.

    What is waited for is a number of items: taking one is one step, as it is for
    a ring with one receiver. *)
From stdpp Require Import prelude list.
From Stdlib Require Import ZArith Lia.
From S2P Require Import Prelude Cpp Interleave.

Open Scope Z_scope.

(** * State *)
(** The items, [wait_counter], [lock_] and the two semaphores. *)
Record waiter := mk_waiter { items_ : nat; waiting_ : Z; counter_ : Z; locked_ : bool; sema_ : nat; handshake_ : nat }.

Inductive wait_op := Recv | Send.

Inductive wait_pc :=
  | WIdle
  (* wait_for and wait_if *)
  | CTry
  | CEnter
  | CLock
  | CPred
  | CFound
  | CFoundLeave
  | CCount
  | CUnlock
  | CWait
  | CLeave (ret : bool)
  | CShake (ret : bool)
  (* push and broadcast *)
  | PPush
  | PLoad
  | PLock
  | PTest
  | PPost (left : nat)
  | PDec (ret : bool)
  | PShake (ret : bool)
  | PUnlock.

(** The answers of [wait_for], for receivers. *)
Record wait_thread := mk_wait_thread { w_todo : list wait_op; w_at : wait_pc; w_answers : list bool }.

Definition to_pc (p : wait_pc) (l : wait_thread) : wait_thread := mk_wait_thread (w_todo l) p (w_answers l).
Definition answer (b : bool) (l : wait_thread) : wait_thread := mk_wait_thread (w_todo l) WIdle (w_answers l ++ [b]).

Definition set_items x (g : waiter) := mk_waiter x (waiting_ g) (counter_ g) (locked_ g) (sema_ g) (handshake_ g).
Definition set_waiting x (g : waiter) := mk_waiter (items_ g) x (counter_ g) (locked_ g) (sema_ g) (handshake_ g).
Definition set_counter x (g : waiter) := mk_waiter (items_ g) (waiting_ g) x (locked_ g) (sema_ g) (handshake_ g).
Definition set_locked x (g : waiter) := mk_waiter (items_ g) (waiting_ g) (counter_ g) x (sema_ g) (handshake_ g).
Definition set_sema x (g : waiter) := mk_waiter (items_ g) (waiting_ g) (counter_ g) (locked_ g) x (handshake_ g).
Definition set_handshake x (g : waiter) := mk_waiter (items_ g) (waiting_ g) (counter_ g) (locked_ g) (sema_ g) x.

(** * Receivers

    [w]: keep spinning where that is possible, and do not wait any longer. [None]:
    blocked. *)
Definition wait_step (w : bool) (g : waiter) (l : wait_thread) : option (waiter * wait_thread) :=
  match w_at l with
  | CTry =>
      match items_ g with
      | S n => Some (set_items n g, answer true l)
      | O => Some (g, to_pc (if w then CTry else CEnter) l)
      end
  | CEnter => Some (set_waiting (u32 (waiting_ g + 1)) g, to_pc CLock l)
  | CLock => if locked_ g then None else Some (set_locked true g, to_pc CPred l)
  | CPred =>
      match items_ g with
      | S n => Some (set_items n g, to_pc CFound l)
      | O => Some (g, to_pc CCount l)
      end
  | CFound => Some (set_locked false g, to_pc CFoundLeave l)
  | CFoundLeave => Some (set_waiting (u32 (waiting_ g - 1)) g, answer true l)
  | CCount => Some (set_counter (counter_ g + 1) g, to_pc CUnlock l)
  | CUnlock => Some (set_locked false g, to_pc CWait l)
  | CWait =>
      if w then Some (g, to_pc (CLeave false) l)
      else match sema_ g with S n => Some (set_sema n g, to_pc (CLeave true) l) | O => None end
  | CLeave ret => Some (set_waiting (u32 (waiting_ g - 1)) g, to_pc (CShake ret) l)
  | CShake ret => Some (set_handshake (S (handshake_ g)) g, if ret then to_pc CTry l else answer false l)
  | _ => None
  end.

(** * Senders *)
Definition notify_step (w : bool) (g : waiter) (l : wait_thread) : option (waiter * wait_thread) :=
  match w_at l with
  | PPush => Some (set_items (S (items_ g)) g, to_pc PLoad l)
  | PLoad => Some (g, to_pc (if waiting_ g =? 0 then WIdle else PLock) l)
  | PLock => if locked_ g then None else Some (set_locked true g, to_pc PTest l)
  | PTest => Some (g, to_pc (if 0 <? counter_ g then PPost (Z.to_nat (counter_ g)) else PUnlock) l)
  | PPost (S n) => Some (set_sema (S (sema_ g)) g, to_pc (PPost n) l)
  | PPost O => Some (g, to_pc (PDec true) l)
  | PDec ret => Some (set_counter (counter_ g - 1) g, to_pc (PShake ret) l)
  | PShake ret =>
      let next ret := to_pc (if 0 <? counter_ g then PDec ret else PUnlock) l in
      if negb ret || w then Some (g, next false)
      else match handshake_ g with S n => Some (set_handshake n g, next true) | O => None end
  | PUnlock => Some (set_locked false g, to_pc WIdle l)
  | _ => None
  end.

Definition waiter_step (w : bool) (g : waiter) (l : wait_thread) : option (waiter * wait_thread * list unit) :=
  match w_at l with
  | WIdle =>
      match w_todo l with
      | [] => None
      | Recv :: ops => Some (g, mk_wait_thread ops CTry (w_answers l), [])
      | Send :: ops => Some (g, mk_wait_thread ops PPush (w_answers l), [])
      end
  | _ => '(g, l) ← match wait_step w g l with Some r => Some r | None => notify_step w g l end; Some (g, l, [])
  end.

Definition waiter_start (progs : list (list wait_op)) : sys waiter wait_thread :=
  (mk_waiter 0 0 0 false 0 0, (fun ops => mk_wait_thread ops WIdle []) <$> progs).
Definition waiter_run : sys waiter wait_thread -> list (nat * bool) -> sys waiter wait_thread * list (event unit) := sys_run waiter_step.

(** * Who is where *)
(** Counted in [waiting_]. *)
Definition waits (l : wait_thread) : bool :=
  match w_at l with CLock | CPred | CFound | CFoundLeave | CCount | CUnlock | CWait | CLeave _ => true | _ => false end.
Definition owns_lock (l : wait_thread) : bool :=
  match w_at l with CPred | CFound | CCount | CUnlock | PTest | PPost _ | PDec _ | PShake _ | PUnlock => true | _ => false end.
(** On the way to sleep, or asleep. *)
Definition committed (l : wait_thread) : bool := match w_at l with CUnlock | CWait => true | _ => false end.
(** With an item sent, and sleepers not yet woken. *)
Definition announcing (l : wait_thread) : bool := match w_at l with PLoad | PLock => true | _ => false end.
Definition waking (l : wait_thread) : bool := match w_at l with PLoad | PLock | PTest | PPost _ => true | _ => false end.
Definition posting (l : wait_thread) : bool := match w_at l with PPost _ | PDec _ | PShake _ | PUnlock => true | _ => false end.

(** Every sleeper is counted or has been posted for. *)
Definition covered (g : waiter) (ls : list wait_thread) (l : wait_thread) : Prop :=
  match w_at l with
  | PPost n => (count committed ls <= sema_ g + n)%nat /\ 0 < counter_ g
  | PDec _ => (count committed ls <= sema_ g)%nat /\ 0 < counter_ g
  | PShake _ | PUnlock => (count committed ls <= sema_ g)%nat
  | CCount => items_ g = 0%nat \/ (0 < count announcing ls)%nat
  | _ => True
  end.

Record waiter_inv (g : waiter) (ls : list wait_thread) : Prop := {
  wi_waiting : waiting_ g = Z.of_nat (count waits ls);
  wi_few : Z.of_nat (length ls) < 2 ^ 32;
  wi_lock : count owns_lock ls = Nat.b2n (locked_ g);
  wi_counter : 0 <= counter_ g;
  wi_covered i l : ls !! i = Some l -> covered g ls l;
  wi_free : (0 < count posting ls)%nat \/ Z.of_nat (count committed ls) <= Z.of_nat (sema_ g) + counter_ g;
  wi_lost : (sema_ g < count committed ls)%nat -> items_ g = 0%nat \/ (0 < count waking ls)%nat }.

Lemma covered_outside g ls l : owns_lock l = false -> covered g ls l.
Proof. unfold owns_lock, covered. by destruct (w_at l). Qed.

Lemma one_owner (ls : list wait_thread) i j l l' : (count owns_lock ls <= 1)%nat -> ls !! i = Some l -> owns_lock l = true -> j <> i -> ls !! j = Some l' -> owns_lock l' = false.
Proof.
  intros Hone Hi Hl Hne Hj. destruct (owns_lock l') eqn:E; [|done]. pose proof (count_insert owns_lock ls i l (mk_wait_thread [] WIdle []) Hi) as Hc. rewrite Hl in Hc.
  pose proof (count_pos owns_lock (<[i := mk_wait_thread [] WIdle []]> ls) j l') as Hp. rewrite list_lookup_insert_ne in Hp by done. specialize (Hp Hj E). cbn in Hc. lia.
Qed.

(** The others keep their assertions when what they rely on does not get worse. *)
Lemma covered_kept g ls g' ls' l : covered g ls l -> counter_ g' = counter_ g ->
  (count committed ls' + sema_ g <= count committed ls + sema_ g')%nat ->
  (items_ g = 0%nat \/ (0 < count announcing ls)%nat -> items_ g' = 0%nat \/ (0 < count announcing ls')%nat) -> covered g' ls' l.
Proof. unfold covered. intros Hc Ec Hs Hi. destruct (w_at l); rewrite ?Ec; try done; try lia; auto. Qed.

(** A thread of the list moves: what is left to show. *)
Lemma waiter_inv_step g ls i l g' l' : waiter_inv g ls -> ls !! i = Some l ->
  let ls' := <[i := l']> ls in
  waiting_ g' = Z.of_nat (count waits ls') -> count owns_lock ls' = Nat.b2n (locked_ g') -> 0 <= counter_ g' -> covered g' ls' l' ->
  (owns_lock l = true \/ count owns_lock ls = 0%nat \/ (forall j lj, ls !! j = Some lj -> covered g ls lj -> covered g' ls' lj)) ->
  (0 < count posting ls')%nat \/ Z.of_nat (count committed ls') <= Z.of_nat (sema_ g') + counter_ g' ->
  ((sema_ g' < count committed ls')%nat -> items_ g' = 0%nat \/ (0 < count waking ls')%nat) -> waiter_inv g' ls'.
Proof.
  intros [Hw Hf Hl Hc Hcov Hfree Hlost] Hi ls' H1 H2 H3 H4 H5 H6 H7. split; try done; [by unfold ls'; rewrite length_insert|].
  intros j lj [(<- & <- & _)|(Hne & Hj)]%list_lookup_insert_Some; [done|]. destruct H5 as [Ho|[H0|Hk]]; [| |eauto].
  - apply covered_outside. eapply (one_owner ls i j); eauto. rewrite Hl. destruct (locked_ g); cbn; lia.
  - apply covered_outside. by eapply count_zero.
Qed.

Lemma posting_owns ls : (count posting ls <= count owns_lock ls)%nat.
Proof. unfold count. induction ls as [|x ls IH]; [done|]. cbn [List.filter]. unfold posting, owns_lock in *. destruct (w_at x); cbn [length]; lia. Qed.
Lemma committed_waits ls : (count committed ls <= count waits ls)%nat.
Proof. unfold count. induction ls as [|x ls IH]; [done|]. cbn [List.filter]. unfold committed, waits in *. destruct (w_at x); cbn [length]; lia. Qed.
Lemma announcing_waking ls : (count announcing ls <= count waking ls)%nat.
Proof. unfold count. induction ls as [|x ls IH]; [done|]. cbn [List.filter]. unfold announcing, waking in *. destruct (w_at x); cbn [length]; lia. Qed.

(** The owner of the lock is the only one that can be posting. *)
Lemma owner_posting (ls : list wait_thread) i l : (count owns_lock ls <= 1)%nat -> ls !! i = Some l -> owns_lock l = true -> posting l = false -> count posting ls = 0%nat.
Proof.
  intros Hone Hi Ho Hp. pose proof (count_insert owns_lock ls i l (mk_wait_thread [] WIdle []) Hi) as E1.
  pose proof (count_insert posting ls i l (mk_wait_thread [] WIdle []) Hi) as E2. rewrite Ho in E1. rewrite Hp in E2.
  pose proof (posting_owns (<[i := mk_wait_thread [] WIdle []]> ls)). cbn in E1, E2. lia.
Qed.

(** The numbers of threads after a step, from those before. *)
Ltac counts ls i l' Hi :=
  pose proof (count_insert waits ls i _ l' Hi) as Ew; pose proof (count_insert owns_lock ls i _ l' Hi) as Eo;
  pose proof (count_insert committed ls i _ l' Hi) as Ec; pose proof (count_insert announcing ls i _ l' Hi) as Ea;
  pose proof (count_insert waking ls i _ l' Hi) as Ek; pose proof (count_insert posting ls i _ l' Hi) as Ep;
  pose proof (count_le waits (<[i := l']> ls)) as Hle; rewrite length_insert in Hle;
  cbn [waits owns_lock committed announcing waking posting to_pc answer w_at Nat.b2n] in Ew, Eo, Ec, Ea, Ek, Ep.

Ltac wait_fields := cbn [set_items set_waiting set_counter set_locked set_sema set_handshake items_ waiting_ counter_ locked_ sema_ handshake_ covered to_pc answer w_at].

Lemma u32_next n : Z.of_nat (n + 1) < 2 ^ 32 -> u32 (Z.of_nat n + 1) = Z.of_nat (n + 1).
Proof. intros. unfold u32. rewrite Z.mod_small; lia. Qed.
Lemma u32_prev n : (0 < n)%nat -> Z.of_nat n < 2 ^ 32 -> u32 (Z.of_nat n - 1) = Z.of_nat (n - 1).
Proof. intros. unfold u32. rewrite Z.mod_small; lia. Qed.

(** A step: what [waiter_inv_step] asks for, from the numbers. *)
Ltac moves Hinv Hi :=
  match goal with |- waiter_inv ?g' (<[?i := ?l']> ?ls) =>
    counts ls i l' Hi; apply (waiter_inv_step _ _ _ _ _ _ Hinv Hi); wait_fields;
    [ match goal with H : waiting_ _ = _ |- _ => rewrite ?H end; rewrite ?u32_next, ?u32_prev by lia; lia
    | cbn [Nat.b2n]; lia | try lia | try lia
    | first [left; reflexivity | right; left; lia
            | right; right; intros j lj _ Hlj; eapply covered_kept; [exact Hlj|reflexivity|wait_fields; lia|wait_fields; lia] | idtac ]
    | try lia | try lia ]
  end.

Lemma waiter_step_inv w g ls i l g' l' new : waiter_inv g ls -> ls !! i = Some l -> waiter_step w g l = Some (g', l', new) -> waiter_inv g' (<[i := l']> ls).
Proof.
  intros Hinv Hi Hs. pose proof Hinv as [Hw Hf Hl Hc Hcov Hfree Hlost]. pose proof (posting_owns ls) as Hpo. pose proof (committed_waits ls) as Hcw.
  pose proof (announcing_waking ls) as Haw. pose proof (Hcov i l Hi) as Hme. pose proof (count_le waits ls) as Hwl.
  destruct l as [ops p ans]. unfold waiter_step, wait_step, notify_step in Hs. cbn [w_at w_todo w_answers] in Hs.
  assert (count owns_lock ls <= 1)%nat as Hone by (rewrite Hl; destruct (locked_ g); cbn; lia).
  assert (forall f, f (mk_wait_thread ops p ans) = true -> (0 < count f ls)%nat) as Hpos by (intros f; by apply count_pos with (i := i)).
  destruct p; cbn [mbind option_bind] in Hs; cbn [covered w_at] in Hme.
  - destruct ops as [|[] ops]; [done| |]; injection Hs as <- <- <-; moves Hinv Hi.
  - destruct (items_ g) as [|n] eqn:En; [destruct w|]; injection Hs as <- <- <-; moves Hinv Hi.
  - injection Hs as <- <- <-. moves Hinv Hi.
  - destruct (locked_ g) eqn:El; [done|]. injection Hs as <- <- <-. cbn [Nat.b2n] in Hl. moves Hinv Hi.
  - specialize (Hpos owns_lock eq_refl). destruct (items_ g) as [|n] eqn:En; injection Hs as <- <- <-; moves Hinv Hi.
  - specialize (Hpos owns_lock eq_refl). destruct (locked_ g) eqn:El; cbn [Nat.b2n] in Hl; [|lia]. injection Hs as <- <- <-. moves Hinv Hi.
  - specialize (Hpos waits eq_refl). injection Hs as <- <- <-. moves Hinv Hi.
  - injection Hs as <- <- <-. pose proof (owner_posting ls i _ Hone Hi eq_refl eq_refl) as Hnp.
    moves Hinv Hi.
  - specialize (Hpos owns_lock eq_refl). destruct (locked_ g) eqn:El; cbn [Nat.b2n] in Hl; [|lia]. injection Hs as <- <- <-. moves Hinv Hi.
  - specialize (Hpos committed eq_refl). destruct w; [|destruct (sema_ g) as [|n] eqn:En; [done|]]; injection Hs as <- <- <-; moves Hinv Hi.
  - specialize (Hpos waits eq_refl). injection Hs as <- <- <-. moves Hinv Hi.
  - injection Hs as <- <- <-. destruct ret; moves Hinv Hi.
  - injection Hs as <- <- <-. moves Hinv Hi.
  - injection Hs as <- <- <-. destruct (Z.eqb_spec (waiting_ g) 0) as [E0|]; moves Hinv Hi. right. right. intros j lj Hj Hlj.
    pose proof (count_zero waits ls j lj ltac:(lia) Hj) as Hnw. unfold covered, waits in *. destruct (w_at lj); try done; lia.
  - destruct (locked_ g) eqn:El; [done|]. injection Hs as <- <- <-. cbn [Nat.b2n] in Hl. moves Hinv Hi.
  - injection Hs as <- <- <-. pose proof (owner_posting ls i _ Hone Hi eq_refl eq_refl) as Hnp.
    destruct (Z.ltb_spec 0 (counter_ g)); moves Hinv Hi.
  - destruct left as [|n]; injection Hs as <- <- <-; moves Hinv Hi.
  - injection Hs as <- <- <-. moves Hinv Hi.
  - destruct (negb ret || w); [|destruct (handshake_ g) as [|n] eqn:En; [done|]]; injection Hs as <- <- <-; destruct (Z.ltb_spec 0 (counter_ g)); moves Hinv Hi.
  - specialize (Hpos owns_lock eq_refl). destruct (locked_ g) eqn:El; cbn [Nat.b2n] in Hl; [|lia]. injection Hs as <- <- <-. moves Hinv Hi.
Qed.

Lemma waiter_run_inv progs sched : Z.of_nat (length progs) < 2 ^ 32 ->
  waiter_inv (waiter_run (waiter_start progs) sched).1.1 (waiter_run (waiter_start progs) sched).1.2.
Proof.
  intros Hn. apply (sys_run_inv waiter_step (fun s _ => waiter_inv s.1 s.2)).
  - assert (forall f, (forall ops, f (mk_wait_thread ops WIdle []) = false) -> count f ((fun ops => mk_wait_thread ops WIdle []) <$> progs) = 0%nat) as Hz.
    { intros f Hf. unfold count. clear Hn. induction progs as [|ops progs IH]; [done|]. cbn [fmap list_fmap List.filter]. by rewrite Hf. }
    split; cbn [waiter_start fst snd items_ waiting_ counter_ locked_ sema_]; rewrite ?Hz by done; try done; try lia; [by rewrite length_fmap|].
    intros i l Hl. apply covered_outside. rewrite list_lookup_fmap in Hl. apply fmap_Some in Hl as (ops & _ & ->). done.
  - intros [g ls] es [i w] Hinv. unfold sys_step. cbn [fst snd] in *. destruct (ls !! i) as [l|] eqn:Ei; [|done].
    destruct (waiter_step w g l) as [[[g' l'] new]|] eqn:Es; [|done]. by eapply waiter_step_inv.
Qed.

(** C10: no wake-up is lost. Whatever the interleaving of any number of receivers
    and senders, and whichever waits time out: when a receiver sleeps, there is
    nothing posted for it and no sender is on its way from sending an item to
    having woken the sleepers, then there is nothing to receive. *)
Theorem no_lost_wakeup (progs : list (list wait_op)) (sched : list (nat * bool)) (s : sys waiter wait_thread) (i : nat) (l : wait_thread) :
  Z.of_nat (length progs) < 2 ^ 32 -> (waiter_run (waiter_start progs) sched).1 = s ->
  s.2 !! i = Some l -> w_at l = CWait -> sema_ s.1 = 0%nat ->
  (forall j l', s.2 !! j = Some l' -> waking l' = false) -> items_ s.1 = 0%nat.
Proof.
  intros Hn <- Hi Hl Hsema Hnone. pose proof (waiter_run_inv progs sched Hn) as Hinv.
  destruct (waiter_run (waiter_start progs) sched).1 as [g ls]. cbn [fst snd] in *.
  assert (0 < count committed ls)%nat as Hc by (eapply count_pos; [exact Hi|unfold committed; by rewrite Hl]).
  assert (count waking ls = 0%nat) as Hw.
  { unfold count. assert (forall x, x ∈ ls -> waking x = false) as Hx by (intros x [j Hj]%list_elem_of_lookup; by eapply Hnone).
    clear -Hx. induction ls as [|x ls IH]; [done|]. cbn [List.filter]. rewrite (Hx x) by left. apply IH. set_solver. }
  destruct (wi_lost _ _ Hinv) as [|]; [lia|done|lia].
Qed.

(** One receiver asleep; a sender has sent an item another one has taken. *)
Definition demo_waits : list (list wait_op) := [[Recv]; [Send]; [Recv]].
Definition demo_schedule : list (nat * bool) :=
  (fun i => (i, false)) <$> [0; 0; 0; 0; 0; 0; 0; 1; 1; 2; 2; 1; 1; 1; 1; 1; 1; 1; 0; 0; 0; 1; 1; 1; 1; 0; 0; 0; 0; 0; 0]%nat.
Lemma no_lost_wakeup_witness : exists s, (waiter_run (waiter_start demo_waits) demo_schedule).1 = s /\
  (w_at <$> s.2 !! 0%nat) = Some CWait /\ sema_ s.1 = 0%nat /\ items_ s.1 = 0%nat.
Proof.
  eexists. split; [reflexivity|]. split; [vm_compute; reflexivity|]. split; [vm_compute; reflexivity|].
  eapply (no_lost_wakeup demo_waits demo_schedule _ 0%nat).
  - vm_compute. reflexivity.
  - reflexivity.
  - vm_compute. reflexivity.
  - reflexivity.
  - vm_compute. reflexivity.
  - intros j l' Hj. do 3 (destruct j as [|j]; [vm_compute in Hj; by injection Hj as <-|]). vm_compute in Hj. done.
Defined.

(** A wait that times out stays counted: the next broadcast posts for it too, and
    later waits return at once without anything to receive. *)
Lemma timed_out_waits_stay_counted :
  let s := (waiter_run (waiter_start [replicate 3 Recv; [Send]]) (concat (replicate 3 ((fun w => (0%nat, w)) <$> [false; false; false; false; false; false; false; true; false; false])))).1 in
  (counter_ s.1, waiting_ s.1, w_answers <$> s.2) = (3, 0, [[false; false; false]; []]).
Proof. vm_compute. reflexivity. Qed.
