(* ===== verification/Alloc.v ===== *)
(** The memory pools every process takes the buffers of its messages from
    ([shm-ipc/src/libipc/memory]): chunks of the system's heap cut into blocks of
    64 sizes, a list of free blocks per thread and size, and a place where the
    lists of threads that ended wait for other threads ([alloc.h], [wrapper.h],
    [resource.h]). Pointers are addresses, 0 is the null pointer, and what the
    lists are made of lies in the blocks themselves. *)
From stdpp Require Import prelude list gmap functions.
From Stdlib Require Import ZArith Lia Ascii.
From S2P Require Import Prelude Cpp.

Open Scope Z_scope.

(** * Memory *)
Definition mem : Type := Z -> ascii.

Fixpoint write (a : Z) (s : str) (m : mem) : mem :=
  match s with [] => m | c :: s => write (a + 1) s (<[a := c]> m) end.
Fixpoint read (a : Z) (n : nat) (m : mem) : str :=
  match n with O => [] | S n => m a :: read (a + 1) n m end.

(** A [size_t] or a pointer. *)
Definition load (m : mem) (a : Z) : Z := of_le_bytes (read a 8 m).
Definition store (a v : Z) : mem -> mem := write a (le_bytes 8 v).

(** The areas the system has handed out and not got back. *)
Record heap := mk_heap { regions : list (Z * Z); bytes : mem }.
Definition upd (f : mem -> mem) (h : heap) : heap := mk_heap (regions h) (f (bytes h)).

Definition apart (a b : Z * Z) : Prop := a.1 + a.2 <= b.1 \/ b.1 + b.2 <= a.1.

(** [std::malloc] where it finds room: aligned for every type, apart from what
    it has handed out. *)
Class Malloc := {
  place : list (Z * Z) -> Z -> option Z;
  place_ok : forall rs n p, place rs n = Some p -> 0 < n ->
    0 < p /\ p mod 16 = 0 /\ p + n < 2 ^ 64 /\ Forall (apart (p, n)) rs }.

Section pools.
Context `{Malloc}.

Definition malloc (n : Z) (h : heap) : heap * Z :=
  match place (regions h) n with
  | Some p => (mk_heap ((p, n) :: regions h) (bytes h), p)
  | None => (h, 0)
  end.
(** [std::free]: a pointer that is not the start of an area is an error. *)
Definition c_free (p : Z) (h : heap) : res heap :=
  if p =? 0 then Ok h
  else match list_find (fun r => r.1 = p) (regions h) with
       | Some (i, _) => Ok (mk_heap (delete i (regions h)) (bytes h))
       | None => Fault DanglingPtr
       end.

(** * static_alloc *)
Definition static_alloc (size : Z) (h : heap) : heap * Z := if size =? 0 then (h, 0) else malloc size h.
Definition static_free (p : Z) (h : heap) : res heap := c_free p h.

(** * scope_alloc

    Areas with a header of their size and the next one's address. *)
Definition aligned (size alignment : Z) : Z :=
  u64 (Z.land (u64 (size - 1)) (u64 (Z.lnot (u64 (alignment - 1)))) + alignment).
Definition max_align : Z := 16.
Definition aligned_block_size : Z := aligned 16 max_align.

Record scope := mk_scope { s_head : Z; s_tail : Z }.
Definition size_of (m : mem) (b : Z) : Z := load m b.
Definition next_of (m : mem) (b : Z) : Z := load m (b + 8).

Definition scope_empty (s : scope) : bool := s_head s =? 0.

(** [take]: this list and what is left to the other. *)
Definition scope_take (s rhs : scope) (h : heap) : heap * scope * scope :=
  if scope_empty rhs then (h, s, rhs)
  else if scope_empty s then (h, rhs, s)
  else
    let old := next_of (bytes h) (s_tail s) in
    (upd (store (s_tail s + 8) (s_head rhs)) h, mk_scope (s_head s) (s_tail rhs), mk_scope old 0).

Definition scope_alloc (size : Z) (s : scope) (h : heap) : res (heap * scope * Z) :=
  let real_size := u64 (aligned_block_size + size) in
  let '(h, curr) := static_alloc real_size h in
  if curr =? 0 then Fault NullDeref
  else
    let h := upd (store (curr + 8) (s_head s)) (upd (store curr real_size) h) in
    Ok (h, mk_scope curr (if s_tail s =? 0 then curr else s_tail s), curr + aligned_block_size).

(** [free_all]: every round gives one area back. *)
Fixpoint free_all (fuel : nat) (head : Z) (h : heap) : res heap :=
  if head =? 0 then Ok h
  else match fuel with
       | O => Fault Diverges
       | S fuel =>
           let curr := head in
           let head := next_of (bytes h) curr in
           h ← static_free curr h; free_all fuel head h
       end.
Definition scope_destroy (s : scope) (h : heap) : res heap := free_all (length (regions h)) (s_head s) h.

(** * variable_alloc *)
Record variable := mk_variable { v_head : Z; v_tail : Z; v_alloc : scope }.
Definition ChunkSize : Z := 8 * 1024 * 256.
Definition aligned_chunk_size : Z := aligned ChunkSize max_align.

Definition remain (v : variable) : Z := v_tail v - v_head v.

Definition variable_take (v rhs : variable) (h : heap) : heap * variable * variable :=
  let '(h, s, s') := scope_take (v_alloc v) (v_alloc rhs) h in
  let v := if remain v <? remain rhs then mk_variable (v_head rhs) (v_tail rhs) s else mk_variable (v_head v) (v_tail v) s in
  (h, v, mk_variable 0 0 s').

Definition variable_alloc (size : Z) (v : variable) (h : heap) : res (heap * variable * Z) :=
  let size := aligned size max_align in
  if remain v <? size then
    let chunk_size := Z.max aligned_chunk_size size in
    '(h, s, ptr) ← scope_alloc chunk_size (v_alloc v) h;
    let tail := ptr + chunk_size in
    Ok (h, mk_variable (tail - (chunk_size - size)) tail s, ptr)
  else Ok (h, mk_variable (v_head v + size) (v_tail v) (v_alloc v), v_head v).

(** * fixed_alloc: the free blocks are a list through their first words *)
Record fixed := mk_fixed { block_size_ : Z; init_expand_ : Z; cursor_ : Z; f_alloc : variable }.

Definition no_variable : variable := mk_variable 0 0 (mk_scope 0 0).
Definition fixed_new (block_size init_expand : Z) : fixed := mk_fixed block_size init_expand 0 no_variable.
Definition fixed_empty (f : fixed) : bool := cursor_ f =? 0.

(** [fixed_expand_policy::next]: how much to ask for, and the next factor. *)
Definition expand_base : Z := 8 * 1024.
Definition expand_limit : Z := 8 * 1024 * 256.
Definition expand_next (block_size e : Z) : Z * Z :=
  (u64 (Z.max block_size expand_base * e), Z.min expand_limit (u64 (e * 2))).

(** The loop of [try_expand], from [p] on. *)
Fixpoint link (k : nat) (block_size p : Z) (m : mem) : mem :=
  match k with
  | O => store p 0 m
  | S k => link k block_size (p + block_size) (store p (p + block_size) m)
  end.

Definition try_expand (f : fixed) (h : heap) : res (heap * fixed) :=
  if fixed_empty f then
    let '(size, e) := expand_next (block_size_ f) (init_expand_ f) in
    '(h, v, p) ← variable_alloc size (f_alloc f) h;
    if block_size_ f =? 0 then Fault DivByZero
    else Ok (upd (link (Z.to_nat (u64 (size / block_size_ f - 1))) (block_size_ f) p) h, mk_fixed (block_size_ f) e p v)
  else Ok (h, f).

Definition fixed_alloc (f : fixed) (h : heap) : res (heap * fixed * Z) :=
  '(h, f) ← try_expand f h;
  let p := cursor_ f in
  Ok (h, mk_fixed (block_size_ f) (init_expand_ f) (load (bytes h) p) (f_alloc f), p).

Definition fixed_free (p : Z) (f : fixed) (h : heap) : heap * fixed :=
  if p =? 0 then (h, f)
  else (upd (store p (cursor_ f)) h, mk_fixed (block_size_ f) (init_expand_ f) p (f_alloc f)).

(** The last node of a list; a list has no more nodes than the areas have
    bytes. *)
Definition total (rs : list (Z * Z)) : Z := foldr (fun r n => r.2 + n) 0 rs.
Fixpoint last_node (fuel : nat) (m : mem) (curr : Z) : res Z :=
  match fuel with
  | O => Fault Diverges
  | S fuel => if load m curr =? 0 then Ok curr else last_node fuel m (load m curr)
  end.

Definition fixed_take (f rhs : fixed) (h : heap) : res (heap * fixed * fixed) :=
  let e := Z.max (init_expand_ f) (init_expand_ rhs) in
  '(h, c, c') ←
    (if fixed_empty rhs then Ok (h, cursor_ f, cursor_ rhs)
     else if fixed_empty f then Ok (h, cursor_ rhs, cursor_ f)
     else
       curr ← last_node (Z.to_nat (total (regions h))) (bytes h) (cursor_ f);
       Ok (upd (store curr (cursor_ rhs)) h, cursor_ f, load (bytes h) curr));
  let '(h, v, v') := variable_take (f_alloc f) (f_alloc rhs) h in
  Ok (h, mk_fixed (block_size_ f) e c v, mk_fixed (block_size_ rhs) (init_expand_ rhs) c' v').

(** The destructor: the one of the areas' list. *)
Definition fixed_destroy (f : fixed) (h : heap) : res heap := scope_destroy (v_alloc (f_alloc f)) h.

(** * The recycler *)
Definition max_allocs : nat := 32.

(** [try_recover]: the first waiting allocator's contents are swapped in. *)
Definition try_recover (f : fixed) (master_allocs : list fixed) (h : heap) : res (heap * fixed * list fixed) :=
  match master_allocs with
  | [] => Ok (h, f, [])
  | first :: rest => h ← fixed_destroy f h; Ok (h, first, rest)
  end.

Definition try_fill (f : fixed) (master_allocs : list fixed) (h : heap) : res (heap * fixed * list fixed) :=
  match master_allocs with
  | [] => Ok (h, f, [])
  | first :: rest => '(h, f, first) ← fixed_take f first h; h ← fixed_destroy first h; Ok (h, f, rest)
  end.

Definition try_replenish (f : fixed) (master_allocs : list fixed) (h : heap) : res (heap * fixed * list fixed) :=
  if negb (fixed_empty f) then Ok (h, f, master_allocs) else try_fill f master_allocs h.

Definition collect (f : fixed) (master_allocs : list fixed) (h : heap) : res (heap * list fixed) :=
  '(h, master_allocs) ←
    (if decide (max_allocs <= length master_allocs)%nat
     then match master_allocs with
          | [] => Ok (h, [])
          | first :: rest => h ← fixed_destroy first h; Ok (h, rest)
          end
     else Ok (h, master_allocs));
  Ok (h, master_allocs ++ [f]).

(** * async_wrapper: an allocator per thread *)
Record async := mk_async { pars_ : Z; recycler_ : list fixed; tls_ : gmap nat fixed }.

(** [get_alloc_]: made on a thread's first use. *)
Definition get_alloc (t : nat) (w : async) (h : heap) : res (heap * async * fixed) :=
  match tls_ w !! t with
  | Some f => Ok (h, w, f)
  | None =>
      '(h, f, r) ← try_recover (fixed_new (pars_ w) 1) (recycler_ w) h;
      Ok (h, mk_async (pars_ w) r (<[t := f]> (tls_ w)), f)
  end.

Definition async_alloc (t : nat) (w : async) (h : heap) : res (heap * async * Z) :=
  '(h, w, f) ← get_alloc t w h;
  '(h, f, r) ← try_replenish f (recycler_ w) h;
  '(h, f, p) ← fixed_alloc f h;
  Ok (h, mk_async (pars_ w) r (<[t := f]> (tls_ w)), p).

Definition async_free (t : nat) (p : Z) (w : async) (h : heap) : res (heap * async) :=
  '(h, w, f) ← get_alloc t w h;
  let '(h, f) := fixed_free p f h in
  Ok (h, mk_async (pars_ w) (recycler_ w) (<[t := f]> (tls_ w))).

(** The thread ends: its allocator's destructor. *)
Definition async_exit (t : nat) (w : async) (h : heap) : res (heap * async) :=
  match tls_ w !! t with
  | None => Ok (h, w)
  | Some f => '(h, r) ← collect f (recycler_ w) h; Ok (h, mk_async (pars_ w) r (delete t (tls_ w)))
  end.

(** * variable_wrapper *)
Definition iter_size : Z := 8.
Definition classes_size : Z := 64.
Definition block_size (id : Z) : Z := if id <? classes_size then (id + 1) * iter_size else 0.
(** The size's class, if it has one. *)
Definition classify (size : Z) : option nat :=
  let id := u64 (size - 1) / iter_size in
  if id <? classes_size then Some (Z.to_nat id) else None.

Record pool := mk_pool { classes : list async; heap_ : heap }.

Definition pool_new (m : mem) : pool :=
  mk_pool ((fun id => mk_async (block_size (Z.of_nat id)) [] ∅) <$> seq 0 (Z.to_nat classes_size)) (mk_heap [] m).

(** One class works. *)
Definition on_class {A} (id : nat) (f : async -> heap -> res (heap * async * A)) (s : pool) : res (pool * A) :=
  w ← res_of_option IndexPastEnd (classes s !! id);
  '(h, w, a) ← f w (heap_ s);
  Ok (mk_pool (<[id := w]> (classes s)) h, a).

Definition pool_alloc (t : nat) (size : Z) (s : pool) : res (pool * Z) :=
  match classify size with
  | Some id => on_class id (async_alloc t) s
  | None => let '(h, p) := static_alloc size (heap_ s) in Ok (mk_pool (classes s) h, p)
  end.

Definition pool_free (t : nat) (p size : Z) (s : pool) : res pool :=
  match classify size with
  | Some id => fst <$> on_class id (fun w h => (fun r => (r, tt)) <$> async_free t p w h) s
  | None => h ← static_free p (heap_ s); Ok (mk_pool (classes s) h)
  end.

(** A thread ends: each of its allocators goes to the recycler of its class. *)
Definition pool_exit (t : nat) (s : pool) : res pool :=
  foldM (fun s id => fst <$> on_class id (fun w h => (fun r => (r, tt)) <$> async_exit t w h) s) s (seq 0 (length (classes s))).

(** [allocator_wrapper::allocate] and [deallocate]. *)
Definition allocate (t : nat) (count sizeof : Z) (s : pool) : res (pool * Z) :=
  if count =? 0 then Ok (s, 0)
  else if (2 ^ 64 - 1) / sizeof <? count then Ok (s, 0)
  else pool_alloc t (u64 (count * sizeof)) s.
Definition deallocate (t : nat) (p count sizeof : Z) (s : pool) : res pool := pool_free t p (u64 (count * sizeof)) s.

(** * What clients do

    The blocks in use, in the order they were handed out; any thread may give
    back any of them and write to any byte of them. *)
Inductive client_op :=
  | Allocate (size : Z)
  | Release (k : nat)
  | Fill (k : nat) (off : nat) (s : str)
  | Exit.

Definition client_step (s : pool * list (Z * Z)) (c : nat * client_op) : res (pool * list (Z * Z)) :=
  let '(s, live) := s in
  let '(t, op) := c in
  match op with
  | Allocate size =>
      '(s, p) ← pool_alloc t size s;
      Ok (s, if p =? 0 then live else live ++ [(p, size)])
  | Release k =>
      match live !! k with
      | Some (p, size) => s ← pool_free t p size s; Ok (s, delete k live)
      | None => Ok (s, live)
      end
  | Fill k off str =>
      match live !! k with
      | Some (p, size) =>
          if Z.of_nat (off + length str) <=? size
          then Ok (mk_pool (classes s) (upd (write (p + Z.of_nat off) str) (heap_ s)), live)
          else Ok (s, live)
      | None => Ok (s, live)
      end
  | Exit => s ← pool_exit t s; Ok (s, live)
  end.

Definition client_run (m : mem) (cs : list (nat * client_op)) : res (pool * list (Z * Z)) :=
  foldM client_step (pool_new m, []) cs.
End pools.
