(* ===== verification/AllocInv.v ===== *)
(** The invariant of the memory pools: the blocks in use and everything the
    allocators own are areas apart from each other inside what the system has
    handed out. An operation of one allocator changes memory only where that
    allocator owns it, so the others and the blocks in use are unaffected. *)
From stdpp Require Import prelude list gmap functions.
From Stdlib Require Import ZArith Lia Ascii.
From S2P Require Import Prelude Cpp Alloc.

Open Scope Z_scope.

(** * Areas of memory *)
Definition within (a b : Z * Z) : Prop := b.1 <= a.1 /\ a.1 + a.2 <= b.1 + b.2.
Definition inside (x : Z) (a : Z * Z) : Prop := a.1 <= x < a.1 + a.2.

Fixpoint separate (l : list (Z * Z)) : Prop :=
  match l with [] => True | a :: l => Forall (apart a) l /\ separate l end.

Lemma apart_sym a b : apart a b -> apart b a.
Proof. unfold apart. tauto. Qed.
Lemma apart_within a a' b : within a' a -> apart a b -> apart a' b.
Proof. unfold within, apart. lia. Qed.
Lemma within_trans a b c : within a b -> within b c -> within a c.
Proof. unfold within. lia. Qed.
Lemma within_refl a : within a a.
Proof. unfold within. lia. Qed.
Lemma inside_within x a b : within a b -> inside x a -> inside x b.
Proof. unfold within, inside. lia. Qed.
Lemma inside_apart x a b : inside x a -> inside x b -> ~ apart a b.
Proof. unfold inside, apart. lia. Qed.

#[export] Instance separate_perm : Proper ((≡ₚ) ==> iff) separate.
Proof.
  assert (forall l l', l ≡ₚ l' -> separate l -> separate l') as H; [|intros l l' E; split; by apply H].
  induction 1 as [|a l l' E IH|a b l|l l' l'' E1 IH1 E2 IH2]; simpl; try tauto.
  - intros [Ha Hl]. split; [by rewrite <- E|auto].
  - intros (Hb & Ha & Hl). apply list.Forall_cons in Hb as [Hba Hb]. split; [constructor; [by apply apart_sym|done]|done].
Qed.

Lemma separate_app l1 l2 : separate (l1 ++ l2) <-> separate l1 /\ separate l2 /\ forall a b, a ∈ l1 -> b ∈ l2 -> apart a b.
Proof.
  induction l1 as [|a l1 IH]; simpl; [set_solver|]. rewrite IH, Forall_app. split.
  - intros ([H1 H2] & H3 & H4 & H5). do 2 (split; [done|]). intros x b [->|Hx]%elem_of_cons Hb; [by eapply list.Forall_forall in H2|by apply H5].
  - intros ([H1 H2] & H3 & H4). split; [split; [done|]|split; [done|split; [done|]]].
    + apply list.Forall_forall. intros b Hb. apply H4; set_solver.
    + intros x b Hx Hb. apply H4; set_solver.
Qed.

(** Areas cut out of some of the old ones, or apart from the rest. *)
Lemma separate_replace old new rest : separate (old ++ rest) -> separate new ->
  (forall q, q ∈ new -> (exists q0, q0 ∈ old /\ within q q0) \/ Forall (apart q) rest) -> separate (new ++ rest).
Proof.
  rewrite !separate_app. intros (_ & Hr & Ho) Hn Hin. split; [done|]. split; [done|]. intros a b Ha Hb.
  destruct (Hin a Ha) as [(q & Hq & Hw)|Hall]; [eapply apart_within; eauto|by eapply list.Forall_forall in Hall].
Qed.

(** * Reading and writing *)
Lemma put_other (x y : Z) (c : ascii) (m : mem) : x <> y -> (<[x := c]> m : mem) y = m y.
Proof. intros Hne. unfold insert, fn_insert. by rewrite decide_False. Qed.
Lemma put_at (x : Z) (c : ascii) (m : mem) : (<[x := c]> m : mem) x = c.
Proof. unfold insert, fn_insert. by rewrite decide_True. Qed.
Lemma write_other a s m x : ~ inside x (a, Z.of_nat (length s)) -> write a s m x = m x.
Proof.
  unfold inside. simpl. revert a m. induction s as [|c s IH]; intros a m Hx; [done|]. cbn [write length] in *.
  rewrite IH by lia. apply put_other. lia.
Qed.
Lemma write_at a s m i : (i < length s)%nat -> Some (write a s m (a + Z.of_nat i)) = s !! i.
Proof.
  revert a m i. induction s as [|c s IH]; intros a m i Hi; [simpl in Hi; lia|]. cbn [write length] in *. destruct i as [|i].
  - rewrite write_other by (unfold inside; simpl; lia). rewrite Z.add_0_r, put_at. done.
  - replace (a + Z.of_nat (S i)) with (a + 1 + Z.of_nat i) by lia. apply IH. lia.
Qed.
Lemma read_frame a n m m' : (forall x, inside x (a, Z.of_nat n) -> m' x = m x) -> read a n m' = read a n m.
Proof.
  unfold inside. simpl. revert a. induction n as [|n IH]; intros a Hx; [done|]. cbn [read]. rewrite Hx by lia. f_equal.
  apply IH. intros x ?. apply Hx. lia.
Qed.
Lemma read_write a s m : read a (length s) (write a s m) = s.
Proof.
  revert a m. induction s as [|c s IH]; intros a m; [done|]. cbn [length read write].
  rewrite write_other by (unfold inside; simpl; lia). by rewrite put_at, IH.
Qed.

Lemma load_store a v m : 0 <= v < 2 ^ 64 -> load (store a v m) a = v.
Proof. intros Hv. unfold load, store. pose proof (read_write a (le_bytes 8 v) m) as E. rewrite le_bytes_length in E. rewrite E. by apply le_bytes_roundtrip. Qed.
Lemma load_frame a m m' : (forall x, inside x (a, 8) -> m' x = m x) -> load m' a = load m a.
Proof. intros Hx. unfold load. f_equal. by apply read_frame. Qed.
Lemma store_other a v m x : ~ inside x (a, 8) -> store a v m x = m x.
Proof. intros Hx. unfold store. apply write_other. by rewrite le_bytes_length. Qed.

(** Memory changed in some areas only. *)
Definition changes_in (l : list (Z * Z)) (m m' : mem) : Prop := forall x, (forall q, q ∈ l -> ~ inside x q) -> m' x = m x.

Lemma changes_refl l m : changes_in l m m.
Proof. by intros x _. Qed.
Lemma changes_trans l m m' m'' : changes_in l m m' -> changes_in l m' m'' -> changes_in l m m''.
Proof. intros H1 H2 x Hx. rewrite H2, H1; done. Qed.
Lemma changes_more l l' m m' : (forall q, q ∈ l -> exists q', q' ∈ l' /\ within q q') -> changes_in l m m' -> changes_in l' m m'.
Proof. intros Hl Hc x Hx. apply Hc. intros q Hq Hin. destruct (Hl q Hq) as (q' & Hq' & Hw). eapply Hx; [done|by eapply inside_within]. Qed.
Lemma changes_store a v m l q : q ∈ l -> within (a, 8) q -> changes_in l m (store a v m).
Proof. intros Hq Hw x Hx. apply store_other. intros Hin. eapply Hx; [done|by eapply inside_within]. Qed.

(** * What an allocator owns *)
Record owner := mk_owner { o_fixed : fixed; nodes : list Z; chunks : list Z }.

Definition spare (v : variable) : list (Z * Z) := if v_head v =? v_tail v then [] else [(v_head v, remain v)].
Definition pieces (o : owner) : list (Z * Z) :=
  ((fun p => (p, block_size_ (o_fixed o))) <$> nodes o) ++ spare (f_alloc (o_fixed o)) ++ ((fun c => (c, 16)) <$> chunks o).

(** The free blocks from [p] on. *)
Fixpoint chain (m : mem) (p : Z) (l : list Z) : Prop :=
  match l with [] => p = 0 | a :: l => p = a /\ 0 < a < 2 ^ 64 /\ chain m (load m a) l end.
(** The areas from [p] on. *)
Fixpoint area_chain (m : mem) (p : Z) (l : list Z) : Prop :=
  match l with [] => p = 0 | a :: l => p = a /\ 0 < a < 2 ^ 64 /\ area_chain m (next_of m a) l end.

Record owner_ok (m : mem) (o : owner) : Prop := {
  k_chain : chain m (cursor_ (o_fixed o)) (nodes o);
  k_areas : area_chain m (s_head (v_alloc (f_alloc (o_fixed o)))) (chunks o);
  k_last : s_tail (v_alloc (f_alloc (o_fixed o))) = default 0 (list.last (chunks o));
  k_spare : 0 <= v_head (f_alloc (o_fixed o)) <= v_tail (f_alloc (o_fixed o));
  k_fits : v_tail (f_alloc (o_fixed o)) < 2 ^ 64;
  k_aligned : v_head (f_alloc (o_fixed o)) mod 16 = 0;
  k_nodes : Forall (fun p => p mod 8 = 0) (nodes o);
  k_expand : 1 <= init_expand_ (o_fixed o) <= expand_limit;
  k_size : 8 <= block_size_ (o_fixed o) <= 512;
  k_unit : block_size_ (o_fixed o) mod 8 = 0 }.

Lemma chain_frame m m' p l bs : 8 <= bs -> (forall a x, a ∈ l -> inside x (a, bs) -> m' x = m x) -> chain m p l -> chain m' p l.
Proof.
  intros Hbs. revert p. induction l as [|a l IH]; intros p Hx; [done|]. simpl. intros (-> & Ha & Hl). do 2 (split; [done|]).
  rewrite (load_frame a m m'); [apply IH; [|done]; intros b x Hb; apply Hx; set_solver|].
  intros x Hin. apply (Hx a); [left|]. unfold inside in *. simpl in *. lia.
Qed.
Lemma area_chain_frame m m' p l : (forall a x, a ∈ l -> inside x (a, 16) -> m' x = m x) -> area_chain m p l -> area_chain m' p l.
Proof.
  revert p. induction l as [|a l IH]; intros p Hx; [done|]. simpl. intros (-> & Ha & Hl). do 2 (split; [done|]). unfold next_of in *.
  rewrite (load_frame (a + 8) m m'); [apply IH; [|done]; intros b x Hb; apply Hx; set_solver|].
  intros x Hin. apply (Hx a); [left|]. unfold inside in *. simpl in *. lia.
Qed.

Lemma owner_frame m m' o : (forall q x, q ∈ pieces o -> inside x q -> m' x = m x) -> owner_ok m o -> owner_ok m' o.
Proof.
  intros Hx [? ? ? ? ? ? ? ? Hsz ?]. split; try done.
  - eapply chain_frame; [apply Hsz| |done]. intros a x Ha. apply Hx. unfold pieces. apply elem_of_app. left. apply list_elem_of_fmap. by exists a.
  - eapply area_chain_frame; [|done]. intros a x Ha. apply Hx. unfold pieces. rewrite !elem_of_app. right. right. apply list_elem_of_fmap. by exists a.
Qed.

(** * The whole memory

    [live] are the blocks in use. *)
Definition placed (rs : list (Z * Z)) (q : Z * Z) : Prop := 0 < q.2 /\ exists r, r ∈ rs /\ within q r.

Record world (h : heap) (live : list (Z * Z)) (os : list owner) : Prop := {
  w_ok : Forall (owner_ok (bytes h)) os;
  w_separate : separate (live ++ (os ≫= pieces));
  w_placed : Forall (placed (regions h)) (live ++ (os ≫= pieces));
  w_regions : separate (regions h);
  w_range : Forall (fun r => 0 < r.1 /\ 0 < r.2 /\ r.1 + r.2 < 2 ^ 64) (regions h) }.

#[export] Instance world_perm h : Proper ((≡ₚ) ==> (≡ₚ) ==> iff) (world h).
Proof.
  assert (forall l l' os os', l ≡ₚ l' -> os ≡ₚ os' -> world h l os -> world h l' os') as H; [|intros l l' El os os' Eo; split; by apply H].
  intros l l' os os' El Eo [Hk Hs Hp Hr Hg]. split; try done; [by rewrite <- Eo|by rewrite <- El, <- Eo..].
Qed.

Definition same_in (l : list (Z * Z)) (m m' : mem) : Prop := forall q x, q ∈ l -> inside x q -> m' x = m x.

Lemma same_trans l m m' m'' : same_in l m m' -> same_in l m' m'' -> same_in l m m''.
Proof. intros H1 H2 q x Hq Hx. rewrite (H2 q x), (H1 q x); done. Qed.
Lemma same_less l l' m m' : l ⊆ l' -> same_in l' m m' -> same_in l m m'.
Proof. intros Hl Hs q x Hq. apply Hs. by apply Hl. Qed.

(** What is outside [old] does not see changes in [old] or in a fresh area. *)
Lemma untouched h old fresh rest m' :
  separate (old ++ rest) -> Forall (placed (regions h)) rest -> (forall r q, r ∈ fresh -> q ∈ regions h -> apart r q) ->
  changes_in (old ++ fresh) (bytes h) m' -> same_in rest (bytes h) m'.
Proof.
  intros Hs Hp Hf Hc q x Hq Hx. apply Hc. intros q' Hq' Hx'. apply (inside_apart x q' q); [done..|].
  apply elem_of_app in Hq' as [Hold|Hnew].
  - apply separate_app in Hs as (_ & _ & Ha). by apply Ha.
  - eapply list.Forall_forall in Hp as (_ & r & Hr & Hw); [|done]. eapply apart_sym, apart_within, apart_sym, Hf; done.
Qed.

(** Some owners, with blocks [lx] that leave use and blocks [ly] that come into
    use, change what they own within it and within fresh areas. *)
Lemma world_step h m' fresh lx ly live o o' os :
  let old := lx ++ (o ≫= pieces) in let new := ly ++ (o' ≫= pieces) in
  world h (lx ++ live) (o ++ os) ->
  (forall r q, r ∈ fresh -> q ∈ regions h -> apart r q) -> separate fresh -> Forall (fun r => 0 < r.1 /\ 0 < r.2 /\ r.1 + r.2 < 2 ^ 64) fresh ->
  changes_in (old ++ fresh) (bytes h) m' ->
  Forall (owner_ok m') o' -> separate new -> (forall q, q ∈ new -> 0 < q.2 /\ exists q0, q0 ∈ old ++ fresh /\ within q q0) ->
  world (mk_heap (fresh ++ regions h) m') (ly ++ live) (o' ++ os) /\ same_in live (bytes h) m'.
Proof.
  intros old new [Hk Hs Hp Hr Hg] Hfr Hfs Hfg Hc Hk' Hsn Hin. rewrite bind_app in Hs, Hp.
  set (rest := live ++ (os ≫= pieces)).
  assert ((lx ++ live) ++ (o ≫= pieces) ++ (os ≫= pieces) ≡ₚ old ++ rest) as Eold by (unfold old, rest; solve_Permutation).
  assert ((ly ++ live) ++ ((o' ++ os) ≫= pieces) ≡ₚ new ++ rest) as Enew by (rewrite bind_app; unfold new, rest; solve_Permutation).
  rewrite Eold in Hs, Hp. apply Forall_app in Hp as [Hpo Hpr].
  assert (same_in rest (bytes h) m') as Hsame by (eapply untouched; done).
  split; [|eapply same_less; [|exact Hsame]; unfold rest; set_solver]. split; simpl.
  - apply Forall_app. split; [done|]. apply Forall_app in Hk as [_ Hk]. apply list.Forall_forall. intros x Hx.
    eapply list.Forall_forall in Hk; [|exact Hx]. eapply owner_frame; [|exact Hk]. intros q y Hq. apply Hsame. unfold rest. apply elem_of_app. right. apply list_elem_of_bind. by exists x.
  - rewrite Enew. eapply separate_replace; [exact Hs|done|]. intros q Hq. destruct (Hin q Hq) as (_ & q0 & [Hq0|Hq0]%elem_of_app & Hw); [left; by exists q0|right].
    apply list.Forall_forall. intros b Hb. eapply apart_within; [done|]. eapply list.Forall_forall in Hpr as (_ & r & Hr' & Hw'); [|done].
    eapply apart_sym, apart_within, apart_sym, Hfr; done.
  - rewrite Enew. apply Forall_app. split.
    + apply list.Forall_forall. intros q Hq. destruct (Hin q Hq) as (Hpos & q0 & Hq0 & Hw). split; [done|]. apply elem_of_app in Hq0 as [Hq0|Hq0].
      * eapply list.Forall_forall in Hpo as (_ & r & Hr' & Hw'); [|done]. exists r. split; [set_solver|by eapply within_trans].
      * exists q0. split; [set_solver|done].
    + eapply Forall_impl; [|exact Hpr]. intros q (Hpos & r & Hr' & Hw). split; [done|]. exists r. split; [set_solver|done].
  - apply separate_app. split; [done|]. split; [done|]. intros a b Ha Hb. by apply Hfr.
  - by apply Forall_app.
Qed.
