(* ===== verification/AllocOps.v ===== *)
(** One allocator of the memory pools at work: each of its operations keeps the
    invariant, and takes blocks out of what it owns or out of fresh areas. *)
From stdpp Require Import prelude list gmap functions.
From Stdlib Require Import ZArith Lia Ascii.
From S2P Require Import Prelude Cpp Alloc AllocInv.

Open Scope Z_scope.

(** * Sizes *)
Lemma land_lnot15 x : 0 <= x < 2 ^ 64 -> Z.land x (u64 (Z.lnot 15)) = 16 * (x / 16).
Proof.
  intros Hx. unfold u64. rewrite <- (Z.land_ones (Z.lnot 15) 64) by lia. rewrite (Z.land_comm (Z.lnot 15)), Z.land_assoc.
  rewrite (Z.land_ones x 64) by lia. rewrite (Z.mod_small x) by done. change (Z.land x (Z.lnot 15)) with (Z.land x (Z.lnot (Z.ones 4))).
  rewrite <- Z.ldiff_land, Z.ldiff_ones_r, Z.shiftr_div_pow2, Z.shiftl_mul_pow2 by lia. change (2 ^ 4) with 16. lia.
Qed.
Lemma aligned_spec size : 0 < size <= 2 ^ 40 -> aligned size max_align = 16 * ((size - 1) / 16) + 16.
Proof.
  intros Hs. unfold aligned, max_align. change (u64 (16 - 1)) with 15.
  assert (2 ^ 40 < 2 ^ 64) as Hlt by (vm_compute; reflexivity). rewrite (u64_small (size - 1)) by lia. rewrite land_lnot15 by lia.
  apply u64_small. change (2 ^ 64) with (2 ^ 40 * 16777216) in *. lia.
Qed.

Lemma expand_size bs e : 8 <= bs <= 512 -> 1 <= e <= expand_limit ->
  exists size e', expand_next bs e = (size, e') /\ size = 8192 * e /\ 1 <= e' <= expand_limit.
Proof.
  intros Hb He. unfold expand_next. eexists _, _. split; [done|]. unfold expand_base, expand_limit in *. rewrite Z.max_r by lia.
  rewrite !u64_small by lia. lia.
Qed.

Section ops.
Context `{Malloc}.

(** The system has no room for a request of at most 32 GiB. *)
Definition refused (h : heap) : Prop := exists n, 0 < n <= 2 ^ 35 /\ place (regions h) n = None.

(** * What an allocator owns, cut out of the rest *)
Lemma world_owner h live o os : world h live (o :: os) ->
  owner_ok (bytes h) o /\ separate (pieces o) /\ Forall (placed (regions h)) (pieces o).
Proof.
  intros [Hk Hs Hp _ _]. apply list.Forall_cons in Hk as [Hk _]. cbn [mbind list_bind] in *.
  apply separate_app in Hs as (_ & Hs & _). apply separate_app in Hs as (Hs & _).
  apply Forall_app in Hp as [_ Hp]. apply Forall_app in Hp as [Hp _]. done.
Qed.

Lemma fresh_separate rs r l l' : separate l -> Forall (placed rs) l -> separate l' -> Forall (apart r) rs ->
  (forall q, q ∈ l' -> within q r) -> separate (l' ++ l).
Proof.
  intros Hl Hp Hl' Hr Hw. apply separate_app. split; [done|]. split; [done|]. intros a b Ha Hb.
  eapply list.Forall_forall in Hp as (_ & q & Hq & Hbq); [|done]. eapply apart_within; [by apply Hw|]. eapply apart_sym, apart_within; [done|].
  apply apart_sym. by eapply list.Forall_forall in Hr.
Qed.

(** The allocator with another spare area and another list of areas. *)
Definition with_variable (v : variable) (ch : list Z) (o : owner) : owner :=
  mk_owner (mk_fixed (block_size_ (o_fixed o)) (init_expand_ (o_fixed o)) (cursor_ (o_fixed o)) v) (nodes o) ch.

Lemma owner_with_variable m m' o v ch : owner_ok m o -> same_in (pieces o) m m' ->
  area_chain m' (s_head (v_alloc v)) ch -> s_tail (v_alloc v) = default 0 (list.last ch) ->
  0 <= v_head v <= v_tail v -> v_tail v < 2 ^ 64 -> v_head v mod 16 = 0 -> owner_ok m' (with_variable v ch o).
Proof.
  intros Hk Hsame Ha Hl Hs Hf Hm. assert (owner_ok m' o) as [] by (by eapply owner_frame). by split.
Qed.

(** An allocator works on what it owns. *)
Lemma world_local h m' lx ly live o o' os : world h (lx ++ live) (o :: os) ->
  changes_in (lx ++ pieces o) (bytes h) m' -> owner_ok m' o' -> separate (ly ++ pieces o') ->
  (forall q, q ∈ ly ++ pieces o' -> 0 < q.2 /\ exists q0, q0 ∈ lx ++ pieces o /\ within q q0) ->
  world (mk_heap (regions h) m') (ly ++ live) (o' :: os) /\ same_in live (bytes h) m'.
Proof.
  intros Hw Hc Hk Hs Hin. apply (world_step h m' [] lx ly live [o] [o'] os); cbn [mbind list_bind app]; rewrite ?app_nil_r; try done; [set_solver|].
  by apply list.Forall_singleton.
Qed.

(** An allocator gets a fresh area. *)
Lemma world_fresh h m' r ly live o o' os : world h live (o :: os) ->
  Forall (apart r) (regions h) -> 0 < r.1 /\ 0 < r.2 /\ r.1 + r.2 < 2 ^ 64 ->
  changes_in (r :: pieces o) (bytes h) m' -> owner_ok m' o' -> separate (ly ++ pieces o') ->
  (forall q, q ∈ ly ++ pieces o' -> 0 < q.2 /\ exists q0, q0 ∈ r :: pieces o /\ within q q0) ->
  world (mk_heap (r :: regions h) m') (ly ++ live) (o' :: os) /\ same_in live (bytes h) m'.
Proof.
  intros Hw Ha Hr Hc Hk Hs Hin. apply (world_step h m' [r] [] ly live [o] [o'] os); cbn [mbind list_bind app]; rewrite ?app_nil_r; try done.
  - intros x q ->%list_elem_of_singleton Hq. by eapply list.Forall_forall in Ha.
  - by apply list.Forall_singleton.
  - eapply changes_more; [|exact Hc]. intros q Hq. exists q. split; [set_solver|apply within_refl].
  - by apply list.Forall_singleton.
  - intros q Hq. destruct (Hin q Hq) as (? & q0 & ? & ?). split; [done|]. exists q0. split; [set_solver|done].
Qed.

Lemma piece_kept rs l q : Forall (placed rs) l -> q ∈ l -> 0 < q.2 /\ exists q0, q0 ∈ l /\ within q q0.
Proof. intros Hp Hq. eapply list.Forall_forall in Hp as [Hpos _]; [|done]. split; [done|]. exists q. split; [done|apply within_refl]. Qed.

(** * variable_alloc *)
Lemma carve_spare h live o os size : world h live (o :: os) -> 0 < size -> size mod 16 = 0 ->
  let v := f_alloc (o_fixed o) in size <= remain v ->
  world h ((v_head v, size) :: live) (with_variable (mk_variable (v_head v + size) (v_tail v) (v_alloc v)) (chunks o) o :: os).
Proof.
  intros Hw Hpos Hmod v Hfit. destruct (world_owner _ _ _ _ Hw) as (Hk & Hs & Hp). unfold remain in Hfit. fold v in Hk.
  set (v' := mk_variable (v_head v + size) (v_tail v) (v_alloc v)). set (o' := with_variable v' (chunks o) o).
  assert (spare v = [(v_head v, remain v)]) as Espare by (unfold spare; destruct (Z.eqb_spec (v_head v) (v_tail v)); [lia|done]).
  assert (forall q, q ∈ spare v' -> q = (v_head v + size, remain v - size) /\ 0 < remain v - size) as Espare'.
  { intros q Hq. unfold spare in Hq. subst v'. cbn [v_head v_tail] in Hq. destruct (Z.eqb_spec (v_head v + size) (v_tail v)) as [|Hne]; [set_solver|].
    apply list_elem_of_singleton in Hq as ->. unfold remain in *. cbn. split; [f_equal; lia|]. lia. }
  set (rest := ((fun p => (p, block_size_ (o_fixed o))) <$> nodes o) ++ ((fun c => (c, 16)) <$> chunks o)).
  assert (pieces o ≡ₚ [(v_head v, remain v)] ++ rest) as Eo by (unfold pieces, rest; fold v; rewrite Espare; solve_Permutation).
  assert ([(v_head v, size)] ++ pieces o' ≡ₚ ((v_head v, size) :: spare v') ++ rest) as Eo' by (unfold pieces, rest, o'; cbn [o_fixed with_variable nodes chunks block_size_ f_alloc]; solve_Permutation).
  assert (forall q, q ∈ (v_head v, size) :: spare v' -> 0 < q.2 /\ within q (v_head v, remain v)) as Hcut.
  { intros q [->|Hq]%elem_of_cons; [|apply Espare' in Hq as [-> ?]]; unfold within, remain in *; simpl; lia. }
  pose proof (k_spare _ _ Hk) as Hsp. fold v in Hsp.
  destruct (world_local h (bytes h) [] [(v_head v, size)] live o o' os) as [Hw' _]; [done|apply changes_refl|..|by destruct h].
  - eapply owner_with_variable; [done|by intros ? ? ? ?|apply Hk|apply Hk|cbn; lia|apply Hk|].
    cbn [v' v_head]. rewrite Z.add_mod, Hmod by lia. pose proof (k_aligned _ _ Hk) as E. fold v in E. by rewrite E.
  - rewrite Eo'. rewrite Eo in Hs. eapply separate_replace; [exact Hs| |].
    + split; [|unfold spare; destruct (_ =? _); simpl; auto]. apply list.Forall_forall. intros q [-> _]%Espare'. unfold apart. simpl. lia.
    + intros q [_ Hq]%Hcut. left. exists (v_head v, remain v). split; [left|done].
  - intros q. rewrite Eo'. intros [[Hq0 Hq]%Hcut|Hq]%elem_of_app.
    + split; [done|]. exists (v_head v, remain v). split; [rewrite Eo; left|done].
    + eapply piece_kept; [exact Hp|]. rewrite Eo. set_solver.
Qed.
(** A fresh area: its header, the block, and the new spare area. *)
Lemma carve_fresh h live o os size chunk :
  let v := f_alloc (o_fixed o) in world h live (o :: os) -> 0 < size <= chunk -> size mod 16 = 0 -> chunk <= 2 ^ 34 + 16 ->
  (refused h /\ scope_alloc chunk (v_alloc v) h = Fault NullDeref) \/
  exists h' s ptr ch, scope_alloc chunk (v_alloc v) h = Ok (h', s, ptr) /\ ptr mod 16 = 0 /\ same_in live (bytes h) (bytes h') /\ regions h ⊆ regions h' /\
    world h' ((ptr, size) :: live) (with_variable (mk_variable (ptr + chunk - (chunk - size)) (ptr + chunk) s) ch o :: os).
Proof.
  intros v Hw Hsz Hmod Hch. assert (2 ^ 34 + 32 < 2 ^ 35 /\ 2 ^ 35 < 2 ^ 64) as Hbig by (split; vm_compute; reflexivity). destruct (world_owner _ _ _ _ Hw) as (Hk & Hs & Hp).
  unfold scope_alloc, static_alloc, malloc. change aligned_block_size with 16. rewrite u64_small by lia.
  destruct (Z.eqb_spec (16 + chunk) 0) as [|_]; [lia|]. destruct (place (regions h) (16 + chunk)) as [curr|] eqn:Epl.
  2:{ left. split; [|done]. exists (16 + chunk). split; [lia|done]. }
  right. destruct (place_ok _ _ _ Epl) as (Hpos & Hal & Hend & Hapart); [lia|]. destruct (Z.eqb_spec curr 0) as [|_]; [lia|].
  set (r := (curr, 16 + chunk)). set (m1 := store curr (16 + chunk) (bytes h)). set (m' := store (curr + 8) (s_head (v_alloc v)) m1).
  set (s := mk_scope curr (if s_tail (v_alloc v) =? 0 then curr else s_tail (v_alloc v))).
  set (v' := mk_variable (curr + 16 + chunk - (chunk - size)) (curr + 16 + chunk) s). set (o' := with_variable v' (curr :: chunks o) o).
  assert (changes_in [r] (bytes h) m') as Hc.
  { eapply changes_trans; eapply changes_store with (q := r); try (by left); unfold within, r; simpl; lia. }
  assert (same_in (pieces o) (bytes h) m') as Hsame.
  { eapply untouched with (old := []); [exact Hs|done| |exact Hc]. intros x q ->%list_elem_of_singleton Hq. by eapply list.Forall_forall in Hapart. }
  assert (0 <= s_head (v_alloc v) < 2 ^ 64) as Hhead.
  { pose proof (k_areas _ _ Hk) as Ha. fold v in Ha. destruct (chunks o) as [|a l]; simpl in Ha; [rewrite Ha; lia|]. destruct Ha as (-> & ? & _). lia. }
  assert (owner_ok m' o') as Hk'.
  { eapply owner_with_variable; [exact Hk|done| | |cbn; lia|cbn; lia|].
    - cbn [v' v_alloc s s_head area_chain]. split; [done|]. split; [lia|]. assert (next_of m' curr = s_head (v_alloc v)) as -> by (unfold next_of, m'; by rewrite load_store).
      eapply area_chain_frame; [|apply Hk]. intros a x Ha Hx. apply (Hsame (a, 16)); [|done]. unfold pieces. rewrite !elem_of_app. right. right. apply list_elem_of_fmap. by exists a.
    - pose proof (k_last _ _ Hk) as Hlast. fold v in Hlast. cbn [v' v_alloc s s_tail]. rewrite Hlast. pose proof (k_areas _ _ Hk) as Ha. destruct (chunks o) as [|a l]; [done|].
      rewrite last_cons_cons. destruct (list.last (a :: l)) as [b|] eqn:El; [|by apply last_None in El]. simpl.
      assert (0 < b) as Hb; [|by destruct (Z.eqb_spec b 0); [lia|]]. clear -Ha El. revert Ha El. generalize (s_head (v_alloc (f_alloc (o_fixed o)))) as p.
      revert a. induction l as [|c l IH]; intros a p; [simpl; intros (-> & ? & _) [= ->]; lia|]. intros (_ & _ & Hl) El. rewrite last_cons_cons in El. by eapply IH.
    - cbn [v' v_head]. replace (curr + 16 + chunk - (chunk - size)) with (curr + (16 + size)) by lia. rewrite Z.add_mod, Hal by lia. rewrite (Z.add_mod 16), Hmod by lia. done. }
  assert (forall q, q ∈ (curr + 16, size) :: spare v' ++ [(curr, 16)] -> 0 < q.2 /\ within q r) as Hcut.
  { intros q Hq. unfold spare in Hq. destruct (Z.eqb_spec (v_head v') (v_tail v')) as [|Hne]; rewrite ?app_nil_l in Hq; repeat apply elem_of_cons in Hq as [->|Hq];
      try (by apply list.elem_of_nil in Hq); unfold within, r, v', remain in *; simpl in *; lia. }
  exists (mk_heap (r :: regions h) m'), s, (curr + 16), (curr :: chunks o). split; [done|]. split; [rewrite Z.add_mod, Hal by lia; done|].
  enough (world (mk_heap (r :: regions h) m') ([(curr + 16, size)] ++ live) (o' :: os) /\ same_in live (bytes h) m') as [? ?] by (split; [done|]; split; [cbn; set_solver|done]).
  assert ([(curr + 16, size)] ++ pieces o' ≡ₚ ((curr + 16, size) :: spare v' ++ [(curr, 16)]) ++
    (((fun p => (p, block_size_ (o_fixed o))) <$> nodes o) ++ ((fun c => (c, 16)) <$> chunks o))) as Eo'.
  { unfold pieces, o'. cbn [o_fixed with_variable nodes chunks block_size_ f_alloc fmap list_fmap]. solve_Permutation. }
  assert (pieces o ≡ₚ spare v ++ (((fun p => (p, block_size_ (o_fixed o))) <$> nodes o) ++ ((fun c => (c, 16)) <$> chunks o))) as Eo by (unfold pieces; fold v; solve_Permutation).
  apply world_fresh with (o := o); try done; [cbn; lia| | |].
  - eapply changes_more; [|exact Hc]. intros q ->%list_elem_of_singleton. exists r. split; [left|apply within_refl].
  - rewrite Eo'. rewrite Eo in Hs, Hp. apply separate_app in Hs as (_ & Hs & _). apply Forall_app in Hp as [_ Hp].
    eapply fresh_separate; [exact Hs|exact Hp| |exact Hapart|by intros q [_ ?]%Hcut].
    unfold spare. destruct (v_head v' =? v_tail v'); unfold v'; simpl; rewrite ?list.Forall_cons; unfold apart, remain; simpl; repeat split; first [lia|constructor].
  - intros q. rewrite Eo'. intros [[? ?]%Hcut|Hq]%elem_of_app.
    + split; [done|]. exists r. split; [left|done].
    + destruct (piece_kept _ _ q Hp) as (? & q0 & ? & ?); [rewrite Eo; set_solver|]. split; [done|]. exists q0. split; [by right|done].
Qed.
Lemma variable_alloc_ok h live o os size : world h live (o :: os) -> 0 < size <= 2 ^ 34 ->
  (refused h /\ variable_alloc size (f_alloc (o_fixed o)) h = Fault NullDeref) \/
  exists h' v p ch n, variable_alloc size (f_alloc (o_fixed o)) h = Ok (h', v, p) /\ p mod 16 = 0 /\ same_in live (bytes h) (bytes h') /\ regions h ⊆ regions h' /\
    size <= n /\ world h' ((p, n) :: live) (with_variable v ch o :: os).
Proof.
  intros Hw Hsz. unfold variable_alloc. pose proof (aligned_spec size ltac:(lia)) as Eal. set (n := aligned size max_align) in *.
  assert (n mod 16 = 0) as Hmod by (rewrite Eal, Z.add_mod, Z.mul_comm, Z.mod_mul by lia; done).
  assert (size <= n < size + 16) as Hn by lia. destruct (world_owner _ _ _ _ Hw) as (Hk & _ & _). destruct (Z.ltb_spec (remain (f_alloc (o_fixed o))) n) as [Hlt|Hge].
  - change aligned_chunk_size with 2097152. destruct (carve_fresh h live o os n (Z.max 2097152 n)) as [[Hr E]|(h' & s & ptr & ch & E & Hp & Hsame & Hreg & Hw')]; try done; [lia|lia| |]; rewrite E; [by left|].
    right. eexists _, _, _, _, n. split; [done|]. do 3 (split; [done|]). split; [lia|done].
  - right. eexists _, _, _, _, n. split; [done|]. split; [apply Hk|]. split; [by intros ? ?|]. split; [done|]. split; [lia|]. apply carve_spare; [done|lia..].
Qed.

(** * The free blocks *)
Fixpoint blocks (k : nat) (bs p : Z) : list Z :=
  match k with O => [p] | S k => p :: blocks k bs (p + bs) end.

Lemma blocks_head k bs p : exists l, blocks k bs p = p :: l.
Proof. destruct k; simpl; eauto. Qed.
Lemma blocks_in k bs p a : a ∈ blocks k bs p -> exists i : Z, 0 <= i <= Z.of_nat k /\ a = p + i * bs.
Proof.
  revert p. induction k as [|k IH]; intros p; simpl.
  - intros ->%list_elem_of_singleton. exists 0. lia.
  - intros [->|(i & Hi & ->)%IH]%elem_of_cons; [exists 0; lia|]. exists (i + 1). lia.
Qed.
Lemma blocks_separate k bs p : 0 < bs -> separate ((fun a => (a, bs)) <$> blocks k bs p).
Proof.
  intros Hbs. revert p. induction k as [|k IH]; intros p; cbn [blocks fmap list_fmap separate]; [split; [constructor|done]|]. split; [|apply IH].
  apply list.Forall_forall. intros q (a & -> & (i & Hi & ->)%blocks_in)%list_elem_of_fmap. left. simpl. nia.
Qed.

Lemma blocks_next k bs : (Z.of_nat (S k) + 1) * bs = bs + (Z.of_nat k + 1) * bs.
Proof. lia. Qed.
Lemma blocks_room k bs : 0 < bs -> bs <= (Z.of_nat k + 1) * bs.
Proof. nia. Qed.

Lemma link_changes k bs p m : 8 <= bs -> changes_in [(p, (Z.of_nat k + 1) * bs)] m (link k bs p m).
Proof.
  intros Hbs. revert p m. induction k as [|k IH]; intros p m; cbn [link]; rewrite ?blocks_next.
  - eapply changes_store; [left|]. unfold within. simpl. lia.
  - pose proof (blocks_room k bs ltac:(lia)). apply changes_trans with (store p (p + bs) m); [eapply changes_store; [left|unfold within; cbn [fst snd]; lia]|]. eapply changes_more; [|apply IH].
    intros q ->%list_elem_of_singleton. eexists. split; [left|]. unfold within. cbn [fst snd]. lia.
Qed.
Lemma link_chain k bs p m : 8 <= bs -> 0 < p -> p + (Z.of_nat k + 1) * bs < 2 ^ 64 -> chain (link k bs p m) p (blocks k bs p).
Proof.
  intros Hbs. revert p m. induction k as [|k IH]; intros p m Hp Hend; cbn [link blocks chain]; rewrite ?blocks_next in Hend.
  - split; [done|]. split; [lia|]. by apply load_store.
  - pose proof (blocks_room k bs ltac:(lia)). assert (p + bs < 2 ^ 64) as Hlt by lia. split; [done|]. split; [lia|]. rewrite (load_frame _ (store p (p + bs) m)); [|intros x Hx; apply (link_changes k bs); [done|]].
    + rewrite load_store by lia. apply IH; lia.
    + intros q ->%list_elem_of_singleton. unfold inside in *. simpl in *. lia.
Qed.

Definition with_nodes (c e : Z) (l : list Z) (o : owner) : owner :=
  mk_owner (mk_fixed (block_size_ (o_fixed o)) e c (f_alloc (o_fixed o))) l (chunks o).

Lemma owner_with_nodes m m' o c e l : owner_ok m o -> same_in (spare (f_alloc (o_fixed o)) ++ ((fun c => (c, 16)) <$> chunks o)) m m' ->
  chain m' c l -> Forall (fun p => p mod 8 = 0) l -> 1 <= e <= expand_limit -> owner_ok m' (with_nodes c e l o).
Proof.
  intros [? ? ? ? ? ? ? ? ? ?] Hsame Hc Hl He. split; try done. cbn. eapply area_chain_frame; [|done]. intros a x Ha. apply Hsame.
  apply elem_of_app. right. apply list_elem_of_fmap. by exists a.
Qed.
(** The allocator's other areas. *)
Definition others (o : owner) : list (Z * Z) := spare (f_alloc (o_fixed o)) ++ ((fun c => (c, 16)) <$> chunks o).
Lemma pieces_split o : pieces o = ((fun p => (p, block_size_ (o_fixed o))) <$> nodes o) ++ others o.
Proof. done. Qed.

(** A block in use is cut into free blocks. *)
Lemma link_ok h live o os p n k e : world h ((p, n) :: live) (o :: os) -> nodes o = [] -> p mod 8 = 0 ->
  let bs := block_size_ (o_fixed o) in (Z.of_nat k + 1) * bs <= n -> 1 <= e <= expand_limit ->
  world (upd (link k bs p) h) live (with_nodes p e (blocks k bs p) o :: os) /\ same_in live (bytes h) (link k bs p (bytes h)).
Proof.
  intros Hw Hnil Hal bs Hn He. destruct (world_owner _ _ _ _ Hw) as (Hk & Hs & Hp). pose proof (k_size _ _ Hk) as Hbs. fold bs in Hbs.
  rewrite pieces_split, Hnil in Hs, Hp. simpl in Hs, Hp.
  assert (0 < p /\ p + n < 2 ^ 64) as [Hpos Hend].
  { pose proof (w_placed _ _ _ Hw) as Hpl. cbn [app] in Hpl. apply list.Forall_cons in Hpl as [(_ & r & Hr & Hin) _].
    pose proof (w_range _ _ _ Hw) as Hg. eapply list.Forall_forall in Hg; [|exact Hr]. unfold within in Hin. simpl in *. lia. }
  assert (Forall (apart (p, n)) (others o)) as Hap.
  { pose proof (w_separate _ _ _ Hw) as Hsep. cbn [app separate mbind list_bind] in Hsep. destruct Hsep as [Hf _].
    rewrite pieces_split, Hnil in Hf. rewrite !Forall_app in Hf. apply Hf. }
  assert (changes_in [(p, n)] (bytes h) (link k bs p (bytes h))) as Hc.
  { eapply changes_more; [|apply link_changes; lia]. intros q ->%list_elem_of_singleton. eexists. split; [left|]. unfold within. simpl. lia. }
  assert (forall q, q ∈ ((fun a => (a, bs)) <$> blocks k bs p) -> 0 < q.2 /\ within q (p, n)) as Hcut.
  { intros q (a & -> & (j & Hj & ->)%blocks_in)%list_elem_of_fmap. unfold within. simpl. nia. }
  assert (forall o', pieces (with_nodes p e (blocks k bs p) o') = ((fun a => (a, block_size_ (o_fixed o'))) <$> blocks k bs p) ++ others o') as Epieces by done.
  apply (world_local h (link k bs p (bytes h)) [(p, n)] [] live o (with_nodes p e (blocks k bs p) o) os); [done| | | |].
  - eapply changes_more; [|exact Hc]. intros q ->%list_elem_of_singleton. eexists. split; [left|apply within_refl].
  - eapply owner_with_nodes; [done| | | |done].
    + intros q x Hq Hx. apply Hc. intros q' ->%list_elem_of_singleton Hx'. eapply list.Forall_forall in Hap; [|exact Hq]. by apply (inside_apart x (p, n) q).
    + apply link_chain; lia.
    + apply list.Forall_forall. intros a (j & Hj & ->)%blocks_in. pose proof (k_unit _ _ Hk) as Hu. fold bs in Hu. apply Z.mod_divide; [lia|]. apply Z.divide_add_r; [by apply Z.mod_divide|]. apply Z.divide_mul_r. by apply Z.mod_divide.
  - rewrite Epieces. cbn [app]. apply separate_app. split; [apply blocks_separate; lia|]. split; [done|]. intros a b [_ Ha]%Hcut Hb.
    eapply apart_within; [exact Ha|]. by eapply list.Forall_forall in Hap.
  - rewrite Epieces. cbn [app]. intros q [[? ?]%Hcut|Hq]%elem_of_app.
    + split; [done|]. eexists. split; [left|done].
    + destruct (piece_kept _ _ q Hp Hq) as (? & q0 & ? & ?). split; [done|]. exists q0. split; [|done]. right. rewrite pieces_split. set_solver.
Qed.

(** The first free block comes into use. *)
Lemma pop_ok h live o os p l : world h live (o :: os) -> nodes o = p :: l ->
  let f := o_fixed o in
  world h ((p, block_size_ f) :: live) (with_nodes (load (bytes h) p) (init_expand_ f) l o :: os) /\ cursor_ f = p /\ 0 < p /\ p mod 8 = 0.
Proof.
  intros Hw El f. destruct (world_owner _ _ _ _ Hw) as (Hk & Hs & Hp). pose proof (k_chain _ _ Hk) as Hc. pose proof (k_nodes _ _ Hk) as Hn.
  rewrite El in Hc, Hn. destruct Hc as (Hc & Hpos & Hl). apply list.Forall_cons in Hn as [Hal Hn]. split; [|split; [done|split; [lia|done]]].
  assert (pieces o = [(p, block_size_ f)] ++ pieces (with_nodes (load (bytes h) p) (init_expand_ f) l o)) as Eo by (rewrite !pieces_split, El; done).
  destruct (world_local h (bytes h) [] [(p, block_size_ f)] live o (with_nodes (load (bytes h) p) (init_expand_ f) l o) os) as [Hw' _]; [done|apply changes_refl|..|by destruct h].
  - eapply owner_with_nodes; [done|by intros ? ?|done|done|apply Hk].
  - by rewrite <- Eo.
  - rewrite <- Eo. intros q Hq. by eapply piece_kept.
Qed.

Lemma chain_nil m l : chain m 0 l -> l = [].
Proof. destruct l as [|a l]; [done|]. simpl. lia. Qed.
Lemma chain_cons m c l : chain m c l -> c <> 0 -> exists l', l = c :: l'.
Proof. destruct l as [|a l]; simpl; [done|]. intros (-> & _) _. by exists l. Qed.

Lemma fixed_alloc_ok h live o os : world h live (o :: os) ->
  let f := o_fixed o in
  (refused h /\ fixed_alloc f h = Fault NullDeref) \/
  exists h' o' p, fixed_alloc f h = Ok (h', o_fixed o', p) /\ world h' ((p, block_size_ f) :: live) (o' :: os) /\
    same_in live (bytes h) (bytes h') /\ block_size_ (o_fixed o') = block_size_ f /\ 0 < p /\ p mod 8 = 0 /\ regions h ⊆ regions h'.
Proof.
  intros Hw f. destruct (world_owner _ _ _ _ Hw) as (Hk & _ & _). unfold fixed_alloc, try_expand, fixed_empty. pose proof (k_chain _ _ Hk) as Hc. fold f in Hc.
  destruct (Z.eqb_spec (cursor_ f) 0) as [E0|E0].
  - rewrite E0 in Hc. apply chain_nil in Hc as Hnil. destruct (expand_size (block_size_ f) (init_expand_ f)) as (size & e & Eex & Esz & He); [apply Hk|apply Hk|]. rewrite Eex.
    pose proof (k_size _ _ Hk) as Hbs. pose proof (k_expand _ _ Hk) as Hex. fold f in Hbs, Hex. unfold expand_limit in Hex.
    destruct (variable_alloc_ok h live o os size Hw) as [[Hr E]|(h1 & v & p & ch & n & E & Hal & Hs1 & Hr1 & Hn & Hw1)]; [lia|fold f in E; rewrite E; by left|]. fold f in E. rewrite E. right.
    cbn [mbind res_bind]. destruct (Z.eqb_spec (block_size_ f) 0) as [|_]; [lia|].
    assert (1 <= size / block_size_ f) as Hq1 by (apply Z.div_le_lower_bound; lia).
    assert (size / block_size_ f <= size) as Hq2 by (apply Z.div_le_upper_bound; nia).
    rewrite u64_small by lia. set (k := Z.to_nat (size / block_size_ f - 1)).
    destruct (link_ok h1 live (with_variable v ch o) os p n k e) as [Hw2 Hs2]; [done|done| | |done|].
    { rewrite <- (Z.mod_mod_divide p 16 8) by (exists 2; lia). by rewrite Hal. }
    { change (block_size_ (o_fixed (with_variable v ch o))) with (block_size_ f). subst k. pose proof (Z.mul_div_le size (block_size_ f)). nia. }
    change (block_size_ (o_fixed (with_variable v ch o))) with (block_size_ f) in *.
    destruct (blocks_head k (block_size_ f) p) as [l El]. destruct (pop_ok _ _ _ _ p l Hw2 El) as (Hw3 & _ & Hp & Hp8).
    eexists _, _, p. split; [|split; [exact Hw3|]]; [done|]. split; [by eapply same_trans|]. done.
  - right. apply chain_cons in Hc as (l & El); [|done]. destruct (pop_ok h live o os _ l Hw El) as (Hw' & _ & Hp & Hp8).
    eexists _, _, (cursor_ f). split; [|split; [exact Hw'|]]; [done|]. split; [by intros ? ?|]. done.
Qed.

(** A block in use becomes the first free one. *)
Lemma fixed_free_ok h live o os p : let f := o_fixed o in
  world h ((p, block_size_ f) :: live) (o :: os) -> p mod 8 = 0 ->
  exists h' o', fixed_free p f h = (h', o_fixed o') /\ world h' live (o' :: os) /\ same_in live (bytes h) (bytes h') /\ block_size_ (o_fixed o') = block_size_ f /\ regions h' = regions h.
Proof.
  intros f Hw Hal. destruct (world_owner _ _ _ _ Hw) as (Hk & Hs & Hp). pose proof (k_size _ _ Hk) as Hbs. fold f in Hbs.
  pose proof (w_separate _ _ _ Hw) as Hsep. cbn [app separate mbind list_bind] in Hsep. destruct Hsep as [Hap _]. rewrite !Forall_app in Hap. destruct Hap as (_ & Hap & _).
  pose proof (w_placed _ _ _ Hw) as Hpl. cbn [app] in Hpl. apply list.Forall_cons in Hpl as [(_ & r & Hr & Hin) _].
  pose proof (w_range _ _ _ Hw) as Hg. eapply list.Forall_forall in Hg; [|exact Hr]. unfold within in Hin. simpl in Hin.
  unfold fixed_free. destruct (Z.eqb_spec p 0) as [|_]; [lia|].
  set (m' := store p (cursor_ f) (bytes h)). set (o' := with_nodes p (init_expand_ f) (p :: nodes o) o).
  assert (changes_in [(p, block_size_ f)] (bytes h) m') as Hc by (eapply changes_store; [left|unfold within; simpl; lia]).
  assert (same_in (pieces o) (bytes h) m') as Hsame.
  { intros q x Hq Hx. apply Hc. intros q' ->%list_elem_of_singleton Hx'. eapply list.Forall_forall in Hap; [|exact Hq]. by apply (inside_apart x (p, block_size_ f) q). }
  exists (upd (store p (cursor_ f)) h), o'. split; [done|].
  assert (pieces o' = (p, block_size_ f) :: pieces o) as Eo by done.
  assert (0 <= cursor_ f < 2 ^ 64) as Hcur by (pose proof (k_chain _ _ Hk) as Hch; fold f in Hch; destruct (nodes o); simpl in Hch; lia).
  destruct (world_local h m' [(p, block_size_ f)] [] live o o' os) as [Hw' ?]; [done| | | | |done].
  - eapply changes_more; [|exact Hc]. intros q ->%list_elem_of_singleton. eexists. split; [left|apply within_refl].
  - eapply owner_with_nodes; [done|eapply same_less; [|exact Hsame]; rewrite pieces_split; unfold others; set_solver| | |apply Hk].
    + cbn [chain]. split; [done|]. split; [lia|]. unfold m'. rewrite load_store by done. eapply chain_frame; [apply Hbs| |apply Hk].
      intros a x Ha. apply Hsame. rewrite pieces_split. apply elem_of_app. left. apply list_elem_of_fmap. by exists a.
    + constructor; [done|apply Hk].
  - rewrite Eo. split; [done|done].
  - rewrite Eo. cbn [app]. intros q [->|Hq]%elem_of_cons; [simpl; split; [lia|]; eexists; split; [left|apply within_refl]|].
    destruct (piece_kept _ _ q Hp Hq) as (? & q0 & ? & ?). split; [done|]. exists q0. split; [by right|done].
Qed.
(** * Taking over what another allocator owns *)
Lemma area_chain_last m p l t : area_chain m p l -> list.last l = Some t -> next_of m t = 0.
Proof.
  revert p. induction l as [|a l IH]; intros p; [done|]. simpl area_chain. intros (_ & _ & Hl) Et.
  destruct l as [|b l]; [by injection Et as ->|]. rewrite last_cons_cons in Et. by eapply IH.
Qed.
Lemma area_chain_app m p q l1 l2 t : area_chain m p l1 -> list.last l1 = Some t -> area_chain m q l2 -> 0 <= q < 2 ^ 64 ->
  separate ((fun c => (c, 16)) <$> l1 ++ l2) -> area_chain (store (t + 8) q m) p (l1 ++ l2).
Proof.
  intros H1 Et H2 Hq. revert p H1. induction l1 as [|a l1 IH]; intros p; [done|]. simpl. intros (-> & Ha & Hl) [Hap Hs].
  do 2 (split; [done|]). rewrite fmap_app, Forall_app in Hap. destruct Hap as [Hap1 Hap2].
  assert (forall x c, c ∈ l1 ++ l2 -> t = a -> inside x (c, 16) -> ~ inside x (a + 8, 8)) as Hother.
  { intros x c Hc _ Hx Hx'. apply (inside_apart x (a, 16) (c, 16)); [unfold inside in *; simpl in *; lia|done|].
    apply elem_of_app in Hc as [Hc|Hc]; [eapply list.Forall_forall in Hap1|eapply list.Forall_forall in Hap2]; try done; apply list_elem_of_fmap; by exists c. }
  destruct l1 as [|b l1]; simpl app in *.
  - injection Et as ->. unfold next_of. rewrite load_store by done. eapply area_chain_frame; [|exact H2]. intros c x Hc Hx. apply store_other. by eapply Hother.
  - rewrite last_cons_cons in Et. unfold next_of in *. rewrite (load_frame _ m); [by apply IH|]. intros x Hx. apply store_other. intros Hx'.
    apply (inside_apart x (a, 16) (t, 16)); [unfold inside in *; simpl in *; lia..|]. eapply list.Forall_forall in Hap1; [exact Hap1|].
    apply list_elem_of_fmap. exists t. split; [done|]. by apply list.last_Some_elem_of.
Qed.
Lemma area_head m p l : area_chain m p l -> 0 <= p < 2 ^ 64.
Proof. destruct l; simpl; lia. Qed.
Lemma area_nil m p l : area_chain m p l -> p = 0 <-> l = [].
Proof. destruct l; simpl; [tauto|]. split; [lia|done]. Qed.

(** The lists of areas, one after the other. *)
Lemma scope_take_ok h s1 s2 l1 l2 : area_chain (bytes h) (s_head s1) l1 -> s_tail s1 = default 0 (list.last l1) ->
  area_chain (bytes h) (s_head s2) l2 -> s_tail s2 = default 0 (list.last l2) -> separate ((fun c => (c, 16)) <$> l1 ++ l2) ->
  exists m' s s', scope_take s1 s2 h = (mk_heap (regions h) m', s, s') /\ s_head s' = 0 /\ area_chain m' (s_head s) (l1 ++ l2) /\
    s_tail s = default 0 (list.last (l1 ++ l2)) /\ changes_in ((fun c => (c, 16)) <$> l1) (bytes h) m'.
Proof.
  intros H1 T1 H2 T2 Hs. unfold scope_take, scope_empty. pose proof (area_nil _ _ _ H1) as N1. pose proof (area_nil _ _ _ H2) as N2.
  destruct (Z.eqb_spec (s_head s2) 0) as [E2|E2].
  { apply N2 in E2 as ->. rewrite app_nil_r. exists (bytes h), s1, s2. split; [by destruct h|]. split; [by apply N2|]. do 2 (split; [done|]). apply changes_refl. }
  destruct (Z.eqb_spec (s_head s1) 0) as [E1|E1].
  { pose proof E1 as ->%N1. exists (bytes h), s2, s1. split; [by destruct h|]. do 3 (split; [done|]). apply changes_refl. }
  destruct (list.last l1) as [t|] eqn:Et; [|apply last_None in Et; tauto]. simpl in T1. rewrite T1.
  eexists _, _, _. split; [done|]. cbn [s_head s_tail]. split; [exact (area_chain_last _ _ _ _ H1 Et)|]. split; [apply area_chain_app; try done; by eapply area_head|]. split.
  - rewrite T2, last_app. destruct (list.last l2) eqn:El; [done|apply last_None in El; tauto].
  - eapply changes_store; [apply list_elem_of_fmap; exists t; split; [done|by apply list.last_Some_elem_of]|]. unfold within. simpl. lia.
Qed.

Lemma fixed_destroy_empty f h : s_head (v_alloc (f_alloc f)) = 0 -> fixed_destroy f h = Ok h.
Proof. intros E. unfold fixed_destroy, scope_destroy. rewrite E. by destruct (length (regions h)). Qed.

Lemma fixed_take_ok h live o o1 os : world h live (o :: o1 :: os) -> cursor_ (o_fixed o) = 0 -> block_size_ (o_fixed o1) = block_size_ (o_fixed o) ->
  exists h' o' f1, fixed_take (o_fixed o) (o_fixed o1) h = Ok (h', o_fixed o', f1) /\ s_head (v_alloc (f_alloc f1)) = 0 /\
    world h' live (o' :: os) /\ same_in live (bytes h) (bytes h') /\ block_size_ (o_fixed o') = block_size_ (o_fixed o) /\ regions h' = regions h.
Proof.
  intros Hw E0 Ebs. destruct (world_owner _ _ _ _ Hw) as (Hk & _ & _).
  assert (owner_ok (bytes h) o1) as Hk1 by (apply (world_owner h live o1 (o :: os)); rewrite Permutation_swap; done).
  assert (nodes o = []) as Hnil by (eapply chain_nil; rewrite <- E0; apply Hk).
  assert (separate (pieces o ++ pieces o1) /\ Forall (placed (regions h)) (pieces o ++ pieces o1)) as [Hs Hp].
  { pose proof (w_separate _ _ _ Hw) as Hs. pose proof (w_placed _ _ _ Hw) as Hp. cbn [mbind list_bind] in Hs, Hp.
    apply separate_app in Hs as (_ & Hs & _). rewrite app_assoc in Hs. apply separate_app in Hs as [Hs _].
    apply Forall_app in Hp as [_ Hp]. rewrite app_assoc in Hp. by apply Forall_app in Hp as [Hp _]. }
  set (f := o_fixed o) in *. set (f1 := o_fixed o1) in *.
  set (hd l := (fun c : Z => (c, 16)) <$> l : list (Z * Z)).
  assert (pieces o ++ pieces o1 ≡ₚ hd (chunks o ++ chunks o1) ++ spare (f_alloc f) ++ spare (f_alloc f1) ++ ((fun p => (p, block_size_ f)) <$> nodes o1)) as Eall.
  { unfold pieces, hd. rewrite Hnil, fmap_app. fold f f1. rewrite Ebs. simpl. solve_Permutation. }
  rewrite Eall in Hs, Hp.
  destruct (scope_take_ok h (v_alloc (f_alloc f)) (v_alloc (f_alloc f1)) (chunks o) (chunks o1)) as (m' & s & s' & Et & Hs0 & Hch & Htl & Hc);
    [apply Hk|apply Hk|apply Hk1|apply Hk1|by apply separate_app in Hs as [Hs _]|].
  set (b := remain (f_alloc f) <? remain (f_alloc f1)). set (w := if b then f_alloc f1 else f_alloc f).
  set (o' := mk_owner (mk_fixed (block_size_ f) (Z.max (init_expand_ f) (init_expand_ f1)) (cursor_ f1) (mk_variable (v_head w) (v_tail w) s)) (nodes o1) (chunks o ++ chunks o1)).
  exists (mk_heap (regions h) m'), o', (mk_fixed (block_size_ f1) (init_expand_ f1) 0 (mk_variable 0 0 s')).
  assert (exists dropped, hd (chunks o ++ chunks o1) ++ spare (f_alloc f) ++ spare (f_alloc f1) ++ ((fun p => (p, block_size_ f)) <$> nodes o1) ≡ₚ pieces o' ++ dropped) as [dropped Edrop].
  { exists (spare (if b then f_alloc f else f_alloc f1)). unfold pieces, o'. cbn [o_fixed nodes chunks block_size_ f_alloc].
    change (spare (mk_variable (v_head w) (v_tail w) s)) with (spare w). fold (hd (chunks o ++ chunks o1)). subst w. destruct b; solve_Permutation. }
  assert (forall a q, a ∈ ((fun p => (p, block_size_ f1)) <$> nodes o1) -> q ∈ hd (chunks o) -> apart a q) as Hap.
  { rewrite Ebs. intros a q Ha Hq. unfold hd in Hs. rewrite fmap_app in Hs. apply separate_app in Hs as (_ & _ & Hs). apply apart_sym, Hs; set_solver. }
  rewrite Edrop in Hs, Hp. apply separate_app in Hs as [Hs _]. apply Forall_app in Hp as [Hp _].
  assert (forall q, q ∈ pieces o' -> q ∈ pieces o ++ pieces o1) as Hsub by (intros q Hq; rewrite Eall, Edrop; set_solver).
  split; [|split; [done|]].
  { unfold fixed_take, fixed_empty, variable_take. rewrite E0. destruct (Z.eqb_spec (cursor_ f1) 0) as [E1|E1]; cbn [Z.eqb mbind res_bind]; rewrite Et; unfold o'; cbn [o_fixed]; subst w; fold b; rewrite ?E1; destruct b; done. }
  destruct (world_step h m' [] [] [] live [o; o1] [o'] os) as [Hw' Hsame]; cbn [mbind list_bind app]; rewrite ?app_nil_r; try done; [set_solver| | |].
  - eapply changes_more; [|exact Hc]. intros q Hq. exists q. split; [|apply within_refl]. rewrite Eall. apply elem_of_app. left. unfold hd. rewrite fmap_app. set_solver.
  - apply list.Forall_singleton. pose proof (k_expand _ _ Hk). pose proof (k_expand _ _ Hk1). fold f in H0. fold f1 in H1. split; cbn; try done.
    + eapply chain_frame; [apply (k_size _ _ Hk1)| |apply Hk1]. fold f1. intros a x Ha Hx. apply Hc. intros q Hq Hxq.
      apply (inside_apart x (a, block_size_ f1) q); [done..|]. apply Hap; [|set_solver]. apply list_elem_of_fmap. by exists a.
    + subst w. destruct b; [apply Hk1|apply Hk].
    + subst w. destruct b; [apply Hk1|apply Hk].
    + subst w. destruct b; [apply Hk1|apply Hk].
    + apply Hk1.
    + lia.
    + apply Hk.
    + apply Hk.
  - intros q Hq. destruct (piece_kept _ _ q Hp Hq) as (? & _). split; [done|]. exists q. split; [by apply Hsub|apply within_refl].
Qed.
End ops.
