(* ===== verification/AllocClaims.v ===== *)
(** The memory pools as a whole: blocks in use are apart, keep what was written
    to them, and come out of what the system granted. *)
From stdpp Require Import prelude list gmap functions.
From Stdlib Require Import ZArith Lia Ascii.
From S2P Require Import Prelude Cpp Alloc AllocInv AllocOps.

Open Scope Z_scope.

Section claims.
Context `{Malloc}.

(** * One size *)
Definition values (m : gmap nat fixed) : list fixed := (map_to_list m).*2.
Definition fixed_of (w : async) : list fixed := recycler_ w ++ values (tls_ w).

Lemma values_take m t f : m !! t = Some f -> values m ≡ₚ f :: values (delete t m).
Proof. intros Hf. unfold values. by rewrite <- (map_to_list_delete m t f Hf). Qed.
Lemma values_insert m t f : values (<[t := f]> m) ≡ₚ f :: values (delete t m).
Proof. unfold values. rewrite <- insert_delete_eq. by rewrite map_to_list_insert by apply lookup_delete_eq. Qed.

(** The allocators of the size, and the owners that go with them and with the
    allocators [rs] of the other sizes. *)
Definition sized (w : async) (fs : list fixed) : Prop := Forall (fun f => block_size_ f = pars_ w) fs.
Record class_ok (h : heap) (live : list (Z * Z)) (w : async) (rs : list fixed) (os : list owner) : Prop := {
  c_owners : o_fixed <$> os ≡ₚ fixed_of w ++ rs;
  c_world : world h live os;
  c_sized : sized w (fixed_of w);
  c_pars : 8 <= pars_ w <= 512 /\ pars_ w mod 8 = 0 }.

Lemma focus (os : list owner) f fs : o_fixed <$> os ≡ₚ f :: fs ->
  exists o os', os ≡ₚ o :: os' /\ o_fixed o = f /\ o_fixed <$> os' ≡ₚ fs.
Proof.
  intros E. assert (f ∈ o_fixed <$> os) as (o & -> & [os' Eos]%elem_of_Permutation)%list_elem_of_fmap by (rewrite E; left).
  exists o, os'. split; [done|]. split; [done|]. rewrite Eos in E. by apply Permutation_cons_inv in E.
Qed.

(** A new allocator owns nothing. *)
Lemma world_new h live os bs : 8 <= bs <= 512 -> bs mod 8 = 0 -> world h live os -> world h live (mk_owner (fixed_new bs 1) [] [] :: os).
Proof. intros Hb Hm [Hk Hs Hp Hr Hg]. split; try done. constructor; [|done]. split; cbn; try done; unfold expand_limit; lia. Qed.

Lemma get_alloc_ok t h live w rs os : class_ok h live w rs os ->
  exists w' f os', get_alloc t w h = Ok (h, w', f) /\ class_ok h live w' rs os' /\ tls_ w' !! t = Some f /\ pars_ w' = pars_ w /\
    (length (recycler_ w') <= length (recycler_ w))%nat.
Proof.
  intros [Ho Hw Hsz Hp]. unfold get_alloc. destruct (tls_ w !! t) as [f|] eqn:Ef; [by exists w, f, os|].
  assert (fixed_of w = recycler_ w ++ values (tls_ w)) as Ew by done. destruct (recycler_ w) as [|first rest] eqn:Er; cbn [try_recover mbind res_bind].
  - eexists _, _, (mk_owner (fixed_new (pars_ w) 1) [] [] :: os). split; [done|]. split; [|split; [apply lookup_insert_eq|done]].
    assert (fixed_of (mk_async (pars_ w) [] (<[t := fixed_new (pars_ w) 1]> (tls_ w))) ≡ₚ fixed_new (pars_ w) 1 :: fixed_of w) as E.
    { rewrite Ew. unfold fixed_of. cbn [recycler_ tls_]. rewrite values_insert, delete_id by done. done. }
    split; [|apply world_new; [apply Hp..|done]| |done].
    + rewrite E, fmap_cons, Ho. done.
    + unfold sized. rewrite E. by constructor.
  - rewrite fixed_destroy_empty by done. cbn [mbind res_bind]. eexists _, _, os. split; [done|]. split; [|split; [apply lookup_insert_eq|]; cbn; split; [done|lia]].
    assert (fixed_of (mk_async (pars_ w) rest (<[t := first]> (tls_ w))) ≡ₚ fixed_of w) as E.
    { rewrite Ew. unfold fixed_of. cbn [recycler_ tls_]. rewrite values_insert, delete_id by done. solve_Permutation. }
    split; [by rewrite E|done|unfold sized; by rewrite E|done].
Qed.

(** The thread's allocator works, and is put back. *)
Lemma put_back t h h' live live' w rs os f f' r' o' os1 : class_ok h live w rs os -> tls_ w !! t = Some f ->
  o_fixed <$> os1 ≡ₚ r' ++ values (delete t (tls_ w)) ++ rs -> sized w r' -> o_fixed o' = f' -> block_size_ f' = pars_ w ->
  world h' live' (o' :: os1) -> class_ok h' live' (mk_async (pars_ w) r' (<[t := f']> (tls_ w))) rs (o' :: os1).
Proof.
  intros [Ho Hw Hsz Hp] Ef E1 Hr <- Hbs Hw'. unfold sized, fixed_of in *. cbn [recycler_ tls_ pars_] in *.
  split; [|done| |done]; unfold sized, fixed_of; cbn [recycler_ tls_ pars_].
  - rewrite fmap_cons, E1, values_insert. solve_Permutation.
  - rewrite values_insert. apply Forall_app. split; [done|]. constructor; [done|]. rewrite (values_take _ _ _ Ef) in Hsz.
    apply Forall_app in Hsz as [_ Hsz]. by apply list.Forall_cons in Hsz as [_ Hsz].
Qed.

Lemma class_focus t h live w rs os f : class_ok h live w rs os -> tls_ w !! t = Some f ->
  exists o os1, os ≡ₚ o :: os1 /\ o_fixed o = f /\ o_fixed <$> os1 ≡ₚ recycler_ w ++ values (delete t (tls_ w)) ++ rs /\ block_size_ f = pars_ w.
Proof.
  intros [Ho Hw Hsz Hp] Ef. destruct (focus os f (recycler_ w ++ values (delete t (tls_ w)) ++ rs)) as (o & os1 & E & Eo & E1).
  { rewrite Ho. unfold fixed_of. rewrite (values_take _ _ _ Ef). solve_Permutation. }
  exists o, os1. split; [done|]. split; [done|]. split; [done|]. unfold sized, fixed_of in Hsz. rewrite (values_take _ _ _ Ef) in Hsz.
  apply Forall_app in Hsz as [_ Hsz]. by apply list.Forall_cons in Hsz as [Hsz _].
Qed.

Lemma replenish_ok t h live w rs os f : class_ok h live w rs os -> tls_ w !! t = Some f ->
  exists h' f' r' o' os1, try_replenish f (recycler_ w) h = Ok (h', f', r') /\ o_fixed o' = f' /\ block_size_ f' = pars_ w /\ sized w r' /\
    o_fixed <$> os1 ≡ₚ r' ++ values (delete t (tls_ w)) ++ rs /\ world h' live (o' :: os1) /\ same_in live (bytes h) (bytes h') /\
    regions h' = regions h /\ (length r' <= length (recycler_ w))%nat.
Proof.
  intros Hc Ef. destruct (class_focus t _ _ _ _ _ _ Hc Ef) as (o & os1 & E & Eo & E1 & Hbs). pose proof Hc as [Ho Hw Hsz Hp]. rewrite E in Hw.
  assert (sized w (recycler_ w)) as Hr by (unfold sized, fixed_of in *; by apply Forall_app in Hsz as [? _]).
  unfold try_replenish. destruct (fixed_empty f) eqn:Ee; cbn [negb]; [|by exists h, f, (recycler_ w), o, os1].
  destruct (recycler_ w) as [|first rest] eqn:Er; cbn [try_fill mbind res_bind]; [by exists h, f, [], o, os1|].
  destruct (focus os1 first (rest ++ values (delete t (tls_ w)) ++ rs)) as (o1 & os2 & E' & Eo1 & E2); [done|]. rewrite E' in Hw.
  apply list.Forall_cons in Hr as [Hfirst Hrest].
  destruct (fixed_take_ok h live o o1 os2 Hw) as (h' & o' & f1 & Et & Hz & Hw' & Hsame & Hbs' & Hreg); [by apply Z.eqb_eq in Ee; rewrite Eo|by rewrite Eo, Eo1, Hbs|].
  rewrite Eo, Eo1 in Et. rewrite Et. cbn [mbind res_bind]. rewrite fixed_destroy_empty by done. cbn [mbind res_bind].
  eexists h', _, rest, o', os2. split; [done|]. split; [done|]. split; [by rewrite Hbs', Eo|]. do 5 (split; [done|]). simpl. lia.
Qed.

Lemma async_alloc_ok t h live w rs os : class_ok h live w rs os ->
  (refused h /\ async_alloc t w h = Fault NullDeref) \/
  exists h' w' p os', async_alloc t w h = Ok (h', w', p) /\ class_ok h' ((p, pars_ w) :: live) w' rs os' /\ same_in live (bytes h) (bytes h') /\
    pars_ w' = pars_ w /\ (length (recycler_ w') <= length (recycler_ w))%nat /\ 0 < p /\ p mod 8 = 0 /\ regions h ⊆ regions h'.
Proof.
  intros Hc. destruct (get_alloc_ok t _ _ _ _ _ Hc) as (w1 & f & os1 & Eg & Hc1 & Ef & Hp1 & Hl1). unfold async_alloc. rewrite Eg. cbn [mbind res_bind].
  destruct (replenish_ok t _ _ _ _ _ f Hc1 Ef) as (h2 & f2 & r2 & o2 & os2 & Er & Eo2 & Hbs2 & Hr2 & E2 & Hw2 & Hs2 & Hreg2 & Hl2). rewrite Er. cbn [mbind res_bind].
  destruct (fixed_alloc_ok h2 live o2 os2 Hw2) as [[(n & Hn & Hno) Ea]|(h3 & o3 & p & Ea & Hw3 & Hs3 & Hbs3 & Hp & Hal & Hr3)]; rewrite Eo2 in Ea; rewrite Ea; [left|right].
  - split; [|done]. exists n. by rewrite <- Hreg2.
  - cbn [mbind res_bind]. rewrite Eo2, Hbs2, Hp1 in Hw3. eexists h3, _, p, (o3 :: os2). split; [done|]. cbn [pars_ recycler_].
    split; [|split; [by eapply same_trans|split; [done|split; [lia|by rewrite <- Hreg2]]]]. rewrite <- Hp1.
    eapply put_back with (h := h) (live := live) (os := os1); try done; [by rewrite Hbs3, Eo2|by rewrite Hp1].
Qed.

Lemma async_free_ok t p h live w rs os : class_ok h ((p, pars_ w) :: live) w rs os -> p mod 8 = 0 ->
  exists h' w' os', async_free t p w h = Ok (h', w') /\ class_ok h' live w' rs os' /\ same_in live (bytes h) (bytes h') /\
    pars_ w' = pars_ w /\ (length (recycler_ w') <= length (recycler_ w))%nat /\ regions h' = regions h.
Proof.
  intros Hc Hal. destruct (get_alloc_ok t _ _ _ _ _ Hc) as (w1 & f & os1 & Eg & Hc1 & Ef & Hp1 & Hl1). unfold async_free. rewrite Eg. cbn [mbind res_bind].
  destruct (class_focus t _ _ _ _ _ _ Hc1 Ef) as (o & os2 & E & Eo & E2 & Hbs). pose proof (c_world _ _ _ _ _ Hc1) as Hw. rewrite E in Hw.
  rewrite <- Hp1, <- Hbs, <- Eo in Hw. destruct (fixed_free_ok h live o os2 p Hw Hal) as (h' & o' & Efr & Hw' & Hs & Hbs' & Hreg). rewrite Eo in Efr. rewrite Efr.
  eexists h', _, (o' :: os2). split; [done|]. split; [|split; [done|split; [done|split; [cbn; lia|done]]]].
  eapply put_back with (os := os1); try done.
  - pose proof (c_sized _ _ _ _ _ Hc1) as Hsz. unfold sized, fixed_of in *. by apply Forall_app in Hsz as [? _].
  - by rewrite Hbs', Eo, Hbs.
Qed.

(** A thread ends while there is room for its allocator. *)
Lemma async_exit_ok t h live w rs os : class_ok h live w rs os -> (length (recycler_ w) < max_allocs)%nat ->
  exists w', async_exit t w h = Ok (h, w') /\ class_ok h live w' rs os /\ pars_ w' = pars_ w /\ (length (recycler_ w') <= S (length (recycler_ w)))%nat.
Proof.
  intros Hc Hlen. unfold async_exit. destruct (tls_ w !! t) as [f|] eqn:Ef; [|exists w; repeat split; try apply Hc; lia].
  unfold collect. rewrite decide_False by lia. cbn [mbind res_bind]. eexists. split; [done|]. cbn [pars_ recycler_]. split; [|split; [done|rewrite length_app; simpl; lia]].
  assert (fixed_of (mk_async (pars_ w) (recycler_ w ++ [f]) (delete t (tls_ w))) ≡ₚ fixed_of w) as E.
  { unfold fixed_of. cbn [recycler_ tls_]. rewrite (values_take _ _ _ Ef). solve_Permutation. }
  destruct Hc as [Ho Hw Hsz Hp]. split; [by rewrite E|done|unfold sized; by rewrite E|done].
Qed.
(** * Blocks of the system *)
Lemma world_malloc h live os n p : world h live os -> 0 < n -> place (regions h) n = Some p ->
  world (mk_heap ((p, n) :: regions h) (bytes h)) ((p, n) :: live) os /\ 0 < p /\ p mod 16 = 0.
Proof.
  intros Hw Hn Hp. destruct (place_ok _ _ _ Hp Hn) as (Hpos & Hal & Hend & Hap). split; [|done].
  destruct (world_step h (bytes h) [(p, n)] [] [(p, n)] live [] [] os) as [Hw' _]; cbn [mbind list_bind app]; rewrite ?app_nil_r; try done.
  - intros r q ->%list_elem_of_singleton Hq. by eapply list.Forall_forall in Hap.
  - by apply list.Forall_singleton.
  - intros q Hq. pose proof Hq as ->%list_elem_of_singleton. split; [done|]. exists (p, n). split; [done|apply within_refl].
Qed.

Lemma separate_lookup l i j a b : separate l -> l !! i = Some a -> l !! j = Some b -> i <> j -> apart a b.
Proof.
  revert i j. induction l as [|x l IH]; intros i j; [done|]. intros [Hx Hl] Ha Hb Hne. destruct i as [|i], j as [|j]; simplify_eq/=; try done.
  - eapply list.Forall_forall in Hx; [done|by eapply list_elem_of_lookup_2].
  - apply apart_sym. eapply list.Forall_forall in Hx; [done|by eapply list_elem_of_lookup_2].
  - eapply IH; try done. congruence.
Qed.

Lemma world_c_free h live os p n : world h ((p, n) :: live) os -> (p, n) ∈ regions h ->
  exists rs, c_free p h = Ok (mk_heap rs (bytes h)) /\ world (mk_heap rs (bytes h)) live os /\ forall r, r ∈ regions h -> r.1 <> p -> r ∈ rs.
Proof.
  intros [Hk Hs Hp Hr Hg] Hin. unfold c_free. pose proof (proj1 (list.Forall_forall _ _) Hg _ Hin) as Hpos. simpl in Hpos. destruct (Z.eqb_spec p 0) as [|_]; [lia|].
  destruct (list_find (fun r : Z * Z => r.1 = p) (regions h)) as [[i r]|] eqn:Ef.
  2:{ apply list_find_None in Ef. by eapply list.Forall_forall in Ef; [|exact Hin]. }
  apply list_find_Some in Ef as (Hi & Er & _). apply list_elem_of_lookup in Hin as [j Hj].
  assert (i = j) as ->; [|rewrite Hj in Hi; injection Hi as <-].
  { destruct (decide (i = j)) as [|Hne]; [done|]. pose proof (separate_lookup _ _ _ _ _ Hr Hi Hj Hne) as Hap.
    apply list_elem_of_lookup_2 in Hi. eapply list.Forall_forall in Hg; [|exact Hi]. unfold apart in Hap. simpl in *. lia. }
  pose proof (delete_Permutation _ _ _ Hj) as E. eexists. split; [done|]. cbn [app separate] in Hs, Hp. destruct Hs as [Hap Hs]. apply list.Forall_cons in Hp as [_ Hp].
  rewrite E in Hr, Hg. split; [|intros q Hq; rewrite E in Hq; apply elem_of_cons in Hq as [->|Hq]; done]. split; try done; simpl; [| |by apply list.Forall_cons in Hg as [_ Hg]].
  - apply list.Forall_forall. intros q Hq. eapply list.Forall_forall in Hp as (Hq2 & x & Hx & Hw); [|exact Hq]. split; [done|]. exists x. split; [|done].
    rewrite E in Hx. apply elem_of_cons in Hx as [->|Hx]; [|done]. eapply list.Forall_forall in Hap; [|exact Hq]. unfold apart, within in *. simpl in *. lia.
  - by destruct Hr as [_ Hr].
Qed.

(** A client writes to its block. *)
Lemma world_fill h live os q a s : world h (q :: live) os -> within (a, Z.of_nat (length s)) q ->
  world (upd (write a s) h) (q :: live) os /\ same_in live (bytes h) (write a s (bytes h)).
Proof.
  intros Hw Hin. apply (world_step h (write a s (bytes h)) [] [q] [q] live [] [] os); cbn [mbind list_bind app]; rewrite ?app_nil_r; try done; [set_solver|..].
  - intros x Hx. apply write_other. intros Hx'. apply (Hx q); [left|by eapply inside_within].
  - intros r ->%list_elem_of_singleton. pose proof (w_placed _ _ _ Hw) as Hp. cbn [app] in Hp. apply list.Forall_cons in Hp as [[? _] _].
    split; [done|]. exists q. split; [left|apply within_refl].
Qed.

(** * All sizes *)
Definition extent (n : Z) : Z := match classify n with Some id => (Z.of_nat id + 1) * 8 | None => n end.
Definition ext (b : Z * Z) : Z * Z := (b.1, extent b.2).

Lemma classify_small n : 0 < n <= 512 -> classify n = Some (Z.to_nat ((n - 1) / 8)) /\ (n - 1) / 8 < 64 /\ n <= extent n <= n + 7.
Proof.
  intros Hn. unfold extent, classify, iter_size, classes_size. rewrite u64_small by lia. assert ((n - 1) / 8 < 64) as Hlt by (apply Z.div_lt_upper_bound; lia).
  destruct (Z.ltb_spec ((n - 1) / 8) 64) as [_|]; [|lia]. split; [done|]. split; [done|]. pose proof (Z.div_mod (n - 1) 8). pose proof (Z.mod_pos_bound (n - 1) 8).
  assert (0 <= (n - 1) / 8) by (apply Z.div_pos; lia). lia.
Qed.
Lemma classify_large n : n = 0 \/ 512 < n < 2 ^ 64 -> classify n = None.
Proof.
  intros Hn. unfold classify, iter_size, classes_size. destruct (Z.ltb_spec (u64 (n - 1) / 8) 64) as [Hlt|]; [|done].
  destruct Hn as [->|Hn]; [done|]. rewrite u64_small in Hlt by lia. assert (64 <= (n - 1) / 8) by (apply Z.div_le_lower_bound; lia). lia.
Qed.
Lemma extent_le n : 0 <= n < 2 ^ 64 -> n <= extent n.
Proof.
  intros Hn. destruct (decide (0 < n <= 512)) as [Hs|Hl]; [apply classify_small in Hs; lia|]. unfold extent. rewrite classify_large by lia. lia.
Qed.

Definition block_ok (rs : list (Z * Z)) (b : Z * Z) : Prop :=
  0 < b.1 /\ 0 < b.2 < 2 ^ 64 /\ b.1 mod 8 = 0 /\ (classify b.2 = None -> b ∈ rs).

(** [lim] bounds how many allocators wait for a thread. *)
Record pool_ok (lim : nat -> nat) (s : pool) (live : list (Z * Z)) (os : list owner) : Prop := {
  p_owners : o_fixed <$> os ≡ₚ classes s ≫= fixed_of;
  p_world : world (heap_ s) (ext <$> live) os;
  p_length : length (classes s) = 64%nat;
  p_class id w : classes s !! id = Some w -> pars_ w = (Z.of_nat id + 1) * 8 /\ sized w (fixed_of w) /\ (length (recycler_ w) <= lim id)%nat;
  p_live : Forall (block_ok (regions (heap_ s))) live }.

Definition others_of (ws : list async) (id : nat) : list fixed := (take id ws ++ drop (S id) ws) ≫= fixed_of.

Lemma classes_split ws id w : ws !! id = Some w -> ws ≫= fixed_of ≡ₚ fixed_of w ++ others_of ws id.
Proof. intros Hw. rewrite <- (take_drop_middle ws id w Hw) at 1. unfold others_of. rewrite !bind_app, bind_cons. solve_Permutation. Qed.
Lemma classes_insert ws id w w' : ws !! id = Some w -> <[id := w']> ws ≫= fixed_of ≡ₚ fixed_of w' ++ others_of ws id.
Proof.
  intros Hw. rewrite (classes_split _ id w') by (apply list_lookup_insert_eq; by eapply lookup_lt_Some).
  unfold others_of. by rewrite take_insert_ge, drop_insert_lt by lia.
Qed.

Lemma class_in lim s live os id w : pool_ok lim s live os -> classes s !! id = Some w ->
  class_ok (heap_ s) (ext <$> live) w (others_of (classes s) id) os.
Proof.
  intros [Ho Hw Hl Hc _] Hid. destruct (Hc _ _ Hid) as (Hp & Hs & _). apply lookup_lt_Some in Hid as Hlt. split; [by rewrite Ho, <- classes_split|done|done|].
  rewrite Hp. split; [lia|]. by apply Z.mod_mul.
Qed.
Lemma class_out lim lim' s live live' os os' id w w' h' : pool_ok lim s live os -> classes s !! id = Some w ->
  class_ok h' (ext <$> live') w' (others_of (classes s) id) os' -> pars_ w' = pars_ w -> (length (recycler_ w') <= lim' id)%nat ->
  (forall j, j <> id -> lim j <= lim' j)%nat -> Forall (block_ok (regions h')) live' ->
  pool_ok lim' (mk_pool (<[id := w']> (classes s)) h') live' os'.
Proof.
  intros [_ _ Hl Hc _] Hid [Ho Hw Hsz _] Hp Hlen Hlim Hlive. split; cbn [classes heap_]; try done.
  - by rewrite (classes_insert _ _ _ _ Hid).
  - by rewrite length_insert.
  - intros j wj [(<- & <- & _)|(Hne & Hj)]%list_lookup_insert_Some.
    + split; [rewrite Hp; by apply Hc|done].
    + destruct (Hc _ _ Hj) as (? & ? & ?). specialize (Hlim j). split; [done|]. split; [done|]. lia.
Qed.
Lemma blocks_ok_more rs rs' live : rs ⊆ rs' -> Forall (block_ok rs) live -> Forall (block_ok rs') live.
Proof. intros Hsub. apply Forall_impl. intros b (? & ? & ? & Hl). do 3 (split; [done|]). intros E. by apply Hsub, Hl. Qed.

Lemma pool_alloc_ok lim s live os t n : pool_ok lim s live os -> 0 <= n < 2 ^ 64 ->
  (refused (heap_ s) /\ pool_alloc t n s = Fault NullDeref) \/
  (pool_alloc t n s = Ok (s, 0) /\ (n = 0 \/ 512 < n)) \/
  exists s' p os', pool_alloc t n s = Ok (s', p) /\ 0 < p /\ pool_ok lim s' (live ++ [(p, n)]) os' /\ 0 < n /\
    same_in (ext <$> live) (bytes (heap_ s)) (bytes (heap_ s')).
Proof.
  intros Hok Hn. assert (forall p, ext <$> live ++ [(p, n)] ≡ₚ (p, extent n) :: (ext <$> live)) as Eext by (intros p; rewrite fmap_app; cbn; solve_Permutation).
  unfold pool_alloc. destruct (decide (0 < n <= 512)) as [Hsm|Hlg].
  - destruct (classify_small n Hsm) as (Ec & Hid & Hext). rewrite Ec. set (id := Z.to_nat ((n - 1) / 8)) in *.
    assert (id < 64)%nat as Hlt by (assert (0 <= (n - 1) / 8) by (apply Z.div_pos; lia); lia).
    destruct (lookup_lt_is_Some_2 (classes s) id) as [w Hw]; [by rewrite (p_length _ _ _ _ Hok)|]. unfold on_class. rewrite Hw. cbn [res_of_option mbind res_bind].
    destruct (async_alloc_ok t _ _ _ _ _ (class_in _ _ _ _ _ _ Hok Hw)) as [[Hr ->]|(h' & w' & p & os' & E & Hc' & Hs & Hp & Hlen & Hpos & Hal & Hreg)]; [by left|]. right. right.
    rewrite E. cbn [mbind res_bind]. eexists _, p, os'. split; [done|]. split; [done|]. split; [|split; [lia|done]].
    assert (pars_ w = extent n) as Epar by (unfold extent; rewrite Ec; by apply (p_class _ _ _ _ Hok)). rewrite Epar in Hc'.
    eapply class_out; [exact Hok|exact Hw| |done| |done|].
    + destruct Hc' as [Ho Hw' Hsz Hpr]. split; [done| |done|done]. by rewrite Eext.
    + pose proof (proj2 (proj2 (p_class _ _ _ _ Hok _ _ Hw))). lia.
    + apply Forall_app. split; [eapply blocks_ok_more; [exact Hreg|apply Hok]|]. apply list.Forall_singleton. split; [done|]. split; [cbn; lia|]. split; [done|]. cbn. by rewrite Ec.
  - rewrite classify_large by lia. unfold static_alloc, malloc. destruct (Z.eqb_spec n 0) as [->|Hnz]; [right; left; destruct s; by split; [|left]|].
    destruct (place (regions (heap_ s)) n) as [p|] eqn:Ep; [|right; left; destruct s; split; [done|lia]]. right. right.
    destruct (world_malloc _ _ _ n p (p_world _ _ _ _ Hok)) as (Hw' & Hpos & Hal); [lia|done|].
    eexists _, p, os. split; [done|]. split; [done|]. split; [|split; [lia|by intros ? ?]]. pose proof Hok as [Ho Hw Hl Hc Hlive]. split; try done; cbn [heap_].
    + rewrite Eext. unfold extent. by rewrite classify_large by lia.
    + apply Forall_app. split; [eapply blocks_ok_more; [|exact Hlive]; cbn; set_solver|]. apply list.Forall_singleton. split; [done|]. split; [cbn; lia|].
      split; [cbn; rewrite <- (Z.mod_mod_divide p 16 8) by (exists 2; lia); by rewrite Hal|]. intros _. left.
Qed.

Lemma pool_free_ok lim s live os t k p n : pool_ok lim s live os -> live !! k = Some (p, n) ->
  exists s' os', pool_free t p n s = Ok s' /\ pool_ok lim s' (delete k live) os' /\ same_in (ext <$> delete k live) (bytes (heap_ s)) (bytes (heap_ s')).
Proof.
  intros Hok Hk. pose proof Hok as [Ho Hw Hl Hc Hlive]. assert (ext <$> live ≡ₚ (p, extent n) :: (ext <$> delete k live)) as Eext.
  { rewrite (delete_Permutation _ _ _ Hk) at 1. done. }
  pose proof (proj1 (list.Forall_forall _ _) Hlive (p, n) (list_elem_of_lookup_2 _ _ _ Hk)) as (Hpos & Hn & Hal & Hreg). cbn [fst snd] in *.
  assert (Forall (block_ok (regions (heap_ s))) (delete k live)) as Hrest by (rewrite (delete_Permutation _ _ _ Hk) in Hlive; by apply list.Forall_cons in Hlive as [_ ?]).
  unfold pool_free. destruct (decide (0 < n <= 512)) as [Hsm|Hlg].
  - destruct (classify_small n Hsm) as (Ec & Hid & Hext). rewrite Ec. set (id := Z.to_nat ((n - 1) / 8)) in *.
    assert (id < 64)%nat as Hlt by (assert (0 <= (n - 1) / 8) by (apply Z.div_pos; lia); lia).
    destruct (lookup_lt_is_Some_2 (classes s) id) as [w Hwi]; [by rewrite Hl|]. unfold on_class. rewrite Hwi. cbn [res_of_option mbind res_bind].
    assert (pars_ w = extent n) as Epar by (unfold extent; rewrite Ec; by apply Hc).
    destruct (async_free_ok t p (heap_ s) (ext <$> delete k live) w (others_of (classes s) id) os) as (h' & w' & os' & E & Hc' & Hs & Hp & Hlen & Hr); [|done|].
    { rewrite Epar. destruct (class_in _ _ _ _ _ _ Hok Hwi) as [? ? ? ?]. split; try done. by rewrite <- Eext. }
    rewrite E. cbn. eexists _, os'. split; [done|]. split; [|done]. eapply class_out; [exact Hok|exact Hwi|done|done| |done|by rewrite Hr].
    pose proof (proj2 (proj2 (Hc _ _ Hwi))). lia.
  - assert (classify n = None) as Ec by (apply classify_large; lia). rewrite Ec. unfold static_free. assert (extent n = n) as En by (unfold extent; by rewrite Ec).
    rewrite Eext, En in Hw. destruct (world_c_free _ _ _ p n Hw (Hreg Ec)) as (rs & -> & Hw' & Hkeep). cbn [mbind res_bind].
    eexists _, os. split; [done|]. split; [|by intros ? ?]. split; try done; cbn [heap_ regions].
    apply list.Forall_forall. intros b Hb. eapply list.Forall_forall in Hrest as (? & ? & ? & Hrb); [|exact Hb]. do 3 (split; [done|]). intros Eb. apply Hkeep; [by apply Hrb|].
    pose proof (w_separate _ _ _ Hw) as [Hap _]. rewrite Forall_app in Hap. destruct Hap as [Hap _].
    eapply list.Forall_forall in Hap; [|apply list_elem_of_fmap; exists b; split; [done|exact Hb]]. unfold apart, ext, extent in Hap. rewrite Eb in Hap. simpl in Hap. lia.
Qed.

Lemma exit_class_ok lim s live os t id : pool_ok lim s live os -> (id < 64)%nat -> (lim id < max_allocs)%nat ->
  exists s', fst <$> on_class id (fun w h => (fun r => (r, tt)) <$> async_exit t w h) s = Ok s' /\
    pool_ok (fun j => if decide (j = id) then S (lim j) else lim j) s' live os /\ bytes (heap_ s') = bytes (heap_ s).
Proof.
  intros Hok Hid Hlim. destruct (lookup_lt_is_Some_2 (classes s) id) as [w Hw]; [by rewrite (p_length _ _ _ _ Hok)|]. pose proof (p_class _ _ _ _ Hok _ _ Hw) as (_ & _ & Hlen).
  unfold on_class. rewrite Hw. cbn [res_of_option mbind res_bind]. destruct (async_exit_ok t _ _ _ _ _ (class_in _ _ _ _ _ _ Hok Hw)) as (w' & -> & Hc & Hp & Hlen'); [lia|].
  cbn. eexists. split; [done|]. split; [|done]. eapply class_out; [exact Hok|exact Hw|done|done|rewrite decide_True by done; lia|intros j Hj; rewrite decide_False by done; lia|apply Hok].
Qed.

Lemma pool_exit_ok x s live os t : pool_ok (fun _ => x) s live os -> (x < max_allocs)%nat ->
  exists s', pool_exit t s = Ok s' /\ pool_ok (fun _ => S x) s' live os /\ bytes (heap_ s') = bytes (heap_ s).
Proof.
  intros Hok Hx. unfold pool_exit. rewrite (p_length _ _ _ _ Hok).
  assert (forall i n lim s, (i + n = 64)%nat -> (forall j, lim j = if decide (j < i)%nat then S x else x) -> pool_ok lim s live os ->
    exists s', foldM (fun s id => fst <$> on_class id (fun w h => (fun r => (r, tt)) <$> async_exit t w h) s) s (seq i n) = Ok s' /\
      pool_ok (fun _ => S x) s' live os /\ bytes (heap_ s') = bytes (heap_ s)) as Hloop; [|apply (Hloop 0%nat 64%nat (fun _ => x)); done].
  clear s Hok. intros i n. revert i. induction n as [|n IH]; intros i lim s Hi Hlim Hok; cbn [seq foldM].
  { exists s. split; [done|]. split; [|done]. destruct Hok as [? ? ? Hc ?]. split; try done. intros id w Hw. destruct (Hc _ _ Hw) as (? & ? & ?). specialize (Hlim id). do 2 (split; [done|]). case_decide; lia. }
  destruct (exit_class_ok lim s live os t i Hok) as (s1 & -> & Hok1 & Hb); [lia|by rewrite Hlim, decide_False by lia|]. cbn [mbind res_bind].
  destruct (IH (S i) (fun j => if decide (j = i) then S (lim j) else lim j) s1) as (s2 & E & Hok2 & Hb2); [lia| |done|].
  - intros j. rewrite Hlim. repeat case_decide; lia.
  - exists s2. split; [done|]. split; [done|]. by rewrite Hb2.
Qed.
(** * Specification: blocks on their own

    What is known of the bytes of each block in use, after what clients did: a
    new block's bytes are not known, a filled byte is what it was filled with.
    Only requests for nothing or for more than 512 bytes can come back empty. *)
Abbreviation known := (list (option ascii)).
Definition fill (off : nat) (s : str) (c : known) : known := take off c ++ (Some <$> s) ++ drop (off + length s) c.

Inductive blocks_run : list (nat * client_op) -> list known -> Prop :=
  | run_nil : blocks_run [] []
  | run_alloc cs a t n : blocks_run cs a -> 0 < n -> blocks_run (cs ++ [(t, Allocate n)]) (a ++ [replicate (Z.to_nat n) None])
  | run_null cs a t n : blocks_run cs a -> n = 0 \/ 512 < n -> blocks_run (cs ++ [(t, Allocate n)]) a
  | run_release cs a t k : blocks_run cs a -> blocks_run (cs ++ [(t, Release k)]) (delete k a)
  | run_fill cs a t k off s c : blocks_run cs a -> a !! k = Some c -> (off + length s <= length c)%nat ->
      blocks_run (cs ++ [(t, Fill k off s)]) (<[k := fill off s c]> a)
  | run_no_fill cs a t k off s : blocks_run cs a -> (forall c, a !! k = Some c -> (length c < off + length s)%nat) ->
      blocks_run (cs ++ [(t, Fill k off s)]) a
  | run_exit cs a t : blocks_run cs a -> blocks_run (cs ++ [(t, Exit)]) a.

Definition holds (m : mem) (b : Z * Z) (c : known) : Prop :=
  length c = Z.to_nat b.2 /\ forall i ch, c !! i = Some (Some ch) -> m (b.1 + Z.of_nat i) = ch.

Definition exits (cs : list (nat * client_op)) : nat := length (List.filter (fun c => match c.2 with Exit => true | _ => false end) cs).
Definition sizes_ok (cs : list (nat * client_op)) : Prop := Forall (fun c => match c.2 with Allocate n => 0 <= n < 2 ^ 64 | _ => True end) cs.

Lemma holds_same m m' b c : 0 < b.2 < 2 ^ 64 -> same_in [ext b] m m' -> holds m b c -> holds m' b c.
Proof.
  intros Hb Hs [Hl Hc]. split; [done|]. intros i ch Hi. rewrite <- (Hc i ch Hi). apply (Hs (ext b)); [left|].
  apply lookup_lt_Some in Hi. pose proof (extent_le b.2). unfold inside, ext. simpl. lia.
Qed.
Lemma holds_all m m' live a rs : Forall (block_ok rs) live -> same_in (ext <$> live) m m' -> Forall2 (holds m) live a -> Forall2 (holds m') live a.
Proof.
  intros Hl Hs. induction 1 as [|b c live a Hb Ha IH]; [constructor|]. apply list.Forall_cons in Hl as [(_ & Hn & _) Hl]. constructor.
  - eapply holds_same; [done| |done]. intros q x ->%list_elem_of_singleton. apply Hs. left.
  - apply IH; [done|]. intros q x Hq. apply Hs. by right.
Qed.

Lemma pool_new_ok m : pool_ok (fun _ => 0%nat) (pool_new m) [] [].
Proof.
  split; cbn [pool_new classes heap_ fmap list_fmap].
  - assert (forall l, ((fun id : nat => mk_async (block_size (Z.of_nat id)) [] ∅) <$> l) ≫= fixed_of = []) as -> by (induction l as [|i l IH]; [done|]; rewrite fmap_cons, bind_cons, IH; done). done.
  - split; simpl; try done; constructor.
  - by rewrite length_fmap, length_seq.
  - intros id w Hw. rewrite list_lookup_fmap in Hw. apply fmap_Some in Hw as (i & Hi & ->). apply lookup_seq in Hi as [-> Hlt]. cbn [pars_ recycler_]. split; [|split; [constructor|done]].
    rewrite Nat.add_0_l. unfold block_size, classes_size, iter_size. destruct (Z.ltb_spec (Z.of_nat id) 64); [done|]. change (Z.to_nat classes_size) with 64%nat in Hlt. lia.
  - constructor.
Qed.

Lemma holds_fill m p n off s c : holds m (p, n) c -> (off + length s <= length c)%nat -> holds (write (p + Z.of_nat off) s m) (p, n) (fill off s c).
Proof.
  intros [Hl Hc] Hfit. cbn [fst snd] in *. unfold fill. split; cbn [fst snd].
  - rewrite !length_app, length_take, length_fmap, length_drop. lia.
  - intros i ch Hi. destruct (decide (off <= i < off + length s)%nat) as [Hin|Hout].
    + rewrite lookup_app_r in Hi by (rewrite length_take; lia). rewrite length_take, Nat.min_l in Hi by lia.
      rewrite lookup_app_l in Hi by (rewrite length_fmap; lia). rewrite list_lookup_fmap in Hi. apply fmap_Some in Hi as (ch' & Hs & [= ->]).
      pose proof (write_at (p + Z.of_nat off) s m (i - off)) as E. rewrite Hs in E. replace (p + Z.of_nat off + Z.of_nat (i - off)) with (p + Z.of_nat i) in E by lia.
      injection E; [done|lia].
    + rewrite write_other by (unfold inside; simpl; lia). apply Hc. rewrite <- Hi. destruct (decide (i < off)%nat) as [Hlt|Hge].
      * rewrite lookup_app_l, lookup_take_lt by (rewrite ?length_take; lia). done.
      * rewrite lookup_app_r by (rewrite length_take; lia). rewrite length_take, Nat.min_l by lia. rewrite lookup_app_r by (rewrite length_fmap; lia).
        rewrite length_fmap, lookup_drop. f_equal. lia.
Qed.

Lemma elem_of_delete_ne {A} (l : list A) i k b : l !! i = Some b -> k <> i -> b ∈ delete k l.
Proof.
  revert i k. induction l as [|x l IH]; intros [|i] [|k] Hi Hne; simplify_eq/=; try done; try (by left); [by eapply list_elem_of_lookup_2|]. right. apply (IH i); [done|congruence].
Qed.

Lemma delete_past_end {A} (l : list A) k : (length l <= k)%nat -> delete k l = l.
Proof. revert k. induction l as [|x l IH]; intros [|k] Hk; simpl in *; [done|done|lia|]. change (x :: delete k l = x :: l). f_equal. apply IH. lia. Qed.

Section step.
Variables (cs : list (nat * client_op)) (x : nat) (s : pool) (live : list (Z * Z)) (os : list owner) (a : list known) (t : nat).
Hypotheses (Hrun : blocks_run cs a) (Hok : pool_ok (fun _ => x) s live os) (Hholds : Forall2 (holds (bytes (heap_ s))) live a).

(** What a step leads to. *)
Definition steps_to (x' : nat) (c : nat * client_op) : Prop :=
  exists s' live' os' a', client_step (s, live) c = Ok (s', live') /\ blocks_run (cs ++ [c]) a' /\
    pool_ok (fun _ => x') s' live' os' /\ Forall2 (holds (bytes (heap_ s'))) live' a'.

Lemma allocate_step n : 0 <= n < 2 ^ 64 -> refused (heap_ s) \/ steps_to x (t, Allocate n).
Proof.
  intros Hn. unfold steps_to. cbn [client_step]. destruct (pool_alloc_ok _ _ _ _ t n Hok Hn) as [[Hr _]|[[-> Hl]|(s' & p & os' & -> & Hp & Hok' & Hpos & Hs)]]; [by left|right..].
  - exists s, live, os, a. split; [done|]. split; [by apply run_null|done].
  - cbn [mbind res_bind]. destruct (Z.eqb_spec p 0) as [|_]; [lia|]. eexists _, _, os', _. split; [done|]. split; [by apply run_alloc|]. split; [done|].
    apply Forall2_app; [eapply holds_all; [apply Hok|done|done]|]. constructor; [|constructor]. split; [by rewrite length_replicate|]. intros i ch Hi. by apply lookup_replicate in Hi as [? _].
Qed.

Lemma release_block_step k : steps_to x (t, Release k).
Proof.
  unfold steps_to. cbn [client_step]. destruct (live !! k) as [[p n]|] eqn:Ek.
  - destruct (pool_free_ok _ _ _ _ t k p n Hok Ek) as (s' & os' & -> & Hok' & Hs). cbn [mbind res_bind]. eexists _, _, os', _. split; [done|]. split; [by apply run_release|]. split; [done|].
    eapply holds_all; [|exact Hs|by apply Forall2_delete]. pose proof (p_live _ _ _ _ Hok) as Hl. rewrite (delete_Permutation _ _ _ Ek) in Hl. apply list.Forall_cons in Hl. apply Hl.
  - exists s, live, os, a. split; [done|]. split; [|done]. assert (delete k a = a) as E; [|pose proof (run_release cs a t k Hrun) as Hr; by rewrite E in Hr].
    apply delete_past_end. apply Forall2_length in Hholds. apply lookup_ge_None in Ek. lia.
Qed.

Lemma fill_step k off str : steps_to x (t, Fill k off str).
Proof.
  unfold steps_to. cbn [client_step]. destruct (live !! k) as [[p n]|] eqn:Ek.
  - destruct (Forall2_lookup_l _ _ _ _ _ Hholds Ek) as (c & Ec & Hc). pose proof Hc as [Hlc _]. cbn [snd] in Hlc.
    pose proof (proj1 (list.Forall_forall _ _) (p_live _ _ _ _ Hok) _ (list_elem_of_lookup_2 _ _ _ Ek)) as (Hp & Hn & _). cbn [fst snd] in *.
    destruct (Z.leb_spec (Z.of_nat (off + length str)) n) as [Hfit|Hbig].
    + pose proof (delete_Permutation _ _ _ Ek) as E. assert (ext <$> live ≡ₚ (p, extent n) :: (ext <$> delete k live)) as Eext by (rewrite E at 1; done).
      pose proof (p_world _ _ _ _ Hok) as Hw. rewrite Eext in Hw. pose proof (extent_le n ltac:(lia)).
      destruct (world_fill _ _ _ _ (p + Z.of_nat off) str Hw) as [Hw' Hs]; [unfold within; simpl; lia|].
      eexists _, live, os, _. split; [done|]. split; [eapply run_fill; [done|exact Ec|lia]|]. cbn [heap_]. split.
      { destruct Hok as [? ? ? ? ?]. split; try done. by rewrite Eext. }
      apply Forall2_same_length_lookup. split; [rewrite length_insert; by eapply Forall2_length|]. intros i b c' Hb [(<- & <- & _)|(Hne & Hi)]%list_lookup_insert_Some.
      * assert (b = (p, n)) as -> by congruence. by apply holds_fill; [|lia].
      * eapply holds_same; [|intros q y ->%list_elem_of_singleton; apply Hs|by eapply Forall2_lookup_lr].
        -- pose proof (proj1 (list.Forall_forall _ _) (p_live _ _ _ _ Hok) _ (list_elem_of_lookup_2 _ _ _ Hb)) as (_ & ? & _). done.
        -- apply list_elem_of_fmap. exists b. split; [done|]. by eapply elem_of_delete_ne.
    + exists s, live, os, a. split; [done|]. split; [|done]. apply run_no_fill; [done|]. intros c' Ec'. simplify_eq. lia.
  - exists s, live, os, a. split; [done|]. split; [|done]. apply run_no_fill; [done|]. intros c Ec. apply lookup_lt_Some in Ec. apply lookup_ge_None in Ek. apply Forall2_length in Hholds. lia.
Qed.

Lemma exit_step : (x < max_allocs)%nat -> steps_to (S x) (t, Exit).
Proof.
  intros Hx. unfold steps_to. cbn [client_step]. destruct (pool_exit_ok x s live os t Hok Hx) as (s' & -> & Hok' & Hb). cbn [mbind res_bind].
  exists s', live, os, a. split; [done|]. split; [by apply run_exit|]. split; [done|]. by rewrite Hb.
Qed.
End step.
Lemma exits_snoc cs c : exits (cs ++ [c]) = (exits cs + match c.2 with Exit => 1 | _ => 0 end)%nat.
Proof. unfold exits. rewrite List.filter_app, length_app. by destruct c as [t []]. Qed.

Lemma blocks_apart h live os : world h (ext <$> live) os -> Forall (block_ok (regions h)) live -> separate live /\ Forall (placed (regions h)) live.
Proof.
  intros [_ Hs Hp _ _] Hl. apply separate_app in Hs as [Hs _]. apply Forall_app in Hp as [Hp _].
  assert (forall b, b ∈ live -> within b (ext b) /\ 0 < b.2) as Hin.
  { intros b Hb. eapply list.Forall_forall in Hl as (_ & Hn & _); [|exact Hb]. pose proof (extent_le b.2 ltac:(lia)). unfold within, ext. simpl. lia. }
  clear Hl. induction live as [|b live IH]; [split; constructor|]. cbn [fmap list_fmap separate] in Hs. destruct Hs as [Hap Hs]. apply list.Forall_cons in Hp as [(Hb0 & r & Hr & Hwr) Hp].
  destruct IH as [IHs IHp]; [done|done|intros; apply Hin; by right|]. destruct (Hin b) as [Hb Hb2]; [left|]. split.
  - split; [|done]. apply list.Forall_forall. intros c Hc. destruct (Hin c) as [Hcw _]; [by right|]. eapply apart_within; [exact Hb|]. eapply apart_sym, apart_within; [exact Hcw|].
    apply apart_sym. eapply list.Forall_forall in Hap; [exact Hap|]. apply list_elem_of_fmap. by exists c.
  - constructor; [|done]. split; [done|]. exists r. split; [done|by eapply within_trans].
Qed.

(** Whatever clients do, unless the system refuses memory. *)
Lemma client_run_ok m cs : (exits cs <= max_allocs)%nat -> sizes_ok cs ->
  (exists s live os a, client_run m cs = Ok (s, live) /\ blocks_run cs a /\ pool_ok (fun _ => exits cs) s live os /\ Forall2 (holds (bytes (heap_ s))) live a) \/
  (exists cs1 cs2 s live, cs = cs1 ++ cs2 /\ client_run m cs1 = Ok (s, live) /\ refused (heap_ s)).
Proof.
  induction cs as [|c cs IH] using rev_ind; intros Hx Hsz.
  { left. exists (pool_new m), [], [], []. split; [done|]. split; [constructor|]. split; [apply pool_new_ok|constructor]. }
  rewrite exits_snoc in Hx. apply Forall_app in Hsz as [Hsz Hc]. apply list.Forall_cons in Hc as [Hc _].
  destruct IH as [(s & live & os & a & E & Hrun & Hok & Hh)|(cs1 & cs2 & s & live & -> & E & Hr)]; [lia|done| |right; exists cs1, (cs2 ++ [c]), s, live; by rewrite app_assoc].
  assert (refused (heap_ s) \/ steps_to cs s live (exits (cs ++ [c])) c) as [Hr|(s' & live' & os' & a' & Es & Hrun' & Hok' & Hh')].
  { rewrite exits_snoc. destruct c as [t [n|k|k off str|]]; cbn [snd] in *; rewrite ?Nat.add_0_r.
    - exact (allocate_step _ _ _ _ _ _ t Hrun Hok Hh n Hc).
    - right. exact (release_block_step _ _ _ _ _ _ t Hrun Hok Hh k).
    - right. exact (fill_step _ _ _ _ _ _ t Hrun Hok Hh k off str).
    - right. rewrite Nat.add_1_r. apply (exit_step _ _ _ _ _ _ t Hrun Hok Hh). lia. }
  - right. exists cs, [c], s, live. done.
  - left. exists s', live', os', a'. split; [|done]. unfold client_run in *. rewrite foldM_app, E. cbn [mbind res_bind foldM]. by rewrite Es.
Qed.

(** C11: blocks of the memory pools are the client's own. Whatever any number of
    threads allocate, give back (also blocks of others) and write, in any order,
    with at most 32 threads ending: either the run goes through, every block in
    use is a separate part of what the system granted, aligned to 8 bytes, and
    holds what was last written to it, whatever happened to other blocks in
    between; or at some point the system refused a request of at most 32 GiB. *)
Theorem pools_refine_blocks (m : mem) (cs : list (nat * client_op)) : (exits cs <= max_allocs)%nat -> sizes_ok cs ->
  (exists s live a, client_run m cs = Ok (s, live) /\ blocks_run cs a /\ Forall2 (holds (bytes (heap_ s))) live a /\
    separate live /\ Forall (placed (regions (heap_ s))) live /\ Forall (fun b => 0 < b.1 /\ b.1 mod 8 = 0) live) \/
  (exists cs1 cs2 s live n, cs = cs1 ++ cs2 /\ client_run m cs1 = Ok (s, live) /\ 0 < n <= 2 ^ 35 /\ place (regions (heap_ s)) n = None).
Proof.
  intros Hx Hsz. destruct (client_run_ok m cs Hx Hsz) as [(s & live & os & a & E & Hrun & [_ Hw _ _ Hl] & Hh)|(cs1 & cs2 & s & live & E & Hr & n & Hn & Hno)]; [left|right].
  - exists s, live, a. do 3 (split; [done|]). destruct (blocks_apart _ _ _ Hw Hl) as [Hs Hp]. split; [done|]. split; [done|].
    eapply Forall_impl; [|exact Hl]. intros b (? & _ & ? & _). done.
  - by exists cs1, cs2, s, live, n.
Qed.
End claims.

(** * Examples *)
(** A system that grants memory after everything it has granted. *)
Definition bump (rs : list (Z * Z)) (n : Z) : option Z :=
  let p := 16 * (foldr (fun r x => Z.max (r.1 + r.2) x) 0 rs / 16 + 1) in
  if p + n <? 2 ^ 64 then Some p else None.

Lemma bump_above rs r : r ∈ rs -> r.1 + r.2 <= foldr (fun r x => Z.max (r.1 + r.2) x) 0 rs.
Proof. induction rs as [|r' rs IH]; [set_solver|]. intros [->|Hr]%elem_of_cons; simpl; [lia|]. specialize (IH Hr). lia. Qed.
Lemma bump_nonneg (rs : list (Z * Z)) : 0 <= foldr (fun r x => Z.max (r.1 + r.2) x) 0 rs.
Proof. induction rs as [|r rs IH]; simpl; lia. Qed.

Definition malloc_bump : Malloc.
Proof.
  refine {| place := bump |}. intros rs n p Hp Hn. unfold bump in Hp. destruct (Z.ltb_spec (16 * (foldr (fun r x => Z.max (r.1 + r.2) x) 0 rs / 16 + 1) + n) (2 ^ 64)) as [Hlt|]; [|done].
  injection Hp as <-. pose proof (bump_nonneg rs) as Hz. split; [lia|]. split; [by rewrite Z.mul_comm, Z.mod_mul|]. split; [done|].
  apply list.Forall_forall. intros r Hr%bump_above. right. simpl. lia.
Defined.

Definition demo_clients : list (nat * client_op) :=
  [(0, Allocate 510); (1, Allocate 512); (0, Fill 0 2 ["a"; "b"]%char); (2, Allocate 600); (1, Fill 2 0 ["c"%char]); (1, Release 0);
   (1, Allocate 505); (0, Exit); (2, Allocate 510); (2, Fill 2 509 ["d"%char])]%nat.

Lemma pools_refine_blocks_witness : let _ := malloc_bump in let m : mem := fun _ => Ascii.zero in
  match client_run m demo_clients with
  | Ok (_, live) => live = [(2097216, 512); (4194384, 600); (32, 505); (544, 510)]
  | Fault _ => False
  end /\
  ((exists s live a, client_run m demo_clients = Ok (s, live) /\ blocks_run demo_clients a /\ Forall2 (holds (bytes (heap_ s))) live a /\
    separate live /\ Forall (placed (regions (heap_ s))) live /\ Forall (fun b => 0 < b.1 /\ b.1 mod 8 = 0) live) \/
  (exists cs1 cs2 s live n, demo_clients = cs1 ++ cs2 /\ client_run m cs1 = Ok (s, live) /\ 0 < n <= 2 ^ 35 /\ place (regions (heap_ s)) n = None)).
Proof.
  intros M m. split; [vm_compute; reflexivity|]. apply (@pools_refine_blocks M m demo_clients); [unfold max_allocs; vm_compute; lia|].
  repeat constructor; vm_compute; done.
Defined.

(** The recycler keeps 32 allocators and destroys the first when another comes,
    with its memory, although blocks of it may be in use: when 33 threads have
    each taken a block and end, the first block's memory has gone back to the
    system. *)
Definition crowd : list (nat * client_op) := ((fun t => (t, Allocate 512)) <$> seq 0 33) ++ ((fun t => (t, Exit)) <$> seq 0 33).
Lemma crowded_recycler_frees_blocks_in_use : let _ := malloc_bump in
  exists s live b, client_run (fun _ => Ascii.zero) crowd = Ok (s, live) /\ live !! 0%nat = Some b /\ Forall (apart b) (regions (heap_ s)).
Proof.
  intros M. assert (match client_run (fun _ => Ascii.zero) crowd with
    | Ok (s, live) => match live with b :: _ => forallb (fun r => (b.1 + b.2 <=? r.1) || (r.1 + r.2 <=? b.1)) (regions (heap_ s)) | [] => false end
    | Fault _ => false end = true) as Hrun by (vm_compute; reflexivity).
  destruct (client_run _ crowd) as [[s [|b live]]|]; try done. exists s, (b :: live), b. split; [done|]. split; [done|].
  apply list.Forall_forall. intros r Hr. apply list_elem_of_In in Hr. rewrite forallb_forall in Hrun. specialize (Hrun r Hr). unfold apart.
  apply orb_true_iff in Hrun as [E|E]; apply Z.leb_le in E; [by left|by right].
Qed.
