(* ===== verification/Broadcast.v ===== *)
(** The ring of a channel with one sender whose messages go to every receiver
    ([shm-ipc/src/libipc/prod_cons.h], single-multi-broadcast, with the
    connections of [circ/elem_def.h]). Every access to shared memory is a step of
    its own. Each element carries the set of the receivers that have yet to read
    it, as bits below the epoch it was written in. *)
From stdpp Require Import prelude list functions.
From Stdlib Require Import ZArith Lia.
From S2P Require Import Prelude Cpp Interleave Ring.

Open Scope Z_scope.

Definition ep_mask : Z := 2 ^ 32 - 1.
Definition ep_incr : Z := 2 ^ 32.

Section broadcast.
Context {V : Type}.

(** * State *)
Record belem := mk_belem { b_data : V; rc_ : Z }.
(** [cc_] of [conn_head], [wt_] and [epoch_] of the policy, the elements. *)
Record bring := mk_bring { cc_ : Z; b_wt : Z; epoch_ : Z; b_elems : Z -> belem }.

Definition set_cc x (g : bring) := mk_bring x (b_wt g) (epoch_ g) (b_elems g).
Definition set_b_wt x (g : bring) := mk_bring (cc_ g) x (epoch_ g) (b_elems g).
Definition set_epoch x (g : bring) := mk_bring (cc_ g) (b_wt g) x (b_elems g).
Definition upd_belem (i : Z) (f : belem -> belem) (g : bring) :=
  mk_bring (cc_ g) (b_wt g) (epoch_ g) (<[i := f (b_elems g i)]> (b_elems g)).
Definition set_b_data (i : Z) (v : V) := upd_belem i (fun e => mk_belem v (rc_ e)).
Definition set_rc (i : Z) (x : Z) := upd_belem i (fun e => mk_belem (b_data e) x).

Definition bring_init (zero : V) : bring := mk_bring 0 0 0 (fun _ => mk_belem zero 0).

(** * Threads *)
Inductive b_op := BPush (v : V) | BForce (v : V) | BPop | BConnect | BDisconnect.
Inductive b_result := RBPush (v : V) (b : bool) | RBPop (r : option V).
(** A push takes effect when the write index moves, a pop when the data is
    read. *)
Inductive b_event := EBPush (v : V) | EBPop (v : V).

Inductive b_pc :=
  | BIdle
  (* push, and force_push when [force] *)
  | SEpoch (v : V)
  | SLoadCc (v : V) (force : bool)
  | SLoadWt (v : V) (force : bool) (cc : Z)
  | SLoadRc (v : V) (force : bool) (cc i : Z)
  | SDisconnect (v : V) (i cur_rc : Z)
  | SCas (v : V) (force : bool) (cc i cur_rc : Z)
  | SBegin (v : V) (i : Z)
  | SData (v : V) (i : Z)
  | SWt (v : V)
  (* pop *)
  | RLoadWt
  | RRead (i : Z)
  | RLoadRc (v : V) (i : Z)
  | RCas (v : V) (i cur_rc : Z)
  (* connect *)
  | KLoad
  | KCas (curr : Z)
  | KCursor.

(** A queue: what it has to do, its connection and its cursor. *)
Record b_thread := mk_b_thread { b_todo : list b_op; b_at : b_pc; connected_ : Z; b_cursor : Z; b_results : list b_result }.

Definition b_goto (p : b_pc) (l : b_thread) := mk_b_thread (b_todo l) p (connected_ l) (b_cursor l) (b_results l).
Definition b_finish (r : b_result) (l : b_thread) := mk_b_thread (b_todo l) BIdle (connected_ l) (b_cursor l) (b_results l ++ [r]).
Definition set_connected (c : Z) (p : b_pc) (l : b_thread) := mk_b_thread (b_todo l) p c (b_cursor l) (b_results l).
Definition set_cursor (c : Z) (p : b_pc) (l : b_thread) := mk_b_thread (b_todo l) p (connected_ l) c (b_results l).

(** [push] and [force_push]: [force_push] raises the epoch and, in place of
    giving up, disconnects the receivers that have not read the element. *)
Definition b_push_step (w : choice V) (g : bring) (l : b_thread) (p : b_pc) : option (bring * b_thread * list b_event) :=
  match p with
  | SEpoch v => Some (set_epoch (u64 (epoch_ g + ep_incr)) g, b_goto (SLoadCc v true) l, [])
  | SLoadCc v force =>
      if cc_ g =? 0 then Some (g, b_finish (RBPush v false) l, [])
      else Some (g, b_goto (SLoadWt v force (cc_ g)) l, [])
  | SLoadWt v force cc => Some (g, b_goto (SLoadRc v force cc (index_of (b_wt g))) l, [])
  | SLoadRc v force cc i =>
      let cur_rc := rc_ (b_elems g i) in
      let rem_cc := Z.land cur_rc ep_mask in
      if force then
        if negb (Z.land cc rem_cc =? 0) then Some (g, b_goto (SDisconnect v i cur_rc) l, [])
        else Some (g, b_goto (SCas v force cc i cur_rc) l, [])
      else if negb (Z.land cc rem_cc =? 0) && (Z.land cur_rc (not64 ep_mask) =? epoch_ g)
      then Some (g, b_finish (RBPush v false) l, [])
      else Some (g, b_goto (SCas v force cc i cur_rc) l, [])
  | SDisconnect v i cur_rc =>
      let cc := Z.land (cc_ g) (Z.lnot (Z.land cur_rc ep_mask)) in
      if cc =? 0 then Some (set_cc cc g, b_finish (RBPush v false) l, [])
      else Some (set_cc cc g, b_goto (SCas v true cc i cur_rc) l, [])
  | SCas v force cc i cur_rc =>
      if negb (spurious w) && (rc_ (b_elems g i) =? cur_rc)
      then Some (set_rc i (Z.lor (epoch_ g) cc) g, b_goto (SBegin v i) l, [])
      else Some (g, b_goto (SLoadCc v force) l, [])
  | SBegin v i => Some (set_b_data i (torn w) g, b_goto (SData v i) l, [])
  | SData v i => Some (set_b_data i v g, b_goto (SWt v) l, [])
  | SWt v => Some (set_b_wt (u32 (b_wt g + 1)) g, b_finish (RBPush v true) l, [EBPush v])
  | _ => None
  end.

Definition b_pop_step (w : choice V) (g : bring) (l : b_thread) (p : b_pc) : option (bring * b_thread * list b_event) :=
  match p with
  | RLoadWt =>
      if b_cursor l =? b_wt g then Some (g, b_finish (RBPop None) l, [])
      else Some (g, set_cursor (u32 (b_cursor l + 1)) (RRead (index_of (b_cursor l))) l, [])
  | RRead i => let v := b_data (b_elems g i) in Some (g, b_goto (RLoadRc v i) l, [EBPop v])
  | RLoadRc v i =>
      let cur_rc := rc_ (b_elems g i) in
      if Z.land cur_rc ep_mask =? 0 then Some (g, b_finish (RBPop (Some v)) l, [])
      else Some (g, b_goto (RCas v i cur_rc) l, [])
  | RCas v i cur_rc =>
      if negb (spurious w) && (rc_ (b_elems g i) =? cur_rc)
      then Some (set_rc i (Z.land cur_rc (not64 (connected_ l))) g, b_finish (RBPop (Some v)) l, [])
      else Some (g, b_goto (RLoadRc v i) l, [])
  | _ => None
  end.

(** [queue_conn::connect] over [conn_head::connect]: the lowest free bit, then
    the cursor. *)
Definition b_conn_step (w : choice V) (g : bring) (l : b_thread) (p : b_pc) : option (bring * b_thread * list b_event) :=
  match p with
  | KLoad =>
      let curr := cc_ g in
      if Z.lor curr (u32 (curr + 1)) =? 0 then Some (g, set_connected 0 KCursor l, [])
      else Some (g, b_goto (KCas curr) l, [])
  | KCas curr =>
      let next := Z.lor curr (u32 (curr + 1)) in
      if negb (spurious w) && (cc_ g =? curr) then Some (set_cc next g, set_connected (Z.lxor next curr) KCursor l, [])
      else Some (g, b_goto KLoad l, [])
  | KCursor => if connected_ l =? 0 then Some (g, b_goto BIdle l, []) else Some (g, set_cursor (b_wt g) BIdle l, [])
  | _ => None
  end.

Definition b_step (w : choice V) (g : bring) (l : b_thread) : option (bring * b_thread * list b_event) :=
  match b_at l with
  | BIdle =>
      match b_todo l with
      | [] => None
      | op :: ops =>
          let start p := Some (g, mk_b_thread ops p (connected_ l) (b_cursor l) (b_results l), []) in
          match op with
          | BPush v => start (SLoadCc v false)
          | BForce v => start (SEpoch v)
          | BPop => start RLoadWt
          | BConnect => if negb (connected_ l =? 0) then start BIdle else start KLoad
          | BDisconnect =>
              if connected_ l =? 0 then start BIdle
              else Some (set_cc (Z.land (cc_ g) (Z.lnot (connected_ l))) g, mk_b_thread ops BIdle 0 (b_cursor l) (b_results l), [])
          end
      end
  | p =>
      match b_push_step w g l p with
      | Some r => Some r
      | None => match b_pop_step w g l p with Some r => Some r | None => b_conn_step w g l p end
      end
  end.

Definition b_run : sys bring b_thread -> list (nat * choice V) -> sys bring b_thread * list (event b_event) := sys_run b_step.

(** The number of bits set, as [conn_head::conn_count] counts them. *)
Fixpoint count_loop (fuel : nat) (cur : Z) : Z :=
  match fuel with
  | O => 0
  | S fuel => if cur =? 0 then 0 else 1 + count_loop fuel (Z.land cur (u32 (cur - 1)))
  end.
Definition conn_count (g : bring) : Z := count_loop 32 (cc_ g).

Definition b_thread_init (ops : list b_op) : b_thread := mk_b_thread ops BIdle 0 0 [].
End broadcast.
Arguments belem : clear implicits.
Arguments bring : clear implicits.
Arguments b_op : clear implicits.
Arguments b_result : clear implicits.
Arguments b_event : clear implicits.
Arguments b_pc : clear implicits.
Arguments b_thread : clear implicits.
