(* ===== verification/BroadcastClaims.v ===== *)
(** The broadcasting ring: every connected receiver gets what was sent, all of
    it and in order, and the sender waits for the slowest. *)
From stdpp Require Import prelude list functions.
From Stdlib Require Import ZArith Lia.
From S2P Require Import Prelude Cpp Interleave Ring RingInv Broadcast.

Open Scope Z_scope.

(** * Bits *)
Lemma not64_land x : 0 <= x < 2 ^ 64 -> not64 x = Z.land (Z.lnot x) (Z.ones 64).
Proof.
  intros Hx. rewrite Z.land_ones by lia. unfold not64, Z.lnot. change (Z.pred (- x)) with (- x - 1).
  change (2 ^ 64) with 18446744073709551616 in *. rewrite <- (Z.mod_add _ 1) by lia. rewrite Z.mod_small; lia.
Qed.
Lemma ldiff_range rc x : 0 <= rc < 2 ^ 32 -> 0 <= Z.ldiff rc x < 2 ^ 32.
Proof.
  intros Hr. assert (Z.ldiff rc x = Z.land (Z.land rc (Z.lnot x)) (Z.ones 32)) as ->; [|rewrite (Z.land_ones _ 32) by lia; apply Z.mod_pos_bound; lia].
  rewrite <- Z.land_assoc, (Z.land_comm (Z.lnot x)), Z.land_assoc, (Z.land_ones rc) by lia. rewrite (Z.mod_small rc) by lia. apply Z.ldiff_land.
Qed.
Lemma clear_bits rc x : 0 <= rc < 2 ^ 32 -> 0 <= x < 2 ^ 64 -> Z.land rc (not64 x) = Z.ldiff rc x.
Proof.
  intros Hr Hx. rewrite (not64_land x Hx), Z.land_assoc, (Z.land_ones _ 64), <- Z.ldiff_land by lia. apply Z.mod_small.
  pose proof (ldiff_range rc x Hr). assert (2 ^ 32 < 2 ^ 64) by done. lia.
Qed.
Lemma land_mask rc : 0 <= rc < 2 ^ 32 -> Z.land rc ep_mask = rc.
Proof. intros Hr. change ep_mask with (Z.ones 32). rewrite Z.land_ones by lia. by apply Z.mod_small. Qed.
Lemma land_epoch rc : 0 <= rc < 2 ^ 32 -> Z.land rc (not64 ep_mask) = 0.
Proof.
  intros Hr. rewrite clear_bits by (unfold ep_mask; lia). change ep_mask with (Z.ones 32). apply Z.ldiff_ones_r_low; [lia|].
  destruct (Z.eq_dec rc 0) as [->|]; [done|]. apply Z.log2_lt_pow2; lia.
Qed.

(** The connections of the receivers 0 to [n - 1]. *)
Definition all_bits (n : nat) : Z := Z.ones (Z.of_nat n).
Lemma all_bits_range n : (n <= 32)%nat -> 0 <= all_bits n < 2 ^ 32.
Proof.
  intros Hn. unfold all_bits. rewrite Z.ones_equiv. assert (0 < 2 ^ Z.of_nat n) by lia.
  assert (2 ^ Z.of_nat n <= 2 ^ 32) by (apply Z.pow_le_mono_r; lia). lia.
Qed.
Lemma all_bits_test n b : 0 <= b -> Z.testbit (all_bits n) b = (b <? Z.of_nat n).
Proof.
  intros Hb. unfold all_bits. destruct (Z.ltb_spec b (Z.of_nat n)); [apply Z.ones_spec_low; lia|apply Z.ones_spec_high; lia].
Qed.
Lemma land_zero_bits a b : (forall i, 0 <= i -> Z.testbit a i = true -> Z.testbit b i = false) <-> Z.land a b = 0.
Proof.
  split.
  - intros Hi. apply Z.bits_inj'. intros i Hi0. rewrite Z.land_spec, Z.bits_0. specialize (Hi i Hi0). destruct (Z.testbit a i); [by rewrite Hi|done].
  - intros E i Hi Ha. pose proof (f_equal (fun x => Z.testbit x i) E) as Eb. cbv beta in Eb. rewrite Z.land_spec, Ha, Z.bits_0 in Eb. done.
Qed.

Section inv.
Context {V : Type}.
Implicit Types (g : bring V) (l : b_thread V).

(** * Invariant *)
(** What was sent; whether the sender has claimed the next element; how many
    elements each receiver has let go, and how many it has read. *)
Record bghost := mk_bghost { blog : list V; claim : bool; rel : nat -> Z; got : nat -> Z }.
Definition blen (a : bghost) : Z := Z.of_nat (length (blog a)).
Definition top (a : bghost) : Z := blen a + (if claim a then 1 else 0).

Definition sent (es : list (event (b_event V))) : list V := omap (fun e => match e.2 with EBPush v => Some v | EBPop _ => None end) es.
Definition received (j : nat) (es : list (event (b_event V))) : list V :=
  omap (fun e => if decide (e.1 = j) then match e.2 with EBPop v => Some v | EBPush _ => None end else None) es.

(** The receivers that have yet to let element [k] go. *)
Definition pending (n : nat) (a : bghost) (k rc : Z) : Prop :=
  0 <= rc < 2 ^ 32 /\ forall b, 0 <= b -> Z.testbit rc b = ((b <? Z.of_nat n) && (rel a (S (Z.to_nat b)) <=? k)).

(** [n] threads: the sender and [n - 1] receivers. *)
Record bglobal (n : nat) g (a : bghost) (es : list (event (b_event V))) : Prop := {
  bk_n : (1 <= n <= 33)%nat;
  bk_cc : cc_ g = all_bits (pred n);
  bk_epoch : epoch_ g = 0;
  bk_wt : b_wt g = blen a;
  bk_bound : blen a < 2 ^ 32;
  bk_rel j : (0 < j < n)%nat -> 0 <= rel a j /\ top a - 256 <= rel a j <= got a j /\ got a j <= blen a;
  bk_rc k : 0 <= k < top a -> top a - 256 <= k -> pending (pred n) a k (rc_ (b_elems g (index_of k)));
  bk_rc0 k : top a <= k < 256 -> rc_ (b_elems g (index_of k)) = 0;
  bk_data k v : 0 <= k < blen a -> top a - 256 <= k -> blog a !! Z.to_nat k = Some v -> b_data (b_elems g (index_of k)) = v;
  bk_sent : sent es = blog a;
  bk_received j : (0 < j < n)%nat -> received j es = take (Z.to_nat (got a j)) (blog a) }.

Definition only_push (op : b_op V) : Prop := match op with BPush _ => True | _ => False end.
Definition only_pop (op : b_op V) : Prop := match op with BPop => True | _ => False end.

(** The sender. *)
Definition sender_at g (a : bghost) (p : b_pc V) : Prop :=
  match p with
  | BIdle | SLoadCc _ false => claim a = false
  | SLoadWt _ false cc => claim a = false /\ cc = cc_ g
  | SLoadRc _ false cc i => claim a = false /\ cc = cc_ g /\ i = index_of (blen a)
  | SCas _ false cc i cur_rc => claim a = false /\ cc = cc_ g /\ i = index_of (blen a) /\ (0 <= cur_rc < 2 ^ 32 -> Z.land cc cur_rc = 0)
  | SBegin _ i | SData _ i => claim a = true /\ i = index_of (blen a)
  | SWt v => claim a = true /\ b_data (b_elems g (index_of (blen a))) = v
  | _ => False
  end.
(** The receiver on thread [j]. *)
Definition receiver_at (j : nat) (a : bghost) (c : Z) (p : b_pc V) : Prop :=
  match p with
  | BIdle | RLoadWt => c = rel a j /\ got a j = rel a j
  | RRead i => i = index_of (rel a j) /\ c = rel a j + 1 /\ got a j = rel a j /\ rel a j < blen a
  | RLoadRc _ i | RCas _ i _ => i = index_of (rel a j) /\ c = rel a j + 1 /\ got a j = rel a j + 1
  | _ => False
  end.

Definition blocal (i : nat) g (a : bghost) l : Prop :=
  match i with
  | O => Forall only_push (b_todo l) /\ sender_at g a (b_at l)
  | S j => Forall only_pop (b_todo l) /\ connected_ l = 2 ^ Z.of_nat j /\ receiver_at i a (b_cursor l) (b_at l)
  end.

Record bguar (i : nat) g (a : bghost) g' (a' : bghost) : Prop := {
  bg_cc : cc_ g' = cc_ g;
  bg_log : blen a <= blen a';
  bg_other j : i <> j -> rel a' j = rel a j /\ got a' j = got a j;
  bg_sender : i <> 0%nat -> blen a' = blen a /\ claim a' = claim a /\ forall x, b_data (b_elems g' x) = b_data (b_elems g x) }.

Lemma bguar_stable i j g a g' a' l : i <> j -> bguar i g a g' a' -> blocal j g a l -> blocal j g' a' l.
Proof.
  intros Hne [Hcc Hlog Ho Hs]. destruct j as [|j]; simpl.
  - destruct (Hs Hne) as (El & Ec & Hd). intros [Ht Ha]. split; [done|]. destruct (b_at l); try done; cbn [sender_at] in *; try (destruct force; [done|]); rewrite ?Hcc, ?El, ?Ec, ?Hd; done.
  - destruct (Ho (S j) Hne) as [Er Eg]. intros (Ht & Hc & Ha). split; [done|]. split; [done|]. destruct (b_at l); try done; cbn [receiver_at] in *; rewrite ?Er, ?Eg; try done. lia.
Qed.

Lemma bguar_refl i g a : bguar i g a g a.
Proof. by split; [|lia|..]. Qed.
(** * Elements *)
Lemma set_rc_rc x i y g : rc_ (b_elems (set_rc i x g) y) = if decide (y = i) then x else rc_ (b_elems g y).
Proof. cbn. unfold insert, fn_insert. destruct (decide (i = y)) as [->|Hne]; [by rewrite decide_True|by rewrite decide_False]. Qed.
Lemma set_rc_data x i y g : b_data (b_elems (set_rc i x g) y) = b_data (b_elems g y).
Proof. cbn. unfold insert, fn_insert. by destruct (decide (i = y)) as [->|Hne]. Qed.
Lemma set_data_rc v i y g : rc_ (b_elems (set_b_data i v g) y) = rc_ (b_elems g y).
Proof. cbn. unfold insert, fn_insert. by destruct (decide (i = y)) as [->|Hne]. Qed.
Lemma set_data_data v i y g : b_data (b_elems (set_b_data i v g) y) = if decide (y = i) then v else b_data (b_elems g y).
Proof. cbn. unfold insert, fn_insert. destruct (decide (i = y)) as [->|Hne]; [by rewrite decide_True|by rewrite decide_False]. Qed.

Lemma place_ne a k k' : top a - 256 <= k < top a -> top a - 256 <= k' < top a -> k <> k' -> index_of k <> index_of k'.
Proof. intros H1 H2 Hne E. apply Hne. eapply (index_of_inj (top a - 256)); [lia|lia|done]. Qed.

Definition set_claim (b : bool) (a : bghost) : bghost := mk_bghost (blog a) b (rel a) (got a).
Definition publish (v : V) (a : bghost) : bghost := mk_bghost (blog a ++ [v]) false (rel a) (got a).
Definition note_read (j : nat) (a : bghost) : bghost := mk_bghost (blog a) (claim a) (rel a) (<[j := got a j + 1]> (got a)).
Definition let_go (j : nat) (a : bghost) : bghost := mk_bghost (blog a) (claim a) (<[j := rel a j + 1]> (rel a)) (got a).

Lemma bump_at (f : nat -> Z) j x : (<[j := x]> f : nat -> Z) j = x.
Proof. unfold insert, fn_insert. by rewrite decide_True. Qed.
Lemma bump_ne (f : nat -> Z) i j x : i <> j -> (<[i := x]> f : nat -> Z) j = f j.
Proof. intros Hne. unfold insert, fn_insert. by rewrite decide_False. Qed.

(** * Steps of the sender *)
Lemma claim_next_ok n g a es : bglobal n g a es -> claim a = false -> (forall rc, rc = rc_ (b_elems g (index_of (blen a))) -> 0 <= rc < 2 ^ 32 -> Z.land (cc_ g) rc = 0) ->
  bglobal n (set_rc (index_of (blen a)) (cc_ g) g) (set_claim true a) es.
Proof.
  intros [Hn Hcc Hep Hwt Hb Hrel Hrc Hrc0 Hd Hs Hr] Hcl Hfree. assert (top a = blen a) as Et by (unfold top; rewrite Hcl; lia).
  assert (top (set_claim true a) = blen a + 1) as Et' by done. assert (0 <= blen a) as Hpos by (unfold blen; lia).
  assert (forall j, (0 < j < n)%nat -> blen a - 255 <= rel a j) as Hnew.
  { intros j Hj. destruct (Hrel j Hj) as (? & ? & ?). destruct (decide (256 <= blen a)) as [Hlap|]; [|lia].
    destruct (Hrc (blen a - 256)) as [Hrg Hbits]; [lia|lia|]. assert (index_of (blen a - 256) = index_of (blen a)) as E by (apply index_of_eq; replace (blen a - 256 - blen a) with (-1 * 256) by lia; by rewrite Z.mod_mul).
    rewrite E in Hrg, Hbits. pose proof (Hfree _ eq_refl Hrg) as Hz. rewrite Hcc in Hz. apply land_zero_bits with (i := Z.of_nat (pred j)) in Hz; [|lia|rewrite all_bits_test by lia; apply Z.ltb_lt; lia].
    rewrite Hbits in Hz by lia. replace (S (Z.to_nat (Z.of_nat (pred j)))) with j in Hz by lia. apply andb_false_iff in Hz as [Hz%Z.ltb_ge|Hz%Z.leb_gt]; lia. }
  split; try done.
  - intros j Hj. specialize (Hrel j Hj). specialize (Hnew j Hj). cbn [set_claim rel got blog]. rewrite Et'. change (blen (set_claim true a)) with (blen a). lia.
  - rewrite Et'. intros k Hk Hw. rewrite set_rc_rc. destruct (decide (index_of k = index_of (blen a))) as [E|E].
    + apply (index_of_inj (blen a + 1 - 256)) in E as ->; [|lia..]. rewrite Hcc. split; [apply all_bits_range; lia|]. intros b Hb0. rewrite all_bits_test by done.
      destruct (Z.ltb_spec b (Z.of_nat (pred n))) as [Hlt|]; [|done]. cbn [andb set_claim rel]. symmetry. apply Z.leb_le. destruct (Hrel (S (Z.to_nat b))); lia.
    + assert (k <> blen a) as Hne by (by intros ->). destruct (Hrc k) as [Hrg Hbits]; [lia|lia|]. split; done.
  - rewrite Et'. intros k Hk. rewrite set_rc_rc, decide_False; [apply Hrc0; lia|]. intros E. apply (index_of_inj 0) in E; lia.
  - intros k v Hk Hw Hv. rewrite set_rc_data. apply Hd; [done| |done]. rewrite Et' in Hw. lia.
Qed.

Lemma write_ok_b n g a es v : bglobal n g a es -> claim a = true -> bglobal n (set_b_data (index_of (blen a)) v g) a es.
Proof.
  intros [Hn Hcc Hep Hwt Hb Hrel Hrc Hrc0 Hd Hs Hr] Hcl. assert (top a = blen a + 1) as Et by (unfold top; rewrite Hcl; lia). split; try done.
  - intros k Hk Hw. rewrite set_data_rc. by apply Hrc.
  - intros k Hk. rewrite set_data_rc. by apply Hrc0.
  - intros k w Hk Hw Hv. rewrite set_data_data, decide_False; [by apply Hd|]. apply (place_ne a); lia.
Qed.

Lemma sent_app es es' : sent (es ++ es') = sent es ++ sent es'.
Proof. apply omap_app. Qed.
Lemma received_app j es es' : received j (es ++ es') = received j es ++ received j es'.
Proof. apply omap_app. Qed.

Lemma publish_ok n g a es i v : bglobal n g a es -> claim a = true -> b_data (b_elems g (index_of (blen a))) = v -> blen a + 1 < 2 ^ 32 ->
  bglobal n (set_b_wt (u32 (b_wt g + 1)) g) (publish v a) (es ++ [(i, EBPush v)]).
Proof.
  intros [Hn Hcc Hep Hwt Hb Hrel Hrc Hrc0 Hd Hs Hr] Hcl Hv Hlt. assert (top a = blen a + 1) as Et by (unfold top; rewrite Hcl; lia).
  assert (blen (publish v a) = blen a + 1) as El by (unfold blen, publish; cbn; rewrite length_app; simpl; lia).
  assert (top (publish v a) = blen a + 1) as Et' by (unfold top; rewrite El; cbn; lia). assert (0 <= blen a) as Hpos by (unfold blen; lia).
  split; try done.
  - cbn [set_b_wt b_wt]. rewrite Hwt, El. apply u32_small. unfold is_u32. lia.
  - by rewrite El.
  - intros j Hj. specialize (Hrel j Hj). rewrite Et', El. cbn [publish rel got]. lia.
  - rewrite Et'. intros k Hk Hw. apply Hrc; lia.
  - rewrite Et'. intros k Hk. apply Hrc0. lia.
  - rewrite El, Et'. intros k w Hk Hw Hl. cbn [set_b_wt b_elems publish blog] in *. destruct (decide (k = blen a)) as [->|Hne].
    + rewrite Hv. rewrite lookup_app_r in Hl by (unfold blen in *; lia). unfold blen in Hl. rewrite Nat2Z.id, Nat.sub_diag in Hl. by injection Hl.
    + apply Hd; [lia|lia|]. rewrite lookup_app_l in Hl by (unfold blen in *; lia). done.
  - rewrite sent_app, Hs. done.
  - intros j Hj. rewrite received_app, Hr by done. cbn [received omap list_omap publish got blog fst snd]. destruct (Hrel j Hj) as (? & ? & ?).
    rewrite take_app_le by (unfold blen in *; lia). destruct (decide (i = j)); by rewrite app_nil_r.
Qed.

(** * Steps of a receiver *)
Lemma read_ok n g a es j v : bglobal n g a es -> (0 < j < n)%nat -> got a j = rel a j -> rel a j < blen a ->
  b_data (b_elems g (index_of (rel a j))) = v -> bglobal n g (note_read j a) (es ++ [(j, EBPop v)]).
Proof.
  intros [Hn Hcc Hep Hwt Hb Hrel Hrc Hrc0 Hd Hs Hr] Hj Hg Hlt Hv. destruct (Hrel j Hj) as (H0 & H1 & H2). change (top (note_read j a)) with (top a) in *.
  split; try done.
  - intros i Hi. change (top (note_read j a)) with (top a). change (blen (note_read j a)) with (blen a). cbn [note_read rel got].
    destruct (decide (j = i)) as [<-|Hne]; [rewrite bump_at; lia|rewrite bump_ne by done; by apply Hrel].
  - rewrite sent_app, Hs. cbn. by rewrite app_nil_r.
  - intros i Hi. rewrite received_app, Hr by done. cbn [received omap list_omap note_read got blog fst snd]. destruct (decide (j = i)) as [<-|Hne].
    + rewrite bump_at. destruct (lookup_lt_is_Some_2 (blog a) (Z.to_nat (rel a j))) as [w Hw]; [unfold blen in *; lia|].
      assert (w = v) as <- by (rewrite <- Hv; symmetry; apply Hd; [lia|lia|done]). rewrite Hg. replace (Z.to_nat (rel a j + 1)) with (S (Z.to_nat (rel a j))) by lia. by rewrite (take_S_r _ _ w).
    + by rewrite bump_ne, app_nil_r by done.
Qed.

Lemma let_go_ok n g a es j rc : bglobal n g a es -> (0 < j < n)%nat -> got a j = rel a j + 1 -> rc = rc_ (b_elems g (index_of (rel a j))) ->
  bglobal n (set_rc (index_of (rel a j)) (Z.land rc (not64 (2 ^ Z.of_nat (pred j)))) g) (let_go j a) es.
Proof.
  intros [Hn Hcc Hep Hwt Hb Hrel Hrc Hrc0 Hd Hs Hr] Hj Hg ->. destruct (Hrel j Hj) as (H0 & H1 & H2). assert (blen a <= top a) as Htop by (unfold top; destruct (claim a); lia).
  split; try done.
  - intros i Hi. change (top (let_go j a)) with (top a). change (blen (let_go j a)) with (blen a). cbn [let_go rel got].
    destruct (decide (j = i)) as [<-|Hne]; [rewrite bump_at; lia|rewrite bump_ne by done; by apply Hrel].
  - change (top (let_go j a)) with (top a). intros k Hk Hw. rewrite set_rc_rc. destruct (Hrc (rel a j)) as [Hrg Hbits]; [lia|lia|]. destruct (decide (index_of k = index_of (rel a j))) as [E|E].
    + apply (index_of_inj (top a - 256)) in E as ->; [|lia..]. assert (0 <= 2 ^ Z.of_nat (pred j) < 2 ^ 64) as Hpow by (split; [lia|apply Z.pow_lt_mono_r; lia]).
      rewrite clear_bits by done. split; [by apply ldiff_range|]. intros b Hb0. rewrite Z.ldiff_spec, Z.pow2_bits_eqb, Hbits by lia. cbn [let_go rel].
      destruct (Z.eqb_spec (Z.of_nat (pred j)) b) as [<-|Hne].
      * replace (S (Z.to_nat (Z.of_nat (pred j)))) with j by lia. rewrite bump_at. cbn [negb]. rewrite andb_false_r. symmetry. apply andb_false_iff. right. apply Z.leb_gt. lia.
      * cbn [negb]. rewrite andb_true_r, bump_ne by lia. done.
    + destruct (Hrc k Hk Hw) as [Hrg' Hbits']. split; [done|]. intros b Hb0. rewrite Hbits' by done. f_equal. cbn [let_go rel]. destruct (decide (j = S (Z.to_nat b))) as [<-|Hne]; [|by rewrite bump_ne].
      rewrite bump_at. assert (k <> rel a j) by (by intros ->). destruct (Z.leb_spec (rel a j) k), (Z.leb_spec (rel a j + 1) k); lia || done.
  - change (top (let_go j a)) with (top a). intros k Hk. rewrite set_rc_rc, decide_False; [by apply Hrc0|]. intros E. apply (index_of_inj 0) in E; lia.
  - intros k v Hk Hw Hv. rewrite set_rc_data. by apply Hd.
Qed.
(** * All steps *)
Definition fits_b (es : list (event (b_event V))) : Prop := Z.of_nat (length (sent es)) < 2 ^ 32.
Lemma fits_b_prefix es es' : fits_b (es ++ es') -> fits_b es.
Proof. unfold fits_b. rewrite sent_app, length_app. lia. Qed.

Definition kept_by (n i : nat) g (a : bghost) (es : list (event (b_event V))) g' l' new : Prop :=
  exists a', bglobal n g' a' (es ++ (pair i <$> new)) /\ blocal i g' a' l' /\ bguar i g a g' a'.

(** A step that changes nothing shared. *)
Lemma kept_same n i g a es l' : bglobal n g a es -> blocal i g a l' -> kept_by n i g a es g l' [].
Proof. intros Hg Hl. exists a. rewrite app_nil_r. split; [done|]. split; [done|apply bguar_refl]. Qed.

Lemma b_push_ok n g a es w l p g' l' new : bglobal n g a es -> Forall only_push (b_todo l) -> sender_at g a p ->
  fits_b (es ++ (pair 0%nat <$> new)) -> b_push_step w g l p = Some (g', l', new) -> kept_by n 0 g a es g' l' new.
Proof.
  intros Hg Ht Hp Hf Hs. pose proof Hg as [Hn Hcc Hep Hwt Hb Hrel Hrc Hrc0 Hd Hse Hre]. destruct p as [| | v [] |v [] cc|v [] cc i|?|v [] cc i rc|v i|v i|v| | | | | | |]; try done; cbn [b_push_step sender_at] in *.
  - destruct (_ =? 0); injection Hs as <- <- <-; by apply kept_same.
  - injection Hs as <- <- <-. destruct Hp. apply kept_same; [done|]. split; [done|]. cbn. by rewrite Hwt.
  - destruct Hp as (Hcl & -> & ->). destruct (negb _ && _) eqn:E; injection Hs as <- <- <-; apply kept_same; try done. split; [done|]. cbn. do 3 (split; [done|]). intros Hrg.
    rewrite Hep, land_epoch, land_mask, andb_true_r in E by done. by apply negb_false_iff, Z.eqb_eq in E.
  - destruct Hp as (Hcl & -> & -> & Hfree). destruct (negb _ && _) eqn:E; injection Hs as <- <- <-; [|by apply kept_same].
    apply andb_true_iff in E as [_ E%Z.eqb_eq]. exists (set_claim true a). rewrite app_nil_r, Hep, Z.lor_0_l. split; [apply claim_next_ok; [done|done|]|].
    + intros rc' ->. rewrite E. done.
    + split; [done|]. split; [done|done|done|done].
  - destruct Hp as (Hcl & ->). injection Hs as <- <- <-. exists a. rewrite app_nil_r. split; [by apply write_ok_b|]. split; [done|]. by split; [|lia|..].
  - destruct Hp as (Hcl & ->). injection Hs as <- <- <-. exists a. rewrite app_nil_r. split; [by apply write_ok_b|]. split; [split; [done|split; [done|]]|by split; [|lia|..]].
    rewrite set_data_data. by rewrite decide_True.
  - destruct Hp as (Hcl & Hv). injection Hs as <- <- <-. exists (publish v a). split; [apply publish_ok; try done|].
    + unfold fits_b in Hf. rewrite sent_app, Hse, length_app in Hf. unfold blen. simpl in Hf. lia.
    + split; [done|]. split; try done. unfold blen. cbn. rewrite length_app. lia.
Qed.

Lemma b_pop_ok n g a es w l j g' l' new : bglobal n g a es -> blocal (S j) g a l -> (S j < n)%nat ->
  b_pop_step w g l (b_at l) = Some (g', l', new) -> kept_by n (S j) g a es g' l' new.
Proof.
  intros Hg (Ht & Hc & Hp) Hj Hs. pose proof Hg as [Hn Hcc Hep Hwt Hb Hrel Hrc Hrc0 Hd Hse Hre]. destruct (Hrel (S j)) as (H0 & H1 & H2); [lia|].
  assert (blen a <= top a) as Htop by (unfold top; destruct (claim a); lia).
  destruct (b_at l) eqn:Ep; try done; cbn [b_pop_step receiver_at] in *.
  - destruct Hp as [Ec Eg]. destruct (Z.eqb_spec (b_cursor l) (b_wt g)) as [E|E]; injection Hs as <- <- <-; apply kept_same; try done. rewrite Hwt in E.
    split; [done|]. split; [done|]. cbn [b_at b_cursor set_cursor receiver_at]. rewrite Ec, u32_small by (unfold is_u32; lia). split; [done|]. split; [done|]. split; [done|]. lia.
  - destruct Hp as (-> & Ec & Eg & Hlt). injection Hs as <- <- <-. exists (note_read (S j) a). split; [apply read_ok; try done; lia|]. split.
    + split; [done|]. split; [done|]. cbn. rewrite bump_at, Eg. done.
    + split; [done|done|intros i Hi; cbn; by rewrite bump_ne|done].
  - destruct Hp as (-> & Ec & Eg). destruct (Z.eqb_spec (Z.land (rc_ (b_elems g (index_of (rel a (S j))))) ep_mask) 0) as [E|E]; injection Hs as <- <- <-; [|by apply kept_same].
    exfalso. destruct (Hrc (rel a (S j))) as [Hrg Hbits]; [lia|lia|]. rewrite land_mask in E by done. specialize (Hbits (Z.of_nat j)). rewrite E, Z.bits_0, Nat2Z.id in Hbits.
    symmetry in Hbits. apply andb_false_iff in Hbits as [Hx%Z.ltb_ge|Hx%Z.leb_gt]; lia.
  - destruct Hp as (-> & Ec & Eg). destruct (negb _ && _) eqn:E; injection Hs as <- <- <-; [|by apply kept_same]. apply andb_true_iff in E as [_ E%Z.eqb_eq].
    exists (let_go (S j) a). rewrite app_nil_r, Hc. split; [apply (let_go_ok n g a es (S j)); try done; lia|]. split.
    + split; [done|]. split; [done|]. cbn. rewrite bump_at. lia.
    + split; [done|done|intros i Hi; cbn; by rewrite bump_ne|]. intros _. split; [done|]. split; [done|]. intros x. apply set_rc_data.
Qed.

Lemma b_step_ok n i w g a l g' l' es new : (i < n)%nat -> bglobal n g a es -> blocal i g a l -> fits_b (es ++ (pair i <$> new)) ->
  b_step w g l = Some (g', l', new) -> kept_by n i g a es g' l' new.
Proof.
  intros Hi Hg Hl Hf Hs. unfold b_step in Hs. destruct i as [|j].
  - pose proof Hl as [Ht Hp]. destruct (b_at l) eqn:Ep; try done;
      try (destruct (b_push_step w g l _) as [[[g1 l1] new1]|] eqn:Es; [injection Hs as <- <- <-; by eapply b_push_ok|by cbn [sender_at] in Hp; try destruct force]).
    destruct (b_todo l) as [|op ops] eqn:Et; [done|]. apply list.Forall_cons in Ht as [Hop Ht]. destruct op; try done. injection Hs as <- <- <-. apply kept_same; [done|]. split; [done|]. done.
  - pose proof Hl as (Ht & Hc & Hp). destruct (b_at l) eqn:Ep; try done;
      try (cbn [b_push_step] in Hs; rewrite <- Ep in Hs; destruct (b_pop_step w g l (b_at l)) as [[[g1 l1] new1]|] eqn:Es; [injection Hs as <- <- <-; by eapply b_pop_ok|by rewrite Ep in Es; cbn in Es; repeat case_match]).
    destruct (b_todo l) as [|op ops] eqn:Et; [done|]. apply list.Forall_cons in Ht as [Hop Ht]. destruct op; try done. injection Hs as <- <- <-. apply kept_same; [done|]. split; [done|]. split; done.
Qed.
(** * Connected receivers

    A sender with values to send, and receivers each with its number of pops;
    the first [k] receivers have connected. *)
Definition receiver (k j p : nat) : b_thread V :=
  if decide (j < k)%nat then mk_b_thread (replicate p BPop) BIdle (2 ^ Z.of_nat j) 0 []
  else b_thread_init (BConnect :: replicate p BPop).
Definition connecting (zero : V) (vs : list V) (pops : list nat) (k : nat) : sys (bring V) (b_thread V) :=
  (set_cc (all_bits k) (bring_init zero), b_thread_init (BPush <$> vs) :: imap (receiver k) pops).
(** All of them. *)
Definition b_ready (zero : V) (vs : list V) (pops : list nat) : sys (bring V) (b_thread V) := connecting zero vs pops (length pops).

Lemma all_bits_next k : (k < 32)%nat -> Z.lor (all_bits k) (u32 (all_bits k + 1)) = all_bits (S k) /\ Z.lxor (all_bits (S k)) (all_bits k) = 2 ^ Z.of_nat k.
Proof.
  intros Hk. assert (u32 (all_bits k + 1) = 2 ^ Z.of_nat k) as ->.
  { unfold all_bits. rewrite Z.ones_equiv. replace (Z.pred (2 ^ Z.of_nat k) + 1) with (2 ^ Z.of_nat k) by lia. apply u32_small. unfold is_u32.
    split; [lia|]. apply Z.pow_lt_mono_r; lia. }
  split; apply Z.bits_inj'; intros b Hb; rewrite ?Z.lor_spec, ?Z.lxor_spec, !all_bits_test, Z.pow2_bits_eqb by lia.
  - destruct (Z.ltb_spec b (Z.of_nat k)), (Z.eqb_spec (Z.of_nat k) b), (Z.ltb_spec b (Z.of_nat (S k))); try done; lia.
  - destruct (Z.ltb_spec b (Z.of_nat k)), (Z.eqb_spec (Z.of_nat k) b), (Z.ltb_spec b (Z.of_nat (S k))); try done; lia.
Qed.

(** Run the steps whose conditions are decided. *)
Ltac exec_b := cbn -[all_bits u32 Z.lor Z.lxor Z.eqb Z.pow Z.land index_of not64 set_rc set_b_data ep_mask].

Lemma connect_alone x (zero : V) k ops : (k < 32)%nat ->
  solo b_step (mk_choice false x) 4 (set_cc (all_bits k) (bring_init zero)) (b_thread_init (BConnect :: ops)) =
  Some (set_cc (all_bits (S k)) (bring_init zero), mk_b_thread ops BIdle (2 ^ Z.of_nat k) 0 [], []).
Proof.
  intros Hk. destruct (all_bits_next k Hk) as [E1 E2]. pose proof (all_bits_range k ltac:(lia)) as Hr. exec_b. change (0 =? 0) with true. exec_b. rewrite E1.
  assert ((all_bits (S k) =? 0) = false) as ->.
  { apply Z.eqb_neq. intros E. pose proof (all_bits_test (S k) (Z.of_nat k) ltac:(lia)) as Ht. rewrite E, Z.bits_0 in Ht. symmetry in Ht. apply Z.ltb_ge in Ht. lia. }
  exec_b. rewrite Z.eqb_refl, E1, E2. exec_b.
  assert ((2 ^ Z.of_nat k =? 0) = false) as -> by (apply Z.eqb_neq; lia). done.
Qed.

(** Receivers that connect one after the other get distinct bits and nobody is
    missed. *)
Lemma receivers_connect x zero vs pops : (length pops <= 32)%nat ->
  b_run (connecting zero vs pops 0) (concat ((fun j => replicate 4 (S j, mk_choice false x)) <$> seq 0 (length pops))) = (b_ready zero vs pops, []).
Proof.
  intros Hn. unfold b_ready. enough (forall k, (k <= length pops)%nat ->
    b_run (connecting zero vs pops 0) (concat ((fun j => replicate 4 (S j, mk_choice false x)) <$> seq 0 k)) = (connecting zero vs pops k, [])) as Hk by (by apply Hk).
  induction k as [|k IH]; intros Hk; [done|]. rewrite seq_S, fmap_app, concat_app. unfold b_run in *. rewrite sys_run_app, IH by lia. cbn [fmap list_fmap concat]. rewrite app_nil_r, Nat.add_0_l.
  destruct (lookup_lt_is_Some_2 pops k) as [p Hp]; [lia|]. pose proof (connect_alone x zero k (replicate p BPop) ltac:(lia)) as Hsolo.
  assert (receiver k k p = b_thread_init (BConnect :: replicate p BPop)) as Er by (unfold receiver; by rewrite decide_False by lia). rewrite <- Er in Hsolo. unfold connecting at 1. rewrite (solo_run b_step _ 4 _ _ _ _ _ (S k) _ Hsolo).
  - cbn [fst snd fmap list_fmap app]. f_equal. f_equal. change (<[S k := ?y]> (?x :: ?r)) with (x :: <[k := y]> r). unfold connecting. cbn [snd]. f_equal.
    f_equal. apply list_eq. intros j. rewrite list_lookup_imap. destruct (decide (j = k)) as [->|Hne].
    + rewrite list_lookup_insert_eq by (rewrite length_imap; lia). rewrite Hp. cbn. unfold receiver. by rewrite decide_True by lia.
    + rewrite list_lookup_insert_ne by done. rewrite list_lookup_imap. destruct (pops !! j); [|done]. cbn. unfold receiver. f_equal. by destruct (decide (j < k)%nat), (decide (j < S k)%nat); try lia.
  - unfold connecting. cbn [snd]. change ((?x :: ?r) !! S k) with (r !! k). rewrite list_lookup_imap, Hp. done.
Qed.

(** All of them are counted. *)
Lemma receivers_counted zero vs pops : (length pops <= 32)%nat -> conn_count (b_ready zero vs pops).1 = Z.of_nat (length pops).
Proof.
  intros Hn. unfold conn_count, b_ready. cbn [connecting fst set_cc cc_]. generalize (length pops), Hn. clear. intros n Hn.
  assert (forallb (fun n => count_loop 32 (all_bits n) =? Z.of_nat n) (seq 0 33) = true) as Hall by (vm_compute; reflexivity).
  rewrite forallb_forall in Hall. apply Z.eqb_eq, Hall, in_seq. lia.
Qed.

Lemma ready_holds zero vs pops : (length pops <= 32)%nat -> holds bglobal blocal (b_ready zero vs pops) [].
Proof.
  intros Hn. exists (mk_bghost [] false (fun _ => 0) (fun _ => 0)). unfold b_ready, connecting. cbn [fst snd length]. rewrite length_imap. split.
  - split; try done; unfold top, blen; cbn; intros; lia.
  - intros [|j] l Hl.
    + injection Hl as <-. split; [|done]. cbn. apply list.Forall_forall. intros op (v & -> & _)%list_elem_of_fmap. done.
    + change (imap (receiver (length pops)) pops !! j = Some l) in Hl. rewrite list_lookup_imap in Hl. apply fmap_Some in Hl as (p & Hp & ->). apply lookup_lt_Some in Hp as Hlt. unfold receiver. rewrite decide_True by lia. split; [|done].
      apply list.Forall_forall. intros op [-> _]%elem_of_replicate. done.
Qed.

Lemma ready_run zero vs pops sched : (length pops <= 32)%nat -> let r := b_run (b_ready zero vs pops) sched in fits_b r.2 -> holds bglobal blocal r.1 r.2.
Proof.
  intros Hn r. eapply (holds_run b_step bglobal blocal bguar fits_b); [apply fits_b_prefix| |apply bguar_stable|by apply ready_holds].
  intros n i w g a l g' l' es new Hi Hg Hl Hf Hs. by eapply b_step_ok.
Qed.
(** * A thread alone *)
Lemma b_pop_alone x n g a es j ops rs : bglobal n g a es -> (S j < n)%nat -> got a (S j) = rel a (S j) ->
  exists k g' l' es', solo b_step (mk_choice false x) k g (mk_b_thread (BPop :: ops) BIdle (2 ^ Z.of_nat j) (rel a (S j)) rs) = Some (g', l', es') /\
    b_at l' = BIdle /\ b_results l' = rs ++ [RBPop (sent es !! length (received (S j) es))].
Proof.
  intros [Hn Hcc Hep Hwt Hb Hrel Hrc Hrc0 Hd Hse Hre] Hj Hg. destruct (Hrel (S j)) as (H0 & H1 & H2); [lia|]. rewrite Hse, Hre by lia. rewrite length_take.
  assert (blen a <= top a) as Htop by (unfold top; destruct (claim a); lia). replace (Z.to_nat (got a (S j)) `min` length (blog a))%nat with (Z.to_nat (rel a (S j))) by (unfold blen in *; lia).
  destruct (decide (rel a (S j) = blen a)) as [E|E].
  - exists 2%nat. eexists _, _, _. exec_b. rewrite Hwt, E, Z.eqb_refl. split; [done|]. split; [done|]. cbn. rewrite lookup_ge_None_2 by (unfold blen; lia). done.
  - destruct (lookup_lt_is_Some_2 (blog a) (Z.to_nat (rel a (S j)))) as [v Hv]; [unfold blen in *; lia|]. rewrite Hv. destruct (Hrc (rel a (S j))) as [Hrg Hbits]; [lia|lia|].
    assert (rc_ (b_elems g (index_of (rel a (S j)))) <> 0) as Hnz.
    { intros Ez. specialize (Hbits (Z.of_nat j)). rewrite Ez, Z.bits_0, Nat2Z.id in Hbits. symmetry in Hbits. apply andb_false_iff in Hbits as [Hx%Z.ltb_ge|Hx%Z.leb_gt]; lia. }
    exists 5%nat. eexists _, _, _. exec_b. rewrite Hwt. pose proof E as ->%Z.eqb_neq. exec_b. rewrite land_mask by done. apply Z.eqb_neq in Hnz as ->. exec_b. rewrite Z.eqb_refl.
    split; [done|]. split; [done|]. cbn. rewrite (Hd (rel a (S j)) v); [done|lia|lia|done].
Qed.

(** The element the sender would use next is free exactly when no receiver is a
    whole ring behind. *)
Lemma next_free n g a es : bglobal n g a es -> claim a = false ->
  0 <= rc_ (b_elems g (index_of (blen a))) < 2 ^ 32 /\
  (Z.land (cc_ g) (rc_ (b_elems g (index_of (blen a)))) = 0 <-> forall j, (0 < j < n)%nat -> blen a < rel a j + 256).
Proof.
  intros [Hn Hcc Hep Hwt Hb Hrel Hrc Hrc0 Hd Hse Hre] Hcl. assert (top a = blen a) as Et by (unfold top; rewrite Hcl; lia). rewrite Et in *. assert (0 <= blen a) by (unfold blen; lia).
  destruct (decide (blen a < 256)) as [Hlt|Hge].
  { rewrite Hrc0 by lia. split; [lia|]. rewrite Z.land_0_r. split; [|done]. intros _ j Hj. destruct (Hrel j Hj). lia. }
  assert (index_of (blen a - 256) = index_of (blen a)) as E by (apply index_of_eq; replace (blen a - 256 - blen a) with (-1 * 256) by lia; by rewrite Z.mod_mul).
  destruct (Hrc (blen a - 256)) as [Hrg Hbits]; [lia|lia|]. rewrite E in Hrg, Hbits. split; [done|]. rewrite <- land_zero_bits, Hcc. split.
  - intros Hz j Hj. specialize (Hz (Z.of_nat (pred j)) ltac:(lia)). rewrite all_bits_test, Hbits in Hz by lia. replace (S (Z.to_nat (Z.of_nat (pred j)))) with j in Hz by lia.
    destruct (Z.ltb_spec (Z.of_nat (pred j)) (Z.of_nat (pred n))); [|lia]. specialize (Hz eq_refl). cbn in Hz. apply Z.leb_gt in Hz. lia.
  - intros Hall b Hb0. rewrite all_bits_test, Hbits by lia. intros Hlt. rewrite Hlt. cbn. apply Z.ltb_lt in Hlt. apply Z.leb_gt. specialize (Hall (S (Z.to_nat b))). lia.
Qed.

(** No receiver is a whole ring behind. *)
Definition room_for_all (n : nat) (es : list (event (b_event V))) : Prop :=
  Forall (fun j => length (sent es) < length (received j es) + 256)%nat (seq 1 (pred n)).

Lemma b_push_alone x n g a es v ops c id rs : bglobal n g a es -> claim a = false -> (1 < n)%nat -> (forall j, (0 < j < n)%nat -> got a j = rel a j) ->
  exists k g' l' es', solo b_step (mk_choice false x) k g (mk_b_thread (BPush v :: ops) BIdle id c rs) = Some (g', l', es') /\
    b_at l' = BIdle /\ exists b, b_results l' = rs ++ [RBPush v b] /\ (b = true <-> room_for_all n es).
Proof.
  intros Hg Hcl Hn1 Hgot. destruct (next_free _ _ _ _ Hg Hcl) as [Hrg Hfree]. destruct Hg as [Hn Hcc Hep Hwt Hb Hrel Hrc Hrc0 Hd Hse Hre].
  assert ((forall j, (0 < j < n)%nat -> blen a < rel a j + 256) <-> room_for_all n es) as Eroom.
  { unfold room_for_all. rewrite list.Forall_forall. split.
    - intros Hall j Hj%elem_of_seq. rewrite Hse, Hre, length_take by lia. specialize (Hall j ltac:(lia)). destruct (Hrel j ltac:(lia)). rewrite Hgot in * by lia. unfold blen in *. lia.
    - intros Hall j Hj. specialize (Hall j). rewrite Hse, Hre, length_take, elem_of_seq in Hall by lia. specialize (Hall ltac:(lia)). destruct (Hrel j ltac:(lia)). rewrite Hgot in * by lia. unfold blen in *. lia. }
  assert ((cc_ g =? 0) = false) as Hcc0.
  { apply Z.eqb_neq. rewrite Hcc. intros E. pose proof (all_bits_test (pred n) 0 ltac:(lia)) as Ht. rewrite E, Z.bits_0 in Ht. symmetry in Ht. apply Z.ltb_ge in Ht. lia. }
  destruct (Z.eqb_spec (Z.land (cc_ g) (rc_ (b_elems g (index_of (blen a))))) 0) as [E|E].
  - exists 8%nat. eexists _, _, _. exec_b. rewrite Hcc0. exec_b. rewrite Hwt, land_mask, E, Z.eqb_refl by done. exec_b. rewrite Z.eqb_refl. exec_b.
    split; [done|]. split; [done|]. exists true. split; [done|]. split; [|done]. intros _. by apply Eroom, Hfree.
  - exists 4%nat. eexists _, _, _. exec_b. rewrite Hcc0. exec_b. rewrite Hwt, land_mask, Hep, land_epoch by done. pose proof E as ->%Z.eqb_neq. change (0 =? 0) with true. exec_b.
    split; [done|]. split; [done|]. exists false. split; [done|]. split; [done|]. intros Hroom. by pose proof (proj2 Hfree (proj2 Eroom Hroom)).
Qed.
Lemma run_length zero vs pops sched : length (b_run (b_ready zero vs pops) sched).1.2 = S (length pops).
Proof.
  apply (sys_run_inv b_step (fun s _ => length s.2 = S (length pops))); [unfold b_ready, connecting; cbn; by rewrite length_imap|].
  intros [g ls] es [i w] E. unfold sys_step. cbn [fst snd] in *. destruct (ls !! i); [|done]. destruct (b_step w g b) as [[[? ?] ?]|]; [|done]. cbn. by rewrite length_insert.
Qed.
End inv.

(** * Claims *)
(** C12: every receiver gets everything. One sender and up to 32 connected
    receivers, in any interleaving, with weak exchanges failing at will and
    elements seen half written, as long as fewer than 2^32 messages are sent:
    what a receiver has read is the beginning of what was sent, untorn and in
    order, and the sender is never more than a ring of 256 ahead of it. When
    nobody is in an operation, a receiver alone reads its next message unless it
    has them all, and the sender alone succeeds exactly when no receiver is a
    whole ring behind. *)
Theorem broadcast_reaches_everyone {V} (zero : V) (vs : list V) (pops : list nat) (sched : list (nat * choice V)) (s : sys (bring V) (b_thread V)) (es : list (event (b_event V))) :
  (0 < length pops <= 32)%nat -> b_run (b_ready zero vs pops) sched = (s, es) -> Z.of_nat (length (sent es)) < 2 ^ 32 ->
  (forall j, (j < length pops)%nat -> received (S j) es `prefix_of` sent es /\ (length (sent es) <= length (received (S j) es) + 256)%nat) /\
  ((forall i l, s.2 !! i = Some l -> b_at l = BIdle) -> forall x i l op ops, s.2 !! i = Some l -> b_todo l = op :: ops ->
    exists k g' l' es' r, solo b_step (mk_choice false x) k s.1 l = Some (g', l', es') /\ b_at l' = BIdle /\ b_results l' = b_results l ++ [r] /\
      match op with
      | BPush v => exists b, r = RBPush v b /\ (b = true <-> room_for_all (S (length pops)) es)
      | _ => r = RBPop (sent es !! length (received i es))
      end).
Proof.
  intros Hn Hrun Hf. pose proof (ready_run zero vs pops sched ltac:(lia)) as Hh. rewrite Hrun in Hh. destruct (Hh Hf) as (a & Hg & Hl). clear Hh. cbn [fst snd] in *.
  assert (length s.2 = S (length pops)) as Hlen by (pose proof (run_length zero vs pops sched) as E; by rewrite Hrun in E).
  rewrite Hlen in Hg. pose proof Hg as [_ _ _ _ _ Hrel _ _ _ Hse Hre]. assert (blen a <= top a) as Htop by (unfold top; destruct (claim a); lia). split.
  - intros j Hj. destruct (Hrel (S j)) as (? & ? & ?); [lia|]. rewrite Hse, Hre by lia. split; [apply prefix_take|]. rewrite length_take. unfold blen in *. lia.
  - intros Hq x i l op ops Hi Hop. pose proof (Hl i l Hi) as Hli. pose proof (Hq i l Hi) as Hidle. apply lookup_lt_Some in Hi as Hlt. rewrite Hlen in Hlt.
    assert (claim a = false) as Hcl.
    { destruct (lookup_lt_is_Some_2 s.2 0) as [l0 Hl0]; [lia|]. destruct (Hl _ _ Hl0) as [_ Hp]. by rewrite (Hq _ _ Hl0) in Hp. }
    assert (forall j, (0 < j < S (length pops))%nat -> got a j = rel a j) as Hgot.
    { intros [|j] Hj; [lia|]. destruct (lookup_lt_is_Some_2 s.2 (S j)) as [lj Hlj]; [lia|]. destruct (Hl _ _ Hlj) as (_ & _ & Hp). rewrite (Hq _ _ Hlj) in Hp. by destruct Hp. }
    destruct l as [todo at_ id c rs]. cbn [b_todo b_at b_results] in *. subst todo at_. destruct i as [|j].
    + destruct Hli as [Ht _]. apply list.Forall_cons in Ht as [Hop _]. destruct op; try done.
      destruct (b_push_alone x _ _ _ _ v ops c id rs Hg Hcl ltac:(lia) Hgot) as (k & g' & l' & es' & Es & Ea & b & Er & Hb). exists k, g', l', es', (RBPush v b). repeat split; try done; [|apply Hb..]. eexists. split; [done|exact Hb].
    + destruct Hli as (Ht & Hid & Hc & _). apply list.Forall_cons in Ht as [Hop _]. destruct op; try done. cbn in Hid, Hc. subst id c.
      destruct (b_pop_alone x _ _ _ _ j ops rs Hg ltac:(lia)) as (k & g' & l' & es' & Es & Ea & Er); [apply Hgot; lia|]. eexists k, g', l', es', _. split; [exact Es|]. split; [done|]. split; [exact Er|done].
Qed.

Definition turns {V} (n i : nat) (x : V) : list (nat * choice V) := replicate n (i, mk_choice false x).
(** Two messages are sent while the first receiver reads one of them; its
    exchange fails once, and the second receiver is in the middle of a pop. *)
Definition demo_rounds : list (nat * choice nat) :=
  turns 7 0 0%nat ++ turns 2 1 0%nat ++ turns 2 0 0%nat ++ turns 6 1 0%nat ++ [(1%nat, mk_choice true 0%nat)] ++ turns 2 1 0%nat ++ turns 7 0 9%nat ++ turns 3 2 0%nat.
Lemma broadcast_reaches_everyone_witness : let r := b_run (b_ready 0%nat [5; 6; 7]%nat [2; 1]%nat) demo_rounds in
  (sent r.2 = [5; 6] /\ received 1 r.2 = [5] /\ received 2 r.2 = [5])%nat /\
  (forall j, (j < 2)%nat -> received (S j) r.2 `prefix_of` sent r.2 /\ (length (sent r.2) <= length (received (S j) r.2) + 256)%nat).
Proof.
  intros r. split; [vm_compute; done|]. apply (broadcast_reaches_everyone 0%nat [5; 6; 7]%nat [2; 1]%nat demo_rounds r.1 r.2); [simpl; lia|apply surjective_pairing|vm_compute; reflexivity].
Defined.

(** A receiver sets its bit before it reads the cursor. A message sent between
    counts it among its readers, and it will never read it: when the sender has
    come round, with all other messages read, it can send no more, and forcing
    takes the receiver off. *)
Definition overtaken : sys (bring nat) (b_thread nat) :=
  (bring_init 0%nat, [b_thread_init (replicate 257 (BPush 0%nat) ++ [BForce 0%nat]); b_thread_init (BConnect :: replicate 256 BPop)]).
Definition overtaking : list (nat * choice nat) :=
  turns 3 1 0%nat ++ turns 8 0 0%nat ++ turns 1 1 0%nat ++ concat (replicate 255 (turns 8 0 0%nat ++ turns 5 1 0%nat)) ++ turns 2 1 0%nat ++ turns 4 0 0%nat.
Lemma overtaken_receiver_stops_sender :
  let r := b_run overtaken overtaking in let r' := b_run r.1 (turns 6 0 0%nat) in
  length (sent r.2) = 256%nat /\ length (received 1 r.2) = 255%nat /\
  (list.last ∘ b_results <$> r.1.2) = [Some (RBPush 0%nat false); Some (RBPop None)] /\
  (list.last ∘ b_results <$> r'.1.2) = [Some (RBPush 0%nat false); Some (RBPop None)] /\ cc_ r.1.1 = 1 /\ cc_ r'.1.1 = 0.
Proof. vm_compute. done. Qed.
