(* ===== verification/BroadcastMulti.v ===== *)
(** The ring of a channel with several senders whose messages go to every
    receiver ([shm-ipc/src/libipc/prod_cons.h], multi-multi-broadcast, the
    transmission of [ipc::channel], with the connections of [circ/elem_def.h]).
    Every access to shared memory is a step of its own. An element carries the
    receivers that have yet to read it, a counter of its changes and the epoch it
    was written in, all in [rc_], and a flag that says which message it holds. *)
From stdpp Require Import prelude list functions.
From Stdlib Require Import ZArith Lia.
From S2P Require Import Prelude Cpp Interleave Ring Broadcast.

Open Scope Z_scope.

(** * The fields of [rc_] *)
Definition rc_mask : Z := 2 ^ 32 - 1.
Definition m_ep_mask : Z := 2 ^ 56 - 1.
Definition m_ep_incr : Z := 2 ^ 56.
Definition ic_mask : Z := not64 (2 ^ 56 - 2 ^ 32).
Definition ic_incr : Z := 2 ^ 32.

Definition inc_rc (rc : Z) : Z := Z.lor (Z.land rc ic_mask) (Z.land (u64 (rc + ic_incr)) (not64 ic_mask)).
Definition inc_mask (rc : Z) : Z := Z.land (inc_rc rc) (not64 rc_mask).

Section broadcast.
Context {V : Type}.

(** * State *)
Record melem := mk_melem { m_data : V; m_rc : Z; m_flag : Z }.
(** [cc_] of [conn_head], [ct_] and [epoch_] of the policy, the elements. *)
Record mring := mk_mring { m_cc : Z; m_ct : Z; m_epoch : Z; m_elems : Z -> melem }.

Definition set_m_cc x (g : mring) := mk_mring x (m_ct g) (m_epoch g) (m_elems g).
Definition set_m_ct x (g : mring) := mk_mring (m_cc g) x (m_epoch g) (m_elems g).
Definition set_m_epoch x (g : mring) := mk_mring (m_cc g) (m_ct g) x (m_elems g).
Definition upd_melem (i : Z) (f : melem -> melem) (g : mring) :=
  mk_mring (m_cc g) (m_ct g) (m_epoch g) (<[i := f (m_elems g i)]> (m_elems g)).
Definition set_m_data (i : Z) (v : V) := upd_melem i (fun e => mk_melem v (m_rc e) (m_flag e)).
Definition set_m_rc (i : Z) (x : Z) := upd_melem i (fun e => mk_melem (m_data e) x (m_flag e)).
Definition set_m_flag (i : Z) (x : Z) := upd_melem i (fun e => mk_melem (m_data e) (m_rc e) x).

Definition mring_init (zero : V) : mring := mk_mring 0 0 0 (fun _ => mk_melem zero 0 0).

(** * Threads *)
Inductive m_pc :=
  | MIdle
  (* push; [inner] when force_push calls it *)
  | MEpoch (v : V) (inner : bool)
  | MLoadCc (v : V) (inner : bool) (epoch : Z)
  | MLoadCt (v : V) (inner : bool) (epoch cc : Z)
  | MLoadRc (v : V) (inner : bool) (epoch cc cur_ct : Z)
  | MLoadFlag (v : V) (inner : bool) (epoch cc cur_ct cur_rc : Z)
  | MCasRc (v : V) (inner : bool) (epoch cc cur_ct cur_rc : Z)
  | MCasEpoch (v : V) (inner : bool) (epoch cur_ct : Z)
  (* the end of push and of force_push *)
  | MStoreCt (v : V) (cur_ct : Z)
  | MBegin (v : V) (cur_ct : Z)
  | MData (v : V) (cur_ct : Z)
  | MFlag (v : V) (cur_ct : Z)
  (* force_push *)
  | FEpoch (v : V)
  | FLoadCc (v : V) (epoch : Z)
  | FLoadCt (v : V) (epoch cc : Z)
  | FLoadRc (v : V) (epoch cc cur_ct : Z)
  | FDisconnect (v : V) (epoch cur_ct cur_rc : Z)
  | FCasRc (v : V) (epoch cc cur_ct cur_rc : Z)
  | FLoadEpoch (v : V) (epoch cur_ct : Z)
  (* pop *)
  | NLoadFlag
  | NRead (i : Z)
  | NLoadRc (v : V) (i : Z)
  | NFlag (v : V) (i cur_rc : Z)
  | NFlagDone (v : V) (i : Z)
  | NCas (v : V) (i cur_rc : Z)
  (* connect *)
  | CLoad
  | CCasCc (curr : Z)
  | CCursor.

(** A queue: what it has to do, its connection and its cursor. *)
Record m_thread := mk_m_thread { m_todo : list (b_op V); m_at : m_pc; m_id : Z; m_cursor : Z; m_results : list (b_result V) }.

Definition m_goto (p : m_pc) (l : m_thread) := mk_m_thread (m_todo l) p (m_id l) (m_cursor l) (m_results l).
Definition m_finish (r : b_result V) (l : m_thread) := mk_m_thread (m_todo l) MIdle (m_id l) (m_cursor l) (m_results l ++ [r]).
Definition set_m_id (c : Z) (p : m_pc) (l : m_thread) := mk_m_thread (m_todo l) p c (m_cursor l) (m_results l).
Definition set_m_cursor (c : Z) (p : m_pc) (l : m_thread) := mk_m_thread (m_todo l) p (m_id l) c (m_results l).

(** [return false] of [push]: inside [force_push] the epoch is raised again. *)
Definition push_fails (v : V) (inner : bool) (l : m_thread) : m_thread :=
  if inner then m_goto (FEpoch v) l else m_finish (RBPush v false) l.

(** [push]. A push takes effect when the commit index moves past its place. *)
Definition m_push_step (w : choice V) (g : mring) (l : m_thread) (p : m_pc) : option (mring * m_thread * list (b_event V)) :=
  match p with
  | MEpoch v inner => Some (g, m_goto (MLoadCc v inner (m_epoch g)) l, [])
  | MLoadCc v inner epoch =>
      if m_cc g =? 0 then Some (g, push_fails v inner l, [])
      else Some (g, m_goto (MLoadCt v inner epoch (m_cc g)) l, [])
  | MLoadCt v inner epoch cc => Some (g, m_goto (MLoadRc v inner epoch cc (m_ct g)) l, [])
  | MLoadRc v inner epoch cc cur_ct =>
      let cur_rc := m_rc (m_elems g (index_of cur_ct)) in
      let rem_cc := Z.land cur_rc rc_mask in
      if negb (Z.land cc rem_cc =? 0) && (Z.land cur_rc (not64 m_ep_mask) =? epoch) then Some (g, push_fails v inner l, [])
      else if rem_cc =? 0 then Some (g, m_goto (MLoadFlag v inner epoch cc cur_ct cur_rc) l, [])
      else Some (g, m_goto (MCasRc v inner epoch cc cur_ct cur_rc) l, [])
  | MLoadFlag v inner epoch cc cur_ct cur_rc =>
      let cur_fl := m_flag (m_elems g (index_of cur_ct)) in
      if negb (cur_fl =? cur_ct) && negb (cur_fl =? 0) then Some (g, push_fails v inner l, [])
      else Some (g, m_goto (MCasRc v inner epoch cc cur_ct cur_rc) l, [])
  | MCasRc v inner epoch cc cur_ct cur_rc =>
      if negb (spurious w) && (m_rc (m_elems g (index_of cur_ct)) =? cur_rc)
      then Some (set_m_rc (index_of cur_ct) (Z.lor (inc_mask (Z.lor epoch (Z.land cur_rc m_ep_mask))) cc) g,
                 m_goto (MCasEpoch v inner epoch cur_ct) l, [])
      else Some (g, m_goto (MLoadCc v inner epoch) l, [])
  (* a failure writes the current epoch to [epoch] *)
  | MCasEpoch v inner epoch cur_ct =>
      if negb (spurious w) && (m_epoch g =? epoch) then Some (g, m_goto (MStoreCt v cur_ct) l, [])
      else Some (g, m_goto (MLoadCc v inner (m_epoch g)) l, [])
  | MStoreCt v cur_ct => Some (set_m_ct (u32 (cur_ct + 1)) g, m_goto (MBegin v cur_ct) l, [EBPush v])
  | MBegin v cur_ct => Some (set_m_data (index_of cur_ct) (torn w) g, m_goto (MData v cur_ct) l, [])
  | MData v cur_ct => Some (set_m_data (index_of cur_ct) v g, m_goto (MFlag v cur_ct) l, [])
  | MFlag v cur_ct => Some (set_m_flag (index_of cur_ct) (not64 cur_ct) g, m_finish (RBPush v true) l, [])
  | _ => None
  end.

(** [force_push]: it raises the epoch and disconnects the receivers that have
    not read the element. *)
Definition m_force_step (w : choice V) (g : mring) (l : m_thread) (p : m_pc) : option (mring * m_thread * list (b_event V)) :=
  match p with
  | FEpoch v => let epoch := u64 (m_epoch g + m_ep_incr) in Some (set_m_epoch epoch g, m_goto (FLoadCc v epoch) l, [])
  | FLoadCc v epoch =>
      if m_cc g =? 0 then Some (g, m_finish (RBPush v false) l, [])
      else Some (g, m_goto (FLoadCt v epoch (m_cc g)) l, [])
  | FLoadCt v epoch cc => Some (g, m_goto (FLoadRc v epoch cc (m_ct g)) l, [])
  | FLoadRc v epoch cc cur_ct =>
      let cur_rc := m_rc (m_elems g (index_of cur_ct)) in
      if negb (Z.land cc (Z.land cur_rc rc_mask) =? 0) then Some (g, m_goto (FDisconnect v epoch cur_ct cur_rc) l, [])
      else Some (g, m_goto (FCasRc v epoch cc cur_ct cur_rc) l, [])
  | FDisconnect v epoch cur_ct cur_rc =>
      let cc := Z.land (m_cc g) (Z.lnot (Z.land cur_rc rc_mask)) in
      if cc =? 0 then Some (set_m_cc cc g, m_finish (RBPush v false) l, [])
      else Some (set_m_cc cc g, m_goto (FCasRc v epoch cc cur_ct cur_rc) l, [])
  | FCasRc v epoch cc cur_ct cur_rc =>
      if negb (spurious w) && (m_rc (m_elems g (index_of cur_ct)) =? cur_rc)
      then Some (set_m_rc (index_of cur_ct) (Z.lor (inc_mask (Z.lor epoch (Z.land cur_rc m_ep_mask))) cc) g,
                 m_goto (FLoadEpoch v epoch cur_ct) l, [])
      else Some (g, m_goto (FLoadCc v epoch) l, [])
  | FLoadEpoch v epoch cur_ct =>
      if epoch =? m_epoch g then Some (g, m_goto (MStoreCt v cur_ct) l, []) else Some (g, m_goto (MEpoch v true) l, [])
  | _ => None
  end.

(** [pop]. The flag that the last reader leaves is computed in 64 bits. *)
Definition m_pop_step (w : choice V) (g : mring) (l : m_thread) (p : m_pc) : option (mring * m_thread * list (b_event V)) :=
  match p with
  | NLoadFlag =>
      let i := index_of (m_cursor l) in
      if negb (m_flag (m_elems g i) =? not64 (m_cursor l)) then Some (g, m_finish (RBPop None) l, [])
      else Some (g, set_m_cursor (u32 (m_cursor l + 1)) (NRead i) l, [])
  | NRead i => let v := m_data (m_elems g i) in Some (g, m_goto (NLoadRc v i) l, [EBPop v])
  | NLoadRc v i =>
      let cur_rc := m_rc (m_elems g i) in
      let rem_cc := Z.land cur_rc rc_mask in
      if rem_cc =? 0 then Some (g, m_goto (NFlagDone v i) l, [])
      else if Z.land rem_cc (Z.lnot (m_id l)) =? 0 then Some (g, m_goto (NFlag v i cur_rc) l, [])
      else Some (g, m_goto (NCas v i cur_rc) l, [])
  | NFlag v i cur_rc => Some (set_m_flag i (u64 (m_cursor l + elem_max - 1)) g, m_goto (NCas v i cur_rc) l, [])
  | NFlagDone v i => Some (set_m_flag i (u64 (m_cursor l + elem_max - 1)) g, m_finish (RBPop (Some v)) l, [])
  | NCas v i cur_rc =>
      if negb (spurious w) && (m_rc (m_elems g i) =? cur_rc)
      then Some (set_m_rc i (Z.land (inc_rc cur_rc) (not64 (m_id l))) g, m_finish (RBPop (Some v)) l, [])
      else Some (g, m_goto (NLoadRc v i) l, [])
  | _ => None
  end.

(** [queue_conn::connect] over [conn_head::connect]. *)
Definition m_conn_step (w : choice V) (g : mring) (l : m_thread) (p : m_pc) : option (mring * m_thread * list (b_event V)) :=
  match p with
  | CLoad =>
      let curr := m_cc g in
      if Z.lor curr (u32 (curr + 1)) =? 0 then Some (g, set_m_id 0 CCursor l, [])
      else Some (g, m_goto (CCasCc curr) l, [])
  | CCasCc curr =>
      let next := Z.lor curr (u32 (curr + 1)) in
      if negb (spurious w) && (m_cc g =? curr) then Some (set_m_cc next g, set_m_id (Z.lxor next curr) CCursor l, [])
      else Some (g, m_goto CLoad l, [])
  | CCursor => if m_id l =? 0 then Some (g, m_goto MIdle l, []) else Some (g, set_m_cursor (m_ct g) MIdle l, [])
  | _ => None
  end.

Definition m_step (w : choice V) (g : mring) (l : m_thread) : option (mring * m_thread * list (b_event V)) :=
  match m_at l with
  | MIdle =>
      match m_todo l with
      | [] => None
      | op :: ops =>
          let start p := Some (g, mk_m_thread ops p (m_id l) (m_cursor l) (m_results l), []) in
          match op with
          | BPush v => start (MEpoch v false)
          | BForce v => start (FEpoch v)
          | BPop => start NLoadFlag
          | BConnect => if negb (m_id l =? 0) then start MIdle else start CLoad
          | BDisconnect =>
              if m_id l =? 0 then start MIdle
              else Some (set_m_cc (Z.land (m_cc g) (Z.lnot (m_id l))) g, mk_m_thread ops MIdle 0 (m_cursor l) (m_results l), [])
          end
      end
  | p =>
      match m_push_step w g l p with
      | Some r => Some r
      | None =>
          match m_force_step w g l p with
          | Some r => Some r
          | None => match m_pop_step w g l p with Some r => Some r | None => m_conn_step w g l p end
          end
      end
  end.

Definition m_run : sys mring m_thread -> list (nat * choice V) -> sys mring m_thread * list (event (b_event V)) := sys_run m_step.
Definition m_thread_init (ops : list (b_op V)) : m_thread := mk_m_thread ops MIdle 0 0 [].
End broadcast.
Arguments melem : clear implicits.
Arguments mring : clear implicits.
Arguments m_pc : clear implicits.
Arguments m_thread : clear implicits.
