(* ===== verification/BroadcastMultiInv.v ===== *)
(** The broadcasting ring of several senders: its invariant. *)
From stdpp Require Import prelude list functions.
From Stdlib Require Import ZArith Lia.
From S2P Require Import Prelude Cpp Interleave Ring RingInv Broadcast BroadcastClaims BroadcastMulti.

Open Scope Z_scope.

#[local] Arguments index_of : simpl never.
#[local] Arguments not64 : simpl never.
#[local] Arguments u32 : simpl never.
#[local] Arguments u64 : simpl never.

(** * The fields of [rc_]: a counter above the bits of the receivers *)
Definition pack (n bits : Z) : Z := n * 2 ^ 32 + bits.

Lemma not64_test x i : 0 <= x < 2 ^ 64 -> 0 <= i -> Z.testbit (not64 x) i = (i <? 64) && negb (Z.testbit x i).
Proof.
  intros Hx Hi. rewrite (not64_land x Hx), Z.land_spec, Z.lnot_spec by done. rewrite andb_comm. f_equal.
  destruct (Z.ltb_spec i 64); [apply Z.ones_spec_low; lia|apply Z.ones_spec_high; lia].
Qed.
Lemma pack_test n bits i : 0 <= n -> 0 <= bits < 2 ^ 32 -> 0 <= i ->
  Z.testbit (pack n bits) i = if i <? 32 then Z.testbit bits i else Z.testbit n (i - 32).
Proof.
  intros Hn Hb Hi. unfold pack. destruct (Z.ltb_spec i 32).
  - rewrite <- (Z.mod_pow2_bits_low (n * 2 ^ 32 + bits) 32) by lia. rewrite Z.add_comm, Z.mod_add by lia. by rewrite Z.mod_small by lia.
  - replace i with (i - 32 + 32) at 1 by lia. rewrite <- Z.div_pow2_bits by lia.
    rewrite Z.div_add_l by lia. by rewrite (Z.div_small bits), Z.add_0_r by lia.
Qed.
Lemma small_test x n i : 0 <= x < 2 ^ n -> 0 <= n <= i -> Z.testbit x i = false.
Proof.
  intros Hx Hi. destruct (Z.eq_dec x 0) as [->|]; [apply Z.bits_0|]. apply Z.bits_above_log2; [lia|].
  apply Z.log2_lt_pow2; [lia|]. assert (2 ^ n <= 2 ^ i) by (apply Z.pow_le_mono_r; lia). lia.
Qed.
Lemma ones_test n i : 0 <= n -> 0 <= i -> Z.testbit (2 ^ n - 1) i = (i <? n).
Proof.
  intros Hn Hi. replace (2 ^ n - 1) with (Z.ones n) by (rewrite Z.ones_equiv; lia).
  destruct (Z.ltb_spec i n); [apply Z.ones_spec_low; lia|apply Z.ones_spec_high; lia].
Qed.

Section fields.
Context (n bits : Z).
Hypothesis Hn : 0 <= n < 2 ^ 24.
Hypothesis Hb : 0 <= bits < 2 ^ 32.

Lemma pack_range : 0 <= pack n bits < 2 ^ 56.
Proof. unfold pack. change (2 ^ 56) with (2 ^ 24 * 2 ^ 32). nia. Qed.
Lemma pack_rem : Z.land (pack n bits) rc_mask = bits.
Proof.
  apply Z.bits_inj'. intros i Hi. unfold rc_mask. rewrite Z.land_spec, ones_test, pack_test by lia.
  destruct (Z.ltb_spec i 32); [by rewrite andb_true_r|]. rewrite andb_false_r. symmetry. apply (small_test _ 32); lia.
Qed.
Lemma pack_epoch : Z.land (pack n bits) (not64 m_ep_mask) = 0.
Proof.
  apply Z.bits_inj'. intros i Hi. unfold m_ep_mask. rewrite Z.land_spec, not64_test, ones_test, Z.bits_0 by lia.
  destruct (Z.ltb_spec i 56); [by rewrite !andb_false_r|]. rewrite (small_test _ 56) by (pose proof pack_range; lia). done.
Qed.
Lemma pack_old : Z.lor 0 (Z.land (pack n bits) m_ep_mask) = pack n bits.
Proof.
  rewrite Z.lor_0_l. apply Z.bits_inj'. intros i Hi. unfold m_ep_mask. rewrite Z.land_spec, ones_test by lia.
  destruct (Z.ltb_spec i 56); [by rewrite andb_true_r|]. rewrite (small_test _ 56) by (pose proof pack_range; lia). done.
Qed.
End fields.

Lemma ic_mask_test i : 0 <= i -> Z.testbit ic_mask i = (i <? 64) && negb ((32 <=? i) && (i <? 56)).
Proof.
  intros Hi. unfold ic_mask. rewrite not64_test by lia. f_equal. f_equal.
  change (2 ^ 56 - 2 ^ 32) with ((2 ^ 24 - 1) * 2 ^ 32). destruct (Z.leb_spec 32 i).
  - rewrite Z.mul_pow2_bits by lia. rewrite ones_test by lia. destruct (Z.ltb_spec (i - 32) 24), (Z.ltb_spec i 56); lia || done.
  - rewrite Z.mul_pow2_bits_low by lia. done.
Qed.

Lemma pack_inc n bits : 0 <= n -> n + 1 < 2 ^ 24 -> 0 <= bits < 2 ^ 32 -> inc_rc (pack n bits) = pack (n + 1) bits.
Proof.
  intros Hn Hn1 Hb. unfold inc_rc, ic_incr. assert (u64 (pack n bits + 2 ^ 32) = pack (n + 1) bits) as ->.
  { replace (pack n bits + 2 ^ 32) with (pack (n + 1) bits) by (unfold pack; lia). unfold u64. apply Z.mod_small.
    pose proof (pack_range (n + 1) bits ltac:(lia) Hb). change (2 ^ 64) with (2 ^ 56 * 256). lia. }
  assert (0 <= ic_mask < 2 ^ 64) as Hic by (by vm_compute).
  apply Z.bits_inj'. intros i Hi. rewrite Z.lor_spec, !Z.land_spec, (not64_test _ _ Hic Hi), ic_mask_test, !pack_test by lia.
  destruct (Z.ltb_spec i 32).
  - assert ((i <? 64) = true) as -> by (apply Z.ltb_lt; lia). assert ((32 <=? i) = false) as -> by (apply Z.leb_gt; lia).
    simpl. by rewrite andb_true_r, andb_false_r, orb_false_r.
  - destruct (Z.ltb_spec i 56).
    + assert ((i <? 64) = true) as -> by (apply Z.ltb_lt; lia). assert ((32 <=? i) = true) as -> by (apply Z.leb_le; lia).
      simpl. by rewrite andb_false_r, andb_true_r.
    + rewrite !(small_test _ 24) by lia. done.
Qed.

Lemma pack_claim n bits cc : 0 <= n -> n + 1 < 2 ^ 24 -> 0 <= bits < 2 ^ 32 -> 0 <= cc < 2 ^ 32 ->
  Z.lor (inc_mask (Z.lor 0 (Z.land (pack n bits) m_ep_mask))) cc = pack (n + 1) cc.
Proof.
  intros Hn Hn1 Hb Hc. rewrite pack_old by lia. unfold inc_mask. rewrite pack_inc by lia.
  apply Z.bits_inj'. intros i Hi. unfold rc_mask. rewrite Z.lor_spec, Z.land_spec, not64_test, ones_test, !pack_test by lia.
  destruct (Z.ltb_spec i 32); [by rewrite !andb_false_r|]. rewrite (small_test cc 32), orb_false_r by lia.
  destruct (Z.ltb_spec i 64); [by rewrite andb_true_r|]. rewrite (small_test _ 24) by lia. done.
Qed.

Lemma pack_release n bits id : 0 <= n -> n + 1 < 2 ^ 24 -> 0 <= bits < 2 ^ 32 -> 0 <= id < 2 ^ 32 ->
  Z.land (inc_rc (pack n bits)) (not64 id) = pack (n + 1) (Z.ldiff bits id).
Proof.
  intros Hn Hn1 Hb Hid. rewrite pack_inc by lia. pose proof (ldiff_range bits id Hb).
  assert (2 ^ 32 < 2 ^ 64) by done.
  apply Z.bits_inj'. intros i Hi. rewrite Z.land_spec, not64_test, !pack_test, Z.ldiff_spec by lia.
  destruct (Z.ltb_spec i 32).
  - assert ((i <? 64) = true) as -> by (apply Z.ltb_lt; lia). done.
  - rewrite (small_test id 32) by lia. destruct (Z.ltb_spec i 64); [by rewrite andb_true_r|]. rewrite (small_test _ 24) by lia. done.
Qed.

Lemma pack_inj n bits n' bits' : 0 <= bits < 2 ^ 32 -> 0 <= bits' < 2 ^ 32 -> pack n bits = pack n' bits' -> n = n' /\ bits = bits'.
Proof. unfold pack. lia. Qed.

(** * How often an element changed

    The numbers below [m] whose place is [x]. *)
Definition laps (m x : Z) : Z := (m + 255 - x) / 256.
Lemma laps_succ m x : 0 <= x < 256 -> laps (m + 1) x = laps m x + (if decide (x = index_of m) then 1 else 0).
Proof. intros Hx. unfold laps, index_of, u8. change (2 ^ 8) with 256. destruct (decide _); lia. Qed.
Lemma laps_mono m m' x : m <= m' -> laps m x <= laps m' x.
Proof. intros Hm. unfold laps. apply Z.div_le_mono; lia. Qed.
Lemma laps_bound m x : 0 <= m -> 0 <= x < 256 -> 0 <= laps m x <= m / 256 + 1.
Proof. intros Hm Hx. unfold laps. lia. Qed.
Lemma index_range c : 0 <= index_of c < 256.
Proof. unfold index_of, u8. change (2 ^ 8) with 256. lia. Qed.

(** The sum of a function over the receivers. *)
Definition total (r : nat) (f : nat -> Z) : Z := foldr Z.add 0 (f <$> seq 0 r).
Lemma total_ext r f f' : (forall j, (j < r)%nat -> f j = f' j) -> total r f = total r f'.
Proof.
  intros Hf. unfold total. f_equal. apply list_fmap_ext. intros i j Hj. apply lookup_seq in Hj as [-> ?]. apply Hf. lia.
Qed.
Lemma total_le r f f' : (forall j, (j < r)%nat -> f j <= f' j) -> total r f <= total r f'.
Proof.
  intros Hf. unfold total. enough (forall k n, (k + n <= r)%nat -> foldr Z.add 0 (f <$> seq k n) <= foldr Z.add 0 (f' <$> seq k n)) as Hg by (by apply Hg).
  intros k n. revert k. induction n as [|n IH]; intros k Hk; cbn; [lia|]. specialize (IH (S k) ltac:(lia)). specialize (Hf k ltac:(lia)). lia.
Qed.
Lemma total_bound r f b : (forall j, (j < r)%nat -> f j <= b) -> total r f <= Z.of_nat r * b.
Proof.
  intros Hf. transitivity (total r (fun _ => b)); [by apply total_le|]. unfold total. clear Hf.
  enough (forall k, foldr Z.add 0 ((fun _ => b) <$> seq k r) = Z.of_nat r * b) as Hg by (rewrite Hg; lia).
  induction r as [|r IH]; intros k; [done|]. cbn. cbn in IH. rewrite IH. lia.
Qed.
Lemma total_nonneg r f : (forall j, (j < r)%nat -> 0 <= f j) -> 0 <= total r f.
Proof. intros Hf. etransitivity; [|apply (total_le r (fun _ => 0)); exact Hf]. unfold total. generalize 0%nat. induction r; intros k; cbn; [lia|]. apply IHr. intros; apply Hf; lia. Qed.
(** One receiver's part grows. *)
Lemma total_bump r f f' j d : (j < r)%nat -> f' j = f j + d -> (forall i, i <> j -> f' i = f i) -> total r f' = total r f + d.
Proof.
  intros Hj Ed Ho. unfold total. enough (forall k n, foldr Z.add 0 (f' <$> seq k n) = foldr Z.add 0 (f <$> seq k n) + (if decide (k <= j < k + n)%nat then d else 0)) as Hg.
  { rewrite Hg. rewrite decide_True by lia. done. }
  intros k n. revert k. induction n as [|n IH]; intros k; cbn [seq fmap list_fmap foldr]; [rewrite decide_False by lia; lia|].
  rewrite IH. destruct (decide (k = j)) as [->|Hne].
  - rewrite Ed. rewrite decide_False, decide_True by lia. lia.
  - rewrite Ho by done. destruct (decide (S k <= j < S k + n)%nat), (decide (k <= j < k + S n)%nat); lia.
Qed.

Section inv.
Context {V : Type} (s r : nat).
Implicit Types (g : mring V) (l : m_thread V).

(** * Invariant *)
(** What was sent, in the order of the places; whether the next place is claimed,
    and by whom (nobody, when the claim was abandoned); who is writing a message;
    how many messages each receiver has let go, and how many it has read. *)
Record mghost := mk_mghost { mlog : list V; mclaim : bool; mowner : option nat; writer : Z -> option nat; mrel : nat -> Z; mgot : nat -> Z }.
Definition mlen (a : mghost) : Z := Z.of_nat (length (mlog a)).
Definition mtop (a : mghost) : Z := mlen a + (if mclaim a then 1 else 0).
(** The changes of the counter of a place: every claim and every release. *)
Definition changes (a : mghost) (x : Z) : Z := laps (mtop a) x + total r (fun j => laps (mrel a j) x).

(** The receivers that have yet to let message [k] go. *)
Definition waited (a : mghost) (k bits : Z) : Prop :=
  0 <= bits < 2 ^ 32 /\ forall b, 0 <= b -> Z.testbit bits b = ((b <? Z.of_nat r) && (mrel a (Z.to_nat b) <=? k)).
Definition all_let_go (a : mghost) (k : Z) : Prop := forall j, (j < r)%nat -> k < mrel a j.
Definition written (a : mghost) (k : Z) : Prop := k < mlen a /\ writer a k = None.
(** What the flag of the place of message [k] says. *)
Definition flag_ok (a : mghost) (k fl : Z) : Prop :=
  (written a k -> (fl = not64 k /\ ~ all_let_go a k) \/ (fl = k + 256 /\ forall j, (j < r)%nat -> k < mgot a j)) /\
  (~ written a k -> fl = k \/ (fl = 0 /\ k < 256)).

Record mglobal g (a : mghost) (es : list (event (b_event V))) : Prop := {
  mk_r : (0 < r <= 32)%nat;
  mk_cc : m_cc g = all_bits r;
  mk_epoch : m_epoch g = 0;
  mk_ct : m_ct g = mlen a;
  mk_bound : mlen a < 2 ^ 26;
  mk_rel j : (j < r)%nat -> 0 <= mrel a j /\ mtop a - 256 <= mrel a j <= mgot a j /\ mgot a j <= mlen a;
  mk_read k j : (j < r)%nat -> k < mgot a j -> writer a k = None;
  mk_writer k i : writer a k = Some i -> 0 <= k < mlen a /\ (i < s)%nat;
  mk_owner i : mowner a = Some i -> mclaim a = true /\ (i < s)%nat;
  mk_rc k : 0 <= k < mtop a -> mtop a - 256 <= k ->
    exists bits, m_rc (m_elems g (index_of k)) = pack (changes a (index_of k)) bits /\ waited a k bits;
  mk_rc0 k : mtop a <= k < 256 -> m_rc (m_elems g (index_of k)) = 0;
  mk_flag k : 0 <= k < mtop a -> mtop a - 256 <= k -> flag_ok a k (m_flag (m_elems g (index_of k)));
  mk_flag0 k : mtop a <= k < 256 -> m_flag (m_elems g (index_of k)) = 0;
  mk_data k v : 0 <= k -> written a k -> mtop a - 256 <= k -> mlog a !! Z.to_nat k = Some v -> m_data (m_elems g (index_of k)) = v;
  mk_sent : sent es = mlog a;
  mk_received j : (j < r)%nat -> received (s + j) es = take (Z.to_nat (mgot a j)) (mlog a) }.

(** * Threads: first the senders, then the receivers *)
(** What a sender knows of the word it read: it is the word, as long as the
    element did not change. *)
Definition seen g (a : mghost) (c rc : Z) (P : Prop) : Prop :=
  0 <= c <= mlen a /\ exists n, rc = pack n 0 /\ 0 <= n <= changes a (index_of c) /\ (changes a (index_of c) = n -> P).

Definition m_sender_at (i : nat) g (a : mghost) (p : m_pc V) : Prop :=
  match p with
  | MIdle | MEpoch _ false => True
  | MLoadCc _ false e => e = 0
  | MLoadCt _ false e cc => e = 0 /\ cc = all_bits r
  | MLoadRc _ false e cc c => e = 0 /\ cc = all_bits r /\ 0 <= c <= mlen a
  | MLoadFlag _ false e cc c rc => e = 0 /\ cc = all_bits r /\ seen g a c rc (m_rc (m_elems g (index_of c)) = rc)
  | MCasRc _ false e cc c rc => e = 0 /\ cc = all_bits r /\ seen g a c rc (mclaim a = false /\ mlen a = c)
  | MCasEpoch _ false e c => e = 0 /\ mclaim a = true /\ mowner a = Some i /\ c = mlen a
  | MStoreCt _ c => mclaim a = true /\ mowner a = Some i /\ c = mlen a
  | MBegin v c | MData v c => writer a c = Some i /\ mlog a !! Z.to_nat c = Some v
  | MFlag v c => writer a c = Some i /\ mlog a !! Z.to_nat c = Some v /\ m_data (m_elems g (index_of c)) = v
  | _ => False
  end.

Definition others_let_go (j : nat) (a : mghost) : Prop := forall j', (j' < r)%nat -> j' <> j -> mrel a j < mrel a j'.

Definition m_receiver_at (j : nat) g (a : mghost) (cur : Z) (p : m_pc V) : Prop :=
  match p with
  | MIdle | NLoadFlag => cur = mrel a j /\ mgot a j = mrel a j
  | NRead x => x = index_of (mrel a j) /\ cur = mrel a j + 1 /\ mgot a j = mrel a j /\ written a (mrel a j)
  | NLoadRc _ x => x = index_of (mrel a j) /\ cur = mrel a j + 1 /\ mgot a j = mrel a j + 1
  | NFlag _ x rc => x = index_of (mrel a j) /\ cur = mrel a j + 1 /\ mgot a j = mrel a j + 1 /\ others_let_go j a /\
      exists n bits, rc = pack n bits /\ 0 <= bits < 2 ^ 32 /\ n <= changes a x
  | NCas _ x rc => x = index_of (mrel a j) /\ cur = mrel a j + 1 /\ mgot a j = mrel a j + 1 /\
      exists n bits, rc = pack n bits /\ 0 <= bits < 2 ^ 32 /\ n <= changes a x /\
        (changes a x = n -> others_let_go j a -> m_flag (m_elems g x) = mrel a j + 256)
  | _ => False
  end.

Definition writing (c : Z) (p : m_pc V) : Prop := match p with MBegin _ c' | MData _ c' | MFlag _ c' => c' = c | _ => False end.

Definition claiming (p : m_pc V) : Prop := match p with MCasEpoch _ _ _ _ | MStoreCt _ _ => True | _ => False end.

Definition mlocal (i : nat) g (a : mghost) l : Prop :=
  if decide (i < s)%nat then Forall only_push (m_todo l) /\ m_sender_at i g a (m_at l) /\ (forall c, writer a c = Some i -> writing c (m_at l)) /\
    (mowner a = Some i -> claiming (m_at l))
  else Forall only_pop (m_todo l) /\ (i - s < r)%nat /\ m_id l = 2 ^ Z.of_nat (i - s) /\ m_receiver_at (i - s) g a (m_cursor l) (m_at l).

(** * What a step of one thread may change for the others *)
Record mguar (i : nat) g (a : mghost) g' (a' : mghost) : Prop := {
  mg_log : mlog a `prefix_of` mlog a';
  mg_other j : (j < r)%nat -> i <> (s + j)%nat -> mrel a' j = mrel a j /\ mgot a' j = mgot a j;
  mg_rel j : mrel a j <= mrel a' j;
  mg_changes x : 0 <= x < 256 -> changes a x <= changes a' x;
  mg_rc x : 0 <= x < 256 -> changes a' x = changes a x -> m_rc (m_elems g' x) = m_rc (m_elems g x);
  mg_claim : mclaim a = false -> changes a' (index_of (mlen a)) = changes a (index_of (mlen a)) -> mclaim a' = false /\ mlen a' = mlen a;
  mg_let k j : (j < r)%nat -> mrel a j <= k < mrel a' j -> changes a (index_of k) < changes a' (index_of k);
  mg_owner i' : i' <> i -> mowner a = Some i' -> mclaim a = true -> mowner a' = Some i' /\ mclaim a' = true /\ mlen a' = mlen a;
  mg_writer k i' : i' <> i -> writer a k = Some i' -> writer a' k = Some i' /\ m_data (m_elems g' (index_of k)) = m_data (m_elems g (index_of k));
  mg_writes k i' : i' <> i -> writer a' k = Some i' -> writer a k = Some i';
  mg_owns i' : i' <> i -> mowner a' = Some i' -> mowner a = Some i';
  mg_written k : written a k -> written a' k;
  mg_flag j : (j < r)%nat -> i <> (s + j)%nat -> mgot a j = mrel a j + 1 ->
    m_flag (m_elems g' (index_of (mrel a j))) = m_flag (m_elems g (index_of (mrel a j))) }.

Lemma mlen_prefix a a' : mlog a `prefix_of` mlog a' -> mlen a <= mlen a'.
Proof. intros Hp. apply prefix_length in Hp. unfold mlen. lia. Qed.

Lemma seen_stable i g a g' a' c rc (P P' : Prop) : mguar i g a g' a' -> seen g a c rc P ->
  (0 <= c <= mlen a -> changes a (index_of c) = changes a' (index_of c) -> P -> P') -> seen g' a' c rc P'.
Proof.
  intros Hg (Hc & n & Hrc & Hn & HP) Himp. pose proof (mlen_prefix _ _ (mg_log _ _ _ _ _ Hg)).
  pose proof (mg_changes _ _ _ _ _ Hg (index_of c) (index_range c)). split; [lia|]. exists n. split; [done|]. split; [lia|].
  intros E. apply Himp; [done|lia|]. apply HP. lia.
Qed.

Lemma mguar_stable i k g a g' a' l : i <> k -> mguar i g a g' a' -> mlocal k g a l -> mlocal k g' a' l.
Proof.
  intros Hne Hg. pose proof Hg as [Hlog Hoth Hrel Hch Hrc Hcl Hlet Hown Hwr Hws Hos Hwn Hfl]. pose proof (mlen_prefix _ _ Hlog) as Hlen.
  unfold mlocal. destruct (decide (k < s)%nat) as [Hk|Hk].
  - intros (Ht & Hat & Hwg & Hcg). split; [done|]. split; [|split; [intros c Hc; apply Hwg, Hws; [by apply not_eq_sym|done]|intros Ho; apply Hcg, Hos; [by apply not_eq_sym|done]]]. destruct (m_at l); try done; cbn [m_sender_at] in *; try (destruct inner; [done|]); try done.
    + destruct Hat as (-> & -> & ?). split; [done|]. split; [done|lia].
    + destruct Hat as (-> & -> & Hs). split; [done|]. split; [done|]. eapply seen_stable; [exact Hg|exact Hs|].
      intros _ E <-. apply Hrc; [apply index_range|done].
    + destruct Hat as (-> & -> & Hs). split; [done|]. split; [done|]. eapply seen_stable; [exact Hg|exact Hs|].
      intros _ E [H1 <-]. by apply Hcl.
    + destruct Hat as (-> & ? & Ho & ->). destruct (Hown k) as (? & ? & ?); done.
    + destruct Hat as (? & Ho & ->). destruct (Hown k) as (? & ? & ?); done.
    + destruct Hat as [Hw Hv]. destruct (Hwr _ k (not_eq_sym Hne) Hw) as [? _]. split; [done|]. by eapply prefix_lookup_Some.
    + destruct Hat as [Hw Hv]. destruct (Hwr _ k (not_eq_sym Hne) Hw) as [? _]. split; [done|]. by eapply prefix_lookup_Some.
    + destruct Hat as (Hw & Hv & <-). destruct (Hwr _ k (not_eq_sym Hne) Hw) as [? ?]. split; [done|]. split; [by eapply prefix_lookup_Some|done].
  - intros (Ht & Hj & Hid & Hat). split; [done|]. split; [done|]. split; [done|]. set (j := (k - s)%nat) in *.
    destruct (Hoth j Hj) as [Er Eg]; [lia|].
    assert (others_let_go j a -> others_let_go j a') as Hogo.
    { intros Ho j' Hj' Hn. rewrite Er. specialize (Ho j' Hj' Hn). specialize (Hrel j'). lia. }
    destruct (m_at l); try done; cbn [m_receiver_at] in *; rewrite ?Er, ?Eg; try done.
    + destruct Hat as (? & ? & ? & ?). auto.
    + destruct Hat as (-> & ? & ? & ? & n & bits & ? & ? & ?). pose proof (Hch (index_of (mrel a j)) (index_range _)).
      split; [done|]. split; [done|]. split; [done|]. split; [auto|]. exists n, bits. split; [done|]. split; [done|lia].
    + destruct Hat as (-> & Hc & Hgot & n & bits & Hrc' & Hb & Hn & Himp). split; [done|]. split; [done|]. split; [done|].
      pose proof (Hch (index_of (mrel a j)) (index_range _)). exists n, bits. split; [done|]. split; [done|]. split; [lia|].
      intros E Ho. rewrite (Hfl j Hj) by (done || lia). apply Himp; [lia|]. intros j' Hj' Hn'. specialize (Ho j' Hj' Hn'). rewrite Er in Ho.
      destruct (decide (mrel a j < mrel a j')) as [|Hge]; [done|]. exfalso. specialize (Hlet (mrel a j) j' Hj'). lia.
Qed.

(** * Elements *)
Lemma upd_melem_at i f g y : m_elems (upd_melem i f g) y = if decide (y = i) then f (m_elems g i) else m_elems g y.
Proof. cbn. unfold insert, fn_insert. destruct (decide (i = y)) as [->|Hne]; [by rewrite decide_True|by rewrite decide_False]. Qed.
Lemma at_rc_rc i x g y : m_rc (m_elems (set_m_rc i x g) y) = if decide (y = i) then x else m_rc (m_elems g y).
Proof. unfold set_m_rc. rewrite upd_melem_at. by destruct (decide (y = i)) as [->|]. Qed.
Lemma at_rc_flag i x g y : m_flag (m_elems (set_m_rc i x g) y) = m_flag (m_elems g y).
Proof. unfold set_m_rc. rewrite upd_melem_at. by destruct (decide (y = i)) as [->|]. Qed.
Lemma at_rc_data i x g y : m_data (m_elems (set_m_rc i x g) y) = m_data (m_elems g y).
Proof. unfold set_m_rc. rewrite upd_melem_at. by destruct (decide (y = i)) as [->|]. Qed.
Lemma at_flag_rc i x g y : m_rc (m_elems (set_m_flag i x g) y) = m_rc (m_elems g y).
Proof. unfold set_m_flag. rewrite upd_melem_at. by destruct (decide (y = i)) as [->|]. Qed.
Lemma at_flag_flag i x g y : m_flag (m_elems (set_m_flag i x g) y) = if decide (y = i) then x else m_flag (m_elems g y).
Proof. unfold set_m_flag. rewrite upd_melem_at. by destruct (decide (y = i)) as [->|]. Qed.
Lemma at_flag_data i x g y : m_data (m_elems (set_m_flag i x g) y) = m_data (m_elems g y).
Proof. unfold set_m_flag. rewrite upd_melem_at. by destruct (decide (y = i)) as [->|]. Qed.
Lemma at_data_rc i x g y : m_rc (m_elems (set_m_data i x g) y) = m_rc (m_elems g y).
Proof. unfold set_m_data. rewrite upd_melem_at. by destruct (decide (y = i)) as [->|]. Qed.
Lemma at_data_flag i x g y : m_flag (m_elems (set_m_data i x g) y) = m_flag (m_elems g y).
Proof. unfold set_m_data. rewrite upd_melem_at. by destruct (decide (y = i)) as [->|]. Qed.
Lemma at_data_data i x g y : m_data (m_elems (set_m_data i x g) y) = if decide (y = i) then x else m_data (m_elems g y).
Proof. unfold set_m_data. rewrite upd_melem_at. by destruct (decide (y = i)) as [->|]. Qed.
Create Rewrite HintDb melem.
#[local] Hint Rewrite at_rc_rc at_rc_flag at_rc_data at_flag_rc at_flag_flag at_flag_data at_data_rc at_data_flag at_data_data : melem.
(** The elements after a store. *)
Ltac at_store := autorewrite with melem.

Lemma same_place a k k' : mtop a - 256 <= k < mtop a -> mtop a - 256 <= k' < mtop a -> index_of k = index_of k' -> k = k'.
Proof. intros H1 H2 E. eapply (index_of_inj (mtop a - 256)); [lia|lia|done]. Qed.
Lemma mlen_nonneg a : 0 <= mlen a.
Proof. unfold mlen. lia. Qed.
Lemma mtop_range a : mlen a <= mtop a <= mlen a + 1.
Proof. unfold mtop. destruct (mclaim a); lia. Qed.

(** The counter stays far below its 24 bits. *)
Lemma changes_bound g a es x : mglobal g a es -> 0 <= x < 256 -> 0 <= changes a x /\ changes a x + 1 < 2 ^ 24.
Proof.
  intros Hg Hx. pose proof (mk_bound _ _ _ Hg). pose proof (mk_r _ _ _ Hg). pose proof (mlen_nonneg a). pose proof (mtop_range a).
  assert (forall j, (j < r)%nat -> 0 <= laps (mrel a j) x <= 2 ^ 18 + 1) as Hl.
  { intros j Hj. destruct (mk_rel _ _ _ Hg j Hj) as (? & ? & ?). pose proof (laps_bound (mrel a j) x ltac:(lia) Hx). split; [lia|].
    transitivity (mrel a j / 256 + 1); [lia|]. assert (mrel a j / 256 <= 2 ^ 18); [|lia]. apply Z.div_le_upper_bound; lia. }
  pose proof (laps_bound (mtop a) x ltac:(lia) Hx) as Ht. assert (mtop a / 256 <= 2 ^ 18) by (apply Z.div_le_upper_bound; lia).
  unfold changes. assert (0 <= total r (fun j => laps (mrel a j) x)) by (apply total_nonneg; intros j Hj; apply Hl, Hj).
  assert (total r (fun j => laps (mrel a j) x) <= Z.of_nat r * (2 ^ 18 + 1)) by (apply total_bound; intros j Hj; apply Hl, Hj). lia.
Qed.

(** * Changes of the ghost state *)
Definition g_claim (i : nat) (a : mghost) := mk_mghost (mlog a) true (Some i) (writer a) (mrel a) (mgot a).
Definition g_abandon (a : mghost) := mk_mghost (mlog a) (mclaim a) None (writer a) (mrel a) (mgot a).
Definition g_place (i : nat) (v : V) (a : mghost) := mk_mghost (mlog a ++ [v]) false None (<[mlen a := Some i]> (writer a)) (mrel a) (mgot a).
Definition g_commit (c : Z) (a : mghost) := mk_mghost (mlog a) (mclaim a) (mowner a) (<[c := None]> (writer a)) (mrel a) (mgot a).
Definition g_read (j : nat) (a : mghost) := mk_mghost (mlog a) (mclaim a) (mowner a) (writer a) (mrel a) (<[j := mgot a j + 1]> (mgot a)).
Definition g_let (j : nat) (a : mghost) := mk_mghost (mlog a) (mclaim a) (mowner a) (writer a) (<[j := mrel a j + 1]> (mrel a)) (mgot a).

Lemma fn_at {K} `{EqDecision K} {A} (f : K -> A) k x k' : (<[k := x]> f : K -> A) k' = if decide (k' = k) then x else f k'.
Proof. unfold insert, fn_insert. destruct (decide (k = k')) as [->|Hne]; [by rewrite decide_True|by rewrite decide_False]. Qed.

Lemma claim_changes i a x : mclaim a = false -> 0 <= x < 256 ->
  changes (g_claim i a) x = changes a x + (if decide (x = index_of (mlen a)) then 1 else 0).
Proof.
  intros Hcl Hx. unfold changes. assert (mtop (g_claim i a) = mtop a + 1) as -> by (unfold mtop; rewrite Hcl; simpl; change (mlen (g_claim i a)) with (mlen a); lia).
  rewrite laps_succ by done. assert (mtop a = mlen a) as -> by (unfold mtop; rewrite Hcl; lia). cbn [g_claim mrel]. lia.
Qed.
Lemma let_changes j a x : (j < r)%nat -> 0 <= x < 256 ->
  changes (g_let j a) x = changes a x + (if decide (x = index_of (mrel a j)) then 1 else 0).
Proof.
  intros Hj Hx. unfold changes. change (mtop (g_let j a)) with (mtop a). cbn [g_let mrel].
  rewrite (total_bump r (fun j => laps (mrel a j) x) _ j (if decide (x = index_of (mrel a j)) then 1 else 0)); [lia|done| |].
  - rewrite fn_at, decide_True by done. by apply laps_succ.
  - intros i Hi. by rewrite fn_at, decide_False.
Qed.
(** * What the word and the flag of a place say *)
Lemma place_cases a x : 0 <= x < 256 -> (exists k, 0 <= k < mtop a /\ mtop a - 256 <= k /\ index_of k = x) \/ mtop a <= x.
Proof.
  intros Hx. destruct (decide (mtop a <= x)); [by right|]. left. exists (mtop a - 1 - (mtop a - 1 - x) mod 256).
  unfold index_of, u8. change (2 ^ 8) with 256. pose proof (Z.mod_pos_bound (mtop a - 1 - x) 256 ltac:(lia)).
  assert ((mtop a - 1 - x) mod 256 <= mtop a - 1 - x) by (apply Z.mod_le; lia). split; [lia|]. split; [lia|].
  pose proof (Z.div_mod (mtop a - 1 - x) 256 ltac:(lia)).
  replace (mtop a - 1 - (mtop a - 1 - x) mod 256) with (x + (mtop a - 1 - x) / 256 * 256) by lia. rewrite Z.mod_add by lia. apply Z.mod_small. lia.
Qed.
Lemma index_small x : 0 <= x < 256 -> index_of x = x.
Proof. intros Hx. unfold index_of, u8. change (2 ^ 8) with 256. apply Z.mod_small. lia. Qed.
Lemma index_eq k c : index_of k = index_of c -> (k - c) mod 256 = 0.
Proof. apply index_of_eq. Qed.

Lemma rc_at g a es x : mglobal g a es -> 0 <= x < 256 -> exists bits, m_rc (m_elems g x) = pack (changes a x) bits /\ 0 <= bits < 2 ^ 32 /\
  ((exists k, 0 <= k < mtop a /\ mtop a - 256 <= k /\ index_of k = x /\ waited a k bits) \/ (mtop a <= x /\ bits = 0)).
Proof.
  intros Hg Hx. destruct (place_cases a x Hx) as [(k & Hk & Hw & <-)|Ht].
  - destruct (mk_rc _ _ _ Hg k Hk Hw) as (bits & E & Hb). exists bits. split; [done|]. split; [apply Hb|]. left. by exists k.
  - exists 0. split; [|split; [lia|by right]]. rewrite <- (index_small x Hx), (mk_rc0 _ _ _ Hg) by lia. rewrite index_small by lia.
    assert (changes a x = 0) as ->; [|done]. pose proof (mtop_range a). pose proof (mlen_nonneg a).
    assert (forall m, 0 <= m <= x -> laps m x = 0) as Hl by (intros m Hm; unfold laps; apply Z.div_small; lia).
    unfold changes. rewrite Hl by lia. rewrite (total_ext _ _ (fun _ => 0)).
    + enough (total r (fun _ => 0) <= 0 /\ 0 <= total r (fun _ => 0)) by lia. split; [|apply total_nonneg; lia].
      pose proof (total_bound r (fun _ => 0) 0 ltac:(lia)). lia.
    + intros j Hj. destruct (mk_rel _ _ _ Hg j Hj) as (? & ? & ?). apply Hl. lia.
Qed.

Lemma waited_none a k : waited a k 0 -> all_let_go a k.
Proof.
  intros [_ Hb] j Hj. specialize (Hb (Z.of_nat j) ltac:(lia)). rewrite Z.bits_0, Nat2Z.id in Hb.
  symmetry in Hb. apply andb_false_iff in Hb as [Hb%Z.ltb_ge|Hb%Z.leb_gt]; lia.
Qed.
Lemma read_written g a es k : mglobal g a es -> (forall j, (j < r)%nat -> k < mgot a j) -> written a k.
Proof.
  intros Hg Hk. pose proof (mk_r _ _ _ Hg). assert (0 < r)%nat as H0 by lia. destruct (mk_rel _ _ _ Hg 0%nat H0) as (? & ? & ?).
  specialize (Hk 0%nat H0). split; [lia|]. by eapply (mk_read _ _ _ Hg _ 0%nat).
Qed.
Lemma let_go_read g a es k : mglobal g a es -> all_let_go a k -> forall j, (j < r)%nat -> k < mgot a j.
Proof. intros Hg Hk j Hj. destruct (mk_rel _ _ _ Hg j Hj) as (? & ? & ?). specialize (Hk j Hj). lia. Qed.

(** A word without readers and a flag that lets the place go: the place is the
    next one, and nobody has claimed it. *)
Lemma place_is_free g a es c n : mglobal g a es -> 0 <= c <= mlen a -> m_rc (m_elems g (index_of c)) = pack n 0 ->
  m_flag (m_elems g (index_of c)) = c \/ m_flag (m_elems g (index_of c)) = 0 -> mclaim a = false /\ mlen a = c.
Proof.
  intros Hg Hc Hrc Hfl. pose proof (mtop_range a). assert (mtop a <= c -> mclaim a = false /\ mlen a = c) as Hend.
  { unfold mtop in *. destruct (mclaim a); intros; [lia|]. split; [done|lia]. }
  destruct (rc_at g a es _ Hg (index_range c)) as (bits & E & Hb & [(k & Hk & Hw & Ei & Hwt)|[Ht _]]).
  - rewrite E in Hrc. apply pack_inj in Hrc as [_ ->]; [|lia..]. apply waited_none in Hwt. pose proof (let_go_read _ _ _ _ Hg Hwt) as Hr.
    destruct (mk_flag _ _ _ Hg k Hk Hw) as [Hf _]. rewrite Ei in Hf. destruct (Hf (read_written _ _ _ _ Hg Hr)) as [[_ Hn]|[E2 _]]; [done|].
    apply Hend. lia.
  - apply Hend. pose proof (index_range c). transitivity (index_of c); [done|]. unfold index_of, u8 in *. change (2 ^ 8) with 256 in *. apply Z.mod_le; lia.
Qed.

(** When the next place is free, every receiver is less than a ring behind. *)
Lemma room g a es n : mglobal g a es -> mclaim a = false -> m_rc (m_elems g (index_of (mlen a))) = pack n 0 ->
  n = changes a (index_of (mlen a)) /\ (forall j, (j < r)%nat -> mlen a + 1 - 256 <= mrel a j) /\
  (m_flag (m_elems g (index_of (mlen a))) = mlen a \/ (m_flag (m_elems g (index_of (mlen a))) = 0 /\ mlen a < 256)).
Proof.
  intros Hg Hcl Hrc. pose proof (mlen_nonneg a). assert (mtop a = mlen a) as Et by (unfold mtop; rewrite Hcl; lia).
  destruct (rc_at g a es _ Hg (index_range (mlen a))) as (bits & E & Hb & Hcase). rewrite E in Hrc. apply pack_inj in Hrc as [-> ->]; [|lia..].
  split; [done|]. destruct Hcase as [(k & Hk & Hw & Ei & Hwt)|[Ht _]].
  - apply waited_none in Hwt. assert (k = mlen a - 256) as ->. { apply index_eq in Ei. lia. }
    split; [intros j Hj; specialize (Hwt j Hj); lia|]. left. destruct (mk_flag _ _ _ Hg _ Hk Hw) as [Hf _]. rewrite Ei in Hf.
    destruct (Hf (read_written _ _ _ _ Hg (let_go_read _ _ _ _ Hg Hwt))) as [[_ Hn]|[-> _]]; [done|lia].
  - assert (mlen a < 256) by (pose proof (index_range (mlen a)); lia). split.
    + intros j Hj. destruct (mk_rel _ _ _ Hg j Hj). lia.
    + right. split; [|done]. apply (mk_flag0 _ _ _ Hg). lia.
Qed.
(** * Steps of a sender *)
Lemma claim_keeps i g a es n : mglobal g a es -> (i < s)%nat -> mclaim a = false -> m_rc (m_elems g (index_of (mlen a))) = pack n 0 ->
  let g' := set_m_rc (index_of (mlen a)) (pack (n + 1) (all_bits r)) g in
  mglobal g' (g_claim i a) es /\ mguar i g a g' (g_claim i a).
Proof.
  intros Hg His Hcl Hrc g'. pose proof (mlen_nonneg a). destruct (room _ _ _ _ Hg Hcl Hrc) as (-> & Hroom & Hflag).
  assert (mtop a = mlen a) as Et by (unfold mtop; rewrite Hcl; lia). assert (mtop (g_claim i a) = mlen a + 1) as Et' by done.
  pose proof Hg as [Hr Hcc Hep Hct Hb Hrel Hrd Hwt Hown Hw Hw0 Hf Hf0 Hd Hs Hre]. subst g'. rewrite Et in *.
  assert (forall k, k <> mlen a -> mlen a + 1 - 256 <= k < mlen a + 1 -> index_of k <> index_of (mlen a)) as Hother.
  { intros k Hne Hk E. apply Hne. apply (index_of_inj (mlen a + 1 - 256)); [lia|lia|done]. }
  assert (forall k, mlen a < k < 256 -> index_of k <> index_of (mlen a)) as Hlater.
  { intros k Hk E. apply (index_of_inj 0) in E; lia. }
  split; [split; try done|].
  - rewrite Et'. intros j Hj. specialize (Hroom j Hj). destruct (Hrel j Hj) as (? & ? & ?). cbn [g_claim mrel mgot]. change (mlen (g_claim i a)) with (mlen a). lia.
  - by intros i' [= <-].
  - rewrite Et'. intros k Hk Hk'. at_store.
    rewrite claim_changes by (done || apply index_range). destruct (decide (k = mlen a)) as [->|Hne].
    + rewrite !decide_True by done. exists (all_bits r). split; [done|]. split; [apply all_bits_range; lia|]. intros b Hb0. rewrite all_bits_test by done.
      destruct (Z.ltb_spec b (Z.of_nat r)) as [Hlt|]; [|done]. cbn [andb g_claim mrel]. symmetry. apply Z.leb_le. destruct (Hrel (Z.to_nat b)) as (? & ? & ?); lia.
    + rewrite !decide_False by (apply Hother; lia). rewrite Z.add_0_r. apply Hw; lia.
  - rewrite Et'. intros k Hk. at_store.
    rewrite decide_False by (apply Hlater; lia). apply Hw0. lia.
  - rewrite Et'. intros k Hk Hk'. at_store.
    destruct (decide (k = mlen a)) as [->|Hne]; [|apply Hf; lia]. split; [intros [? _]; change (mlen (g_claim i a)) with (mlen a) in *; lia|intros _; exact Hflag].
  - rewrite Et'. intros k Hk. at_store. apply Hf0. lia.
  - rewrite Et'. intros k v Hk Hwn Hk' Hv. at_store. apply Hd; [done..|lia|done].
  - split; try done.
    + intros x Hx. rewrite claim_changes by done. destruct (decide _); lia.
    + intros x Hx. rewrite claim_changes by done. intros E.
      at_store.
      destruct (decide (x = index_of (mlen a))); [lia|done].
    + intros _. rewrite claim_changes, decide_True by (done || apply index_range). lia.
    + intros k j Hj. cbn [g_claim mrel]. lia.
    + intros i' _ Hi'. apply Hown in Hi'. congruence.
    + intros k i' _ Hk. split; [done|]. by at_store.
    + by intros i' Hne [= <-].
    + intros j Hj _ _. by at_store.
Qed.
Lemma mguar_refl i g a : mguar i g a g a.
Proof. split; auto with lia. Qed.

(** The claim is given up when the exchange of the epoch fails. *)
Lemma abandon_keeps i g a es : mglobal g a es -> mowner a = Some i -> mglobal g (g_abandon a) es /\ mguar i g a g (g_abandon a).
Proof.
  intros Hg Ho. split.
  - destruct Hg. by split.
  - split; try done; intros; try apply Z.le_refl; cbn [g_abandon mrel] in *; lia || congruence.
Qed.

(** The numbers whose places are in use. *)
Lemma writer_window g a es c i : mglobal g a es -> writer a c = Some i -> mtop a - 256 <= c < mlen a /\ 0 <= c /\ forall j, (j < r)%nat -> mgot a j <= c.
Proof.
  intros Hg Hw. pose proof (mk_writer _ _ _ Hg _ _ Hw). assert (forall j, (j < r)%nat -> mgot a j <= c) as Hgot.
  { intros j Hj. destruct (decide (mgot a j <= c)); [done|]. rewrite (mk_read _ _ _ Hg c j) in Hw; [done|done|lia]. }
  pose proof (mk_r _ _ _ Hg). destruct (mk_rel _ _ _ Hg 0%nat) as (? & ? & ?); [lia|]. pose proof (Hgot 0%nat ltac:(lia)). split; [lia|]. split; [lia|done].
Qed.

Lemma flag_ok_ext a a' k fl : (written a' k <-> written a k) -> mrel a' = mrel a -> mgot a' = mgot a -> flag_ok a k fl -> flag_ok a' k fl.
Proof. intros Hw Er Eg [H1 H2]. unfold flag_ok, all_let_go in *. rewrite Hw, Er, Eg. done. Qed.

Lemma place_keeps i g a es v : mglobal g a es -> (i < s)%nat -> mclaim a = true -> mowner a = Some i -> mlen a + 1 < 2 ^ 26 ->
  let g' := set_m_ct (u32 (mlen a + 1)) g in
  mglobal g' (g_place i v a) (es ++ [(i, EBPush v)]) /\ mguar i g a g' (g_place i v a).
Proof.
  intros Hg His Hcl Ho Hlt g'. pose proof (mlen_nonneg a) as H0. pose proof Hg as [Hr Hcc Hep Hct Hb Hrel Hrd Hwt Hown Hw Hw0 Hf Hf0 Hd Hs Hre].
  assert (mlen (g_place i v a) = mlen a + 1) as El by (unfold mlen, g_place; cbn; rewrite length_app; simpl; lia).
  assert (mtop a = mlen a + 1) as Et by (unfold mtop; rewrite Hcl; lia).
  assert (mtop (g_place i v a) = mlen a + 1) as Et' by (unfold mtop; rewrite El; cbn; lia).
  assert (forall x, changes (g_place i v a) x = changes a x) as Ec by (intros x; unfold changes; by rewrite Et, Et').
  assert (forall k, writer (g_place i v a) k = if decide (k = mlen a) then Some i else writer a k) as Ew by (intros k; apply fn_at).
  assert (forall k, written (g_place i v a) k <-> written a k) as Hwn.
  { intros k. unfold written. rewrite Ew, El. destruct (decide (k = mlen a)) as [->|]; [split; [by intros [_ ?]|lia]|]. split; intros [? ?]; (split; [lia|done]). }
  subst g'. split; [split; try done|].
  - cbn [set_m_ct m_ct]. rewrite El. apply u32_small. unfold is_u32. lia.
  - by rewrite El.
  - intros j Hj. specialize (Hrel j Hj). rewrite Et', El. cbn [g_place mrel mgot]. lia.
  - intros k j Hj Hk. rewrite Ew. cbn [g_place mgot] in Hk. destruct (Hrel j Hj) as (? & ? & ?). rewrite decide_False by lia. by eapply Hrd.
  - intros k i'. rewrite Ew, El. destruct (decide (k = mlen a)) as [->|]; [intros [= <-]; lia|]. intros Hk. apply Hwt in Hk. lia.
  - rewrite Et'. intros k Hk Hk'. rewrite Ec. apply Hw; lia.
  - rewrite Et'. intros k Hk. apply Hw0. lia.
  - rewrite Et'. intros k Hk Hk'. eapply flag_ok_ext; [apply Hwn|done|done|apply Hf; lia].
  - rewrite Et'. intros k Hk. apply Hf0. lia.
  - rewrite Et'. intros k w Hk Hkw%Hwn Hk' Hl. cbn [set_m_ct m_elems]. apply Hd; [done..|lia|]. cbn [g_place mlog] in Hl.
    destruct Hkw as [Hkl _]. by rewrite lookup_app_l in Hl by (unfold mlen in *; lia).
  - rewrite sent_app, Hs. done.
  - intros j Hj. rewrite received_app, Hre by done. cbn [received omap list_omap g_place mgot mlog fst snd]. destruct (Hrel j Hj) as (? & ? & ?).
    rewrite take_app_le by (unfold mlen in *; lia). destruct (decide _); by rewrite app_nil_r.
  - split; try done.
    + by eexists.
    + intros x Hx. rewrite Ec. lia.
    + congruence.
    + intros k j Hj. cbn [g_place mrel]. lia.
    + intros i' Hne E. congruence.
    + intros k i' Hne Hk. split; [|done]. rewrite Ew, decide_False; [done|]. apply Hwt in Hk. lia.
    + intros k i' Hne. rewrite Ew. destruct (decide (k = mlen a)); [congruence|done].
    + intros k. apply Hwn.
Qed.

Lemma write_keeps i g a es c x : mglobal g a es -> writer a c = Some i ->
  mglobal (set_m_data (index_of c) x g) a es /\ mguar i g a (set_m_data (index_of c) x g) a.
Proof.
  intros Hg Hc. destruct (writer_window _ _ _ _ _ Hg Hc) as (Hc1 & Hc0 & _). pose proof (mtop_range a).
  assert (forall k, k <> c -> mtop a - 256 <= k < mtop a -> index_of k <> index_of c) as Hne.
  { intros k Hk Hk' E. apply Hk. apply (same_place a); [done|lia|done]. }
  pose proof Hg as [Hr Hcc Hep Hct Hb Hrel Hrd Hwt Hown Hw Hw0 Hf Hf0 Hd Hs Hre].
  split; [split; try done; intros|split; try done; try lia; intros]; at_store; auto.
  - rewrite decide_False; [by apply Hd|]. destruct H1 as [? Hn]. apply Hne; [intros ->; congruence|lia].
  - split; [done|]. destruct (writer_window _ _ _ _ _ Hg H1) as (? & _ & _). rewrite decide_False; [done|]. apply Hne; [intros ->; congruence|lia].
Qed.
Lemma commit_keeps i g a es c v : mglobal g a es -> writer a c = Some i -> mlog a !! Z.to_nat c = Some v -> m_data (m_elems g (index_of c)) = v ->
  let g' := set_m_flag (index_of c) (not64 c) g in
  mglobal g' (g_commit c a) es /\ mguar i g a g' (g_commit c a).
Proof.
  intros Hg Hc Hv Hdata g'. destruct (writer_window _ _ _ _ _ Hg Hc) as (Hc1 & Hc0 & Hgot). pose proof (mtop_range a).
  assert (forall k, k <> c -> mtop a - 256 <= k < mtop a -> index_of k <> index_of c) as Hne.
  { intros k Hk Hk' E. apply Hk. apply (same_place a); [done|lia|done]. }
  assert (forall k, writer (g_commit c a) k = if decide (k = c) then None else writer a k) as Ew by (intros k; apply fn_at).
  assert (forall k, k <> c -> written (g_commit c a) k <-> written a k) as Hwn.
  { intros k Hk. unfold written. by rewrite Ew, decide_False. }
  assert (written (g_commit c a) c) as Hcw by (split; [apply Hc1|by rewrite Ew, decide_True]).
  pose proof Hg as [Hr Hcc Hep Hct Hb Hrel Hrd Hwt Hown Hw Hw0 Hf Hf0 Hd Hs Hre].
  subst g'. split; [split; try done|].
  - intros k j Hj Hk. rewrite Ew. destruct (decide (k = c)); [done|]. by eapply Hrd.
  - intros k i'. rewrite Ew. destruct (decide (k = c)); [done|]. apply Hwt.
  - intros k Hk Hk'. at_store. by apply Hw.
  - intros k Hk. at_store. by apply Hw0.
  - change (mtop (g_commit c a)) with (mtop a). intros k Hk Hk'. at_store. destruct (decide (k = c)) as [->|Hkc].
    + rewrite decide_True by done. split; [|done]. intros _. left. split; [done|]. intros Hall. specialize (Hall 0%nat ltac:(lia)). specialize (Hgot 0%nat ltac:(lia)).
      destruct (Hrel 0%nat ltac:(lia)) as (? & ? & ?). cbn [g_commit mrel] in Hall. lia.
    + rewrite decide_False by (apply Hne; [done|lia]). eapply flag_ok_ext; [by apply Hwn|done|done|by apply Hf].
  - change (mtop (g_commit c a)) with (mtop a). intros k Hk. at_store. rewrite decide_False; [by apply Hf0|]. intros E. apply (index_of_inj 0) in E; lia.
  - change (mtop (g_commit c a)) with (mtop a). intros k w Hk Hkw Hk' Hl. at_store. destruct (decide (k = c)) as [->|Hkc]; [|apply Hd; [done|by apply Hwn|done|done]].
    cbn [g_commit mlog] in Hl. congruence.
  - split; try done.
    + intros x Hx _. by at_store.
    + intros k j Hj. cbn [g_commit mrel]. lia.
    + intros k i' Hni Hk. at_store. rewrite Ew, decide_False; [done|]. intros ->. congruence.
    + intros k i' Hni. rewrite Ew. by destruct (decide (k = c)).
    + intros k Hk. destruct (decide (k = c)) as [->|]; [done|by apply Hwn].
    + intros j Hj _ Hmid. at_store. destruct (Hrel j Hj) as (? & ? & ?). specialize (Hgot j Hj). rewrite decide_False; [done|]. apply Hne; lia.
Qed.

(** * Steps of a receiver *)
Lemma read_keeps j g a es : mglobal g a es -> (j < r)%nat -> mgot a j = mrel a j -> written a (mrel a j) ->
  mglobal g (g_read j a) (es ++ [((s + j)%nat, EBPop (m_data (m_elems g (index_of (mrel a j)))))]) /\ mguar (s + j) g a g (g_read j a).
Proof.
  intros Hg Hj Hgot Hwr. pose proof Hg as [Hr Hcc Hep Hct Hb Hrel Hrd Hwt Hown Hw Hw0 Hf Hf0 Hd Hs Hre]. pose proof (mtop_range a).
  destruct (Hrel j Hj) as (H0 & H1 & H2). destruct Hwr as [Hl Hn]. assert (forall i, mgot (g_read j a) i = if decide (i = j) then mgot a j + 1 else mgot a i) as Eg by (intros i; apply fn_at).
  assert (forall i, mgot a i <= mgot (g_read j a) i) as Hup by (intros i; rewrite Eg; destruct (decide (i = j)) as [->|]; lia).
  split; [split; try done|].
  - intros i Hi. change (mtop (g_read j a)) with (mtop a). change (mlen (g_read j a)) with (mlen a). change (mrel (g_read j a)) with (mrel a). rewrite Eg. specialize (Hrel i Hi).
    destruct (decide (i = j)) as [->|]; lia.
  - intros k i Hi. change (writer (g_read j a)) with (writer a). rewrite Eg. destruct (decide (i = j)) as [->|]; [|by apply Hrd]. intros Hk.
    destruct (decide (k = mrel a j)) as [->|]; [done|]. apply (Hrd k j Hj). lia.
  - intros k Hk Hk'. destruct (Hf k Hk Hk') as [F1 F2]. split; [|exact F2]. intros Hkw. destruct (F1 Hkw) as [?|[E Hall]]; [by left|]. right. split; [done|].
    intros i Hi. specialize (Hall i Hi). specialize (Hup i). lia.
  - rewrite sent_app, Hs. cbn. by rewrite app_nil_r.
  - intros i Hi. rewrite received_app, Hre, Eg by done. cbn [received omap list_omap fst snd]. change (mlog (g_read j a)) with (mlog a). destruct (decide (i = j)) as [->|Hne].
    + rewrite decide_True by done. destruct (lookup_lt_is_Some_2 (mlog a) (Z.to_nat (mrel a j))) as [w Hv]; [unfold mlen in *; lia|].
      rewrite (Hd (mrel a j) w) by (done || lia). rewrite Hgot. replace (Z.to_nat (mrel a j + 1)) with (S (Z.to_nat (mrel a j))) by lia. by rewrite (take_S_r _ _ w).
    + rewrite decide_False by lia. by rewrite app_nil_r.
  - split; try done.
    + intros i Hi Hne. rewrite Eg, decide_False by (intros ->; lia). done.
    + intros k i Hi. change (mrel (g_read j a)) with (mrel a). lia.
Qed.

Lemma flag_keeps j g a es : mglobal g a es -> (j < r)%nat -> mgot a j = mrel a j + 1 -> others_let_go j a ->
  let g' := set_m_flag (index_of (mrel a j)) (mrel a j + 256) g in mglobal g' a es /\ mguar (s + j) g a g' a.
Proof.
  intros Hg Hj Hgot Hoth g'. pose proof Hg as [Hr Hcc Hep Hct Hb Hrel Hrd Hwt Hown Hw Hw0 Hf Hf0 Hd Hs Hre]. pose proof (mtop_range a).
  destruct (Hrel j Hj) as (H0 & H1 & H2). assert (forall k, k <> mrel a j -> mtop a - 256 <= k < mtop a -> index_of k <> index_of (mrel a j)) as Hne.
  { intros k Hk Hk' E. apply Hk. apply (same_place a); [done|lia|done]. }
  assert (forall i, (i < r)%nat -> mrel a j < mgot a i) as Hall.
  { intros i Hi. destruct (decide (i = j)) as [->|Hn]; [lia|]. specialize (Hoth i Hi Hn). specialize (Hrel i Hi). lia. }
  subst g'. split; [split; try done|].
  - intros k Hk Hk'. at_store. by apply Hw.
  - intros k Hk. at_store. by apply Hw0.
  - intros k Hk Hk'. at_store. destruct (decide (k = mrel a j)) as [->|Hn]; [|rewrite decide_False by (apply Hne; [done|lia]); by apply Hf].
    rewrite decide_True by done. split; [by right|]. intros Hn. destruct Hn. by eapply read_written.
  - intros k Hk. at_store. rewrite decide_False; [by apply Hf0|]. intros E. apply (index_of_inj 0) in E; lia.
  - intros k v Hk Hkw Hk' Hv. at_store. by apply Hd.
  - split; auto with lia.
    + intros x Hx _. by at_store.
    + intros k i' _ Hk. by at_store.
    + intros i Hi Hni Hmid. at_store. rewrite decide_False; [done|]. destruct (Hrel i Hi) as (? & ? & ?). apply Hne; [|lia]. specialize (Hoth i Hi ltac:(lia)). lia.
Qed.
Lemma let_waited j a k bits : (j < r)%nat -> k <> mrel a j -> waited a k bits -> waited (g_let j a) k bits.
Proof.
  intros Hj Hk [Hb Ht]. split; [done|]. intros b Hb0. rewrite Ht by done. f_equal. cbn [g_let mrel]. rewrite fn_at.
  destruct (decide (Z.to_nat b = j)) as [->|]; [|done]. destruct (Z.leb_spec (mrel a j) k), (Z.leb_spec (mrel a j + 1) k); done || lia.
Qed.
Lemma let_waited_own j a bits : (j < r <= 32)%nat -> waited a (mrel a j) bits -> waited (g_let j a) (mrel a j) (Z.ldiff bits (2 ^ Z.of_nat j)).
Proof.
  intros Hj [Hb Ht]. split; [by apply ldiff_range|]. intros b Hb0. rewrite Z.ldiff_spec, Ht, Z.pow2_bits_eqb by lia. cbn [g_let mrel]. rewrite fn_at.
  destruct (decide (Z.to_nat b = j)) as [<-|Hn].
  - assert ((Z.of_nat (Z.to_nat b) =? b) = true) as -> by (apply Z.eqb_eq; lia). rewrite andb_false_r. symmetry. apply andb_false_iff. right. apply Z.leb_gt. lia.
  - assert ((Z.of_nat j =? b) = false) as -> by (apply Z.eqb_neq; lia). by rewrite andb_true_r.
Qed.
Lemma let_all_go j a k : (j < r)%nat -> all_let_go (g_let j a) k -> all_let_go a k \/ (k = mrel a j /\ others_let_go j a).
Proof.
  intros Hj Hall. assert (forall i, (i < r)%nat -> i <> j -> k < mrel a i) as Ho.
  { intros i Hi Hn. specialize (Hall i Hi). cbn [g_let mrel] in Hall. by rewrite fn_at, decide_False in Hall. }
  pose proof (Hall j Hj) as Hk. cbn [g_let mrel] in Hk. rewrite fn_at, decide_True in Hk by done. destruct (decide (k = mrel a j)) as [->|]; [right; by split|].
  left. intros i Hi. destruct (decide (i = j)) as [->|]; [lia|auto].
Qed.

Lemma let_keeps j g a es n bits : mglobal g a es -> (j < r)%nat -> mgot a j = mrel a j + 1 -> 0 <= bits < 2 ^ 32 ->
  m_rc (m_elems g (index_of (mrel a j))) = pack n bits -> (others_let_go j a -> m_flag (m_elems g (index_of (mrel a j))) = mrel a j + 256) ->
  let g' := set_m_rc (index_of (mrel a j)) (pack (n + 1) (Z.ldiff bits (2 ^ Z.of_nat j))) g in
  mglobal g' (g_let j a) es /\ mguar (s + j) g a g' (g_let j a).
Proof.
  intros Hg Hj Hgot Hbits Hrc Hflag g'. pose proof Hg as [Hr Hcc Hep Hct Hb Hrel Hrd Hwt Hown Hw Hw0 Hf Hf0 Hd Hs Hre]. pose proof (mtop_range a).
  destruct (Hrel j Hj) as (H0 & H1 & H2). assert (forall k, k <> mrel a j -> mtop a - 256 <= k < mtop a -> index_of k <> index_of (mrel a j)) as Hne.
  { intros k Hk Hk' E. apply Hk. apply (same_place a); [done|lia|done]. }
  destruct (Hw (mrel a j)) as (bits' & E & Hwait); [lia|lia|]. rewrite E in Hrc. apply pack_inj in Hrc as [<- ->]; [|apply Hwait|done].
  assert (forall i, mrel (g_let j a) i = if decide (i = j) then mrel a j + 1 else mrel a i) as Er by (intros i; apply fn_at).
  subst g'. split; [split; try done|].
  - intros i Hi. change (mtop (g_let j a)) with (mtop a). change (mlen (g_let j a)) with (mlen a). change (mgot (g_let j a)) with (mgot a). rewrite Er. specialize (Hrel i Hi).
    destruct (decide (i = j)) as [->|]; lia.
  - change (mtop (g_let j a)) with (mtop a). intros k Hk Hk'. at_store. rewrite let_changes by (done || apply index_range). destruct (decide (k = mrel a j)) as [->|Hn].
    + rewrite !decide_True by done. eexists. split; [done|]. apply let_waited_own; [lia|done].
    + rewrite !decide_False by (apply Hne; [done|lia]). rewrite Z.add_0_r. destruct (Hw k Hk Hk') as (b & ? & ?). exists b. split; [done|]. by apply let_waited.
  - change (mtop (g_let j a)) with (mtop a). intros k Hk. at_store. rewrite decide_False; [by apply Hw0|]. intros E'. apply (index_of_inj 0) in E'; lia.
  - change (mtop (g_let j a)) with (mtop a). intros k Hk Hk'. at_store. destruct (Hf k Hk Hk') as [F1 F2]. split; [|exact F2]. intros Hkw. destruct (F1 Hkw) as [[E1 Hn]|?]; [|by right].
    destruct (decide (k = mrel a j)) as [->|Hkj]; [|left; split; [done|]; intros [?|[? _]]%let_all_go; done].
    destruct (decide (Forall (fun i => i = j \/ mrel a j < mrel a i) (seq 0 r))) as [Hall|Hsome].
    + right. assert (others_let_go j a) as Ho.
      { intros i Hi Hij. rewrite list.Forall_forall in Hall. destruct (Hall i) as [?|?]; [apply elem_of_seq; lia|done..]. }
      split; [by apply Hflag|]. intros i Hi. change (mgot (g_let j a)) with (mgot a). destruct (decide (i = j)) as [->|Hij]; [lia|]. specialize (Ho i Hi Hij). specialize (Hrel i Hi). lia.
    + left. split; [done|]. intros Hall. apply Hsome, list.Forall_forall. intros i Hi%elem_of_seq. destruct (decide (i = j)) as [->|Hij]; [by left|right].
      specialize (Hall i ltac:(lia)). by rewrite Er, decide_False in Hall.
  - change (mtop (g_let j a)) with (mtop a). intros k Hk. at_store. by apply Hf0.
  - intros k v Hk Hkw Hk' Hv. at_store. by apply Hd.
  - split; try done.
    + intros i Hi Hn. rewrite Er, decide_False by (intros ->; lia). done.
    + intros i. rewrite Er. destruct (decide (i = j)) as [->|]; lia.
    + intros x Hx. rewrite let_changes by done. destruct (decide _); lia.
    + intros x Hx. rewrite let_changes by done. intros E'. at_store. destruct (decide (x = index_of (mrel a j))); [lia|done].
    + intros k i Hi. rewrite Er. destruct (decide (i = j)) as [->|]; [|lia]. intros Hk. assert (k = mrel a j) as -> by lia.
      rewrite let_changes, decide_True by (done || apply index_range). lia.
    + intros k i' _ Hk. by at_store.
    + intros i Hi _ _. by at_store.
Qed.
End inv.
