(* ===== verification/BroadcastMultiClaims.v ===== *)
(** The broadcasting ring of several senders: every connected receiver gets what
    was sent, all of it and in the order of the places. *)
From stdpp Require Import prelude list functions.
From Stdlib Require Import ZArith Lia.
From S2P Require Import Prelude Cpp Interleave Ring RingInv Broadcast BroadcastClaims BroadcastMulti BroadcastMultiInv.

Open Scope Z_scope.

#[local] Arguments index_of : simpl never.
#[local] Arguments not64 : simpl never.
#[local] Arguments u32 : simpl never.
#[local] Arguments u64 : simpl never.

Section steps.
Context {V : Type} (s r : nat).
Implicit Types (g : mring V) (l : m_thread V) (a : @mghost V).

Definition fits_m (es : list (event (b_event V))) : Prop := Z.of_nat (length (sent es)) < 2 ^ 26.
Lemma fits_m_prefix es es' : fits_m (es ++ es') -> fits_m es.
Proof. unfold fits_m. rewrite sent_app, length_app. lia. Qed.

(** No claim has been given up. *)
Definition owned (a : @mghost V) : Prop := mclaim a = true -> mowner a <> None.
Definition kept_m (sp : bool) (i : nat) g (a : mghost) (es : list (event (b_event V))) g' l' new : Prop :=
  exists a', mglobal s r g' a' (es ++ (pair i <$> new)) /\ mlocal s r i g' a' l' /\ mguar s r i g a g' a' /\ (sp = false -> owned a -> owned a').

Lemma sender_local i g a l : (i < s)%nat -> Forall only_push (m_todo l) -> m_sender_at r i g a (m_at l) ->
  (forall c, writer a c = Some i -> writing c (m_at l)) -> (mowner a = Some i -> claiming (m_at l)) -> mlocal s r i g a l.
Proof. intros Hi Ht Hp Hw Hc. unfold mlocal. by rewrite decide_True. Qed.
Lemma kept_m_intro sp i g a es g' a' l' : mglobal s r g' a' es /\ mguar s r i g a g' a' -> (sp = false -> owned a -> owned a') -> mlocal s r i g' a' l' -> kept_m sp i g a es g' l' [].
Proof. intros [Hg Hgu] Ho Hl. exists a'. cbn. by rewrite app_nil_r. Qed.
Lemma kept_m_same sp i g a es l' : mglobal s r g a es -> mlocal s r i g a l' -> kept_m sp i g a es g l' [].
Proof. intros Hg Hl. apply (kept_m_intro _ _ _ _ _ _ a); [|done..]. split; [done|apply mguar_refl]. Qed.

(** The receivers of a word are connected. *)
Lemma waited_connected a k bits : waited r a k bits -> Z.land (all_bits r) bits = bits.
Proof.
  intros [_ Hb]. apply Z.bits_inj'. intros i Hi. rewrite Z.land_spec, all_bits_test, Hb by done. by destruct (i <? Z.of_nat r).
Qed.
Lemma rc_connected g a es x bits : mglobal s r g a es -> 0 <= x < 256 -> 0 <= bits < 2 ^ 32 -> m_rc (m_elems g x) = pack (changes r a x) bits -> Z.land (all_bits r) bits = bits.
Proof.
  intros Hg Hx Hb E. destruct (rc_at s r g a es x Hg Hx) as (bits' & E' & Hb' & Hcase). rewrite E in E'. apply pack_inj in E' as [_ <-]; [|done..].
  destruct Hcase as [(k & _ & _ & _ & Hw)|[_ ->]]; [by eapply waited_connected|apply Z.land_0_r].
Qed.

Lemma load_rc_ok i g a es v c l : mglobal s r g a es -> (i < s)%nat -> Forall only_push (m_todo l) -> (forall c, writer a c = Some i -> False) -> (mowner a = Some i -> False) -> 0 <= c <= mlen a ->
  forall w g' l' new, m_push_step w g l (MLoadRc v false 0 (all_bits r) c) = Some (g', l', new) -> kept_m (spurious w) i g a es g' l' new.
Proof.
  intros Hg Hi Ht Hno Hno' Hc w g' l' new. cbn [m_push_step]. destruct (rc_at s r g a es _ Hg (index_range c)) as (bits & E & Hb & _).
  pose proof (changes_bound s r _ _ _ _ Hg (index_range c)). rewrite E, pack_rem, pack_epoch, (rc_connected _ _ _ _ _ Hg (index_range c) Hb E) by lia.
  change (0 =? 0) with true. destruct (Z.eqb_spec bits 0) as [->|Hn]; cbn; intros [= <- <- <-]; (apply kept_m_same; [done|]; apply sender_local; [done|done| |by intros ? []%Hno|by intros []%Hno']); [|done].
  split; [done|]. split; [done|]. split; [done|]. eexists. split; [done|]. split; [lia|]. by intros _.
Qed.

Lemma load_flag_ok g a es c rc : mglobal s r g a es -> seen r g a c rc (m_rc (m_elems g (index_of c)) = rc) ->
  m_flag (m_elems g (index_of c)) = c \/ m_flag (m_elems g (index_of c)) = 0 -> seen r g a c rc (mclaim a = false /\ mlen a = c).
Proof.
  intros Hg (Hc & n & -> & Hn & Hrc) Hfl. split; [done|]. exists n. split; [done|]. split; [done|]. intros E. by eapply place_is_free; [done|done|apply Hrc|].
Qed.

Lemma cas_rc_ok i g a es c rc : mglobal s r g a es -> (i < s)%nat -> seen r g a c rc (mclaim a = false /\ mlen a = c) -> m_rc (m_elems g (index_of c)) = rc ->
  let g' := set_m_rc (index_of c) (Z.lor (inc_mask (Z.lor 0 (Z.land rc m_ep_mask))) (all_bits r)) g in
  c = mlen a /\ mglobal s r g' (g_claim i a) es /\ mguar s r i g a g' (g_claim i a).
Proof.
  intros Hg Hi (Hc & n & -> & Hn & HP) Hrc. pose proof (mk_r _ _ _ _ _ Hg). pose proof (changes_bound s r _ _ _ _ Hg (index_range c)).
  rewrite pack_claim by (lia || apply all_bits_range; lia). destruct (rc_at s r g a es _ Hg (index_range c)) as (bits & E & Hb & _).
  rewrite E in Hrc. apply pack_inj in Hrc as [En ->]; [|lia..]. destruct (HP En) as [Hcl <-]. split; [done|]. subst n. by apply claim_keeps.
Qed.

Lemma m_push_ok i w g a es l p g' l' new : mglobal s r g a es -> (i < s)%nat -> Forall only_push (m_todo l) -> m_sender_at r i g a p ->
  (forall c, writer a c = Some i -> writing c p) -> (mowner a = Some i -> claiming p) -> fits_m (es ++ (pair i <$> new)) -> m_push_step w g l p = Some (g', l', new) -> kept_m (spurious w) i g a es g' l' new.
Proof.
  intros Hg Hi Ht Hat Hwg Hcg Hfits. pose proof (mk_cc _ _ _ _ _ Hg) as Hcc. pose proof (mk_epoch _ _ _ _ _ Hg) as Hep. pose proof (mlen_nonneg a) as H0.
  assert (forall l', Forall only_push (m_todo l') -> m_sender_at r i g a (m_at l') -> (forall c, writer a c = Some i -> writing c (m_at l')) -> (mowner a = Some i -> claiming (m_at l')) ->
    kept_m (spurious w) i g a es g l' []) as Hsame.
  { intros l1 H1 H2 H3 H4. apply kept_m_same; [done|]. by apply sender_local. }
  destruct p; try done; cbn [m_sender_at writing claiming] in Hat, Hwg, Hcg; try (destruct inner; [done|]).
  - intros [= <- <- <-]. apply Hsame; [done..|by intros ? []%Hwg|done].
  - subst epoch. cbn [m_push_step]. destruct (m_cc g =? 0); intros [= <- <- <-]; (apply Hsame; [done..|by intros ? []%Hwg|done]).
  - destruct Hat as [-> ->]. intros [= <- <- <-]. apply Hsame; [done| |by intros ? []%Hwg|done]. cbn. rewrite (mk_ct _ _ _ _ _ Hg). split; [done|]. split; [done|lia].
  - destruct Hat as (-> & -> & Hc). by apply load_rc_ok.
  - destruct Hat as (-> & -> & Hs). cbn [m_push_step]. destruct (Z.eqb_spec (m_flag (m_elems g (index_of cur_ct))) cur_ct) as [E|E], (Z.eqb_spec (m_flag (m_elems g (index_of cur_ct))) 0) as [E0|E0];
      cbn; intros [= <- <- <-]; (apply Hsame; [done| |by intros ? []%Hwg|done]); try done; cbn; (split; [done|]; split; [done|]); apply (load_flag_ok _ _ es); auto.
  - destruct Hat as (-> & -> & Hs). cbn [m_push_step]. destruct (negb (spurious w) && _) eqn:E; intros [= <- <- <-]; [|apply Hsame; [done..|by intros ? []%Hwg|done]].
    apply andb_true_iff in E as [_ E%Z.eqb_eq]. destruct (cas_rc_ok i _ _ _ _ _ Hg Hi Hs E) as [-> Hk]. eapply kept_m_intro; [exact Hk|done|]. apply sender_local; [done..|by intros ? []%Hwg|done].
  - destruct Hat as (-> & Hcl & Ho & ->). cbn [m_push_step]. rewrite Hep. change (0 =? 0) with true. destruct (spurious w) eqn:Esp; intros [= <- <- <-]; [|apply Hsame; [done..|by intros ? []%Hwg|done]].
    eapply kept_m_intro; [by apply abandon_keeps|done|]. apply sender_local; [done..|by intros ? []%Hwg|done].
  - destruct Hat as (Hcl & Ho & ->). intros [= <- <- <-]. destruct (place_keeps s r i g a es v Hg Hi Hcl Ho) as [Hg' Hgu].
    { unfold fits_m in Hfits. rewrite sent_app, (mk_sent _ _ _ _ _ Hg), length_app in Hfits. cbn in Hfits. unfold mlen. lia. }
    eexists. split; [exact Hg'|]. split; [|split; [exact Hgu|done]]. apply sender_local; [done..| | |done].
    + cbn. rewrite fn_at, decide_True by done. split; [done|]. unfold mlen. rewrite Nat2Z.id. by rewrite lookup_app_r, Nat.sub_diag.
    + intros c. cbn. rewrite fn_at. destruct (decide (c = mlen a)); [done|]. by intros []%Hwg.
  - destruct Hat as [Hw Hv]. intros [= <- <- <-]. eapply kept_m_intro; [by apply write_keeps|done|]. by apply sender_local.
  - destruct Hat as [Hw Hv]. intros [= <- <- <-]. eapply kept_m_intro; [by apply write_keeps|done|]. apply sender_local; [done..| |done|done]. cbn [m_goto m_at m_sender_at].
    split; [done|]. split; [done|]. by rewrite at_data_data, decide_True.
  - destruct Hat as (Hw & Hv & Hd). intros [= <- <- <-]. eapply kept_m_intro; [by eapply commit_keeps|done|]. apply sender_local; [done..| |done].
    intros c. cbn. rewrite fn_at. destruct (decide (c = cur_ct)) as [->|Hne]; [done|]. intros <-%Hwg. done.
Qed.

(** * Receivers *)
Lemma receiver_local j g a l : (j < r)%nat -> Forall only_pop (m_todo l) -> m_id l = 2 ^ Z.of_nat j -> m_receiver_at r j g a (m_cursor l) (m_at l) -> mlocal s r (s + j) g a l.
Proof. intros Hj Ht Hid Hp. unfold mlocal. rewrite decide_False by lia. replace (s + j - s)%nat with j by lia. done. Qed.

Lemma not64_big k : 0 <= k < 2 ^ 32 -> 2 ^ 32 <= not64 k.
Proof. intros Hk. unfold not64. lia. Qed.

(** A flag that says "message [k]" says the truth. *)
Lemma flag_written g a es k : mglobal s r g a es -> 0 <= k -> mtop a - 256 <= k <= mlen a -> m_flag (m_elems g (index_of k)) = not64 k -> written a k.
Proof.
  intros Hg H0 Hk E. pose proof (mk_bound _ _ _ _ _ Hg). pose proof (mtop_range a). pose proof (not64_big k ltac:(lia)) as Hbig.
  destruct (place_cases a _ (index_range k)) as [(k' & Hk' & Hw' & Ei)|Ht].
  - destruct (mk_flag _ _ _ _ _ Hg k' Hk' Hw') as [F1 F2]. rewrite Ei, E in F1, F2.
    assert (k' < mlen a /\ writer a k' = None) as Hwr.
    { destruct (decide (k' < mlen a)), (writer a k') as [i|] eqn:Ew; try done; exfalso; (destruct F2 as [?|[? ?]]; [intros [? ?]; (congruence || lia)|lia|lia]). }
    destruct (F1 Hwr) as [[Ek _]|[Ek _]]; [|lia]. apply not64_inj in Ek as ->. done.
  - pose proof (mk_flag0 _ _ _ _ _ Hg (index_of k)) as F0. pose proof (index_range k). rewrite (index_small (index_of k)) in F0 by done. rewrite E in F0. lia.
Qed.

(** A receiver is alone in the word of its message when the others have let it
    go. *)
Lemma only_me j a bits : (j < r)%nat -> waited r a (mrel a j) bits -> Z.land bits (Z.lnot (2 ^ Z.of_nat j)) = 0 <-> others_let_go r j a.
Proof.
  intros Hj [_ Hb]. rewrite <- land_zero_bits. split.
  - intros Hz j' Hj' Hne. specialize (Hz (Z.of_nat j') ltac:(lia)). rewrite Hb, Z.lnot_spec, Z.pow2_bits_eqb, Nat2Z.id in Hz by lia.
    assert ((Z.of_nat j =? Z.of_nat j') = false) as Ej by (apply Z.eqb_neq; lia). rewrite Ej in Hz. destruct (Z.ltb_spec (Z.of_nat j') (Z.of_nat r)); [|lia].
    destruct (Z.leb_spec (mrel a j') (mrel a j)); [|done]. by specialize (Hz eq_refl).
  - intros Ho i Hi. rewrite Hb, Z.lnot_spec, Z.pow2_bits_eqb by lia. intros [Hlt%Z.ltb_lt Hle%Z.leb_le]%andb_true_iff. destruct (Z.eqb_spec (Z.of_nat j) i); [done|].
    specialize (Ho (Z.to_nat i) ltac:(lia) ltac:(lia)). lia.
Qed.
Lemma own_bit j a bits : (j < r)%nat -> waited r a (mrel a j) bits -> bits <> 0.
Proof.
  intros Hj [_ Hb] ->. specialize (Hb (Z.of_nat j) ltac:(lia)). rewrite Z.bits_0, Nat2Z.id in Hb. symmetry in Hb.
  apply andb_false_iff in Hb as [Hb%Z.ltb_ge|Hb%Z.leb_gt]; lia.
Qed.

(** The word of the message a receiver is reading. *)
Lemma my_word g a es j : mglobal s r g a es -> (j < r)%nat -> mgot a j = mrel a j + 1 ->
  exists bits, m_rc (m_elems g (index_of (mrel a j))) = pack (changes r a (index_of (mrel a j))) bits /\ waited r a (mrel a j) bits.
Proof.
  intros Hg Hj Hgot. destruct (mk_rel _ _ _ _ _ Hg j Hj) as (? & ? & ?). pose proof (mtop_range a). apply (mk_rc _ _ _ _ _ Hg); lia.
Qed.

Lemma load_rc_pop_ok j g a es v l : mglobal s r g a es -> (j < r)%nat -> Forall only_pop (m_todo l) -> m_id l = 2 ^ Z.of_nat j -> m_cursor l = mrel a j + 1 -> mgot a j = mrel a j + 1 ->
  forall w g' l' new, m_pop_step w g l (NLoadRc v (index_of (mrel a j))) = Some (g', l', new) -> kept_m (spurious w) (s + j) g a es g' l' new.
Proof.
  intros Hg Hj Ht Hid Hc Hgot w g' l' new. cbn [m_pop_step]. destruct (my_word _ _ _ _ Hg Hj Hgot) as (bits & E & Hw).
  pose proof (changes_bound s r _ _ _ _ Hg (index_range (mrel a j))). pose proof (proj1 Hw) as Hb. rewrite E, pack_rem, Hid by lia.
  destruct (Z.eqb_spec bits 0) as [E0|_]; [by destruct (own_bit _ _ _ Hj Hw)|]. pose proof (only_me _ _ _ Hj Hw) as Hme.
  destruct (Z.eqb_spec (Z.land bits (Z.lnot (2 ^ Z.of_nat j))) 0) as [El|El]; intros [= <- <- <-]; (apply kept_m_same; [done|]; apply receiver_local; [done..|]); cbn;
    (split; [done|]; split; [done|]; split; [done|]).
  - split; [by apply Hme|]. eexists _, bits. split; [done|]. split; [done|lia].
  - eexists _, bits. split; [done|]. split; [done|]. split; [lia|]. intros _ Ho. by apply Hme in Ho.
Qed.

Lemma release_keeps j g a es n bits : mglobal s r g a es -> (j < r)%nat -> mgot a j = mrel a j + 1 -> 0 <= bits < 2 ^ 32 ->
  (changes r a (index_of (mrel a j)) = n -> others_let_go r j a -> m_flag (m_elems g (index_of (mrel a j))) = mrel a j + 256) ->
  m_rc (m_elems g (index_of (mrel a j))) = pack n bits ->
  let g' := set_m_rc (index_of (mrel a j)) (Z.land (inc_rc (pack n bits)) (not64 (2 ^ Z.of_nat j))) g in
  mglobal s r g' (g_let j a) es /\ mguar s r (s + j) g a g' (g_let j a).
Proof.
  intros Hg Hj Hgot Hb Hfl Hrc. destruct (my_word _ _ _ _ Hg Hj Hgot) as (bits' & E & Hw).
  pose proof (changes_bound s r _ _ _ _ Hg (index_range (mrel a j))). pose proof (mk_r _ _ _ _ _ Hg). assert (0 < 2 ^ Z.of_nat j < 2 ^ 32) by (split; [lia|apply Z.pow_lt_mono_r; lia]).
  assert (changes r a (index_of (mrel a j)) = n) as En by (rewrite E in Hrc; apply pack_inj in Hrc as [-> _]; [done|apply Hw|done]).
  rewrite pack_release by lia. apply let_keeps; auto.
Qed.

Lemma m_pop_ok j w g a es l p g' l' new : mglobal s r g a es -> (j < r)%nat -> Forall only_pop (m_todo l) -> m_id l = 2 ^ Z.of_nat j ->
  m_receiver_at r j g a (m_cursor l) p -> m_pop_step w g l p = Some (g', l', new) -> kept_m (spurious w) (s + j) g a es g' l' new.
Proof.
  intros Hg Hj Ht Hid Hat. destruct (mk_rel _ _ _ _ _ Hg j Hj) as (H0 & H1 & H2). pose proof (mk_bound _ _ _ _ _ Hg) as Hb. pose proof (mtop_range a).
  assert (forall l', Forall only_pop (m_todo l') -> m_id l' = 2 ^ Z.of_nat j -> m_receiver_at r j g a (m_cursor l') (m_at l') -> kept_m (spurious w) (s + j) g a es g l' []) as Hsame.
  { intros l1 ? ? ?. apply kept_m_same; [done|]. by apply receiver_local. }
  destruct p; try done; cbn [m_receiver_at] in Hat.
  - destruct Hat as [Hc Hgot]. cbn [m_pop_step]. rewrite Hc. destruct (Z.eqb_spec (m_flag (m_elems g (index_of (mrel a j)))) (not64 (mrel a j))) as [E|E]; intros [= <- <- <-]; apply Hsame; try done.
    cbn. rewrite u32_small by (unfold is_u32; lia). split; [done|]. split; [done|]. split; [done|]. eapply flag_written; [done|lia|lia|done].
  - destruct Hat as (-> & Hc & Hgot & Hwr). intros [= <- <- <-]. destruct (read_keeps s r j g a es Hg Hj Hgot Hwr) as [Hg' Hgu].
    eexists. split; [exact Hg'|]. split; [|split; [exact Hgu|done]]. apply receiver_local; [done..|]. cbn. rewrite fn_at, decide_True by done. split; [done|]. split; [done|lia].
  - destruct Hat as (-> & Hc & Hgot). by apply load_rc_pop_ok.
  - destruct Hat as (-> & Hc & Hgot & Ho & n & bits & -> & Hbits & Hn). cbn [m_pop_step]. rewrite Hc. unfold u64, elem_max.
    replace (mrel a j + 1 + 256 - 1) with (mrel a j + 256) by lia. rewrite (Z.mod_small (mrel a j + 256)) by lia. intros [= <- <- <-]. eapply kept_m_intro; [by apply flag_keeps|done|].
    apply receiver_local; [done..|]. cbn [m_goto m_cursor m_at m_receiver_at]. split; [done|]. split; [done|]. split; [done|]. exists n, bits. split; [done|]. split; [done|]. split; [done|].
    intros _ _. by rewrite at_flag_flag, decide_True.
  - destruct Hat as (-> & Hc & Hgot & n & bits & -> & Hbits & Hn & Hfl). cbn [m_pop_step]. rewrite Hid. destruct (negb (spurious w) && _) eqn:E; intros [= <- <- <-]; [|by apply Hsame].
    apply andb_true_iff in E as [_ E%Z.eqb_eq]. eapply kept_m_intro; [by apply release_keeps|done|]. apply receiver_local; [done..|]. cbn. rewrite fn_at, decide_True by done. split; [done|lia].
Qed.
Lemma m_step_ok n i w g a l g' l' es new : (i < n)%nat -> mglobal s r g a es -> mlocal s r i g a l -> fits_m (es ++ (pair i <$> new)) ->
  m_step w g l = Some (g', l', new) -> kept_m (spurious w) i g a es g' l' new.
Proof.
  intros _ Hg Hl Hf Hs. pose proof Hl as Hl'. unfold mlocal in Hl. unfold m_step in Hs. destruct (decide (i < s)%nat) as [Hi|Hi].
  - destruct Hl as (Ht & Hp & Hw & Hcl). destruct (m_at l) eqn:Ep; try done;
      try (destruct (m_push_step w g l _) as [[[g1 l1] new1]|] eqn:Es; [injection Hs as <- <- <-; by eapply m_push_ok|by cbn [m_push_step m_sender_at] in Es, Hp; repeat case_match]).
    destruct (m_todo l) as [|op ops] eqn:Et; [done|]. apply list.Forall_cons in Ht as [Hop Ht]. destruct op; try done. injection Hs as <- <- <-. apply kept_m_same; [done|]. apply sender_local; done.
  - destruct Hl as (Ht & Hj & Hid & Hp). replace i with (s + (i - s))%nat by lia. destruct (m_at l) eqn:Ep; try done;
      try (cbn [m_push_step m_force_step] in Hs; rewrite <- Ep in Hs; destruct (m_pop_step w g l (m_at l)) as [[[g1 l1] new1]|] eqn:Es;
           [injection Hs as <- <- <-; rewrite Ep in Es; by eapply m_pop_ok|by rewrite Ep in Es; cbn in Es; repeat case_match]).
    destruct (m_todo l) as [|op ops] eqn:Et; [done|]. apply list.Forall_cons in Ht as [Hop Ht]. destruct op; try done. injection Hs as <- <- <-. apply kept_m_same; [done|]. by apply receiver_local.
Qed.

(** Run the steps whose conditions are decided. *)
Ltac exec_m := cbn -[index_of not64 u32 u64 Z.land Z.lor Z.eqb inc_rc inc_mask pack changes all_bits m_ep_mask rc_mask set_m_flag set_m_rc set_m_data].

(** A receiver that runs alone reads its next message, unless it has them all. *)
Lemma m_pop_alone x g a es j ops rs : mglobal s r g a es -> (j < r)%nat -> mgot a j = mrel a j -> (forall k i, writer a k <> Some i) ->
  exists k g' l' es', solo m_step (mk_choice false x) k g (mk_m_thread (BPop :: ops) MIdle (2 ^ Z.of_nat j) (mrel a j) rs) = Some (g', l', es') /\
    m_at l' = MIdle /\ m_results l' = rs ++ [RBPop (sent es !! length (received (s + j) es))].
Proof.
  intros Hg Hj Hgot Hno. destruct (mk_rel _ _ _ _ _ Hg j Hj) as (H0 & H1 & H2). pose proof (mk_bound _ _ _ _ _ Hg). pose proof (mtop_range a).
  rewrite (mk_received _ _ _ _ _ Hg j Hj), (mk_sent _ _ _ _ _ Hg), length_take, Hgot.
  replace (min (Z.to_nat (mrel a j)) (length (mlog a))) with (Z.to_nat (mrel a j)) by (unfold mlen in *; lia).
  destruct (Z.eqb_spec (m_flag (m_elems g (index_of (mrel a j)))) (not64 (mrel a j))) as [E|E].
  - destruct (flag_written _ _ _ _ Hg H0 ltac:(lia) E) as [Hlt Hn]. destruct (lookup_lt_is_Some_2 (mlog a) (Z.to_nat (mrel a j))) as [v Hv]; [unfold mlen in *; lia|].
    pose proof (mk_data _ _ _ _ _ Hg (mrel a j) v H0 (conj Hlt Hn) ltac:(lia) Hv) as Hd. destruct (mk_rc _ _ _ _ _ Hg (mrel a j) ltac:(lia) ltac:(lia)) as (bits & Erc & Hw).
    pose proof (changes_bound s r _ _ _ _ Hg (index_range (mrel a j))). pose proof (own_bit _ _ _ Hj Hw) as Hb0%Z.eqb_neq. pose proof (proj1 Hw) as Hb.
    destruct (Z.eqb_spec (Z.land bits (Z.lnot (2 ^ Z.of_nat j))) 0) as [El|El].
    + exists 6%nat. eexists _, _, _. exec_m. rewrite E, Z.eqb_refl.
      exec_m. rewrite Erc, pack_rem, Hb0 by lia. rewrite El, Z.eqb_refl.
      exec_m. rewrite at_flag_rc, Erc, Z.eqb_refl. exec_m.
      split; [done|]. split; [done|]. cbn. by rewrite Hd, Hv.
    + exists 5%nat. eexists _, _, _. exec_m. rewrite E, Z.eqb_refl.
      exec_m. rewrite Erc, pack_rem, Hb0 by lia. apply Z.eqb_neq in El. rewrite El.
      exec_m. rewrite Erc, Z.eqb_refl. exec_m.
      split; [done|]. split; [done|]. cbn. by rewrite Hd, Hv.
  - exists 2%nat. eexists _, _, _. cbn -[index_of not64]. apply Z.eqb_neq in E as E'. rewrite E'. split; [done|]. split; [done|]. cbn. rewrite lookup_ge_None_2; [done|].
    enough (~ mrel a j < mlen a) by (unfold mlen in *; lia). intros Hlt. apply E. destruct (mk_flag _ _ _ _ _ Hg (mrel a j)) as [F1 _]; [lia|lia|].
    destruct F1 as [[-> _]|[_ Hall]]; [|done|specialize (Hall j Hj); lia]. split; [done|]. destruct (writer a (mrel a j)) as [i|] eqn:Ew; [by apply Hno in Ew|done].
Qed.
(** The next place is free exactly when no receiver is a whole ring behind. *)
Lemma next_place_free g a es bits : mglobal s r g a es -> mclaim a = false -> 0 <= bits < 2 ^ 32 ->
  m_rc (m_elems g (index_of (mlen a))) = pack (changes r a (index_of (mlen a))) bits -> bits = 0 <-> forall j, (j < r)%nat -> mlen a < mrel a j + 256.
Proof.
  intros Hg Hcl Hb E. pose proof (mlen_nonneg a). assert (mtop a = mlen a) as Et by (unfold mtop; rewrite Hcl; lia). split.
  - intros -> j Hj. destruct (room s r g a es _ Hg Hcl E) as (_ & Hroom & _). specialize (Hroom j Hj). lia.
  - intros Hroom. destruct (rc_at s r g a es _ Hg (index_range (mlen a))) as (bits' & E' & Hb' & Hcase). rewrite E in E'. apply pack_inj in E' as [_ <-]; [|done..].
    destruct Hcase as [(k & Hk & Hw & Ei & [_ Ht])|[_ ->]]; [|done]. assert (k = mlen a - 256) as ->. { apply index_eq in Ei. lia. }
    apply Z.bits_inj'. intros i Hi. rewrite Z.bits_0, Ht by done. apply andb_false_iff. destruct (Z.ltb_spec i (Z.of_nat r)); [right|by left].
    apply Z.leb_gt. specialize (Hroom (Z.to_nat i) ltac:(lia)). lia.
Qed.

Definition has_room (es : list (event (b_event V))) : Prop := forall j, (j < r)%nat -> (length (sent es) < length (received (s + j) es) + 256)%nat.

(** A sender that runs alone succeeds exactly when no receiver is a whole ring
    behind. *)
Lemma m_push_alone x g a es v ops id c rs : mglobal s r g a es -> mclaim a = false -> (forall j, (j < r)%nat -> mgot a j = mrel a j) ->
  exists k g' l' es' b, solo m_step (mk_choice false x) k g (mk_m_thread (BPush v :: ops) MIdle id c rs) = Some (g', l', es') /\
    m_at l' = MIdle /\ m_results l' = rs ++ [RBPush v b] /\ (b = true <-> has_room es).
Proof.
  intros Hg Hcl Hgot. pose proof (mk_r _ _ _ _ _ Hg). pose proof (mk_cc _ _ _ _ _ Hg) as Hcc. pose proof (mk_epoch _ _ _ _ _ Hg) as Hep. pose proof (mk_ct _ _ _ _ _ Hg) as Hct.
  destruct (rc_at s r g a es _ Hg (index_range (mlen a))) as (bits & E & Hb & _). pose proof (next_place_free _ _ _ _ Hg Hcl Hb E) as Hfree.
  assert (has_room es <-> forall j, (j < r)%nat -> mlen a < mrel a j + 256) as Hr.
  { unfold has_room. rewrite (mk_sent _ _ _ _ _ Hg). split; intros Hall j Hj; specialize (Hall j Hj); destruct (mk_rel _ _ _ _ _ Hg j Hj) as (? & ? & ?); specialize (Hgot j Hj);
      rewrite (mk_received _ _ _ _ _ Hg j Hj), length_take in *; unfold mlen in *; lia. }
  assert ((all_bits r =? 0) = false) as Hcc0.
  { apply Z.eqb_neq. intros E0. pose proof (all_bits_test r 0 ltac:(lia)) as Ht. rewrite E0, Z.bits_0 in Ht. symmetry in Ht. apply Z.ltb_ge in Ht. lia. }
  pose proof (changes_bound s r _ _ _ _ Hg (index_range (mlen a))). pose proof (rc_connected _ _ _ _ _ Hg (index_range (mlen a)) Hb E) as Hland.
  destruct (Z.eqb_spec bits 0) as [->|Hn].
  - destruct (room s r g a es _ Hg Hcl E) as (_ & _ & Hflag). exists 12%nat. eexists _, _, _, true. exec_m. rewrite Hcc, Hcc0. exec_m. rewrite Hct, E, pack_rem, Hland by lia. change (0 =? 0) with true. exec_m.
    assert (negb (m_flag (m_elems g (index_of (mlen a))) =? mlen a) && negb (m_flag (m_elems g (index_of (mlen a))) =? 0) = false) as ->.
    { destruct Hflag as [->|[-> _]]; [by rewrite Z.eqb_refl|by rewrite andb_false_r]. }
    exec_m. rewrite E, Z.eqb_refl. exec_m. rewrite Z.eqb_refl. exec_m. split; [done|]. split; [done|]. split; [done|]. rewrite Hr. split; [intros _; by apply Hfree|done].
  - exists 5%nat. eexists _, _, _, false. exec_m. rewrite Hcc, Hcc0. exec_m. rewrite Hct, E, pack_rem, pack_epoch, Hland, Hep by lia. apply Z.eqb_neq in Hn as Hn'. rewrite Hn'.
    change (0 =? 0) with true. exec_m. split; [done|]. split; [done|]. split; [done|]. rewrite Hr. split; [done|]. intros Hroom. by apply Hfree in Hroom.
Qed.
End steps.

(** * What the threads report

    The values a thread sent and received, by its results and by the operation it
    is in. *)
Section reports.
Context {V : Type}.
Implicit Types (g : mring V) (l : m_thread V).

Definition sent_by (i : nat) (es : list (event (b_event V))) : list V :=
  omap (fun e => if decide (e.1 = i) then match e.2 with EBPush v => Some v | EBPop _ => None end else None) es.
Definition pushed l : list V := omap (fun x => match x with RBPush v true => Some v | _ => None end) (m_results l).
Definition popped l : list V := omap (fun x => match x with RBPop v => v | _ => None end) (m_results l).
Definition pushing (p : m_pc V) : list V := match p with MBegin v _ | MData v _ | MFlag v _ => [v] | _ => [] end.
Definition popping (p : m_pc V) : list V := match p with NLoadRc v _ | NFlag v _ _ | NFlagDone v _ | NCas v _ _ => [v] | _ => [] end.

Lemma reports_step i w g l g' l' new : m_step w g l = Some (g', l', new) ->
  pushed l' ++ pushing (m_at l') = pushed l ++ pushing (m_at l) ++ sent_by i (pair i <$> new) /\
  popped l' ++ popping (m_at l') = popped l ++ popping (m_at l) ++ received i (pair i <$> new).
Proof.
  destruct l as [todo at_ id c rs]. unfold m_step, pushed, popped, sent_by, received. destruct at_; simpl; intros Hs; repeat case_match; simplify_eq; cbn [m_goto m_finish set_m_id set_m_cursor m_at m_results fmap list_fmap omap list_omap fst snd pushing popping];
     rewrite ?omap_app, ?decide_True by done; cbn; rewrite ?app_nil_r.
  all: try done. all: unfold push_fails; destruct inner; cbn; rewrite ?omap_app; cbn; by rewrite ?app_nil_r.
Qed.

Definition reported (st : sys (mring V) (m_thread V)) (es : list (event (b_event V))) : Prop :=
  forall i l, st.2 !! i = Some l -> pushed l ++ pushing (m_at l) = sent_by i es /\ popped l ++ popping (m_at l) = received i es.

Lemma other_events i k (new : list (b_event V)) : i <> k -> sent_by k (pair i <$> new) = [] /\ received k (pair i <$> new) = [].
Proof.
  intros Hne. unfold sent_by, received. induction new as [|e new [IH1 IH2]]; [done|]. cbn. by rewrite !decide_False.
Qed.

Lemma reported_run st sched : reported st [] -> reported (m_run st sched).1 (m_run st sched).2.
Proof.
  intros Hst. apply (sys_run_inv m_step reported); [done|]. clear. intros [g ls] es [i w] IH. unfold sys_step. cbn [fst snd].
  destruct (ls !! i) as [l|] eqn:Ei; [|by rewrite app_nil_r]. destruct (m_step w g l) as [[[g' l'] new]|] eqn:Es; [|by rewrite app_nil_r].
  intros k lk. cbn [fst snd]. unfold sent_by at 1, received at 1. rewrite !omap_app. intros [(<- & <- & _)|(Hne & Hk)]%list_lookup_insert_Some.
  - destruct (IH i l Ei) as [I1 I2], (reports_step i _ _ _ _ _ _ Es) as [-> ->]. unfold sent_by, received in *. rewrite !app_assoc. by rewrite I1, I2.
  - destruct (IH k lk Hk) as [-> ->], (other_events i k new Hne) as [E1 E2]. unfold sent_by, received in *. by rewrite E1, E2, !app_nil_r.
Qed.
End reports.

(** * Connected receivers

    Senders with values to send, and receivers each with its number of pops; the
    first [k] receivers have connected. *)
Section start.
Context {V : Type} (zero : V) (sends : list (list V)) (pops : list nat).

Definition m_receiver (k j p : nat) : m_thread V :=
  if decide (j < k)%nat then mk_m_thread (replicate p BPop) MIdle (2 ^ Z.of_nat j) 0 []
  else m_thread_init (BConnect :: replicate p BPop).
Definition m_connecting (k : nat) : sys (mring V) (m_thread V) :=
  (set_m_cc (all_bits k) (mring_init zero), ((fun vs => m_thread_init (BPush <$> vs)) <$> sends) ++ imap (m_receiver k) pops).
Definition m_ready : sys (mring V) (m_thread V) := m_connecting (length pops).

Lemma m_connect_alone x k ops : (k < 32)%nat ->
  solo m_step (mk_choice false x) 4 (set_m_cc (all_bits k) (mring_init zero)) (m_thread_init (BConnect :: ops)) =
  Some (set_m_cc (all_bits (S k)) (mring_init zero), mk_m_thread ops MIdle (2 ^ Z.of_nat k) 0 [], []).
Proof.
  intros Hk. destruct (all_bits_next k Hk) as [E1 E2]. cbn -[all_bits u32 Z.lor Z.lxor Z.eqb Z.pow]. change (0 =? 0) with true. cbn -[all_bits u32 Z.lor Z.lxor Z.eqb Z.pow]. rewrite E1.
  assert ((all_bits (S k) =? 0) = false) as ->.
  { apply Z.eqb_neq. intros E. pose proof (all_bits_test (S k) (Z.of_nat k) ltac:(lia)) as Ht. rewrite E, Z.bits_0 in Ht. symmetry in Ht. apply Z.ltb_ge in Ht. lia. }
  cbn -[all_bits u32 Z.lor Z.lxor Z.eqb Z.pow]. rewrite Z.eqb_refl, E1, E2. cbn -[all_bits u32 Z.lor Z.lxor Z.eqb Z.pow].
  assert ((2 ^ Z.of_nat k =? 0) = false) as -> by (apply Z.eqb_neq; lia). done.
Qed.

(** Receivers that connect one after the other are ready. *)
Lemma m_receivers_connect x : (length pops <= 32)%nat ->
  m_run (m_connecting 0) (concat ((fun j => replicate 4 ((length sends + j)%nat, mk_choice false x)) <$> seq 0 (length pops))) = (m_ready, []).
Proof.
  intros Hn. unfold m_ready. enough (forall k, (k <= length pops)%nat ->
    m_run (m_connecting 0) (concat ((fun j => replicate 4 ((length sends + j)%nat, mk_choice false x)) <$> seq 0 k)) = (m_connecting k, [])) as Hk by (by apply Hk).
  induction k as [|k IH]; intros Hk; [done|]. rewrite seq_S, fmap_app, concat_app. unfold m_run in *. rewrite sys_run_app, IH by lia. cbn [fmap list_fmap concat]. rewrite app_nil_r, Nat.add_0_l.
  destruct (lookup_lt_is_Some_2 pops k) as [p Hp]; [lia|]. pose proof (m_connect_alone x k (replicate p BPop) ltac:(lia)) as Hsolo.
  assert (m_receiver k k p = m_thread_init (BConnect :: replicate p BPop)) as Er by (unfold m_receiver; by rewrite decide_False by lia). rewrite <- Er in Hsolo.
  unfold m_connecting at 1. rewrite (solo_run m_step _ 4 _ _ _ _ _ (length sends + k) _ Hsolo).
  - cbn [fmap list_fmap app]. f_equal. unfold m_connecting. f_equal. rewrite insert_app_r_alt by (rewrite length_fmap; lia). rewrite length_fmap. replace (length sends + k - length sends)%nat with k by lia.
    f_equal. apply list_eq. intros j. rewrite list_lookup_imap. destruct (decide (j = k)) as [->|Hne].
    + rewrite list_lookup_insert_eq by (rewrite length_imap; lia). rewrite Hp. cbn. unfold m_receiver. by rewrite decide_True by lia.
    + rewrite list_lookup_insert_ne by done. rewrite list_lookup_imap. destruct (pops !! j); [|done]. cbn. unfold m_receiver. f_equal. by destruct (decide (j < k)%nat), (decide (j < S k)%nat); try lia.
  - rewrite lookup_app_r by (rewrite length_fmap; lia). rewrite length_fmap. replace (length sends + k - length sends)%nat with k by lia. by rewrite list_lookup_imap, Hp.
Qed.

Definition mglobal' (_ : nat) := @mglobal V (length sends) (length pops).
Definition mlocal' := @mlocal V (length sends) (length pops).
Definition calm (_ : nat) g a es : Prop := mglobal' 0 g a es /\ owned a.

Lemma m_ready_start : (0 < length pops <= 32)%nat -> let a := mk_mghost [] false None (fun _ => None) (fun _ => 0) (fun _ => 0) in
  mglobal' 0 m_ready.1 a [] /\ forall i l, m_ready.2 !! i = Some l -> mlocal' i m_ready.1 a l.
Proof.
  intros Hn a. unfold m_ready, m_connecting. cbn [fst snd]. split.
  - split; try done; unfold mtop, mlen; cbn; intros; lia.
  - intros i l [Hl|[Hge Hl]]%lookup_app_Some.
    + apply lookup_lt_Some in Hl as Hlt. rewrite length_fmap in Hlt. apply list_lookup_fmap_Some in Hl as (vs & -> & _). apply sender_local; [done| |done..].
      cbn. apply list.Forall_forall. intros op (v & -> & _)%list_elem_of_fmap. done.
    + rewrite length_fmap in Hge, Hl. rewrite list_lookup_imap in Hl. apply fmap_Some in Hl as (p & Hp & ->). apply lookup_lt_Some in Hp as Hlt. unfold m_receiver. rewrite decide_True by lia.
      replace i with (length sends + (i - length sends))%nat at 1 by lia. apply receiver_local; [done| |done..]. apply list.Forall_forall. intros op [-> _]%elem_of_replicate. done.
Qed.

Lemma m_ready_run sched : (0 < length pops <= 32)%nat -> let x := m_run m_ready sched in fits_m x.2 -> holds mglobal' mlocal' x.1 x.2.
Proof.
  intros Hn x. eapply (holds_run m_step mglobal' mlocal' (mguar (length sends) (length pops)) fits_m); [apply fits_m_prefix| |apply mguar_stable|eexists; by apply m_ready_start].
  intros n i w g a l g' l' es new Hi Hg Hl Hf Hs. destruct (m_step_ok _ _ n i w g a l g' l' es new Hi Hg Hl Hf Hs) as (a' & ? & ? & ? & _). by exists a'.
Qed.

(** Without spurious failures no claim is ever given up. *)
Lemma calm_run (st : sys (mring V) (m_thread V)) sched : Forall (fun c => spurious c.2 = false) sched ->
  m_run st sched = sys_run (fun x => m_step (mk_choice false x)) st ((fun c => (c.1, torn c.2)) <$> sched).
Proof.
  unfold m_run. intros Hs. revert st. induction Hs as [|[i [sp x]] sched Hc _ IH]; intros st; [done|]. cbn in Hc. subst sp. cbn [sys_run fmap list_fmap fst snd torn].
  change (sys_step (fun x => m_step (mk_choice false x)) st (i, x)) with (sys_step m_step st (i, mk_choice false x)). destruct (sys_step m_step st _) as [s1 es1]. by rewrite IH.
Qed.
Lemma m_ready_calm sched : (0 < length pops <= 32)%nat -> Forall (fun c => spurious c.2 = false) sched ->
  let x := m_run m_ready sched in fits_m x.2 -> holds calm mlocal' x.1 x.2.
Proof.
  intros Hn Hc x. unfold x. rewrite calm_run by done.
  eapply (holds_run _ calm mlocal' (mguar (length sends) (length pops)) fits_m); [apply fits_m_prefix| |apply mguar_stable|eexists; split; [split; [by apply m_ready_start|done]|by apply m_ready_start]].
  intros n i w g a l g' l' es new Hi [Hg Ho] Hl Hf Hs. destruct (m_step_ok _ _ n i _ g a l g' l' es new Hi Hg Hl Hf Hs) as (a' & ? & ? & ? & Hk). exists a'. split; [split; [done|by apply Hk]|done].
Qed.
Lemma m_ready_reported : reported m_ready [].
Proof.
  intros i l [Hl|[_ Hl]]%lookup_app_Some.
  - apply list_lookup_fmap_Some in Hl as (vs & -> & _). done.
  - rewrite list_lookup_imap in Hl. apply fmap_Some in Hl as (p & _ & ->). unfold m_receiver. by destruct (decide _).
Qed.
Lemma m_ready_length sched : length (m_run m_ready sched).1.2 = (length sends + length pops)%nat.
Proof.
  apply (sys_run_inv m_step (fun st _ => length st.2 = (length sends + length pops)%nat)); [unfold m_ready, m_connecting; cbn; by rewrite length_app, length_fmap, length_imap|].
  intros [g ls] es [i w] E. unfold sys_step. cbn [fst snd] in *. destruct (ls !! i); [|done]. destruct (m_step w g _) as [[[? ?] ?]|]; [|done]. cbn. by rewrite length_insert.
Qed.
End start.

(** When nobody is in an operation. *)
Definition at_rest {V} (st : sys (mring V) (m_thread V)) : Prop := forall i l, st.2 !! i = Some l -> m_at l = MIdle.
Lemma rest_facts {V} s r (st : sys (mring V) (m_thread V)) a es : mglobal s r st.1 a es -> (forall i l, st.2 !! i = Some l -> mlocal s r i st.1 a l) ->
  length st.2 = (s + r)%nat -> at_rest st -> (forall k i, writer a k <> Some i) /\ mowner a = None /\ forall j, (j < r)%nat -> mgot a j = mrel a j.
Proof.
  intros Hg Hl Hlen Hq. assert (forall i, (i < s)%nat -> mowner a <> Some i /\ forall k, writer a k <> Some i) as Hs.
  { intros i Hi. destruct (lookup_lt_is_Some_2 st.2 i) as [l El]; [lia|]. pose proof (Hl i l El) as Hli. unfold mlocal in Hli. rewrite decide_True in Hli by done.
    rewrite (Hq i l El) in Hli. destruct Hli as (_ & _ & Hw & Ho). split; [by intros []%Ho|]. by intros k []%Hw. }
  split; [|split].
  - intros k i Hw. destruct (mk_writer _ _ _ _ _ Hg k i Hw) as [_ Hi]. by apply (Hs i Hi) in Hw.
  - destruct (mowner a) as [i|] eqn:Ho; [|done]. destruct (mk_owner _ _ _ _ _ Hg i Ho) as [_ Hi]. by destruct (Hs i Hi).
  - intros j Hj. destruct (lookup_lt_is_Some_2 st.2 (s + j)) as [l El]; [lia|]. pose proof (Hl _ l El) as Hli. unfold mlocal in Hli. rewrite decide_False in Hli by lia.
    rewrite (Hq _ l El) in Hli. replace (s + j - s)%nat with j in Hli by lia. by destruct Hli as (_ & _ & _ & _ & ?).
Qed.

(** * Claims *)
(** C13: several senders, up to 32 connected receivers. In any interleaving, with
    weak exchanges failing at will and elements seen half written, as long as
    fewer than 2^26 messages are sent: what a receiver has read is the beginning
    of what was sent, untorn and in one order for all, and no receiver falls more
    than a ring of 256 behind; what a thread that is in no operation reported as
    sent or received is what it did send or receive, in its order. When everybody
    is at rest, a receiver alone reads its next message unless it has them all;
    and if no exchange failed spuriously, a sender alone succeeds exactly when no
    receiver is a whole ring behind. *)
Theorem senders_reach_everyone {V} (zero : V) (sends : list (list V)) (pops : list nat) (sched : list (nat * choice V)) (st : sys (mring V) (m_thread V)) (es : list (event (b_event V))) :
  (0 < length pops <= 32)%nat -> m_run (m_ready zero sends pops) sched = (st, es) -> Z.of_nat (length (sent es)) < 2 ^ 26 ->
  (forall j, (j < length pops)%nat -> received (length sends + j) es `prefix_of` sent es /\ (length (sent es) <= length (received (length sends + j) es) + 256)%nat) /\
  (forall i l, st.2 !! i = Some l -> m_at l = MIdle -> pushed l = sent_by i es /\ popped l = received i es) /\
  (at_rest st -> forall x i l op ops, st.2 !! i = Some l -> m_todo l = op :: ops ->
    match op with
    | BPush v => Forall (fun c => spurious c.2 = false) sched ->
        exists k g' l' es' b, solo m_step (mk_choice false x) k st.1 l = Some (g', l', es') /\ m_at l' = MIdle /\ m_results l' = m_results l ++ [RBPush v b] /\
          (b = true <-> has_room (length sends) (length pops) es)
    | _ => exists k g' l' es', solo m_step (mk_choice false x) k st.1 l = Some (g', l', es') /\ m_at l' = MIdle /\
        m_results l' = m_results l ++ [RBPop (sent es !! length (received i es))]
    end).
Proof.
  intros Hn Hrun Hf. pose proof (m_ready_run zero sends pops sched Hn) as Hh. rewrite Hrun in Hh. destruct (Hh Hf) as (a & Hg & Hl). cbn [fst snd] in *. clear Hh.
  pose proof (m_ready_length zero sends pops sched) as Hlen. rewrite Hrun in Hlen. cbn [fst] in Hlen. pose proof (mtop_range a). split; [|split].
  - intros j Hj. destruct (mk_rel _ _ _ _ _ Hg j Hj) as (? & ? & ?). rewrite (mk_sent _ _ _ _ _ Hg), (mk_received _ _ _ _ _ Hg j Hj). split; [apply prefix_take|].
    rewrite length_take. unfold mlen in *. lia.
  - intros i l Hi Hidle. pose proof (reported_run _ sched (m_ready_reported zero sends pops)) as Hr. rewrite Hrun in Hr. specialize (Hr i l Hi). rewrite Hidle in Hr. cbn [pushing popping] in Hr. by rewrite !app_nil_r in Hr.
  - intros Hq x i l op ops Hi Hop. destruct (rest_facts _ _ _ _ _ Hg Hl Hlen Hq) as (Hw & _ & Hgot). pose proof (Hl i l Hi) as Hli. pose proof (Hq i l Hi) as Hidle.
    apply lookup_lt_Some in Hi as Hlt. destruct l as [todo at_ id c rs]. cbn [m_todo m_at m_results] in *. subst todo at_. unfold mlocal', mlocal in Hli. destruct (decide (i < length sends)%nat) as [His|His].
    + destruct Hli as (Ht & _). apply list.Forall_cons in Ht as [Hop _]. destruct op; try done. intros Hcalm.
      pose proof (m_ready_calm zero sends pops sched Hn Hcalm) as Hh. rewrite Hrun in Hh. destruct (Hh Hf) as (b & [Hb Hown] & Hlb). cbn [fst snd] in *.
      destruct (rest_facts _ _ _ _ _ Hb Hlb Hlen Hq) as (_ & Ho & Hgot'). apply (m_push_alone _ _ x _ b); [done| |done]. destruct (mclaim b) eqn:Hcl; [|done]. by destruct (Hown Hcl).
    + destruct Hli as (Ht & Hj & Hid & Hc & _). apply list.Forall_cons in Ht as [Hop _]. destruct op; try done. cbn in Hid, Hc. subst id c.
      replace (received i es) with (received (length sends + (i - length sends)) es) by (f_equal; lia). apply (m_pop_alone (length sends) (length pops) x _ a); auto.
Qed.

(** Two senders and two receivers; the second sender claims the place after a
    spurious failure, and the first receiver reads while it writes. *)
Definition m_demo : list (nat * choice nat) :=
  turns 9 0 0%nat ++ turns 6 1 0%nat ++ [(1%nat, mk_choice true 0%nat)] ++ turns 7 1 9%nat ++ turns 2 2 0%nat ++ turns 3 0 0%nat ++ turns 5 2 0%nat ++ turns 2 1 9%nat ++ turns 8 3 0%nat.
Lemma senders_reach_everyone_witness : let x := m_run (m_ready 0%nat [[5; 6]; [7]]%nat [3; 1]%nat) m_demo in
  (sent x.2 = [5; 7] /\ received 2 x.2 = [5] /\ received 3 x.2 = [5])%nat /\
  (forall j, (j < 2)%nat -> received (2 + j) x.2 `prefix_of` sent x.2 /\ (length (sent x.2) <= length (received (2 + j) x.2) + 256)%nat).
Proof.
  intros x. split; [vm_compute; done|]. apply (senders_reach_everyone 0%nat [[5; 6]; [7]]%nat [3; 1]%nat m_demo x.1 x.2); [simpl; lia|apply surjective_pairing|vm_compute; reflexivity].
Defined.

(** * Where the ring stops

    The exchange of the epoch is weak. When it fails after the word of the element
    was exchanged, the sender starts again, and finds the element claimed, by
    itself: with an empty ring and one receiver that waits, this push and every
    later one report a full ring, until a push is forced, which disconnects the
    receiver. *)
Definition m_lonely : sys (mring nat) (m_thread nat) := m_ready 0%nat [[5; 6; 7]]%nat [3]%nat.
Definition m_forcing (st : sys (mring nat) (m_thread nat)) : sys (mring nat) (m_thread nat) :=
  (st.1, match st.2 with l :: ls => mk_m_thread [BForce 8%nat] (m_at l) (m_id l) (m_cursor l) (m_results l) :: ls | [] => [] end).
Lemma failed_epoch_exchange_stops_senders :
  let x := m_run m_lonely (turns 7 0 0%nat ++ [(0%nat, mk_choice true 0%nat)] ++ turns 3 0 0%nat ++ turns 2 1 0%nat ++ turns 10 0 0%nat ++ turns 2 1 0%nat) in
  let y := m_run (m_forcing x.1) (turns 6 0 0%nat) in
  x.2 = [] /\ (m_results <$> x.1.2) = [[RBPush 5%nat false; RBPush 6%nat false; RBPush 7%nat false]; [RBPop None; RBPop None]] /\
  m_cc x.1.1 = 1 /\ m_cc y.1.1 = 0 /\ (list.last ∘ m_results <$> y.1.2) = [Some (RBPush 8%nat false); Some (RBPop None)].
Proof. vm_compute. done. Qed.

(** The flag the last reader leaves is the number of the next message of the
    place, computed in 64 bits; the commit index it is compared with has 32. In
    the last lap before the index wraps the flag is beyond every index: the place
    of message [k] stays shut for good, and from then on every push reports a full
    ring although every message was read. *)
Definition m_wrapping (k : Z) : sys (mring nat) (m_thread nat) :=
  (mk_mring 1 k 0 (fun i => mk_melem 0%nat 0 (k + (i - index_of k) mod 256)),
   [m_thread_init [BPush 5%nat]; mk_m_thread [BPop] MIdle 1 k []]).
Definition m_come_round (st : sys (mring nat) (m_thread nat)) (k : Z) : sys (mring nat) (m_thread nat) :=
  (set_m_ct k st.1, (fun l => mk_m_thread [BPush 6%nat] (m_at l) (m_id l) (m_cursor l) (m_results l)) <$> st.2).
Lemma place_shut_after_wrap :
  let x := m_run (m_wrapping (2 ^ 32 - 2)) (turns 12 0 0%nat ++ turns 6 1 0%nat) in
  let y := m_run (m_come_round x.1 (u32 (2 ^ 32 - 2 + 256))) (turns 12 0 0%nat) in
  (m_results <$> x.1.2) = [[RBPush 5%nat true]; [RBPop (Some 5%nat)]] /\
  m_flag (m_elems x.1.1 254) = 2 ^ 32 + 254 /\ Z.land (m_rc (m_elems x.1.1 254)) rc_mask = 0 /\
  (m_results <$> y.1.2) !! 0%nat = Some [RBPush 5%nat true; RBPush 6%nat false].
Proof. vm_compute. done. Qed.
