(* ===== verification/ChanApi.v ===== *)
(** The handles of channels, of every kind: who may send and who receives
    ([shm-ipc/src/libipc/circ/elem_array.h], [circ/elem_def.h], [queue.h], the
    API of [src/ipc.cpp] and the class [chan_wrapper] of [include/libipc/ipc.h]).
    The rings themselves are in [Ring], [RingSingle] and [Broadcast], messages in
    [Channel]. Shared memory is granted whenever it is asked for, so that a
    channel with a name always opens. *)
From stdpp Require Import prelude gmap strings list.
From Stdlib Require Import ZArith Lia Ascii.
From S2P Require Import Prelude Cpp Broadcast.

Open Scope Z_scope.

(** * The kind of a channel *)
Record relat := mk_relat { is_multi_producer : bool; is_multi_consumer : bool; is_broadcast : bool }.

(** * Shared: the connections and the flags of the checkers *)
Record head := mk_head { h_cc : Z; s_flag : bool; r_flag : bool }.
Definition head_zero : head := mk_head 0 false false.
Definition set_h_cc x (h : head) := mk_head x (s_flag h) (r_flag h).
Definition set_s_flag x (h : head) := mk_head (h_cc h) x (r_flag h).
Definition set_r_flag x (h : head) := mk_head (h_cc h) (s_flag h) x.

(** The channels by name. *)
Abbreviation heads := (gmap str head).

Section kind.
Context (rel : relat).

(** [conn_head]: the lowest free bit, or one more. *)
Definition conn_connect (h : head) : Z * head :=
  if is_broadcast rel then
    let curr := h_cc h in
    let next := Z.lor curr (u32 (curr + 1)) in
    if next =? 0 then (0, h) else (Z.lxor next curr, set_h_cc next h)
  else let x := u32 (h_cc h + 1) in (x, set_h_cc x h).
Definition conn_disconnect (cc_id : Z) (h : head) : head :=
  if is_broadcast rel then set_h_cc (Z.land (h_cc h) (Z.lnot cc_id)) h
  else if cc_id =? 2 ^ 32 - 1 then set_h_cc 0 h
  else set_h_cc (u32 (h_cc h - 1)) h.
Definition head_conn_count (h : head) : Z := if is_broadcast rel then count_loop 32 (h_cc h) else h_cc h.

(** [sender_checker], [receiver_checker]. *)
Definition connect_sender (h : head) : bool * head :=
  if is_multi_producer rel then (true, h) else (negb (s_flag h), set_s_flag true h).
Definition disconnect_sender (h : head) : head := if is_multi_producer rel then h else set_s_flag false h.
Definition connect_receiver (h : head) : Z * head :=
  if is_multi_consumer rel then conn_connect h
  else if r_flag h then (0, h) else conn_connect (set_r_flag true h).
Definition head_disconnect_receiver (cc_id : Z) (h : head) : head :=
  if is_multi_consumer rel then conn_disconnect cc_id h else conn_disconnect cc_id (set_r_flag false h).

(** [force_push] of the transmissions to one receiver each: nothing is pushed,
    and the receivers, or one of several, are disconnected. *)
Definition unicast_force_push (h : head) : bool * head :=
  (false, head_disconnect_receiver (if is_multi_consumer rel then 1 else 2 ^ 32 - 1) h).

(** * A process's handle: its queue *)
Record que := mk_que { q_name : str; q_connected : Z; q_sender_flag : bool }.
Definition head_of (name : str) (hs : heads) : head := at_or head_zero name hs.

Definition q_ready_sending (q : que) (hs : heads) : bool * que * heads :=
  if q_sender_flag q then (true, q, hs)
  else let '(b, h) := connect_sender (head_of (q_name q) hs) in
       (b, mk_que (q_name q) (q_connected q) b, <[q_name q := h]> hs).
(** The flag of the queue stays. *)
Definition q_shut_sending (q : que) (hs : heads) : heads :=
  if q_sender_flag q then <[q_name q := disconnect_sender (head_of (q_name q) hs)]> hs else hs.
Definition q_connect (q : que) (hs : heads) : bool * que * heads :=
  if negb (q_connected q =? 0) then (true, q, hs)
  else let '(id, h) := connect_receiver (head_of (q_name q) hs) in
       (negb (id =? 0), mk_que (q_name q) id (q_sender_flag q), <[q_name q := h]> hs).
Definition q_disconnect (q : que) (hs : heads) : bool * que * heads :=
  if q_connected q =? 0 then (false, q, hs)
  else (true, mk_que (q_name q) 0 (q_sender_flag q),
        <[q_name q := head_disconnect_receiver (q_connected q) (head_of (q_name q) hs)]> hs).

(** * The API of [ipc.cpp] on the queue of a handle; no handle is [None] *)
Definition api_disconnect (h : option que) (hs : heads) : option que * heads :=
  match h with
  | None => (None, hs)
  | Some q => let '(_, q, hs) := q_disconnect q (q_shut_sending q hs) in (Some q, hs)
  end.
Definition api_reconnect (q : que) (start_to_recv : bool) (hs : heads) : bool * que * heads :=
  if start_to_recv then q_connect q (q_shut_sending q hs)
  else
    let '(q, hs) := if negb (q_connected q =? 0) then let '(_, q, hs) := q_disconnect q hs in (q, hs) else (q, hs) in
    q_ready_sending q hs.
(** The name is used if there is no handle yet. *)
Definition api_connect (h : option que) (name : str) (start_to_recv : bool) (hs : heads) : bool * que * heads :=
  api_reconnect (default (mk_que name 0 false) h) start_to_recv hs.
Definition api_destroy (h : option que) (hs : heads) : heads := (api_disconnect h hs).2.
Definition api_recv_count (h : option que) (hs : heads) : Z :=
  match h with None => 2 ^ 64 - 1 | Some q => head_conn_count (head_of (q_name q) hs) end.

(** * [chan_wrapper] *)
Record wrapper := mk_wrapper { w_h : option que; w_mode : Z; w_connected : bool }.
Definition wrapper_empty : wrapper := mk_wrapper None 0 false.
(** [mode & receiver] *)
Definition as_receiver (mode : Z) : bool := negb (Z.land mode 1 =? 0).

Definition wrapper_connect (name : str) (mode : Z) (w : wrapper) (hs : heads) : bool * wrapper * heads :=
  if decide (name = []) then (false, w, hs)
  else
    let '(h, hs) := api_disconnect (w_h w) hs in
    let '(b, q, hs) := api_connect h name (as_receiver mode) hs in
    (b, mk_wrapper (Some q) mode b, hs).
Definition wrapper_new (name : str) (mode : Z) (hs : heads) : wrapper * heads :=
  let '(b, w, hs) := wrapper_connect name mode wrapper_empty hs in (mk_wrapper (w_h w) (w_mode w) b, hs).
Definition wrapper_reconnect (mode : Z) (w : wrapper) (hs : heads) : bool * wrapper * heads :=
  match w_h w with
  | None => (false, w, hs)
  | Some q =>
      if w_connected w && (w_mode w =? mode) then (true, w, hs)
      else let '(b, q, hs) := api_reconnect q (as_receiver mode) hs in (b, mk_wrapper (Some q) mode b, hs)
  end.
Definition wrapper_disconnect (w : wrapper) (hs : heads) : wrapper * heads :=
  match w_h w with
  | None => (w, hs)
  | Some _ => let '(h, hs) := api_disconnect (w_h w) hs in (mk_wrapper h (w_mode w) false, hs)
  end.
Definition wrapper_clone (w : wrapper) (hs : heads) : wrapper * heads :=
  wrapper_new (match w_h w with Some q => q_name q | None => [] end) (w_mode w) hs.
Definition wrapper_recv_count (w : wrapper) (hs : heads) : Z := api_recv_count (w_h w) hs.

(** * Programs

    The wrappers of all processes; [None] is one that was destroyed. *)
Inductive chan_op :=
  | ONew (name : str) (mode : Z)
  | OConnect (i : nat) (name : str) (mode : Z)
  | OReconnect (i : nat) (mode : Z)
  | ODisconnect (i : nat)
  | OClone (i : nat)
  | OSwap (i j : nat)
  | ODestroy (i : nat).

Definition world : Type := list (option wrapper) * heads.
Definition on_wrapper (i : nat) (f : wrapper -> heads -> option wrapper * heads) (s : world) : world :=
  match s.1 !! i with
  | Some (Some w) => let '(w, hs) := f w s.2 in (<[i := w]> s.1, hs)
  | _ => s
  end.
Definition add_wrapper (r : wrapper * heads) (s : world) : world := (s.1 ++ [Some r.1], r.2).

Definition chan_step (s : world) (op : chan_op) : world :=
  match op with
  | ONew name mode => add_wrapper (wrapper_new name mode s.2) s
  | OConnect i name mode => on_wrapper i (fun w hs => let '(_, w, hs) := wrapper_connect name mode w hs in (Some w, hs)) s
  | OReconnect i mode => on_wrapper i (fun w hs => let '(_, w, hs) := wrapper_reconnect mode w hs in (Some w, hs)) s
  | ODisconnect i => on_wrapper i (fun w hs => let '(w, hs) := wrapper_disconnect w hs in (Some w, hs)) s
  | OClone i => match s.1 !! i with Some (Some w) => add_wrapper (wrapper_clone w s.2) s | _ => s end
  | OSwap i j =>
      match s.1 !! i, s.1 !! j with
      | Some (Some wi), Some (Some wj) => (<[j := Some wi]> (<[i := Some wj]> s.1), s.2)
      | _, _ => s
      end
  | ODestroy i => on_wrapper i (fun w hs => (None, api_destroy (w_h w) hs)) s
  end.
Definition chan_run (ops : list chan_op) : world := foldl chan_step ([], ∅) ops.
End kind.
