(* ===== verification/ChanApiClaims.v ===== *)
(** What the handles of channels guarantee: receivers are counted exactly. *)
From stdpp Require Import prelude gmap strings list.
From Stdlib Require Import ZArith Lia Ascii.
From S2P Require Import Prelude Cpp Broadcast ChanApi.

Open Scope Z_scope.

#[local] Arguments u32 : simpl never.

(** * Sets of bits *)
(** The lowest bit that is not set. *)
Lemma lowest_zero n cc : 0 <= cc < 2 ^ Z.of_nat n - 1 ->
  exists b, 0 <= b < Z.of_nat n /\ Z.testbit cc b = false /\ Z.lor cc (cc + 1) = Z.lor cc (2 ^ b).
Proof.
  revert cc. induction n as [|n IH]; intros cc Hcc; [change (2 ^ Z.of_nat 0) with 1 in Hcc; lia|].
  rewrite Nat2Z.inj_succ, Z.pow_succ_r in Hcc by lia.
  destruct (Z.even cc) eqn:Ee.
  - exists 0. split; [lia|]. apply Z.even_spec in Ee as [x ->]. rewrite Z.testbit_even_0. split; [done|].
    apply Z.bits_inj'. intros i Hi. rewrite !Z.lor_spec. destruct (Z.eq_dec i 0) as [->|Hi0]; [by rewrite Z.testbit_odd_0, Z.testbit_even_0|].
    assert (i = Z.succ (i - 1)) as -> by lia. rewrite Z.testbit_odd_succ, Z.testbit_even_succ by lia.
    rewrite Z.pow2_bits_false, orb_false_r by lia. apply orb_diag.
  - assert (Z.odd cc = true) as [x ->]%Z.odd_spec by (by rewrite <- Z.negb_even, Ee).
    destruct (IH x) as (b & Hb & Ht & Hl); [lia|]. exists (b + 1). split; [lia|].
    replace (b + 1) with (Z.succ b) by lia. rewrite Z.testbit_odd_succ by lia. split; [done|].
    apply Z.bits_inj'. intros i Hi. rewrite !Z.lor_spec. destruct (Z.eq_dec i 0) as [->|Hi0]; [by rewrite Z.testbit_odd_0|].
    assert (i = Z.succ (i - 1)) as -> by lia. set (j := i - 1). assert (0 <= j) as Hj by lia.
    replace (2 * x + 1 + 1) with (2 * (x + 1)) by lia. rewrite Z.testbit_odd_succ, Z.testbit_even_succ by done.
    replace (2 ^ Z.succ b) with (2 * 2 ^ b) by (rewrite Z.pow_succ_r by lia; lia). rewrite Z.testbit_even_succ by done.
    rewrite <- !Z.lor_spec. by rewrite Hl.
Qed.

Lemma lxor_disjoint cc b : Z.testbit cc b = false -> 0 <= b -> Z.lxor (Z.lor cc (2 ^ b)) cc = 2 ^ b.
Proof.
  intros Hb H0. apply Z.bits_inj'. intros i Hi. rewrite Z.lxor_spec, Z.lor_spec. destruct (Z.eq_dec i b) as [->|Hne].
  - rewrite Hb, Z.pow2_bits_true by done. done.
  - rewrite Z.pow2_bits_false by lia. rewrite orb_false_r. apply xorb_nilpotent.
Qed.

(** The number of bits. *)
Fixpoint pop_pos (p : positive) : Z := match p with xH => 1 | xO p => pop_pos p | xI p => 1 + pop_pos p end.
Definition popcount (x : Z) : Z := match x with Zpos p => pop_pos p | _ => 0 end.

Lemma pop_double x : 0 <= x -> popcount (2 * x) = popcount x /\ popcount (2 * x + 1) = 1 + popcount x.
Proof. intros Hx. destruct x as [|p|p]; [done|done|lia]. Qed.
Lemma pop_nonneg x : 0 <= popcount x.
Proof. destruct x as [|p|p]; [done| |done]. simpl. induction p; simpl; lia. Qed.

Lemma pop_clear x : 0 < x -> 0 <= Z.land x (x - 1) /\ popcount (Z.land x (x - 1)) = popcount x - 1.
Proof.
  intros Hx. split; [apply Z.land_nonneg; lia|]. destruct x as [|p|p]; [lia| |lia]. clear Hx.
  induction p as [p IH|p IH|]; [| |done].
  - rewrite Pos2Z.inj_xI. replace (2 * Z.pos p + 1 - 1) with (2 * Z.pos p) by lia.
    assert (Z.land (2 * Z.pos p + 1) (2 * Z.pos p) = 2 * Z.pos p) as ->; [|destruct (pop_double (Z.pos p)) as [-> ->]; lia].
    apply Z.bits_inj'. intros i Hi. rewrite Z.land_spec. destruct (Z.eq_dec i 0) as [->|Hi0]; [by rewrite Z.testbit_even_0, andb_false_r|].
    assert (i = Z.succ (i - 1)) as -> by lia. rewrite Z.testbit_odd_succ, Z.testbit_even_succ by lia. apply andb_diag.
  - rewrite Pos2Z.inj_xO. assert (Z.land (2 * Z.pos p) (2 * Z.pos p - 1) = 2 * Z.land (Z.pos p) (Z.pos p - 1)) as ->.
    { apply Z.bits_inj'. intros i Hi. rewrite Z.land_spec. replace (2 * Z.pos p - 1) with (2 * (Z.pos p - 1) + 1) by lia.
      destruct (Z.eq_dec i 0) as [->|Hi0]; [by rewrite !Z.testbit_even_0|]. assert (i = Z.succ (i - 1)) as -> by lia.
      rewrite Z.testbit_odd_succ, !Z.testbit_even_succ by lia. by rewrite Z.land_spec. }
    destruct (pop_double (Z.land (Z.pos p) (Z.pos p - 1))) as [-> _]; [apply Z.land_nonneg; lia|].
    destruct (pop_double (Z.pos p)) as [-> _]; [lia|]. exact IH.
Qed.

Lemma pop_zero x : 0 <= x -> popcount x <= 0 -> x = 0.
Proof. intros Hx Hp. destruct x as [|p|p]; [done| |lia]. exfalso. simpl in Hp.
  induction p as [p IH|p IH|]; simpl in Hp; [pose proof (pop_nonneg (Z.pos p)) as H0; simpl in H0; lia|apply IH; lia|lia].
Qed.

Lemma count_loop_pop fuel x : 0 <= x < 2 ^ 32 -> popcount x <= Z.of_nat fuel -> count_loop fuel x = popcount x.
Proof.
  revert x. induction fuel as [|fuel IH]; intros x Hx Hp; simpl.
  { by rewrite (pop_zero x) by lia. }
  destruct (Z.eqb_spec x 0) as [->|Hne]; [done|]. destruct (pop_clear x) as [H0 H1]; [lia|].
  rewrite (u32_small (x - 1)) by (unfold is_u32; lia).
  rewrite IH; [lia| |lia]. split; [done|]. destruct (Z.eq_dec (Z.land x (x - 1)) 0) as [->|]; [lia|].
  apply Z.log2_lt_pow2; [lia|]. eapply Z.le_lt_trans; [apply Z.log2_land; lia|]. apply Z.min_lt_iff. left. apply Z.log2_lt_pow2; lia.
Qed.

Lemma pop_set x b : 0 <= x -> 0 <= b -> Z.testbit x b = false -> popcount (Z.lor x (2 ^ b)) = popcount x + 1.
Proof.
  intros Hx Hb. revert x Hx. pattern b. apply natlike_ind; [| |done]; clear b Hb.
  - intros x Hx Hb. destruct (Z.Even_or_Odd x) as [[y ->]|[y ->]]; [|by rewrite Z.testbit_odd_0 in Hb].
    assert (Z.lor (2 * y) (2 ^ 0) = 2 * y + 1) as ->; [|destruct (pop_double y) as [-> ->]; lia].
    apply Z.bits_inj'. intros i Hi. rewrite Z.lor_spec. destruct (Z.eq_dec i 0) as [->|Hi0]; [by rewrite Z.testbit_odd_0, Z.testbit_even_0|].
    rewrite Z.pow2_bits_false, orb_false_r by lia. assert (i = Z.succ (i - 1)) as -> by lia.
    by rewrite Z.testbit_odd_succ, Z.testbit_even_succ by lia.
  - intros b Hb IH x Hx Ht. rewrite Z.pow_succ_r by done. destruct (Z.Even_or_Odd x) as [[y ->]|[y ->]].
    + rewrite Z.testbit_even_succ in Ht by done.
      assert (Z.lor (2 * y) (2 * 2 ^ b) = 2 * Z.lor y (2 ^ b)) as ->.
      { rewrite !(Z.mul_comm 2), <- !(Z.shiftl_mul_pow2 _ 1) by lia. by rewrite Z.shiftl_lor. }
      destruct (pop_double (Z.lor y (2 ^ b))) as [-> _]; [apply Z.lor_nonneg; lia|]. destruct (pop_double y) as [-> _]; [lia|]. apply IH; [lia|done].
    + rewrite Z.testbit_odd_succ in Ht by done.
      assert (Z.lor (2 * y + 1) (2 * 2 ^ b) = 2 * Z.lor y (2 ^ b) + 1) as ->.
      { apply Z.bits_inj'. intros i Hi. rewrite Z.lor_spec. destruct (Z.eq_dec i 0) as [->|Hi0]; [by rewrite !Z.testbit_odd_0|].
        assert (i = Z.succ (i - 1)) as -> by lia. rewrite !Z.testbit_odd_succ, Z.testbit_even_succ by lia. by rewrite Z.lor_spec. }
      destruct (pop_double (Z.lor y (2 ^ b))) as [_ ->]; [apply Z.lor_nonneg; lia|]. destruct (pop_double y) as [_ ->]; [lia|]. rewrite IH; [lia|lia|done].
Qed.

Lemma pop_le n x : 0 <= x < 2 ^ Z.of_nat n -> popcount x <= Z.of_nat n.
Proof.
  revert x. induction n as [|n IH]; intros x Hx; [change (2 ^ Z.of_nat 0) with 1 in Hx; by replace x with 0 by lia|].
  rewrite Nat2Z.inj_succ, Z.pow_succ_r in Hx by lia.
  destruct (Z.Even_or_Odd x) as [[y ->]|[y ->]]; destruct (pop_double y) as [E1 E2]; try lia.
  - rewrite E1. specialize (IH y). lia.
  - rewrite E2. specialize (IH y). lia.
Qed.

(** Identifiers of broadcast receivers, one bit each. *)
Definition is_bit (x : Z) : Prop := exists b, 0 <= b < 32 /\ x = 2 ^ b.
Definition union_of (ids : list Z) : Z := foldr Z.lor 0 ids.

Lemma union_test ids b : Forall is_bit ids -> 0 <= b -> Z.testbit (union_of ids) b = true <-> 2 ^ b ∈ ids.
Proof.
  intros Hids Hb. induction Hids as [|x ids (c & Hc & ->) _ IH]; simpl; [rewrite Z.bits_0; set_solver|].
  rewrite Z.lor_spec, orb_true_iff, IH, elem_of_cons, Z.pow2_bits_eqb, Z.eqb_eq by lia.
  split; intros [E|?]; auto; left; [by rewrite E|]. apply Z.pow_inj_r in E; lia.
Qed.
Lemma union_range ids : Forall is_bit ids -> 0 <= union_of ids < 2 ^ 32.
Proof.
  intros Hids. assert (0 <= union_of ids) as H0.
  { induction Hids as [|x ids (c & Hc & ->) _ IH]; [done|]. simpl. apply Z.lor_nonneg. lia. }
  split; [done|]. destruct (Z.eq_dec (union_of ids) 0) as [->|Hne]; [done|]. apply Z.log2_lt_pow2; [lia|].
  destruct (Z.lt_ge_cases (Z.log2 (union_of ids)) 32) as [|Hge]; [done|]. exfalso.
  pose proof (Z.bit_log2 (union_of ids) ltac:(lia)) as Ht. apply (union_test _ _ Hids) in Ht; [|lia].
  rewrite Forall_forall in Hids. destruct (Hids _ Ht) as (c & Hc & E). apply Z.pow_inj_r in E; lia.
Qed.
Lemma pop_union ids : NoDup ids -> Forall is_bit ids -> popcount (union_of ids) = Z.of_nat (length ids).
Proof.
  intros Hnd. induction Hnd as [|x ids Hx _ IH]; intros Hids; [done|]. apply Forall_cons_1 in Hids as [(b & Hb & ->) Hids].
  pose proof (union_range _ Hids). cbn [union_of foldr length]. fold (union_of ids). rewrite Z.lor_comm, pop_set; [rewrite IH by done; lia|lia|lia|].
  destruct (Z.testbit (union_of ids) b) eqn:E; [|done]. apply union_test in E; [done|done|lia].
Qed.
Lemma union_remove x ids : x ∉ ids -> is_bit x -> Forall is_bit ids -> Z.land (union_of (x :: ids)) (Z.lnot x) = union_of ids.
Proof.
  intros Hx (b & Hb & ->) Hids. apply Z.bits_inj'. intros i Hi. cbn [union_of foldr]. fold (union_of ids).
  rewrite Z.land_spec, Z.lor_spec, Z.lnot_spec by done. destruct (Z.eq_dec i b) as [->|Hne].
  - rewrite Z.pow2_bits_true by lia. simpl. destruct (Z.testbit (union_of ids) b) eqn:E; [|done]. apply union_test in E; [done|done|lia].
  - rewrite Z.pow2_bits_false by lia. simpl. by rewrite andb_true_r.
Qed.
Lemma union_perm ids ids' : ids ≡ₚ ids' -> union_of ids = union_of ids'.
Proof.
  induction 1 as [|x l l' _ IH|x y l|l1 l2 l3 _ IH1 _ IH2]; simpl; [done|by rewrite IH| |congruence].
  by rewrite !Z.lor_assoc, (Z.lor_comm x y).
Qed.

(** * A channel and its receivers *)
Section kind.
Context (rel : relat).

(** What the shared part says of the identifiers of the connected receivers. *)
Record head_ok (h : head) (ids : list Z) : Prop := {
  ho_count : if is_broadcast rel then NoDup ids /\ Forall is_bit ids /\ h_cc h = union_of ids
             else h_cc h = Z.of_nat (length ids) /\ Forall (fun x => 0 < x < 2 ^ 32 - 1) ids;
  ho_single : is_multi_consumer rel = false -> (length ids <= 1)%nat /\ r_flag h = bool_decide (ids <> []) }.

Lemma head_ok_perm h ids ids' : ids ≡ₚ ids' -> head_ok h ids -> head_ok h ids'.
Proof.
  intros Hp [Hc Hs]. split.
  - assert (forall P : Z -> Prop, Forall P ids -> Forall P ids') as HF
      by (intros P; rewrite !Forall_forall; intros HP x Hx; apply HP; by rewrite Hp).
    destruct (is_broadcast rel); [destruct Hc as (? & ? & ->)|destruct Hc as [-> ?]].
    + split; [by rewrite <- Hp|]. split; [auto|by apply union_perm].
    + split; [by rewrite Hp|auto].
  - intros Hm. destruct (Hs Hm) as [Hl ->]. split; [by rewrite <- (Permutation_length Hp)|]. apply bool_decide_ext.
    split; intros Hne ->; apply Hne; [by apply Permutation_nil; symmetry|by apply Permutation_nil].
Qed.
Lemma head_ok_zero : head_ok head_zero [].
Proof.
  split; [destruct (is_broadcast rel); repeat split; constructor|].
  intros _. split; [simpl; lia|]. symmetry. apply bool_decide_eq_false_2. intros Hn. by apply Hn.
Qed.

Lemma head_ok_count h ids : head_ok h ids -> head_conn_count rel h = Z.of_nat (length ids).
Proof.
  intros [Hc _]. unfold head_conn_count. destruct (is_broadcast rel); [|apply Hc]. destruct Hc as (Hnd & Hb & ->).
  pose proof (union_range _ Hb). rewrite count_loop_pop; [by apply pop_union|done|]. by apply (pop_le 32).
Qed.

(** A receiver more: its identifier, or 0 if there is no room. *)
Definition added (id : Z) (ids : list Z) : list Z := if decide (id = 0) then ids else id :: ids.

Lemma conn_connect_ok h ids (f : bool) : Z.of_nat (length ids) < 2 ^ 31 ->
  head_ok h ids -> (is_multi_consumer rel = false -> ids = [] /\ f = true) ->
  head_ok (conn_connect rel (set_r_flag f h)).2 (added (conn_connect rel (set_r_flag f h)).1 ids).
Proof.
  intros Hlen [Hc Hs] Hf. unfold conn_connect. simpl. destruct (is_broadcast rel) eqn:Eb.
  - destruct Hc as (Hnd & Hb & Hcc). rewrite Hcc. pose proof (union_range _ Hb) as Hr.
    destruct (Z.eq_dec (union_of ids) (2 ^ 32 - 1)) as [Efull|Efull].
    + rewrite Efull. change (u32 (2 ^ 32 - 1 + 1)) with 0. rewrite Z.lor_0_r. simpl. split; simpl; rewrite ?Eb; [done|].
      intros Hm. destruct (Hf Hm) as [-> _]. simpl in Efull. done.
    + destruct (lowest_zero 32 (union_of ids)) as (b & Hb32 & Ht & Hl); [lia|].
      rewrite u32_small by (unfold is_u32; lia). rewrite Hl. assert (0 < 2 ^ b) as Hpos by (apply Z.pow_pos_nonneg; lia).
      destruct (Z.eqb_spec (Z.lor (union_of ids) (2 ^ b)) 0) as [E|E]; [apply Z.lor_eq_0_iff in E; lia|].
      simpl. rewrite lxor_disjoint by (done || lia). unfold added. rewrite decide_False by lia. split; simpl; rewrite ?Eb.
      * split; [constructor; [|done]|]; [|split; [constructor; [by exists b|done]|by rewrite Z.lor_comm]].
        intros Hin. apply union_test in Hin; [congruence|done|lia].
      * intros Hm. destruct (Hf Hm) as [-> ->]. by split.
  - destruct Hc as [Hcc Hpos]. rewrite Hcc, u32_small by (unfold is_u32; lia). unfold added. cbn [fst snd]. rewrite decide_False by lia. split; simpl; rewrite ?Eb.
    + split; [lia|]. constructor; [lia|done].
    + intros Hm. destruct (Hf Hm) as [-> ->]. by split.
Qed.

Lemma set_r_flag_same h : set_r_flag (r_flag h) h = h.
Proof. by destruct h. Qed.

Lemma connect_receiver_ok h ids : Z.of_nat (length ids) < 2 ^ 31 -> head_ok h ids ->
  head_ok (connect_receiver rel h).2 (added (connect_receiver rel h).1 ids).
Proof.
  intros Hlen Hok. unfold connect_receiver. destruct (is_multi_consumer rel) eqn:Em.
  - rewrite <- (set_r_flag_same h). apply conn_connect_ok; [done|done|congruence].
  - destruct (r_flag h) eqn:Ef; [done|]. apply conn_connect_ok; [done|done|]. intros _. split; [|done].
    destruct Hok as [_ Hs]. destruct (Hs Em) as [_ E]. rewrite Ef in E. by destruct ids.
Qed.

Lemma disconnect_receiver_ok h id ids : Z.of_nat (length ids) < 2 ^ 31 -> head_ok h (id :: ids) ->
  head_ok (head_disconnect_receiver rel id h) ids.
Proof.
  intros Hlen [Hc Hs]. assert (h_cc (head_disconnect_receiver rel id h) = h_cc (conn_disconnect rel id h)) as Ecc
    by (unfold head_disconnect_receiver, conn_disconnect; destruct (is_multi_consumer rel), (is_broadcast rel), (id =? 2 ^ 32 - 1); done).
  split.
  - rewrite Ecc. unfold conn_disconnect. destruct (is_broadcast rel).
    + destruct Hc as (Hnd & Hb & Hcc). apply NoDup_cons in Hnd as [Hx Hnd]. apply Forall_cons_1 in Hb as [Hb1 Hb].
      split; [done|]. split; [done|]. simpl. rewrite Hcc. by apply union_remove.
    + destruct Hc as [Hcc Hpos]. apply Forall_cons_1 in Hpos as [Hid Hpos]. destruct (Z.eqb_spec id (2 ^ 32 - 1)); [lia|].
      simpl in *. split; [rewrite Hcc, u32_small by (unfold is_u32; lia); lia|done].
  - intros Hm. destruct (Hs Hm) as [Hl _]. destruct ids as [|? ?]; [|simpl in Hl; lia]. split; [simpl; lia|].
    unfold head_disconnect_receiver, conn_disconnect. rewrite Hm. by destruct (is_broadcast rel), (id =? 2 ^ 32 - 1).
Qed.

(** * Handles *)
(** The identifier a handle has on the channel of a name. *)
Definition q_ids (name : str) (q : que) : list Z :=
  if decide (q_name q = name /\ q_connected q <> 0) then [q_connected q] else [].
Definition o_ids (name : str) (o : option que) : list Z := match o with Some q => q_ids name q | None => [] end.
Definition w_ids (name : str) (w : option wrapper) : list Z := match w with Some w => o_ids name (w_h w) | None => [] end.
(** The identifiers of all receivers of the channel. *)
Definition receivers (name : str) (ws : list (option wrapper)) : list Z := concat (w_ids name <$> ws).

(** A call that turns the identifiers [f] into [f'], whatever the others are. *)
Definition moves (f : str -> list Z) (hs : heads) (f' : str -> list Z) (hs' : heads) : Prop :=
  forall name rest, Z.of_nat (length rest) < 2 ^ 31 -> head_ok (head_of name hs) (f name ++ rest) ->
    head_ok (head_of name hs') (f' name ++ rest).

Lemma moves_refl f hs : moves f hs f hs.
Proof. by intros name rest _. Qed.
Lemma moves_trans f1 hs1 f2 hs2 f3 hs3 : moves f1 hs1 f2 hs2 -> moves f2 hs2 f3 hs3 -> moves f1 hs1 f3 hs3.
Proof. intros H1 H2 name rest Hl Hok. apply H2; [done|]. by apply H1. Qed.

Lemma head_of_insert name name' h hs : head_of name' (<[name := h]> hs) = if decide (name = name') then h else head_of name' hs.
Proof.
  unfold head_of, at_or. destruct (decide (name = name')) as [->|Hne]; [by rewrite lookup_insert_eq|by rewrite lookup_insert_ne].
Qed.

(** Only the flag of the senders changes. *)
Lemma head_ok_flag b h ids : head_ok h ids -> head_ok (set_s_flag b h) ids.
Proof. intros [? ?]. by split. Qed.
Lemma moves_sender f name b hs : moves f hs f (<[name := set_s_flag b (head_of name hs)]> hs).
Proof.
  intros name' rest _ Hok. rewrite head_of_insert. destruct (decide _) as [<-|]; [by apply head_ok_flag|done].
Qed.
Lemma insert_head_of f name hs : moves f hs f (<[name := head_of name hs]> hs).
Proof. intros name' rest _ Hok. rewrite head_of_insert. by destruct (decide _) as [<-|]. Qed.

Lemma shut_moves q hs f : moves f hs f (q_shut_sending rel q hs).
Proof.
  unfold q_shut_sending, disconnect_sender. destruct (q_sender_flag q); [|apply moves_refl].
  destruct (is_multi_producer rel); [apply insert_head_of|apply moves_sender].
Qed.
Lemma ready_moves q hs b q' hs' : q_ready_sending rel q hs = (b, q', hs') ->
  moves (fun n => q_ids n q) hs (fun n => q_ids n q') hs' /\ q_connected q' = q_connected q.
Proof.
  unfold q_ready_sending, connect_sender. destruct (q_sender_flag q); [intros [= <- <- <-]; split; [apply moves_refl|done]|].
  destruct (is_multi_producer rel); intros [= <- <- <-]; split; try done;
    [apply (insert_head_of (fun n => q_ids n q))|apply (moves_sender (fun n => q_ids n q))].
Qed.
Lemma q_connect_moves q hs b q' hs' : q_connect rel q hs = (b, q', hs') ->
  moves (fun n => q_ids n q) hs (fun n => q_ids n q') hs' /\ (b = true <-> q_connected q' <> 0).
Proof.
  unfold q_connect. destruct (Z.eqb_spec (q_connected q) 0) as [E|E]; simpl; [|intros [= <- <- <-]; split; [apply moves_refl|done]].
  destruct (connect_receiver rel _) as [id h] eqn:Ec. intros [= <- <- <-].
  split; [|simpl; destruct (Z.eqb_spec id 0); split; (done || congruence)].
  intros name rest Hl Hok. rewrite head_of_insert. unfold q_ids in *. simpl. rewrite decide_False in Hok by tauto.
  destruct (decide (q_name q = name)) as [<-|Hne].
  - pose proof (connect_receiver_ok _ _ Hl Hok) as Hc. rewrite Ec in Hc. simpl in Hc. unfold added in Hc.
    destruct (decide (id = 0)) as [->|Hid]; [by rewrite decide_False by tauto|by rewrite decide_True].
  - by rewrite decide_False by tauto.
Qed.
Lemma q_disconnect_moves q hs b q' hs' : q_disconnect rel q hs = (b, q', hs') ->
  moves (fun n => q_ids n q) hs (fun n => q_ids n q') hs' /\ q_connected q' = 0.
Proof.
  unfold q_disconnect. destruct (Z.eqb_spec (q_connected q) 0) as [E|E]; intros [= <- <- <-]; (split; [|done]); [apply moves_refl|].
  intros name rest Hl Hok. rewrite head_of_insert. unfold q_ids in *. simpl. rewrite (decide_False (P := _ /\ 0 <> 0)) by tauto.
  destruct (decide (q_name q = name)) as [<-|Hne].
  - rewrite decide_True in Hok by done. by apply disconnect_receiver_ok in Hok.
  - by rewrite decide_False in Hok by tauto.
Qed.

Lemma api_disconnect_moves o hs o' hs' : api_disconnect rel o hs = (o', hs') ->
  moves (fun n => o_ids n o) hs (fun n => o_ids n o') hs' /\ (forall q, o' = Some q -> q_connected q = 0) /\ (o = None <-> o' = None).
Proof.
  unfold api_disconnect. destruct o as [q|]; [|intros [= <- <-]; split; [apply moves_refl|split; [done|done]]].
  destruct (q_disconnect _ _ _) as [[b q'] hs1] eqn:E. intros [= <- <-]. destruct (q_disconnect_moves _ _ _ _ _ E) as [Hm H0].
  split; [|split; [by intros ? [= <-]|done]]. eapply moves_trans; [apply shut_moves|exact Hm].
Qed.
Lemma api_reconnect_moves q start hs b q' hs' : api_reconnect rel q start hs = (b, q', hs') ->
  moves (fun n => q_ids n q) hs (fun n => q_ids n q') hs' /\ (q_connected q' <> 0 <-> b = true /\ start = true).
Proof.
  unfold api_reconnect. destruct start.
  - intros E. destruct (q_connect_moves _ _ _ _ _ E) as [Hm Hb]. split; [eapply moves_trans; [apply shut_moves|exact Hm]|tauto].
  - destruct (Z.eqb_spec (q_connected q) 0) as [Eq|Eq]; simpl.
    + intros E. destruct (ready_moves _ _ _ _ _ E) as [Hm Hc]. split; [done|]. rewrite Hc. split; [done|by intros []].
    + destruct (q_disconnect rel q hs) as [[b1 q1] hs1] eqn:E1. intros E.
      destruct (q_disconnect_moves _ _ _ _ _ E1) as [Hm1 H1], (ready_moves _ _ _ _ _ E) as [Hm2 H2].
      split; [by eapply moves_trans|]. rewrite H2, H1. split; [done|by intros []].
Qed.

(** * Wrappers *)
(** A wrapper says that it receives exactly if its handle does. *)
Definition w_ok (o : option wrapper) : Prop :=
  match o with
  | Some w => forall q, w_h w = Some q -> q_connected q <> 0 <-> w_connected w = true /\ as_receiver (w_mode w) = true
  | None => True
  end.

Lemma wrapper_connect_moves name mode w hs b w' hs' : wrapper_connect rel name mode w hs = (b, w', hs') -> w_ok (Some w) ->
  moves (fun n => o_ids n (w_h w)) hs (fun n => o_ids n (w_h w')) hs' /\ w_ok (Some w') /\ (name <> [] -> b = w_connected w').
Proof.
  unfold wrapper_connect. destruct (decide (name = [])); [intros [= <- <- <-] Hok; split; [apply moves_refl|done]|].
  destruct (api_disconnect rel (w_h w) hs) as [o hs1] eqn:E1. destruct (api_connect rel o name _ hs1) as [[b1 q] hs2] eqn:E2.
  intros [= <- <- <-] _. destruct (api_disconnect_moves _ _ _ _ E1) as (Hm1 & H0 & _).
  destruct (api_reconnect_moves _ _ _ _ _ _ E2) as [Hm2 Hc]. split; [|split; [intros q' [= <-]; exact Hc|done]].
  eapply moves_trans; [exact Hm1|]. intros name' rest Hl Hok. apply Hm2; [done|]. destruct o as [q0|]; [done|].
  cbn [default]. unfold q_ids. simpl. by rewrite decide_False by tauto.
Qed.

Lemma wrapper_new_moves name mode hs w hs' : wrapper_new rel name mode hs = (w, hs') ->
  moves (fun _ => []) hs (fun n => o_ids n (w_h w)) hs' /\ w_ok (Some w).
Proof.
  unfold wrapper_new. destruct (wrapper_connect rel name mode wrapper_empty hs) as [[b w0] hs1] eqn:E. intros [= <- <-].
  destruct (wrapper_connect_moves _ _ _ _ _ _ _ E) as (Hm & Hok & Hb); [done|]. split; [done|].
  destruct (decide (name = [])) as [->|Hne]; [by injection E as <- <- <-|]. by rewrite (Hb Hne).
Qed.

Lemma wrapper_reconnect_moves mode w hs b w' hs' : wrapper_reconnect rel mode w hs = (b, w', hs') -> w_ok (Some w) ->
  moves (fun n => o_ids n (w_h w)) hs (fun n => o_ids n (w_h w')) hs' /\ w_ok (Some w').
Proof.
  unfold wrapper_reconnect. destruct (w_h w) as [q|] eqn:Eq; [|intros [= <- <- <-] ?; rewrite Eq; split; [apply moves_refl|done]].
  destruct (w_connected w && (w_mode w =? mode)); [intros [= <- <- <-] ?; rewrite Eq; split; [apply moves_refl|done]|].
  destruct (api_reconnect rel q _ hs) as [[b1 q1] hs1] eqn:E. intros [= <- <- <-] _.
  destruct (api_reconnect_moves _ _ _ _ _ _ E) as [Hm Hc]. split; [exact Hm|]. by intros q' [= <-].
Qed.

Lemma wrapper_disconnect_moves w hs w' hs' : wrapper_disconnect rel w hs = (w', hs') -> w_ok (Some w) ->
  moves (fun n => o_ids n (w_h w)) hs (fun n => o_ids n (w_h w')) hs' /\ w_ok (Some w').
Proof.
  unfold wrapper_disconnect. destruct (w_h w) as [q|] eqn:Eq; [|intros [= <- <-] ?; rewrite Eq; split; [apply moves_refl|done]].
  destruct (api_disconnect rel (Some q) hs) as [o hs1] eqn:E. intros [= <- <-] _.
  destruct (api_disconnect_moves _ _ _ _ E) as (Hm & H0 & _). split; [exact Hm|]. intros q' Hq'. simpl in *.
  rewrite (H0 _ Hq'). split; [done|by intros []].
Qed.

Lemma api_destroy_moves o hs : moves (fun n => o_ids n o) hs (fun _ => []) (api_destroy rel o hs).
Proof.
  unfold api_destroy. destruct (api_disconnect rel o hs) as [o' hs'] eqn:E.
  destruct (api_disconnect_moves _ _ _ _ E) as (Hm & H0 & _). intros n rest Hl Hok. specialize (Hm n rest Hl Hok).
  destruct o' as [q|]; [|done]. simpl in Hm. unfold q_ids in Hm. rewrite (H0 q eq_refl) in Hm.
  by rewrite decide_False in Hm by tauto.
Qed.

(** * All wrappers *)
Lemma w_ids_length name o : (length (w_ids name o) <= 1)%nat.
Proof. destruct o as [[[q|] m c]|]; simpl; try lia. unfold q_ids. destruct (decide _); simpl; lia. Qed.
Lemma receivers_length name ws : (length (receivers name ws) <= length ws)%nat.
Proof.
  induction ws as [|o ws IH]; [done|]. change (receivers name (o :: ws)) with (w_ids name o ++ receivers name ws).
  rewrite length_app. pose proof (w_ids_length name o). cbn [length]. lia.
Qed.
Lemma receivers_app name ws ws' : receivers name (ws ++ ws') = receivers name ws ++ receivers name ws'.
Proof. unfold receivers. by rewrite fmap_app, concat_app. Qed.
Lemma receivers_cons name o ws : receivers name (o :: ws) = w_ids name o ++ receivers name ws.
Proof. done. Qed.

(** The receivers without those of one wrapper. *)
Lemma receivers_insert name ws i o : ws !! i = Some o -> exists rest, (length rest <= length ws)%nat /\
  receivers name ws ≡ₚ w_ids name o ++ rest /\ forall o', receivers name (<[i := o']> ws) ≡ₚ w_ids name o' ++ rest.
Proof.
  intros Hi. exists (receivers name (take i ws) ++ receivers name (drop (S i) ws)).
  assert (forall o', receivers name (take i ws ++ o' :: drop (S i) ws) ≡ₚ
    w_ids name o' ++ receivers name (take i ws) ++ receivers name (drop (S i) ws)) as Hr.
  { intros o'. rewrite receivers_app, receivers_cons. by rewrite Permutation_app_swap_app. }
  split; [|split].
  - pose proof (receivers_length name (take i ws)). pose proof (receivers_length name (drop (S i) ws)).
    rewrite length_app. rewrite length_take, length_drop in *. apply lookup_lt_Some in Hi. lia.
  - rewrite <- Hr. by rewrite take_drop_middle.
  - intros o'. rewrite <- Hr. rewrite insert_take_drop by (by eapply lookup_lt_Some). done.
Qed.

Definition world_ok (s : world) : Prop :=
  Forall w_ok s.1 /\ forall name, head_ok (head_of name s.2) (receivers name s.1).

Lemma insert_ok ws hs i o o' hs' : Z.of_nat (length ws) < 2 ^ 31 -> world_ok (ws, hs) -> ws !! i = Some o ->
  moves (fun n => w_ids n o) hs (fun n => w_ids n o') hs' -> w_ok o' -> world_ok (<[i := o']> ws, hs').
Proof.
  intros Hlen [Hws Hhs] Hi Hm Ho'. split; [by apply Forall_insert|]. intros name. simpl in *.
  destruct (receivers_insert name ws i o Hi) as (rest & Hl & Hr & Hr'). eapply head_ok_perm; [symmetry; apply Hr'|].
  apply Hm; [lia|]. eapply head_ok_perm; [exact Hr|done].
Qed.
Lemma add_ok ws hs w hs' : Z.of_nat (length ws) < 2 ^ 31 -> world_ok (ws, hs) ->
  moves (fun _ => []) hs (fun n => o_ids n (w_h w)) hs' -> w_ok (Some w) -> world_ok (add_wrapper (w, hs') (ws, hs)).
Proof.
  intros Hlen [Hws Hhs] Hm Hw. split; [apply Forall_app; split; [done|by constructor]|]. intros name. simpl.
  rewrite receivers_app. eapply head_ok_perm; [apply Permutation_app_comm|]. rewrite receivers_cons. unfold receivers at 1. simpl.
  rewrite app_nil_r. apply Hm; [|apply Hhs]. pose proof (receivers_length name ws). lia.
Qed.

Lemma on_wrapper_ok i f s : Z.of_nat (length s.1) < 2 ^ 31 -> world_ok s ->
  (forall w o hs', f w s.2 = (o, hs') -> w_ok (Some w) ->
     moves (fun n => o_ids n (w_h w)) s.2 (fun n => w_ids n o) hs' /\ w_ok o) ->
  world_ok (on_wrapper i f s) /\ length (on_wrapper i f s).1 = length s.1.
Proof.
  intros Hlen Hok Hf. destruct s as [ws hs]. unfold on_wrapper. simpl in *.
  destruct (ws !! i) as [[w|]|] eqn:Ei; [|done|done]. destruct (f w hs) as [o hs'] eqn:Ef.
  destruct (Hf _ _ _ Ef) as [Hm Ho]; [destruct Hok as [Hws _]; exact (Forall_lookup_1 _ _ _ _ Hws Ei)|].
  split; [|apply length_insert]. by eapply insert_ok.
Qed.

Lemma swap_ok ws hs i j wi wj : world_ok (ws, hs) -> ws !! i = Some (Some wi) -> ws !! j = Some (Some wj) ->
  world_ok (<[j := Some wi]> (<[i := Some wj]> ws), hs).
Proof.
  intros [Hws Hhs] Hi Hj. pose proof (Forall_lookup_1 _ _ _ _ Hws Hi) as Hwi. pose proof (Forall_lookup_1 _ _ _ _ Hws Hj) as Hwj.
  split; [by repeat apply Forall_insert|]. intros name. simpl in *. specialize (Hhs name).
  destruct (decide (i = j)) as [<-|Hne]; [rewrite list_insert_insert_eq; by rewrite list_insert_id|].
  destruct (receivers_insert name ws i _ Hi) as (r1 & _ & E1 & E1').
  destruct (receivers_insert name (<[i := Some wj]> ws) j (Some wj)) as (r2 & _ & E2 & E2'); [by rewrite list_lookup_insert_ne|].
  assert (r1 ≡ₚ r2) as Hr by (apply (Permutation_app_inv_l (w_ids name (Some wj))); by rewrite <- E2, <- E1').
  eapply head_ok_perm; [|exact Hhs]. by rewrite E2', E1, Hr.
Qed.

Lemma chan_step_ok s op : Z.of_nat (length s.1) < 2 ^ 31 -> world_ok s ->
  world_ok (chan_step rel s op) /\ (length (chan_step rel s op).1 <= S (length s.1))%nat.
Proof.
  intros Hlen Hok. destruct op as [name mode|i name mode|i mode|i|i|i j|i]; cbn [chan_step].
  - destruct (wrapper_new rel name mode s.2) as [w hs'] eqn:E. destruct (wrapper_new_moves _ _ _ _ _ E) as [Hm Hw].
    destruct s as [ws hs]. split; [by apply add_ok|]. simpl. rewrite length_app. simpl. lia.
  - destruct (on_wrapper_ok i (fun w hs => let '(_, w, hs) := wrapper_connect rel name mode w hs in (Some w, hs)) s) as [? ->]; [done|done| |by split; [|lia]].
    intros w o hs'. destruct (wrapper_connect rel name mode w s.2) as [[b w'] hs1] eqn:E. intros [= <- <-] Hw.
    by destruct (wrapper_connect_moves _ _ _ _ _ _ _ E Hw) as (? & ? & _).
  - destruct (on_wrapper_ok i (fun w hs => let '(_, w, hs) := wrapper_reconnect rel mode w hs in (Some w, hs)) s) as [? ->]; [done|done| |by split; [|lia]].
    intros w o hs'. destruct (wrapper_reconnect rel mode w s.2) as [[b w'] hs1] eqn:E. intros [= <- <-] Hw. by eapply wrapper_reconnect_moves.
  - destruct (on_wrapper_ok i (fun w hs => let '(w, hs) := wrapper_disconnect rel w hs in (Some w, hs)) s) as [? ->]; [done|done| |by split; [|lia]].
    intros w o hs'. destruct (wrapper_disconnect rel w s.2) as [w' hs1] eqn:E. intros [= <- <-] Hw. by eapply wrapper_disconnect_moves.
  - destruct (s.1 !! i) as [[w|]|] eqn:Ei; [|split; [done|lia]|split; [done|lia]]. unfold wrapper_clone.
    destruct (wrapper_new rel _ _ s.2) as [w' hs'] eqn:E. destruct (wrapper_new_moves _ _ _ _ _ E) as [Hm Hw].
    destruct s as [ws hs]. split; [by apply add_ok|]. simpl. rewrite length_app. simpl. lia.
  - destruct (s.1 !! i) as [[wi|]|] eqn:Ei; try (split; [done|lia]). destruct (s.1 !! j) as [[wj|]|] eqn:Ej; try (split; [done|lia]).
    destruct s as [ws hs]. split; [by apply swap_ok|]. simpl. rewrite !length_insert. lia.
  - destruct (on_wrapper_ok i (fun w hs => (None, api_destroy rel (w_h w) hs)) s) as [? ->]; [done|done| |by split; [|lia]].
    intros w o hs' [= <- <-] Hw. split; [apply api_destroy_moves|done].
Qed.

Lemma chan_run_ok ops : Z.of_nat (length ops) < 2 ^ 31 -> world_ok (chan_run rel ops).
Proof.
  intros Hlen. enough (forall n s, (length s.1 <= n)%nat -> Z.of_nat (n + length ops) < 2 ^ 31 -> world_ok s ->
    world_ok (foldl (chan_step rel) s ops)) as Hg.
  { apply (Hg 0%nat); [done|done|]. split; [done|]. intros name. unfold head_of, at_or. simpl. rewrite lookup_empty. apply head_ok_zero. }
  clear Hlen. induction ops as [|op ops IH]; intros n s Hn Hb Hok; [done|]. cbn [length] in Hb. simpl.
  destruct (chan_step_ok s op) as [Hok' Hl]; [lia|done|]. apply (IH (S n)); [lia|lia|done].
Qed.
End kind.


(** The kinds the library is compiled for. *)
Definition single_single_unicast : relat := mk_relat false false false.
Definition single_multi_broadcast : relat := mk_relat false true true.
Definition demo_chan_ops : list chan_op :=
  [ONew (lit "c") 0; ONew (lit "c") 1; OClone 1; OReconnect 0 1; ODisconnect 1; ONew (lit "d") 1; ODestroy 0].

Example demo_chan_count :
  receivers (lit "c") (chan_run single_multi_broadcast demo_chan_ops).1 = [2].
Proof. vm_compute. reflexivity. Qed.

(** Senders are not: a handle that gives up sending keeps its own flag, and when
    it sends again it does not ask; another one has become the sender. *)
Definition two_sender_ops : list chan_op := [ONew (lit "c") 0; ODisconnect 0; ONew (lit "c") 0; OReconnect 0 0].
Lemma two_senders_on_a_route :
  (option_map w_connected <$> (chan_run single_multi_broadcast two_sender_ops).1) = [Some true; Some true].
Proof. vm_compute. reflexivity. Qed.

(** A wrapper that has a channel and connects to another one stays on its own. *)
Lemma connect_keeps_old_channel :
  ((fun w => q_name <$> w_h w) <$> (((chan_run single_multi_broadcast [ONew (lit "a") 1; OConnect 0 (lit "b") 1]).1 !! 0%nat) ≫= id)) =
  Some (Some (lit "a")).
Proof. vm_compute. reflexivity. Qed.

(** On a channel of one sender and one receiver a forced push clears the receiver
    from the shared part only: a second receiver connects beside it, and when the
    first one disconnects the count is 0 although the second receives. *)
Definition forced_out (hs : heads) : heads :=
  <[lit "c" := (unicast_force_push single_single_unicast (head_of (lit "c") hs)).2]> hs.
Lemma forced_push_lets_two_receive :
  let '(w1, hs) := wrapper_new single_single_unicast (lit "c") 1 ∅ in
  let '(w2, hs) := wrapper_new single_single_unicast (lit "c") 1 (forced_out hs) in
  w_connected w1 = true /\ w_connected w2 = true /\
  let '(w1, hs) := wrapper_disconnect single_single_unicast w1 hs in wrapper_recv_count single_single_unicast w2 hs = 0.
Proof. vm_compute. done. Qed.
