(* ===== verification/Buffer.v ===== *)
(** The buffers in which messages are received ([shm-ipc/src/buffer.cpp],
    [include/libipc/buffer.h]): memory with a function that gives it back. A
    buffer can be moved and swapped, not copied. *)
From stdpp Require Import prelude list.
From Stdlib Require Import ZArith Lia Ascii.
From S2P Require Import Prelude Cpp.

Open Scope Z_scope.

(** * State *)
(** [buffer_]: pointers are numbers with 0 for null; the destructor is known by
    a name. [d_] is null for memory of somebody else. *)
Record buffer_ := mk_buffer_ { p_ : Z; s_ : Z; a_ : Z; d_ : option nat }.
(** A call of a destructor: what was called on which memory. *)
Record release := mk_release { rel_d : nat; rel_ptr : Z; rel_size : Z }.

Definition buffer_null : buffer_ := mk_buffer_ 0 0 0 None.
Definition buffer_make (p s : Z) (d : option nat) (additional : Z) : buffer_ := mk_buffer_ p s additional d.

(** [~buffer_] *)
Definition buffer_clear (b : buffer_) : list release :=
  match d_ b with
  | None => []
  | Some d => [mk_release d (if a_ b =? 0 then p_ b else a_ b) (s_ b)]
  end.

Definition buffer_empty (b : buffer_) : bool := (p_ b =? 0) || (s_ b =? 0).
Definition buffer_data (b : buffer_) : Z := p_ b.
Definition buffer_size (b : buffer_) : Z := s_ b.
(** [operator==]; the bytes a pointer leads to are [mem]. *)
Definition buffer_eq (mem : Z -> str) (b1 b2 : buffer_) : bool :=
  (buffer_size b1 =? buffer_size b2) &&
  bool_decide (take (Z.to_nat (buffer_size b1)) (mem (p_ b1)) = take (Z.to_nat (buffer_size b1)) (mem (p_ b2))).

(** * Programs

    The buffers of a program; [None] is one that was destroyed. *)
Inductive buffer_op :=
  | BNew (p s : Z) (d : option nat) (additional : Z)
  | BMove (i : nat)
  | BSwap (i j : nat)
  | BAssign (i j : nat)
  | BDestroy (i : nat).

Abbreviation bufs := (list (option buffer_)).
Definition swap_bufs (i j : nat) (bi bj : buffer_) (bs : bufs) : bufs := <[j := Some bi]> (<[i := Some bj]> bs).

(** The buffers and the destructors called. [i = std::move(j)] moves [j] to the
    parameter, swaps it with [i] and destroys it. *)
Definition buffer_step (bs : bufs) (op : buffer_op) : bufs * list release :=
  match op with
  | BNew p s d a => (bs ++ [Some (buffer_make p s d a)], [])
  | BMove i =>
      match bs !! i with
      | Some (Some b) => (<[i := Some buffer_null]> bs ++ [Some b], [])
      | _ => (bs, [])
      end
  | BSwap i j =>
      match bs !! i, bs !! j with
      | Some (Some bi), Some (Some bj) => (swap_bufs i j bi bj bs, [])
      | _, _ => (bs, [])
      end
  | BAssign i j =>
      match bs !! i, bs !! j with
      | Some (Some _), Some (Some bj) =>
          let bs := <[j := Some buffer_null]> bs in
          match bs !! i with
          | Some (Some bi) => (<[i := Some bj]> bs, buffer_clear bi)
          | _ => (bs, [])
          end
      | _, _ => (bs, [])
      end
  | BDestroy i =>
      match bs !! i with
      | Some (Some b) => (<[i := None]> bs, buffer_clear b)
      | _ => (bs, [])
      end
  end.
Fixpoint buffer_run (bs : bufs) (ops : list buffer_op) : bufs * list release :=
  match ops with
  | [] => (bs, [])
  | op :: ops => let '(bs, r) := buffer_step bs op in let '(bs, r') := buffer_run bs ops in (bs, r ++ r')
  end.

(** The releases that are due for the memory a program put into buffers. *)
Definition due (op : buffer_op) : list release :=
  match op with BNew p s d a => buffer_clear (buffer_make p s d a) | _ => [] end.

(** * Every release is made once *)
Definition held (bs : bufs) : list release := concat ((fun o => match o with Some b => buffer_clear b | None => [] end) <$> bs).

Lemma held_join bs bs' : held (bs ++ bs') = held bs ++ held bs'.
Proof. unfold held. by rewrite fmap_app, concat_app. Qed.

(** The releases without those of one buffer. *)
Lemma held_insert bs i o : bs !! i = Some o -> exists rest,
  held bs ≡ₚ held [o] ++ rest /\ forall o', held (<[i := o']> bs) ≡ₚ held [o'] ++ rest.
Proof.
  intros Hi. exists (held (take i bs) ++ held (drop (S i) bs)).
  assert (forall o', held (take i bs ++ o' :: drop (S i) bs) ≡ₚ held [o'] ++ held (take i bs) ++ held (drop (S i) bs)) as Hr.
  { intros o'. change (o' :: drop (S i) bs) with ([o'] ++ drop (S i) bs). rewrite !held_join. by rewrite Permutation_app_swap_app. }
  split; [rewrite <- Hr; by rewrite take_drop_middle|]. intros o'. rewrite <- Hr.
  rewrite insert_take_drop by (by eapply lookup_lt_Some). done.
Qed.
Lemma held_replace bs i o o' : bs !! i = Some o -> held (<[i := o']> bs) ++ held [o] ≡ₚ held bs ++ held [o'].
Proof. intros Hi. destruct (held_insert bs i o Hi) as (rest & -> & Hr). rewrite (Hr o'). solve_Permutation. Qed.

Lemma held_one o : held [o] = match o with Some b => buffer_clear b | None => [] end.
Proof. unfold held. simpl. apply app_nil_r. Qed.

Lemma buffer_step_releases bs op bs' r : buffer_step bs op = (bs', r) -> r ++ held bs' ≡ₚ held bs ++ due op.
Proof.
  destruct op as [p s d a|i|i j|i j|i]; simpl; rewrite ?app_nil_r.
  - intros [= <- <-]. simpl. by rewrite held_join, held_one.
  - destruct (bs !! i) as [[b|]|] eqn:Ei; intros [= <- <-]; try done. simpl. rewrite held_join.
    pose proof (held_replace bs i _ (Some buffer_null) Ei) as E. by rewrite (held_one (Some buffer_null)), app_nil_r in E.
  - destruct (bs !! i) as [[bi|]|] eqn:Ei; try (by intros [= <- <-]). destruct (bs !! j) as [[bj|]|] eqn:Ej; intros [= <- <-]; try done.
    unfold swap_bufs. simpl. destruct (decide (i = j)) as [<-|Hne].
    { rewrite list_insert_insert_eq, list_insert_id by done. done. }
    pose proof (held_replace bs i _ (Some bj) Ei) as E1.
    pose proof (held_replace (<[i := Some bj]> bs) j (Some bj) (Some bi)) as E2. rewrite list_lookup_insert_ne in E2 by done.
    specialize (E2 Ej). apply (Permutation_app_inv_r (held [Some bj])). by rewrite E2, E1.
  - destruct (bs !! i) as [[bi|]|] eqn:Ei; try (by intros [= <- <-]). destruct (bs !! j) as [[bj|]|] eqn:Ej; try (by intros [= <- <-]).
    pose proof (held_replace bs j _ (Some buffer_null) Ej) as E1. rewrite (held_one (Some buffer_null)), app_nil_r in E1.
    destruct (<[j := Some buffer_null]> bs !! i) as [[b|]|] eqn:Eb; intros [= <- <-].
    + pose proof (held_replace _ _ _ (Some bj) Eb) as E2. rewrite (held_one (Some b)) in E2. rewrite Permutation_app_comm. by rewrite E2.
    + destruct (decide (i = j)) as [->|Hne]; [rewrite list_lookup_insert_eq in Eb by (by eapply lookup_lt_Some); done|].
      rewrite list_lookup_insert_ne in Eb by done. congruence.
    + destruct (decide (i = j)) as [->|Hne]; [rewrite list_lookup_insert_eq in Eb by (by eapply lookup_lt_Some); done|].
      rewrite list_lookup_insert_ne in Eb by done. congruence.
  - destruct (bs !! i) as [[b|]|] eqn:Ei; intros [= <- <-]; try done.
    pose proof (held_replace bs i _ None Ei) as E. rewrite (held_one None), app_nil_r, (held_one (Some b)) in E.
    by rewrite Permutation_app_comm.
Qed.

Lemma buffer_run_releases bs ops bs' r : buffer_run bs ops = (bs', r) -> r ++ held bs' ≡ₚ held bs ++ concat (due <$> ops).
Proof.
  revert bs bs' r. induction ops as [|op ops IH]; intros bs bs' r; simpl; [intros [= <- <-]; by rewrite app_nil_r|].
  destruct (buffer_step bs op) as [bs1 r1] eqn:E1. destruct (buffer_run bs1 ops) as [bs2 r2] eqn:E2. intros [= <- <-].
  rewrite <- app_assoc, (IH _ _ _ E2), app_assoc, (buffer_step_releases _ _ _ _ E1). by rewrite app_assoc.
Qed.

(** Received memory is given back once. Whatever a program does with its
    buffers, making, moving, swapping, assigning and destroying them: when all of
    them are destroyed, each buffer that was made with a destructor has had it
    called exactly once, on its memory and size, and no other call was made; and
    before that, what was called and what is still held add up to what is due. *)
Theorem buffers_released_once (ops : list buffer_op) (bs : bufs) (calls : list release) :
  buffer_run [] ops = (bs, calls) ->
  calls ++ held bs ≡ₚ concat (due <$> ops) /\
  (Forall (fun o => o = None) bs -> calls ≡ₚ concat (due <$> ops)).
Proof.
  intros E. pose proof (buffer_run_releases _ _ _ _ E) as Hr. simpl in Hr. split; [done|]. intros Hall.
  rewrite <- Hr. assert (held bs = []) as ->; [|by rewrite app_nil_r].
  clear E Hr. induction Hall as [|o bs -> _ IH]; [done|exact IH].
Qed.

(** Two messages; the second replaces the first, and the replaced memory goes
    back at once. *)
Definition demo_bufs : list buffer_op := [BNew 1000 64 (Some 1%nat) 0; BNew 2000 128 (Some 2%nat) 7; BAssign 0 1; BMove 0; BSwap 0 2; BDestroy 0; BDestroy 1; BDestroy 2].
Lemma buffers_released_once_witness :
  (buffer_run [] demo_bufs).2 ++ held (buffer_run [] demo_bufs).1 ≡ₚ concat (due <$> demo_bufs) /\
  (Forall (fun o => o = None) (buffer_run [] demo_bufs).1 -> (buffer_run [] demo_bufs).2 ≡ₚ concat (due <$> demo_bufs)).
Proof. apply (buffers_released_once demo_bufs _ _ (surjective_pairing _)). Defined.
Example demo_releases : buffer_run [] demo_bufs = ([None; None; None], [mk_release 1 1000 64; mk_release 2 7 128]).
Proof. vm_compute. reflexivity. Qed.
