(* ===== verification/SafePtr.v ===== *)
(** Objects behind a lock ([common/include/safe_ptr.hpp], [safe_ptr]) and the
    queues between the threads of the communication helper
    ([include/scheduler/comm_helper.hpp]).

    Every [p->f()] takes the recursive mutex of [p], and the temporary that holds
    it lives to the end of the full expression: [p->find(k) == p->end()] holds the
    mutex twice. Several expressions in a row are not one critical section. The
    object itself is read and written by separate steps, so nothing but the mutex
    keeps two threads from undoing each other's work. *)
From stdpp Require Import prelude list.
From Stdlib Require Import ZArith Lia.
From S2P Require Import Prelude Interleave.

(** * Expressions on a shared object

    [D] is the object, [Q] its member functions with their arguments, [A] their
    answers. A client [C] has a next expression, a list of calls whose answers it
    goes on with. *)
Section safe_ptr.
Context {D Q A C E : Type}.
Variables (call : D -> Q -> res (D * A)) (next : C -> option (list Q)) (resume : C -> list A -> C * list E).

(** The object, and [std::recursive_mutex]: its owner and how often it holds it. *)
Record safe := mk_safe { obj_ : D; owner_ : option nat; depth_ : nat }.

Inductive sp_pc :=
  | SpIdle
  | SpLock (q : Q) (qs : list Q) (done : list A)
  | SpRead (q : Q) (qs : list Q) (done : list A)
  | SpWrite (copy : D) (q : Q) (qs : list Q) (done : list A)
  | SpUnlock (held : nat) (done : list A)
  | SpCrashed.

Record sp_thread := mk_sp_thread { sp_id : nat; sp_client : C; sp_at : sp_pc }.

(** The next call of the expression, or the temporaries' destructors. *)
Definition sp_go (qs : list Q) (done : list A) : sp_pc :=
  match qs with q :: qs => SpLock q qs done | [] => SpUnlock (length done) done end.

Definition mutex_lock (me : nat) (g : safe) : option safe :=
  match owner_ g with
  | None => Some (mk_safe (obj_ g) (Some me) 1)
  | Some o => if decide (o = me) then Some (mk_safe (obj_ g) (Some me) (S (depth_ g))) else None
  end.
Definition mutex_unlock (g : safe) : safe :=
  match depth_ g with
  | S (S n) => mk_safe (obj_ g) (owner_ g) (S n)
  | _ => mk_safe (obj_ g) None 0
  end.

Definition sp_step (w : unit) (g : safe) (l : sp_thread) : option (safe * sp_thread * list E) :=
  let at_ p := mk_sp_thread (sp_id l) (sp_client l) p in
  match sp_at l with
  | SpIdle =>
      match next (sp_client l) with
      | Some (q :: qs) => Some (g, at_ (sp_go (q :: qs) []), [])
      | _ => None
      end
  | SpLock q qs done =>
      match mutex_lock (sp_id l) g with Some g => Some (g, at_ (SpRead q qs done), []) | None => None end
  | SpRead q qs done => Some (g, at_ (SpWrite (obj_ g) q qs done), [])
  | SpWrite copy q qs done =>
      match call copy q with
      | Ok (d, a) => Some (mk_safe d (owner_ g) (depth_ g), at_ (sp_go qs (done ++ [a])), [])
      | Fault _ => Some (g, at_ SpCrashed, [])
      end
  | SpUnlock held done =>
      match held with
      | S (S n) => Some (mutex_unlock g, at_ (SpUnlock (S n) done), [])
      | _ => let '(c, es) := resume (sp_client l) done in Some (mutex_unlock g, mk_sp_thread (sp_id l) c SpIdle, es)
      end
  | SpCrashed => None
  end.

Definition sp_start (d : D) (cs : list C) : sys safe sp_thread :=
  (mk_safe d None 0, imap (fun i c => mk_sp_thread i c SpIdle) cs).
Definition sp_run : sys safe sp_thread -> list (nat * unit) -> sys safe sp_thread * list (event E) := sys_run sp_step.

(** * Whole expressions at once *)
Fixpoint calls (d : D) (qs : list Q) : res (D * list A) :=
  match qs with
  | [] => Ok (d, [])
  | q :: qs => '(d, a) ← call d q; '(d, aa) ← calls d qs; Ok (d, a :: aa)
  end.

Definition at_once (i : nat) (s : D * list C) : res (D * list C * list (event E)) :=
  match s.2 !! i with
  | None => Ok (s.1, s.2, [])
  | Some c =>
      match next c with
      | Some (q :: qs) => '(d, aa) ← calls s.1 (q :: qs); let '(c, es) := resume c aa in Ok (d, <[i := c]> s.2, pair i <$> es)
      | _ => Ok (s.1, s.2, [])
      end
  end.
Fixpoint once_run (s : D * list C) (sched : list nat) : res (D * list C * list (event E)) :=
  match sched with
  | [] => Ok (s.1, s.2, [])
  | i :: sched =>
      '(d, cs, es1) ← at_once i s; '(d, cs, es2) ← once_run (d, cs) sched; Ok (d, cs, es1 ++ es2)
  end.

Lemma sp_calls_app d qs1 qs2 : calls d (qs1 ++ qs2) = '(d, a1) ← calls d qs1; '(d, a2) ← calls d qs2; Ok (d, a1 ++ a2).
Proof.
  revert d. induction qs1 as [|q qs1 IH]; intros d; simpl.
  - destruct (calls d qs2) as [[d2 a2]|]; done.
  - destruct (call d q) as [[d1 a]|]; simpl; [|done]. rewrite IH. destruct (calls d1 qs1) as [[d2 a2]|]; simpl; [|done].
    destruct (calls d2 qs2) as [[d3 a3]|]; done.
Qed.
Lemma sp_calls_length d qs d' aa : calls d qs = Ok (d', aa) -> length aa = length qs.
Proof.
  revert d aa. induction qs as [|q qs IH]; intros d aa; simpl; [by intros [= _ <-]|].
  destruct (call d q) as [[d1 a]|]; simpl; [|done]. destruct (calls d1 qs) as [[d2 a2]|] eqn:Ec; simpl; [|done]. intros [= <- <-]. simpl. f_equal. by eapply IH.
Qed.
Lemma once_run_snoc s sched i d cs es : once_run s sched = Ok (d, cs, es) ->
  once_run s (sched ++ [i]) = '(d, cs, es2) ← at_once i (d, cs); Ok (d, cs, es ++ es2).
Proof.
  revert s es. induction sched as [|j sched IH]; intros s es; simpl.
  - intros [= <- <- <-]. destruct s as [d0 cs0]. simpl. destruct (at_once i (d0, cs0)) as [[[d1 cs1] es1]|]; simpl; [|done]. by rewrite app_nil_r.
  - destruct (at_once j s) as [[[d1 cs1] es1]|]; simpl; [|done]. destruct (once_run (d1, cs1) sched) as [[[d2 cs2] es2]|] eqn:Er; simpl; [|done].
    intros [= <- <- <-]. rewrite (IH _ _ Er). destruct (at_once i (d2, cs2)) as [[[d3 cs3] es3]|]; simpl; [|done]. by rewrite app_assoc.
Qed.

(** * Interleavings are whole expressions in some order *)
(** What a thread that holds the mutex has done of its expression, from the
    object [d]. *)
Definition progress (d : D) (g : safe) (l : sp_thread) : Prop :=
  exists pre post d1 aa, next (sp_client l) = Some (pre ++ post) /\ calls d pre = Ok (d1, aa) /\ obj_ g = d1 /\
    match sp_at l with
    | SpLock q qs done => post = q :: qs /\ done = aa /\ depth_ g = length pre /\ (0 < length pre)%nat
    | SpRead q qs done => post = q :: qs /\ done = aa /\ depth_ g = S (length pre)
    | SpWrite copy q qs done => copy = d1 /\ post = q :: qs /\ done = aa /\ depth_ g = S (length pre)
    | SpUnlock held done => post = [] /\ done = aa /\ depth_ g = held /\ (0 < held)%nat /\ (0 < length pre)%nat
    | _ => False
    end.

Definition sp_outside (l : sp_thread) : Prop :=
  match sp_at l with
  | SpIdle => True
  | SpLock q qs done => done = [] /\ next (sp_client l) = Some (q :: qs)
  | _ => False
  end.

Section interleavings.
Variables (d0 : D) (cs0 : list C).
(** The expressions do not fault, in whatever order they are evaluated. *)
Hypothesis once_safe : forall sched, is_ok (once_run (d0, cs0) sched).

Record sp_inv (s : sys safe sp_thread) (es : list (event E)) : Prop := {
  sp_ids i l : s.2 !! i = Some l -> sp_id l = i;
  sp_lin : exists sched d, once_run (d0, cs0) sched = Ok (d, sp_client <$> s.2, es) /\
    match owner_ s.1 with
    | None => depth_ s.1 = 0%nat /\ obj_ s.1 = d /\ forall i l, s.2 !! i = Some l -> sp_outside l
    | Some i => exists l, s.2 !! i = Some l /\ progress d s.1 l /\ forall j l', s.2 !! j = Some l' -> j <> i -> sp_outside l'
    end }.

(** A thread that does not have the mutex makes a step on its own. *)
Lemma sp_inv_outside g ls es i l l' : sp_inv (g, ls) es -> ls !! i = Some l -> owner_ g <> Some i ->
  sp_outside l' -> sp_id l' = sp_id l -> sp_client l' = sp_client l -> sp_inv (g, <[i := l']> ls) es.
Proof.
  intros [Hid (sched & d & Hrun & Hcase)] Hi Hown Hout Hid' Hc. cbn [fst snd] in *. split; cbn [fst snd].
  { intros j lj [(<- & <- & _)|(Hne & Hj)]%list_lookup_insert_Some; [rewrite Hid'|]; by apply Hid. }
  exists sched, d. rewrite list_fmap_insert, Hc, list_insert_id by (by rewrite list_lookup_fmap, Hi). split; [done|].
  destruct (owner_ g) as [o|].
  - destruct Hcase as (lo & Ho & Hp & Hrest). exists lo. assert (i <> o) by congruence. rewrite list_lookup_insert_ne by done. split; [done|]. split; [done|].
    intros j lj [(<- & <- & _)|(Hne & Hj)]%list_lookup_insert_Some Hjo; [done|by eapply Hrest].
  - destruct Hcase as (? & ? & Hrest). split; [done|]. split; [done|].
    intros j lj [(<- & <- & _)|(Hne & Hj)]%list_lookup_insert_Some; [done|by eapply Hrest].
Qed.

(** The owner of the mutex makes a step and keeps it. *)
Lemma sp_inv_owner g g' ls es i l l' : sp_inv (g, ls) es -> ls !! i = Some l -> owner_ g' = Some i ->
  sp_id l' = sp_id l -> sp_client l' = sp_client l ->
  (forall sched d, once_run (d0, cs0) sched = Ok (d, sp_client <$> ls, es) ->
    match owner_ g with None => depth_ g = 0%nat /\ obj_ g = d /\ sp_outside l | Some o => o = i /\ progress d g l end -> progress d g' l') ->
  (owner_ g = None \/ owner_ g = Some i) -> sp_inv (g', <[i := l']> ls) es.
Proof.
  intros [Hid (sched & d & Hrun & Hcase)] Hi Hown' Hid' Hc Hp Hown. cbn [fst snd] in *. split; cbn [fst snd].
  { intros j lj [(<- & <- & _)|(Hne & Hj)]%list_lookup_insert_Some; [rewrite Hid'|]; by apply Hid. }
  exists sched, d. rewrite list_fmap_insert, Hc, list_insert_id by (by rewrite list_lookup_fmap, Hi). split; [done|].
  rewrite Hown'. exists l'. rewrite list_lookup_insert_eq by (by eapply lookup_lt_Some). split; [done|].
  assert (forall j l'', ls !! j = Some l'' -> j <> i -> sp_outside l'') as Hrest.
  { destruct Hown as [En|En]; rewrite En in Hcase; [destruct Hcase as (_ & _ & Hr); intros; by eapply Hr|]. destruct Hcase as (_ & _ & _ & Hr). exact Hr. }
  split.
  - apply (Hp sched d Hrun). destruct Hown as [En|En]; rewrite En in *; [destruct Hcase as (? & ? & Hr); eauto|].
    destruct Hcase as (lo & Ho & Hpr & _). by simplify_eq.
  - intros j lj [(<- & <- & _)|(Hne & Hj)]%list_lookup_insert_Some Hji; [done|by eapply Hrest].
Qed.

(** Who is past its first lock is the owner. *)
Lemma sp_inside_owns g ls es i l : sp_inv (g, ls) es -> ls !! i = Some l -> ~ sp_outside l ->
  owner_ g = Some i /\ exists sched d, once_run (d0, cs0) sched = Ok (d, sp_client <$> ls, es) /\ progress d g l /\ (forall j l', ls !! j = Some l' -> j <> i -> sp_outside l').
Proof.
  intros [_ (sched & d & Hrun & Hcase)] Hi Hout. cbn [fst snd] in *. destruct (owner_ g) as [o|].
  - destruct Hcase as (lo & Ho & Hp & Hrest). destruct (decide (i = o)) as [->|Hne]; [|by destruct Hout; eapply Hrest]. simplify_eq. split; [done|]. by exists sched, d.
  - destruct Hcase as (_ & _ & Hrest). by destruct Hout; eapply Hrest.
Qed.

Lemma sp_not_owner g ls es i l : sp_inv (g, ls) es -> ls !! i = Some l -> sp_at l = SpIdle -> owner_ g <> Some i.
Proof. intros [_ (sched & d & _ & Hcase)] Hi Hl Eo. cbn [fst snd] in *. rewrite Eo in Hcase. destruct Hcase as (l0 & Hl0 & (? & ? & ? & ? & _ & _ & _ & Hp) & _). simplify_eq. by rewrite Hl in Hp. Qed.

(** The rest of the expression does not fault. *)
Lemma progress_safe sched d ls es i l pre q post d1 aa : once_run (d0, cs0) sched = Ok (d, sp_client <$> ls, es) -> ls !! i = Some l ->
  next (sp_client l) = Some (pre ++ q :: post) -> calls d pre = Ok (d1, aa) -> exists d2 a, call d1 q = Ok (d2, a).
Proof.
  intros Hrun Hi Hn Hc. destruct (once_safe (sched ++ [i])) as [r Hr]. rewrite (once_run_snoc _ _ _ _ _ _ Hrun) in Hr. unfold at_once in Hr. cbn [fst snd] in Hr.
  rewrite list_lookup_fmap, Hi in Hr. cbn [fmap option_fmap option_map] in Hr. rewrite Hn in Hr.
  destruct (call d1 q) as [[d2 a]|] eqn:Eq; [by eauto|].
  destruct (pre ++ q :: post) as [|q0 qs0] eqn:El; [by destruct pre|]. rewrite <- El, sp_calls_app, Hc in Hr. cbn in Hr. by rewrite Eq in Hr.
Qed.

Lemma sp_go_progress d g g' l pre q post d1 aa d2 a : next (sp_client l) = Some (pre ++ q :: post) -> calls d pre = Ok (d1, aa) -> call d1 q = Ok (d2, a) ->
  depth_ g = S (length pre) -> g' = mk_safe d2 (owner_ g) (depth_ g) ->
  progress d g' (mk_sp_thread (sp_id l) (sp_client l) (sp_go post (aa ++ [a]))).
Proof.
  intros Hn Hc Hq Hd ->. exists (pre ++ [q]), post, d2, (aa ++ [a]). cbn [sp_client sp_at obj_ depth_]. rewrite <- app_assoc. split; [done|].
  assert (calls d (pre ++ [q]) = Ok (d2, aa ++ [a])) as Hc' by (rewrite sp_calls_app, Hc; cbn; by rewrite Hq). split; [done|]. split; [done|].
  pose proof (sp_calls_length _ _ _ _ Hc') as Hlen. rewrite !length_app in Hlen. cbn [length] in Hlen.
  destruct post as [|q' post]; cbn [sp_go]; repeat split; rewrite ?length_app; cbn [length]; lia.
Qed.

Lemma sp_step_inv g ls es i l g' l' new : sp_inv (g, ls) es -> ls !! i = Some l -> sp_step () g l = Some (g', l', new) ->
  sp_inv (g', <[i := l']> ls) (es ++ (pair i <$> new)).
Proof.
  intros Hinv Hi Hs. pose proof (sp_ids _ _ Hinv i l Hi) as Hid. unfold sp_step in Hs. destruct (sp_at l) as [|q qs done_|q qs done_|copy q qs done_|held done_|] eqn:Ep.
  - destruct (next (sp_client l)) as [[|q qs]|] eqn:En; [done| |done]. injection Hs as <- <- <-. rewrite app_nil_r.
    eapply sp_inv_outside; try done. by eapply sp_not_owner.
  - destruct (mutex_lock (sp_id l) g) as [g1|] eqn:Em; [|done]. injection Hs as <- <- <-. rewrite app_nil_r. unfold mutex_lock in Em. rewrite Hid in Em.
    destruct (owner_ g) as [o|] eqn:Eo; [destruct (decide (o = i)) as [->|]; [|done]|]; injection Em as <-; eapply sp_inv_owner; try done; try (by rewrite Eo; auto).
    + intros sched d Hrun. rewrite Eo. intros (_ & pre & post & d1 & aa & Hn & Hc & Hob & Hp). rewrite Ep in Hp. destruct Hp as (-> & -> & Hd & _).
      exists pre, (q :: qs), d1, aa. cbn. rewrite Hd. done.
    + intros sched d Hrun. rewrite Eo. intros (_ & Hob & Hout). unfold sp_outside in Hout. rewrite Ep in Hout. destruct Hout as (-> & Hn). exists [], (q :: qs), d, []. done.
  - injection Hs as <- <- <-. rewrite app_nil_r. destruct (sp_inside_owns _ _ _ _ _ Hinv Hi) as (Ho & _); [unfold sp_outside; rewrite Ep; tauto|].
    eapply sp_inv_owner; try done; [|auto]. intros sched d Hrun. rewrite Ho. intros (_ & pre & post & d1 & aa & Hn & Hc & Hob & Hp). rewrite Ep in Hp.
    exists pre, post, d1, aa. cbn. rewrite Hob. tauto.
  - destruct (sp_inside_owns _ _ _ _ _ Hinv Hi) as (Ho & sched & d & Hrun & (pre & post & d1 & aa & Hn & Hc & Hob & Hp) & _); [unfold sp_outside; rewrite Ep; tauto|].
    rewrite Ep in Hp. destruct Hp as (-> & -> & -> & Hd). destruct (progress_safe _ _ _ _ _ _ _ _ _ _ _ Hrun Hi Hn Hc) as (d2 & a & Eq). rewrite Eq in Hs.
    injection Hs as <- <- <-. rewrite app_nil_r. eapply sp_inv_owner; try done; [|auto]. intros sched' d' Hrun'. rewrite Ho. intros (_ & pre' & post' & d1' & aa' & Hn' & Hc' & Hob' & Hp).
    rewrite Ep in Hp. destruct Hp as (-> & -> & -> & Hd'). eapply sp_go_progress; try done. congruence.
  - destruct (sp_inside_owns _ _ _ _ _ Hinv Hi) as (Ho & sched & d & Hrun & (pre & post & d1 & aa & Hn & Hc & Hob & Hp) & Hrest); [unfold sp_outside; rewrite Ep; tauto|].
    rewrite Ep in Hp. destruct Hp as (-> & -> & Hd & Hpos & Hpre). destruct held as [|[|n]]; [lia| |].
    + destruct (resume (sp_client l) aa) as [c es'] eqn:Er. injection Hs as <- <- <-. split; cbn [fst snd].
      { intros j lj [(<- & <- & _)|(Hne & Hj)]%list_lookup_insert_Some; [done|]. by eapply sp_ids. }
      exists (sched ++ [i]), d1. rewrite (once_run_snoc _ _ _ _ _ _ Hrun). unfold at_once. cbn [fst snd]. rewrite list_lookup_fmap, Hi. cbn [fmap option_fmap option_map].
      rewrite app_nil_r in Hn. rewrite Hn. destruct pre as [|q0 pre]; [cbn in Hpre; lia|]. rewrite Hc. cbn [mbind res_bind]. rewrite Er. cbn [mbind res_bind]. rewrite list_fmap_insert. split; [done|].
      unfold mutex_unlock. rewrite Hd. cbn [owner_ depth_ obj_]. split; [done|]. split; [done|].
      intros j lj [(<- & <- & _)|(Hne & Hj)]%list_lookup_insert_Some; [done|]. by eapply Hrest.
    + injection Hs as <- <- <-. rewrite app_nil_r. eapply sp_inv_owner; try done; [unfold mutex_unlock; by rewrite Hd| |auto].
      intros sched' d' Hrun'. rewrite Ho. intros (_ & pre' & post' & d1' & aa' & Hn' & Hc' & Hob' & Hp). rewrite Ep in Hp. destruct Hp as (-> & -> & Hd' & _ & Hpre').
      exists pre', [], d1', aa'. unfold mutex_unlock. rewrite Hd'. cbn. repeat split; try done; lia.
  - done.
Qed.

Lemma sp_start_inv : sp_inv (sp_start d0 cs0) [].
Proof.
  split; cbn [sp_start fst snd].
  - intros i l Hl. rewrite list_lookup_imap in Hl. apply fmap_Some in Hl as (c & _ & ->). done.
  - exists [], d0. split.
    + cbn. do 3 f_equal. apply list_eq. intros i. rewrite list_lookup_fmap, list_lookup_imap. by destruct (cs0 !! i).
    + cbn. split; [done|]. split; [done|]. intros i l Hl. rewrite list_lookup_imap in Hl. apply fmap_Some in Hl as (c & _ & ->). done.
Qed.

Lemma sp_run_inv sched : sp_inv (sp_run (sp_start d0 cs0) sched).1 (sp_run (sp_start d0 cs0) sched).2.
Proof.
  apply (sys_run_inv sp_step sp_inv); [apply sp_start_inv|]. intros [g ls] es [i []] Hinv. unfold sys_step. cbn [fst snd].
  destruct (ls !! i) as [l|] eqn:Ei; [|by rewrite app_nil_r]. destruct (sp_step () g l) as [[[g' l'] new]|] eqn:Es; [|by rewrite app_nil_r]. by eapply sp_step_inv.
Qed.

(** What the threads do is what they would do if every expression were evaluated
    at once, in some order; no thread is stuck on the mutex for ever. *)
Lemma sp_run_once sched s es : sp_run (sp_start d0 cs0) sched = (s, es) ->
  (exists sched' d, once_run (d0, cs0) sched' = Ok (d, sp_client <$> s.2, es) /\ (owner_ s.1 = None -> obj_ s.1 = d)) /\
  (forall i l, s.2 !! i = Some l -> sp_at l <> SpCrashed) /\
  (forall o, owner_ s.1 = Some o -> exists l, s.2 !! o = Some l /\ is_Some (sp_step () s.1 l)).
Proof.
  intros Hrun. pose proof (sp_run_inv sched) as Hinv. rewrite Hrun in Hinv. cbn [fst snd] in Hinv. pose proof Hinv as [Hid (sched' & d & Honce & Hcase)]. destruct s as [g ls]. cbn [fst snd] in *. split; [|split].
  - exists sched', d. split; [done|]. intros En. rewrite En in Hcase. tauto.
  - intros i l Hl Hc. destruct (sp_inside_owns _ _ _ _ _ Hinv Hl) as (_ & ? & ? & _ & (? & ? & ? & ? & _ & _ & _ & Hp) & _); [unfold sp_outside; rewrite Hc; tauto|]. by rewrite Hc in Hp.
  - intros o Eo. rewrite Eo in Hcase. destruct Hcase as (l & Hl & (pre & post & d1 & aa & Hn & Hc & Hob & Hp) & _). exists l. split; [done|]. unfold sp_step.
    destruct (sp_at l) as [|q qs done_|q qs done_|copy q qs done_|held done_|] eqn:Ep; try done.
    + unfold mutex_lock. rewrite Eo, (Hid _ _ Hl), decide_True by done. by eexists.
    + destruct Hp as (-> & -> & -> & _). destruct (progress_safe _ _ _ _ _ _ _ _ _ _ _ Honce Hl Hn Hc) as (d2 & a & ->). by eexists.
    + destruct held as [|[|n]]; [| |by eexists]; destruct (resume (sp_client l) done_); by eexists.
Qed.
End interleavings.
End safe_ptr.
