(* ===== verification/SafeQueue.v ===== *)
(** The queues between the threads of the communication helper
    ([include/scheduler/comm_helper.hpp]: [secondary_thread_msg_queues],
    [resp_queues]). Any thread pushes; one thread asks whether the queue is empty,
    looks at the front, handles it and pops it, each in an expression and so in a
    critical section of its own. The same for the map of the addresses of keys,
    which is asked and then read. *)
From stdpp Require Import prelude list gmap.
From Stdlib Require Import ZArith Lia.
From S2P Require Import Prelude Interleave SafePtr.

Section queue.
Context {M : Type}.

(** * The queue: [std::queue] *)
Inductive q_call := QPush (m : M) | QEmpty | QFront | QPop.
Inductive q_answer := AVoid | ABool (b : bool) | AMsg (m : M).

(** [front] and [pop] of an empty queue are undefined. *)
Definition q_apply (d : list M) (q : q_call) : res (list M * q_answer) :=
  match q with
  | QPush m => Ok (d ++ [m], AVoid)
  | QEmpty => Ok (d, ABool (match d with [] => true | _ => false end))
  | QFront => match d with m :: _ => Ok (d, AMsg m) | [] => Fault IterPastEnd end
  | QPop => match d with _ :: d => Ok (d, AVoid) | [] => Fault IterPastEnd end
  end.

(** * Who uses it

    A producer with the messages it has to push, and the consumer, in its loop
    that handles at most [batch] messages each time. *)
Inductive q_client :=
  | Pushing (todo : list M)
  | AtEmpty (msg_processed : nat)
  | AtFront (msg_processed : nat)
  | AtPop (msg_processed : nat).

Inductive q_event := Pushed (m : M) | Handled (m : M).

Definition q_next (c : q_client) : option (list q_call) :=
  match c with
  | Pushing (m :: _) => Some [QPush m]
  | Pushing [] => None
  | AtEmpty _ => Some [QEmpty]
  | AtFront _ => Some [QFront]
  | AtPop _ => Some [QPop]
  end.

(** [None]: the loop goes on until the queue is empty. *)
Variable batch : option nat.
Definition batch_full (msg_processed : nat) : bool :=
  match batch with Some b => b <=? msg_processed | None => false end%nat.

Definition q_resume (c : q_client) (aa : list q_answer) : q_client * list q_event :=
  match c, aa with
  | Pushing (m :: todo), _ => (Pushing todo, [Pushed m])
  | AtEmpty n, [ABool false] => (if batch_full n then AtEmpty 0 else AtFront n, [])
  | AtEmpty n, _ => (AtEmpty 0, [])
  | AtFront n, [AMsg m] => (AtPop n, [Handled m])
  | AtPop n, _ => (AtEmpty (S n), [])
  | c, _ => (c, [])
  end.

Definition q_sys : Type := sys (safe (D := list M)) (sp_thread (D := list M) (Q := q_call) (A := q_answer) (C := q_client)).
Definition q_start (progs : list (list M)) : q_sys := sp_start [] (AtEmpty 0 :: (Pushing <$> progs)).
Definition q_run : q_sys -> list (nat * unit) -> q_sys * list (event q_event) := sp_run q_apply q_next q_resume.
Definition q_once : list M * list q_client -> list nat -> res (list M * list q_client * list (event q_event)) := once_run q_apply q_next q_resume.

(** * Histories *)
Definition pushed (es : list (event q_event)) : list M := omap (fun e => match e.2 with Pushed m => Some m | _ => None end) es.
Definition handled (es : list (event q_event)) : list M := omap (fun e => match e.2 with Handled m => Some m | _ => None end) es.
Definition pushed_by (i : nat) (es : list (event q_event)) : list M :=
  omap (fun e => match e.2 with Pushed m => if decide (e.1 = i) then Some m else None | _ => None end) es.

(** What waits to be handled: the front has been, when the consumer is about to
    pop it. *)
Definition waiting (d : list M) (c : q_client) : list M := match c with AtPop _ => tail d | _ => d end.
Definition consumes (d : list M) (c : q_client) : Prop :=
  match c with AtEmpty _ => True | AtFront _ | AtPop _ => d <> [] | Pushing _ => False end.

Record q_inv (progs : list (list M)) (d : list M) (cs : list q_client) (es : list (event q_event)) : Prop := {
  qi_consumer : exists c ps, cs = c :: (Pushing <$> ps) /\ consumes d c /\ pushed es = handled es ++ waiting d c /\ length ps = length progs /\
    forall i p, progs !! i = Some p -> exists todo, ps !! i = Some todo /\ p = pushed_by (S i) es ++ todo }.

Lemma waiting_push d c m : consumes d c -> waiting (d ++ [m]) c = waiting d c ++ [m].
Proof. destruct c; cbn; try done. by destruct d. Qed.
Lemma consumes_push d c m : consumes d c -> consumes (d ++ [m]) c.
Proof. destruct c; cbn; try done; by destruct d. Qed.

Lemma omap_snoc {A B} (f : A -> option B) l x : omap f (l ++ [x]) = omap f l ++ match f x with Some y => [y] | None => [] end.
Proof. rewrite omap_app. cbn. by destruct (f x). Qed.

(** An expression evaluated at once, in a state of the invariant: it does not
    fault, and the invariant goes on. *)
Lemma q_inv_step progs d cs es i : q_inv progs d cs es ->
  exists d' cs' new, at_once q_apply q_next q_resume i (d, cs) = Ok (d', cs', new) /\ q_inv progs d' cs' (es ++ new).
Proof.
  intros Hinv. pose proof Hinv as [(c & ps & -> & Hc & Hw & Hlen & Hps)]. unfold at_once. cbn [fst snd]. destruct i as [|i].
  - cbn [lookup list_lookup]. destruct c as [todo|n|n|n]; [done|..]; cbn [q_next calls q_apply mbind res_bind].
    + exists d. destruct d as [|m d]; cbn [q_resume]; eexists _, _; (split; [reflexivity|]); cbn [fmap list_fmap]; rewrite app_nil_r; split; eexists _, ps; (split; [reflexivity|]); try done.
      destruct (batch_full n); done.
    + destruct d as [|m d]; [done|]. cbn. eexists _, _, _. split; [reflexivity|]. split. eexists _, ps. split; [reflexivity|]. split; [done|].
      unfold pushed, handled in *. rewrite !omap_snoc. cbn. rewrite app_nil_r, <- app_assoc. split; [done|]. split; [done|].
      intros j p Hp. destruct (Hps _ _ Hp) as (todo & ? & ->). exists todo. split; [done|]. unfold pushed_by. rewrite omap_snoc. cbn. by rewrite app_nil_r.
    + destruct d as [|m d]; [done|]. cbn. eexists _, _, _. split; [reflexivity|]. rewrite app_nil_r. split. by eexists _, ps.
  - change ((c :: (Pushing <$> ps)) !! S i) with ((Pushing <$> ps) !! i). rewrite list_lookup_fmap. destruct (ps !! i) as [[|m todo]|] eqn:Ei; cbn [fmap option_fmap option_map q_next].
    + eexists _, _, _. split; [reflexivity|]. by rewrite app_nil_r.
    + cbn [calls q_apply mbind res_bind q_resume]. eexists _, _, _. split; [reflexivity|]. change (<[S i := Pushing todo]> (c :: (Pushing <$> ps))) with (c :: <[i := Pushing todo]> (Pushing <$> ps)).
      rewrite <- list_fmap_insert. split. eexists c, _. split; [reflexivity|]. split; [by apply consumes_push|]. cbn [fmap list_fmap].
      unfold pushed, handled in *. rewrite !omap_snoc. cbn. rewrite app_nil_r, Hw, waiting_push, app_assoc by done. split; [done|]. rewrite length_insert. split; [done|].
      intros j p Hp. destruct (Hps _ _ Hp) as (todo' & Hj & ->). unfold pushed_by. rewrite omap_snoc. cbn. destruct (decide (i = j)) as [->|Hne].
      * rewrite list_lookup_insert_eq by (by eapply lookup_lt_Some). simplify_eq. exists todo. rewrite decide_True by done. by rewrite <- app_assoc.
      * rewrite list_lookup_insert_ne by done. exists todo'. rewrite decide_False by lia. by rewrite app_nil_r.
    + eexists _, _, _. split; [reflexivity|]. by rewrite app_nil_r.
Qed.

Lemma q_inv_start progs : q_inv progs [] (AtEmpty 0 :: (Pushing <$> progs)) [].
Proof. split. eexists _, progs. split; [done|]. split; [done|]. split; [done|]. split; [done|]. intros i p Hp. by exists p. Qed.

Lemma q_once_inv progs sched : exists d cs es, q_once ([], AtEmpty 0 :: (Pushing <$> progs)) sched = Ok (d, cs, es) /\ q_inv progs d cs es.
Proof.
  induction sched as [|i sched IH] using rev_ind; [eexists _, _, _; split; [reflexivity|apply q_inv_start]|].
  destruct IH as (d & cs & es & Hr & Hi). unfold q_once in *. rewrite (once_run_snoc _ _ _ _ _ _ _ _ _ Hr). destruct (q_inv_step _ _ _ _ i Hi) as (d' & cs' & new & -> & Hi'). by eexists _, _, _.
Qed.

(** The consumer alone, from the test of its loop. *)
Fixpoint drain (n : nat) (d : list M) (c : q_client) : option (list M * q_client * list M) :=
  match n with
  | O => Some (d, c, [])
  | S n =>
      match q_next c with
      | Some qs =>
          match calls q_apply d qs with
          | Ok (d, aa) =>
              let '(c, es) := q_resume c aa in
              '(d, c, ms) ← drain n d c; Some (d, c, omap (fun e => match e with Handled m => Some m | _ => None end) es ++ ms)
          | Fault _ => None
          end
      | None => None
      end
  end.

Lemma drain_app n k d c d1 c1 ms1 : drain n d c = Some (d1, c1, ms1) ->
  drain (n + k) d c = '(d2, c2, ms2) ← drain k d1 c1; Some (d2, c2, ms1 ++ ms2).
Proof.
  revert d c ms1. induction n as [|n IH]; intros d c ms1; cbn [drain Nat.add].
  - intros [= -> -> <-]. destruct (drain k d1 c1) as [[[d2 c2] ms2]|]; done.
  - destruct (q_next c) as [qs|]; [|done]. destruct (calls q_apply d qs) as [[d' aa]|]; [|done]. destruct (q_resume c aa) as [c' es].
    destruct (drain n d' c') as [[[d3 c3] ms3]|] eqn:En; cbn [mbind option_bind]; [|done]. intros [= -> -> <-]. rewrite (IH _ _ _ En).
    destruct (drain k d1 c1) as [[[d2 c2] ms2]|]; cbn; [|done]. by rewrite app_assoc.
Qed.

(** One message: one or, at the end of a batch, two tests, and the two other
    expressions. *)
Lemma drain_one d m n : batch <> Some 0%nat -> exists k n', drain k (m :: d) (AtEmpty n) = Some (d, AtEmpty n', [m]).
Proof.
  intros Hb. destruct (batch_full n) eqn:E.
  - exists 4%nat, 1%nat. cbn. rewrite E. cbn. assert (batch_full 0 = false) as -> by (unfold batch_full in *; destruct batch as [[|b]|]; done). done.
  - exists 3%nat, (S n). cbn. by rewrite E.
Qed.

(** It catches up. *)
Lemma drain_all d n : batch <> Some 0%nat -> exists k n', drain k d (AtEmpty n) = Some ([], AtEmpty n', d).
Proof.
  intros Hb. revert n. induction d as [|m d IH]; intros n; [by exists 0%nat, n|].
  destruct (drain_one d m n Hb) as (k1 & n1 & E1). destruct (IH n1) as (k2 & n2 & E2). exists (k1 + k2)%nat, n2. by rewrite (drain_app _ _ _ _ _ _ _ E1), E2.
Qed.
End queue.
Arguments q_client : clear implicits.
Arguments q_event : clear implicits.
Arguments q_sys : clear implicits.

(** C14: every message that is pushed is handled once, in the order of the pushes.
    For any number of threads that push and one that handles, in whatever order
    their accesses are interleaved: [front] and [pop] are never called on an
    empty queue; what has been handled is the beginning of what has been pushed,
    and each thread's messages were pushed in its order; when the handling thread
    is not inside its loop and the mutex is free, the queue holds exactly the
    messages pushed and not handled, and the thread left alone handles them all;
    the thread that has the mutex can always go on. *)
Theorem queue_exactly_once {M : Type} (batch : option nat) (progs : list (list M)) (sched : list (nat * unit)) (s : q_sys M) (es : list (event (q_event M))) :
  batch <> Some 0%nat -> q_run batch (q_start progs) sched = (s, es) ->
  (forall i l, s.2 !! i = Some l -> sp_at l <> SpCrashed) /\
  handled es `prefix_of` pushed es /\
  (forall i p, progs !! i = Some p -> pushed_by (S i) es `prefix_of` p) /\
  (forall l n, s.2 !! 0%nat = Some l -> sp_client l = AtEmpty n -> owner_ s.1 = None ->
    pushed es = handled es ++ obj_ s.1 /\ exists k n', drain batch k (obj_ s.1) (sp_client l) = Some ([], AtEmpty n', obj_ s.1)) /\
  (forall o, owner_ s.1 = Some o -> exists l, s.2 !! o = Some l /\ is_Some (sp_step q_apply q_next (q_resume batch) () s.1 l)).
Proof.
  intros Hb Hrun. destruct (sp_run_once q_apply q_next (q_resume batch) [] (AtEmpty 0 :: (Pushing <$> progs))
    ltac:(intros sc; destruct (q_once_inv batch progs sc) as (? & ? & ? & ? & _); by eexists) sched s es Hrun) as ((sched' & d & Honce & Hfree) & Hcrash & Hgo).
  destruct (q_once_inv batch progs sched') as (d' & cs' & es' & Hr & [(c & ps & Hcs & Hc & Hw & _ & Hps)]). unfold q_once in Hr. rewrite Honce in Hr. injection Hr as <- <- <-.
  split; [done|]. split; [rewrite Hw; by eexists|]. split; [|split; [|done]].
  - intros i p Hp. destruct (Hps _ _ Hp) as (todo & _ & E). exists todo. exact E.
  - intros l n Hl Hn Ho. assert (c = AtEmpty n) as ->.
    { apply (f_equal (.!! 0%nat)) in Hcs. rewrite list_lookup_fmap, Hl in Hcs. cbn in Hcs. congruence. }
    rewrite (Hfree Ho), Hn. split; [done|]. by apply drain_all.
Qed.

(** Two producers and the consumer, which is about to pop the first message. *)
Definition demo_progs : list (list nat) := [[1; 2]; [10]]%nat.
Definition demo_sched : list (nat * unit) := (fun i => (i, ())) <$> [1; 1; 2; 1; 1; 2; 1; 0; 0; 2; 0; 0; 0; 2; 2; 2; 2; 0; 0; 0; 0; 0]%nat.
Lemma queue_exactly_once_witness : exists s es, q_run (Some 10%nat) (q_start demo_progs) demo_sched = (s, es) /\
  pushed es = [1; 10]%nat /\ handled es = [1%nat] /\ handled es `prefix_of` pushed es.
Proof.
  destruct (q_run (Some 10%nat) (q_start demo_progs) demo_sched) as [s es] eqn:E. exists s, es. split; [done|].
  assert (es = (q_run (Some 10%nat) (q_start demo_progs) demo_sched).2) as Hes by (by rewrite E).
  split; [rewrite Hes; vm_compute; reflexivity|]. split; [rewrite Hes; vm_compute; reflexivity|].
  apply (queue_exactly_once (Some 10%nat) demo_progs demo_sched s es); [discriminate|exact E].
Defined.

(** With a second thread that handles messages, one of them can pop the queue
    that the other one has just emptied. *)
Lemma two_consumers_pop_empty :
  let s := (sp_run q_apply q_next (q_resume None) (sp_start [7%nat] [AtEmpty 0; AtEmpty 0]) ((fun i => (i, ())) <$> concat [replicate 10 0; replicate 10 1; replicate 5 0; replicate 5 1]%nat)).1 in
  (fun l => match sp_at l with SpCrashed => true | _ => false end) <$> s.2 = [false; true].
Proof. vm_compute. reflexivity. Qed.

(** * The addresses of keys: [key_address_cache_], [get_key_address] *)
Section addresses.
Context {K V : Type} `{Countable K}.

Inductive m_call := MFind (k : K) | MEnd | MAt (k : K) | MEmplace (k : K) (v : V) | MClear.
(** An iterator by the key it is at; [None] is the end. *)
Inductive m_answer := AIter (it : option K) | AVal (v : V) | ADone.

(** [at] of an absent key throws; [emplace] leaves a key that is there alone. *)
Definition m_apply (d : gmap K V) (q : m_call) : res (gmap K V * m_answer) :=
  match q with
  | MFind k => Ok (d, AIter (match d !! k with Some _ => Some k | None => None end))
  | MEnd => Ok (d, AIter None)
  | MAt k => match d !! k with Some v => Ok (d, AVal v) | None => Fault OutOfRange end
  | MEmplace k v => Ok (match d !! k with Some _ => d | None => <[k := v]> d end, ADone)
  | MClear => Ok (∅, ADone)
  end.

(** Threads that are told addresses, that ask for one, and that clear the cache. *)
Inductive m_client :=
  | Telling (todo : list (K * V))
  | Asking (todo : list K)
  | AtAt (k : K) (todo : list K)
  | Clearing.
Inductive m_event := Told (k : K) (v : V) | Answered (k : K) (v : option V).

Definition m_next (c : m_client) : option (list m_call) :=
  match c with
  | Telling ((k, v) :: _) => Some [MEmplace k v]
  | Asking (k :: _) => Some [MFind k; MEnd]
  | AtAt k _ => Some [MAt k]
  | Clearing => Some [MClear]
  | _ => None
  end.
Definition m_resume (c : m_client) (aa : list m_answer) : m_client * list m_event :=
  match c, aa with
  | Telling ((k, v) :: todo), _ => (Telling todo, [Told k v])
  | Asking (k :: todo), [AIter it; AIter end_] => if decide (it = end_) then (Asking todo, [Answered k None]) else (AtAt k todo, [])
  | AtAt k todo, [AVal v] => (Asking todo, [Answered k (Some v)])
  | c, _ => (c, [])
  end.

(** No thread clears the cache, as none of the platform does. *)
Definition m_fine (d : gmap K V) (c : m_client) : Prop :=
  match c with AtAt k _ => is_Some (d !! k) | Clearing => False | _ => True end.
(** Answers are what was told first. *)
Definition first_told (k : K) (es : list (event m_event)) : option V :=
  head (omap (fun e => match e.2 with Told k' v => if decide (k' = k) then Some v else None | _ => None end) es).

Record m_inv (d : gmap K V) (cs : list m_client) (es : list (event m_event)) : Prop := {
  mi_fine : Forall (m_fine d) cs;
  mi_told k : d !! k = first_told k es;
  mi_answers i k v : (i, Answered k (Some v)) ∈ es -> first_told k es = Some v }.

Lemma first_told_app k es es' : first_told k (es ++ es') = match first_told k es with Some v => Some v | None => first_told k es' end.
Proof. unfold first_told. rewrite omap_app. match goal with |- head (?x ++ _) = _ => by destruct x end. Qed.

Lemma m_inv_quiet d cs es i c c' e : m_inv d cs es -> cs !! i = Some c -> m_fine d c' ->
  match e with Told _ _ => False | Answered k v => v = None \/ v = d !! k end -> m_inv d (<[i := c']> cs) (es ++ [(i, e)]).
Proof.
  intros [Hf Ht Ha] Hi Hc He. assert (forall k, first_told k (es ++ [(i, e)]) = first_told k es) as Hsame.
  { intros k. rewrite first_told_app. destruct e; [done|]. by destruct (first_told k es). }
  split; [by apply Forall_insert|intros k; by rewrite Hsame|]. intros j k v Hin. rewrite Hsame.
  apply elem_of_app in Hin as [Hin|Hin]; [by eapply Ha|]. apply list_elem_of_singleton in Hin as [= -> <-]. destruct He as [|He]; [done|]. by rewrite <- Ht, <- He.
Qed.

Lemma m_inv_step d cs es i : m_inv d cs es ->
  exists d' cs' new, at_once m_apply m_next m_resume i (d, cs) = Ok (d', cs', new) /\ m_inv d' cs' (es ++ new).
Proof.
  intros Hinv. pose proof Hinv as [Hf Ht Ha]. unfold at_once. cbn [fst snd]. destruct (cs !! i) as [c|] eqn:Ei; [|eexists _, _, _; split; [reflexivity|by rewrite app_nil_r]].
  pose proof (Forall_lookup_1 _ _ _ _ Hf Ei) as Hc. destruct c as [[|[k v] todo]|[|k todo]|k todo|]; cbn [m_next]; try (eexists _, _, _; split; [reflexivity|by rewrite app_nil_r]).
  - cbn. eexists _, _, _. split; [reflexivity|]. split.
    + apply Forall_insert; [|done]. eapply Forall_impl; [exact Hf|]. intros [] Hx; cbn in *; try done. destruct Hx as [x Hx]. destruct (d !! k) eqn:Ek; [by eexists|].
      destruct (decide (k = k0)) as [->|]; [by rewrite lookup_insert_eq; eexists|rewrite lookup_insert_ne by done; by eexists].
    + intros k'. rewrite first_told_app, <- Ht. unfold first_told. cbn. destruct (decide (k = k')) as [->|Hne].
      * destruct (d !! k') eqn:Ek; [by rewrite Ek|by rewrite lookup_insert_eq].
      * destruct (d !! k) eqn:Ek; [|rewrite lookup_insert_ne by done]; by destruct (d !! k').
    + intros j k' v' Hin. rewrite first_told_app. apply elem_of_app in Hin as [Hin|Hin]; [by rewrite (Ha _ _ _ Hin)|]. by apply list_elem_of_singleton in Hin.
  - cbn [calls m_apply mbind res_bind m_resume]. destruct (d !! k) as [v|] eqn:Ek; cbn.
    + eexists _, _, _. split; [reflexivity|]. rewrite app_nil_r. split; [|done|done]. apply Forall_insert; [done|]. cbn. by eexists.
    + eexists _, _, _. split; [reflexivity|]. eapply m_inv_quiet; try done. by left.
  - cbn in Hc. destruct Hc as [v Hv]. cbn. rewrite Hv. cbn. eexists _, _, _. split; [reflexivity|]. eapply m_inv_quiet; try done. right. done.
Qed.

(** Asking for the address of a key never throws, and the answer is the address
    that was told first, if one had been. *)
Lemma address_lookups_agree (cs : list m_client) (sched : list (nat * unit)) s es : Forall (fun c => match c with AtAt _ _ | Clearing => False | _ => True end) cs ->
  sp_run m_apply m_next m_resume (sp_start ∅ cs) sched = (s, es) ->
  (forall i l, s.2 !! i = Some l -> sp_at l <> SpCrashed) /\ forall i k v, (i, Answered k (Some v)) ∈ es -> first_told k es = Some v.
Proof.
  intros Hcs Hrun. assert (forall sc, exists d cs' es', once_run m_apply m_next m_resume (∅, cs) sc = Ok (d, cs', es') /\ m_inv d cs' es') as Honce.
  { induction sc as [|i sc IH] using rev_ind.
    - eexists _, _, _. split; [reflexivity|]. split; [|done|]; [|intros i k v Hx; by apply not_elem_of_nil in Hx]. eapply Forall_impl; [exact Hcs|]. by intros [].
    - destruct IH as (d & cs' & es' & Hr & Hi). rewrite (once_run_snoc _ _ _ _ _ _ _ _ _ Hr). destruct (m_inv_step _ _ _ i Hi) as (? & ? & ? & -> & ?). by eexists _, _, _. }
  destruct (sp_run_once m_apply m_next m_resume ∅ cs ltac:(intros sc; destruct (Honce sc) as (? & ? & ? & ? & _); by eexists) sched s es Hrun) as ((sc & d & Ho & _) & Hcrash & _).
  split; [done|]. destruct (Honce sc) as (? & ? & ? & Hr & [_ _ Ha]). rewrite Ho in Hr. by injection Hr as <- <- <-.
Qed.
End addresses.

(** [clear_cache] between the question and [at]: the exception. *)
Lemma cleared_between_find_and_at :
  let s := (sp_run m_apply m_next m_resume (sp_start (∅ : gmap nat nat) [Telling [(1, 5)]; Asking [1]; Clearing]%nat)
    ((fun i => (i, ())) <$> concat [replicate 5 0; replicate 9 1; replicate 5 2; replicate 5 1]%nat)).1 in
  (fun l => match sp_at l with SpCrashed => true | _ => false end) <$> s.2 = [false; true; false].
Proof. vm_compute. reflexivity. Qed.
