(* ===== verification/SharedMutex.v ===== *)
(** The locks of [common/include/safe_ptr.hpp] with which a [safe_ptr] can be
    used instead of [std::recursive_mutex]: [spinlock_t] and
    [recursive_spinlock_t], and the lock for several readers or one writer,
    [contention_free_shared_mutex], in which each reader has a word of its own.
    Every access to shared memory is a step. *)
From stdpp Require Import prelude list functions.
From Stdlib Require Import ZArith Lia.
From S2P Require Import Prelude Interleave.

Open Scope Z_scope.

(** * The contention free shared mutex *)
(** [want_x_lock], [owner_thread_id], [recursive_xlock_count], the values of
    [shared_locks_array] (0: not registered, 1: registered and free, 2...: busy)
    and the number of references to it, one for the mutex and one for each thread
    that is registered. *)
Record shmutex := mk_shmutex { want_x : bool; x_owner : option nat; x_count : Z; slots_ : list Z; users_ : nat }.

Definition set_want b (g : shmutex) := mk_shmutex b (x_owner g) (x_count g) (slots_ g) (users_ g).
Definition set_owner o (g : shmutex) := mk_shmutex (want_x g) o (x_count g) (slots_ g) (users_ g).
Definition set_count n (g : shmutex) := mk_shmutex (want_x g) (x_owner g) n (slots_ g) (users_ g).
Definition set_slot k v (g : shmutex) := mk_shmutex (want_x g) (x_owner g) (x_count g) (<[k := v]> (slots_ g)) (users_ g).
Definition set_users n (g : shmutex) := mk_shmutex (want_x g) (x_owner g) (x_count g) (slots_ g) n.
Definition slot (k : nat) (g : shmutex) : Z := default 0 (slots_ g !! k).

(** What a thread does with the mutex; at its end it leaves. *)
Inductive sm_op := LockShared | UnlockShared | Lock | Unlock | Unregister | Leave.

Inductive sm_pc :=
  | SmIdle
  (* register_thread *)
  | SUse
  | SScan (k : nat)
  | SCas (k : nat)
  | SEmplace (k : nat)
  (* lock_shared, registered *)
  | SDepth
  | SBump (d : Z)
  | SMark (d : Z)
  | SWant (d : Z)
  | SBack (d : Z)
  | SSpin (d : Z)
  (* lock_shared, not registered; lock *)
  | LAssert
  | LOwner (excl : bool)
  | LCas (excl : bool)
  | LStore (excl : bool)
  | LScan (k : nat)
  | LInc (excl : bool)
  (* unlock_shared, unlock *)
  | ULoad
  | UStore (d : Z)
  | UDec (excl : bool)
  | UOwner
  | UWant
  (* unregister_thread, the end of the thread *)
  | ULook
  | UErase
  (* an assertion that fails, an index that is not one *)
  | SmFailed
  | SmNoIndex.

(** [sm_index]: the entry for the mutex in [thread_local_index_hashmap]. The
    counts are what the client has: shared and exclusive locks, and how many of
    them are counted in the thread's word and in [recursive_xlock_count]. *)
Record sm_thread := mk_sm_thread {
  sm_id : nat; sm_todo : list sm_op; sm_at : sm_pc; sm_index : option nat;
  shared_held : nat; excl_held : nat; in_slot : nat; in_x : nat; x_excl : bool }.

Definition sm_to (p : sm_pc) (l : sm_thread) := mk_sm_thread (sm_id l) (sm_todo l) p (sm_index l) (shared_held l) (excl_held l) (in_slot l) (in_x l) (x_excl l).
Definition sm_set_index i (l : sm_thread) := mk_sm_thread (sm_id l) (sm_todo l) (sm_at l) i (shared_held l) (excl_held l) (in_slot l) (in_x l) (x_excl l).
Definition sm_hold s x k n (l : sm_thread) := mk_sm_thread (sm_id l) (sm_todo l) SmIdle (sm_index l) s x k n (x_excl l).
Definition sm_excl b (l : sm_thread) := mk_sm_thread (sm_id l) (sm_todo l) (sm_at l) (sm_index l) (shared_held l) (excl_held l) (in_slot l) (in_x l) b.

Section mutex.
(** [contention_free_count]. *)
Variable contention_free_count : nat.

(** [register_thread], when there is no entry yet. *)
Definition register_step (g : shmutex) (l : sm_thread) : option (shmutex * sm_thread) :=
  match sm_at l with
  | SUse => Some (g, sm_to (if (users_ g <=? contention_free_count)%nat then SScan 0 else LOwner false) l)
  | SScan k =>
      if (k <? contention_free_count)%nat then Some (g, sm_to (if slot k g =? 0 then SCas k else SScan (S k)) l)
      else Some (g, sm_to (LOwner false) l)
  | SCas k => if slot k g =? 0 then Some (set_slot k 1 g, sm_to (SEmplace k) l) else Some (g, sm_to (SScan (S k)) l)
  | SEmplace k => Some (set_users (S (users_ g)) g, sm_set_index (Some k) (sm_to SDepth l))
  | _ => None
  end.

(** [lock_shared], registered at [k]. *)
Definition lock_shared_step (k : nat) (g : shmutex) (l : sm_thread) : option (shmutex * sm_thread) :=
  match sm_at l with
  | SDepth =>
      let recursion_depth := slot k g in
      Some (g, sm_to (if recursion_depth <? 1 then SmFailed else if 1 <? recursion_depth then SBump recursion_depth else SMark recursion_depth) l)
  | SBump d => Some (set_slot k (d + 1) g, sm_hold (S (shared_held l)) (excl_held l) (S (in_slot l)) (in_x l) l)
  | SMark d => Some (set_slot k (d + 1) g, sm_to (SWant d) l)
  | SWant d => if want_x g then Some (g, sm_to (SBack d) l) else Some (g, sm_hold (S (shared_held l)) (excl_held l) (S (in_slot l)) (in_x l) l)
  | SBack d => Some (set_slot k d g, sm_to (SSpin d) l)
  | SSpin d => Some (g, sm_to (if want_x g then SSpin d else SMark d) l)
  | _ => None
  end.

(** [lock], and [lock_shared] of a thread that could not register, which does
    not wait for the readers. *)
Definition lock_step (spurious : bool) (g : shmutex) (l : sm_thread) : option (shmutex * sm_thread) :=
  match sm_at l with
  | LAssert => match sm_index l with Some k => Some (g, sm_to (if slot k g =? 1 then LOwner true else SmFailed) l) | None => None end
  | LOwner excl => Some (g, sm_to (if decide (x_owner g = Some (sm_id l)) then LInc excl else LCas excl) l)
  | LCas excl => if want_x g || spurious then Some (g, l) else Some (set_want true g, sm_excl excl (sm_to (LStore excl) l))
  | LStore excl => Some (set_owner (Some (sm_id l)) g, sm_to (if excl then LScan 0 else LInc false) l)
  | LScan k =>
      if (k <? contention_free_count)%nat then Some (g, sm_to (if 1 <? slot k g then LScan k else LScan (S k)) l)
      else Some (g, sm_to (LInc true) l)
  | LInc excl =>
      Some (set_count (x_count g + 1) g,
        if excl then sm_hold (shared_held l) (S (excl_held l)) (in_slot l) (S (in_x l)) l
        else sm_hold (S (shared_held l)) (excl_held l) (in_slot l) (S (in_x l)) l)
  | _ => None
  end.

(** [unlock_shared] and [unlock]. *)
Definition unlock_step (g : shmutex) (l : sm_thread) : option (shmutex * sm_thread) :=
  match sm_at l with
  | ULoad => match sm_index l with Some k => Some (g, sm_to (if 1 <? slot k g then UStore (slot k g) else SmFailed) l) | None => None end
  | UStore d =>
      match sm_index l with
      | Some k => Some (set_slot k (d - 1) g, sm_hold (pred (shared_held l)) (excl_held l) (pred (in_slot l)) (in_x l) l)
      | None => None
      end
  | UDec excl =>
      if excl && negb (0 <? x_count g) then Some (g, sm_to SmFailed l)
      else
        let l' := if excl then sm_hold (shared_held l) (pred (excl_held l)) (in_slot l) (pred (in_x l)) l
                  else sm_hold (pred (shared_held l)) (excl_held l) (in_slot l) (pred (in_x l)) l in
        Some (set_count (x_count g - 1) g, if x_count g - 1 =? 0 then sm_to UOwner l' else l')
  | UOwner => Some (set_owner None g, sm_to UWant l)
  | UWant => Some (set_want false g, sm_to SmIdle l)
  | _ => None
  end.

(** [unregister_thread], and the destructor of the thread's table. *)
Definition leave_step (g : shmutex) (l : sm_thread) : option (shmutex * sm_thread) :=
  match sm_at l with
  | ULook =>
      match sm_index l with
      | Some k => Some (g, sm_to (if slot k g =? 1 then UErase else SmIdle) l)
      | None => Some (g, sm_to SmNoIndex l)
      end
  | UErase =>
      match sm_index l with
      | Some k => Some (set_users (pred (users_ g)) (set_slot k (slot k g - 1) g), sm_set_index None (sm_to SmIdle l))
      | None => Some (g, sm_to SmIdle l)
      end
  | _ => None
  end.

(** The first step of an operation: [get_or_set_index] finds the entry. *)
Definition sm_begin (o : sm_op) (l : sm_thread) : sm_pc :=
  match o, sm_index l with
  | LockShared, Some _ => SDepth
  | LockShared, None => SUse
  | UnlockShared, Some _ => ULoad
  | UnlockShared, None => UDec false
  | Lock, Some _ => LAssert
  | Lock, None => LOwner true
  | Unlock, _ => UDec true
  | Unregister, _ => ULook
  | Leave, _ => UErase
  end.

Definition sm_step (spurious : bool) (g : shmutex) (l : sm_thread) : option (shmutex * sm_thread * list unit) :=
  let done_ (r : option (shmutex * sm_thread)) := '(g, l) ← r; Some (g, l, []) in
  match sm_at l with
  | SmIdle =>
      match sm_todo l with
      | [] => None
      | o :: ops =>
          Some (g, mk_sm_thread (sm_id l) ops (sm_begin o l) (sm_index l) (shared_held l) (excl_held l) (in_slot l) (in_x l) (x_excl l), [])
      end
  | SUse | SScan _ | SCas _ | SEmplace _ => done_ (register_step g l)
  | SDepth | SBump _ | SMark _ | SWant _ | SBack _ | SSpin _ => match sm_index l with Some k => done_ (lock_shared_step k g l) | None => None end
  | LAssert | LOwner _ | LCas _ | LStore _ | LScan _ | LInc _ => done_ (lock_step spurious g l)
  | ULoad | UStore _ | UDec _ | UOwner | UWant => done_ (unlock_step g l)
  | ULook | UErase => done_ (leave_step g l)
  | SmFailed | SmNoIndex => None
  end.

Definition sm_start (progs : list (list sm_op)) : sys shmutex sm_thread :=
  (mk_shmutex false None 0 (replicate contention_free_count 0) 1,
   imap (fun i ops => mk_sm_thread i ops SmIdle None 0 0 0 0 false) progs).
Definition sm_run : sys shmutex sm_thread -> list (nat * bool) -> sys shmutex sm_thread * list (event unit) := sys_run sm_step.

(** * Clients

    Locks are released by who has them; a shared lock is not upgraded; a thread
    that ends has none. *)
Fixpoint disciplined (s x : nat) (ops : list sm_op) : bool :=
  match ops with
  | [] => true
  | LockShared :: ops => disciplined (S s) x ops
  | UnlockShared :: ops => (0 <? s)%nat && disciplined (pred s) x ops
  | Lock :: ops => (s =? 0)%nat && disciplined s (S x) ops
  | Unlock :: ops => (0 <? x)%nat && disciplined s (pred x) ops
  | Unregister :: ops => disciplined s x ops
  | Leave :: ops => (s =? 0)%nat && (x =? 0)%nat && disciplined s x ops
  end.

(** * Invariant *)
(** On the way to a shared lock, registered. *)
Definition entering (l : sm_thread) : bool :=
  match sm_at l with SDepth | SBump _ | SMark _ | SWant _ | SBack _ | SSpin _ => true | _ => false end.
(** Has [want_x_lock]. *)
Definition possessing (l : sm_thread) : bool :=
  (0 <? in_x l)%nat || match sm_at l with LStore _ | LScan _ | LInc _ | UOwner | UWant => true | _ => false end.
(** The thread's word, where it is, and the owner the mutex has on record. *)
Definition word (l : sm_thread) : Z := 1 + Z.of_nat (in_slot l) + match sm_at l with SWant _ | SBack _ => 1 | _ => 0 end.
Definition at_slot (l : sm_thread) : option nat := match sm_at l with SEmplace k => Some k | _ => sm_index l end.
Definition on_record (l : sm_thread) : option nat := match sm_at l with LStore _ | UWant => None | _ => Some (sm_id l) end.
(** How many words a writer has found free. *)
Definition scanned (l : sm_thread) : nat :=
  match sm_at l with LScan k => k | LStore _ | UOwner | UWant => 0 | _ => contention_free_count end.
(** The locks when the operation is over. *)
Definition after (l : sm_thread) : nat * nat :=
  let s := shared_held l in let x := excl_held l in
  match sm_at l with
  | SUse | SScan _ | SCas _ | SEmplace _ | SDepth | SBump _ | SMark _ | SWant _ | SBack _ | SSpin _
  | LOwner false | LCas false | LStore false | LInc false => (S s, x)
  | LAssert | LOwner true | LCas true | LStore true | LScan _ | LInc true => (s, S x)
  | ULoad | UStore _ | UDec false => (pred s, x)
  | UDec true => (s, pred x)
  | _ => (s, x)
  end.

Definition pc_ok (l : sm_thread) : Prop :=
  match sm_at l with
  | SUse | SScan _ | SEmplace _ => sm_index l = None
  | SCas k => sm_index l = None /\ (k < contention_free_count)%nat
  | SDepth => is_Some (sm_index l)
  | SBump d => is_Some (sm_index l) /\ d = 1 + Z.of_nat (in_slot l) /\ (0 < in_slot l)%nat
  | SMark d | SWant d | SBack d | SSpin d => is_Some (sm_index l) /\ d = 1 /\ in_slot l = 0%nat
  | LAssert => is_Some (sm_index l) /\ shared_held l = 0%nat
  | LOwner excl => if excl then shared_held l = 0%nat else sm_index l = None
  | LCas excl => in_x l = 0%nat /\ if excl then shared_held l = 0%nat else sm_index l = None
  | LStore excl => in_x l = 0%nat /\ x_excl l = excl /\ if excl then shared_held l = 0%nat else sm_index l = None
  | LScan _ => in_x l = 0%nat /\ x_excl l = true /\ shared_held l = 0%nat
  | LInc excl => (in_x l = 0%nat -> x_excl l = excl) /\ if excl then shared_held l = 0%nat else sm_index l = None
  | ULoad => is_Some (sm_index l) /\ (0 < shared_held l)%nat
  | UStore d => is_Some (sm_index l) /\ (0 < shared_held l)%nat /\ d = 1 + Z.of_nat (in_slot l)
  | UDec excl => if excl then (0 < excl_held l)%nat else sm_index l = None /\ (0 < shared_held l)%nat
  | UOwner | UWant => in_x l = 0%nat
  | UErase => in_slot l = 0%nat
  | SmFailed => False
  | _ => True
  end.

Record sm_ok (l : sm_thread) : Prop := {
  ok_counts : match sm_index l with
    | None => in_slot l = 0%nat /\ (shared_held l + excl_held l = in_x l)%nat
    | Some _ => (entering l = true /\ in_slot l = 0%nat /\ (shared_held l + excl_held l = in_x l)%nat) \/
                (shared_held l = in_slot l /\ excl_held l = in_x l)
    end;
  ok_apart : (0 < in_slot l)%nat -> possessing l = false;
  ok_excl : (0 < excl_held l)%nat -> x_excl l = true;
  ok_pc : pc_ok l;
  ok_todo : disciplined (after l).1 (after l).2 (sm_todo l) = true }.

(** Beside the state: whose each word is, whether that thread is reading, and who
    has [want_x_lock]. *)
Record sm_aux := mk_sm_aux { word_of : nat -> option nat; reads : nat -> bool; possessor : option nat }.

Record sm_global (n : nat) (g : shmutex) (a : sm_aux) (es : list (event unit)) : Prop := {
  sg_len : length (slots_ g) = contention_free_count;
  sg_free k : (k < contention_free_count)%nat -> word_of a k = None -> slots_ g !! k = Some 0 /\ reads a k = false;
  sg_taken k : (k < contention_free_count)%nat -> is_Some (word_of a k) -> 1 <= slot k g;
  sg_reads k : (k < contention_free_count)%nat -> reads a k = true -> 2 <= slot k g;
  sg_none : possessor a = None -> want_x g = false /\ x_owner g = None /\ x_count g = 0;
  sg_some : is_Some (possessor a) -> want_x g = true;
  sg_owner o : x_owner g = Some o -> possessor a = Some o }.

Record sm_local (i : nat) (g : shmutex) (a : sm_aux) (l : sm_thread) : Prop := {
  sl_id : sm_id l = i;
  sl_ok : sm_ok l;
  sl_slot k : at_slot l = Some k ->
    (k < contention_free_count)%nat /\ word_of a k = Some i /\ slots_ g !! k = Some (word l) /\ reads a k = (0 <? in_slot l)%nat;
  sl_poss : possessing l = true <-> possessor a = Some i;
  sl_x : possessor a = Some i -> x_count g = Z.of_nat (in_x l) /\ x_owner g = on_record l;
  sl_scan k : possessor a = Some i -> x_excl l = true -> (k < scanned l)%nat -> (k < contention_free_count)%nat -> reads a k = false }.

Record sm_guar (i : nat) (g : shmutex) (a : sm_aux) (g' : shmutex) (a' : sm_aux) : Prop := {
  gu_slot j k : j <> i -> word_of a k = Some j -> word_of a' k = Some j /\ slots_ g' !! k = slots_ g !! k /\ reads a' k = reads a k;
  gu_poss j : j <> i -> possessor a' = Some j <-> possessor a = Some j;
  gu_x j : j <> i -> possessor a = Some j -> x_count g' = x_count g /\ x_owner g' = x_owner g /\ forall k, reads a k = false -> reads a' k = false }.

Lemma sm_stable i j g a g' a' l : i <> j -> sm_guar i g a g' a' -> sm_local j g a l -> sm_local j g' a' l.
Proof.
  intros Hne [Gs Gp Gx] [Hid Hok Hs Hp Hx Hsc]. assert (j <> i) as Hne' by done. split; try done.
  - intros k Hk. destruct (Hs k Hk) as (? & Hw & Hv & Hr). destruct (Gs j k Hne' Hw) as (? & -> & ->). done.
  - by rewrite Gp.
  - intros Hj%(Gp j Hne'). destruct (Gx j Hne' Hj) as (-> & -> & _). by apply Hx.
  - intros k Hj%(Gp j Hne') He Hk HN. destruct (Gx j Hne' Hj) as (_ & _ & Hr). by apply Hr, Hsc.
Qed.

Definition sm_goes_on (n i : nat) (es : list (event unit)) (g : shmutex) (a : sm_aux) (g' : shmutex) (l' : sm_thread) : Prop :=
  exists a', sm_global n g' a' (es ++ (pair i <$> [])) /\ sm_local i g' a' l' /\ sm_guar i g a g' a'.

Lemma sm_guar_refl i g a : sm_guar i g a g a.
Proof. by split. Qed.

(** A step that changes nothing but where the thread is. *)
Lemma quiet_step n i es g a l l' : sm_global n g a es -> sm_local i g a l -> sm_ok l' -> sm_id l' = sm_id l ->
  at_slot l' = at_slot l -> word l' = word l -> in_slot l' = in_slot l -> possessing l' = possessing l -> in_x l' = in_x l ->
  (possessing l = true -> on_record l' = on_record l /\ x_excl l' = x_excl l /\
     forall k, (k < scanned l')%nat -> (k < contention_free_count)%nat -> x_excl l = true -> (k < scanned l)%nat \/ reads a k = false) ->
  sm_goes_on n i es g a g l'.
Proof.
  intros Hg [Hid Hok Hs Hp Hx Hsc] Hok' Eid Es Ew Ei Ep Ex Hposs. exists a. rewrite app_nil_r. split; [destruct Hg; by split|]. split; [|apply sm_guar_refl]. split.
  - by rewrite Eid.
  - done.
  - intros k Hk. rewrite Es in Hk. rewrite Ew, Ei. by apply Hs.
  - by rewrite Ep.
  - intros Hi. rewrite Ex. destruct (Hposs (proj2 Hp Hi)) as (-> & _). by apply Hx.
  - intros k Hi He Hk HN. destruct (Hposs (proj2 Hp Hi)) as (_ & Ee & Hsc'). rewrite Ee in He. destruct (Hsc' k Hk HN He) as [|]; [by apply Hsc|done].
Qed.

(** A step that changes the thread's own word, or whether it reads. *)
Lemma word_step n i es g a l l' g' k : sm_global n g a es -> sm_local i g a l -> sm_ok l' -> sm_id l' = sm_id l ->
  at_slot l = Some k -> at_slot l' = Some k -> g' = set_slot k (word l') g ->
  possessing l' = possessing l -> in_x l' = in_x l ->
  (possessing l = true -> on_record l' = on_record l /\ x_excl l' = x_excl l /\ scanned l' = scanned l) ->
  (in_slot l = 0%nat -> (0 < in_slot l')%nat -> possessor a = None) ->
  sm_goes_on n i es g a g' l'.
Proof.
  intros [Hlen Hfree Htaken Hrd Hnone Hsome Hown] [Hid Hok Hs Hp Hx Hsc] Hok' Eid Es Es' -> Ep Ex Hposs Hread.
  destruct (Hs k Es) as (Hk & Hw & Hv & Hr). assert (possessor a <> None -> (0 <? in_slot l')%nat = true -> reads a k = true) as Hkeep.
  { intros Hpo Hin%Nat.ltb_lt. rewrite Hr. apply Nat.ltb_lt. destruct (decide (in_slot l = 0%nat)) as [E0|]; [|lia]. by destruct Hpo, Hread. }
  assert (1 <= word l') as Hpos by (unfold word; destruct (sm_at l'); lia).
  exists (mk_sm_aux (word_of a) (<[k := (0 <? in_slot l')%nat]> (reads a)) (possessor a)). rewrite app_nil_r. split; [|split].
  - split; cbn [set_slot slots_ want_x x_owner x_count word_of reads possessor]; try done.
    + by rewrite length_insert.
    + intros k' Hk' Hw'. assert (k <> k') by congruence. rewrite list_lookup_insert_ne, fn_lookup_insert_ne by done. by apply Hfree.
    + intros k' Hk' Hw'. unfold slot. cbn [set_slot slots_]. destruct (decide (k = k')) as [->|]; [by rewrite list_lookup_insert_eq by lia|]. rewrite list_lookup_insert_ne by done. by apply Htaken.
    + intros k' Hk' Hr'. unfold slot. cbn [set_slot slots_]. destruct (decide (k = k')) as [->|].
      * rewrite list_lookup_insert_eq by lia. rewrite fn_lookup_insert in Hr'. apply Nat.ltb_lt in Hr'. unfold word. cbn. destruct (sm_at l'); lia.
      * rewrite fn_lookup_insert_ne in Hr' by done. rewrite list_lookup_insert_ne by done. by apply Hrd.
  - split; cbn [set_slot slots_ want_x x_owner x_count word_of reads possessor]; try done.
    + by rewrite Eid.
    + intros k' Hk'. assert (k' = k) as -> by congruence. rewrite list_lookup_insert_eq by lia. by rewrite fn_lookup_insert.
    + by rewrite Ep.
    + intros Hi. rewrite Ex. destruct (Hposs (proj2 Hp Hi)) as (-> & _). by apply Hx.
    + intros k' Hi He Hk' HN. destruct (Hposs (proj2 Hp Hi)) as (_ & Ee & Esc). rewrite Ee in He. rewrite Esc in Hk'. pose proof (Hsc k' Hi He Hk' HN) as Hf.
      destruct (decide (k = k')) as [->|]; [|by rewrite fn_lookup_insert_ne]. rewrite fn_lookup_insert. destruct (0 <? in_slot l')%nat eqn:E; [|done]. rewrite Hkeep in Hf; [done|congruence|done].
  - split; cbn [set_slot slots_ want_x x_owner x_count word_of reads possessor]; try done.
    + intros j k' Hj Hw'. assert (k <> k') by congruence. by rewrite list_lookup_insert_ne, fn_lookup_insert_ne.
    + intros j Hj Hpj. split; [done|]. split; [done|]. intros k' Hf. destruct (decide (k = k')) as [->|]; [|by rewrite fn_lookup_insert_ne].
      rewrite fn_lookup_insert. destruct (0 <? in_slot l')%nat eqn:E; [|done]. rewrite Hkeep in Hf; [done|congruence|done].
Qed.

(** A step of the thread that takes, has or gives back [want_x_lock]. *)
Lemma x_step n i es g a l l' g' p : sm_global n g a es -> sm_local i g a l -> sm_ok l' -> sm_id l' = sm_id l ->
  at_slot l' = at_slot l -> word l' = word l -> in_slot l' = in_slot l -> slots_ g' = slots_ g ->
  p = (if possessing l' then Some i else None) -> (possessing l = true \/ want_x g = false) ->
  (possessing l' = true -> want_x g' = true /\ x_count g' = Z.of_nat (in_x l') /\ x_owner g' = on_record l' /\
     forall k, (k < scanned l')%nat -> (k < contention_free_count)%nat -> x_excl l' = true -> possessing l = true /\ x_excl l = true /\ (k < scanned l)%nat) ->
  (possessing l' = false -> want_x g' = false /\ x_count g' = 0 /\ x_owner g' = None) ->
  sm_goes_on n i es g a g' l'.
Proof.
  intros [Hlen Hfree Htaken Hrd Hnone Hsome Hown] [Hid Hok Hs Hp Hx Hsc] Hok' Eid Es Ew Ei Esl -> Hmine Hyes Hno.
  assert (forall j, j <> i -> possessor a <> Some j) as Hothers.
  { intros j Hj Hpj. destruct Hmine as [Hl|Hw]; [apply Hp in Hl; congruence|]. rewrite (Hsome ltac:(by eexists)) in Hw. done. }
  exists (mk_sm_aux (word_of a) (reads a) (if possessing l' then Some i else None)). rewrite app_nil_r. split; [|split].
  - split; cbn [word_of reads possessor]; unfold slot; rewrite ?Esl; try done.
    + intros Hn. destruct (possessing l') eqn:E; [done|]. destruct (Hno eq_refl) as (? & ? & ?). done.
    + intros Hsm. destruct (possessing l') eqn:E; [|by destruct Hsm]. by destruct (Hyes eq_refl).
    + intros o Ho. destruct (possessing l') eqn:E; [|by destruct (Hno eq_refl) as (_ & _ & ?); congruence]. destruct (Hyes eq_refl) as (_ & _ & E2 & _). rewrite Ho in E2.
      unfold on_record in E2. rewrite Eid, Hid in E2. destruct (sm_at l'); congruence.
  - split; cbn [word_of reads possessor].
    + by rewrite Eid.
    + done.
    + intros k Hk. rewrite Es in Hk. rewrite Ew, Ei, Esl. by apply Hs.
    + destruct (possessing l'); split; done.
    + intros Hi. destruct (possessing l') eqn:E; [|done]. by destruct (Hyes eq_refl) as (_ & ? & ? & _).
    + intros k Hi He Hk HN. destruct (possessing l') eqn:E; [|done]. destruct (Hyes eq_refl) as (_ & _ & _ & Hk'). destruct (Hk' k Hk HN He) as (Hpl & He' & Hkl). apply Hsc; try done. by apply Hp.
  - split; cbn [word_of reads possessor].
    + intros j k Hj Hw. by rewrite Esl.
    + intros j Hj. split; [destruct (possessing l'); congruence|]. intros Hpj. by apply Hothers in Hpj.
    + intros j Hj Hpj. by apply Hothers in Hpj.
Qed.

Lemma goes_on_users n i es g a g' l' u : sm_goes_on n i es g a g' l' -> sm_goes_on n i es g a (set_users u g') l'.
Proof. intros (a' & [] & [] & []). exists a'. split; [by split|]. split; by split. Qed.

(** A word is taken. *)
Lemma claim_step n i es g a l l' k : sm_global n g a es -> sm_local i g a l -> sm_ok l' -> sm_id l' = sm_id l ->
  at_slot l = None -> at_slot l' = Some k -> word l' = 1 -> in_slot l' = 0%nat -> (k < contention_free_count)%nat -> slot k g = 0 ->
  possessing l' = possessing l -> in_x l' = in_x l ->
  (possessing l = true -> on_record l' = on_record l /\ x_excl l' = x_excl l /\ scanned l' = scanned l) ->
  sm_goes_on n i es g a (set_slot k 1 g) l'.
Proof.
  intros [Hlen Hfree Htaken Hrd Hnone Hsome Hown] [Hid Hok Hs Hp Hx Hsc] Hok' Eid Es Es' Ew Ei Hk H0 Ep Ex Hposs.
  assert (word_of a k = None) as Hw by (destruct (word_of a k) eqn:E; [|done]; pose proof (Htaken k Hk ltac:(rewrite E; by eexists)); lia).
  destruct (Hfree k Hk Hw) as (Hz & Hr). exists (mk_sm_aux (<[k := Some i]> (word_of a)) (reads a) (possessor a)). rewrite app_nil_r. split; [|split].
  - split; cbn [set_slot slots_ want_x x_owner x_count word_of reads possessor]; try done.
    + by rewrite length_insert.
    + intros k' Hk' Hw'. destruct (decide (k = k')) as [->|]; [by rewrite fn_lookup_insert in Hw'|]. rewrite fn_lookup_insert_ne in Hw' by done. rewrite list_lookup_insert_ne by done. by apply Hfree.
    + intros k' Hk' Hw'. unfold slot. cbn [set_slot slots_]. destruct (decide (k = k')) as [->|]; [by rewrite list_lookup_insert_eq by lia|].
      rewrite fn_lookup_insert_ne in Hw' by done. rewrite list_lookup_insert_ne by done. by apply Htaken.
    + intros k' Hk' Hr'. unfold slot. cbn [set_slot slots_]. assert (k <> k') by congruence. rewrite list_lookup_insert_ne by done. by apply Hrd.
  - split; cbn [set_slot slots_ want_x x_owner x_count word_of reads possessor]; try done.
    + by rewrite Eid.
    + intros k' Hk'. assert (k' = k) as -> by congruence. rewrite list_lookup_insert_eq, fn_lookup_insert by lia. by rewrite Ew, Ei.
    + by rewrite Ep.
    + intros Hi. rewrite Ex. destruct (Hposs (proj2 Hp Hi)) as (-> & _). by apply Hx.
    + intros k' Hi He Hk' HN. destruct (Hposs (proj2 Hp Hi)) as (_ & Ee & Esc). rewrite Ee in He. rewrite Esc in Hk'. by apply Hsc.
  - split; cbn [set_slot slots_ want_x x_owner x_count word_of reads possessor]; try done.
    intros j k' Hj Hw'. assert (k <> k') by congruence. by rewrite list_lookup_insert_ne, fn_lookup_insert_ne.
Qed.

(** A word is given back. *)
Lemma drop_step n i es g a l l' k : sm_global n g a es -> sm_local i g a l -> sm_ok l' -> sm_id l' = sm_id l ->
  at_slot l = Some k -> at_slot l' = None -> word l = 1 -> in_slot l = 0%nat -> possessing l' = possessing l -> in_x l' = in_x l ->
  (possessing l = true -> on_record l' = on_record l /\ x_excl l' = x_excl l /\ scanned l' = scanned l) ->
  sm_goes_on n i es g a (set_slot k (slot k g - 1) g) l'.
Proof.
  intros [Hlen Hfree Htaken Hrd Hnone Hsome Hown] [Hid Hok Hs Hp Hx Hsc] Hok' Eid Es Es' Ew Ei Ep Ex Hposs.
  destruct (Hs k Es) as (Hk & Hw & Hv & Hr). assert (slot k g - 1 = 0) as -> by (unfold slot; rewrite Hv, Ew; done). rewrite Ei in Hr. change (0 <? 0)%nat with false in Hr.
  exists (mk_sm_aux (<[k := None]> (word_of a)) (reads a) (possessor a)). rewrite app_nil_r. split; [|split].
  - split; cbn [set_slot slots_ want_x x_owner x_count word_of reads possessor]; try done.
    + by rewrite length_insert.
    + intros k' Hk' Hw'. destruct (decide (k = k')) as [->|]; [by rewrite list_lookup_insert_eq by lia|]. rewrite fn_lookup_insert_ne in Hw' by done. rewrite list_lookup_insert_ne by done. by apply Hfree.
    + intros k' Hk' Hw'. unfold slot. cbn [set_slot slots_]. destruct (decide (k = k')) as [->|]; [rewrite fn_lookup_insert in Hw'; by destruct Hw'|].
      rewrite fn_lookup_insert_ne in Hw' by done. rewrite list_lookup_insert_ne by done. by apply Htaken.
    + intros k' Hk' Hr'. unfold slot. cbn [set_slot slots_]. assert (k <> k') by congruence. rewrite list_lookup_insert_ne by done. by apply Hrd.
  - split; cbn [set_slot slots_ want_x x_owner x_count word_of reads possessor]; try done.
    + by rewrite Eid.
    + intros k' Hk'. congruence.
    + by rewrite Ep.
    + intros Hi. rewrite Ex. destruct (Hposs (proj2 Hp Hi)) as (-> & _). by apply Hx.
    + intros k' Hi He Hk' HN. destruct (Hposs (proj2 Hp Hi)) as (_ & Ee & Esc). rewrite Ee in He. rewrite Esc in Hk'. by apply Hsc.
  - split; cbn [set_slot slots_ want_x x_owner x_count word_of reads possessor]; try done.
    intros j k' Hj Hw'. assert (k <> k') by congruence. by rewrite list_lookup_insert_ne, fn_lookup_insert_ne.
Qed.

(** * The steps *)
Ltac sm_fields :=
  unfold sm_to, sm_set_index, sm_hold, sm_excl, possessing, word, at_slot, on_record, scanned, after, pc_ok, entering in *;
  cbn [sm_id sm_todo sm_at sm_index shared_held excl_held in_slot in_x x_excl fst snd] in *.
(** The well-formedness of the thread after its step. *)
Ltac ok_next Hok :=
  let H1 := fresh in let H2 := fresh in let H3 := fresh in let H4 := fresh in let H5 := fresh in
  pose proof Hok as [H1 H2 H3 H4 H5]; sm_fields; split; sm_fields; cbn [Nat.eqb Nat.ltb Nat.leb andb disciplined] in *.

Ltac ok_solve Hok := ok_next Hok; try done; try lia; try (intuition (try done; try lia)).

Lemma register_step_ok n i es g a l g' l' : sm_global n g a es -> sm_local i g a l -> register_step g l = Some (g', l') -> sm_goes_on n i es g a g' l'.
Proof.
  intros Hg Hl Hs. pose proof (sl_ok _ _ _ _ Hl) as Hok. pose proof Hok as [Hc _ _ Hpc _].
  destruct l as [id ops p idx sh ex sl x e]. unfold register_step in Hs. sm_fields. destruct p; try done; cbn in Hpc.
  - subst idx. injection Hs as <- <-. eapply quiet_step; try done; destruct (users_ g <=? contention_free_count)%nat; try done; try (by ok_solve Hok); sm_fields; auto.
  - subst idx. destruct (Nat.ltb_spec k contention_free_count); injection Hs as <- <-; eapply quiet_step; try done; try destruct (slot k g =? 0); try done; try (by ok_solve Hok); sm_fields; auto.
  - destruct Hpc as [-> Hk]. destruct (Z.eqb_spec (slot k g) 0); injection Hs as <- <-.
    + destruct Hc as [-> Hc]. eapply claim_step; try done; try (by ok_solve Hok); sm_fields; auto.
    + eapply quiet_step; try done; try (by ok_solve Hok); sm_fields; auto.
  - subst idx. injection Hs as <- <-. apply goes_on_users. eapply quiet_step; try done; try (by ok_solve Hok); sm_fields; auto.
Qed.

Lemma lock_shared_step_ok n i es g a l g' l' k : sm_global n g a es -> sm_local i g a l -> sm_index l = Some k -> lock_shared_step k g l = Some (g', l') -> sm_goes_on n i es g a g' l'.
Proof.
  intros Hg Hl Hidx Hs. pose proof (sl_ok _ _ _ _ Hl) as Hok. pose proof Hok as [Hc Hap _ Hpc _]. pose proof (sl_slot _ _ _ _ Hl k) as Hslot.
  destruct l as [id ops p idx sh ex sl x e]. unfold lock_shared_step in Hs. sm_fields. subst idx.
  destruct p; try done; cbn in Hpc; destruct (Hslot eq_refl) as (Hk & Hw & Hv & Hr).
  - injection Hs as <- <-. assert (slot k g = 1 + Z.of_nat sl) as -> by (unfold slot; rewrite Hv; cbn; lia).
    destruct (Z.ltb_spec (1 + Z.of_nat sl) 1); [lia|]. eapply quiet_step; try done; destruct (Z.ltb_spec 1 (1 + Z.of_nat sl)); try done; try (by ok_solve Hok); sm_fields; auto.
  - destruct Hpc as (_ & -> & Hin). injection Hs as <- <-. eapply word_step; try done; try (by ok_solve Hok); sm_fields; try done.
    + f_equal. lia.
    + lia.
  - destruct Hpc as (_ & -> & ->). injection Hs as <- <-. eapply word_step; try done; try (by ok_solve Hok); sm_fields; try done; auto; lia.
  - destruct Hpc as (_ & -> & ->). destruct (want_x g) eqn:Ew; injection Hs as <- <-; [eapply quiet_step; try done; try (by ok_solve Hok); sm_fields; auto|].
    assert (possessor a = None) as Hpn.
    { destruct (possessor a) eqn:E; [|done]. rewrite (sg_some _ _ _ _ Hg) in Ew by (rewrite E; by eexists). done. }
    assert (x = 0%nat) as ->.
    { pose proof (sl_poss _ _ _ _ Hl) as [Hp _]. sm_fields. destruct x; [done|]. rewrite Hpn in Hp. by discriminate Hp. }
    eapply word_step; try done; try (by ok_solve Hok); sm_fields; try done.
    destruct g as [w o c sls u]. unfold set_slot. cbn [slots_ want_x x_owner x_count users_] in *. by rewrite list_insert_id by (rewrite Hv; done).
  - destruct Hpc as (_ & -> & ->). injection Hs as <- <-. eapply word_step; try done; try (by ok_solve Hok); sm_fields; try done; auto; lia.
  - destruct Hpc as (_ & -> & ->). injection Hs as <- <-. eapply quiet_step; try done; destruct (want_x g); try done; try (by ok_solve Hok); sm_fields; auto.
Qed.

(** Who has [want_x_lock] is the owner on record. *)
Lemma owner_is_me n i es g a l : sm_global n g a es -> sm_local i g a l -> (match sm_at l with LStore _ | UWant => False | _ => True end) ->
  x_owner g = Some (sm_id l) <-> possessing l = true.
Proof.
  intros Hg Hl Hpc. pose proof (sl_id _ _ _ _ Hl) as Hid. split.
  - intros Ho. apply (sl_poss _ _ _ _ Hl). rewrite <- Hid. by eapply sg_owner.
  - intros Hp. apply (sl_poss _ _ _ _ Hl) in Hp. destruct (sl_x _ _ _ _ Hl Hp) as [_ ->]. unfold on_record. by destruct (sm_at l).
Qed.
Lemma want_free n i es g a l : sm_global n g a es -> sm_local i g a l -> want_x g = false -> possessing l = false /\ x_owner g = None /\ x_count g = 0.
Proof.
  intros Hg Hl Hw. assert (possessor a = None) as Hn by (destruct (possessor a) eqn:E; [|done]; rewrite (sg_some _ _ _ _ Hg) in Hw by (rewrite E; by eexists); done).
  split; [|destruct (sg_none _ _ _ _ Hg Hn) as (_ & ? & ?); done]. destruct (possessing l) eqn:E; [|done]. apply (sl_poss _ _ _ _ Hl) in E. congruence.
Qed.
Lemma have_want n i es g a l : sm_global n g a es -> sm_local i g a l -> possessing l = true -> want_x g = true /\ x_count g = Z.of_nat (in_x l).
Proof.
  intros Hg Hl Hp. apply (sl_poss _ _ _ _ Hl) in Hp. split; [by eapply sg_some; [|rewrite Hp; eexists]|by destruct (sl_x _ _ _ _ Hl Hp)].
Qed.
(** A word that says at most 1 is not a reader's. *)
Lemma free_word n es g a k : sm_global n g a es -> (k < contention_free_count)%nat -> slot k g <= 1 -> reads a k = false.
Proof. intros Hg Hk Hv. destruct (reads a k) eqn:E; [|done]. pose proof (sg_reads _ _ _ _ Hg k Hk E). lia. Qed.

Lemma lock_step_ok n i es g a l g' l' w : sm_global n g a es -> sm_local i g a l -> lock_step w g l = Some (g', l') -> sm_goes_on n i es g a g' l'.
Proof.
  intros Hg Hl Hs. pose proof (sl_ok _ _ _ _ Hl) as Hok. pose proof Hok as [Hc Hap Hex Hpc _]. pose proof (owner_is_me _ _ _ _ _ _ Hg Hl) as Hme.
  pose proof (want_free _ _ _ _ _ _ Hg Hl) as Hfree. pose proof (sl_slot _ _ _ _ Hl) as Hslot. pose proof (have_want _ _ _ _ _ _ Hg Hl) as Hhave.
  destruct l as [id ops p idx sh ex sl x e]. unfold lock_step in Hs. sm_fields. destruct p; try done; cbn in Hpc.
  - destruct Hpc as [[k ->] ->]. destruct (Hslot k eq_refl) as (Hk & Hw & Hv & Hr). destruct Hc as [(? & _)|(<- & ->)]; [done|]. injection Hs as <- <-.
    assert (slot k g = 1) as -> by (unfold slot; rewrite Hv; done). cbn [Z.eqb Pos.eqb]. eapply quiet_step; try done; try (by ok_solve Hok); sm_fields; auto.
  - specialize (Hme I). injection Hs as <- <-. rewrite orb_false_r in Hme. destruct (decide (x_owner g = Some id)) as [Ho|Ho].
    + apply Hme in Ho. assert (0 < x)%nat as Hx by (by apply Nat.ltb_lt).
      assert (sl = 0%nat) as -> by (destruct sl; [done|]; rewrite Ho in Hap; by discriminate (Hap ltac:(lia))).
      eapply quiet_step; try done; try (by destruct excl; ok_solve Hok); sm_fields; auto. by rewrite Ho.
    + assert (x = 0%nat) as -> by (destruct x; [done|]; destruct Ho; by apply Hme). eapply quiet_step; try done; try (by destruct excl; ok_solve Hok); sm_fields; auto.
  - destruct (want_x g) eqn:Ew; cbn [orb] in Hs; [injection Hs as <- <-; eapply quiet_step; try done; sm_fields; auto|].
    destruct w; injection Hs as <- <-; [eapply quiet_step; try done; sm_fields; auto|]. destruct Hpc as [-> Hpc]. destruct (Hfree eq_refl) as (_ & Ho & Hn).
    assert (sl = 0%nat) as -> by (destruct idx, excl; try done; intuition lia). assert (ex = 0%nat) as -> by (destruct idx; intuition lia).
    eapply x_step; try done; try (by destruct excl; ok_solve Hok); sm_fields; auto.
  - destruct Hpc as (-> & -> & Hpc). injection Hs as <- <-. eapply x_step; try done; try (by destruct excl; ok_solve Hok); sm_fields; destruct excl; auto; try done;
      destruct (Hhave eq_refl) as [Hw Hn]; intros _; repeat split; try done; intros; lia.
  - destruct (Nat.ltb_spec k contention_free_count); injection Hs as <- <-; [destruct (Z.ltb_spec 1 (slot k g))|].
    + eapply quiet_step; try done; sm_fields; auto.
    + eapply quiet_step; try done; [by ok_solve Hok|sm_fields]. intros _. split; [done|]. split; [done|]. intros k' Hk' HN _.
      destruct (decide (k' = k)) as [->|]; [right; by eapply free_word|left; lia].
    + eapply quiet_step; try done; [by ok_solve Hok|sm_fields]. intros _. split; [done|]. split; [done|]. intros k' Hk' HN _. left. lia.
  - destruct (Hhave ltac:(apply orb_true_r)) as [Hw Hn]. injection Hs as <- <-.
    assert (sl = 0%nat) as -> by (destruct sl; [done|]; rewrite orb_true_r in Hap; by discriminate (Hap ltac:(lia))).
    destruct Hpc as [Hpc0 Hpc]. destruct excl.
    + assert (e = true) as -> by (subst sh; destruct x; [by apply Hpc0|apply Hex; destruct idx; intuition lia]).
      eapply x_step; try done; try (by destruct idx; ok_solve Hok); sm_fields; [left; apply orb_true_r|].
      intros _. cbn. repeat split; try done; [lia|by apply Hme, orb_true_r|apply orb_true_r].
    + subst idx. eapply x_step; try done; try (by ok_solve Hok); sm_fields; [left; apply orb_true_r|].
      intros _. cbn. repeat split; try done; [lia|by apply Hme, orb_true_r|apply orb_true_r].
Qed.

Lemma unlock_step_ok n i es g a l g' l' : sm_global n g a es -> sm_local i g a l -> unlock_step g l = Some (g', l') -> sm_goes_on n i es g a g' l'.
Proof.
  intros Hg Hl Hs. pose proof (sl_ok _ _ _ _ Hl) as Hok. pose proof Hok as [Hc Hap Hex Hpc _]. pose proof (owner_is_me _ _ _ _ _ _ Hg Hl) as Hme.
  pose proof (sl_slot _ _ _ _ Hl) as Hslot. pose proof (have_want _ _ _ _ _ _ Hg Hl) as Hhave. pose proof (sl_poss _ _ _ _ Hl) as Hposs. pose proof (sl_x _ _ _ _ Hl) as Hx.
  destruct l as [id ops p idx sh ex sl x e]. unfold unlock_step in Hs. sm_fields. destruct p; try done; cbn in Hpc.
  - destruct Hpc as [[k ->] Hsh]. destruct (Hslot k eq_refl) as (Hk & Hw & Hv & Hr). destruct Hc as [(? & _)|(-> & ->)]; [done|]. injection Hs as <- <-.
    assert (slot k g = 1 + Z.of_nat sl) as -> by (unfold slot; rewrite Hv; cbn; lia). destruct (Z.ltb_spec 1 (1 + Z.of_nat sl)); [|lia].
    eapply quiet_step; try done; try (by ok_solve Hok); sm_fields; auto.
  - destruct Hpc as ([k ->] & Hsh & ->). destruct Hc as [(? & _)|(-> & ->)]; [done|]. injection Hs as <- <-.
    eapply word_step; try done; try (by ok_solve Hok); sm_fields; try done; [f_equal; lia|lia].
  - assert (0 < x)%nat as Hpos by (destruct idx, excl; intuition (try done; try lia)). assert ((0 <? x)%nat = true) as Hpos' by (by apply Nat.ltb_lt). rewrite Hpos' in *.
    destruct (Hhave eq_refl) as [Hw Hn]. assert (sl = 0%nat) as -> by (destruct sl; [done|]; by discriminate (Hap ltac:(lia))).
    destruct (Z.ltb_spec 0 (x_count g)); [|lia]. rewrite andb_false_r in Hs.
    assert (x_owner g = Some id) as Ho by (by apply Hme).
    destruct (Z.eqb_spec (x_count g - 1) 0); injection Hs as <- <-; destruct excl;
      (eapply x_step; [exact Hg|exact Hl|..]; sm_fields; try done; try (by destruct idx; ok_solve Hok); try (by rewrite Hpos'; left)).
    all: rewrite ?orb_false_r; intros Hnext; try (apply Nat.ltb_ge in Hnext; exfalso; lia); cbn; repeat split; try done; try lia.
  - subst x. destruct (Hhave eq_refl) as [Hw Hn]. injection Hs as <- <-. assert (sl = 0%nat) as -> by (destruct sl; [done|]; by discriminate (Hap ltac:(lia))).
    eapply x_step; [exact Hg|exact Hl|..]; sm_fields; try done; try (by ok_solve Hok). by left.
  - subst x. destruct (Hhave eq_refl) as [Hw Hn]. injection Hs as <- <-. assert (sl = 0%nat) as -> by (destruct sl; [done|]; by discriminate (Hap ltac:(lia))).
    destruct (Hx (proj1 Hposs eq_refl)) as [_ Ho].
    eapply x_step; [exact Hg|exact Hl|..]; sm_fields; try done; try (by ok_solve Hok); by left.
Qed.

Lemma leave_step_ok n i es g a l g' l' : sm_global n g a es -> sm_local i g a l -> leave_step g l = Some (g', l') -> sm_goes_on n i es g a g' l'.
Proof.
  intros Hg Hl Hs. pose proof (sl_ok _ _ _ _ Hl) as Hok. pose proof Hok as [Hc Hap Hex Hpc _]. pose proof (sl_slot _ _ _ _ Hl) as Hslot.
  destruct l as [id ops p idx sh ex sl x e]. unfold leave_step in Hs. sm_fields. destruct p; try done; cbn in Hpc.
  - destruct idx as [k|]; injection Hs as <- <-; [|eapply quiet_step; try done; try (by ok_solve Hok); sm_fields; auto].
    destruct (Hslot k eq_refl) as (Hk & Hw & Hv & Hr). assert (slot k g = 1 + Z.of_nat sl) as -> by (unfold slot; rewrite Hv; cbn; lia).
    destruct (Z.eqb_spec (1 + Z.of_nat sl) 1); [assert (sl = 0%nat) as -> by lia|]; eapply quiet_step; try done; try (by ok_solve Hok); sm_fields; auto.
  - subst sl. destruct idx as [k|]; injection Hs as <- <-; [|eapply quiet_step; try done; try (by ok_solve Hok); sm_fields; auto].
    apply goes_on_users. eapply drop_step; try done; try (by ok_solve Hok); sm_fields; auto.
Qed.

(** An operation begins. *)
Lemma begin_ok n i es g a l o ops : sm_global n g a es -> sm_local i g a l -> sm_at l = SmIdle -> sm_todo l = o :: ops ->
  sm_goes_on n i es g a g (mk_sm_thread (sm_id l) ops (sm_begin o l) (sm_index l) (shared_held l) (excl_held l) (in_slot l) (in_x l) (x_excl l)).
Proof.
  intros Hg Hl Hat Htodo. pose proof (sl_ok _ _ _ _ Hl) as Hok. pose proof Hok as [Hc Hap Hex Hpc Hd].
  destruct l as [id todo p idx sh ex sl x e]. sm_fields. subst p todo.
  assert (sm_ok (mk_sm_thread id ops (sm_begin o (mk_sm_thread id (o :: ops) SmIdle idx sh ex sl x e)) idx sh ex sl x e)) as Hok'.
  { destruct o, idx; cbn [sm_begin sm_index disciplined fst snd] in *; rewrite ?andb_true_iff, ?Nat.ltb_lt, ?Nat.eqb_eq in Hd; ok_solve Hok. }
  eapply quiet_step; try done; destruct o, idx; try done; sm_fields; auto.
Qed.

Lemma sm_step_ok n i w g a l g' l' es new : (i < n)%nat -> sm_global n g a es -> sm_local i g a l -> True -> sm_step w g l = Some (g', l', new) ->
  exists a', sm_global n g' a' (es ++ (pair i <$> new)) /\ sm_local i g' a' l' /\ sm_guar i g a g' a'.
Proof.
  intros _ Hg Hl _ Hs. enough (new = [] /\ sm_goes_on n i es g a g' l') as [-> H] by exact H.
  pose proof (register_step_ok n i es g a l) as Hr. pose proof (lock_step_ok n i es g a l) as Hk. pose proof (unlock_step_ok n i es g a l) as Hu. pose proof (leave_step_ok n i es g a l) as Hv.
  unfold sm_step in Hs. destruct (sm_at l) eqn:Ea; try done;
    try (match type of Hs with context [register_step] => destruct (register_step g l) as [[g1 l1]|]; [|done]; injection Hs as <- <- <-; by eauto end);
    try (match type of Hs with context [lock_step] => destruct (lock_step w g l) as [[g1 l1]|] eqn:E; [|done]; injection Hs as <- <- <-; by eauto end);
    try (match type of Hs with context [unlock_step] => destruct (unlock_step g l) as [[g1 l1]|]; [|done]; injection Hs as <- <- <-; by eauto end);
    try (match type of Hs with context [leave_step] => destruct (leave_step g l) as [[g1 l1]|]; [|done]; injection Hs as <- <- <-; by eauto end);
    try (destruct (sm_index l) as [k|] eqn:Ei; [|done]; destruct (lock_shared_step k g l) as [[g1 l1]|] eqn:E; [|done]; injection Hs as <- <- <-; split; [done|by eapply lock_shared_step_ok]).
  destruct (sm_todo l) as [|o ops] eqn:Et; [done|]. injection Hs as <- <- <-. split; [done|]. by eapply begin_ok.
Qed.

Lemma sm_start_holds progs : Forall (fun ops => disciplined 0 0 ops = true) progs -> holds sm_global sm_local (sm_start progs) [].
Proof.
  intros Hd. exists (mk_sm_aux (fun _ => None) (fun _ => false) None). cbn [sm_start fst snd]. split.
  - split; cbn [slots_ word_of reads possessor want_x x_owner x_count]; try done.
    + apply length_replicate.
    + intros k Hk _. by rewrite lookup_replicate_2.
    all: by intros; match goal with H : is_Some None |- _ => destruct H end.
  - intros i l Hl. rewrite list_lookup_imap in Hl. apply fmap_Some in Hl as (ops & Ho & ->). pose proof (Forall_lookup_1 _ _ _ _ Hd Ho). split; try done; split; cbn; try done; try lia.
Qed.
Lemma sm_run_holds progs sched : Forall (fun ops => disciplined 0 0 ops = true) progs ->
  holds sm_global sm_local (sm_run (sm_start progs) sched).1 (sm_run (sm_start progs) sched).2.
Proof.
  intros Hd. apply (holds_run sm_step sm_global sm_local sm_guar (fun _ => True)); try done; [|apply sm_stable|by apply sm_start_holds]. intros *. apply sm_step_ok.
Qed.

(** A reader does not wait for readers: with no writer about, a thread that is
    registered has its lock after four steps of its own. *)
Lemma readers_enter g l k ops : sm_at l = SmIdle -> sm_todo l = LockShared :: ops -> sm_index l = Some k -> (k < length (slots_ g))%nat -> slots_ g !! k = Some 1 -> want_x g = false ->
  exists l', solo sm_step false 4 g l = Some (set_slot k 2 g, l', []) /\ shared_held l' = S (shared_held l) /\ sm_at l' = SmIdle.
Proof.
  destruct l as [id todo p idx sh ex sl x e]. cbn [sm_at sm_todo sm_index]. intros -> -> -> Hk Hv Hw. eexists. cbn [solo]. unfold sm_step at 1. cbn [sm_at sm_todo sm_begin sm_index].
  unfold sm_step at 1. cbn [sm_at sm_index lock_shared_step]. assert (slot k g = 1) as -> by (unfold slot; by rewrite Hv). cbn.
  rewrite Hw. cbn. split; [reflexivity|]. done.
Qed.
End mutex.

(** A writer is alone. For any number of threads and of words, in whatever
    order their accesses are interleaved, when locks are released by who has them
    and shared ones are not upgraded: no assertion of the mutex fails, and while a
    thread has the exclusive lock no other one has it or a shared one, be it
    counted in a word of its own or, for want of one, as the mutex's. *)
Theorem shared_mutex_excludes (contention_free_count : nat) (progs : list (list sm_op)) (sched : list (nat * bool)) (s : sys shmutex sm_thread) :
  Forall (fun ops => disciplined 0 0 ops = true) progs -> (sm_run contention_free_count (sm_start contention_free_count progs) sched).1 = s ->
  (forall i l, s.2 !! i = Some l -> sm_at l <> SmFailed) /\
  (forall i j l l', i <> j -> s.2 !! i = Some l -> s.2 !! j = Some l' -> (0 < excl_held l)%nat -> shared_held l' = 0%nat /\ excl_held l' = 0%nat).
Proof.
  intros Hd <-. destruct (sm_run_holds contention_free_count progs sched Hd) as (a & Hg & Hl). split.
  - intros i l Hi Hf. destruct (sl_ok _ _ _ _ _ (Hl i l Hi)) as [_ _ _ Hpc _]. unfold pc_ok in Hpc. by rewrite Hf in Hpc.
  - intros i j l l' Hne Hi Hj Hx. pose proof (Hl i l Hi) as [_ Hok _ Hp _ Hsc]. pose proof (Hl j l' Hj) as [_ Hok' Hs' Hp' _ _].
    pose proof Hok as [Hc _ Hex _ _]. pose proof Hok' as [Hc' _ _ _ _].
    assert (0 < in_x l)%nat as Hin by (destruct (sm_index l); intuition lia). assert ((0 <? in_x l)%nat = true) as Hin' by (by apply Nat.ltb_lt).
    assert (possessor a = Some i) as Hpo by (apply Hp; unfold possessing; by rewrite Hin').
    assert (in_x l' = 0%nat) as Hz. { destruct (in_x l') eqn:E; [done|]. assert (possessor a = Some j) by (apply Hp'; unfold possessing; by rewrite E). congruence. }
    assert (in_slot l' = 0%nat) as Hzs.
    { destruct (sm_index l') as [k|] eqn:Ek; [|intuition]. destruct (Hs' k) as (Hk & _ & _ & Hr). { unfold at_slot. destruct Hok' as [_ _ _ Hpc' _]. unfold pc_ok in Hpc'. destruct (sm_at l'); try done. congruence. }
      destruct (in_slot l'); [done|]. cbn in Hr. rewrite (Hsc k Hpo (Hex Hx)) in Hr; [done| |done]. pose proof (ok_pc _ _ Hok) as Hpc. unfold pc_ok in Hpc. unfold scanned.
      destruct (sm_at l); try done; lia. }
    destruct (sm_index l'); intuition lia.
Qed.

(** A writer inside; two readers that wait, one without a word of its own. *)
Definition demo_users : list (list sm_op) := [[Lock; Unlock]; [LockShared; UnlockShared]; [LockShared; LockShared]].
Definition demo_uses : list (nat * bool) :=
  concat [replicate 7 (0, false); replicate 12 (1, false); replicate 9 (2, false)]%nat.
Lemma shared_mutex_excludes_witness : exists s, (sm_run 1 (sm_start 1 demo_users) demo_uses).1 = s /\
  ((fun l => (excl_held l, shared_held l)) <$> s.2) = [(1, 0); (0, 0); (0, 0)]%nat /\
  (forall i j l l', i <> j -> s.2 !! i = Some l -> s.2 !! j = Some l' -> (0 < excl_held l)%nat -> shared_held l' = 0%nat /\ excl_held l' = 0%nat).
Proof.
  eexists. split; [reflexivity|]. split; [vm_compute; reflexivity|]. apply (shared_mutex_excludes 1 demo_users demo_uses _); [|reflexivity]. repeat constructor.
Defined.

(** Nothing happens any more, whatever the thread does. *)
Definition hangs (n : nat) (s : sys shmutex sm_thread) (i : nat) : Prop := forall w, sys_step (sm_step n) s (i, w) = (s, []) /\ (sm_todo <$> s.2 !! i) = Some [].

(** A thread that has the exclusive lock and asks for a shared one waits for
    itself, although the mutex is meant to be recursive in this order. *)
Lemma exclusive_then_shared_hangs :
  let s := (sm_run 36 (sm_start 36 [[Lock; LockShared]]) (replicate 60 (0%nat, false))).1 in
  hangs 36 s 0 /\ ((fun l => (excl_held l, shared_held l)) <$> s.2) = [(1, 0)]%nat.
Proof. cbv zeta. split; [intros []; split; vm_compute; reflexivity|vm_compute; reflexivity]. Qed.
(** So does one that has a shared lock from when all words were taken, and for
    the second one finds a word. *)
Lemma shared_then_shared_hangs :
  let s := (sm_run 1 (sm_start 1 [[LockShared; UnlockShared; Leave]; [LockShared; LockShared]])
    (concat [replicate 9 (0, false); replicate 6 (1, false); replicate 9 (0, false); replicate 20 (1, false)]%nat)).1 in
  hangs 1 s 1 /\ ((fun l => shared_held l) <$> s.2) = [0; 1]%nat.
Proof. cbv zeta. split; [intros []; split; vm_compute; reflexivity|vm_compute; reflexivity]. Qed.
(** [unregister_thread] of a thread that is not registered reads the array before
    its beginning. *)
Lemma unregister_unregistered : (sm_at <$> (sm_run 36 (sm_start 36 [[Unregister]]) (replicate 2 (0%nat, false))).1.2) = [SmNoIndex].
Proof. vm_compute. reflexivity. Qed.
