(* ===== verification/MultiLock.v ===== *)
(** Locking several objects at once ([common/include/safe_ptr.hpp],
    [lock_timed_any]). A thread tries its mutexes one after the other, each for a
    while, and gives them all back when it did not get one. Every [try_lock] and
    every [unlock] is a step of its own. *)
From stdpp Require Import prelude list functions.
From Stdlib Require Import Lia.
From S2P Require Import Prelude Interleave.

(** * Mutexes

    [std::recursive_mutex]: its owner and how often it holds it. *)
Record mtx := mk_mtx { mx_owner : option nat; mx_depth : nat }.
Definition mtx_free : mtx := mk_mtx None 0.
Definition mtx_try (me : nat) (x : mtx) : option mtx :=
  match mx_owner x with
  | None => Some (mk_mtx (Some me) 1)
  | Some o => if decide (o = me) then Some (mk_mtx (Some me) (S (mx_depth x))) else None
  end.
Definition mtx_unlock (x : mtx) : mtx :=
  match mx_depth x with S (S n) => mk_mtx (mx_owner x) (S n) | _ => mtx_free end.

(** What the schedule chooses: a [try_lock] that fails although the mutex is free,
    and whether the time for a mutex is over. *)
Record ml_choice := mk_ml_choice { ml_spurious : bool; timed_out : bool }.

Definition spin_iterations : nat := 100.

(** * [lock_timed_any]

    [got]: which of the first mutexes the thread has. *)
Inductive ml_pc :=
  | MLIdle
  | MLSpin (args : list nat) (got : list bool) (i : nat)
  | MLTimed (args : list nat) (got : list bool)
  | MLCheck (args : list nat) (got : list bool)
  | MLUndo (args : list nat) (got : list bool)
  | MLHold (args : list nat)
  | MLRelease (args : list nat).

(** A thread with its transactions: each a list of mutexes to be locked together,
    for ever ([lock_infinity]) or once. *)
Record ml_thread := mk_ml_thread { ml_id : nat; ml_forever : bool; ml_todo : list (list nat); ml_at : ml_pc; ml_results : list bool }.
Definition ml_goto (p : ml_pc) (l : ml_thread) := mk_ml_thread (ml_id l) (ml_forever l) (ml_todo l) p (ml_results l).
Definition ml_result (b : bool) (p : ml_pc) (l : ml_thread) := mk_ml_thread (ml_id l) (ml_forever l) (ml_todo l) p (ml_results l ++ [b]).

Abbreviation mtxs := (nat -> mtx).

(** The next mutex of the initializer list, or the loop over it. *)
Definition next_try (args : list nat) (got : list bool) : ml_pc :=
  if decide (length got < length args) then MLSpin args got 0 else MLCheck args got.

Definition try_lock (w : ml_choice) (me : nat) (m : nat) (g : mtxs) : option mtxs :=
  if ml_spurious w then None else (fun x => <[m := x]> g) <$> mtx_try me (g m).

(** [try_lock_one] *)
Definition try_one_step (w : ml_choice) (g : mtxs) (l : ml_thread) (args : list nat) (got : list bool) (fail : ml_pc) : option (mtxs * ml_thread * list unit) :=
  match args !! length got with
  | None => None
  | Some m =>
      match try_lock w (ml_id l) m g with
      | Some g => Some (g, ml_goto (next_try args (got ++ [true])) l, [])
      | None => Some (g, ml_goto fail l, [])
      end
  end.

(** The locks that were taken live in the initializer list until the end of the
    loop over it, after the pause. *)
Definition ml_step (w : ml_choice) (g : mtxs) (l : ml_thread) : option (mtxs * ml_thread * list unit) :=
  match ml_at l with
  | MLIdle =>
      match ml_todo l with
      | [] => None
      | args :: todo => Some (g, mk_ml_thread (ml_id l) (ml_forever l) todo (next_try args []) (ml_results l), [])
      end
  | MLSpin args got i => try_one_step w g l args got (if decide (S i < spin_iterations) then MLSpin args got (S i) else MLTimed args got)
  | MLTimed args got => try_one_step w g l args got (if timed_out w then next_try args (got ++ [false]) else MLTimed args got)
  | MLCheck args got =>
      if forallb id got then Some (g, ml_result true (MLHold args) l, []) else Some (g, ml_goto (MLUndo args got) l, [])
  | MLUndo args got =>
      match got !! pred (length got), args !! pred (length got) with
      | Some b, Some m => Some ((if b : bool then <[m := mtx_unlock (g m)]> g else g), ml_goto (MLUndo args (removelast got)) l, [])
      | _, _ => if ml_forever l then Some (g, ml_goto (next_try args []) l, []) else Some (g, ml_result false MLIdle l, [])
      end
  | MLHold args => Some (g, ml_goto (MLRelease args) l, [])
  | MLRelease args =>
      match args with
      | m :: args => Some (<[m := mtx_unlock (g m)]> g, ml_goto (MLRelease args) l, [])
      | [] => Some (g, ml_goto MLIdle l, [])
      end
  end.

Definition ml_run : sys mtxs ml_thread -> list (nat * ml_choice) -> sys mtxs ml_thread * list (event unit) := sys_run ml_step.
Definition ml_start (progs : list (bool * list (list nat))) : sys mtxs ml_thread :=
  ((fun _ => mtx_free), imap (fun i (p : bool * list (list nat)) => mk_ml_thread i p.1 p.2 MLIdle []) progs).

(** * What a thread holds *)
Definition taken (args : list nat) (got : list bool) : list nat := omap (fun x => if x.2 : bool then Some x.1 else None) (zip args got).
Definition held_at (p : ml_pc) : list nat :=
  match p with
  | MLIdle => []
  | MLSpin args got _ | MLTimed args got | MLCheck args got | MLUndo args got => taken args got
  | MLHold args | MLRelease args => args
  end.
Definition ml_wf (p : ml_pc) : Prop :=
  match p with
  | MLSpin args got _ | MLTimed args got => length got < length args
  | MLCheck args got => length got = length args
  | MLUndo args got => length got <= length args /\ 0 < length args
  | _ => True
  end.

Lemma taken_snoc args got b m : args !! length got = Some m -> taken args (got ++ [b]) = taken args got ++ (if b then [m] else []).
Proof.
  unfold taken. revert args. induction got as [|x got IH]; intros [|a args] Hm; try done.
  - injection Hm as ->. cbn. by destruct b, args.
  - cbn in *. destruct x; cbn; by rewrite (IH _ Hm).
Qed.
Lemma taken_all args got : length got = length args -> forallb id got = true -> taken args got = args.
Proof.
  unfold taken. revert args. induction got as [|x got IH]; intros [|a args] Hl Hall; try done.
  cbn in *. apply andb_true_iff in Hall as [Hx Hall]. rewrite Hx. cbn. rewrite IH; [done|lia|done].
Qed.
Lemma next_try_ok args got : length got <= length args -> held_at (next_try args got) = taken args got /\ ml_wf (next_try args got).
Proof. intros Hl. unfold next_try. destruct (decide _); [done|]. split; [done|]. cbn. lia. Qed.

(** A thread's mutexes are its own, as often as it took them, and no others. *)
Definition times (m : nat) (l : list nat) : nat := length (filter (eq m) l).
Definition view (g : mtxs) (me : nat) (l : list nat) : Prop :=
  forall m, (0 < times m l -> g m = mk_mtx (Some me) (times m l)) /\ (times m l = 0 -> mx_owner (g m) <> Some me).
#[local] Instance times_perm m : Proper ((≡ₚ) ==> eq) (times m).
Proof. intros l l' Hl. unfold times. by rewrite Hl. Qed.
Lemma view_perm g me l l' : l ≡ₚ l' -> view g me l -> view g me l'.
Proof. intros Hl Hv m. rewrite <- Hl. apply Hv. Qed.
Lemma times_cons m k l : times m (k :: l) = (if decide (m = k) then 1 else 0) + times m l.
Proof. unfold times. rewrite list.filter_cons. by destruct (decide (m = k)). Qed.

Definition may (i : nat) (x : mtx) : Prop := mx_owner x = None \/ mx_owner x = Some i.
Definition ml_guar (i : nat) (g g' : mtxs) : Prop := forall m, g' m = g m \/ (may i (g m) /\ may i (g' m)).

Lemma fn_at_nat {A} (f : nat -> A) k x k' : (<[k := x]> f : nat -> A) k' = if decide (k' = k) then x else f k'.
Proof. unfold insert, fn_insert. destruct (decide (k = k')) as [->|Hne]; [by rewrite decide_True|by rewrite decide_False]. Qed.

Lemma lock_view w g me m g' l : view g me l -> try_lock w me m g = Some g' -> view g' me (m :: l) /\ ml_guar me g g'.
Proof.
  intros Hv. unfold try_lock. destruct (ml_spurious w); [done|]. intros (x & Hx & ->)%fmap_Some. unfold mtx_try in Hx. destruct (Hv m) as [H1 H2].
  assert (x = mk_mtx (Some me) (S (times m l)) /\ may me (g m)) as [-> Hmay].
  { destruct (mx_owner (g m)) as [o|] eqn:Ho.
    - destruct (decide (o = me)) as [->|]; [|done]. injection Hx as <-. split; [|by right]. destruct (times m l) as [|n] eqn:En; [by destruct H2|]. by rewrite H1 by lia.
    - injection Hx as <-. split; [|by left]. destruct (times m l) eqn:En; [done|]. rewrite H1 in Ho by lia. done. }
  split.
  - intros k. rewrite times_cons, fn_at_nat. destruct (decide (k = m)) as [->|]; [|apply Hv]. split; [done|lia].
  - intros k. rewrite fn_at_nat. destruct (decide (k = m)) as [->|]; [|by left]. right. split; [done|by right].
Qed.
Lemma unlock_view g me m l : view g me (m :: l) -> let g' := <[m := mtx_unlock (g m)]> g in view g' me l /\ ml_guar me g g'.
Proof.
  intros Hv g'. destruct (Hv m) as [H1 _]. rewrite times_cons, decide_True in H1 by done. specialize (H1 ltac:(lia)). subst g'. split.
  - intros k. rewrite fn_at_nat. destruct (decide (k = m)) as [->|Hne].
    + rewrite H1. unfold mtx_unlock. cbn [mx_depth]. destruct (times m l) as [|n]; cbn; [split; [lia|done]|]. split; [done|lia].
    + specialize (Hv k). by rewrite times_cons, decide_False in Hv.
  - intros k. rewrite fn_at_nat. destruct (decide (k = m)) as [->|]; [|by left]. right. rewrite H1. split; [by right|]. unfold mtx_unlock. cbn. destruct (times m l); [by left|by right].
Qed.
Lemma ml_guar_refl i g : ml_guar i g g.
Proof. intros m. by left. Qed.

(** * Invariant *)
Definition ml_local (i : nat) (g : mtxs) (_ : unit) (l : ml_thread) : Prop :=
  ml_id l = i /\ ml_wf (ml_at l) /\ view g i (held_at (ml_at l)).
Definition ml_global (n : nat) (g : mtxs) (_ : unit) (_ : list (event unit)) : Prop := forall m o, mx_owner (g m) = Some o -> o < n.

Lemma ml_stable i j g g' l : i <> j -> ml_guar i g g' -> ml_local j g () l -> ml_local j g' () l.
Proof.
  intros Hne Hg (Hid & Hwf & Hv). split; [done|]. split; [done|]. intros m. destruct (Hv m) as [H1 H2]. destruct (Hg m) as [->|[Hm Hm']]; [done|]. split.
  - intros Ht. rewrite (H1 Ht) in Hm. destruct Hm as [|[= ?]]; [done|congruence].
  - intros _ E. unfold may in Hm'. rewrite E in Hm'. destruct Hm' as [|[= ?]]; [done|congruence].
Qed.

Definition ml_kept (g : mtxs) (g' : mtxs) (l' : ml_thread) : Prop := ml_local (ml_id l') g' () l' /\ ml_guar (ml_id l') g g'.

Lemma taken_nil args : taken args [] = [].
Proof. unfold taken. by destruct args. Qed.

Lemma try_ok w g l args got fail g' l' es : view g (ml_id l) (taken args got) -> length got < length args -> held_at fail = taken args got -> ml_wf fail ->
  try_one_step w g l args got fail = Some (g', l', es) -> ml_id l' = ml_id l /\ ml_kept g g' l'.
Proof.
  intros Hv Hlt Hf Hwf. unfold try_one_step. destruct (lookup_lt_is_Some_2 args (length got) Hlt) as [m Hm]. rewrite Hm.
  destruct (try_lock w (ml_id l) m g) as [g1|] eqn:E; intros [= <- <- <-]; (split; [done|]); split.
  - destruct (next_try_ok args (got ++ [true])) as [Hh Hw]; [rewrite length_app; simpl; lia|]. split; [done|]. split; [done|]. cbn [ml_goto ml_at ml_id]. rewrite Hh, (taken_snoc _ _ _ m) by done.
    destruct (lock_view _ _ _ _ _ _ Hv E) as [Hv' _]. eapply view_perm; [|exact Hv']. by rewrite Permutation_app_comm.
  - by eapply lock_view.
  - split; [done|]. split; [done|]. cbn [ml_goto ml_at ml_id]. by rewrite Hf.
  - apply ml_guar_refl.
Qed.

Lemma ml_step_local w g l g' l' es : ml_wf (ml_at l) -> view g (ml_id l) (held_at (ml_at l)) -> ml_step w g l = Some (g', l', es) -> ml_id l' = ml_id l /\ ml_kept g g' l'.
Proof.
  intros Hwf Hv. unfold ml_step.
  assert (forall p, ml_wf p -> view g (ml_id l) (held_at p) -> ml_kept g g (ml_goto p l)) as Hmove by (intros p ? ?; split; [done|apply ml_guar_refl]).
  assert (view g (ml_id l) [] -> forall args, let p := next_try args [] in ml_wf p /\ view g (ml_id l) (held_at p)) as Hfresh.
  { intros Hn args. cbv zeta. destruct (next_try_ok args []) as [-> Hw]; [simpl; lia|]. by rewrite taken_nil. }
  destruct (ml_at l) as [|args got i|args got|args got|args got|args|args] eqn:Ep; cbn [ml_wf held_at] in *.
  - destruct (ml_todo l) as [|args todo]; [done|]. intros [= <- <- <-]. split; [done|]. split; [|apply ml_guar_refl]. split; [done|]. by apply Hfresh.
  - intros Hs. eapply try_ok; [exact Hv|done| | |exact Hs]; by destruct (decide (S i < spin_iterations)).
  - destruct (lookup_lt_is_Some_2 args (length got) Hwf) as [m Hm]. destruct (next_try_ok args (got ++ [false])) as [Hh Hw]; [rewrite length_app; simpl; lia|].
    intros Hs. eapply try_ok; [exact Hv|done| | |exact Hs]; destruct (timed_out w); try done. rewrite Hh, (taken_snoc _ _ _ m) by done. by rewrite app_nil_r.
  - destruct (forallb id got) eqn:E; intros [= <- <- <-]; (split; [done|]).
    + split; [|apply ml_guar_refl]. split; [done|]. split; [done|]. cbn. by rewrite taken_all in Hv.
    + apply Hmove; [|done]. cbn. split; [lia|]. destruct got; [done|]. simpl in Hwf. lia.
  - destruct got as [|b got _] using rev_ind.
    + cbn [length pred]. rewrite lookup_nil, taken_nil in *. destruct (ml_forever l); intros [= <- <- <-]; (split; [done|]); [by apply Hmove; apply Hfresh|]. by split; [|apply ml_guar_refl].
    + rewrite length_app in *. cbn [length] in *. replace (pred (length got + 1)) with (length got) by lia.
      rewrite lookup_app_r, Nat.sub_diag by lia. cbn [lookup list_lookup]. destruct (lookup_lt_is_Some_2 args (length got)) as [m Hm]; [lia|]. rewrite Hm, removelast_last.
      rewrite (taken_snoc _ _ _ m) in Hv by done. intros [= <- <- <-]. split; [done|]. destruct b.
      * destruct (unlock_view g (ml_id l) m (taken args got)) as [Hv' Hg']; [eapply view_perm; [|exact Hv]; by rewrite Permutation_app_comm|]. split; [|done]. split; [done|]. split; [cbn in *; lia|done].
      * rewrite app_nil_r in Hv. apply Hmove; cbn in *; [lia|done].
  - intros [= <- <- <-]. split; [done|]. by apply Hmove.
  - destruct args as [|m args]; intros [= <- <- <-]; (split; [done|]); [by apply Hmove|]. destruct (unlock_view g (ml_id l) m args Hv) as [Hv' Hg']. split; [|done]. by split.
Qed.

Lemma ml_step_ok n i w g a l g' l' es new : i < n -> ml_global n g a es -> ml_local i g a l -> True -> ml_step w g l = Some (g', l', new) ->
  exists a', ml_global n g' a' (es ++ (pair i <$> new)) /\ ml_local i g' a' l' /\ ml_guar i g g'.
Proof.
  intros Hi Hg (Hid & Hwf & Hv) _ Hs. subst i. destruct (ml_step_local _ _ _ _ _ _ Hwf Hv Hs) as [E [Hl Hgu]]. rewrite E in *. exists (). split; [|by destruct a].
  intros m o Ho. destruct (Hgu m) as [Em|[_ [Hn|Hn]]]; [rewrite Em in Ho; by eapply Hg|congruence|]. rewrite Hn in Ho. by injection Ho as <-.
Qed.

Lemma ml_inv progs sched : let x := ml_run (ml_start progs) sched in holds ml_global ml_local x.1 x.2.
Proof.
  intros x. apply (holds_run ml_step ml_global ml_local (fun i g _ g' _ => ml_guar i g g') (fun _ => True)); try done.
  - apply ml_step_ok.
  - intros i j g [] g' [] l. apply ml_stable.
  - exists (). split; [by intros m o|]. intros i l Hl. unfold ml_start in Hl. cbn [snd] in Hl. rewrite list_lookup_imap in Hl. apply fmap_Some in Hl as (p & _ & ->). split; [done|]. split; [done|].
    intros m. split; [cbn; lia|done].
Qed.

(** * Progress

    With the time over, a thread that runs alone gives back what it has. *)
Definition empty_handed (p : ml_pc) : Prop := match p with MLIdle | MLSpin _ [] _ | MLTimed _ [] => True | _ => False end.
Definition trying (args : list nat) (got : list bool) : nat := 4 + length args + (length args - length got) * 102.
Definition rank (p : ml_pc) : nat :=
  match p with
  | MLIdle => 0
  | MLRelease args => 1 + length args
  | MLHold args => 2 + length args
  | MLUndo args got => 1 + length got
  | MLCheck args got => 3 + length args
  | MLTimed args got => trying args got - 101
  | MLSpin args got i => trying args got - Nat.min i 100
  end.
Definition w_over : ml_choice := mk_ml_choice false true.

Lemma next_try_rank args got b : length got < length args -> rank (next_try args (got ++ [b])) < rank (MLTimed args got).
Proof.
  intros Hl. unfold next_try. rewrite length_app. cbn [length]. destruct (decide _); cbn [rank]; unfold trying; rewrite ?length_app; cbn [length]; lia.
Qed.
Lemma timed_rank args got i : length got < length args -> rank (MLTimed args got) < rank (MLSpin args got i).
Proof. intros Hl. cbn [rank]. unfold trying. lia. Qed.
Lemma try_alone w g l args got fail : length got < length args ->
  exists g' p, try_one_step w g l args got fail = Some (g', ml_goto p l, []) /\ (p = next_try args (got ++ [true]) \/ p = fail).
Proof.
  intros Hl. unfold try_one_step. destruct (lookup_lt_is_Some_2 args (length got) Hl) as [m ->]. destruct (try_lock w (ml_id l) m g) as [g1|]; eauto 10.
Qed.

Lemma let_go_step g l : ml_wf (ml_at l) -> ~ empty_handed (ml_at l) ->
  exists g' l', ml_step w_over g l = Some (g', l', []) /\ (empty_handed (ml_at l') \/ rank (ml_at l') < rank (ml_at l)).
Proof.
  intros Hwf Hne. unfold ml_step. destruct (ml_at l) as [|args got i|args got|args got|args got|args|args] eqn:Ep; cbn [ml_wf] in Hwf.
  - by destruct Hne.
  - pose proof (timed_rank args got i Hwf). pose proof (next_try_rank args got true Hwf).
    destruct (try_alone w_over g l args got (if decide (S i < spin_iterations) then MLSpin args got (S i) else MLTimed args got) Hwf) as (g' & p & -> & Hp).
    eexists _, _. split; [done|]. right. cbn [ml_goto ml_at]. destruct Hp as [->| ->]; [lia|]. destruct (decide (S i < spin_iterations)); [|lia]. unfold spin_iterations in *. cbn [rank]. unfold trying. lia.
  - pose proof (next_try_rank args got true Hwf). pose proof (next_try_rank args got false Hwf). cbn [timed_out w_over].
    destruct (try_alone w_over g l args got (next_try args (got ++ [false])) Hwf) as (g' & p & -> & Hp). eexists _, _. split; [done|]. right. cbn [ml_goto ml_at]. destruct Hp as [->| ->]; lia.
  - destruct (forallb id got); eexists _, _; (split; [done|]); right; cbn; lia.
  - destruct Hwf as [Hl Hpos]. destruct got as [|b got _] using rev_ind.
    + cbn [length pred]. rewrite lookup_nil. destruct (ml_forever l); eexists _, _; (split; [done|]); left; [|done]. cbn. unfold next_try. by rewrite decide_True.
    + rewrite length_app in *. cbn [length] in *. replace (pred (length got + 1)) with (length got) by lia.
      rewrite lookup_app_r, Nat.sub_diag by lia. cbn [lookup list_lookup]. destruct (lookup_lt_is_Some_2 args (length got)) as [m ->]; [lia|]. rewrite removelast_last.
      eexists _, _. split; [done|]. right. cbn. rewrite length_app. cbn. lia.
  - eexists _, _. split; [done|]. right. cbn. lia.
  - destruct args as [|m args]; eexists _, _; (split; [done|]); right; cbn; lia.
Qed.

Lemma let_go_alone g l : ml_local (ml_id l) g () l -> exists k g' l', solo ml_step w_over k g l = Some (g', l', []) /\ empty_handed (ml_at l').
Proof.
  remember (rank (ml_at l)) as k eqn:Ek. assert (rank (ml_at l) <= k) as Hk by lia. clear Ek. revert g l Hk. induction k as [k IH] using lt_wf_ind. intros g l Hk Hl.
  assert (Decision (empty_handed (ml_at l))) as Hdec by (unfold empty_handed; destruct (ml_at l) as [|? [] ?|? []| | | |]; apply _).
  destruct Hdec as [He|He]; [by exists 0, g, l|]. pose proof Hl as (_ & Hwf & Hv). destruct (let_go_step g l Hwf He) as (g1 & l1 & E & Hor).
  destruct (ml_step_local _ _ _ _ _ _ Hwf Hv E) as [_ [Hl1 _]].
  destruct Hor as [He1|Hlt].
  - exists 1, g1, l1. split; [|done]. cbn. by rewrite E.
  - destruct (IH (rank (ml_at l1)) ltac:(lia) g1 l1 ltac:(lia) Hl1) as (n & g2 & l2 & E2 & He2). exists (S n), g2, l2. split; [|done]. cbn. by rewrite E, E2.
Qed.

(** A thread that runs alone while nobody else has anything gets all its mutexes,
    transaction after transaction. *)
Definition todo_rank (todo : list (list nat)) : nat := sum_list ((fun args => 5 + length args + length args * 102) <$> todo).
Definition going_well (p : ml_pc) : Prop :=
  match p with MLSpin _ got _ | MLTimed _ got | MLCheck _ got => forallb id got = true | MLUndo _ _ => False | _ => True end.
Lemma next_try_well args got : forallb id got = true -> going_well (next_try args got).
Proof. intros Hg. unfold next_try. by destruct (decide _). Qed.

Lemma try_succeeds g l args got fail : length got < length args -> (forall m, may (ml_id l) (g m)) ->
  exists g', try_one_step w_over g l args got fail = Some (g', ml_goto (next_try args (got ++ [true])) l, []).
Proof.
  intros Hl Hm. unfold try_one_step. destruct (lookup_lt_is_Some_2 args (length got) Hl) as [m ->]. unfold try_lock, mtx_try. cbn [ml_spurious w_over].
  destruct (Hm m) as [->| ->]; [by eexists|]. rewrite decide_True by done. by eexists.
Qed.

Lemma finish_step g l : ml_wf (ml_at l) -> going_well (ml_at l) -> (forall m, may (ml_id l) (g m)) -> ~ (ml_at l = MLIdle /\ ml_todo l = []) ->
  exists g' l', ml_step w_over g l = Some (g', l', []) /\ going_well (ml_at l') /\ rank (ml_at l') + todo_rank (ml_todo l') < rank (ml_at l) + todo_rank (ml_todo l).
Proof.
  intros Hwf Hgo Hm Hn. unfold ml_step. destruct (ml_at l) as [|args got i|args got|args got|args got|args|args] eqn:Ep; cbn [ml_wf going_well] in *.
  - destruct (ml_todo l) as [|args todo]; [by destruct Hn|]. eexists _, _. split; [done|]. cbn [ml_at ml_todo]. split; [by apply next_try_well|]. cbn [rank].
    change (todo_rank (args :: todo)) with (5 + length args + length args * 102 + todo_rank todo). unfold next_try. destruct (decide _); cbn [rank]; unfold trying; cbn [length]; lia.
  - destruct (try_succeeds g l args got (if decide (S i < spin_iterations) then MLSpin args got (S i) else MLTimed args got) Hwf Hm) as [g' ->]. eexists _, _. split; [done|].
    cbn [ml_goto ml_at ml_todo]. split; [apply next_try_well; by rewrite forallb_app, Hgo|]. pose proof (next_try_rank args got true Hwf). pose proof (timed_rank args got i Hwf). lia.
  - destruct (try_succeeds g l args got (if timed_out w_over then next_try args (got ++ [false]) else MLTimed args got) Hwf Hm) as [g' ->]. eexists _, _. split; [done|].
    cbn [ml_goto ml_at ml_todo]. split; [apply next_try_well; by rewrite forallb_app, Hgo|]. pose proof (next_try_rank args got true Hwf). lia.
  - rewrite Hgo. eexists _, _. split; [done|]. split; [done|]. cbn [ml_goto ml_result ml_at ml_todo rank length]. lia.
  - done.
  - eexists _, _. split; [done|]. split; [done|]. cbn [ml_goto ml_result ml_at ml_todo rank length]. lia.
  - destruct args as [|m args]; eexists _, _; (split; [done|]); (split; [done|]); cbn [ml_goto ml_at ml_todo rank length]; lia.
Qed.

Lemma finish_alone g l : ml_local (ml_id l) g () l -> going_well (ml_at l) -> (forall m, may (ml_id l) (g m)) ->
  exists k g' l', solo ml_step w_over k g l = Some (g', l', []) /\ ml_at l' = MLIdle /\ ml_todo l' = [].
Proof.
  remember (rank (ml_at l) + todo_rank (ml_todo l)) as k eqn:Ek. revert g l Ek. induction k as [k IH] using lt_wf_ind. intros g l -> Hl Hgo Hm.
  assert (Decision (ml_at l = MLIdle /\ ml_todo l = [])) as Hdec by (destruct (ml_at l), (ml_todo l); (by left) || (by right; intros [? ?])).
  destruct Hdec as [He|He]; [by exists 0, g, l|]. pose proof Hl as (_ & Hwf & Hv). destruct (finish_step g l Hwf Hgo Hm He) as (g1 & l1 & E & Hgo1 & Hlt).
  destruct (ml_step_local _ _ _ _ _ _ Hwf Hv E) as [Eid [Hl1 Hgu]].
  destruct (IH _ Hlt g1 l1 eq_refl Hl1 Hgo1) as (n & g2 & l2 & E2 & Hd).
  { intros m. rewrite Eid in *. destruct (Hgu m) as [->|[_ ?]]; [apply Hm|done]. }
  exists (S n), g2, l2. split; [|done]. cbn. by rewrite E, E2.
Qed.

Lemma empty_held p : empty_handed p -> held_at p = [] /\ going_well p.
Proof. destruct p as [|args [|] i|args [|]| | | |]; try done; cbn; by rewrite taken_nil. Qed.

(** When nobody has anything, no mutex has an owner. *)
Lemma nobody_owns n st es : holds ml_global ml_local st es -> length st.2 = n -> (forall i l, st.2 !! i = Some l -> empty_handed (ml_at l)) -> forall m, mx_owner (st.1 m) = None.
Proof.
  intros ([] & Hg & Hl) Hn He m. destruct (mx_owner (st.1 m)) as [o|] eqn:Eo; [|done]. destruct (lookup_lt_is_Some_2 st.2 o (Hg m o Eo)) as [l El].
  destruct (Hl o l El) as (_ & _ & Hv). rewrite (proj1 (empty_held _ (He o l El))) in Hv. by destruct (proj2 (Hv m) eq_refl).
Qed.

Lemma ml_length progs sched : length (ml_run (ml_start progs) sched).1.2 = length progs.
Proof.
  apply (sys_run_inv ml_step (fun st _ => length st.2 = length progs)); [apply length_imap|].
  intros [g ls] es [i w] E. unfold sys_step. cbn [fst snd] in *. destruct (ls !! i); [|done]. destruct (ml_step w g _) as [[[? ?] ?]|]; [|done]. cbn. by rewrite length_insert.
Qed.

(** One thread after the other runs alone. *)
Lemma one_by_one progs sched (P Q : ml_thread -> Prop) :
  (forall st es j l, holds ml_global ml_local st es -> (forall i l, st.2 !! i = Some l -> if decide (i < j) then Q l else P l) -> st.2 !! j = Some l ->
    exists k g' l', solo ml_step w_over k st.1 l = Some (g', l', []) /\ Q l') ->
  (forall i l, (ml_run (ml_start progs) sched).1.2 !! i = Some l -> P l) ->
  exists sched', forall i l, (ml_run (ml_start progs) (sched ++ sched')).1.2 !! i = Some l -> Q l.
Proof.
  intros Hrun HP. enough (forall j, j <= length progs -> exists sched', forall i l, (ml_run (ml_start progs) (sched ++ sched')).1.2 !! i = Some l -> if decide (i < j) then Q l else P l) as Hall.
  { destruct (Hall _ (Nat.le_refl _)) as [sched' Hs]. exists sched'. intros i l Hi. specialize (Hs i l Hi). apply lookup_lt_Some in Hi. rewrite ml_length in Hi. by rewrite decide_True in Hs. }
  induction j as [|j IH]; intros Hj.
  { exists []. rewrite app_nil_r. intros i l Hi. rewrite decide_False by lia. by eapply HP. }
  destruct IH as [s1 H1]; [lia|]. destruct (lookup_lt_is_Some_2 (ml_run (ml_start progs) (sched ++ s1)).1.2 j) as [l Hl]; [rewrite ml_length; lia|].
  destruct (Hrun _ _ j l (ml_inv progs (sched ++ s1)) H1 Hl) as (k & g' & l' & Es & HQ). exists (s1 ++ replicate k (j, w_over)). rewrite app_assoc. unfold ml_run in *. rewrite sys_run_app.
  destruct (sys_run ml_step (ml_start progs) (sched ++ s1)) as [[g ls] es]. cbn [fst snd] in *. rewrite (solo_run _ _ _ _ _ _ _ _ _ _ Es Hl). cbn [fst snd].
  intros i x [(<- & <- & _)|(Hne & Hx)]%list_lookup_insert_Some; [by rewrite decide_True by lia|]. specialize (H1 i x Hx). destruct (decide (i < j)), (decide (i < S j)); try done; lia.
Qed.

(** * What the threads report *)
Definition undecided (p : ml_pc) : nat := match p with MLSpin _ _ _ | MLTimed _ _ | MLCheck _ _ | MLUndo _ _ => 1 | _ => 0 end.
Definition reported_ok (p : bool * list (list nat)) (l : ml_thread) : Prop :=
  ml_forever l = p.1 /\ length (ml_results l) + undecided (ml_at l) + length (ml_todo l) = length p.2 /\ (p.1 = true -> Forall (eq true) (ml_results l)).

Lemma undecided_next args got : undecided (next_try args got) = 1.
Proof. unfold next_try. by destruct (decide _). Qed.
Lemma reported_step p w g l g' l' es : reported_ok p l -> ml_step w g l = Some (g', l', es) -> reported_ok p l'.
Proof.
  intros (Hf & Hn & Hr). unfold ml_step, try_one_step. destruct l as [me f todo at_ rs]. cbn [ml_at ml_todo ml_results ml_forever ml_id] in *.
  assert (forall b q, undecided q = 0 -> undecided at_ = 1 -> (p.1 = true -> b = true) -> reported_ok p (mk_ml_thread me f todo q (rs ++ [b]))) as Hend.
  { intros b q Hq Ha Hb. split; [done|]. cbn. rewrite length_app, Hq. cbn. split; [lia|]. intros Hp. apply Forall_app. split; [by apply Hr|]. constructor; [by rewrite Hb|done]. }
  assert (forall q, undecided q = undecided at_ -> reported_ok p (mk_ml_thread me f todo q rs)) as Hgo by (intros q Hq; split; [done|]; cbn; by rewrite Hq).
  destruct at_ as [|args got i|args got|args got|args got|args|args].
  - destruct todo as [|args todo]; [done|]. intros [= <- <- <-]. split; [done|]. cbn [ml_results ml_at ml_todo]. rewrite undecided_next. cbn in Hn. split; [lia|done].
  - repeat case_match; intros [= <- <- <-]; apply Hgo; by rewrite ?undecided_next.
  - repeat case_match; intros [= <- <- <-]; apply Hgo; by rewrite ?undecided_next.
  - case_match; intros [= <- <- <-]; [by apply Hend|by apply Hgo].
  - repeat case_match; intros [= <- <- <-]; try (apply Hgo; by rewrite ?undecided_next); (apply Hend; [done|done|]; cbn in Hf; congruence).
  - intros [= <- <- <-]. by apply Hgo.
  - case_match; intros [= <- <- <-]; by apply Hgo.
Qed.
Lemma ml_reported progs sched i l p : (ml_run (ml_start progs) sched).1.2 !! i = Some l -> progs !! i = Some p -> reported_ok p l.
Proof.
  intros Hi Hp. revert i l p Hi Hp. apply (sys_run_inv ml_step (fun st _ => forall i l p, st.2 !! i = Some l -> progs !! i = Some p -> reported_ok p l)).
  - intros i l p Hi Hp. unfold ml_start in Hi. cbn [snd] in Hi. rewrite list_lookup_imap, Hp in Hi. injection Hi as <-. split; [done|]. cbn. by split.
  - intros [g ls] es [i w] IH. unfold sys_step. cbn [fst snd] in *. destruct (ls !! i) as [l|] eqn:El; [|done]. destruct (ml_step w g l) as [[[g' l'] new]|] eqn:Es; [|done]. cbn [fst snd].
    intros k x p [(<- & <- & _)|(_ & Hx)]%list_lookup_insert_Some Hp; [eapply reported_step; [by eapply IH|exact Es]|by eapply IH].
Qed.

(** * Claim *)
(** C15: locking several mutexes at once. Threads lock any lists of recursive
    mutexes, in any order and with repetitions, in any interleaving, with
    [try_lock] failing at will and times running out at will: two threads that
    have their locks have no mutex in common, and a thread in no transaction has
    none. And there is no deadlock: from every state that can be reached the
    threads can go on so that all transactions end, no mutex has an owner, and
    every transaction of a thread that does not give up has had all its mutexes. *)
Theorem locking_many_never_deadlocks (progs : list (bool * list (list nat))) (sched : list (nat * ml_choice)) (st : sys mtxs ml_thread) (es : list (event unit)) :
  ml_run (ml_start progs) sched = (st, es) ->
  (forall i j li lj a b m, i <> j -> st.2 !! i = Some li -> st.2 !! j = Some lj -> ml_at li = MLHold a -> ml_at lj = MLHold b -> m ∈ a -> m ∉ b) /\
  (forall i l m, st.2 !! i = Some l -> ml_at l = MLIdle -> mx_owner (st.1 m) <> Some i) /\
  exists sched', let st' := (ml_run st sched').1 in (forall m, mx_owner (st'.1 m) = None) /\
    forall i l p, st'.2 !! i = Some l -> progs !! i = Some p ->
      ml_at l = MLIdle /\ ml_todo l = [] /\ length (ml_results l) = length p.2 /\ (p.1 = true -> ml_results l = replicate (length p.2) true).
Proof.
  intros Hst. pose proof (ml_inv progs sched) as Hinv. rewrite Hst in Hinv. cbn [fst snd] in Hinv. destruct Hinv as ([] & Hg & Hl).
  assert (forall m a, m ∈ a -> 0 < times m a) as Hin.
  { intros m a Ha. unfold times. destruct (filter (eq m) a) eqn:E; [|simpl; lia]. assert (m ∈ filter (eq m) a) as Hm by (by apply list_elem_of_filter). rewrite E in Hm. by apply elem_of_nil in Hm. }
  split; [|split].
  - intros i j li lj a b m Hne Hi Hj Ea Eb Ha Hb. destruct (Hl i li Hi) as (_ & _ & Hv), (Hl j lj Hj) as (_ & _ & Hw). rewrite Ea in Hv. rewrite Eb in Hw. cbn [held_at] in Hv, Hw.
    pose proof (proj1 (Hv m) (Hin m a Ha)) as E1. rewrite (proj1 (Hw m) (Hin m b Hb)) in E1. congruence.
  - intros i l m Hi Ei. destruct (Hl i l Hi) as (_ & _ & Hv). rewrite Ei in Hv. by apply (Hv m).
  - destruct (one_by_one progs sched (fun _ => True) (fun l => empty_handed (ml_at l))) as [s1 H1]; [|done|].
    { intros st1 es1 j l ([] & _ & Hl1) _ Hj. apply let_go_alone. destruct (Hl1 j l Hj) as (<- & ? & ?). by split. }
    destruct (one_by_one progs (sched ++ s1) (fun l => empty_handed (ml_at l)) (fun l => ml_at l = MLIdle /\ ml_todo l = [])) as [s2 H2]; [|exact H1|].
    { intros st1 es1 j l Hh He Hj. assert (forall i l, st1.2 !! i = Some l -> empty_handed (ml_at l)) as Hall.
      { intros i x Hx. specialize (He i x Hx). destruct (decide (i < j)); [|done]. by destruct He as [-> _]. }
      pose proof (nobody_owns _ _ _ Hh eq_refl Hall) as Hfree. destruct Hh as ([] & _ & Hl1). destruct (Hl1 j l Hj) as (Eid & ? & ?). apply finish_alone; [by rewrite Eid|by apply empty_held, (Hall j)|].
      intros m. left. apply Hfree. }
    exists (s1 ++ s2). pose proof (sys_run_app ml_step (ml_start progs) sched (s1 ++ s2)) as E. rewrite app_assoc in E. unfold ml_run in *. rewrite Hst in E.
    destruct (sys_run ml_step st (s1 ++ s2)) as [st' es'] eqn:Er. cbn [fst]. rewrite E in H2. cbn [fst snd] in H2. split.
    + eapply (nobody_owns _ st'); [|done|]; [|intros i l Hi; by destruct (H2 i l Hi) as [-> _]]. pose proof (ml_inv progs ((sched ++ s1) ++ s2)) as Hh. unfold ml_run in Hh. rewrite E in Hh. exact Hh.
    + intros i l p Hi Hp. destruct (H2 i l Hi) as [Ea Et]. split; [done|]. split; [done|]. pose proof (ml_reported progs ((sched ++ s1) ++ s2) i l p) as Hr. unfold ml_run in Hr. rewrite E in Hr.
      destruct (Hr Hi Hp) as (_ & Hn & Hall). rewrite Ea, Et in Hn. cbn in Hn. rewrite !Nat.add_0_r in Hn. split; [done|]. intros Hf. symmetry. apply replicate_as_Forall. split; [done|by apply Hall].
Qed.

(** Two threads that lock the same two mutexes in opposite orders: both have the
    first one and wait for the other's. *)
Definition crossing : list (nat * ml_choice) :=
  let w := mk_ml_choice false false in [(0, w); (1, w); (0, w); (1, w)] ++ concat (replicate 150 [(0, w); (1, w)]).
Definition crossed : list (bool * list (list nat)) := [(true, [[7; 8]]); (true, [[8; 7]])].
Lemma locking_many_never_deadlocks_witness : let st := (ml_run (ml_start crossed) crossing).1 in
  (ml_at <$> st.2) = [MLTimed [7; 8] [true]; MLTimed [8; 7] [true]] /\
  exists sched', let st' := (ml_run st sched').1 in (forall m, mx_owner (st'.1 m) = None) /\
    forall i l p, st'.2 !! i = Some l -> crossed !! i = Some p ->
      ml_at l = MLIdle /\ ml_todo l = [] /\ length (ml_results l) = length p.2 /\ (p.1 = true -> ml_results l = replicate (length p.2) true).
Proof.
  intros st. split; [vm_compute; done|]. apply (locking_many_never_deadlocks crossed crossing st (ml_run (ml_start crossed) crossing).2). apply surjective_pairing.
Defined.

(** The pause before the next attempt: the vector of locks has been cleared, but
    the initializer list still has them. While thread 0 pauses, having found
    mutex 8 taken, thread 1 cannot have mutex 7. *)
Lemma pause_with_locks :
  let w := w_over in
  let x := ml_run (ml_start [(true, [[7; 8]]); (true, [[7]]); (true, [[8]])]) (replicate 4 (2, w) ++ replicate 104 (0, w)) in
  let y := ml_run x.1 (replicate 90 (1, w)) in
  (ml_at <$> x.1.2) = [MLUndo [7; 8] [true; false]; MLIdle; MLRelease [8]] /\ mx_owner (x.1.1 7) = Some 0 /\
  (ml_at <$> y.1.2) = [MLUndo [7; 8] [true; false]; MLSpin [7] [] 89; MLRelease [8]].
Proof. vm_compute. done. Qed.
