(* ===== verification/SpinLocks.v ===== *)
(** The spin locks of [common/include/safe_ptr.hpp], [spinlock_t] and
    [recursive_spinlock_t], access by access. *)
From stdpp Require Import prelude list.
From Stdlib Require Import ZArith Lia.
From S2P Require Import Prelude Interleave.

Open Scope Z_scope.

(** [lock_flag], [recursive_counter] (64 bits, which no stack of calls reaches)
    and [owner_thread_id]. *)
Record spin := mk_spin { lock_flag : bool; recursive_counter : Z; owner_thread_id : option nat }.

Definition spin_flag b (g : spin) := mk_spin b (recursive_counter g) (owner_thread_id g).
Definition spin_counter n (g : spin) := mk_spin (lock_flag g) n (owner_thread_id g).
Definition spin_owner o (g : spin) := mk_spin (lock_flag g) (recursive_counter g) o.

Inductive spin_op := Acquire | Release.
Inductive spin_pc :=
  | SlIdle
  (* try_lock *)
  | SlTest
  | SlOwn
  | SlCheck
  | SlCount
  (* unlock *)
  | SlAssert
  | SlUncount
  | SlDisown
  | SlClear
  | SlFailed.

Record spin_thread := mk_spin_thread { sl_me : nat; sl_todo : list spin_op; sl_at : spin_pc; sl_held : nat }.
Definition sl_to (p : spin_pc) (l : spin_thread) := mk_spin_thread (sl_me l) (sl_todo l) p (sl_held l).

(** [recursive_spinlock_t]: [lock] repeats [try_lock]. *)
Definition rec_try_lock_step (g : spin) (l : spin_thread) : option (spin * spin_thread) :=
  match sl_at l with
  | SlTest => if lock_flag g then Some (g, sl_to SlCheck l) else Some (spin_flag true g, sl_to SlOwn l)
  | SlOwn => Some (spin_owner (Some (sl_me l)) g, sl_to SlCount l)
  | SlCheck => Some (g, sl_to (if decide (owner_thread_id g = Some (sl_me l)) then SlCount else SlTest) l)
  | SlCount => Some (spin_counter (recursive_counter g + 1) g, mk_spin_thread (sl_me l) (sl_todo l) SlIdle (S (sl_held l)))
  | _ => None
  end.
Definition rec_unlock_step (g : spin) (l : spin_thread) : option (spin * spin_thread) :=
  match sl_at l with
  | SlAssert => Some (g, sl_to (if decide (owner_thread_id g = Some (sl_me l)) then SlUncount else SlFailed) l)
  | SlUncount =>
      if 0 <? recursive_counter g then
        Some (spin_counter (recursive_counter g - 1) g,
          mk_spin_thread (sl_me l) (sl_todo l) (if recursive_counter g - 1 =? 0 then SlDisown else SlIdle) (pred (sl_held l)))
      else Some (g, sl_to SlFailed l)
  | SlDisown => Some (spin_owner None g, sl_to SlClear l)
  | SlClear => Some (spin_flag false g, sl_to SlIdle l)
  | _ => None
  end.

(** [spinlock_t] has the flag only. *)
Definition plain_step (g : spin) (l : spin_thread) : option (spin * spin_thread) :=
  match sl_at l with
  | SlTest =>
      if lock_flag g then Some (g, l) else Some (spin_flag true g, mk_spin_thread (sl_me l) (sl_todo l) SlIdle (S (sl_held l)))
  | SlClear => Some (spin_flag false g, mk_spin_thread (sl_me l) (sl_todo l) SlIdle (pred (sl_held l)))
  | _ => None
  end.

Definition spin_step (recursive : bool) (w : unit) (g : spin) (l : spin_thread) : option (spin * spin_thread * list unit) :=
  match sl_at l with
  | SlIdle =>
      match sl_todo l with
      | [] => None
      | o :: ops =>
          let p := match o with Acquire => SlTest | Release => if recursive then SlAssert else SlClear end in
          Some (g, mk_spin_thread (sl_me l) ops p (sl_held l), [])
      end
  | _ =>
      '(g, l) ← (if recursive then match rec_try_lock_step g l with Some r => Some r | None => rec_unlock_step g l end else plain_step g l); Some (g, l, [])
  end.

Definition spin_start (progs : list (list spin_op)) : sys spin spin_thread :=
  (mk_spin false 0 None, imap (fun i ops => mk_spin_thread i ops SlIdle 0) progs).
Definition spin_run (recursive : bool) : sys spin spin_thread -> list (nat * unit) -> sys spin spin_thread * list (event unit) := sys_run (spin_step recursive).

(** Released by who has it. *)
Fixpoint balanced (n : nat) (ops : list spin_op) : bool :=
  match ops with
  | [] => true
  | Acquire :: ops => balanced (S n) ops
  | Release :: ops => (0 <? n)%nat && balanced (pred n) ops
  end.

(** * Invariant

    [p]: who set the flag. *)
Definition has_flag (l : spin_thread) : bool := (0 <? sl_held l)%nat || match sl_at l with SlOwn | SlCount | SlDisown | SlClear => true | _ => false end.
Definition sl_record (l : spin_thread) : option nat := match sl_at l with SlOwn | SlClear => None | _ => Some (sl_me l) end.
Definition sl_after (l : spin_thread) : nat :=
  match sl_at l with SlTest | SlOwn | SlCheck | SlCount => S (sl_held l) | SlAssert | SlUncount => pred (sl_held l) | _ => sl_held l end.

Definition sl_pc_ok (recursive : bool) (l : spin_thread) : Prop :=
  match sl_at l with
  | SlIdle | SlTest => True
  | SlCheck | SlCount => recursive = true
  | SlOwn | SlDisown => recursive = true /\ sl_held l = 0%nat
  | SlClear => if recursive then sl_held l = 0%nat else (0 < sl_held l)%nat
  | SlAssert | SlUncount => recursive = true /\ (0 < sl_held l)%nat
  | SlFailed => False
  end.

Record spin_global (n : nat) (g : spin) (p : option nat) (es : list (event unit)) : Prop := {
  spg_flag : lock_flag g = bool_decide (is_Some p);
  spg_none : p = None -> recursive_counter g = 0 /\ owner_thread_id g = None;
  spg_owner o : owner_thread_id g = Some o -> p = Some o }.

Record spin_local (i : nat) (g : spin) (p : option nat) (l : spin_thread) : Prop := {
  spl_id : sl_me l = i;
  spl_pc : sl_pc_ok true l;
  spl_todo : balanced (sl_after l) (sl_todo l) = true;
  spl_has : has_flag l = true <-> p = Some i;
  spl_x : p = Some i -> recursive_counter g = Z.of_nat (sl_held l) /\ owner_thread_id g = sl_record l }.

Definition spin_guar (i : nat) (g : spin) (p : option nat) (g' : spin) (p' : option nat) : Prop :=
  forall j, j <> i -> (p' = Some j <-> p = Some j) /\ (p = Some j -> recursive_counter g' = recursive_counter g /\ owner_thread_id g' = owner_thread_id g).

Lemma spin_stable i j g p g' p' l : i <> j -> spin_guar i g p g' p' -> spin_local j g p l -> spin_local j g' p' l.
Proof.
  intros Hne Hg [Hid Hpc Ht Hh Hx]. destruct (Hg j) as [Hp Hs]; [done|]. split; try done; [by rewrite Hp|].
  intros Hj%Hp. destruct (Hs Hj) as [-> ->]. by apply Hx.
Qed.

(** A step of a thread that does not have the flag and does not take it. *)
Lemma spin_waits n i es g p l l' : spin_global n g p es -> spin_local i g p l -> sl_me l' = sl_me l -> sl_pc_ok true l' -> balanced (sl_after l') (sl_todo l') = true ->
  has_flag l' = has_flag l -> sl_held l' = sl_held l -> (has_flag l = true -> sl_record l' = sl_record l) ->
  exists p', spin_global n g p' (es ++ (pair i <$> [])) /\ spin_local i g p' l' /\ spin_guar i g p g p'.
Proof.
  intros [Hf Hn Ho] [Hid Hpc Ht Hh Hx] Eid Hpc' Ht' Eh Es Er. exists p. rewrite app_nil_r. split; [by split|]. split; [|by intros j Hj].
  split; try done; [congruence|by rewrite Eh|]. intros Hi. rewrite Es, Er by (by apply Hh). by apply Hx.
Qed.
(** A step of the thread that has the flag, takes it or gives it back. *)
Lemma spin_moves n i es g p l g' l' : spin_global n g p es -> spin_local i g p l -> sl_me l' = sl_me l -> sl_pc_ok true l' -> balanced (sl_after l') (sl_todo l') = true ->
  (has_flag l = true \/ lock_flag g = false) -> lock_flag g' = has_flag l' ->
  (if has_flag l' then recursive_counter g' = Z.of_nat (sl_held l') /\ owner_thread_id g' = sl_record l' else recursive_counter g' = 0 /\ owner_thread_id g' = None) ->
  exists p', spin_global n g' p' (es ++ (pair i <$> [])) /\ spin_local i g' p' l' /\ spin_guar i g p g' p'.
Proof.
  intros [Hf Hn Ho] [Hid Hpc Ht Hh Hx] Eid Hpc' Ht' Hmine Ef Hval. exists (if has_flag l' then Some i else None). rewrite app_nil_r.
  assert (forall j, j <> i -> p <> Some j) as Hothers.
  { intros j Hj ->. destruct Hmine as [Hl|Hl]; [apply Hh in Hl; congruence|]. rewrite Hl in Hf. by rewrite bool_decide_true in Hf by (by eexists). }
  split; [|split].
  - destruct (has_flag l'); split; try done; [|by intros; destruct Hval; congruence]. intros o Hoo. destruct Hval as [_ E]. rewrite Hoo in E. unfold sl_record in E. destruct (sl_at l'); congruence.
  - split; try done; [congruence|by destruct (has_flag l')|]. by destruct (has_flag l').
  - intros j Hj. split; [split; [destruct (has_flag l'); congruence|intros ->; by destruct (Hothers j Hj)]|]. intros ->. by destruct (Hothers j Hj).
Qed.

Ltac spin_fields :=
  unfold has_flag, sl_record, sl_after, sl_pc_ok, spin_flag, spin_counter, spin_owner in *;
  cbn [sl_me sl_todo sl_at sl_held lock_flag recursive_counter owner_thread_id] in *.

Lemma spin_step_ok n i w g p l g' l' es new : (i < n)%nat -> spin_global n g p es -> spin_local i g p l -> True -> spin_step true w g l = Some (g', l', new) ->
  exists p', spin_global n g' p' (es ++ (pair i <$> new)) /\ spin_local i g' p' l' /\ spin_guar i g p g' p'.
Proof.
  intros _ Hg Hl _ Hs. pose proof Hg as [Hf Hn Ho]. pose proof Hl as [Hid Hpc Ht Hh Hx].
  assert (has_flag l = true -> lock_flag g = true /\ recursive_counter g = Z.of_nat (sl_held l) /\ owner_thread_id g = sl_record l) as Hmine.
  { intros Hl'. apply Hh in Hl'. rewrite Hf, Hl'. split; [done|by apply Hx]. }
  assert (owner_thread_id g = Some (sl_me l) -> has_flag l = true) as Hown by (rewrite Hid; intros Hoo; by apply Hh, Ho).
  assert (lock_flag g = false -> recursive_counter g = 0 /\ owner_thread_id g = None) as Hfree by (intros E; rewrite E in Hf; destruct p; [done|auto]).
  destruct l as [me ops at_ held]. unfold spin_step, rec_try_lock_step, rec_unlock_step, sl_to, has_flag, sl_record, sl_after, sl_pc_ok in *. cbn [sl_me sl_todo sl_at sl_held] in *.
  destruct at_; cbn [mbind option_bind] in Hs; try done.
  - destruct ops as [|[] ops]; [done| |]; injection Hs as <- <- <-; cbn [balanced] in Ht; [by eapply spin_waits|]. apply andb_true_iff in Ht as [?%Nat.ltb_lt ?]. by eapply spin_waits.
  - destruct (lock_flag g) eqn:Ef; injection Hs as <- <- <-; [by eapply spin_waits|]. destruct (Hfree eq_refl) as [Hc Hw].
    assert (held = 0%nat) as -> by (destruct held; [done|]; by destruct (Hmine eq_refl)). eapply spin_moves; try done; spin_fields; auto.
  - destruct Hpc as [_ ->]. destruct (Hmine eq_refl) as (E1 & E2 & E3). injection Hs as <- <- <-. eapply spin_moves; try done; spin_fields; auto.
  - injection Hs as <- <- <-. destruct (decide (owner_thread_id g = Some me)) as [E|E].
    + specialize (Hown E). rewrite orb_false_r in Hown. eapply spin_waits; try done; spin_fields; rewrite ?Hown; done.
    + by eapply spin_waits.
  - destruct (Hmine (orb_true_r _)) as (E1 & E2 & E3). injection Hs as <- <- <-. eapply spin_moves; try done; spin_fields; [left; apply orb_true_r|]. split; [lia|done].
  - destruct Hpc as [_ Hheld]. assert ((0 <? held)%nat = true) as E by (by apply Nat.ltb_lt). rewrite E in *. destruct (Hmine eq_refl) as (E1 & E2 & E3).
    injection Hs as <- <- <-. rewrite decide_True by done. by eapply spin_waits.
  - destruct Hpc as [_ Hheld]. assert ((0 <? held)%nat = true) as E by (by apply Nat.ltb_lt). rewrite E in *. destruct (Hmine eq_refl) as (E1 & E2 & E3).
    destruct (Z.ltb_spec 0 (recursive_counter g)); [|lia]. injection Hs as <- <- <-. destruct (Z.eqb_spec (recursive_counter g - 1) 0); eapply spin_moves; try done; spin_fields.
    + split; [done|lia].
    + left. by rewrite E.
    + by rewrite orb_true_r.
    + rewrite orb_true_r. split; [lia|done].
    + left. by rewrite E.
    + rewrite E1. symmetry. rewrite orb_false_r. apply Nat.ltb_lt. lia.
    + destruct (Nat.ltb_spec 0 (pred held)); [|lia]. split; [lia|done].
  - destruct Hpc as [_ ->]. destruct (Hmine eq_refl) as (E1 & E2 & E3). injection Hs as <- <- <-. eapply spin_moves; try done; spin_fields; auto.
  - subst held. destruct (Hmine eq_refl) as (E1 & E2 & E3). injection Hs as <- <- <-. eapply spin_moves; try done; spin_fields; auto.
Qed.

Lemma spin_start_holds progs : Forall (fun ops => balanced 0 ops = true) progs -> holds spin_global spin_local (spin_start progs) [].
Proof.
  intros Hd. exists None. cbn [spin_start fst snd]. split; [by split|]. intros i l Hl. rewrite list_lookup_imap in Hl. apply fmap_Some in Hl as (ops & Ho & ->).
  pose proof (Forall_lookup_1 _ _ _ _ Hd Ho). split; try done; by split.
Qed.
Lemma spin_run_holds progs sched : Forall (fun ops => balanced 0 ops = true) progs ->
  holds spin_global spin_local (spin_run true (spin_start progs) sched).1 (spin_run true (spin_start progs) sched).2.
Proof.
  intros Hd. apply (holds_run (spin_step true) spin_global spin_local spin_guar (fun _ => True)); try done; [|apply spin_stable|by apply spin_start_holds]. intros *. apply spin_step_ok.
Qed.

(** The recursive spin lock is a recursive mutex. Whatever the interleaving of
    threads that release what they have taken: no assertion fails, at most one
    thread has the lock, and the counter is how often; and that thread takes it
    once more in four steps of its own, without waiting. *)
Theorem recursive_spinlock_excludes (progs : list (list spin_op)) (sched : list (nat * unit)) (s : sys spin spin_thread) :
  Forall (fun ops => balanced 0 ops = true) progs -> (spin_run true (spin_start progs) sched).1 = s ->
  (forall i l, s.2 !! i = Some l -> sl_at l <> SlFailed) /\
  (forall i l, s.2 !! i = Some l -> (0 < sl_held l)%nat -> recursive_counter s.1 = Z.of_nat (sl_held l) /\ forall j l', j <> i -> s.2 !! j = Some l' -> sl_held l' = 0%nat) /\
  (forall i l ops, s.2 !! i = Some l -> (0 < sl_held l)%nat -> sl_at l = SlIdle -> sl_todo l = Acquire :: ops ->
     solo (spin_step true) () 4 s.1 l = Some (spin_counter (recursive_counter s.1 + 1) s.1, mk_spin_thread (sl_me l) ops SlIdle (S (sl_held l)), [])).
Proof.
  intros Hd <-. destruct (spin_run_holds progs sched Hd) as (p & [Hf Hn Ho] & Hl).
  assert (forall i l, (spin_run true (spin_start progs) sched).1.2 !! i = Some l -> (0 < sl_held l)%nat -> p = Some i) as Hp.
  { intros i l Hi Hh. apply (spl_has _ _ _ _ (Hl i l Hi)). unfold has_flag. destruct (Nat.ltb_spec 0 (sl_held l)); [done|lia]. }
  split; [|split].
  - intros i l Hi Hfail. pose proof (spl_pc _ _ _ _ (Hl i l Hi)) as Hpc. unfold sl_pc_ok in Hpc. by rewrite Hfail in Hpc.
  - intros i l Hi Hh. pose proof (Hp i l Hi Hh) as Hpi. split; [by destruct (spl_x _ _ _ _ (Hl i l Hi) Hpi)|]. intros j l' Hne Hj. destruct (sl_held l') eqn:E; [done|].
    pose proof (Hp j l' Hj ltac:(lia)). congruence.
  - intros i l ops Hi Hh Hat Ht. pose proof (Hp i l Hi Hh) as Hpi. destruct (spl_x _ _ _ _ (Hl i l Hi) Hpi) as [_ Hrec]. rewrite Hpi in Hf. cbn in Hf.
    destruct l as [me todo at_ held]. cbn in *. subst. cbn [sl_record sl_at sl_me] in Hrec. unfold spin_step at 1. cbn. rewrite Hf. cbn. rewrite Hrec, decide_True by done. reflexivity.
Qed.

Definition demo_spins : list (list spin_op) := [[Acquire; Acquire; Release]; [Acquire; Release]].
Lemma recursive_spinlock_excludes_witness : exists s, (spin_run true (spin_start demo_spins) ((fun i => (i, ())) <$> [0; 0; 0; 1; 1; 1; 0; 0; 0; 1; 0; 0]%nat)).1 = s /\
  (sl_held <$> s.2) = [2; 0]%nat /\ (forall i l, s.2 !! i = Some l -> sl_at l <> SlFailed).
Proof.
  eexists. split; [reflexivity|]. split; [vm_compute; reflexivity|]. apply (recursive_spinlock_excludes demo_spins _ _ ltac:(repeat constructor) eq_refl).
Defined.

(** * The plain one *)
Definition holding (l : spin_thread) : bool := (0 <? sl_held l)%nat.
Definition plain_ok (l : spin_thread) : Prop :=
  match sl_at l with
  | SlIdle => balanced (sl_held l) (sl_todo l) = true
  | SlTest => balanced (S (sl_held l)) (sl_todo l) = true
  | SlClear => (0 < sl_held l)%nat /\ balanced (pred (sl_held l)) (sl_todo l) = true
  | _ => False
  end /\ (sl_held l <= 1)%nat.

(** At most one thread has the spin lock, which a second [lock] of its own waits
    for like everybody's. *)
Lemma spinlock_excludes progs sched : Forall (fun ops => balanced 0 ops = true) progs ->
  let s := (spin_run false (spin_start progs) sched).1 in
  count holding s.2 = Nat.b2n (lock_flag s.1) /\ Forall plain_ok s.2.
Proof.
  intros Hd. apply (sys_run_inv (spin_step false) (fun s _ => count holding s.2 = Nat.b2n (lock_flag s.1) /\ Forall plain_ok s.2)).
  - split; cbn [spin_start fst snd].
    + enough (forall k, count holding (imap (fun i ops => mk_spin_thread (k + i) ops SlIdle 0) progs) = 0%nat) as H by apply (H 0%nat).
      clear Hd. induction progs as [|ops progs IH]; intros k; [done|]. cbn [imap]. unfold count in *. cbn. etransitivity; [|apply (IH (S k))]. do 2 f_equal. apply imap_ext. intros. cbn. f_equal. lia.
    + apply Forall_lookup. intros i l Hl. rewrite list_lookup_imap in Hl. apply fmap_Some in Hl as (ops & Ho & ->). pose proof (Forall_lookup_1 _ _ _ _ Hd Ho). by split; [|cbn; lia].
  - intros [g ls] es [i []] [Hc Hok]. unfold sys_step. cbn [fst snd] in *. destruct (ls !! i) as [l|] eqn:Ei; [|done].
    destruct (spin_step false () g l) as [[[g' l'] new]|] eqn:Es; [|done]. cbn [fst snd]. pose proof (Forall_lookup_1 _ _ _ _ Hok Ei) as [Hl Hone].
    pose proof (count_insert holding ls i l l' Ei) as Hcnt. pose proof (count_pos holding ls i l Ei) as Hpos. unfold holding in Hcnt at 2 4, Hpos at 1.
    enough (count holding (<[i := l']> ls) = Nat.b2n (lock_flag g') /\ plain_ok l') as [? ?] by (split; [done|by apply Forall_insert]).
    destruct l as [me ops at_ held]. unfold spin_step, plain_step, plain_ok in *. cbn [sl_me sl_todo sl_at sl_held] in *. destruct at_; cbn [mbind option_bind] in Es; try done.
    + destruct ops as [|[] ops]; [done| |]; injection Es as <- <- <-; cbn [balanced sl_held sl_at sl_todo] in *; [split; [lia|done]|].
      apply andb_true_iff in Hl as [?%Nat.ltb_lt ?]. split; [lia|done].
    + destruct (lock_flag g) eqn:Ef; injection Es as <- <- <-; cbn [sl_held sl_at sl_todo spin_flag lock_flag Nat.b2n] in *; [rewrite Ef; split; [cbn; lia|done]|].
      destruct held as [|held]; [|specialize (Hpos eq_refl); lia]. cbn in Hcnt. split; [lia|]. split; [done|lia].
    + destruct Hl as [Hh Hb]. assert (held = 1%nat) as -> by lia. specialize (Hpos eq_refl). injection Es as <- <- <-. cbn [sl_held sl_at sl_todo spin_flag lock_flag Nat.b2n] in *. cbn in Hcnt.
      split; [destruct (lock_flag g); cbn in Hc; lia|]. split; [done|cbn; lia].
Qed.
