(* ===== verification/PartMap.v ===== *)
(** The partitioned map of [common/include/safe_ptr.hpp],
    [safe_map_partitioned_t]: an ordered map cut into parts by key, each part a
    map behind a lock of its own. The parts are those of the constructor; every
    operation finds the parts its keys belong to. One thread at a time: a range
    over several parts is not one critical section. *)
From stdpp Require Import prelude list sorting.
From Stdlib Require Import ZArith Lia.
From S2P Require Import Prelude.

Open Scope Z_scope.

Section part_map.
Context {V : Type}.

(** * Ordered maps: [std::map]

    In the order of their keys; an iterator is a position. *)
Abbreviation container := (list (Z * V)).

Definition lower_bound {A} (k : Z) (m : list (Z * A)) : nat := length (filter (fun x => x.1 < k) m).
Definition upper_bound {A} (k : Z) (m : list (Z * A)) : nat := length (filter (fun x => x.1 <= k) m).

(** The elements from [lower_bound(low)] to [upper_bound(up)], which must not
    come before. *)
Definition between (low up : Z) (m : container) : res container :=
  if (upper_bound up m <? lower_bound low m)%nat then Fault IterPastEnd
  else Ok (take (upper_bound up m - lower_bound low m) (drop (lower_bound low m) m)).
(** [erase] of that range. *)
Definition erase_between (low up : Z) (m : container) : res container :=
  if (upper_bound up m <? lower_bound low m)%nat then Fault IterPastEnd
  else Ok (take (lower_bound low m) m ++ drop (upper_bound up m) m).

Fixpoint map_emplace {A} (k : Z) (v : A) (m : list (Z * A)) : list (Z * A) :=
  match m with
  | [] => [(k, v)]
  | (k', v') :: m' => if k <? k' then (k, v) :: m else if k =? k' then m else (k', v') :: map_emplace k v m'
  end.
Definition map_erase (k : Z) (m : container) : container * nat := (filter (fun x => x.1 <> k) m, length (filter (fun x => x.1 = k) m)).

(** * The partitioned map *)
Abbreviation part_map := (list (Z * container)).

(** The constructors: one part for the default key; a part for every [step] from
    [start] to [end_]; a part for each key given. The second does not end when
    [step] is not positive. *)
Definition part_default : part_map := [(0, [])].
Definition part_steps (start end_ step : Z) : res part_map :=
  if end_ <? start then Ok []
  else if step <=? 0 then Fault Diverges
  else Ok ((fun i => (start + Z.of_nat i * step, [])) <$> seq 0 (S (Z.to_nat ((end_ - start) / step)))).
Definition part_list (il : list Z) : part_map := foldl (fun p i => map_emplace i [] p) [] il.

Definition part_it (k : Z) (p : part_map) : res nat :=
  let it := lower_bound k p in
  if (it =? length p)%nat then (if (length p =? 0)%nat then Fault IterPastEnd else Ok (length p - 1)%nat) else Ok it.

(** An operation on the part of a key. *)
Definition on_part {A} (f : container -> res (container * A)) (it : nat) (p : part_map) : res (part_map * A) :=
  match p !! it with
  | Some (b, m) => '(m, r) ← f m; Ok (<[it := (b, m)]> p, r)
  | None => Fault IterPastEnd
  end.

Definition part_emplace (k : Z) (v : V) (p : part_map) : res part_map :=
  it ← part_it k p; '(p, _) ← on_part (fun m => Ok (map_emplace k v m, ())) it p; Ok p.
Definition part_erase (k : Z) (p : part_map) : res (part_map * nat) :=
  it ← part_it k p; on_part (fun m => Ok (map_erase k m)) it p.
Definition get_range_equal (k : Z) (p : part_map) : res container :=
  it ← part_it k p; '(_, r) ← on_part (fun m => r ← between k k m; Ok (m, r)) it p; Ok r.

(** Where the loops over parts end. *)
Definition end_it (up : Z) (p : part_map) : nat := if (upper_bound up p =? length p)%nat then length p else S (upper_bound up p).

Fixpoint over_parts {A} (f : container -> res (container * list A)) (n it : nat) (p : part_map) : res (part_map * list A) :=
  match n with
  | O => Ok (p, [])
  | S n => '(p, r) ← on_part f it p; '(p, rs) ← over_parts f n (S it) p; Ok (p, r ++ rs)
  end.
(** [for (; it != end; ++it)]. *)
Definition part_loop {A} (f : container -> res (container * list A)) (it e : nat) (p : part_map) : res (part_map * list A) :=
  if (e <? it)%nat then Fault IterPastEnd else over_parts f (e - it) it p.

Definition get_range_lower_upper (low up : Z) (p : part_map) : res container :=
  it ← part_it low p; '(_, r) ← part_loop (fun m => r ← between low up m; Ok (m, r)) it (end_it up p) p; Ok r.
Definition erase_lower_upper (low up : Z) (p : part_map) : res part_map :=
  it ← part_it low p; '(p, _) ← part_loop (A := unit) (fun m => m ← erase_between low up m; Ok (m, [])) it (end_it up p) p; Ok p.

Definition part_size (p : part_map) : nat := foldl (fun size bm => (size + length bm.2)%nat) 0%nat p.
Definition part_clear (p : part_map) : part_map := (fun bm => (bm.1, [])) <$> p.

(** * One map *)
Definition whole (p : part_map) : container := concat (p.*2).

Abbreviation ordered := (StronglySorted (fun x y => x.1 < y.1)).
(** The part a key belongs to. *)
Definition part_of {A} (k : Z) (p : list (Z * A)) : nat := Nat.min (lower_bound k p) (length p - 1).

Record part_ok (p : part_map) : Prop := {
  po_some : p <> [];
  po_keys : ordered p;
  po_parts i b m : p !! i = Some (b, m) -> ordered m /\ forall x, x ∈ m -> part_of x.1 p = i }.

(** ** Ordered lists *)
Lemma filter_none {A} (P : A -> Prop) `{forall x, Decision (P x)} (l : list A) : (forall x, x ∈ l -> ~ P x) -> filter P l = [].
Proof. induction l as [|x l IH]; intros Hl; [done|]. rewrite filter_cons, decide_False by (apply Hl; left). apply IH. intros y Hy. apply Hl. by right. Qed.
Lemma filter_whole {A} (P : A -> Prop) `{forall x, Decision (P x)} (l : list A) : (forall x, x ∈ l -> P x) -> filter P l = l.
Proof. induction l as [|x l IH]; intros Hl; [done|]. rewrite filter_cons, decide_True by (apply Hl; left). f_equal. apply IH. intros y Hy. apply Hl. by right. Qed.
Lemma ordered_cons {A} (x : Z * A) m : ordered (x :: m) -> ordered m /\ forall y, y ∈ m -> x.1 < y.1.
Proof. inversion 1 as [|? ? Hm Hx]; subst. split; [done|]. intros y Hy. by eapply list.Forall_forall in Hx. Qed.
Lemma ordered_filter {A} (P : Z * A -> Prop) `{forall x, Decision (P x)} m : ordered m -> ordered (filter P m).
Proof.
  induction 1 as [|x m Hm IH Hx]; [constructor|]. rewrite filter_cons. destruct (decide (P x)); [|done]. constructor; [done|].
  apply list.Forall_forall. intros y [_ Hy]%list_elem_of_filter. by eapply list.Forall_forall in Hx.
Qed.

Lemma lower_bound_spec {A} k (m : list (Z * A)) : ordered m ->
  take (lower_bound k m) m = filter (fun x => x.1 < k) m /\ drop (lower_bound k m) m = filter (fun x => k <= x.1) m.
Proof.
  unfold lower_bound. induction m as [|x m IH]; intros Hm; [done|]. apply ordered_cons in Hm as [Hm Hx]. destruct (IH Hm) as [IH1 IH2].
  rewrite !filter_cons. destruct (decide (x.1 < k)), (decide (k <= x.1)); try lia.
  - cbn. by rewrite IH1, IH2.
  - assert (filter (fun x => x.1 < k) m = []) as E by (apply filter_none; intros y Hy; specialize (Hx y Hy); lia).
    rewrite E in *. cbn in *. split; [done|]. by f_equal.
Qed.
Lemma upper_bound_lower {A} k (m : list (Z * A)) : upper_bound k m = lower_bound (k + 1) m.
Proof. unfold upper_bound, lower_bound. f_equal. apply list_filter_iff. intros x. lia. Qed.
Lemma lower_bound_le {A} k k' (m : list (Z * A)) : k <= k' -> (lower_bound k m <= lower_bound k' m)%nat.
Proof. intros Hk. unfold lower_bound. induction m as [|x m IH]; [done|]. rewrite !filter_cons. destruct (decide (x.1 < k)), (decide (x.1 < k')); cbn; lia. Qed.
Lemma lower_bound_length {A} k (m : list (Z * A)) : (lower_bound k m <= length m)%nat.
Proof. unfold lower_bound. induction m as [|x m IH]; [done|]. rewrite filter_cons. destruct (decide (x.1 < k)); cbn; lia. Qed.
Lemma lower_bound_keys {A B} k (m : list (Z * A)) (m' : list (Z * B)) : m.*1 = m'.*1 -> lower_bound k m = lower_bound k m'.
Proof.
  unfold lower_bound. revert m'. induction m as [|x m IH]; intros [|x' m'] E; try done. injection E as Ex E. rewrite !filter_cons. rewrite Ex. destruct (decide (x'.1 < k)); cbn; by rewrite (IH m' E).
Qed.

Definition within (low up : Z) (x : Z * V) : Prop := low <= x.1 <= up.
#[local] Instance within_dec low up x : Decision (within low up x).
Proof. unfold within. apply _. Defined.

Lemma between_spec low up m : ordered m -> low <= up -> between low up m = Ok (filter (within low up) m).
Proof.
  intros Hm Hle. unfold between. rewrite upper_bound_lower. pose proof (lower_bound_le low (up + 1) m ltac:(lia)) as Hb. destruct (Nat.ltb_spec (lower_bound (up + 1) m) (lower_bound low m)); [lia|]. f_equal.
  rewrite take_drop_commute. replace (lower_bound low m + (lower_bound (up + 1) m - lower_bound low m))%nat with (lower_bound (up + 1) m) by lia.
  destruct (lower_bound_spec (up + 1) m Hm) as [-> _]. set (m' := filter (fun x => x.1 < up + 1) m). assert (lower_bound low m = lower_bound low m') as ->.
  { unfold lower_bound, m'. rewrite list_filter_filter. f_equal. apply list_filter_iff. intros x. lia. }
  destruct (lower_bound_spec low m' ltac:(by apply ordered_filter)) as [_ ->]. unfold m'. rewrite list_filter_filter. apply list_filter_iff. intros x. unfold within. lia.
Qed.
Lemma erase_between_spec low up m : ordered m -> low <= up -> erase_between low up m = Ok (filter (fun x => ~ within low up x) m).
Proof.
  intros Hm Hle. unfold erase_between. rewrite upper_bound_lower. pose proof (lower_bound_le low (up + 1) m ltac:(lia)) as Hb. destruct (Nat.ltb_spec (lower_bound (up + 1) m) (lower_bound low m)); [lia|]. f_equal.
  destruct (lower_bound_spec (up + 1) m Hm) as [_ ->]. destruct (lower_bound_spec low m Hm) as [-> _]. clear Hb H.
  induction m as [|x m IH]; [done|]. apply ordered_cons in Hm as [Hm Hx]. rewrite !filter_cons. unfold within in *.
  destruct (decide (x.1 < low)), (decide (up + 1 <= x.1)), (decide (~ low <= x.1 <= up)); try lia; [cbn; f_equal; by apply IH| |by apply IH].
  rewrite (filter_none (fun x => x.1 < low)) by (intros y Hy; specialize (Hx y Hy); lia). cbn. f_equal. rewrite <- IH by done.
  by rewrite (filter_none (fun x => x.1 < low)) by (intros y Hy; specialize (Hx y Hy); lia).
Qed.

Lemma map_emplace_skip k v (m1 m m2 : container) : (forall x, x ∈ m1 -> x.1 < k) -> (forall x, x ∈ m2 -> k < x.1) -> map_emplace k v (m1 ++ m ++ m2) = m1 ++ map_emplace k v m ++ m2.
Proof.
  intros H1 H2. induction m1 as [|[k1 v1] m1 IH]; cbn.
  - clear H1. induction m as [|[k' v'] m IH]; cbn; [|destruct (k <? k'), (k =? k'); cbn; by rewrite ?IH].
    destruct m2 as [|[k2 v2] m2]; [done|]. cbn. specialize (H2 (k2, v2) ltac:(left)). cbn in H2. destruct (Z.ltb_spec k k2); [done|lia].
  - pose proof (H1 (k1, v1) ltac:(left)) as Hk. cbn in Hk. destruct (Z.ltb_spec k k1); [lia|]. destruct (Z.eqb_spec k k1); [lia|]. f_equal. apply IH. intros x Hx. apply H1. by right.
Qed.
Lemma elem_of_emplace {A} k (v : A) m x : x ∈ map_emplace k v m -> x ∈ m \/ x = (k, v).
Proof.
  induction m as [|[k' v'] m IH]; cbn; [intros Hx%list_elem_of_singleton; auto|]. destruct (k <? k'); [intros [->|Hx]%elem_of_cons; auto|]. destruct (k =? k'); [auto|].
  intros [->|Hx]%elem_of_cons; [left; left|]. destruct (IH Hx); [left; by right|auto].
Qed.
Lemma ordered_emplace {A} k (v : A) m : ordered m -> ordered (map_emplace k v m).
Proof.
  induction m as [|[k' v'] m IH]; intros Hm; cbn; [repeat constructor|]. pose proof (ordered_cons _ _ Hm) as [Hm' Hx]. cbn in Hx. destruct (Z.ltb_spec k k').
  - constructor; [done|]. apply list.Forall_forall. intros y [->|Hy]%elem_of_cons; cbn; [lia|]. specialize (Hx _ Hy). lia.
  - destruct (Z.eqb_spec k k'); [done|]. constructor; [by apply IH|]. apply list.Forall_forall. intros y [Hy| ->]%elem_of_emplace; cbn; [by apply Hx|lia].
Qed.

(** ** Parts *)
Lemma part_of_le {A} k k' (p : list (Z * A)) : k <= k' -> (part_of k p <= part_of k' p)%nat.
Proof. intros Hk. unfold part_of. pose proof (lower_bound_le k k' p Hk). lia. Qed.
Lemma part_of_keys {A B} k (p : list (Z * A)) (p' : list (Z * B)) : p.*1 = p'.*1 -> part_of k p = part_of k p'.
Proof. intros E. unfold part_of. rewrite (lower_bound_keys k p p' E). apply (f_equal length) in E. rewrite !length_fmap in E. by rewrite E. Qed.
Lemma ordered_keys {A B} (p : list (Z * A)) (p' : list (Z * B)) : p.*1 = p'.*1 -> ordered p -> ordered p'.
Proof.
  revert p'. induction p as [|x p IH]; intros [|x' p'] E Hp; try done; [constructor|]. injection E as Ex E. change (p.*1 = p'.*1) in E. apply ordered_cons in Hp as [Hp Hx].
  constructor; [by apply IH|]. apply list.Forall_forall. intros y Hy. assert (y.1 ∈ p.*1) as (z & Ez & Hz)%list_elem_of_fmap by (rewrite E; by apply list_elem_of_fmap_2). rewrite <- Ex, Ez. by apply Hx.
Qed.
Lemma part_it_spec k (p : part_map) : p <> [] -> part_it k p = Ok (part_of k p) /\ (part_of k p < length p)%nat.
Proof.
  intros Hp. unfold part_it, part_of. pose proof (lower_bound_length k p). assert (length p <> 0)%nat by (by destruct p).
  destruct (Nat.eqb_spec (lower_bound k p) (length p)); [destruct (Nat.eqb_spec (length p) 0); [lia|]|]; (split; [f_equal|]; lia).
Qed.

(** The same parts with other contents. *)
Lemma part_ok_contents p p' : part_ok p -> p'.*1 = p.*1 ->
  (forall i b m, p' !! i = Some (b, m) -> ordered m /\ forall x, x ∈ m -> part_of x.1 p = i) -> part_ok p'.
Proof.
  intros [Hs Hk _] E Hp. split; [by intros ->; destruct p|by apply (ordered_keys p)|].
  intros i b m Hi. destruct (Hp i b m Hi) as [Ho Hx]. split; [done|]. intros x Hin. rewrite <- (Hx x Hin). by apply part_of_keys.
Qed.
Lemma part_split p i b m : p !! i = Some (b, m) -> whole p = whole (take i p) ++ m ++ whole (drop (S i) p) /\
  forall m', whole (<[i := (b, m')]> p) = whole (take i p) ++ m' ++ whole (drop (S i) p) /\ (<[i := (b, m')]> p).*1 = p.*1.
Proof.
  intros Hi. assert (i < length p)%nat as Hlt by (by eapply lookup_lt_Some). unfold whole. split.
  - rewrite <- (take_drop_middle p i (b, m) Hi) at 1. by rewrite fmap_app, concat_app.
  - intros m'. rewrite insert_take_drop by done. rewrite !fmap_app, concat_app. split; [done|]. cbn. rewrite <- (take_drop_middle p i (b, m) Hi) at 3. by rewrite fmap_app.
Qed.
Lemma elem_of_whole p x : x ∈ whole p <-> exists i b m, p !! i = Some (b, m) /\ x ∈ m.
Proof.
  unfold whole. rewrite list_elem_of_In, in_concat. setoid_rewrite <- list_elem_of_In. split.
  - intros (m & ([b m'] & -> & [i Hi]%list_elem_of_lookup)%list_elem_of_fmap & Hx). by exists i, b, m'.
  - intros (i & b & m & Hi & Hx). exists m. split; [|done]. apply list_elem_of_fmap. exists (b, m). split; [done|]. by eapply list_elem_of_lookup_2.
Qed.
(** Keys of earlier parts are smaller, of later parts bigger. *)
Lemma part_earlier p k x : part_ok p -> x ∈ whole (take (part_of k p) p) -> x.1 < k.
Proof.
  intros [_ _ Hp] (i & b & m & Hi & Hx)%elem_of_whole. apply lookup_take_Some in Hi as [Hi Hlt]. destruct (Hp _ _ _ Hi) as [_ Hpo]. specialize (Hpo x Hx).
  destruct (Z.lt_ge_cases x.1 k); [done|]. pose proof (part_of_le k x.1 p ltac:(lia)). lia.
Qed.
Lemma part_later p k x : part_ok p -> x ∈ whole (drop (S (part_of k p)) p) -> k < x.1.
Proof.
  intros [_ _ Hp] (i & b & m & Hi & Hx)%elem_of_whole. rewrite lookup_drop in Hi. destruct (Hp _ _ _ Hi) as [_ Hpo]. specialize (Hpo x Hx).
  destruct (Z.lt_ge_cases k x.1); [done|]. pose proof (part_of_le x.1 k p ltac:(lia)). lia.
Qed.

(** An operation on the part of a key. *)
Lemma on_part_spec {A} f (g : container -> container) (h : container -> A) k p : part_ok p -> (forall m, ordered m -> f m = Ok (g m, h m)) ->
  exists b m, p !! part_of k p = Some (b, m) /\ on_part f (part_of k p) p = Ok (<[part_of k p := (b, g m)]> p, h m) /\
    whole p = whole (take (part_of k p) p) ++ m ++ whole (drop (S (part_of k p)) p) /\
    whole (<[part_of k p := (b, g m)]> p) = whole (take (part_of k p) p) ++ g m ++ whole (drop (S (part_of k p)) p) /\
    ((forall m, ordered m -> ordered (g m)) -> (forall x, x ∈ g m -> x ∈ m \/ x.1 = k) -> part_ok (<[part_of k p := (b, g m)]> p)).
Proof.
  intros Hok Hf. pose proof Hok as [Hs Hk Hp]. destruct (part_it_spec k p Hs) as [_ Hlt]. apply lookup_lt_is_Some in Hlt as [[b m] Hi]. exists b, m. split; [done|].
  destruct (part_split _ _ _ _ Hi) as [E1 E2]. destruct (E2 (g m)) as [E3 E4]. unfold on_part. rewrite Hi, Hf by (by eapply Hp). split; [done|]. split; [done|]. split; [done|].
  intros Hg Hx. apply (part_ok_contents p); [done..|]. intros i b' m' [(<- & [= <- <-] & _)|(Hne & Hi')]%list_lookup_insert_Some; [|by eapply Hp].
  destruct (Hp _ _ _ Hi) as [Ho Hpo]. split; [by apply Hg|]. intros x [Hin| ->]%Hx; [by apply Hpo|done].
Qed.

(** A loop over parts. *)
Lemma over_parts_spec {A} f (g : container -> container) (h : container -> list A) n it p : (it + n <= length p)%nat ->
  (forall i b m, p !! i = Some (b, m) -> (it <= i)%nat -> f m = Ok (g m, h m)) ->
  over_parts f n it p = Ok (take it p ++ ((fun bm => (bm.1, g bm.2)) <$> take n (drop it p)) ++ drop (it + n) p, concat ((fun bm => h bm.2) <$> take n (drop it p))).
Proof.
  revert it p. induction n as [|n IH]; intros it p Hle Hf; cbn [over_parts].
  - rewrite Nat.add_0_r. change (take 0 (drop it p)) with (@nil (Z * container)). cbn [fmap list_fmap concat app]. by rewrite take_drop.
  - assert (it < length p)%nat as [[b m] Hi]%lookup_lt_is_Some by lia. unfold on_part. rewrite Hi, (Hf it b m) by done. cbn [mbind res_bind].
    rewrite IH; [|rewrite length_insert; lia|].
    + cbn [mbind res_bind]. f_equal. assert (it < length p)%nat as Hlt by (by eapply lookup_lt_Some). rewrite (drop_S p (b, m) it Hi). cbn [take firstn fmap list_fmap concat fst snd].
      rewrite !drop_insert_lt by lia. replace (it + S n)%nat with (S it + n)%nat by lia. f_equal.
      rewrite (take_S_r _ it (b, g m)) by (by apply list_lookup_insert_eq). rewrite take_insert_ge by lia. by rewrite <- !app_assoc.
    + intros i b' m' [(<- & [= <- <-] & _)|(Hne & Hi')]%list_lookup_insert_Some Hge; [lia|]. eapply Hf; [exact Hi'|lia].
Qed.

(** The parts that a range can have elements in. *)
Lemma range_window low up p : part_ok p -> low <= up -> let it := part_of low p in let e := end_it up p in
  (it <= e <= length p)%nat /\ forall i b m x, p !! i = Some (b, m) -> x ∈ m -> within low up x -> (it <= i < e)%nat.
Proof.
  intros [Hs _ Hp] Hle it e. destruct (part_it_spec low p Hs) as [_ Hlt]. unfold it, e, end_it. rewrite upper_bound_lower.
  assert (part_of low p <= lower_bound (up + 1) p)%nat as H1 by (pose proof (lower_bound_le low (up + 1) p ltac:(lia)); unfold part_of; lia). pose proof (lower_bound_length (up + 1) p) as H2.
  split; [destruct (Nat.eqb_spec (lower_bound (up + 1) p) (length p)); lia|]. intros i b m x Hi Hx [Hl Hu]. destruct (Hp _ _ _ Hi) as [_ Hpo]. rewrite <- (Hpo x Hx).
  split; [by apply part_of_le|]. pose proof (lower_bound_le x.1 (up + 1) p ltac:(lia)). destruct (part_it_spec x.1 p Hs) as [_ ?].
  destruct (Nat.eqb_spec (lower_bound (up + 1) p) (length p)); [done|]. unfold part_of. lia.
Qed.
Lemma whole_app p1 p2 : whole (p1 ++ p2) = whole p1 ++ whole p2.
Proof. unfold whole. by rewrite fmap_app, concat_app. Qed.
Lemma filter_concat (P : Z * V -> Prop) `{forall x, Decision (P x)} (p : part_map) : filter P (whole p) = concat ((fun bm => filter P bm.2) <$> p).
Proof. unfold whole. induction p as [|bm p IH]; [done|]. cbn. by rewrite filter_app, IH. Qed.
Lemma whole_fmap (g : container -> container) (p : part_map) : whole ((fun bm => (bm.1, g bm.2)) <$> p) = concat ((fun bm => g bm.2) <$> p).
Proof. unfold whole. by rewrite <- list_fmap_compose. Qed.
Lemma window_split {A} it e (p : list A) : (it <= e <= length p)%nat -> p = take it p ++ take (e - it) (drop it p) ++ drop e p.
Proof. intros He. rewrite <- (take_drop it p) at 1. f_equal. rewrite <- (take_drop (e - it) (drop it p)) at 1. f_equal. rewrite drop_drop. f_equal. lia. Qed.
Lemma whole_window it e (p : part_map) : (it <= e <= length p)%nat -> whole p = whole (take it p) ++ whole (take (e - it) (drop it p)) ++ whole (drop e p).
Proof. intros He. rewrite (window_split it e p He) at 1. by rewrite !whole_app. Qed.

Lemma outside_window low up p : part_ok p -> low <= up -> forall x, x ∈ whole (take (part_of low p) p) \/ x ∈ whole (drop (end_it up p) p) -> ~ within low up x.
Proof.
  intros Hok Hle x Hx Hw. destruct (range_window low up p Hok Hle) as [He Hwin]. destruct Hx as [(i & b & m & Hi & Hx)%elem_of_whole|(i & b & m & Hi & Hx)%elem_of_whole].
  - apply lookup_take_Some in Hi as [Hi Hlt]. destruct (Hwin _ _ _ _ Hi Hx Hw). lia.
  - rewrite lookup_drop in Hi. destruct (Hwin _ _ _ _ Hi Hx Hw). lia.
Qed.

(** * The operations as operations on one map *)
Lemma part_emplace_ok k v p : part_ok p -> exists p', part_emplace k v p = Ok p' /\ part_ok p' /\ whole p' = map_emplace k v (whole p).
Proof.
  intros Hok. unfold part_emplace. destruct (part_it_spec k p (po_some _ Hok)) as [-> _]. cbn [mbind res_bind].
  destruct (on_part_spec (fun m => Ok (map_emplace k v m, ())) (map_emplace k v) (fun _ => ()) k p Hok) as (b & m & Hi & -> & E1 & E2 & Hok'); [done|].
  eexists. split; [reflexivity|]. split; [apply Hok'; [intros; by apply ordered_emplace|]; intros x [Hx| ->]%elem_of_emplace; auto|].
  rewrite E1, E2. symmetry. apply map_emplace_skip; intros x Hx; [by eapply part_earlier|by eapply part_later].
Qed.
Lemma part_erase_ok k p : part_ok p -> exists p', part_erase k p = Ok (p', (map_erase k (whole p)).2) /\ part_ok p' /\ whole p' = (map_erase k (whole p)).1.
Proof.
  intros Hok. unfold part_erase. destruct (part_it_spec k p (po_some _ Hok)) as [-> _]. cbn [mbind res_bind].
  destruct (on_part_spec (fun m => Ok (map_erase k m)) (fun m => (map_erase k m).1) (fun m => (map_erase k m).2) k p Hok) as (b & m & Hi & -> & E1 & E2 & Hok'); [done|].
  assert (forall x, x ∈ whole (take (part_of k p) p) \/ x ∈ whole (drop (S (part_of k p)) p) -> x.1 <> k) as Hout.
  { intros x [Hx|Hx]; [apply part_earlier in Hx; [lia|done]|apply part_later in Hx; [lia|done]]. }
  eexists. split; [|split; [apply Hok'; [intros; by apply ordered_filter|intros x [_ Hx]%list_elem_of_filter; auto]|]].
  - f_equal. f_equal. rewrite E1. unfold map_erase. cbn [snd]. rewrite !filter_app, (filter_none _ (whole (take _ _))), (filter_none _ (whole (drop _ _))) by (intros x Hx; apply Hout; auto). by rewrite app_nil_r.
  - rewrite E2, E1. unfold map_erase. cbn [fst]. rewrite !filter_app, (filter_whole _ (whole (take _ _))), (filter_whole _ (whole (drop _ _))) by (intros x Hx; apply Hout; auto). done.
Qed.
Lemma get_range_equal_ok k p : part_ok p -> get_range_equal k p = Ok (filter (within k k) (whole p)).
Proof.
  intros Hok. unfold get_range_equal. destruct (part_it_spec k p (po_some _ Hok)) as [-> _]. cbn [mbind res_bind].
  destruct (on_part_spec (fun m => r ← between k k m; Ok (m, r)) (fun m => m) (filter (within k k)) k p Hok) as (b & m & Hi & -> & E1 & _); [intros m Hm; by rewrite between_spec|].
  cbn [mbind res_bind]. f_equal. rewrite E1, !filter_app, (filter_none _ (whole (take _ _))), (filter_none _ (whole (drop _ _))).
  - by rewrite app_nil_r.
  - intros x Hx%part_later; [|done]. unfold within. lia.
  - intros x Hx%part_earlier; [|done]. unfold within. lia.
Qed.
Lemma get_range_ok low up p : part_ok p -> low <= up -> get_range_lower_upper low up p = Ok (filter (within low up) (whole p)).
Proof.
  intros Hok Hle. unfold get_range_lower_upper. destruct (part_it_spec low p (po_some _ Hok)) as [-> _]. cbn [mbind res_bind]. destruct (range_window low up p Hok Hle) as [He _]. unfold part_loop.
  destruct (Nat.ltb_spec (end_it up p) (part_of low p)); [lia|].
  rewrite (over_parts_spec _ (fun m => m) (filter (within low up))); [|lia|].
  - cbn [mbind res_bind]. f_equal. rewrite <- filter_concat, (whole_window _ _ _ He), !filter_app.
    rewrite (filter_none _ (whole (take (part_of low p) p))), (filter_none _ (whole (drop _ p))) by (intros x Hx; apply (outside_window low up p Hok Hle); auto). cbn. by rewrite app_nil_r.
  - intros i b m Hi _. rewrite between_spec; [done|by eapply po_parts|done].
Qed.
Lemma erase_range_ok low up p : part_ok p -> low <= up ->
  exists p', erase_lower_upper low up p = Ok p' /\ part_ok p' /\ whole p' = filter (fun x => ~ within low up x) (whole p).
Proof.
  intros Hok Hle. unfold erase_lower_upper. destruct (part_it_spec low p (po_some _ Hok)) as [-> _]. cbn [mbind res_bind]. destruct (range_window low up p Hok Hle) as [He _]. unfold part_loop.
  destruct (Nat.ltb_spec (end_it up p) (part_of low p)); [lia|].
  rewrite (over_parts_spec _ (filter (fun x => ~ within low up x)) (fun _ => [])); [|lia|intros i b m Hi _; rewrite erase_between_spec; [done|by eapply po_parts|done]].
  cbn [mbind res_bind]. eexists. split; [reflexivity|]. replace (part_of low p + (end_it up p - part_of low p))%nat with (end_it up p) by lia. split.
  - apply (part_ok_contents p _ Hok).
    + trans ((take (part_of low p) p ++ take (end_it up p - part_of low p) (drop (part_of low p) p) ++ drop (end_it up p) p).*1); [|by rewrite <- window_split].
      rewrite !fmap_app. do 2 f_equal. by rewrite <- list_fmap_compose.
    + intros i b m Hi. assert (exists m0, p !! i = Some (b, m0) /\ (m = m0 \/ m = filter (fun x => ~ within low up x) m0)) as (m0 & Hi0 & Hm).
      { rewrite (window_split (part_of low p) (end_it up p) p He). clear -Hi. apply lookup_app_Some in Hi as [Hi|[Hge Hi]].
        { exists m. split; [|auto]. by apply lookup_app_l_Some. }
        rewrite lookup_app_r by done. apply lookup_app_Some in Hi as [Hi|[Hge' Hi]].
        - rewrite list_lookup_fmap in Hi. apply fmap_Some in Hi as ([b0 m0] & Hi & [= -> ->]). exists m0. split; [|auto]. by apply lookup_app_l_Some.
        - rewrite length_fmap in *. exists m. split; [|auto]. by rewrite lookup_app_r. }
      destruct (po_parts _ Hok _ _ _ Hi0) as [Ho Hpo]. destruct Hm as [-> | ->]; [done|]. split; [by apply ordered_filter|]. intros x [_ Hx]%list_elem_of_filter. by apply Hpo.
  - rewrite !whole_app, whole_fmap, <- filter_concat. rewrite (whole_window _ _ _ He), !filter_app.
    by rewrite (filter_whole _ (whole (take (part_of low p) p))), (filter_whole _ (whole (drop (end_it up p) p))) by (intros x Hx; apply (outside_window low up p Hok Hle); auto).
Qed.
Lemma part_size_ok p : part_size p = length (whole p).
Proof.
  unfold part_size, whole. enough (forall n, foldl (fun size bm => (size + length bm.2)%nat) n p = (n + length (concat (p.*2)))%nat) as H by apply H.
  induction p as [|bm p IH]; intros n; cbn; [lia|]. rewrite IH, length_app. lia.
Qed.
Lemma part_clear_ok p : part_ok p -> part_ok (part_clear p) /\ whole (part_clear p) = [].
Proof.
  intros Hok. unfold part_clear. split.
  - apply (part_ok_contents p _ Hok); [by rewrite <- list_fmap_compose|]. intros i b m Hi. rewrite list_lookup_fmap in Hi. apply fmap_Some in Hi as (bm0 & _ & [= -> ->]). split; [constructor|]. intros x Hx. by apply not_elem_of_nil in Hx.
  - unfold whole. clear Hok. induction p as [|bm p IH]; [done|]. exact IH.
Qed.

(** Any constructor with a part. *)
Lemma empty_parts_ok (p : part_map) : p <> [] -> ordered p -> (forall i b m, p !! i = Some (b, m) -> m = []) -> part_ok p.
Proof. intros Hs Hk Hp. split; [done|done|]. intros i b m ->%Hp. split; [constructor|]. intros x Hx. by apply not_elem_of_nil in Hx. Qed.
Lemma part_default_ok : part_ok part_default.
Proof. apply empty_parts_ok; [done|repeat constructor|]. intros [|[]] b m Hi; try done. by injection Hi as <- <-. Qed.
Lemma part_steps_ok start end_ step : start <= end_ -> 0 < step -> exists p, part_steps start end_ step = Ok p /\ part_ok p /\ whole p = [] /\
  forall k, k ∈ p.*1 <-> exists i, 0 <= i /\ k = start + i * step /\ k <= end_.
Proof.
  intros Hle Hs. unfold part_steps. destruct (Z.ltb_spec end_ start); [lia|]. destruct (Z.leb_spec step 0); [lia|]. eexists. split; [reflexivity|].
  assert (0 <= (end_ - start) / step) as Hq by (apply Z.div_pos; lia). split; [apply empty_parts_ok|split].
  - by cbn.
  - enough (forall n j, ordered ((fun i => (start + Z.of_nat i * step, [] : container)) <$> seq j n)) as H' by apply H'.
    induction n as [|n IH]; intros j; cbn; constructor; [apply IH|]. apply list.Forall_forall. intros y (i & -> & Hi)%list_elem_of_fmap. apply elem_of_seq in Hi. cbn. nia.
  - intros i b m Hi. rewrite list_lookup_fmap in Hi. apply fmap_Some in Hi as (j & _ & [= -> ->]). done.
  - unfold whole. rewrite <- list_fmap_compose. generalize (seq 0 (S (Z.to_nat ((end_ - start) / step)))). intros l. induction l; [done|]. done.
  - intros k. rewrite <- list_fmap_compose, list_elem_of_fmap. setoid_rewrite elem_of_seq. cbn. split.
    + intros (i & -> & _ & Hi). exists (Z.of_nat i). split; [lia|]. split; [done|]. pose proof (Z.mul_div_le (end_ - start) step ltac:(lia)). nia.
    + intros (i & Hi & -> & Hu). exists (Z.to_nat i). split; [f_equal; lia|]. assert (i <= (end_ - start) / step) by (apply Z.div_le_lower_bound; nia). lia.
Qed.
Lemma part_list_ok il : il <> [] -> part_ok (part_list il) /\ whole (part_list il) = [].
Proof.
  intros Hil. unfold part_list. assert (forall p : part_map, (il <> [] \/ p <> []) -> ordered p -> (forall i b m, p !! i = Some (b, m) -> m = []) ->
    part_ok (foldl (fun p i => map_emplace i [] p) p il) /\ whole (foldl (fun p i => map_emplace i [] p) p il) = []) as Hgen; [|apply Hgen; [auto|constructor|done]].
  clear Hil. induction il as [|k il IH]; intros p Hne Ho He; cbn [foldl].
  - destruct Hne as [|Hp]; [done|]. split; [by apply empty_parts_ok|]. destruct (whole p) as [|x l] eqn:E; [done|].
    assert (x ∈ whole p) as (i & b & m & Hi & Hx)%elem_of_whole by (rewrite E; left). apply He in Hi as ->. by apply not_elem_of_nil in Hx.
  - apply IH; [right|by apply ordered_emplace|].
    + destruct p as [|[k' m'] p]; [done|]. cbn. by destruct (k <? k'), (k =? k').
    + intros i b m Hi. assert ((b, m) ∈ map_emplace k [] p) as Hx by (by eapply list_elem_of_lookup_2). apply elem_of_emplace in Hx as [[j Hj]%list_elem_of_lookup|[= -> ->]]; [by eapply He|done].
Qed.

(** * Programs *)
Inductive pm_op := PmEmplace (k : Z) (v : V) | PmErase (k : Z) | PmEqual (k : Z) | PmRange (low up : Z) | PmEraseRange (low up : Z) | PmSize | PmClear.
Inductive pm_answer := PmDone | PmNum (n : nat) | PmFound (l : container).

Definition pm_exec (o : pm_op) (p : part_map) : res (part_map * pm_answer) :=
  match o with
  | PmEmplace k v => p ← part_emplace k v p; Ok (p, PmDone)
  | PmErase k => '(p, n) ← part_erase k p; Ok (p, PmNum n)
  | PmEqual k => r ← get_range_equal k p; Ok (p, PmFound r)
  | PmRange low up => r ← get_range_lower_upper low up p; Ok (p, PmFound r)
  | PmEraseRange low up => p ← erase_lower_upper low up p; Ok (p, PmDone)
  | PmSize => Ok (p, PmNum (part_size p))
  | PmClear => Ok (part_clear p, PmDone)
  end.
Fixpoint pm_run (ops : list pm_op) (p : part_map) : res (part_map * list pm_answer) :=
  match ops with
  | [] => Ok (p, [])
  | o :: ops => '(p, a) ← pm_exec o p; '(p, aa) ← pm_run ops p; Ok (p, a :: aa)
  end.

(** The same on one map. *)
Definition one_exec (o : pm_op) (m : container) : container * pm_answer :=
  match o with
  | PmEmplace k v => (map_emplace k v m, PmDone)
  | PmErase k => let '(m, n) := map_erase k m in (m, PmNum n)
  | PmEqual k => (m, PmFound (filter (within k k) m))
  | PmRange low up => (m, PmFound (filter (within low up) m))
  | PmEraseRange low up => (filter (fun x => ~ within low up x) m, PmDone)
  | PmSize => (m, PmNum (length m))
  | PmClear => ([], PmDone)
  end.
Fixpoint one_run (ops : list pm_op) (m : container) : container * list pm_answer :=
  match ops with
  | [] => (m, [])
  | o :: ops => let '(m, a) := one_exec o m in let '(m, aa) := one_run ops m in (m, a :: aa)
  end.
Definition pm_valid (o : pm_op) : Prop := match o with PmRange low up | PmEraseRange low up => low <= up | _ => True end.

Lemma pm_exec_ok o p : part_ok p -> pm_valid o -> exists p' a, pm_exec o p = Ok (p', a) /\ part_ok p' /\ one_exec o (whole p) = (whole p', a).
Proof.
  intros Hok Hv. destruct o as [k v|k|k|low up|low up| |]; cbn [pm_exec one_exec].
  - destruct (part_emplace_ok k v p Hok) as (p' & -> & Hok' & <-). by eexists _, _.
  - destruct (part_erase_ok k p Hok) as (p' & -> & Hok' & E). destruct (map_erase k (whole p)) as [m n]. cbn in *. subst m. by eexists _, _.
  - rewrite get_range_equal_ok by done. by eexists _, _.
  - rewrite get_range_ok by done. by eexists _, _.
  - destruct (erase_range_ok low up p Hok Hv) as (p' & -> & Hok' & <-). by eexists _, _.
  - rewrite part_size_ok. by eexists _, _.
  - destruct (part_clear_ok p Hok) as [Hok' E]. eexists _, _. split; [reflexivity|]. by rewrite E.
Qed.
End part_map.
Arguments pm_op : clear implicits.
Arguments pm_answer : clear implicits.

(** C39: the parts are one map. From any well-formed partition, every program of
    insertions, look-ups, ranges and deletions returns, answers what an ordered
    map answers, ranges in the order of the keys across the parts, and leaves a
    well-formed partition of that map. *)
Theorem partitioned_map_refines {V : Type} (ops : list (pm_op V)) (p : list (Z * list (Z * V))) : part_ok p -> Forall pm_valid ops ->
  exists p' aa, pm_run ops p = Ok (p', aa) /\ part_ok p' /\ one_run ops (whole p) = (whole p', aa).
Proof.
  intros Hok Hv. revert p Hok. induction Hv as [|o ops Hv _ IH]; intros p Hok; cbn [pm_run one_run]; [by eexists _, _|].
  destruct (pm_exec_ok o p Hok Hv) as (p1 & a & -> & Hok1 & ->). cbn [mbind res_bind]. destruct (IH p1 Hok1) as (p2 & aa & -> & Hok2 & ->). by eexists _, _.
Qed.

Definition demo_parts : list (pm_op nat) := [PmEmplace 7 1%nat; PmEmplace 25 2%nat; PmEmplace 99 3%nat; PmEmplace (-4) 4%nat; PmRange 0 30; PmEraseRange 20 200; PmEqual 7; PmSize].
Lemma partitioned_map_refines_witness : exists p aa, pm_run demo_parts (part_list [20; 10; 30]) = Ok (p, aa) /\
  aa = [PmDone; PmDone; PmDone; PmDone; PmFound [(7, 1%nat); (25, 2%nat)]; PmDone; PmFound [(7, 1%nat)]; PmNum 2] /\ one_run demo_parts [] = (whole p, aa).
Proof.
  destruct (partitioned_map_refines demo_parts (part_list [20; 10; 30])) as (p & aa & H1 & H2 & H3).
  - by apply part_list_ok.
  - repeat constructor; done.
  - exists p, aa. split; [exact H1|]. split; [|exact H3]. vm_compute in H1. injection H1 as <- <-. vm_compute. reflexivity.
Defined.

(** A range whose ends are in the wrong order leaves the container. *)
Lemma range_in_wrong_order : get_range_lower_upper 9 5 [(0, [(7, ())])] = Fault IterPastEnd.
Proof. reflexivity. Qed.
(** A step of zero does not end; a map without parts has none to look in. *)
Lemma constructors_without_end : part_steps (V := unit) 0 10 0 = Fault Diverges /\ part_it (V := unit) 5 [] = Fault IterPastEnd.
Proof. done. Qed.
