(* ===== verification/WaiterClose.v ===== *)
(** Closing a waiter that somebody sleeps on
    ([shm-ipc/src/libipc/waiter_helper.h]): [wait_if] with the flags of its
    handle, [notify], [broadcast] and [quit_waiting], every access to shared
    memory a step of its own. ([Waiter] has the loop around [wait_if] and leaves
    the flags out.) *)
From stdpp Require Import prelude list.
From Stdlib Require Import ZArith Lia.
From S2P Require Import Prelude Cpp Interleave.

Open Scope Z_scope.

(** * State *)
(** What is waited for, [wait_counter], [lock_], the semaphores, and the flags of
    each handle, [wait_flags]. *)
Record wait_flags := mk_wait_flags { is_waiting_ : bool; is_closed_ : bool; need_dest_ : bool }.
Record cwaiter := mk_cwaiter {
  cw_items : nat; cw_waiting : Z; cw_counter : Z; cw_locked : bool; cw_sema : nat; cw_shake : nat; cw_flags : list wait_flags }.

Definition cw_set_items x (g : cwaiter) := mk_cwaiter x (cw_waiting g) (cw_counter g) (cw_locked g) (cw_sema g) (cw_shake g) (cw_flags g).
Definition cw_set_waiting x (g : cwaiter) := mk_cwaiter (cw_items g) x (cw_counter g) (cw_locked g) (cw_sema g) (cw_shake g) (cw_flags g).
Definition cw_set_counter x (g : cwaiter) := mk_cwaiter (cw_items g) (cw_waiting g) x (cw_locked g) (cw_sema g) (cw_shake g) (cw_flags g).
Definition cw_set_locked x (g : cwaiter) := mk_cwaiter (cw_items g) (cw_waiting g) (cw_counter g) x (cw_sema g) (cw_shake g) (cw_flags g).
Definition cw_set_sema x (g : cwaiter) := mk_cwaiter (cw_items g) (cw_waiting g) (cw_counter g) (cw_locked g) x (cw_shake g) (cw_flags g).
Definition cw_set_shake x (g : cwaiter) := mk_cwaiter (cw_items g) (cw_waiting g) (cw_counter g) (cw_locked g) (cw_sema g) x (cw_flags g).
Definition cw_alter h f (g : cwaiter) := mk_cwaiter (cw_items g) (cw_waiting g) (cw_counter g) (cw_locked g) (cw_sema g) (cw_shake g) (alter f h (cw_flags g)).
Definition no_flags : wait_flags := mk_wait_flags false true false.
Definition flags_of (h : nat) (g : cwaiter) : wait_flags := default no_flags (cw_flags g !! h).
Definition put_waiting b (f : wait_flags) := mk_wait_flags b (is_closed_ f) (need_dest_ f).
Definition put_closed b (f : wait_flags) := mk_wait_flags (is_waiting_ f) b (need_dest_ f).
Definition put_dest b (f : wait_flags) := mk_wait_flags (is_waiting_ f) (is_closed_ f) b.

(** On handle [h]. *)
Inductive cw_op := WaitOn (h : nat) | Put | NotifyOne | NotifyAll | Close (h : nat).

(** [notify] posts one permit and takes one off the count, [broadcast] posts as
    many as are counted and takes them off, [quit_waiting] posts as many and takes
    one off. *)
Inductive wake := One | All | Quit.

Inductive cw_pc :=
  | CwIdle
  (* wait_if *)
  | FClosed (h : nat)
  | FEnter (h : nat)
  | FMark (h : nat)
  | FLock (h : nat)
  | FPred (h : nat)
  | FFound (h : nat)
  | FFoundLeave (h : nat)
  | FFoundUnmark (h : nat)
  | FCount (h : nat)
  | FUnlock (h : nat)
  | FLoad (h : nat)
  | FLoadClosed (h : nat) (is_waiting : bool)
  | FNoDest (h : nat)
  | FDest (h : nat)
  | FWaitShort (h : nat)
  | FWait (h : nat)
  | FAgain (h : nat) (ret : bool)
  | FLeave (h : nat) (ret : bool)
  | FUnmark (h : nat) (ret : bool)
  | FShake (ret : bool)
  (* notify and broadcast, and the end of quit_waiting *)
  | NLoad (k : wake)
  | NLock (k : wake)
  | NTest (k : wake)
  | NPost (k : wake) (left : nat)
  | NDec (k : wake) (ret : bool)
  | NShake (k : wake) (ret : bool)
  | NUnlock
  (* waiter_wrapper::close and quit_waiting *)
  | QClosed (h : nat)
  | QDest (h : nat)
  | QXchg (h : nat).

Record cw_thread := mk_cw_thread { cw_todo : list cw_op; cw_at : cw_pc; cw_answers : list bool }.
Definition cw_to (p : cw_pc) (l : cw_thread) := mk_cw_thread (cw_todo l) p (cw_answers l).
Definition cw_answer (b : bool) (l : cw_thread) := mk_cw_thread (cw_todo l) CwIdle (cw_answers l ++ [b]).

(** * [wait_if] *)
(** [w]: a wait is over without a permit. [None]: blocked. *)
Definition wait_if_step (w : bool) (g : cwaiter) (l : cw_thread) : option (cwaiter * cw_thread) :=
  match cw_at l with
  | FClosed h => Some (g, if is_closed_ (flags_of h g) then cw_answer false l else cw_to (FEnter h) l)
  | FEnter h => Some (cw_set_waiting (u32 (cw_waiting g + 1)) g, cw_to (FMark h) l)
  | FMark h => Some (cw_alter h (put_waiting true) g, cw_to (FLock h) l)
  | FLock h => if cw_locked g then None else Some (cw_set_locked true g, cw_to (FPred h) l)
  | FPred h =>
      match cw_items g with
      | S n => Some (cw_set_items n g, cw_to (FFound h) l)
      | O => Some (g, cw_to (FCount h) l)
      end
  | FFound h => Some (cw_set_locked false g, cw_to (FFoundLeave h) l)
  | FFoundLeave h => Some (cw_set_waiting (u32 (cw_waiting g - 1)) g, cw_to (FFoundUnmark h) l)
  | FFoundUnmark h => Some (cw_alter h (put_waiting false) g, cw_answer true l)
  | FCount h => Some (cw_set_counter (cw_counter g + 1) g, cw_to (FUnlock h) l)
  | FUnlock h => Some (cw_set_locked false g, cw_to (FLoad h) l)
  | FLoad h => Some (g, cw_to (FLoadClosed h (is_waiting_ (flags_of h g))) l)
  | FLoadClosed h is_waiting => Some (g, cw_to (if negb is_waiting || is_closed_ (flags_of h g) then FNoDest h else FDest h) l)
  | FNoDest h => Some (cw_alter h (put_dest false) g, cw_to (FLeave h false) l)
  | FDest h => Some (cw_alter h (put_dest false) g, cw_to (if need_dest_ (flags_of h g) then FWaitShort h else FWait h) l)
  | FWaitShort h =>
      match cw_sema g with
      | S n => if w then Some (g, cw_to (FLeave h false) l) else Some (cw_set_sema n g, cw_to (FLeave h false) l)
      | O => if w then Some (g, cw_to (FLeave h false) l) else None
      end
  | FWait h =>
      match cw_sema g with
      | S n => if w then Some (g, cw_to (FAgain h false) l) else Some (cw_set_sema n g, cw_to (FAgain h true) l)
      | O => if w then Some (g, cw_to (FAgain h false) l) else None
      end
  | FAgain h ret => Some (g, cw_to (if need_dest_ (flags_of h g) then FLoad h else FLeave h ret) l)
  | FLeave h ret => Some (cw_set_waiting (u32 (cw_waiting g - 1)) g, cw_to (FUnmark h ret) l)
  | FUnmark h ret => Some (cw_alter h (put_waiting false) g, cw_to (FShake ret) l)
  | FShake ret => Some (cw_set_shake (S (cw_shake g)) g, cw_answer ret l)
  | _ => None
  end.

(** * Waking up *)
Definition wake_step (w : bool) (g : cwaiter) (l : cw_thread) : option (cwaiter * cw_thread) :=
  match cw_at l with
  | NLoad k => Some (g, cw_to (if cw_waiting g =? 0 then CwIdle else NLock k) l)
  | NLock k => if cw_locked g then None else Some (cw_set_locked true g, cw_to (NTest k) l)
  | NTest k =>
      Some (g, cw_to (if 0 <? cw_counter g then NPost k (match k with One => 1 | _ => Z.to_nat (cw_counter g) end) else NUnlock) l)
  | NPost k (S n) => Some (cw_set_sema (S (cw_sema g)) g, cw_to (NPost k n) l)
  | NPost k O => Some (g, cw_to (NDec k true) l)
  | NDec k ret => Some (cw_set_counter (cw_counter g - 1) g, cw_to (NShake k ret) l)
  | NShake k ret =>
      let next ret := cw_to (match k with All => if 0 <? cw_counter g then NDec k ret else NUnlock | _ => NUnlock end) l in
      if negb ret || w then Some (g, next false)
      else match cw_shake g with S n => Some (cw_set_shake n g, next true) | O => None end
  | NUnlock => Some (cw_set_locked false g, cw_to CwIdle l)
  (* close *)
  | QClosed h => Some (cw_alter h (put_closed true) g, cw_to (QDest h) l)
  | QDest h => Some (cw_alter h (put_dest true) g, cw_to (QXchg h) l)
  | QXchg h => Some (cw_alter h (put_waiting false) g, cw_to (if is_waiting_ (flags_of h g) then NLoad Quit else CwIdle) l)
  | _ => None
  end.

Definition cw_begin (o : cw_op) : cw_pc :=
  match o with WaitOn h => FClosed h | NotifyOne => NLoad One | NotifyAll => NLoad All | Close h => QClosed h | Put => CwIdle end.

Definition cw_step (w : bool) (g : cwaiter) (l : cw_thread) : option (cwaiter * cw_thread * list unit) :=
  match cw_at l with
  | CwIdle =>
      match cw_todo l with
      | [] => None
      | Put :: ops => Some (cw_set_items (S (cw_items g)) g, mk_cw_thread ops CwIdle (cw_answers l), [])
      | o :: ops => Some (g, mk_cw_thread ops (cw_begin o) (cw_answers l), [])
      end
  | _ => '(g, l) ← match wait_if_step w g l with Some r => Some r | None => wake_step w g l end; Some (g, l, [])
  end.

(** [n] handles, open. *)
Definition cw_start (n : nat) (progs : list (list cw_op)) : sys cwaiter cw_thread :=
  (mk_cwaiter 0 0 0 false 0 0 (replicate n (mk_wait_flags false false false)), (fun ops => mk_cw_thread ops CwIdle []) <$> progs).
Definition cw_run : sys cwaiter cw_thread -> list (nat * bool) -> sys cwaiter cw_thread * list (event unit) := sys_run cw_step.

(** With two sleepers, [quit_waiting] of one handle posts two permits and waits
    for one of them to be taken: the other sleeper can take the first, a third
    thread that comes to wait the second, and the handle's own sleeper stays
    asleep, although its handle is closed. *)
Lemma closed_waiter_left_asleep :
  let s := (cw_run (cw_start 3 [[WaitOn 0]; [Close 0]; [WaitOn 1]; [WaitOn 2]])
    ((fun i => (i, false)) <$> concat [replicate 11 0; replicate 11 2; replicate 11 1; replicate 5 2; replicate 6 1; replicate 16 3]%nat)).1 in
  (cw_at <$> s.2, cw_sema s.1, is_closed_ (flags_of 0 s.1), cw_answers <$> s.2) = ([FWait 0; CwIdle; CwIdle; CwIdle], 0%nat, true, [[]; []; [true]; [true]]).
Proof. vm_compute. reflexivity. Qed.

(** * One sleeper

    Thread 0 waits on handle 0, thread 1 closes it, the others put and wake. *)
Definition is_wait (o : cw_op) : bool := match o with WaitOn 0 => true | _ => false end.
Definition is_send (o : cw_op) : bool := match o with Put | NotifyOne | NotifyAll => true | _ => false end.

(** Beside the state: who has [lock_]; of thread 0, whether it is counted and has
    not had a permit, is past the test of [is_closed_] on the way to sleep, is
    counted in [waiting_]; and whether thread 1 has taken [is_waiting_] off. *)
Record cw_aux := mk_cw_aux { holder : option nat; commit : bool; danger : bool; inside : bool; xchg : bool }.

Definition sleeper (l : cw_thread) : bool := match cw_at l with FDest _ | FWait _ => true | _ => false end.
Definition counted (l : cw_thread) : bool :=
  match cw_at l with
  | FMark _ | FLock _ | FPred _ | FFound _ | FFoundLeave _ | FCount _ | FUnlock _ | FLoad _ | FLoadClosed _ _ | FNoDest _ | FDest _ | FWaitShort _ | FWait _ | FAgain _ _ | FLeave _ _ => true
  | _ => false
  end.
Definition locks (l : cw_thread) : bool :=
  match cw_at l with FPred _ | FFound _ | FCount _ | FUnlock _ | NTest _ | NPost _ _ | NDec _ _ | NShake _ _ | NUnlock => true | _ => false end.
Definition on_handle (l : cw_thread) : Prop :=
  match cw_at l with
  | FClosed h | FEnter h | FMark h | FLock h | FPred h | FFound h | FFoundLeave h | FFoundUnmark h | FCount h | FUnlock h | FLoad h | FLoadClosed h _
  | FNoDest h | FDest h | FWaitShort h | FWait h | FAgain h _ | FLeave h _ | FUnmark h _ => h = 0%nat
  | CwIdle | FShake _ => True
  | _ => False
  end.

Record cw_global (n : nat) (g : cwaiter) (a : cw_aux) (es : list (event unit)) : Prop := {
  cg_flags : (0 < length (cw_flags g))%nat;
  cg_lock : cw_locked g = bool_decide (is_Some (holder a));
  cg_count : 0 <= cw_counter g;
  cg_commit : commit a = true -> (1 <= cw_sema g)%nat \/ 1 <= cw_counter g;
  cg_waiting : cw_waiting g = Z.b2z (inside a);
  cg_danger : danger a = true -> commit a = true /\ inside a = true /\ (is_waiting_ (flags_of 0 g) = true \/ xchg a = true);
  cg_dest : need_dest_ (flags_of 0 g) = true -> is_closed_ (flags_of 0 g) = true;
  cg_xchg : xchg a = true -> is_closed_ (flags_of 0 g) = true }.

(** The thread that waits. *)
Definition waits_ok (g : cwaiter) (a : cw_aux) (l : cw_thread) : Prop :=
  on_handle l /\ forallb is_wait (cw_todo l) = true /\ danger a = sleeper l /\ inside a = counted l /\
  match cw_at l with
  | FLock _ | FPred _ | FCount _ => commit a = false /\ (is_waiting_ (flags_of 0 g) = true \/ xchg a = true)
  | FUnlock _ | FDest _ | FWait _ => commit a = true /\ (is_waiting_ (flags_of 0 g) = true \/ xchg a = true)
  | FLoad _ => (commit a = true \/ is_closed_ (flags_of 0 g) = true) /\ (is_waiting_ (flags_of 0 g) = true \/ xchg a = true)
  | FLoadClosed _ b => (commit a = true \/ is_closed_ (flags_of 0 g) = true) /\ (b = true -> is_waiting_ (flags_of 0 g) = true \/ xchg a = true)
  | FAgain _ _ => commit a = false /\ (is_waiting_ (flags_of 0 g) = true \/ xchg a = true)
  | _ => commit a = false
  end.

(** A thread that wakes, whatever it does that for. *)
Definition wakes_ok (g : cwaiter) (a : cw_aux) (l : cw_thread) : Prop :=
  match cw_at l with
  | NPost _ n => 1 <= cw_counter g /\ (commit a = true -> (1 <= n + cw_sema g)%nat)
  | NDec _ _ => 1 <= cw_counter g /\ (commit a = true -> (1 <= cw_sema g)%nat)
  | NShake _ _ | NUnlock => commit a = true -> (1 <= cw_sema g)%nat
  | _ => True
  end.
Definition kind_of (l : cw_thread) : option wake :=
  match cw_at l with NLoad k | NLock k | NTest k | NPost k _ | NDec k _ | NShake k _ => Some k | _ => None end.

(** The thread that closes, and those that send. *)
Definition closes_ok (g : cwaiter) (a : cw_aux) (l : cw_thread) : Prop :=
  wakes_ok g a l /\
  match cw_at l with
  | CwIdle => (cw_todo l = [Close 0] /\ xchg a = false) \/ (cw_todo l = [] /\ is_closed_ (flags_of 0 g) = true /\ (danger a = true -> (1 <= cw_sema g)%nat))
  | QClosed h => h = 0%nat /\ cw_todo l = [] /\ xchg a = false
  | QDest h | QXchg h => h = 0%nat /\ cw_todo l = [] /\ xchg a = false /\ is_closed_ (flags_of 0 g) = true
  | NUnlock => cw_todo l = [] /\ is_closed_ (flags_of 0 g) = true
  | _ => kind_of l = Some Quit /\ cw_todo l = [] /\ is_closed_ (flags_of 0 g) = true
  end.
Definition sends_ok (g : cwaiter) (a : cw_aux) (l : cw_thread) : Prop :=
  wakes_ok g a l /\ forallb is_send (cw_todo l) = true /\ match cw_at l with CwIdle | NUnlock => True | _ => kind_of l = Some One \/ kind_of l = Some All end.

Record cw_local (i : nat) (g : cwaiter) (a : cw_aux) (l : cw_thread) : Prop := {
  cl_lock : locks l = true <-> holder a = Some i;
  cl_role : match i with 0 => waits_ok g a l | 1 => closes_ok g a l | _ => sends_ok g a l end%nat }.

Record cw_guar (i : nat) (g : cwaiter) (a : cw_aux) (g' : cwaiter) (a' : cw_aux) : Prop := {
  gu_holder j : j <> i -> holder a' = Some j <-> holder a = Some j;
  gu_locked j : j <> i -> holder a = Some j -> cw_counter g' = cw_counter g /\ (commit a' = true -> commit a = true);
  gu_sema : commit a' = true -> commit a = true -> (cw_sema g <= cw_sema g')%nat;
  gu_w : i <> 0%nat -> commit a' = commit a /\ danger a' = danger a /\ inside a' = inside a /\
    (is_waiting_ (flags_of 0 g') = is_waiting_ (flags_of 0 g) \/ xchg a' = true) /\ (xchg a = true -> xchg a' = true);
  gu_q : i <> 1%nat -> xchg a' = xchg a /\ is_closed_ (flags_of 0 g') = is_closed_ (flags_of 0 g);
  gu_closed : is_closed_ (flags_of 0 g) = true -> is_closed_ (flags_of 0 g') = true;
  gu_danger : is_closed_ (flags_of 0 g) = true -> danger a' = true -> danger a = true /\ commit a = true /\ commit a' = true }.

Lemma wakes_stable i j g a g' a' l : j <> i -> cw_guar i g a g' a' -> (locks l = true <-> holder a = Some j) -> wakes_ok g a l -> wakes_ok g' a' l.
Proof.
  intros Hne [_ Gl Gs _ _ _ _] Hl Hw. unfold wakes_ok, locks in *. destruct (cw_at l); try done;
    destruct (Gl j Hne ltac:(by apply Hl)) as [Ec Hc]; rewrite ?Ec; intuition lia.
Qed.

Lemma cw_stable i j g a g' a' l : i <> j -> cw_guar i g a g' a' -> cw_local j g a l -> cw_local j g' a' l.
Proof.
  intros Hne Hg [Hl Hr]. assert (j <> i) as Hne' by done. pose proof Hg as [Gh Gl Gs Gw Gq Gc Gd]. split; [by rewrite Gh|].
  destruct j as [|[|j]].
  - destruct (Gw Hne) as (Ec & Ed & Ei & Ew & Ex). destruct Hr as (Ho & Ht & Hd & Hi & Hp). unfold waits_ok. rewrite Ec, Ed, Ei. repeat split; try done.
    assert (is_waiting_ (flags_of 0 g) = true \/ xchg a = true -> is_waiting_ (flags_of 0 g') = true \/ xchg a' = true) as Hm.
    { intros [E|E]; [|right; by apply Ex]. destruct Ew as [->|]; [by left|by right]. }
    destruct (cw_at l); try done; intuition.
  - destruct (Gq Hne) as (Ex & Ec). destruct Hr as (Hw & Hp). split; [by eapply (wakes_stable i 1)|]. rewrite Ex, Ec.
    destruct (cw_at l); try done. destruct Hp as [|(? & Hcl & Hd)]; [by left|right]. repeat split; try done. intros Hd'. destruct (Gd Hcl Hd') as (Hd0 & Hc & Hc'). specialize (Gs Hc' Hc). specialize (Hd Hd0). lia.
  - destruct Hr as (Hw & Hp). split; [by eapply (wakes_stable i (S (S j)))|done].
Qed.

Definition cw_goes_on (n i : nat) (es : list (event unit)) (g : cwaiter) (a : cw_aux) (g' : cwaiter) (l' : cw_thread) : Prop :=
  exists a', cw_global n g' a' (es ++ (pair i <$> [])) /\ cw_local i g' a' l' /\ cw_guar i g a g' a'.

(** The parts of the state as variables. *)
Ltac cw_open g a l :=
  destruct g as [it wt ct lk sm sk [|[iw ic nd] fls]]; [exfalso; match goal with H : cw_global _ _ _ _ |- _ => destruct H as [Hx]; cbn in Hx; lia end|];
  destruct a as [ho co da ins xc]; destruct l as [ops p ans].
Ltac cw_cbn :=
  unfold cw_to, cw_answer, waits_ok, closes_ok, sends_ok, wakes_ok, on_handle, sleeper, counted, locks, kind_of, flags_of,
    cw_set_items, cw_set_waiting, cw_set_counter, cw_set_locked, cw_set_sema, cw_set_shake, cw_alter, put_waiting, put_closed, put_dest in *;
  cbn [cw_items cw_waiting cw_counter cw_locked cw_sema cw_shake cw_flags cw_todo cw_at cw_answers holder commit danger inside xchg
    is_waiting_ is_closed_ need_dest_ lookup list_lookup default from_option alter list_alter length forallb is_wait is_send andb id] in *.

Ltac cw_with a' :=
  exists a'; rewrite app_nil_r; split; [split|split; [split|split]]; cw_cbn; try done; try lia; try (intuition (try done; try congruence; try lia)).

Lemma wait_if_step_ok n es w g a l g' l' : cw_global n g a es -> cw_local 0 g a l -> wait_if_step w g l = Some (g', l') -> cw_goes_on n 0 es g a g' l'.
Proof.
  intros Hg Hl Hs. cw_open g a l. pose proof Hg as [_ G2 G3 G4 G5 G6 G7 G8]. pose proof Hl as [Hk (L1 & L2 & L3 & L4 & L5)]. unfold wait_if_step in Hs. cw_cbn.
  clear Hg Hl. destruct p; try done; subst; cbn [Z.b2z] in *.
  - injection Hs as <- <-. destruct ic; cw_with (mk_cw_aux ho false false false xc).
  - injection Hs as <- <-. cw_with (mk_cw_aux ho false false true xc).
  - injection Hs as <- <-. cw_with (mk_cw_aux ho false false true xc).
  - destruct ho as [o|]; [done|]. injection Hs as <- <-. cw_with (mk_cw_aux (Some 0%nat) co false true xc).
  - assert (ho = Some 0%nat) as -> by (by apply Hk). destruct it; injection Hs as <- <-; cw_with (mk_cw_aux (Some 0%nat) co false true xc).
  - assert (ho = Some 0%nat) as -> by (by apply Hk). injection Hs as <- <-. cw_with (mk_cw_aux None false false true xc).
  - injection Hs as <- <-. cw_with (mk_cw_aux ho false false false xc).
  - injection Hs as <- <-. cw_with (mk_cw_aux ho false false false xc).
  - assert (ho = Some 0%nat) as -> by (by apply Hk). injection Hs as <- <-. cw_with (mk_cw_aux (Some 0%nat) true false true xc).
  - assert (ho = Some 0%nat) as -> by (by apply Hk). injection Hs as <- <-. cw_with (mk_cw_aux None co false true xc).
  - injection Hs as <- <-. cw_with (mk_cw_aux ho co false true xc).
  - injection Hs as <- <-. destruct is_waiting; [destruct ic|]; cbn [negb orb].
    + cw_with (mk_cw_aux ho false false true xc).
    + cw_with (mk_cw_aux ho co true true xc).
    + cw_with (mk_cw_aux ho false false true xc).
  - injection Hs as <- <-. cw_with (mk_cw_aux ho false false true xc).
  - injection Hs as <- <-. destruct nd; [cw_with (mk_cw_aux ho false false true xc)|cw_with (mk_cw_aux ho co true true xc)].
  - destruct sm, w; try done; injection Hs as <- <-; cw_with (mk_cw_aux ho false false true xc).
  - destruct sm, w; try done; injection Hs as <- <-; cw_with (mk_cw_aux ho false false true xc).
  - injection Hs as <- <-. destruct nd; cw_with (mk_cw_aux ho false false true xc).
  - injection Hs as <- <-. cw_with (mk_cw_aux ho false false false xc).
  - injection Hs as <- <-. cw_with (mk_cw_aux ho false false false xc).
  - injection Hs as <- <-. cw_with (mk_cw_aux ho false false false xc).
Qed.

Lemma send_step_ok n j es w g a l g' l' : cw_global n g a es -> cw_local (S (S j)) g a l -> wake_step w g l = Some (g', l') -> cw_goes_on n (S (S j)) es g a g' l'.
Proof.
  intros Hg Hl Hs. cw_open g a l. pose proof Hg as [_ G2 G3 G4 G5 G6 G7 G8]. pose proof Hl as [Hk (L1 & L2 & L3)]. unfold wake_step in Hs. cw_cbn.
  clear Hg Hl. destruct p; try done; subst; try (by destruct L3); try (assert (ho = Some (S (S j))) as -> by (by apply Hk)).
  - injection Hs as <- <-. destruct (Z.b2z ins =? 0); cw_with (mk_cw_aux ho co da ins xc).
  - destruct ho as [o|]; [done|]. injection Hs as <- <-. cw_with (mk_cw_aux (Some (S (S j))) co da ins xc).
  - injection Hs as <- <-. destruct (Z.ltb_spec 0 ct); cw_with (mk_cw_aux (Some (S (S j))) co da ins xc). all: destruct k; lia.
  - destruct left; injection Hs as <- <-; cw_with (mk_cw_aux (Some (S (S j))) co da ins xc).
  - injection Hs as <- <-. cw_with (mk_cw_aux (Some (S (S j))) co da ins xc).
  - destruct (negb ret || w); [|destruct sk as [|sk]; [done|]]; injection Hs as <- <-; destruct k; try destruct (Z.ltb_spec 0 ct); cw_with (mk_cw_aux (Some (S (S j))) co da ins xc).
  - injection Hs as <- <-. cw_with (mk_cw_aux None co da ins xc).
Qed.

Lemma close_step_ok n es w g a l g' l' : cw_global n g a es -> cw_local 1 g a l -> wake_step w g l = Some (g', l') -> cw_goes_on n 1 es g a g' l'.
Proof.
  intros Hg Hl Hs. cw_open g a l. pose proof Hg as [_ G2 G3 G4 G5 G6 G7 G8]. pose proof Hl as [Hk (L1 & L3)]. unfold wake_step in Hs. cw_cbn.
  clear Hg Hl. destruct p; try done; try (by destruct L3); try (assert (ho = Some 1%nat) as -> by (by apply Hk)).
  - destruct L3 as ([= ->] & -> & ->). injection Hs as <- <-. destruct ins; subst; cbn [Z.b2z Z.eqb]; [cw_with (mk_cw_aux ho co da true xc)|cw_with (mk_cw_aux ho co da false xc)].
  - destruct L3 as ([= ->] & -> & ->). destruct ho as [o|]; [subst; done|]. subst. injection Hs as <- <-. cw_with (mk_cw_aux (Some 1%nat) co da ins xc).
  - destruct L3 as ([= ->] & -> & ->). injection Hs as <- <-. destruct (Z.ltb_spec 0 ct); cw_with (mk_cw_aux (Some 1%nat) co da ins xc).
  - destruct L3 as ([= ->] & -> & ->). destruct left; injection Hs as <- <-; cw_with (mk_cw_aux (Some 1%nat) co da ins xc).
  - destruct L3 as ([= ->] & -> & ->). injection Hs as <- <-. cw_with (mk_cw_aux (Some 1%nat) co da ins xc).
  - destruct L3 as ([= ->] & -> & ->). destruct (negb ret || w); [|destruct sk as [|sk]; [done|]]; injection Hs as <- <-; cw_with (mk_cw_aux (Some 1%nat) co da ins xc).
  - destruct L3 as (-> & ->). injection Hs as <- <-. cw_with (mk_cw_aux None co da ins xc).
  - destruct L3 as (-> & -> & ->). injection Hs as <- <-. cw_with (mk_cw_aux ho co da ins false).
  - destruct L3 as (-> & -> & -> & ->). injection Hs as <- <-. cw_with (mk_cw_aux ho co da ins false).
  - destruct L3 as (-> & -> & -> & ->). injection Hs as <- <-. destruct iw; cw_with (mk_cw_aux ho co da ins true).
Qed.

Lemma cw_begin_ok n i es w g a l g' l' new : cw_global n g a es -> cw_local i g a l -> cw_at l = CwIdle -> cw_step w g l = Some (g', l', new) -> new = [] /\ cw_goes_on n i es g a g' l'.
Proof.
  intros Hg Hl Ei Hs. unfold cw_step in Hs. rewrite Ei in Hs. pose proof Hl as [Hk Hr]. cw_open g a l. pose proof Hg as [_ G2 G3 G4 G5 G6 G7 G8]. cbn [cw_at cw_todo] in *. subst p. clear Hg Hl. destruct i as [|[|i]].
  - destruct Hr as (_ & Hf & Hd & Hin & Hc). cw_cbn. subst. destruct ops as [|[[|h]| | | |h] ops]; try done. injection Hs as <- <- <-. split; [done|]. cw_with (mk_cw_aux ho false false false xc).
  - destruct Hr as (_ & [[Ht Hx]|(Ht & _)]); cbn [cw_todo] in Ht; subst ops; [|done]. injection Hs as <- <- <-. split; [done|]. cw_cbn. cw_with (mk_cw_aux ho co da ins xc).
  - destruct Hr as (_ & Hf & _). cw_cbn. destruct ops as [|[[|h]| | | |h] ops]; try done; injection Hs as <- <- <-; (split; [done|]); cw_with (mk_cw_aux ho co da ins xc).
Qed.

Lemma cw_step_ok n i w g a l g' l' es new : (i < n)%nat -> cw_global n g a es -> cw_local i g a l -> True -> cw_step w g l = Some (g', l', new) ->
  exists a', cw_global n g' a' (es ++ (pair i <$> new)) /\ cw_local i g' a' l' /\ cw_guar i g a g' a'.
Proof.
  intros _ Hg Hl _ Hs. enough (new = [] /\ cw_goes_on n i es g a g' l') as [-> H] by exact H.
  assert (cw_at l = CwIdle \/ (match wait_if_step w g l with Some r => Some r | None => wake_step w g l end = Some (g', l') /\ new = [])) as [Ei|[Hm ->]]; [|by eapply cw_begin_ok|split; [done|]].
  { unfold cw_step in Hs. destruct (cw_at l) eqn:Ea; [by left|..]; right; (destruct (wait_if_step w g l) as [[g1 l1]|]; [|destruct (wake_step w g l) as [[g1 l1]|]; [|done]]); by injection Hs as <- <- <-. }
  pose proof (cl_role _ _ _ _ Hl) as Hr. destruct i as [|[|i]].
  - destruct (wait_if_step w g l) as [[g1 l1]|] eqn:E; [injection Hm as <- <-; by eapply wait_if_step_ok|]. destruct Hr as (Ho & _). unfold on_handle, wake_step in *. by destruct (cw_at l).
  - assert (wait_if_step w g l = None) as E by (destruct Hr as (_ & Hp); unfold wait_if_step, kind_of in *; destruct (cw_at l); try done; by destruct Hp). rewrite E in Hm. by eapply close_step_ok.
  - assert (wait_if_step w g l = None) as E by (destruct Hr as (_ & _ & Hp); unfold wait_if_step, kind_of in *; destruct (cw_at l); try done; by destruct Hp). rewrite E in Hm. by eapply send_step_ok.
Qed.

Lemma cw_start_holds n waits sends : (0 < n)%nat -> forallb is_wait waits = true -> Forall (fun ops => forallb is_send ops = true) sends ->
  holds cw_global cw_local (cw_start n (waits :: [Close 0] :: sends)) [].
Proof.
  intros Hn Hw Hs. exists (mk_cw_aux None false false false false). destruct n as [|n]; [lia|]. split; [split; cbn; try done; lia|]. cbn [cw_start fst snd].
  intros i l Hl. rewrite list_lookup_fmap in Hl. apply fmap_Some in Hl as (ops & Ho & ->). split; [done|]. destruct i as [|[|i]]; cbn in Ho.
  - injection Ho as <-. done.
  - injection Ho as <-. split; [done|]. by left.
  - pose proof (Forall_lookup_1 _ _ _ _ Hs Ho). done.
Qed.


(** The sleeper has been posted for and has not moved yet. *)
Definition close_sched : list (nat * bool) := concat [replicate 11 (0, false); replicate 10 (1, false); [(1, true)]; [(1, false)]]%nat.
