(* ===== verification/WaiterImpl.v ===== *)
(** What waiters are made of on Linux
    ([shm-ipc/src/libipc/platform/waiter_linux.h], [waiter_wrapper.h]): absolute
    times for waits, a mutex that survives its owner, named semaphores, and the
    opening and closing of waiters, which are counted in shared memory. Whole
    operations, one after the other; waiting and waking are in [Waiter] and
    [WaiterClose].

    Of POSIX the model has what the code calls: a robust mutex and the codes it
    returns, and semaphores under names, which live on without a name for those
    that have them open. *)
From stdpp Require Import prelude gmap list strings.
From Stdlib Require Import ZArith Lia Ascii.
From S2P Require Import Prelude Cpp.

Open Scope Z_scope.

(** * Times *)
Definition i64 (x : Z) : Z := (x + 2 ^ 63) mod 2 ^ 64 - 2 ^ 63.

Record timeval := mk_timeval { tv_sec : Z; tv_usec : Z }.
Record timespec := mk_timespec { ts_sec : Z; ts_nsec : Z }.

(** [now]: what [gettimeofday] returns, if it does. *)
Definition calc_wait_time (now : option timeval) (tm : Z) : option timespec :=
  match now with
  | None => None
  | Some now =>
      let nsec := i64 (u64 (u64 (u64 (tv_usec now) + u64 ((tm mod 1000) * 1000)) * 1000)) in
      let sec := i64 (u64 (u64 (u64 (tv_sec now) + tm / 1000) + u64 (nsec / 1000000000))) in
      Some (mk_timespec sec (nsec mod 1000000000))
  end.

Lemma i64_small x : 0 <= x < 2 ^ 63 -> i64 x = x.
Proof. intros. unfold i64. rewrite Z.mod_small; lia. Qed.

(** A wait for [tm] milliseconds ends [tm] milliseconds from now, whatever
    number of milliseconds the argument can hold: nothing overflows, and the
    nanoseconds are in the range [sem_timedwait] accepts. *)
Theorem wait_time_exact (now : timeval) (tm : Z) (ts : timespec) :
  0 <= tv_usec now < 1000000 -> 0 <= tv_sec now < 2 ^ 62 -> 0 <= tm < 2 ^ 64 -> calc_wait_time (Some now) tm = Some ts ->
  ts_sec ts * 1000000000 + ts_nsec ts = (tv_sec now * 1000000 + tv_usec now) * 1000 + tm * 1000000 /\ 0 <= ts_nsec ts < 1000000000.
Proof.
  destruct now as [sec usec]. cbn [tv_sec tv_usec]. intros Hu Hs Ht [= <-]. cbn [ts_sec ts_nsec].
  pose proof (Z.mod_pos_bound tm 1000 ltac:(lia)) as Hm. pose proof (Z.div_mod tm 1000 ltac:(lia)) as Hd. set (m := tm mod 1000) in *. set (q := tm / 1000) in *.
  assert (0 <= q < 2 ^ 55) as Hq by lia. clearbody m q. clear Ht.
  rewrite (u64_small usec), (u64_small (m * 1000)), (u64_small (usec + m * 1000)), (u64_small ((usec + m * 1000) * 1000)), (i64_small ((usec + m * 1000) * 1000)) by lia.
  set (ns := (usec + m * 1000) * 1000) in *. pose proof (Z.mod_pos_bound ns 1000000000 ltac:(lia)) as Hn. pose proof (Z.div_mod ns 1000000000 ltac:(lia)) as Hnd.
  assert (0 <= ns / 1000000000 < 2) as Hc by (split; [apply Z.div_pos; lia|apply Z.div_lt_upper_bound; lia]).
  rewrite (u64_small sec), (u64_small (sec + q)), (u64_small (ns / 1000000000)), (u64_small (sec + q + ns / 1000000000)), i64_small by lia. split; [|done]. lia.
Qed.
Lemma wait_time_exact_witness : exists ts, calc_wait_time (Some (mk_timeval 1700000000 999999)) (2 ^ 64 - 2) = Some ts /\
  ts_sec ts * 1000000000 + ts_nsec ts = (1700000000 * 1000000 + 999999) * 1000 + (2 ^ 64 - 2) * 1000000.
Proof. eexists. split; [vm_compute; reflexivity|]. apply (wait_time_exact (mk_timeval 1700000000 999999) (2 ^ 64 - 2)); try (vm_compute; split; done). Defined.

(** * The robust mutex *)
(** A thread that dies with the mutex leaves it [MDead]; who locks it then has it
    [MMarred] until it calls it consistent. *)
Inductive pmutex := MRaw | MFree | MHeld (t : nat) | MDead | MMarred (t : nat) | MLost.

Definition EOWNERDEAD : Z := 130.
Definition ENOTRECOVERABLE : Z := 131.
Definition EINVAL : Z := 22.
Definition EBUSY : Z := 16.
Definition EPERM : Z := 1.

(** [None]: the call blocks. *)
Definition pthread_mutex_lock (t : nat) (m : pmutex) : option (Z * pmutex) :=
  match m with
  | MRaw => Some (EINVAL, m)
  | MFree => Some (0, MHeld t)
  | MHeld _ | MMarred _ => None
  | MDead => Some (EOWNERDEAD, MMarred t)
  | MLost => Some (ENOTRECOVERABLE, m)
  end.
Definition pthread_mutex_consistent (m : pmutex) : Z * pmutex := match m with MMarred t => (0, MHeld t) | _ => (EINVAL, m) end.
Definition pthread_mutex_unlock (t : nat) (m : pmutex) : Z * pmutex :=
  match m with
  | MHeld o => if decide (o = t) then (0, MFree) else (EPERM, m)
  | MMarred o => if decide (o = t) then (0, MLost) else (EPERM, m)
  | _ => (EPERM, m)
  end.
Definition pthread_mutex_destroy (m : pmutex) : Z * pmutex :=
  match m with MFree | MLost | MDead => (0, MRaw) | MRaw => (EINVAL, m) | _ => (EBUSY, m) end.
Definition dies (t : nat) (m : pmutex) : pmutex := match m with MHeld o => if decide (o = t) then MDead else m | MMarred o => if decide (o = t) then MDead else m | _ => m end.

(** [attr]: whether the attribute calls succeed. *)
Definition mutex_open (attr : bool) (m : pmutex) : bool * pmutex := if attr then (true, MFree) else (false, m).
Definition mutex_close (m : pmutex) : bool * pmutex := let '(eno, m) := pthread_mutex_destroy m in (eno =? 0, m).

(** [lock], whose loop has fuel; [None]: blocked. *)
Fixpoint robust_lock (fuel : nat) (attr : bool) (t : nat) (m : pmutex) : option (option bool * pmutex) :=
  match fuel with
  | O => Some (None, m)
  | S fuel =>
      '(eno, m) ← pthread_mutex_lock t m;
      if eno =? 0 then Some (Some true, m)
      else
        let recover m :=
          let '(closed, m) := mutex_close m in
          if closed then let '(opened, m) := mutex_open attr m in if opened then robust_lock fuel attr t m else Some (Some false, m)
          else Some (Some false, m) in
        if eno =? EOWNERDEAD then
          let '(c, m) := pthread_mutex_consistent m in
          if c =? 0 then robust_lock fuel attr t (pthread_mutex_unlock t m).2 else recover m
        else if eno =? ENOTRECOVERABLE then recover m
        else Some (Some false, m)
  end.
Definition robust_unlock (t : nat) (m : pmutex) : bool * pmutex := let '(eno, m) := pthread_mutex_unlock t m in (eno =? 0, m).

(** A mutex nobody living has is taken, in at most two rounds, whether its owner
    died or it was given up; one that somebody has is waited for; one that was
    never opened is refused. *)
Lemma robust_lock_recovers fuel t m : (2 <= fuel)%nat ->
  robust_lock fuel true t m =
  match m with
  | MFree | MDead | MLost => Some (Some true, MHeld t)
  | MHeld _ | MMarred _ => None
  | MRaw => Some (Some false, MRaw)
  end.
Proof.
  intros Hf. destruct fuel as [|[|fuel]]; try lia. destruct m; try reflexivity. cbn. rewrite decide_True by done. reflexivity.
Qed.
(** Without the loop over: the owner that dies and is mourned twice over. *)
Lemma robust_lock_after_death fuel t t' m : (2 <= fuel)%nat -> m = MHeld t' -> robust_lock fuel true t (dies t' m) = Some (Some true, MHeld t).
Proof. intros Hf ->. cbn. rewrite decide_True by done. by rewrite robust_lock_recovers. Qed.

(** * Named semaphores *)
(** The semaphores by number with their values, the names, and how many handles
    on each are open. *)
Record sems := mk_sems { sm_names : gmap str nat; sm_values : gmap nat nat; sm_opens : gmap nat nat; sm_next : nat }.
Definition sems_empty : sems := mk_sems ∅ ∅ ∅ 0.
Definition opens_of (i : nat) (s : sems) : nat := default 0%nat (sm_opens s !! i).
Definition add_open (i : nat) (s : sems) : sems := mk_sems (sm_names s) (sm_values s) (<[i := S (opens_of i s)]> (sm_opens s)) (sm_next s).
Definition del_open (i : nat) (s : sems) : sems := mk_sems (sm_names s) (sm_values s) (<[i := pred (opens_of i s)]> (sm_opens s)) (sm_next s).

(** [sem_open] with [O_CREAT]; [grant]: the system has one to give. *)
Definition sys_sem_open (grant : bool) (name : str) (count : nat) (s : sems) : option nat * sems :=
  if negb grant then (None, s)
  else match sm_names s !! name with
    | Some i => (Some i, add_open i s)
    | None => (Some (sm_next s), add_open (sm_next s) (mk_sems (<[name := sm_next s]> (sm_names s)) (<[sm_next s := count]> (sm_values s)) (sm_opens s) (S (sm_next s))))
    end.
Definition sys_sem_unlink (name : str) (s : sems) : bool * sems :=
  match sm_names s !! name with
  | Some _ => (true, mk_sems (delete name (sm_names s)) (sm_values s) (sm_opens s) (sm_next s))
  | None => (false, s)
  end.
Definition SEM_VALUE_MAX : Z := 2 ^ 31 - 1.
Definition sys_sem_post (i : nat) (s : sems) : bool * sems :=
  match sm_values s !! i with
  | Some v => if Z.of_nat v <? SEM_VALUE_MAX then (true, mk_sems (sm_names s) (<[i := S v]> (sm_values s)) (sm_opens s) (sm_next s)) else (false, s)
  | None => (false, s)
  end.

(** ** [sem_helper]; [None] is [SEM_FAILED] *)
Definition sem_helper_open (grant : bool) (name : str) (count : nat) (s : sems) : option nat * sems := sys_sem_open grant name count s.
Definition sem_helper_close (h : option nat) (s : sems) : bool * sems := match h with None => (false, s) | Some i => (true, del_open i s) end.
Definition sem_helper_destroy (name : str) (s : sems) : bool * sems := sys_sem_unlink name s.
Fixpoint sem_helper_posts (i count : nat) (s : sems) : bool * sems :=
  match count with
  | O => (true, s)
  | S n => let '(ok, s) := sys_sem_post i s in if ok then sem_helper_posts i n s else (false, s)
  end.
Definition sem_helper_post (h : option nat) (count : Z) (s : sems) : bool * sems :=
  match h with None => (false, s) | Some i => sem_helper_posts i (Z.to_nat count) s end.
(** [tm] is 0, [invalid_value] or a time. [timed_out]: the time is over before a
    permit comes; the outer [None]: blocked. *)
Definition forever : Z := 2 ^ 64 - 1.
Definition sem_helper_wait (h : option nat) (tm : Z) (now : option timeval) (timed_out : bool) (s : sems) : option (bool * sems) :=
  match h with
  | None => Some (false, s)
  | Some i =>
      let take_one :=
        match sm_values s !! i with
        | Some (S v) => Some (true, mk_sems (sm_names s) (<[i := v]> (sm_values s)) (sm_opens s) (sm_next s))
        | _ => None
        end in
      if tm =? 0 then Some (true, s)
      else if tm =? forever then take_one
      else match calc_wait_time now tm with
        | None => Some (false, s)
        | Some _ => match take_one with Some r => Some r | None => if timed_out then Some (false, s) else None end
        end
  end.

(** A wait of no time at all succeeds and takes nothing. *)
Lemma zero_wait_takes_nothing i now b s : sem_helper_wait (Some i) 0 now b s = Some (true, s).
Proof. reflexivity. Qed.

(** What is posted can be taken, as often. *)
Lemma posts_add i n s v : sm_values s !! i = Some v -> Z.of_nat (v + n) <= SEM_VALUE_MAX ->
  exists s', sem_helper_posts i n s = (true, s') /\ sm_values s' = <[i := (v + n)%nat]> (sm_values s) /\ sm_names s' = sm_names s /\ sm_opens s' = sm_opens s.
Proof.
  revert s v. induction n as [|n IH]; intros s v Hv Hle; cbn [sem_helper_posts].
  - exists s. rewrite Nat.add_0_r, insert_id by done. done.
  - unfold sys_sem_post. rewrite Hv. destruct (Z.ltb_spec (Z.of_nat v) SEM_VALUE_MAX); [|lia].
    destruct (IH (mk_sems (sm_names s) (<[i := S v]> (sm_values s)) (sm_opens s) (sm_next s)) (S v)) as (s' & E1 & E2 & E3 & E4); [cbn; apply lookup_insert_eq|lia|].
    rewrite E1. exists s'. split; [done|]. rewrite E2, E3, E4. cbn. rewrite insert_insert_eq. split; [|done]. f_equal. lia.
Qed.

(** * [waiter_holder] and [waiter] *)
(** The handle: the name and the two semaphores; [None] is [invalid()]. *)
Definition whandle : Type := option (str * nat * nat).
Definition sem_name (name : str) : str := lit "__WAITER_HELPER_SEM__" ++ name.
Definition han_name (name : str) : str := lit "__WAITER_HELPER_HAN__" ++ name.

(** The waiter in shared memory: [opened_] and [lock_]. *)
Record shwaiter := mk_shwaiter { opened_ : Z; lock_ : pmutex }.
Record wstate := mk_wstate { ws_sems : sems; ws_waiter : shwaiter }.

Definition open_h (g1 g2 : bool) (name : str) (s : sems) : whandle * sems :=
  let '(sem, s) := sem_helper_open g1 (sem_name name) 0 s in
  match sem with
  | None => (None, s)
  | Some sem =>
      let '(han, s) := sem_helper_open g2 (han_name name) 0 s in
      match han with None => (None, s) | Some han => (Some (name, sem, han), s) end
  end.
Definition release_h (h : str * nat * nat) (s : sems) : sems :=
  let '(name, sem, han) := h in (sem_helper_close (Some sem) (sem_helper_close (Some han) s).2).2.
Definition close_h (h : str * nat * nat) (s : sems) : sems :=
  let '(name, sem, han) := h in (sem_helper_destroy (sem_name name) (sem_helper_destroy (han_name name) s).2).2.

(** [attr], [g1], [g2]: what the system grants. *)
Definition waiter_open (attr g1 g2 : bool) (name : str) (st : wstate) : whandle * wstate :=
  if decide (name = []) then (None, st)
  else
    let w := ws_waiter st in
    let first := opened_ w =? 0 in
    let w := mk_shwaiter (u32 (opened_ w + 1)) (lock_ w) in
    let '(ok, m) := if first then mutex_open attr (lock_ w) else (true, lock_ w) in
    let w := mk_shwaiter (opened_ w) m in
    if ok then let '(h, s) := open_h g1 g2 name (ws_sems st) in (h, mk_wstate s w) else (None, mk_wstate (ws_sems st) w).
Definition waiter_close (h : whandle) (st : wstate) : wstate :=
  match h with
  | None => st
  | Some h =>
      let s := release_h h (ws_sems st) in
      let w := ws_waiter st in
      let last := opened_ w =? 1 in
      let w := mk_shwaiter (u32 (opened_ w - 1)) (lock_ w) in
      if last then mk_wstate (close_h h s) (mk_shwaiter (opened_ w) (mutex_close (lock_ w)).2) else mk_wstate s w
  end.

(** * Users of one waiter *)
Inductive wu_op := UOpen | UClose (i : nat).

(** The handles of those that opened it, [None] once closed. *)
Definition wu_step (name : str) (x : wstate * list whandle) (o : wu_op) : wstate * list whandle :=
  let '(st, hs) := x in
  match o with
  | UOpen => let '(h, st) := waiter_open true true true name st in (st, hs ++ [h])
  | UClose i => match hs !! i with Some h => (waiter_close h st, <[i := None]> hs) | None => x end
  end.
Definition wu_run (name : str) : wstate * list whandle -> list wu_op -> wstate * list whandle := foldl (wu_step name).
Definition wu_start (m : pmutex) : wstate * list whandle := (mk_wstate sems_empty (mk_shwaiter 0 m), []).

Definition alive (h : whandle) : nat := match h with Some _ => 1 | None => 0 end.
Definition live (hs : list whandle) : nat := sum_list (alive <$> hs).

Lemma live_snoc hs h : live (hs ++ [h]) = (live hs + alive h)%nat.
Proof. unfold live. rewrite fmap_app, sum_list_with_app || rewrite fmap_app, sum_list_app. cbn. lia. Qed.
Lemma live_close hs i h : hs !! i = Some h -> live hs = (live (<[i := None]> hs) + alive h)%nat.
Proof.
  unfold live. revert i. induction hs as [|h0 hs IH]; intros [|i] Hi; try done.
  - injection Hi as ->. change (<[0%nat := None]> (h :: hs)) with ((None : whandle) :: hs). cbn. lia.
  - change (<[S i := None]> (h0 :: hs)) with (h0 :: <[i := None]> hs). specialize (IH _ Hi). cbn in *. lia.
Qed.
Lemma live_none hs : live hs = 0%nat -> forall h, h ∈ hs -> h = None.
Proof.
  unfold live. induction hs as [|h0 hs IH]; intros Hl h Hh; [by apply not_elem_of_nil in Hh|]. cbn in Hl. apply elem_of_cons in Hh as [->|Hh]; [destruct h0; [cbn in Hl; lia|done]|]. apply IH; [lia|done].
Qed.

Lemma names_differ name : sem_name name <> han_name name.
Proof. done. Qed.

Record wu_inv (name : str) (x : wstate * list whandle) : Prop := {
  wi_opened : opened_ (ws_waiter x.1) = Z.of_nat (live x.2);
  wi_fresh i : (sm_next (ws_sems x.1) <= i)%nat -> opens_of i (ws_sems x.1) = 0%nat;
  wi_unused : live x.2 = 0%nat -> sm_names (ws_sems x.1) !! sem_name name = None /\ sm_names (ws_sems x.1) !! han_name name = None /\ forall i, opens_of i (ws_sems x.1) = 0%nat;
  wi_used : live x.2 <> 0%nat -> lock_ (ws_waiter x.1) = MFree /\ exists sem han, sem <> han /\
    sm_names (ws_sems x.1) !! sem_name name = Some sem /\ sm_names (ws_sems x.1) !! han_name name = Some han /\
    opens_of sem (ws_sems x.1) = live x.2 /\ opens_of han (ws_sems x.1) = live x.2 /\
    (forall i, i <> sem -> i <> han -> opens_of i (ws_sems x.1) = 0%nat) /\ forall h, Some h ∈ x.2 -> h = (name, sem, han) }.

Lemma opens_add i j s : opens_of j (add_open i s) = if decide (j = i) then S (opens_of i s) else opens_of j s.
Proof. unfold opens_of, add_open. cbn. destruct (decide (j = i)) as [->|]; [by rewrite lookup_insert_eq|by rewrite lookup_insert_ne]. Qed.
Lemma opens_del i j s : opens_of j (del_open i s) = if decide (j = i) then pred (opens_of i s) else opens_of j s.
Proof. unfold opens_of, del_open. cbn. destruct (decide (j = i)) as [->|]; [by rewrite lookup_insert_eq|by rewrite lookup_insert_ne]. Qed.

Lemma sem_open_new name count s : sm_names s !! name = None -> exists s', sem_helper_open true name count s = (Some (sm_next s), s') /\
  sm_names s' = <[name := sm_next s]> (sm_names s) /\ sm_next s' = S (sm_next s) /\ forall i, opens_of i s' = if decide (i = sm_next s) then S (opens_of (sm_next s) s) else opens_of i s.
Proof. intros Hn. unfold sem_helper_open, sys_sem_open. cbn [negb]. rewrite Hn. eexists. split; [reflexivity|]. split; [done|]. split; [done|]. intros i. by rewrite opens_add. Qed.
Lemma sem_open_old name count s j : sm_names s !! name = Some j -> exists s', sem_helper_open true name count s = (Some j, s') /\
  sm_names s' = sm_names s /\ sm_next s' = sm_next s /\ forall i, opens_of i s' = if decide (i = j) then S (opens_of j s) else opens_of i s.
Proof. intros Hn. unfold sem_helper_open, sys_sem_open. cbn [negb]. rewrite Hn. eexists. split; [reflexivity|]. split; [done|]. split; [done|]. intros i. by rewrite opens_add. Qed.

(** The first one to open makes the semaphores, the others find them. *)
Lemma wu_open_inv name st hs : name <> [] -> Z.of_nat (live hs) + 1 < 2 ^ 32 -> wu_inv name (st, hs) -> wu_inv name (wu_step name (st, hs) UOpen).
Proof.
  intros Hname Hsmall [Ho Hf Hun Hus]. cbn [fst snd] in *. destruct st as [s [o m]]. cbn [ws_sems ws_waiter opened_ lock_] in *. subst o. unfold wu_step, waiter_open. rewrite decide_False by done. cbn [ws_sems ws_waiter opened_ lock_].
  assert (u32 (Z.of_nat (live hs) + 1) = Z.of_nat (live hs + 1)) as -> by (unfold u32; rewrite Z.mod_small; lia). unfold open_h.
  destruct (Z.eqb_spec (Z.of_nat (live hs)) 0) as [Hz|Hnz].
  - destruct (Hun ltac:(lia)) as (N1 & N2 & Hop). cbn [mutex_open]. destruct (sem_open_new (sem_name name) 0 s N1) as (s1 & -> & E1 & E2 & E3).
    destruct (sem_open_new (han_name name) 0 s1) as (s2 & -> & F1 & F2 & F3); [by rewrite E1, lookup_insert_ne|]. rewrite E2 in *.
    assert (forall i, opens_of i s2 = if decide (i = S (sm_next s)) then 1%nat else if decide (i = sm_next s) then 1%nat else 0%nat) as Hop2 by (intros i; rewrite F3, !E3, !Hop; repeat case_decide; lia).
    split; cbn [fst snd ws_sems ws_waiter opened_ lock_]; rewrite ?live_snoc; cbn [alive]; [done| |lia|].
    + intros i Hi. rewrite Hop2, !decide_False by lia. done.
    + intros _. split; [done|]. exists (sm_next s), (S (sm_next s)). split; [lia|]. rewrite F1, E1, lookup_insert_ne, !lookup_insert_eq by done. split; [done|]. split; [done|].
      rewrite !Hop2. assert (live hs = 0%nat) as -> by lia. repeat case_decide; try lia. split; [done|]. split; [done|]. split; [intros i Ha Hb; by rewrite Hop2, !decide_False|].
      intros h [Hh|[= ->]%list_elem_of_singleton]%elem_of_app; [|done]. apply live_none in Hh; [done|lia].
  - destruct (Hus ltac:(lia)) as (Hl & sem & han & Hne & N1 & N2 & O1 & O2 & Oo & Hh). destruct (sem_open_old (sem_name name) 0 s sem N1) as (s1 & -> & E1 & E2 & E3).
    destruct (sem_open_old (han_name name) 0 s1 han) as (s2 & -> & F1 & F2 & F3); [by rewrite E1|].
    assert (forall i, opens_of i s2 = if decide (i = han) then S (live hs) else if decide (i = sem) then S (live hs) else 0%nat) as Hop2.
    { intros i. rewrite F3, !E3, O1. repeat case_decide; subst; try done; try lia. by apply Oo. }
    split; cbn [fst snd ws_sems ws_waiter opened_ lock_]; rewrite ?live_snoc; cbn [alive]; [done| |lia|].
    + intros i Hi. rewrite F2, E2 in Hi. specialize (Hf i Hi). rewrite Hop2. repeat case_decide; subst; lia.
    + intros _. split; [done|]. exists sem, han. split; [done|]. rewrite F1, E1. split; [done|]. split; [done|]. rewrite !Hop2. repeat case_decide; try done. split; [lia|]. split; [lia|].
      split; [intros i Ha Hb; by rewrite Hop2, !decide_False|]. intros h [Hin|[= ->]%list_elem_of_singleton]%elem_of_app; [by apply Hh|done].
Qed.

(** The last one to close takes them away. *)
Lemma wu_close_inv name st hs i : Z.of_nat (live hs) < 2 ^ 32 -> wu_inv name (st, hs) -> wu_inv name (wu_step name (st, hs) (UClose i)).
Proof.
  intros Hsmall Hinv. cbn [wu_step]. destruct (hs !! i) as [[h|]|] eqn:Ei; [|cbn [waiter_close]; by rewrite list_insert_id|done]. destruct Hinv as [Ho Hf Hun Hus]. cbn [fst snd] in *.
  pose proof (live_close hs i _ Ei) as Hlc. cbn [alive] in Hlc. destruct (Hus ltac:(lia)) as (Hl & sem & han & Hne & N1 & N2 & O1 & O2 & Oo & Hh).
  assert (h = (name, sem, han)) as -> by (apply Hh; by eapply list_elem_of_lookup_2). destruct st as [s [o m]]. cbn [ws_sems ws_waiter opened_ lock_] in *. subst o m.
  unfold waiter_close. cbn [ws_sems ws_waiter opened_ lock_ release_h sem_helper_close snd]. set (s1 := del_open sem (del_open han s)).
  assert (forall i, opens_of i s1 = if decide (i = han) then pred (live hs) else if decide (i = sem) then pred (live hs) else 0%nat) as Hop1.
  { intros k. unfold s1. rewrite !opens_del. repeat case_decide; subst; try done; try lia. by apply Oo. }
  assert (u32 (Z.of_nat (live hs) - 1) = Z.of_nat (live hs - 1)) as -> by (unfold u32; rewrite Z.mod_small; lia).
  destruct (Z.eqb_spec (Z.of_nat (live hs)) 1) as [H1|H1].
  - unfold close_h, sem_helper_destroy, sys_sem_unlink. change (sm_names s1) with (sm_names s). rewrite N2. cbn [snd sm_names]. rewrite lookup_delete_ne, N1 by done. cbn [snd].
    split; cbn [fst snd ws_sems ws_waiter opened_ lock_]; [f_equal; lia|..|intros; lia].
    + intros k Hk. change (opens_of k s1 = 0%nat). rewrite Hop1. repeat case_decide; lia.
    + intros _. cbn [sm_names]. rewrite lookup_delete_eq, lookup_delete_ne, lookup_delete_eq by done. split; [done|]. split; [done|]. intros k. change (opens_of k s1 = 0%nat). rewrite Hop1. repeat case_decide; lia.
  - split; cbn [fst snd ws_sems ws_waiter opened_ lock_]; [f_equal; lia|..|intros; split; [done|]].
    + intros k Hk. specialize (Hf k Hk). rewrite Hop1. repeat case_decide; subst; lia.
    + intros; lia.
    + exists sem, han. split; [done|]. change (sm_names s1) with (sm_names s). split; [done|]. split; [done|]. rewrite !Hop1. repeat case_decide; try done. split; [lia|]. split; [lia|].
      split; [intros k Ha Hb; by rewrite Hop1, !decide_False|]. intros h [j Hj]%list_elem_of_lookup. apply list_lookup_insert_Some in Hj as [(_ & ? & _)|(_ & Hj)]; [done|]. apply Hh. by eapply list_elem_of_lookup_2.
Qed.

Lemma live_bound hs : (live hs <= length hs)%nat.
Proof. unfold live. induction hs as [|[h|] hs IH]; cbn in *; lia. Qed.
Lemma wu_run_inv name ops x : name <> [] -> Z.of_nat (length x.2 + length ops) < 2 ^ 32 -> wu_inv name x -> wu_inv name (wu_run name x ops).
Proof.
  intros Hname. revert x. induction ops as [|o ops IH]; intros [st hs] Hn Hinv; [done|]. cbn [wu_run foldl]. apply IH.
  - cbn [snd] in *. destruct o as [|i]; cbn [wu_step].
    + destruct (waiter_open true true true name st) as [h st']. cbn. rewrite length_app. cbn in *. lia.
    + destruct (hs !! i); cbn; rewrite ?length_insert; cbn in *; lia.
  - cbn [snd length] in *. pose proof (live_bound hs). destruct o as [|i]; [apply wu_open_inv|apply wu_close_inv]; try done; lia.
Qed.

(** A waiter lives from its first user to its last. After any sequence of
    openings and closings, [opened_] is the number of handles that are open; while
    there is one, the mutex can be locked and all handles are the same two
    semaphores, found under their names; when there is none, the names are gone
    and no semaphore is held open. *)
Theorem waiter_lifetime (name : str) (m : pmutex) (ops : list wu_op) (st : wstate) (hs : list whandle) :
  name <> [] -> Z.of_nat (length ops) < 2 ^ 32 -> wu_run name (wu_start m) ops = (st, hs) ->
  opened_ (ws_waiter st) = Z.of_nat (live hs) /\
  (live hs <> 0%nat -> lock_ (ws_waiter st) = MFree /\ exists sem han, sem <> han /\
     sm_names (ws_sems st) !! sem_name name = Some sem /\ sm_names (ws_sems st) !! han_name name = Some han /\ forall h, Some h ∈ hs -> h = (name, sem, han)) /\
  (live hs = 0%nat -> sm_names (ws_sems st) !! sem_name name = None /\ sm_names (ws_sems st) !! han_name name = None /\ forall i, opens_of i (ws_sems st) = 0%nat).
Proof.
  intros Hname Hn Hrun. assert (wu_inv name (wu_start m)) as H0 by (split; done).
  pose proof (wu_run_inv name ops (wu_start m) Hname Hn H0) as [Ho _ Hun Hus]. rewrite Hrun in *. cbn [fst snd] in *. split; [done|]. split; [|done].
  intros Hl. destruct (Hus Hl) as (Hm & sem & han & Hne & N1 & N2 & _ & _ & _ & Hh). split; [done|]. by exists sem, han.
Qed.
Lemma waiter_lifetime_witness : exists st hs, wu_run (lit "rd") (wu_start MRaw) [UOpen; UOpen; UClose 0; UOpen; UClose 1] = (st, hs) /\
  hs = [None; None; Some (lit "rd", 0, 1)]%nat /\ opened_ (ws_waiter st) = Z.of_nat (live hs).
Proof.
  destruct (wu_run (lit "rd") (wu_start MRaw) [UOpen; UOpen; UClose 0; UOpen; UClose 1]) as [st hs] eqn:E. exists st, hs. split; [done|].
  split; [vm_compute in E; by injection E as <- <-|]. apply (waiter_lifetime (lit "rd") MRaw [UOpen; UOpen; UClose 0; UOpen; UClose 1] st hs); [done|vm_compute; reflexivity|exact E].
Defined.

(** An opening that fails stays counted: nobody will be the last to close, and
    the first semaphore, if it was the second that failed, stays open. *)
Lemma failed_open_stays_counted :
  let '(h, st) := waiter_open true true false (lit "rd") (wu_start MRaw).1 in
  h = None /\ opened_ (ws_waiter (waiter_close h st)) = 1 /\ opens_of 0 (ws_sems (waiter_close h st)) = 1%nat.
Proof. vm_compute. done. Qed.
(** When it is the mutex that could not be made, the next one to open does not
    try again, and its lock does not work. *)
Lemma failed_mutex_is_kept :
  let '(h, st) := waiter_open false true true (lit "rd") (wu_start MRaw).1 in
  let '(h', st') := waiter_open true true true (lit "rd") st in
  h = None /\ is_Some h' /\ robust_lock 5 true 0 (lock_ (ws_waiter st')) = Some (Some false, MRaw).
Proof. vm_compute. split; [done|]. split; [by eexists|done]. Qed.

(** * [object_impl]: an object of any kind in shared memory, opened by the first *)
Section object.
Context {T : Type}.
Variables (T_open : T -> bool * T) (T_close : T -> T).

Record info_t := mk_info { object_ : T; info_opened : Z }.

(** The memory is there ([h_.acquire] succeeds). *)
Definition object_open (x : info_t) : bool * info_t :=
  let first := info_opened x =? 0 in
  let n := u32 (info_opened x + 1) in
  if first then let '(ok, o) := T_open (object_ x) in (ok, mk_info o n) else (true, mk_info (object_ x) n).
Definition object_close (x : info_t) : info_t :=
  mk_info (if info_opened x =? 1 then T_close (object_ x) else object_ x) (u32 (info_opened x - 1)).

(** [n] openings in a row and as many closings: the object is opened once and
    closed once. *)
Lemma object_opened_once n x : info_opened x = 0 -> Z.of_nat (S n) < 2 ^ 32 -> (T_open (object_ x)).1 = true ->
  Nat.iter (S n) (fun x => (object_open x).2) x = mk_info (T_open (object_ x)).2 (Z.of_nat (S n)).
Proof.
  intros H0 Hn Hok. induction n as [|n IH].
  - cbn [Nat.iter nat_rect]. unfold object_open. rewrite H0. cbn. destruct (T_open (object_ x)); done.
  - change (Nat.iter (S (S n)) (fun x => (object_open x).2) x) with ((object_open (Nat.iter (S n) (fun x => (object_open x).2) x)).2). rewrite IH by lia. unfold object_open. cbn [info_opened].
    destruct (Z.eqb_spec (Z.of_nat (S n)) 0); [lia|]. cbn [snd object_]. f_equal. unfold u32. rewrite Z.mod_small; lia.
Qed.
Lemma object_closed_once n o : Z.of_nat (S n) < 2 ^ 32 -> Nat.iter (S n) object_close (mk_info o (Z.of_nat (S n))) = mk_info (T_close o) 0.
Proof.
  intros Hn. enough (forall k, (k <= n)%nat -> Nat.iter k object_close (mk_info o (Z.of_nat (S n))) = mk_info o (Z.of_nat (S n - k))) as Hk.
  { change (Nat.iter (S n) object_close (mk_info o (Z.of_nat (S n)))) with (object_close (Nat.iter n object_close (mk_info o (Z.of_nat (S n))))). rewrite (Hk n) by lia.
    unfold object_close. cbn [info_opened object_]. replace (S n - n)%nat with 1%nat by lia. done. }
  intros k Hle. induction k as [|k IH]; [by rewrite Nat.sub_0_r|].
  change (Nat.iter (S k) object_close (mk_info o (Z.of_nat (S n)))) with (object_close (Nat.iter k object_close (mk_info o (Z.of_nat (S n))))). rewrite IH by lia.
  unfold object_close. cbn [info_opened object_]. destruct (Z.eqb_spec (Z.of_nat (S n - k)) 1); [lia|]. f_equal. unfold u32. rewrite Z.mod_small; lia.
Qed.
End object.

(** * [waiter_wrapper] *)
Record wrapper := mk_wrapper { wr_attached : bool; wr_h : whandle; wr_closed : bool }.
Definition wrapper_valid (w : wrapper) : bool := wr_attached w && bool_decide (is_Some (wr_h w)).
(** [close]: those that wait are told to quit ([WaiterClose]) before. *)
Definition wrapper_close (w : wrapper) (st : wstate) : wrapper * wstate :=
  if wrapper_valid w then (mk_wrapper (wr_attached w) None true, waiter_close (wr_h w) st) else (w, st).
Definition wrapper_attach (w : wrapper) (st : wstate) : wrapper * wstate := let '(w, st) := wrapper_close w st in (mk_wrapper true (wr_h w) (wr_closed w), st).
Definition wrapper_open (attr g1 g2 : bool) (name : str) (w : wrapper) (st : wstate) : bool * wrapper * wstate :=
  if negb (wr_attached w) then (false, w, st)
  else
    let '(w, st) := wrapper_close w st in
    let '(h, st) := waiter_open attr g1 g2 name st in
    let w := mk_wrapper (wr_attached w) h false in (wrapper_valid w, w, st).

(** Closing twice is closing once, and opening again leaves as many handles open. *)
Lemma wrapper_close_idem w st : let '(w1, st1) := wrapper_close w st in wrapper_close w1 st1 = (w1, st1).
Proof. unfold wrapper_close. destruct (wrapper_valid w) eqn:E; [|by rewrite E]. unfold wrapper_valid. cbn. by rewrite andb_false_r. Qed.
Lemma wrapper_reopen name w st h n : name <> [] -> wr_attached w = true -> wr_h w = Some h -> opened_ (ws_waiter st) = Z.of_nat n -> (1 < n)%nat -> Z.of_nat n < 2 ^ 32 ->
  exists w' st', wrapper_open true true true name w st = (true, w', st') /\ opened_ (ws_waiter st') = Z.of_nat n /\ wrapper_valid w' = true.
Proof.
  intros Hname Ha Hh Ho Hn Hb. unfold wrapper_open, wrapper_close, wrapper_valid. rewrite Ha, Hh. cbn [negb andb bool_decide is_Some_dec wr_attached wr_h].
  unfold waiter_close. destruct (Z.eqb_spec (opened_ (ws_waiter st)) 1); [lia|]. unfold waiter_open. rewrite decide_False by done. cbn [ws_waiter opened_ lock_ ws_sems]. rewrite Ho.
  assert (u32 (Z.of_nat n - 1) = Z.of_nat n - 1) as -> by (unfold u32; rewrite Z.mod_small; lia). destruct (Z.eqb_spec (Z.of_nat n - 1) 0); [lia|].
  assert (u32 (Z.of_nat n - 1 + 1) = Z.of_nat n) as -> by (unfold u32; rewrite Z.mod_small; lia). unfold open_h, sem_helper_open, sys_sem_open. cbn [negb].
  destruct (sm_names (release_h h (ws_sems st)) !! sem_name name) as [i|] eqn:E1;
    match goal with |- context [sm_names ?s !! han_name name] => destruct (sm_names s !! han_name name) end; by eexists _, _.
Qed.
